(* ===== verification/_CoqProject ===== *)
-Q . S2P
Prelude.v
GoStrings.v
Addr.v
Auth.v
GoIO.v
Filepath.v
Fs.v
Tar.v
UntarWf.v
TarRoundtrip.v
QemuConn.v
ConnLocks.v
QemuAccept.v
Control.v
ControlStep.v
ControlRefine.v
Proto.v
Stream.v
Mux.v
MuxSession.v
Forward.v
StreamForwarder.v
Tunnel.v
Ports.v
Reverse.v
PortForward.v
ReverseForward.v
AdbCli.v
Transfer.v
TransferTree.v
Host.v
AdbDevice.v
Testutils.v
TestServer.v
Bootstrap.v
Aoa.v
Exec.v
ExecProcess.v
Install.v
InstallClient.v
AdbRun.v
AdbForward.v
GoFlags.v
Binaries.v
Launch.v
Lifecycle.v
ForwarderRun.v
