(* ===== verification/Prelude.v ===== *)
(** * Waterfall: a verification development

    Waterfall (src/waterfall) is a replacement for adb: a gRPC server on an Android
    device, reached over qemu pipes, sockets or USB, and host tools that run commands,
    move files, install packages and forward connections through it.  This library models
    the Go code under src/waterfall/golang and proves what makes it correct.

    ** How the program is put together

    - utils/addr.go parses the addresses all binaries take;
    - net/qemu/qemu.go turns a qemu pipe, a raw byte channel, into connections: a
      handshake, then messages framed by their length, with half closes;
      net/qemu/control.go opens and closes such connections at the host's request;
    - mux multiplexes connections over one that cannot be shared;
    - stream/stream.go turns a gRPC stream of messages into a reader and a writer;
    - forward/forward.go copies between two connections in both directions, and
      forward/stream.go connects that to a stream of forwarding messages;
    - forward/ports/ports.go is the host daemon that keeps the forwarding sessions;
    - server/server.go is the device's server: execution, transfer, installation, and
      the device's side of forwarding; server/auth_interceptor.go guards it;
    - stream/tar.go packs trees of files into the archives that push and pull carry,
      and unpacks them;
    - client/client.go and client/adb/adb.go are the host's client and the adb
      compatible command line on top of it and of the daemon;
    - adb/adb.go runs the real adb; bootstrap uses it to bring the server and the
      forwarder up, and to check that the server answers;
    - aoa/aoa.go opens a phone as a USB accessory;
    - server/server_bin.go, forward/forward_bin.go, forward/forward_usb_bin.go,
      forward/ports/ports_bin.go and forkfd/forkfd.go are the binaries: they parse their
      flags and start each other.

    ** Which file models what

    - [Prelude] (this file): Go values, errors, outcomes ([Ret], [Panic], [Block]),
      slices with their bounds, machine integers, tactics, hints, reachability.
    - [GoStrings], [GoIO]: the parts of strings, strconv, fmt, io, bufio and
      encoding/binary the sources call, with their lemmas.
    - [Filepath], [Fs]: the parts of path/filepath and os the tar code calls, on a map from
      locations to files, directories and links, with the kernel's resolution of links.
    - [GoFlags]: the package flag, on lists of arguments.
    - [Addr]: [ParseAddr] against a grammar of addresses.
    - [QemuConn]: [Conn] of qemu.go, its state as a record, one function per method;
      [ConnLocks]: the goroutines that call the methods, with the locks they take.
    - [QemuAccept]: the handshakes, [Pipe.Accept] and the connection builders.
    - [Control]: the control socket of net/qemu/control.go: connections in a heap, the
      table of descriptors, the nested calls of [Close]; the encoding of the messages is a
      parameter ([ControlCodec], [ControlCodecLaws]) with the protobuf format as instance.
      [ControlStep]: the session around it - Accept, the handler, the goroutines of Open, Read,
      Close in parts, the locks - as a step relation; [ControlRefine]: its steps of closing
      implement the function of [Control].
    - [Mux]: the codec and the listener of the multiplexer (mux), an instance of [Stream];
      [MuxSession]: client and server over one connection, and the net.Conn methods of mux and
      net/qemu that are constants.
    - [Proto]: the messages of proto/waterfall.proto.
    - [Stream]: the message interfaces as type classes with laws ([MsgLaws]), [Reader]
      with its goroutine under any schedule, [Writer], [ReadWriteCloser].
    - [Forward]: [Forward] and [asyncCopy] as a step relation, between ends that take any number
      of bytes or stop reading after some ([xcap], [ycap]); the codec of forwarding messages as an instance of the classes of [Stream].  [StreamForwarder]: forwarding
      between a stream and a connection, the messages it sends, and Stop.  [Tunnel]: two of
      them on the ends of one RPC, the messages under way, the end of the RPC and its failures.
    - [Ports]: the daemon; handlers as functions, daemon and goroutines as a step
      relation [pf_step], with invariants for its listeners, its reverse sessions and its
      addresses.
    - [Reverse]: the server's side of forwarding, sessions in a heap shared by the
      handlers of [srv_step]; the theorems that compose it with [Ports].
    - [PortForward]: the daemon, the server's [Forward] and every connection between them, each
      a [Tunnel], as one step relation.  [ReverseForward]: a reverse session with the accepts
      and announcements of the server, the daemon's goroutine and the connections they join.
    - [AdbCli]: the command line, from the arguments to the calls it makes; [AdbRun]: the
      process around it, from the arguments to the output and the exit status, with the
      execution, the transfers, the installation and the daemon its calls reach.  [AdbForward]
      puts that process, the daemon it calls and the connections of [PortForward] together.
    - [Tar]: [Tar], [Untar], [TarBytes] and [UntarBytes] of stream/tar.go; [UntarWf]: they
      keep the file system well formed; [TarRoundtrip]: unpacking undoes packing.
    - [Transfer], [Exec], [Install]: the loops of push, pull and echo, remote execution
      with its three goroutines, and installation, each on both sides of the stream.
      [TransferTree] puts the tar code at both ends of the loops of [Transfer];
      [ExecProcess] puts the process and the client's call around [Exec];
      [InstallClient] is the client's request.
    - [Host]: what the host's tools do to the world, as a history of events and answers that
      may depend on it; [AdbDevice] ([Device] of adb/adb.go) and [Bootstrap] (the package
      bootstrap and its two mains) run in it.
    - [Aoa]: aoa/aoa.go over a USB library that answers, with the open handles as a multiset.
    - [Binaries]: the mains of the other binaries and server/snapshot.go, in an
      environment of their own; [Launch]: everything a bootstrap starts and writes, given to the
      flag parsing and the mains of the binaries, and forkfd with the loop that hands connections
      on; [ForwarderRun]: the forwarder once it listens, with its loops, the handshakes they can
      be held up in, its signal handler and its polls; [Lifecycle]: a server across a snapshot.
    - [Testutils], [TestServer]: the test helpers (ports, emulators, runfiles) and the echo
      server of the qemu tests.
    - [Auth]: the interceptors.

    ** How it is modelled

    A Go function becomes a function on the state it reads and writes.  An error is a
    value of [result] or [option error]; a panic (an index or a slice out of range, a nil
    pointer) and an operation that waits for ever are the outcomes [Panic] and [Block].
    Goroutines are step relations whose steps are the places where they can interleave.
    What the kernel, the network, the device's commands and gRPC answer is an argument of
    the step or of the function, so the theorems hold for every answer.  A connection end
    is a [source] (the bytes it will deliver, and the error that ends them, if any) and a
    [sink] (the bytes taken, and after how many more it fails, if ever).  [int] has the
    width [w], 32 or 64 ([IntWidth]); conversions between widths wrap around.

    Loops that are not structural run on fuel, a bound on what is left to do: the length
    of the text ([Addr], [AdbCli], the recursion of MkdirAll in [Fs]), of the input
    ([Transfer]), the slices that can still come ([Stream]), the number of bytes to write
    ([GoIO]), the number of nodes of the file system (the walk of [Tar]).  Each is shown to be
    enough, so the theorems are about the loop and not about its bound.  The limits on the
    links in one path (40 in the kernel, 255 in EvalSymlinks) are the code's own.  The endless
    accept loops of the binaries run for a given number of rounds.

    A process that starts another is modelled by the command line it passes: [Launch] and
    [daemon_child_listens] run the flag parsing and the main of the child on it.

    ** What the theorems show

    - Byte streams survive: framing, message streams, forwarding, push, pull, execution
      ([conn_stream_roundtrip], [rwc_roundtrip], [forward_nil_complete],
      [remote_exec_end_to_end], [install_request_carries]).
    - Trees of files survive: a tree pushed to or pulled from a fresh place is there, file for
      file ([push_tree_end_to_end], [pull_tree_end_to_end], [tar_untar_roundtrip]), and a
      push that returns nil did everything ([push_nil_complete]).
    - Unpacking: what an archive can and cannot touch ([untar_contained],
      [untar_dotdot_escapes]), and that the file system stays well formed
      ([untar_well_formed]); no link may lie in the destination before.
    - From the command line to the device and back: what [adb shell], [adb pull] and
      [adb forward] print, change and exit with ([adb_shell_end_to_end],
      [adb_pull_end_to_end], [adb_forward_then_list], [adb_starts_adb_once]), and that the
      bytes of every later connection go where [adb forward] said ([adb_forward_carries]).
    - Two ends agree: a tunnel over a stream delivers everything ([tunnel_delivers]), and what
      breaks leaves a prefix ([tunnel_integrity], [tunnel_safe]); the connections of a
      multiplexer are paired ([mux_session_pairs]).
    - Forwarding as a whole: a connection accepted on one side is carried to and from the
      destination dialled on the other, in both directions ([port_forward_end_to_end],
      [reverse_forward_end_to_end]), every RPC is accounted for ([forward_paths_accounted]) and a
      stopped session takes no more ([port_forward_stopped]).
    - Processes fit together: a daemon's child listens where it should
      ([daemon_child_listens]), the ends a bootstrap starts meet ([bootstrap_ends_meet],
      [usb_chain]), a bootstrap reports what happened ([bootstrap_success_sound]), the
      server is protected as its flags say ([server_protected]).
    - Refinements: reads of a framed connection are reads of a queue of messages, the
      daemon's handler is an update of a table, the parsers are their grammars.
    - Invariants by rule induction over all interleavings: no listener leaks, listed
      sessions are alive, every address the daemon keeps can be used
      ([ports_addresses_typed]), a forwarded prefix is a prefix of what was sent, the forwarder
      loses no connection ([forwarder_conserves]), the table of a control socket is in order
      ([session_table]).
    - Closing: the control socket takes every connection with it
      ([control_gone_closes_all], [Close_refines_function]) unless a read on a silent pipe
      holds it up ([session_close_hangs], [close_waits_for_read]); closing a multiplexed
      connection loses what is on its way ([mux_session_pairs], [mux_close_loses]); an
      installation session is committed or abandoned while the client stays
      ([install_session_closed]).
    - Termination and liveness: forwarding ends, waits for a peer that is silent or does not
      read, or hangs in a close that waits for one ([forward_terminates]); the forwarder ends
      after SIGTERM or hangs in a handshake with a silent guest ([forwarder_sigterm],
      [forwarder_hangs]); execution
      can always finish on a healthy stream; picking a port ends ([pick_port]).
    - Error paths, and the panics, hangs and losses the code has: which runs of the adb
      process panic ([adb_crashes]), what [Shell] returns ([shell_roundtrip]), what a failed send does to an execution and to its process, what a rebind does
      to a reverse session, what a read into an empty buffer does to a connection, which
      failures lose a USB handle, when closing a multiplexer panics, what a udp destination does
      to the server and to the daemon ([udp_destination_panics], [reverse_udp_panics]).

    ** What is not modelled

    The byte format of tar archives (the class [TarFormat] of [TransferTree] with its laws, and
    an instance; the laws speak of regular files, directories and links only), permission bits and special files; the inside of processes, of gRPC, of
    the USB library and of adb; time (a sleep is no step, a timeout an answer); the data
    races of code that reads shared maps without its lock (the steps are atomic); log
    messages, unless they name the wrong thing ([forwarder_logs]).  The shell that reads the script of
    a bootstrap: [Launch] says what its text is.  In [StreamForwarder] and what builds on it
    the writes of [Forward] do not wait for the peer: a connection takes bytes or fails, and the
    peers that stop reading are in [Forward] only.  In [AdbRun] a command that the
    device runs has its answer and no effect on the device's files.  [StreamForwarder] by itself
    assumes a stream whose sends do not fail; [Tunnel] does not.  In [ReverseForward] no other
    client asks for the connections of the session, and there are fewer than 2^64.  How gRPC stops
    a server is a library matter, so [SnapshotShutdown] only says which calls are made and what it
    leaves behind.  The real adb, the emulator's launcher and what opening a device file does are
    parameters.  The Java code is out of scope. *)

From stdpp Require Export base tactics list gmap strings numbers.
From Stdlib Require Export ZArith Lia Ascii.
From Stdlib Require String.

Local Open Scope Z_scope.

(** ** Go values shared by every component *)

(** A Go [byte]; [[]byte] is [list byte] and a Go [string] (a byte string) is
    [string]. *)
Abbreviation byte := ascii.

(** The gRPC status codes the sources use ([google.golang.org/grpc/codes]). *)
Inductive code := InvalidArgument | NotFound | AlreadyExists | Unauthenticated.

(** The dynamic value of a non-nil Go [error]: the [io] sentinels, a plain error
    carrying its message ([errors.New], [fmt.Errorf], errno values), a gRPC status,
    a [strconv.NumError] (syntax error, or out of range). *)
Inductive error :=
| EOF
| UnexpectedEOF
| ErrorString (msg : string)
| StatusError (c : code) (msg : string)
| NumError (fn s : string) (range : bool).

#[export] Instance code_eq_dec : EqDecision code.
Proof. solve_decision. Defined.

#[export] Instance error_eq_dec : EqDecision error.
Proof. solve_decision. Defined.

(** [err.Error()] *)
Definition Error (e : error) : string :=
  match e with
  | EOF => "EOF"
  | UnexpectedEOF => "unexpected EOF"
  | ErrorString m => m
  | StatusError _ m => m
  | NumError fn s rng =>
      "strconv." +:+ fn +:+ ": parsing '" +:+ s +:+ "': " +:+
      (if rng then "value out of range" else "invalid syntax")
  end.

(** A Go [(T, error)] pair of which exactly one half is meaningful: a value with a
    nil error, or the zero value with a non-nil one. *)
Inductive result (A : Type) :=
| Ok (a : A)
| Err (e : error).
Arguments Ok {A} a.
Arguments Err {A} e.

Definition rbind {A B} (c : result A) (k : A → result B) : result B :=
  match c with Ok a => k a | Err e => Err e end.

(** What running a piece of Go code to its end gives: it returns, it panics, or
    it waits for an event that never comes. *)
Inductive outcome (A : Type) :=
| Ret (a : A)
| Panic
| Block.
Arguments Ret {A} a.
Arguments Panic {A}.
Arguments Block {A}.

Definition obind {A B} (c : outcome A) (k : A → outcome B) : outcome B :=
  match c with Ret a => k a | Panic => Panic | Block => Block end.

Declare Scope go_scope.
Delimit Scope go_scope with go.
Notation "'let!' x := c 'in' k" := (obind c (fun x => k))
  (at level 10, x pattern, c at level 100, k at level 200) : go_scope.

Notation "'try!' x := c 'in' k" := (rbind c (fun x => k))
  (at level 10, x pattern, c at level 100, k at level 200) : go_scope.

(** ** Lengths, indexing and slicing *)

(** [len(l)], a Go [int]. *)
Definition len {A} (l : list A) : Z := Z.of_nat (length l).

(** [l[i]]: panics out of range. *)
Definition index {A} (l : list A) (i : Z) : outcome A :=
  if decide (0 ≤ i) then
    match l !! Z.to_nat i with Some a => Ret a | None => Panic end
  else Panic.

(** [l[:n]], [l[n:]] and [l[i:j]] (bounds against the length: the sources slice
    no slice past its length). *)
Definition slice_to {A} (l : list A) (n : Z) : outcome (list A) :=
  if decide (0 ≤ n ≤ len l) then Ret (take (Z.to_nat n) l) else Panic.

Definition slice_from {A} (l : list A) (n : Z) : outcome (list A) :=
  if decide (0 ≤ n ≤ len l) then Ret (drop (Z.to_nat n) l) else Panic.

(** Two's complement conversion to a signed integer of [w] bits, and to an
    unsigned one. *)
Definition to_int (w z : Z) : Z := (z + 2 ^ (w - 1)) mod 2 ^ w - 2 ^ (w - 1).
Definition to_uint (w z : Z) : Z := z mod 2 ^ w.

(** The width of Go's [int] on the target: 32 (the 386 and arm builds) or 64. *)
Class IntWidth (w : Z) := int_width_cases : w = 32 ∨ w = 64.
#[export] Instance int_width_32 : IntWidth 32 := or_introl eq_refl.
#[export] Instance int_width_64 : IntWidth 64 := or_intror eq_refl.

(** ** Tactics and hints *)

(** Split every [match] and [if] the goal is stuck on. *)
Ltac go_cases := repeat (case_match; simplify_eq/=; try done).

(** Invert an equation between two outcomes or two pairs and substitute. *)
Ltac go_inv :=
  repeat match goal with
  | H : Ret _ = Ret _ |- _ => injection H as H; subst
  | H : Ok _ = Ok _ |- _ => injection H as H; subst
  | H : Ok _ = Err _ |- _ => discriminate H
  | H : Err _ = Ok _ |- _ => discriminate H
  | H : Ret _ = Panic |- _ => discriminate H
  | H : Panic = Ret _ |- _ => discriminate H
  | H : Ret _ = Block |- _ => discriminate H
  | H : Block = Ret _ |- _ => discriminate H
  | H : Panic = Block |- _ => discriminate H
  | H : Block = Panic |- _ => discriminate H
  | H : (_, _) = (_, _) |- _ => injection H as H; subst
  end.

(** [lia] with lengths of literal lists computed. *)
Ltac llia := unfold len in *; cbn [length app] in *; lia.

Create HintDb go.

Lemma len_nonneg {A} (l : list A) : 0 ≤ len l.
Proof. unfold len. lia. Qed.
#[export] Hint Resolve len_nonneg : go.

Lemma len_app {A} (l k : list A) : len (l ++ k) = len l + len k.
Proof. unfold len. rewrite length_app. lia. Qed.

Lemma len_nil {A} : len (@nil A) = 0.
Proof. reflexivity. Qed.

Lemma len_cons {A} (a : A) l : len (a :: l) = 1 + len l.
Proof. unfold len. cbn [length]. lia. Qed.

Lemma len_take {A} (l : list A) n : 0 ≤ n ≤ len l → len (take (Z.to_nat n) l) = n.
Proof. unfold len. rewrite length_take. lia. Qed.

Lemma len_drop {A} (l : list A) n : 0 ≤ n ≤ len l → len (drop (Z.to_nat n) l) = len l - n.
Proof. unfold len. rewrite length_drop. lia. Qed.

Lemma take_len {A} (l : list A) : take (Z.to_nat (len l)) l = l.
Proof. unfold len. rewrite Nat2Z.id. apply firstn_all. Qed.

Lemma drop_len {A} (l : list A) : drop (Z.to_nat (len l)) l = [].
Proof. unfold len. rewrite Nat2Z.id. apply drop_all. Qed.

Lemma len_zero_nil {A} (l : list A) : len l = 0 → l = [].
Proof. destruct l; unfold len; cbn; [done | lia]. Qed.


Lemma index_in {A} (l : list A) i a :
  l !! i = Some a → index l (Z.of_nat i) = Ret a.
Proof. intros H. unfold index. rewrite decide_True by lia. by rewrite Nat2Z.id, H. Qed.

Lemma index_out {A} (l : list A) i : len l ≤ i → index l i = Panic.
Proof.
  intros H. unfold index. case_decide; [|done].
  rewrite lookup_ge_None_2; [done|]. unfold len in H. lia.
Qed.

Lemma to_int_small w z : IntWidth w → 0 ≤ z < 2 ^ (w - 1) → to_int w z = z.
Proof.
  intros [-> | ->] Hz; unfold to_int; rewrite Z.mod_small; try lia;
    change (2 ^ (32 - 1)) with 2147483648 in *; change (2 ^ 32) with 4294967296;
    change (2 ^ (64 - 1)) with 9223372036854775808 in *;
    change (2 ^ 64) with 18446744073709551616; lia.
Qed.

Lemma Forall_in {A} (P : A → Prop) l : Forall P l ↔ ∀ x, x ∈ l → P x.
Proof.
  split.
  - intros H x Hx. rewrite List.Forall_forall in H. by apply H, list_elem_of_In.
  - intros H. apply List.Forall_forall. intros x Hx. by apply H, list_elem_of_In.
Qed.

(** Reachability by any number of steps. *)
Definition invariant {S} (step : S → S → Prop) (I : S → Prop) : Prop :=
  ∀ s s', I s → step s s' → I s'.

Lemma invariant_rtc {S} (step : S → S → Prop) (I : S → Prop) s s' :
  invariant step I → rtc step s s' → I s → I s'.
Proof. intros Hinv Hs. induction Hs; eauto. Qed.
