(* ===== verification/GoStrings.v ===== *)
(** * The parts of Go's [strings], [strconv] and [fmt] packages the sources use

    Go strings are byte strings; [string] is a list of 8-bit [ascii].  Every
    separator the sources pass to [Split]/[SplitN] is a non-empty literal. *)

From S2P Require Import Prelude.

Local Open Scope Z_scope.

(** ** Definitions *)

(** [Some r] iff [s = p + r]. *)
Fixpoint strip (p s : string) : option string :=
  match p, s with
  | "", _ => Some s
  | String a p', String b s' => if decide (a = b) then strip p' s' else None
  | String _ _, "" => None
  end.

(** [strings.HasPrefix(s, p)] *)
Definition HasPrefix (s p : string) : bool :=
  match strip p s with Some _ => true | None => false end.

(** [strings.TrimPrefix(s, p)] *)
Definition TrimPrefix (s p : string) : string :=
  match strip p s with Some r => r | None => s end.

(** The text before and after the first occurrence of [sep]. *)
Fixpoint cut (sep s : string) : option (string * string) :=
  match strip sep s with
  | Some r => Some ("", r)
  | None =>
      match s with
      | "" => None
      | String c s' =>
          match cut sep s' with
          | Some (b, a) => Some (String c b, a)
          | None => None
          end
      end
  end.

Definition slen (s : string) : Z := Z.of_nat (String.length s).

(** [strings.Contains(s, sub)] and [strings.Index(s, sub)] *)
Definition Contains (s sub : string) : bool :=
  match cut sub s with Some _ => true | None => false end.

Definition Index (s sub : string) : Z :=
  match cut sub s with Some (b, _) => slen b | None => -1 end.

(** [strings.LastIndex(s, sub)] *)
Fixpoint LastIndex (s sub : string) : Z :=
  let here := if HasPrefix s sub then 0 else -1 in
  match s with
  | "" => here
  | String _ s' =>
      let r := LastIndex s' sub in
      if decide (0 ≤ r) then 1 + r else here
  end.

(** [genSplit] of package strings: at most [k] cuts. *)
Fixpoint split_loop (k : nat) (sep s : string) : list string :=
  match k with
  | O => [s]
  | S k' =>
      match cut sep s with
      | Some (b, a) => b :: split_loop k' sep a
      | None => [s]
      end
  end.

(** [strings.SplitN(s, sep, n)] for [n >= 0] and [strings.Split(s, sep)]: a
    non-empty separator occurs at most [len(s)] times. *)
Definition SplitN (s sep : string) (n : nat) : list string :=
  match n with O => [] | S k => split_loop k sep s end.

Definition Split (s sep : string) : list string := split_loop (String.length s) sep s.

(** [strings.Join(l, sep)] *)
Fixpoint Join (l : list string) (sep : string) : string :=
  match l with
  | [] => ""
  | [s] => s
  | s :: l' => s +:+ sep +:+ Join l' sep
  end.

Fixpoint has_char (c : ascii) (s : string) : bool :=
  match s with
  | "" => false
  | String a s' => bool_decide (a = c) || has_char c s'
  end.

(** [strings.TrimLeft], [TrimRight], [Trim] with an ASCII cutset. *)
Fixpoint TrimLeft (s cutset : string) : string :=
  match s with
  | "" => ""
  | String a s' => if has_char a cutset then TrimLeft s' cutset else s
  end.

Fixpoint TrimRight (s cutset : string) : string :=
  match s with
  | "" => ""
  | String a s' =>
      match TrimRight s' cutset with
      | "" => if has_char a cutset then "" else String a ""
      | t => String a t
      end
  end.

Definition Trim (s cutset : string) : string := TrimRight (TrimLeft s cutset) cutset.

(** ASCII white space: [\t \n \v \f \r] and the blank. *)
Definition space_set : string :=
  String (Ascii.ascii_of_nat 9) (String (Ascii.ascii_of_nat 10)
  (String (Ascii.ascii_of_nat 11) (String (Ascii.ascii_of_nat 12)
  (String (Ascii.ascii_of_nat 13) " ")))).

(** [strings.TrimSpace(s)] on ASCII text. *)
Definition TrimSpace (s : string) : string := Trim s space_set.

(** [s[i:j]] on strings: panics out of range. *)
Definition sslice (s : string) (i j : Z) : outcome string :=
  if decide (0 ≤ i ≤ j ∧ j ≤ slen s)
  then Ret (String.substring (Z.to_nat i) (Z.to_nat (j - i)) s)
  else Panic.

(** The value of a decimal digit. *)
Definition digit_val (c : ascii) : option Z :=
  let n := Z.of_nat (Ascii.nat_of_ascii c) in
  if decide (48 ≤ n ≤ 57) then Some (n - 48) else None.

(** The decimal digit of value [d < 10]. *)
Definition digit_char (d : Z) : ascii := Ascii.ascii_of_nat (Z.to_nat (48 + d)).

(** Value of a string of decimal digits after the digits read so far. *)
Fixpoint parse_digits (acc : Z) (s : string) : option Z :=
  match s with
  | "" => Some acc
  | String c s' =>
      match digit_val c with
      | Some d => parse_digits (acc * 10 + d) s'
      | None => None
      end
  end.

Definition parse_nat (s : string) : option Z :=
  match s with "" => None | _ => parse_digits 0 s end.

(** [strconv.ParseUint(s, 10, 64)]: no sign; the saturated value comes with a
    range error. *)
Definition ParseUint (s : string) : Z * option error :=
  match parse_nat s with
  | None => (0, Some (NumError "ParseUint" s false))
  | Some v =>
      if decide (v < 2 ^ 64) then (v, None)
      else (2 ^ 64 - 1, Some (NumError "ParseUint" s true))
  end.

(** [strconv.Atoi(s)] on an [int] of [w] bits: one optional sign. *)
Definition Atoi (w : Z) (s : string) : Z * option error :=
  let '(neg, ds) :=
    match s with
    | String c s' =>
        if decide (c = "-"%char) then (true, s')
        else if decide (c = "+"%char) then (false, s')
        else (false, s)
    | "" => (false, s)
    end in
  match parse_nat ds with
  | None => (0, Some (NumError "Atoi" s false))
  | Some v =>
      if (neg : bool) then
        if decide (v ≤ 2 ^ (w - 1)) then (- v, None)
        else (- 2 ^ (w - 1), Some (NumError "Atoi" s true))
      else
        if decide (v < 2 ^ (w - 1)) then (v, None)
        else (2 ^ (w - 1) - 1, Some (NumError "Atoi" s true))
  end.

(** [fmt.Sprintf("%d", n)] for [n >= 0]: the digits of [n] before [acc]. *)
Fixpoint fmt_digits (fuel : nat) (n : Z) (acc : string) : string :=
  let acc' := String (digit_char (n mod 10)) acc in
  match fuel with
  | O => acc'
  | S f => if decide (n < 10) then acc' else fmt_digits f (n / 10) acc'
  end.

Definition fmt_d (n : Z) : string := fmt_digits (Z.to_nat (Z.log2 n)) n "".

(** [fmt.Sprintf("%d", n)] for any [n]. *)
Definition fmt_int (n : Z) : string := if decide (n < 0) then "-" +:+ fmt_d (- n) else fmt_d n.

(** ** Concatenation *)

Lemma sapp_cons a s t : String a s +:+ t = String a (s +:+ t).
Proof. reflexivity. Qed.

Lemma sapp_nil_l s : "" +:+ s = s.
Proof. reflexivity. Qed.

Lemma sapp_nil_r s : s +:+ "" = s.
Proof. induction s as [|a s IH]; [done|]. by rewrite sapp_cons, IH. Qed.

Lemma sapp_assoc s t u : (s +:+ t) +:+ u = s +:+ t +:+ u.
Proof. induction s as [|a s IH]; [done|]. by rewrite !sapp_cons, IH. Qed.

Lemma slength_app s t : String.length (s +:+ t) = (String.length s + String.length t)%nat.
Proof. induction s as [|a s IH]; [done|]. rewrite sapp_cons. cbn. by rewrite IH. Qed.

Lemma slen_app s t : slen (s +:+ t) = slen s + slen t.
Proof. unfold slen. rewrite slength_app. lia. Qed.

Lemma has_char_app c s t : has_char c (s +:+ t) = has_char c s || has_char c t.
Proof. induction s as [|a s IH]; [done|]. rewrite sapp_cons. cbn. by rewrite IH, orb_assoc. Qed.

Lemma substring_app_l s t : String.substring 0 (String.length s) (s +:+ t) = s.
Proof. induction s as [|a s IH]; [by destruct t|]. rewrite sapp_cons. cbn. by rewrite IH. Qed.

Lemma substring_full s : String.substring 0 (String.length s) s = s.
Proof. rewrite <- (sapp_nil_r s) at 2. apply substring_app_l. Qed.

Lemma substring_app_r s t : String.substring (String.length s) (String.length t) (s +:+ t) = t.
Proof. induction s as [|a s IH]; [apply substring_full|]. rewrite sapp_cons. cbn. by rewrite IH. Qed.

(** ** Prefixes and cuts *)

Lemma strip_Some p s r : strip p s = Some r ↔ s = p +:+ r.
Proof.
  revert s. induction p as [|a p IH]; intros s; cbn.
  - rewrite sapp_nil_l. split; congruence.
  - rewrite sapp_cons. destruct s as [|b s]; [split; done|].
    case_decide as E; [subst; rewrite IH|]; split; congruence.
Qed.

Lemma strip_app p r : strip p (p +:+ r) = Some r.
Proof. by apply strip_Some. Qed.

Lemma HasPrefix_true s p : HasPrefix s p = true ↔ ∃ r, s = p +:+ r.
Proof.
  unfold HasPrefix. destruct (strip p s) as [r|] eqn:E.
  - apply strip_Some in E. naive_solver.
  - split; [done|]. intros [r Hr]. apply strip_Some in Hr. congruence.
Qed.

Lemma TrimPrefix_app p r : TrimPrefix (p +:+ r) p = r.
Proof. unfold TrimPrefix. by rewrite strip_app. Qed.

Lemma cut_eq sep s :
  cut sep s =
  match strip sep s with
  | Some r => Some ("", r)
  | None =>
      match s with
      | "" => None
      | String c s' =>
          match cut sep s' with Some (b, a) => Some (String c b, a) | None => None end
      end
  end.
Proof. by destruct s. Qed.

Lemma cut_Some sep s b a : cut sep s = Some (b, a) → s = b +:+ sep +:+ a.
Proof.
  revert b. induction s as [|c s IH]; intros b; rewrite cut_eq;
    destruct (strip sep _) as [r|] eqn:E; intros H.
  - apply strip_Some in E. by simplify_eq/=.
  - done.
  - apply strip_Some in E. by simplify_eq.
  - destruct (cut sep s) as [[b' a']|] eqn:E'; [|done]. simplify_eq.
    by rewrite sapp_cons, <- (IH b').
Qed.

(** The first occurrence of a one-byte separator. *)
Lemma cut_char c b a :
  has_char c b = false → cut (String c "") (b +:+ String c a) = Some (b, a).
Proof.
  induction b as [|d b IH]; cbn [has_char]; intros H.
  - rewrite sapp_nil_l, cut_eq. cbn. by rewrite decide_True by done.
  - apply orb_false_iff in H as [Hd Hb]. apply bool_decide_eq_false in Hd.
    rewrite sapp_cons, cut_eq. cbn. rewrite decide_False by congruence.
    by rewrite (IH Hb).
Qed.

Lemma cut_char_None c s : cut (String c "") s = None ↔ has_char c s = false.
Proof.
  induction s as [|d s IH]; [done|]. rewrite cut_eq. cbn [strip has_char].
  case_decide as E.
  - subst. rewrite bool_decide_true by done. split; done.
  - rewrite bool_decide_false by congruence. cbn [orb]. rewrite <- IH.
    destruct (cut _ s) as [[??]|]; split; done.
Qed.

Lemma cut_char_Some c s b a :
  cut (String c "") s = Some (b, a) ↔ s = b +:+ String c a ∧ has_char c b = false.
Proof.
  split.
  - revert b. induction s as [|d s IH]; intros b; rewrite cut_eq; cbn [strip]; [done|].
    case_decide as E; intros H.
    + subst. by simplify_eq.
    + destruct (cut _ s) as [[b' a']|] eqn:E'; [|done]. simplify_eq.
      destruct (IH _ eq_refl) as [-> Hb']. split; [done|].
      cbn [has_char]. by rewrite bool_decide_false by congruence.
  - intros [-> H]. by apply cut_char.
Qed.

Lemma Contains_char c s : Contains s (String c "") = has_char c s.
Proof.
  unfold Contains. destruct (cut _ s) as [[b a]|] eqn:E.
  - apply cut_char_Some in E as [-> _]. rewrite has_char_app. cbn.
    by rewrite bool_decide_true, orb_true_r by done.
  - symmetry. by apply cut_char_None.
Qed.

(** ** Splitting and joining *)

Lemma SplitN_2 s sep :
  SplitN s sep 2 = match cut sep s with Some (b, a) => [b; a] | None => [s] end.
Proof. reflexivity. Qed.

Lemma split_loop_ne k sep s : split_loop k sep s ≠ [].
Proof. destruct k; cbn; [done|]. by destruct (cut sep s) as [[??]|]. Qed.

Lemma Join_cons s l sep : l ≠ [] → Join (s :: l) sep = s +:+ sep +:+ Join l sep.
Proof. by destruct l. Qed.

(** Joining the pieces gives the string back, whatever the bound. *)
Lemma Join_split_loop k sep s : Join (split_loop k sep s) sep = s.
Proof.
  revert s. induction k as [|k IH]; intros s; [done|]. cbn [split_loop].
  destruct (cut sep s) as [[b a]|] eqn:E; [|done].
  rewrite Join_cons by apply split_loop_ne. rewrite IH.
  symmetry. by apply cut_Some.
Qed.

Lemma Join_Split s sep : Join (Split s sep) sep = s.
Proof. apply Join_split_loop. Qed.

(** With a bound as large as the string, no piece still holds the separator. *)
Lemma split_loop_pieces c k s :
  (String.length s ≤ k)%nat →
  Forall (λ p, has_char c p = false) (split_loop k (String c "") s).
Proof.
  revert s. induction k as [|k IH]; intros s Hk; cbn [split_loop].
  - destruct s; [|cbn in Hk; lia]. by repeat constructor.
  - destruct (cut _ s) as [[b a]|] eqn:E.
    + apply cut_char_Some in E as [-> Hb]. constructor; [done|]. apply IH.
      rewrite slength_app in Hk. cbn in Hk. lia.
    + constructor; [|done]. by apply cut_char_None.
Qed.

Lemma Split_pieces c s : Forall (λ p, has_char c p = false) (Split s (String c "")).
Proof. by apply split_loop_pieces. Qed.

Lemma Split_char_none c s : has_char c s = false → Split s (String c "") = [s].
Proof.
  intros H%cut_char_None. unfold Split. destruct s as [|d s]; [done|].
  cbn [String.length split_loop]. by rewrite H.
Qed.

Lemma Split_char_two c a b :
  has_char c a = false → has_char c b = false →
  Split (a +:+ String c b) (String c "") = [a; b].
Proof.
  intros Ha Hb. unfold Split. rewrite slength_app. cbn [String.length].
  rewrite Nat.add_comm. cbn [Nat.add split_loop]. rewrite cut_char by done. f_equal.
  destruct (String.length b + String.length a)%nat; [done|]. cbn.
  apply cut_char_None in Hb. by rewrite Hb.
Qed.

Lemma Join_app l k sep :
  l ≠ [] → k ≠ [] → Join (l ++ k) sep = Join l sep +:+ sep +:+ Join k sep.
Proof.
  intros Hl Hk. destruct l as [|x l]; [done|]. clear Hl. revert x. induction l as [|y l IH]; intros x; cbn [app].
  - by rewrite Join_cons.
  - rewrite !(Join_cons x) by done. specialize (IH y). cbn [app] in IH. by rewrite IH, !sapp_assoc.
Qed.

(** A list of pieces without the separator is determined by what it joins to. *)
Lemma Join_inj c l k :
  l ≠ [] → k ≠ [] → Forall (λ p, has_char c p = false) l → Forall (λ p, has_char c p = false) k →
  Join l (String c "") = Join k (String c "") → l = k.
Proof.
  assert (∀ x l, Join (x :: l) (String c "") =
    match l with [] => x | _ => x +:+ String c (Join l (String c "")) end) as HJ by by intros x [|].
  revert k. induction l as [|x l IH]; intros [|y k] Hl Hk Fl Fk; try done.
  apply Forall_cons_1 in Fl as [Hx Fl]. apply Forall_cons_1 in Fk as [Hy Fk].
  rewrite !HJ. destruct l as [|x' l], k as [|y' k]; intros E.
  - congruence.
  - rewrite E, has_char_app in Hx. cbn in Hx. by rewrite bool_decide_true, orb_true_r in Hx by done.
  - rewrite <- E, has_char_app in Hy. cbn in Hy. by rewrite bool_decide_true, orb_true_r in Hy by done.
  - apply (f_equal (cut (String c ""))) in E. rewrite !cut_char in E by done.
    injection E as -> E. f_equal. by apply IH.
Qed.

Lemma Split_unique c s l :
  l ≠ [] → Forall (λ p, has_char c p = false) l → Join l (String c "") = s →
  Split s (String c "") = l.
Proof.
  intros Hl Fl <-. apply (Join_inj c); try done.
  - apply split_loop_ne.
  - apply Split_pieces.
  - apply Join_Split.
Qed.

(** Splitting at one byte distributes over a concatenation at that byte. *)
Lemma Split_app_char c a b :
  Split (a +:+ String c b) (String c "") = Split a (String c "") ++ Split b (String c "").
Proof.
  apply Split_unique.
  - intros [H _]%app_nil. by apply split_loop_ne in H.
  - apply Forall_app; split; apply Split_pieces.
  - rewrite Join_app by apply split_loop_ne. by rewrite !Join_Split.
Qed.

Lemma Split_two_inv c s a b :
  Split s (String c "") = [a; b] →
  s = a +:+ String c b ∧ has_char c a = false ∧ has_char c b = false.
Proof.
  intros H. pose proof (Join_Split s (String c "")) as HJ.
  pose proof (Split_pieces c s) as HF. rewrite H in HJ, HF. cbn in HJ.
  apply Forall_cons_1 in HF as [Ha HF]. by apply Forall_cons_1 in HF as [Hb _].
Qed.

(** ** Decimal numbers *)

Lemma digit_val_char d : 0 ≤ d < 10 → digit_val (digit_char d) = Some d.
Proof.
  intros H. unfold digit_val, digit_char.
  rewrite Ascii.nat_ascii_embedding by lia. rewrite Z2Nat.id by lia.
  rewrite decide_True by lia. f_equal; lia.
Qed.

Lemma parse_fmt_digits fuel n t :
  0 ≤ n < 2 ^ (Z.of_nat fuel + 1) →
  parse_digits 0 (fmt_digits fuel n t) = parse_digits n t.
Proof.
  revert n t. induction fuel as [|f IH]; intros n t Hn; cbn [fmt_digits].
  - change (2 ^ (Z.of_nat 0 + 1)) with 2 in Hn. cbn [parse_digits].
    rewrite Z.mod_small by lia. rewrite digit_val_char by lia. f_equal; lia.
  - pose proof (Z.mod_pos_bound n 10 ltac:(lia)).
    pose proof (Z.div_mod n 10 ltac:(lia)) as Hdm.
    rewrite Nat2Z.inj_succ, Z.add_succ_l, Z.pow_succ_r in Hn by lia.
    case_decide.
    + cbn [parse_digits]. rewrite Z.mod_small by lia. rewrite digit_val_char by lia.
      f_equal; lia.
    + rewrite IH by lia. cbn [parse_digits]. rewrite digit_val_char by lia. f_equal; lia.
Qed.

Lemma fmt_digits_ne fuel n t : fmt_digits fuel n t ≠ "".
Proof. revert n t. induction fuel; intros n t; cbn; [done|]. case_decide; [done|]. apply IHfuel. Qed.

Lemma parse_nat_fmt_d n : 0 ≤ n → parse_nat (fmt_d n) = Some n.
Proof.
  intros Hn. unfold fmt_d. set (f := Z.to_nat (Z.log2 n)).
  assert (parse_digits 0 (fmt_digits f n "") = Some n) as H.
  { rewrite parse_fmt_digits; [done|]. unfold f. rewrite Z2Nat.id by apply Z.log2_nonneg.
    destruct (decide (n = 0)) as [->|]; [done|].
    pose proof (Z.log2_spec n ltac:(lia)). lia. }
  pose proof (fmt_digits_ne f n ""). unfold parse_nat.
  by destruct (fmt_digits f n "").
Qed.

Lemma ParseUint_fmt_d n : 0 ≤ n < 2 ^ 64 → ParseUint (fmt_d n) = (n, None).
Proof.
  intros Hn. unfold ParseUint. rewrite parse_nat_fmt_d by lia. by rewrite decide_True by lia.
Qed.

Lemma fmt_digits_chars c fuel n t :
  digit_val c = None → 0 ≤ n → has_char c t = false → has_char c (fmt_digits fuel n t) = false.
Proof.
  intros Hc. revert n t. induction fuel as [|f IH]; intros n t Hn Ht; cbn [fmt_digits].
  all: assert (has_char c (String (digit_char (n mod 10)) t) = false) as Ht'
    by (cbn [has_char]; rewrite bool_decide_false; [done|]; intros <-;
        rewrite digit_val_char in Hc; [done | apply Z.mod_pos_bound; lia]).
  - done.
  - case_decide; [done|]. apply IH; [|done]. apply Z.div_pos; lia.
Qed.

Lemma fmt_d_chars c n : digit_val c = None → 0 ≤ n → has_char c (fmt_d n) = false.
Proof. intros. by apply fmt_digits_chars. Qed.

Lemma fmt_digits_head fuel n t :
  0 ≤ n → ∃ d r, 0 ≤ d < 10 ∧ fmt_digits fuel n t = String (digit_char d) r.
Proof.
  revert n t. induction fuel as [|f IH]; intros n t Hn; cbn [fmt_digits];
    pose proof (Z.mod_pos_bound n 10 ltac:(lia)); [by eauto|].
  case_decide; [by eauto|]. apply IH. apply Z.div_pos; lia.
Qed.

Lemma Atoi_fmt_d w n : 0 ≤ n < 2 ^ (w - 1) → Atoi w (fmt_d n) = (n, None).
Proof.
  intros Hn. pose proof (parse_nat_fmt_d n ltac:(lia)) as Hp. unfold Atoi.
  destruct (fmt_digits_head (Z.to_nat (Z.log2 n)) n "" ltac:(lia)) as (d & r & Hd & Hr).
  change (fmt_digits _ n "") with (fmt_d n) in Hr. rewrite Hr in *.
  assert (digit_char d ≠ "-"%char ∧ digit_char d ≠ "+"%char) as [H1 H2].
  { pose proof (digit_val_char d Hd) as Hv. by split; intros E; rewrite E in Hv. }
  destruct (decide (digit_char d = "-"%char)); [done|].
  destruct (decide (digit_char d = "+"%char)); [done|].
  rewrite Hp. by rewrite decide_True by lia.
Qed.

Lemma Atoi_fmt_int w n : 1 ≤ w → - 2 ^ (w - 1) ≤ n < 2 ^ (w - 1) → Atoi w (fmt_int n) = (n, None).
Proof.
  intros Hw Hn. unfold fmt_int. case_decide; [|apply Atoi_fmt_d; lia].
  rewrite sapp_cons, sapp_nil_l. unfold Atoi. rewrite decide_True by done.
  rewrite parse_nat_fmt_d by lia. rewrite decide_True by lia. f_equal; lia.
Qed.

Lemma parse_digits_nonneg acc s v : 0 ≤ acc → parse_digits acc s = Some v → 0 ≤ v.
Proof.
  revert acc. induction s as [|c s IH]; intros acc Ha; cbn; [intros; by simplify_eq|].
  destruct (digit_val c) as [d|] eqn:E; [|done]. apply IH.
  unfold digit_val in E. case_decide; [|done]. simplify_eq. lia.
Qed.

Lemma Atoi_range w s n :
  1 ≤ w → Atoi w s = (n, None) → - 2 ^ (w - 1) ≤ n < 2 ^ (w - 1).
Proof.
  intros Hw. unfold Atoi.
  destruct (match s with | "" => _ | _ => _ end) as [neg ds].
  destruct (parse_nat ds) as [v|] eqn:E; [|done].
  assert (0 ≤ v) by (unfold parse_nat in E; destruct ds; [done|];
                     eapply parse_digits_nonneg, E; done).
  assert (0 < 2 ^ (w - 1)) by (apply Z.pow_pos_nonneg; lia).
  destruct neg; case_decide; intros [= <-]; lia.
Qed.

(** ** Searching *)

Lemma Contains_true s sub : Contains s sub = true ↔ ∃ a b, s = a +:+ sub +:+ b.
Proof.
  unfold Contains. split.
  - destruct (cut sub s) as [[b a]|] eqn:E; [|done]. intros _. apply cut_Some in E. eauto.
  - intros (a & b & ->). induction a as [|c a IH].
    + rewrite sapp_nil_l, cut_eq, strip_app. done.
    + rewrite sapp_cons, cut_eq. destruct (strip sub _) as [r|]; [done|].
      by destruct (cut sub (a +:+ sub +:+ b)) as [[??]|].
Qed.

Lemma LastIndex_cons c s sub :
  LastIndex (String c s) sub =
  (let r := LastIndex s sub in
   if decide (0 ≤ r) then 1 + r else if HasPrefix (String c s) sub then 0 else -1).
Proof. reflexivity. Qed.

Lemma LastIndex_lower s sub : -1 ≤ LastIndex s sub.
Proof.
  induction s as [|c s IH]; [cbn; case_match; lia|]. rewrite LastIndex_cons. cbn zeta.
  case_decide; [lia|]. case_match; lia.
Qed.

(** A non-negative result is the place of an occurrence, a negative one means there is none. *)
Lemma LastIndex_found s sub :
  0 ≤ LastIndex s sub → ∃ a b, s = a +:+ sub +:+ b ∧ LastIndex s sub = slen a.
Proof.
  induction s as [|c s IH].
  - cbn. destruct (HasPrefix "" sub) eqn:E; [|lia]. apply HasPrefix_true in E as [r E].
    exists "", r. done.
  - rewrite LastIndex_cons. cbn zeta. case_decide as H.
    + destruct (IH H) as (a & b & -> & Hl). exists (String c a), b. split; [done|].
      rewrite Hl. unfold slen. cbn [String.length]. lia.
    + destruct (HasPrefix (String c s) sub) eqn:E; [|lia]. apply HasPrefix_true in E as [r E].
      intros _. exists "", r. split; [done|]. done.
Qed.

Lemma LastIndex_missing s sub : LastIndex s sub < 0 → Contains s sub = false.
Proof.
  intros H. destruct (Contains s sub) eqn:E; [|done]. exfalso.
  apply Contains_true in E as (a & b & ->). induction a as [|c a IH].
  - rewrite sapp_nil_l in H. assert (HasPrefix (sub +:+ b) sub = true) as HP by (apply HasPrefix_true; eauto).
    destruct (sub +:+ b) as [|c s] eqn:E; cbn [LastIndex] in H; rewrite HP in H; [lia|].
    case_decide; lia.
  - rewrite sapp_cons, LastIndex_cons in H. cbn zeta in H. case_decide; [lia|]. apply IH. lia.
Qed.

Lemma LastIndex_absent c sub s : has_char c s = false → LastIndex s (String c sub) = -1.
Proof.
  intros H. pose proof (LastIndex_lower s (String c sub)).
  destruct (decide (0 ≤ LastIndex s (String c sub))) as [Hi|]; [|lia].
  destruct (LastIndex_found _ _ Hi) as (a & b & E & _). rewrite E, has_char_app in H.
  rewrite sapp_cons in H. cbn [has_char] in H. by rewrite bool_decide_true, orb_true_r in H.
Qed.

(** The last occurrence, when its first byte does not come again. *)
Lemma LastIndex_last c a sub b :
  has_char c (sub +:+ b) = false → LastIndex (a +:+ String c sub +:+ b) (String c sub) = slen a.
Proof.
  intros H. induction a as [|d a IH].
  - rewrite sapp_nil_l, sapp_cons, LastIndex_cons. cbn zeta. rewrite LastIndex_absent by done.
    rewrite decide_False by lia.
    rewrite (proj2 (HasPrefix_true _ _)); [done|]. by exists b.
  - rewrite sapp_cons, LastIndex_cons. cbn zeta. rewrite IH.
    rewrite decide_True by (unfold slen; lia). unfold slen. cbn [String.length]. lia.
Qed.

(** ** Slices of a concatenation *)

Lemma slen_nonneg s : 0 ≤ slen s.
Proof. unfold slen. lia. Qed.

Lemma sslice_prefix a b : sslice (a +:+ b) 0 (slen a) = Ret a.
Proof.
  unfold sslice. rewrite slen_app. pose proof (slen_nonneg a). pose proof (slen_nonneg b).
  rewrite decide_True by lia. rewrite Z.sub_0_r. unfold slen. rewrite Nat2Z.id.
  f_equal. apply substring_app_l.
Qed.

Lemma sslice_suffix a b : sslice (a +:+ b) (slen a) (slen (a +:+ b)) = Ret b.
Proof.
  unfold sslice. rewrite slen_app. pose proof (slen_nonneg a). pose proof (slen_nonneg b).
  rewrite decide_True by lia. replace (slen a + slen b - slen a) with (slen b) by lia.
  unfold slen. rewrite !Nat2Z.id. f_equal. apply substring_app_r.
Qed.

(** ** Trimming *)

Fixpoint all_chars (P : ascii → bool) (s : string) : bool :=
  match s with "" => true | String c s' => P c && all_chars P s' end.

Lemma TrimLeft_none s cutset :
  all_chars (λ c, negb (has_char c cutset)) s = true → TrimLeft s cutset = s.
Proof. destruct s as [|c s]; [done|]. cbn. by destruct (has_char c cutset). Qed.

Lemma TrimRight_all s cutset : all_chars (λ c, has_char c cutset) s = true → TrimRight s cutset = "".
Proof.
  induction s as [|c s IH]; [done|]. cbn. intros [-> H]%andb_true_iff. by rewrite IH.
Qed.

Lemma TrimRight_app_all s t cutset :
  all_chars (λ c, has_char c cutset) t = true → TrimRight (s +:+ t) cutset = TrimRight s cutset.
Proof.
  intros H. induction s as [|c s IH]; [by apply TrimRight_all|]. rewrite sapp_cons. cbn. by rewrite IH.
Qed.

Lemma TrimRight_none s cutset :
  all_chars (λ c, negb (has_char c cutset)) s = true → TrimRight s cutset = s.
Proof.
  induction s as [|c s IH]; [done|]. cbn. intros [Hc H]%andb_true_iff. rewrite IH by done.
  destruct s; [by destruct (has_char c cutset)|done].
Qed.

Lemma TrimLeft_app s t cutset :
  s ≠ "" → all_chars (λ c, negb (has_char c cutset)) s = true →
  TrimLeft (s +:+ t) cutset = s +:+ t.
Proof. destruct s as [|c s]; [done|]. rewrite sapp_cons. cbn. by destruct (has_char c cutset). Qed.

Lemma fmt_digits_all (P : ascii → bool) fuel n t :
  (∀ d, 0 ≤ d < 10 → P (digit_char d) = true) → 0 ≤ n → all_chars P t = true →
  all_chars P (fmt_digits fuel n t) = true.
Proof.
  intros HP. revert n t. induction fuel as [|f IH]; intros n t Hn Ht; cbn [fmt_digits];
    pose proof (Z.mod_pos_bound n 10 ltac:(lia));
    assert (all_chars P (String (digit_char (n mod 10)) t) = true) by (cbn; by rewrite HP, Ht); [done|].
  case_decide; [done|]. apply IH; [|done]. apply Z.div_pos; lia.
Qed.

Lemma fmt_d_all (P : ascii → bool) n :
  (∀ d, 0 ≤ d < 10 → P (digit_char d) = true) → 0 ≤ n → all_chars P (fmt_d n) = true.
Proof. intros. by apply fmt_digits_all. Qed.

(** White space after a number is trimmed off. *)
Lemma TrimSpace_fmt_d n t :
  0 ≤ n → all_chars (λ c, has_char c space_set) t = true → TrimSpace (fmt_d n +:+ t) = fmt_d n.
Proof.
  intros Hn Ht.
  assert (all_chars (λ c, negb (has_char c space_set)) (fmt_d n) = true) as Hd.
  { apply fmt_d_all; [|done]. intros d Hd.
    assert (d = 0 ∨ d = 1 ∨ d = 2 ∨ d = 3 ∨ d = 4 ∨ d = 5 ∨ d = 6 ∨ d = 7 ∨ d = 8 ∨ d = 9) as H by lia.
    by destruct_or! H; subst. }
  unfold TrimSpace, Trim. rewrite TrimLeft_app; [|apply fmt_digits_ne|done].
  rewrite TrimRight_app_all by done. by apply TrimRight_none.
Qed.
