(* ===== verification/Addr.v ===== *)
(** * Addresses: [utils.ParseAddr] of src/waterfall/golang/utils/addr.go

    The [<kind>:<addr>] addresses every binary takes on its command line.  The
    parser is compared with a declarative grammar; its recursion on [mux:]
    prefixes is shown to end. *)

From S2P Require Import Prelude GoStrings.

Local Open Scope Z_scope.
Local Open Scope go_scope.

(** ** The kinds *)

Definition QemuHost : string := "qemu".
Definition QemuGuest : string := "qemu-guest".
Definition VsockHost : string := "vsock-host".
Definition VsockGuest : string := "vsock-guest".
Definition QemuCtrl : string := "qemu2".
Definition Unix : string := "unix".
Definition TCP : string := "tcp".
Definition Mux : string := "mux".
Definition FDKind : string := "fd".
Definition USB : string := "usb".

(** The map literal [validKinds]; a missing key reads as [false]. *)
Definition validKinds : gmap string bool :=
  list_to_map [(QemuHost, true); (QemuCtrl, true); (QemuGuest, true);
               (VsockHost, true); (VsockGuest, true); (Unix, true); (TCP, true);
               (Mux, true); (FDKind, true); (USB, true)].

Definition validKind (k : string) : bool := default false (validKinds !! k).

(** [ParsedAddr]; the pointer [MuxAddr] is [None] when nil. *)
Inductive ParsedAddr := MkParsedAddr {
  Kind : string;
  AddrField : string;
  SocketName : string;
  FD : Z;
  MuxAddr : option ParsedAddr;
}.

(** ** The parser *)

Definition errParse (addr : string) : error := ErrorString ("failed to parse address " +:+ addr).
Definition errKind (k : string) : error := ErrorString ("invalid kind: " +:+ k).

(** The body of [ParseAddr]; [rec] is the recursive call on the text after
    [mux:], [w] the width of [int]. *)
Definition ParseAddr_body (w : Z) (rec : string → result ParsedAddr) (addr : string)
    : result ParsedAddr :=
  match SplitN addr ":" 2 with
  | [pts0; pts1] =>
      if negb (validKind pts0) then Err (errKind pts0) else
      if decide (pts0 = Mux) then
        try! mAddr := rec pts1 in
        Ok (MkParsedAddr pts0 "" "" 0 (Some mAddr))
      else if decide (pts0 = VsockHost) then
        match SplitN pts1 ":" 2 with
        | [p0; p1] => Ok (MkParsedAddr pts0 p0 p1 0 None)
        | _ => Err (errParse addr)
        end
      else if decide (pts0 = VsockGuest) then Ok (MkParsedAddr pts0 "" pts1 0 None)
      else if decide (pts0 = FDKind) then
        match Atoi w pts1 with
        | (fd, None) => Ok (MkParsedAddr pts0 "" "" fd None)
        | (_, Some err) => Err err
        end
      else
        let host := pts1 in
        let socket := if decide (pts0 = QemuGuest ∨ pts0 = QemuCtrl) then pts1 else "" in
        if decide (pts0 = QemuHost) then
          match SplitN pts1 ":" 2 with
          | [p0; p1] => Ok (MkParsedAddr pts0 p0 p1 0 None)
          | _ => Err (errParse addr)
          end
        else Ok (MkParsedAddr pts0 host socket 0 None)
  | _ => Err (errParse addr)
  end.

(** The recursive function, with the length of the text as fuel: the text after
    [mux:] is shorter, so [O] is never reached ([ParseAddr_unfold]). *)
Fixpoint ParseAddr_fuel (fuel : nat) (w : Z) (addr : string) : result ParsedAddr :=
  ParseAddr_body w
    (match fuel with O => (λ a, Err (errParse a)) | S f => ParseAddr_fuel f w end) addr.

Definition ParseAddr (w : Z) (addr : string) : result ParsedAddr :=
  ParseAddr_fuel (String.length addr) w addr.

(** ** The address grammar *)

(** What an address denotes, one rule per documented form. *)
Inductive denotes (w : Z) : string → ParsedAddr → Prop :=
| den_mux a p :
    denotes w a p → denotes w ("mux:" +:+ a) (MkParsedAddr Mux "" "" 0 (Some p))
| den_fd s n :
    Atoi w s = (n, None) → denotes w ("fd:" +:+ s) (MkParsedAddr FDKind "" "" n None)
| den_host k dir sock :
    k = QemuHost ∨ k = VsockHost → has_char ":" dir = false →
    denotes w (k +:+ ":" +:+ dir +:+ ":" +:+ sock) (MkParsedAddr k dir sock 0 None)
| den_guest k sock :
    k = QemuGuest ∨ k = QemuCtrl →
    denotes w (k +:+ ":" +:+ sock) (MkParsedAddr k sock sock 0 None)
| den_vsock_guest sock :
    denotes w ("vsock-guest:" +:+ sock) (MkParsedAddr VsockGuest "" sock 0 None)
| den_plain k a :
    k = Unix ∨ k = TCP ∨ k = USB →
    denotes w (k +:+ ":" +:+ a) (MkParsedAddr k a "" 0 None).

(** The canonical spelling of a parsed address. *)
Fixpoint print_addr (p : ParsedAddr) : string :=
  let '(MkParsedAddr k a s n m) := p in
  match m with
  | Some q => k +:+ ":" +:+ print_addr q
  | None =>
      if decide (k = FDKind) then k +:+ ":" +:+ fmt_int n
      else if decide (k = QemuHost ∨ k = VsockHost) then k +:+ ":" +:+ a +:+ ":" +:+ s
      else if decide (k = VsockGuest) then k +:+ ":" +:+ s
      else k +:+ ":" +:+ a
  end.

(** ** Splitting at the kind *)

Lemma SplitN_colon k a :
  has_char ":" k = false → SplitN (k +:+ ":" +:+ a) ":" 2 = [k; a].
Proof. intros H. rewrite SplitN_2. change (":" +:+ a) with (String ":" a). by rewrite cut_char. Qed.

Lemma SplitN_colon_inv s x y :
  SplitN s ":" 2 = [x; y] → s = x +:+ ":" +:+ y ∧ has_char ":" x = false.
Proof.
  rewrite SplitN_2. destruct (cut ":" s) as [[b a]|] eqn:E; [|done].
  intros [= -> ->]. by apply cut_char_Some in E.
Qed.

Lemma SplitN_colon_cases s :
  SplitN s ":" 2 = [s] ∨ ∃ x y, SplitN s ":" 2 = [x; y].
Proof. rewrite SplitN_2. destruct (cut ":" s) as [[b a]|]; eauto. Qed.

Lemma validKind_cases k :
  validKind k = true →
  k = QemuHost ∨ k = QemuCtrl ∨ k = QemuGuest ∨ k = VsockHost ∨ k = VsockGuest ∨
  k = Unix ∨ k = TCP ∨ k = Mux ∨ k = FDKind ∨ k = USB.
Proof.
  unfold validKind, validKinds. cbn [list_to_map foldr uncurry fst snd].
  rewrite !lookup_insert, lookup_empty. repeat (case_decide; [by subst; tauto|]). done.
Qed.

(** ** Termination *)

Lemma ParseAddr_body_ext w rec1 rec2 a :
  (∀ b, (String.length b < String.length a)%nat → rec1 b = rec2 b) →
  ParseAddr_body w rec1 a = ParseAddr_body w rec2 a.
Proof.
  intros H. unfold ParseAddr_body.
  destruct (SplitN_colon_cases a) as [-> | (x & y & E)]; [done|]. rewrite E.
  rewrite (H y); [done|]. apply SplitN_colon_inv in E as [-> _].
  rewrite !slength_app. cbn. lia.
Qed.

Lemma ParseAddr_fuel_enough w f g a :
  (String.length a ≤ f)%nat → (String.length a ≤ g)%nat →
  ParseAddr_fuel f w a = ParseAddr_fuel g w a.
Proof.
  revert g a. induction f as [|f IH]; intros [|g] a Hf Hg; try done;
    cbn [ParseAddr_fuel]; apply ParseAddr_body_ext; intros b Hb; try lia.
  apply IH; lia.
Qed.

Lemma ParseAddr_eq w a : ParseAddr w a = ParseAddr_body w (ParseAddr w) a.
Proof.
  unfold ParseAddr at 1. rewrite (ParseAddr_fuel_enough w _ (S (String.length a))) by lia.
  cbn [ParseAddr_fuel]. apply ParseAddr_body_ext. intros b Hb.
  apply ParseAddr_fuel_enough; lia.
Qed.

(** ** The parser implements the grammar *)

Lemma ParseAddr_sound w a p : ParseAddr w a = Ok p → denotes w a p.
Proof.
  remember (String.length a) as n eqn:Hn. revert a p Hn.
  induction (lt_wf n) as [n _ IH]. intros a p -> H.
  rewrite ParseAddr_eq in H. unfold ParseAddr_body in H.
  destruct (SplitN_colon_cases a) as [E | (k & r & E)]; rewrite E in H; [done|].
  apply SplitN_colon_inv in E as [-> Hk].
  destruct (validKind k) eqn:Hv; cbn [negb] in H; [|done].
  apply validKind_cases in Hv.
  case_decide.
  { subst k. destruct (ParseAddr w r) as [q|] eqn:E; cbn in H; [|done]. go_inv.
    apply (den_mux w r q), (IH (String.length r)); [|done|done].
    rewrite !slength_app. cbn. lia. }
  case_decide.
  { subst k. destruct (SplitN_colon_cases r) as [E | (x & y & E)]; rewrite E in H; [done|].
    apply SplitN_colon_inv in E as [-> Hx]. go_inv. apply den_host; eauto. }
  case_decide; [subst k; go_inv; apply den_vsock_guest|].
  case_decide.
  { subst k. destruct (Atoi w r) as [fd [err|]] eqn:E; go_inv. by apply den_fd. }
  destruct (decide (k = QemuHost)).
  { subst k. destruct (SplitN_colon_cases r) as [E | (x & y & E)]; rewrite E in H; [done|].
    apply SplitN_colon_inv in E as [-> Hx]. go_inv. apply den_host; eauto. }
  case_decide; go_inv; [apply den_guest; tauto | apply den_plain; tauto].
Qed.

Lemma ParseAddr_kind w k r :
  has_char ":" k = false → validKind k = true →
  ParseAddr w (k +:+ ":" +:+ r) =
  if decide (k = Mux) then
    try! q := ParseAddr w r in Ok (MkParsedAddr k "" "" 0 (Some q))
  else if decide (k = VsockHost ∨ k = QemuHost) then
    match SplitN r ":" 2 with
    | [p0; p1] => Ok (MkParsedAddr k p0 p1 0 None)
    | _ => Err (errParse (k +:+ ":" +:+ r))
    end
  else if decide (k = VsockGuest) then Ok (MkParsedAddr k "" r 0 None)
  else if decide (k = FDKind) then
    match Atoi w r with
    | (fd, None) => Ok (MkParsedAddr k "" "" fd None)
    | (_, Some err) => Err err
    end
  else Ok (MkParsedAddr k r (if decide (k = QemuGuest ∨ k = QemuCtrl) then r else "") 0 None).
Proof.
  intros Hk Hv. rewrite ParseAddr_eq at 1. unfold ParseAddr_body.
  rewrite SplitN_colon by done. rewrite Hv. cbn [negb].
  apply validKind_cases in Hv. by destruct_or!; subst k.
Qed.

Lemma ParseAddr_complete w a p : denotes w a p → ParseAddr w a = Ok p.
Proof.
  induction 1 as [a p _ IH | s n E | k dir sock Hk Hd | k sock Hk | sock | k a Hk].
  - change ("mux:" +:+ a) with (Mux +:+ ":" +:+ a). rewrite ParseAddr_kind by done.
    by rewrite decide_True, IH by done.
  - change ("fd:" +:+ s) with (FDKind +:+ ":" +:+ s). rewrite ParseAddr_kind by done.
    by rewrite E.
  - rewrite ParseAddr_kind by (by destruct Hk; subst).
    rewrite SplitN_colon by done. by destruct Hk; subst k.
  - rewrite ParseAddr_kind by (by destruct Hk; subst). by destruct Hk; subst k.
  - change ("vsock-guest:" +:+ sock) with (VsockGuest +:+ ":" +:+ sock).
    by rewrite ParseAddr_kind by done.
  - rewrite ParseAddr_kind by (by destruct_or!; subst). by destruct_or!; subst k.
Qed.

Lemma denotes_print w a p :
  1 ≤ w → denotes w a p → denotes w (print_addr p) p.
Proof.
  intros Hw. induction 1 as [a p _ IH | s n E | k dir sock Hk Hd | k sock Hk | sock | k a Hk].
  - cbn. by apply (den_mux w (print_addr p)).
  - cbn. apply (den_fd w (fmt_int n) n), Atoi_fmt_int; [done|]. by eapply Atoi_range.
  - destruct Hk; subst k; apply den_host; eauto.
  - destruct Hk; subst k; apply den_guest; eauto.
  - apply den_vsock_guest.
  - destruct_or!; subst k; apply den_plain; eauto.
Qed.

(** ** Properties *)

(** C40: [ParseAddr] implements the documented address grammar: it accepts exactly
    the addresses one of the documented forms describes, and returns the fields
    that form gives (for every [int] width). *)
Theorem ParseAddr_refines_grammar (w : Z) (addr : string) (p : ParsedAddr) :
  ParseAddr w addr = Ok p ↔ denotes w addr p.
Proof. split; [apply ParseAddr_sound | apply ParseAddr_complete]. Qed.

(** The recursion of [ParseAddr] on the text after [mux:] ends on every input:
    the function computed with the length of the address as fuel satisfies the
    recursive equation of the source, with no fuel left in it. *)
Theorem ParseAddr_terminates (w : Z) (addr : string) :
  ParseAddr w addr = ParseAddr_body w (ParseAddr w) addr.
Proof. apply ParseAddr_eq. Qed.

(** Printing what was parsed and parsing it again gives the same fields back,
    nested [mux:] addresses and negative or zero-padded descriptors included. *)
Theorem ParseAddr_print_roundtrip (w : Z) (addr : string) (p : ParsedAddr) :
  1 ≤ w → ParseAddr w addr = Ok p → ParseAddr w (print_addr p) = Ok p.
Proof.
  intros Hw H%ParseAddr_sound. apply ParseAddr_complete. by eapply denotes_print.
Qed.

Lemma ParseAddr_print_roundtrip_witness :
  ParseAddr 64 "mux:fd:+03" = Ok (MkParsedAddr Mux "" "" 0 (Some (MkParsedAddr FDKind "" "" 3 None))) ∧
  ParseAddr 64 "mux:fd:3" = Ok (MkParsedAddr Mux "" "" 0 (Some (MkParsedAddr FDKind "" "" 3 None))).
Proof.
  split; [vm_compute; reflexivity|].
  apply (ParseAddr_print_roundtrip 64 "mux:fd:+03"
           (MkParsedAddr Mux "" "" 0 (Some (MkParsedAddr FDKind "" "" 3 None))));
    [lia | vm_compute; reflexivity].
Defined.

(** The shipped examples of addr_test.go. *)
Example ParseAddr_tests :
  ParseAddr 64 "mux:unix:sockets/hello" =
    Ok (MkParsedAddr Mux "" "" 0 (Some (MkParsedAddr Unix "sockets/hello" "" 0 None))) ∧
  ParseAddr 64 "tcp:localhost:9090" = Ok (MkParsedAddr TCP "localhost:9090" "" 0 None) ∧
  ParseAddr 64 "qemu:/foo/bar:sockets/hello" =
    Ok (MkParsedAddr QemuHost "/foo/bar" "sockets/hello" 0 None) ∧
  ParseAddr 64 "qemu2:sockets/hello" =
    Ok (MkParsedAddr QemuCtrl "sockets/hello" "sockets/hello" 0 None) ∧
  ParseAddr 64 "foo:sockets/hello" = Err (ErrorString "invalid kind: foo").
Proof. vm_compute. repeat split. Qed.
