(* ===== verification/Auth.v ===== *)
(** * Session authorization: src/waterfall/golang/server/auth_interceptor.go *)

From S2P Require Import Prelude.

Definition sessionHdr : string := "x-session-id".

(** [AuthInterceptor] and [NewAuthInterceptor(sessionID)] *)
Record AuthInterceptor := NewAuthInterceptor { sessionID : string }.

(** The metadata of a request ([None]: it has none). *)
Abbreviation metadata := (option (gmap string (list string))).

Definition unauthenticated (msg : string) : option error := Some (StatusError Unauthenticated msg).

(** [authorize(ctx)] *)
Definition authorize (a : AuthInterceptor) (md : metadata) : option error :=
  if decide (sessionID a ≠ "") then
    match md with
    | None => unauthenticated "missing metadata"
    | Some md =>
        match md !! sessionHdr with
        | Some [hdr] =>
            if decide (sessionID a ≠ hdr) then unauthenticated "bad x-session-id value" else None
        | _ => unauthenticated "invalid x-session-id header"
        end
    end
  else None.

(** [StreamServerInterceptor] and [UnaryServerInterceptor]: [handler] runs on the state [S]. *)
Definition StreamServerInterceptor {S} (a : AuthInterceptor) (md : metadata)
    (handler : S → S * option error) (s : S) : S * option error :=
  match authorize a md with Some e => (s, Some e) | None => handler s end.

Definition UnaryServerInterceptor {S R} (a : AuthInterceptor) (md : metadata)
    (handler : S → S * result R) (s : S) : S * result R :=
  match authorize a md with Some e => (s, Err e) | None => handler s end.

(** The request carries the session: none is required, or it has exactly one header value
    and it is the right one. *)
Definition carries_session (a : AuthInterceptor) (md : metadata) : Prop :=
  sessionID a = "" ∨ ∃ m, md = Some m ∧ m !! sessionHdr = Some [sessionID a].

Lemma authorize_None a md : authorize a md = None ↔ carries_session a md.
Proof.
  unfold authorize, carries_session, unauthenticated. case_decide as H.
  2: { split; [|done]. intros _. left. by destruct (decide (sessionID a = "")). }
  destruct md as [m|]; [|naive_solver].
  destruct (m !! sessionHdr) as [[|h [|? ?]]|] eqn:E; [naive_solver| |naive_solver|naive_solver].
  case_decide as Hh; [naive_solver|]. split; [|done]. intros _. right. exists m.
  split; [done|]. rewrite E. by destruct (decide (sessionID a = h)); subst.
Qed.

(** Requests reach a handler exactly when they carry the session: for both kinds of
    calls the interceptor is the handler when the metadata authorizes it, and otherwise
    returns Unauthenticated and leaves the state as it was. *)
Theorem auth_exact {S R} a md (h1 : S → S * option error) (h2 : S → S * result R) :
  (carries_session a md →
     StreamServerInterceptor a md h1 = h1 ∧ UnaryServerInterceptor a md h2 = h2) ∧
  (¬ carries_session a md → ∃ msg, ∀ s,
     StreamServerInterceptor a md h1 s = (s, Some (StatusError Unauthenticated msg)) ∧
     UnaryServerInterceptor a md h2 s = (s, Err (StatusError Unauthenticated msg))).
Proof.
  split; intros H.
  - apply authorize_None in H. unfold StreamServerInterceptor, UnaryServerInterceptor.
    by rewrite H.
  - unfold StreamServerInterceptor, UnaryServerInterceptor.
    destruct (authorize a md) as [e|] eqn:E; [|by apply authorize_None in E].
    assert (∃ msg, e = StatusError Unauthenticated msg) as [msg ->].
    { unfold authorize, unauthenticated in E. repeat case_match; simplify_eq; eauto. }
    by exists msg.
Qed.
