(* ===== verification/GoIO.v ===== *)
(** * The parts of Go's [io], [bufio] and [encoding/binary] the sources use

    A [source] is what one end of a connection will deliver: its bytes, in order,
    and the error that ends them ([None]: the connection stays open and silent).
    A [sink] is what one end accepts: the bytes already taken, and how many more it
    takes before it fails. *)

From S2P Require Import Prelude.

Local Open Scope Z_scope.

(** ** Connection ends *)

Record source := MkSource { avail : list byte; fin : option error }.

Record sink := MkSink { taken : list byte; quota : option (Z * error) }.

(** One [Write] on the sink: all of [p], or as much as it still takes. *)
Definition sink_write (s : sink) (p : list byte) : sink * (Z * option error) :=
  match quota s with
  | None => (MkSink (taken s ++ p) None, (len p, None))
  | Some (k, e) =>
      if decide (len p ≤ k)
      then (MkSink (taken s ++ p) (Some (k - len p, e)), (len p, None))
      else (MkSink (taken s ++ take (Z.to_nat k) p) (Some (0, e)), (k, Some e))
  end.

(** [io.ReadFull(r, buf)] with [len(buf) = n]: the bytes stored in [buf], and the
    error. *)
Definition ReadFull (r : source) (n : Z) : source * outcome (list byte * option error) :=
  if decide (n ≤ len (avail r)) then
    (MkSource (drop (Z.to_nat n) (avail r)) (fin r),
     Ret (take (Z.to_nat n) (avail r), None))
  else
    match fin r with
    | None => (r, Block)
    | Some e =>
        (MkSource [] (fin r),
         Ret (avail r,
              Some (if decide (e = EOF ∧ avail r ≠ []) then UnexpectedEOF else e)))
    end.

(** ** [encoding/binary], little endian, 32 bits *)

Definition byte_of_Z (z : Z) : byte := Ascii.ascii_of_N (Z.to_N (Z.land z 255)).
Definition Z_of_byte (b : byte) : Z := Z.of_N (Ascii.N_of_ascii b).

(** [binary.LittleEndian.PutUint32] *)
Definition put_uint32 (v : Z) : list byte :=
  [byte_of_Z v; byte_of_Z (Z.shiftr v 8); byte_of_Z (Z.shiftr v 16);
   byte_of_Z (Z.shiftr v 24)].

(** [binary.LittleEndian.Uint32] *)
Definition get_uint32 (l : list byte) : Z :=
  match l with
  | [b0; b1; b2; b3] =>
      Z.lor (Z_of_byte b0)
        (Z.lor (Z.shiftl (Z_of_byte b1) 8)
          (Z.lor (Z.shiftl (Z_of_byte b2) 16) (Z.shiftl (Z_of_byte b3) 24)))
  | _ => 0
  end.

(** [binary.Read(r, binary.LittleEndian, &v)] for a [uint32]. *)
Definition read_uint32 (r : source) : source * outcome (Z * option error) :=
  match ReadFull r 4 with
  | (r', Ret (bs, None)) => (r', Ret (get_uint32 bs, None))
  | (r', Ret (_, Some e)) => (r', Ret (0, Some e))
  | (r', Panic) => (r', Panic)
  | (r', Block) => (r', Block)
  end.

(** ** [bufio.Writer] *)

(** [buffered] is [b.buf[:b.n]], [werr] the sticky [b.err], [cap] is [len(b.buf)],
    [wr] the underlying writer. *)
Record Writer := MkWriter {
  buffered : list byte;
  werr : option error;
  cap : Z;
  wr : sink;
}.

Definition NewWriterSize (s : sink) (size : Z) : Writer := MkWriter [] None size s.

(** [Writer.Flush] *)
Definition Flush (b : Writer) : Writer * option error :=
  match werr b with
  | Some e => (b, Some e)
  | None =>
      if decide (buffered b = []) then (b, None) else
      let '(s', (n, err)) := sink_write (wr b) (buffered b) in
      match err with
      | Some e => (MkWriter (drop (Z.to_nat n) (buffered b)) (Some e) (cap b) s', Some e)
      | None => (MkWriter [] None (cap b) s', None)
      end
  end.

(** The loop of [Writer.Write]: while [p] does not fit, write straight through
    (empty buffer) or fill the buffer and flush it.  Every pass writes to the
    underlying writer, so [2] passes are enough for [p]: one to empty the buffer,
    one for the rest (see [Write_spec]). *)
Fixpoint Write_loop (fuel : nat) (b : Writer) (p : list byte) (nn : Z)
    : Writer * list byte * Z :=
  match fuel with
  | O => (b, p, nn)
  | S f =>
      match werr b with
      | Some _ => (b, p, nn)
      | None =>
          if decide (cap b - len (buffered b) < len p) then
            if decide (buffered b = []) then
              let '(s', (n, err)) := sink_write (wr b) p in
              Write_loop f (MkWriter [] err (cap b) s') (drop (Z.to_nat n) p) (nn + n)
            else
              let n := cap b - len (buffered b) in
              let b' := MkWriter (buffered b ++ take (Z.to_nat n) p) None (cap b) (wr b) in
              Write_loop f (fst (Flush b')) (drop (Z.to_nat n) p) (nn + n)
          else (b, p, nn)
      end
  end.

(** [Writer.Write] *)
Definition Write (b : Writer) (p : list byte) : Writer * (Z * option error) :=
  let '(b1, p1, nn) := Write_loop 2 b p 0 in
  match werr b1 with
  | Some e => (b1, (nn, Some e))
  | None =>
      (MkWriter (buffered b1 ++ p1) None (cap b1) (wr b1), (nn + len p1, None))
  end.

(** ** Little-endian round trip *)

Lemma Z_of_byte_of_Z z : Z_of_byte (byte_of_Z z) = Z.land z 255.
Proof.
  unfold Z_of_byte, byte_of_Z. rewrite Ascii.N_ascii_embedding.
  - rewrite Z2N.id; [done|]. apply Z.land_nonneg. lia.
  - change 255 with (Z.ones 8). rewrite Z.land_ones by lia.
    pose proof (Z.mod_pos_bound z (2 ^ 8) ltac:(lia)).
    change (2 ^ 8) with 256 in *. lia.
Qed.

Lemma Z_of_byte_bound b : 0 ≤ Z_of_byte b < 256.
Proof. unfold Z_of_byte. pose proof (Ascii.N_ascii_bounded b). lia. Qed.

Lemma land_255_testbit z i : 0 ≤ i → Z.testbit (Z.land z 255) i = Z.testbit z i && (i <? 8).
Proof.
  intros Hi. change 255 with (Z.ones 8). rewrite Z.land_spec. f_equal.
  destruct (Z.ltb_spec i 8); [rewrite Z.ones_spec_low | rewrite Z.ones_spec_high]; lia.
Qed.

Lemma get_put_uint32 v : 0 ≤ v < 2 ^ 32 → get_uint32 (put_uint32 v) = v.
Proof.
  intros Hv. cbn [get_uint32 put_uint32]. rewrite !Z_of_byte_of_Z.
  apply Z.bits_inj'. intros i Hi. rewrite !Z.lor_spec, !Z.shiftl_spec by lia.
  assert (∀ j, 0 ≤ j → Z.testbit (Z.land (Z.shiftr v j) 255) (i - j)
            = (j <=? i) && (i <? j + 8) && Z.testbit v i) as Hb.
  { intros j Hj. destruct (Z.leb_spec j i).
    - rewrite land_255_testbit, Z.shiftr_spec by lia.
      replace (i - j + j) with i by lia.
      replace (i <? j + 8) with (i - j <? 8); [|by destruct (Z.ltb_spec (i - j) 8), (Z.ltb_spec i (j + 8)); lia].
      by rewrite andb_comm.
    - by rewrite Z.testbit_neg_r by lia. }
  rewrite land_255_testbit by lia. rewrite !Hb by lia.
  destruct (Z.testbit v i) eqn:E; rewrite ?andb_false_r; [|done].
  assert (i < 32).
  { destruct (decide (i < 32)); [done|]. exfalso.
    assert (Z.testbit v i = false) as E'; [|congruence].
    destruct (decide (v = 0)) as [->|]; [apply Z.bits_0|].
    apply Z.bits_above_log2; [lia|].
    assert (Z.log2 v < 32) by (apply Z.log2_lt_pow2; lia). lia. }
  rewrite !andb_true_r, andb_true_l.
  destruct (Z.ltb_spec i 8), (Z.leb_spec 8 i), (Z.ltb_spec i (8 + 8)),
    (Z.leb_spec 16 i), (Z.ltb_spec i (16 + 8)), (Z.leb_spec 24 i), (Z.ltb_spec i (24 + 8));
    cbn; (done || lia).
Qed.

Lemma get_uint32_bound l : 0 ≤ get_uint32 l < 2 ^ 32.
Proof.
  destruct l as [|b0 [|b1 [|b2 [|b3 [|]]]]]; cbn [get_uint32]; try lia.
  pose proof (Z_of_byte_bound b0). pose proof (Z_of_byte_bound b1).
  pose proof (Z_of_byte_bound b2). pose proof (Z_of_byte_bound b3).
  assert (∀ a c, 0 ≤ a < 2 ^ 32 → 0 ≤ c < 2 ^ 32 → 0 ≤ Z.lor a c < 2 ^ 32) as Hlor.
  { intros a c Ha Hc. split; [apply Z.lor_nonneg; lia|].
    destruct (decide (Z.lor a c = 0)) as [->|Hne]; [lia|].
    apply Z.log2_lt_pow2; [pose proof (proj2 (Z.lor_nonneg a c) ltac:(lia)); lia|].
    rewrite Z.log2_lor by lia.
    assert (∀ x, 0 ≤ x < 2 ^ 32 → Z.log2 x < 32) as Hl.
    { intros x Hx. destruct (decide (x = 0)) as [->|]; [done|]. apply Z.log2_lt_pow2; lia. }
    pose proof (Hl a Ha). pose proof (Hl c Hc). lia. }
  repeat apply Hlor; rewrite ?Z.shiftl_mul_pow2 by lia; lia.
Qed.

Lemma len_put_uint32 v : len (put_uint32 v) = 4.
Proof. reflexivity. Qed.

(** ** Sources *)

Lemma ReadFull_app p q f :
  ReadFull (MkSource (p ++ q) f) (len p) = (MkSource q f, Ret (p, None)).
Proof.
  unfold ReadFull. cbn [avail fin].
  rewrite decide_True by (rewrite len_app; pose proof (len_nonneg q); lia).
  unfold len. rewrite Nat2Z.id. by rewrite take_app_length, drop_app_length.
Qed.

Lemma read_uint32_app v q f :
  0 ≤ v < 2 ^ 32 →
  read_uint32 (MkSource (put_uint32 v ++ q) f) = (MkSource q f, Ret (v, None)).
Proof.
  intros Hv. unfold read_uint32. rewrite <- (len_put_uint32 v), ReadFull_app.
  by rewrite get_put_uint32.
Qed.

(** ** Writers *)

(** The bytes handed to the writer that have not been dropped: on the wire, then
    in the buffer. *)
Definition wlog (b : Writer) : list byte := taken (wr b) ++ buffered b.

Definition healthy (b : Writer) : Prop := werr b = None ∧ quota (wr b) = None.

(** One [sink_write] takes a prefix of [p], all of it when it reports no error. *)
Lemma sink_write_healthy w p :
  quota w = None → sink_write w p = (MkSink (taken w ++ p) None, (len p, None)).
Proof. intros H. unfold sink_write. by rewrite H. Qed.

Lemma sink_write_prefix s p s' n err :
  (∀ k e, quota s = Some (k, e) → 0 ≤ k) →
  sink_write s p = (s', (n, err)) →
  0 ≤ n ≤ len p ∧ taken s' = taken s ++ take (Z.to_nat n) p ∧ (err = None → n = len p) ∧
  (∀ k e, quota s' = Some (k, e) → 0 ≤ k).
Proof.
  intros Hq. unfold sink_write. pose proof (len_nonneg p) as Hp.
  pose proof (take_len p) as Htake.
  destruct (quota s) as [[k e]|] eqn:E.
  - specialize (Hq _ _ eq_refl). case_decide; intros [= <- <- <-]; cbn [taken quota].
    + rewrite Htake. repeat split; try lia. intros ?? [= <- <-]. lia.
    + repeat split; try lia; [done|]. intros ?? [= <- <-]. lia.
  - intros [= <- <- <-]. cbn [taken quota]. rewrite Htake. repeat split; try lia. done.
Qed.

Definition quota_ok (b : Writer) : Prop := ∀ k e, quota (wr b) = Some (k, e) → 0 ≤ k.

(** Flushing moves bytes from the buffer to the wire and drops none; without an
    error the buffer is empty afterwards. *)
Lemma Flush_spec b b' err :
  quota_ok b → Flush b = (b', err) →
  wlog b' = wlog b ∧ cap b' = cap b ∧ werr b' = err ∧ quota_ok b' ∧
  (err = None → buffered b' = []).
Proof.
  intros Hq. unfold Flush. destruct (werr b) as [e|] eqn:Ee.
  { intros [= <- <-]. by rewrite Ee. }
  case_decide as Hb; [intros [= <- <-]; by rewrite Ee|].
  destruct (sink_write (wr b) (buffered b)) as [s' [n err']] eqn:E.
  apply sink_write_prefix in E as (Hn & Ht & Hnone & Hq'); [|done].
  unfold wlog, quota_ok. destruct err' as [e'|]; intros [= <- <-]; cbn.
  - rewrite Ht, <- app_assoc, take_drop. done.
  - rewrite Ht, (Hnone eq_refl), take_len, app_nil_r. done.
Qed.

Lemma Flush_healthy b :
  healthy b → Flush b = (MkWriter [] None (cap b) (MkSink (wlog b) None), None).
Proof.
  intros [He Hq]. unfold Flush, wlog. rewrite He.
  destruct b as [bf er cp [tk qt]]; cbn in *. subst.
  case_decide; [subst; by rewrite app_nil_r|]. done.
Qed.

(** Close [(b, (n, err)) = (?b, (m, err))] when the counts agree. *)
Ltac ret_count :=
  match goal with
  | |- (_, (?n, _)) = (_, (?m, _)) => replace n with m by llia; reflexivity
  end.

(** A healthy writer takes everything. *)
Lemma Write_healthy b p :
  healthy b → len (buffered b) ≤ cap b →
  ∃ b', Write b p = (b', (len p, None)) ∧ wlog b' = wlog b ++ p ∧ healthy b' ∧
        cap b' = cap b ∧ len (buffered b') ≤ cap b'.
Proof.
  destruct b as [bf er cp [tk qt]]. intros [He Hq] Hc; cbn [werr wr quota buffered cap] in *; subst.
  pose proof (len_nonneg bf) as Hbf. pose proof (len_nonneg p) as Hp.
  unfold Write. cbn [Write_loop werr cap buffered wr].
  case_decide as Hfit.
  2: { cbn [werr]. eexists; split; [done|]. unfold wlog, healthy. cbn.
       rewrite len_app, app_assoc. repeat split; lia. }
  case_decide as Hbe.
  - subst bf. unfold sink_write. cbn [quota taken wr].
    rewrite drop_len. cbn [werr]. rewrite len_nil in Hfit, Hc.
    rewrite decide_False by (cbn [cap buffered]; rewrite len_nil; lia).
    cbn [werr]. eexists; split; [ret_count|].
    unfold wlog, healthy. cbn. rewrite !app_nil_r. repeat split. llia.
  - set (n := cp - len bf) in *.
    rewrite Flush_healthy by done. cbn [fst cap werr buffered wr].
    unfold wlog at 1 2 3. cbn [taken wr buffered].
    set (p1 := drop (Z.to_nat n) p).
    assert (len p1 = len p - n) as Hp1 by (unfold p1; apply len_drop; lia).
    assert (take (Z.to_nat n) p ++ p1 = p) as Hsplit by apply take_drop.
    case_decide as Hfit2; [rewrite decide_True by done|].
    + unfold sink_write. cbn [werr quota taken wr]. rewrite drop_len.
      eexists; split; [ret_count|].
      unfold wlog, healthy. cbn. rewrite !app_nil_r, <- !app_assoc, Hsplit.
      repeat split. llia.
    + cbn [werr]. eexists; split; [ret_count|].
      unfold wlog, healthy. cbn. rewrite <- !app_assoc, Hsplit.
      repeat split; llia.
Qed.

(** Whatever the sink does, what a write leaves in the log is the old log and a
    prefix of the new bytes. *)
Lemma Write_loop_prefix fuel b p nn b' p' nn' :
  quota_ok b → Write_loop fuel b p nn = (b', p', nn') →
  quota_ok b' ∧ ∃ q, p = q ++ p' ∧ wlog b' = wlog b ++ q.
Proof.
  revert b p nn. induction fuel as [|f IH]; intros b p nn Hq; cbn [Write_loop].
  { intros [= <- <- <-]. split; [done|]. exists []. by rewrite app_nil_r. }
  assert (∃ q, p = q ++ p ∧ wlog b = wlog b ++ q) as Hstay by (exists []; by rewrite app_nil_r).
  destruct (werr b) eqn:Ee; [intros [= <- <- <-]; by eauto|].
  case_decide; [|intros [= <- <- <-]; by eauto].
  case_decide as Hb.
  - destruct (sink_write (wr b) p) as [s' [n err]] eqn:E.
    apply sink_write_prefix in E as (Hn & Ht & _ & Hq'); [|done].
    intros HL. apply IH in HL as (? & q & Hp & Hl); [|done]. split; [done|].
    exists (take (Z.to_nat n) p ++ q). rewrite <- app_assoc, <- Hp, take_drop, Hl.
    unfold wlog. cbn. by rewrite Ht, Hb, !app_nil_r, app_assoc.
  - set (n := cap b - len (buffered b)) in *. set (b1 := MkWriter _ None _ _).
    destruct (Flush b1) as [b2 err] eqn:E.
    apply Flush_spec in E as (Hl2 & _ & _ & Hq2 & _); [|done].
    intros HL. apply IH in HL as (? & q & Hp & Hl); [|done]. split; [done|].
    exists (take (Z.to_nat n) p ++ q). cbn [fst] in Hl.
    rewrite <- app_assoc, <- Hp, take_drop, Hl, Hl2. unfold wlog, b1. cbn.
    by rewrite <- !app_assoc.
Qed.

Lemma Write_prefix b p b' n err :
  quota_ok b → Write b p = (b', (n, err)) →
  quota_ok b' ∧ werr b' = err ∧
  ∃ q r, p = q ++ r ∧ wlog b' = wlog b ++ q ∧ (err = None → r = []).
Proof.
  intros Hq. unfold Write.
  destruct (Write_loop 2 b p 0) as [[b1 p1] nn] eqn:E.
  apply Write_loop_prefix in E as (Hq1 & q & -> & Hl); [|done].
  destruct (werr b1) as [e|] eqn:Ee; intros [= <- <- <-].
  - repeat split; [done..|]. exists q, p1. done.
  - repeat split; [done|]. exists (q ++ p1), []. rewrite app_nil_r.
    repeat split. unfold wlog in *. cbn. by rewrite app_assoc, Hl, app_assoc.
Qed.

(** A failed writer stays failed, and stays as it is. *)
Lemma Write_sticky b p e : werr b = Some e → Write b p = (b, (0, Some e)).
Proof. intros H. unfold Write. cbn [Write_loop]. by rewrite !H. Qed.

Lemma Flush_sticky b e : werr b = Some e → Flush b = (b, Some e).
Proof. intros H. unfold Flush. by rewrite H. Qed.
