(* ===== verification/Filepath.v ===== *)
(** * The parts of Go's [path/filepath] the sources use, on Unix

    Paths are strings; [names] are their non-empty elements.  [Clean], [Join], [Dir], [Base]
    and [Rel] are lexical: they never look at a file system.  The lemmas say what they do to
    paths made of well-formed names, which is what the tar code builds. *)

From S2P Require Import Prelude GoStrings.

Local Open Scope Z_scope.

(** ** Definitions *)

(** The elements of a path between its separators. *)
Definition names (s : string) : list string := filter (λ c, c ≠ "") (Split s "/").

Definition IsAbs (s : string) : bool := HasPrefix s "/".

(** Paths from their elements. *)
Definition rel_path (l : list string) : string := Join l "/".
Definition abs_path (l : list string) : string := "/" +:+ rel_path l.

(** One element of [filepath.Clean]; [acc] is the output so far, last element first. *)
Definition clean_step (rooted : bool) (acc : list string) (c : string) : list string :=
  if decide (c = ".") then acc
  else if decide (c = "..") then
    match acc with
    | x :: r => if decide (x = "..") then c :: acc else r
    | [] => if rooted then [] else [c]
    end
  else c :: acc.

Definition clean_names (rooted : bool) (l : list string) : list string :=
  rev (foldl (clean_step rooted) [] l).

(** [filepath.Clean(s)] *)
Definition Clean (s : string) : string :=
  if decide (s = "") then "." else
  let l := clean_names (IsAbs s) (names s) in
  if IsAbs s then abs_path l else if decide (l = []) then "." else rel_path l.

(** [filepath.Join(a, b)]: leading empty elements are ignored. *)
Definition PathJoin (a b : string) : string :=
  if decide (a = "") then if decide (b = "") then "" else Clean b
  else Clean (a +:+ "/" +:+ b).

(** The text up to and including the last separator, and the text after it. *)
Fixpoint split_last (s : string) : string * string :=
  match s with
  | "" => ("", "")
  | String c s' =>
      let '(d, b) := split_last s' in
      if decide (d = "") then
        if decide (c = "/"%char) then (String c "", b) else ("", String c b)
      else (String c d, b)
  end.

(** [filepath.Dir(s)] *)
Definition Dir (s : string) : string := Clean (fst (split_last s)).

(** [filepath.Base(s)] *)
Definition Base (s : string) : string :=
  if decide (s = "") then "." else
  let t := TrimRight s "/" in
  if decide (t = "") then "/" else snd (split_last t).

(** What is left of two lists after their longest common prefix. *)
Fixpoint strip_common (a b : list string) : list string * list string :=
  match a, b with
  | x :: a', y :: b' => if decide (x = y) then strip_common a' b' else (a, b)
  | _, _ => (a, b)
  end.

(** [filepath.Rel(base, targ)] *)
Definition Rel (base targ : string) : result string :=
  let b := Clean base in
  let t := Clean targ in
  if decide (t = b) then Ok "." else
  let bn := if decide (b = ".") then [] else names b in
  if decide (b ≠ "." ∧ IsAbs b ≠ IsAbs t ∨ b = "." ∧ IsAbs t = true) then
    Err (ErrorString ("Rel: can't make " +:+ targ +:+ " relative to " +:+ base))
  else
    let '(br, tr) := strip_common bn (names t) in
    if decide (head br = Some "..") then
      Err (ErrorString ("Rel: can't make " +:+ targ +:+ " relative to " +:+ base))
    else Ok (rel_path (((λ _, "..") <$> br) ++ tr)).

(** ** Elements *)

(** A name a directory can hold. *)
Definition good_name (c : string) : Prop :=
  c ≠ "" ∧ c ≠ "." ∧ c ≠ ".." ∧ has_char "/" c = false.

#[export] Instance good_name_dec c : Decision (good_name c).
Proof. unfold good_name. apply _. Defined.

Lemma good_no_slash l : Forall good_name l → Forall (λ p, has_char "/" p = false) l.
Proof. apply Forall_impl. by intros c (_ & _ & _ & ?). Qed.

Lemma good_nonempty l : Forall good_name l → filter (λ c, c ≠ "") l = l.
Proof.
  induction 1 as [|c l (Hc & _) _ IH]; [done|]. rewrite list.filter_cons_True by done. by rewrite IH.
Qed.

(** The elements of a path with a separator in it are those of its two sides. *)
Lemma names_app a b : names (a +:+ String "/" b) = names a ++ names b.
Proof. unfold names. by rewrite Split_app_char, list.filter_app. Qed.

Lemma names_empty : names "" = [].
Proof. reflexivity. Qed.

Lemma names_rel_path l : Forall good_name l → names (rel_path l) = l.
Proof.
  intros H. destruct (decide (l = [])) as [->|Hl]; [done|]. unfold names, rel_path.
  rewrite (Split_unique "/" _ l); [by apply good_nonempty | done | by apply good_no_slash | done].
Qed.

Lemma names_abs_path l : Forall good_name l → names (abs_path l) = l.
Proof.
  intros H. unfold abs_path. rewrite (names_app "" (rel_path l) : names ("/" +:+ rel_path l) = _).
  rewrite names_empty. by rewrite names_rel_path.
Qed.

Lemma rel_path_app l k : l ≠ [] → k ≠ [] → rel_path (l ++ k) = rel_path l +:+ "/" +:+ rel_path k.
Proof. apply Join_app. Qed.

Lemma IsAbs_abs_path l : IsAbs (abs_path l) = true.
Proof. unfold IsAbs, abs_path. apply HasPrefix_true. by eexists. Qed.

Lemma IsAbs_cons c s : IsAbs (String c s) = bool_decide (c = "/"%char).
Proof.
  unfold IsAbs, HasPrefix. cbn. case_decide.
  - subst. by rewrite bool_decide_true.
  - by rewrite bool_decide_false by congruence.
Qed.

(** ** [Clean] *)

Lemma clean_good rooted acc l :
  Forall good_name l → foldl (clean_step rooted) acc l = rev l ++ acc.
Proof.
  intros H. revert acc. induction H as [|c l (H1 & H2 & H3 & H4) _ IH]; intros acc; [done|].
  cbn [foldl rev]. rewrite IH. unfold clean_step. rewrite !decide_False by done.
  by rewrite <- app_assoc.
Qed.

Lemma clean_names_good rooted l : Forall good_name l → clean_names rooted l = l.
Proof. intros H. unfold clean_names. by rewrite clean_good, app_nil_r, rev_involutive. Qed.

Lemma Clean_abs_path l : Forall good_name l → Clean (abs_path l) = abs_path l.
Proof.
  intros H. unfold Clean. rewrite decide_False by done.
  by rewrite IsAbs_abs_path, names_abs_path, clean_names_good.
Qed.

(** Cleaning an absolute path. *)
Lemma Clean_abs s : IsAbs s = true → Clean s = abs_path (clean_names true (names s)).
Proof. intros H. unfold Clean. rewrite decide_False by by intros ->. by rewrite H. Qed.

(** [Join] of an absolute directory and anything. *)
Lemma PathJoin_abs d s :
  Forall good_name d →
  PathJoin (abs_path d) s = abs_path (clean_names true (d ++ names s)).
Proof.
  intros H. unfold PathJoin. rewrite decide_False by done.
  rewrite Clean_abs by done. f_equal. f_equal.
  change ("/" +:+ s) with (String "/" s). rewrite names_app. by rewrite names_abs_path.
Qed.

(** Without [..] elements [Join] stays below the directory. *)
Definition no_dotdot (s : string) : Prop := Forall (λ c, c ≠ "..") (names s).

#[export] Instance no_dotdot_dec s : Decision (no_dotdot s).
Proof. unfold no_dotdot. apply _. Defined.

Lemma names_no_slash s : Forall (λ c, c ≠ "" ∧ has_char "/" c = false) (names s).
Proof.
  unfold names. apply Forall_in. intros c [Hc Hs]%list_elem_of_filter. split; [done|].
  pose proof (Split_pieces "/" s) as H. rewrite Forall_in in H. by apply H.
Qed.

Lemma clean_below rooted acc l :
  Forall (λ c, c ≠ "" ∧ has_char "/" c = false) l → Forall (λ c, c ≠ "..") l →
  ∃ k, foldl (clean_step rooted) acc l = rev k ++ acc ∧ Forall good_name k.
Proof.
  intros H. revert acc. induction H as [|c l [H1 H2] _ IH]; intros acc Hd.
  { by exists []. }
  apply Forall_cons_1 in Hd as [H3 Hd]. cbn [foldl].
  destruct (decide (c = ".")) as [->|H4].
  - destruct (IH acc Hd) as (k & E & Hk). by exists k.
  - destruct (IH (c :: acc) Hd) as (k & E & Hk). exists (c :: k).
    replace (clean_step rooted acc c) with (c :: acc)
      by (unfold clean_step; by rewrite !decide_False).
    rewrite E. cbn [rev].
    rewrite <- app_assoc. split; [done|]. by constructor.
Qed.

Lemma PathJoin_below d s :
  Forall good_name d → no_dotdot s →
  ∃ k, PathJoin (abs_path d) s = abs_path (d ++ k) ∧ Forall good_name k.
Proof.
  intros Hd Hs. rewrite PathJoin_abs by done.
  unfold clean_names. rewrite foldl_app, (clean_good true [] d), app_nil_r by done.
  destruct (clean_below true (rev d) (names s)) as (k & -> & Hk); [apply names_no_slash | done |].
  exists k. rewrite <- rev_app_distr, rev_involutive. done.
Qed.

Lemma PathJoin_good d s :
  Forall good_name d → Forall good_name (names s) →
  PathJoin (abs_path d) s = abs_path (d ++ names s).
Proof.
  intros Hd Hs. rewrite PathJoin_abs by done. rewrite clean_names_good; [done|].
  by apply Forall_app.
Qed.

Lemma PathJoin_rel d l :
  Forall good_name d → Forall good_name l →
  PathJoin (abs_path d) (rel_path l) = abs_path (d ++ l).
Proof. intros Hd Hl. rewrite PathJoin_good; by rewrite ?names_rel_path. Qed.

(** ** [Dir] and [Base] *)

Lemma split_last_none s : has_char "/" s = false → split_last s = ("", s).
Proof.
  induction s as [|c s IH]; [done|]. cbn [has_char split_last]. intros H.
  apply orb_false_iff in H as [Hc Hs]. apply bool_decide_eq_false in Hc.
  rewrite IH by done. rewrite decide_True by done. by rewrite decide_False.
Qed.

Lemma split_last_slash d b : has_char "/" b = false → split_last (d +:+ String "/" b) = (d +:+ "/", b).
Proof.
  intros Hb. induction d as [|c d IH].
  - rewrite sapp_nil_l. cbn [split_last]. rewrite (split_last_none b) by done.
    by rewrite !decide_True.
  - rewrite sapp_cons. cbn [split_last]. rewrite IH.
    rewrite decide_False; [done|]. by destruct d.
Qed.

Lemma abs_path_snoc d c :
  abs_path (d ++ [c]) = (if decide (d = []) then "" else abs_path d) +:+ "/" +:+ c.
Proof.
  unfold abs_path. case_decide as E; [by subst|]. rewrite rel_path_app by done.
  by rewrite sapp_assoc.
Qed.

Lemma Dir_abs_path d c :
  Forall good_name d → good_name c → Dir (abs_path (d ++ [c])) = abs_path d.
Proof.
  intros Hd (_ & _ & _ & Hc). unfold Dir. rewrite abs_path_snoc.
  change ("/" +:+ c) with (String "/" c). rewrite split_last_slash by done. cbn [fst].
  case_decide as E; [by subst|].
  rewrite Clean_abs by done. change "/" with (String "/" "") at 1. rewrite names_app.
  by rewrite names_abs_path, names_empty, app_nil_r, clean_names_good.
Qed.

Lemma TrimRight_slash s t :
  t ≠ "" → has_char "/" t = false → TrimRight (s +:+ t) "/" = s +:+ t.
Proof.
  intros Ht Hs. induction s as [|a s IH].
  - rewrite sapp_nil_l. clear Ht. induction t as [|a t IH]; [done|].
    cbn [has_char TrimRight] in *. apply orb_false_iff in Hs as [Ha Hs].
    apply bool_decide_eq_false in Ha. rewrite IH by done. destruct t; [|done].
    rewrite bool_decide_false by congruence. done.
  - rewrite sapp_cons. cbn [TrimRight]. rewrite IH. destruct (s +:+ t) eqn:E; [|done].
    by destruct s, t.
Qed.

Lemma Base_abs_path d c : good_name c → Base (abs_path (d ++ [c])) = c.
Proof.
  intros (Hc & _ & _ & Hs). unfold Base. rewrite decide_False by done.
  rewrite abs_path_snoc. rewrite <- sapp_assoc, TrimRight_slash by done.
  rewrite decide_False by (by destruct c, (if decide (d = []) then "" else abs_path d)).
  rewrite sapp_assoc. change ("/" +:+ c) with (String "/" c). by rewrite split_last_slash.
Qed.

(** A clean absolute path other than the root has no trailing separator. *)
Lemma TrimRight_abs_path d c :
  good_name c → TrimRight (abs_path (d ++ [c])) "/" = abs_path (d ++ [c]).
Proof.
  intros (Hc & _ & _ & Hs). rewrite abs_path_snoc, <- sapp_assoc. by apply TrimRight_slash.
Qed.

(** ** [Rel] *)

Lemma strip_common_app a b : strip_common a (a ++ b) = ([], b).
Proof. induction a as [|x a IH]; [by destruct b|]. cbn. by rewrite decide_True. Qed.

Lemma rel_path_inj l k :
  l ≠ [] → k ≠ [] → Forall good_name l → Forall good_name k → rel_path l = rel_path k → l = k.
Proof. intros. apply (Join_inj "/"); auto using good_no_slash. Qed.

Lemma abs_path_inj l k :
  Forall good_name l → Forall good_name k → abs_path l = abs_path k → l = k.
Proof.
  intros Hl Hk E. rewrite <- (names_abs_path l), <- (names_abs_path k) by done. by rewrite E.
Qed.

(** The path of something below a directory, relative to the directory. *)
Lemma Rel_below d l :
  Forall good_name (d ++ l) → l ≠ [] → Rel (abs_path d) (abs_path (d ++ l)) = Ok (rel_path l).
Proof.
  intros H Hl. pose proof H as [Hd Hll]%Forall_app. unfold Rel.
  rewrite !Clean_abs_path by done. rewrite decide_False.
  2: { intros E%abs_path_inj; [|done..]. apply Hl. by apply (app_inv_head d), (eq_trans E), (eq_sym (app_nil_r d)). }
  rewrite (decide_False (P := abs_path d = ".")) by done.
  rewrite decide_False by (rewrite !IsAbs_abs_path; naive_solver).
  rewrite !names_abs_path by done. rewrite strip_common_app.
  rewrite decide_False by done. done.
Qed.

Lemma Rel_self s : Rel s s = Ok ".".
Proof. unfold Rel. by rewrite decide_True. Qed.

Example Clean_tests :
  Clean "" = "." ∧ Clean "/../a//b/./../c/" = "/a/c" ∧ Clean "a/../../b" = "../b" ∧
  PathJoin "" "/a" = "/a" ∧ Dir "/a" = "/" ∧ Dir "a" = "." ∧ Dir "/a/b/" = "/a/b" ∧
  Base "/a/b/" = "b" ∧ Base "" = "." ∧ Base "//" = "/" ∧
  Rel "." "a/b" = Ok "a/b" ∧ Rel "a/b" "a/c" = Ok "../c".
Proof. vm_compute. done. Qed.
