(* ===== verification/Fs.v ===== *)
(** * The file system the tar code works on

    The calls of Go's [os] and [path/filepath] packages that src/waterfall/golang/stream/tar.go
    makes, on a map from absolute locations (lists of names) to nodes, with the kernel's
    resolution of symbolic links.  What the kernel refuses for reasons of its own (permissions,
    a full or failing disk) is the argument [refuse], by call and path; permission bits and
    special files are not represented.  The lemmas describe the calls on trees without links,
    in which resolution does nothing. *)

From stdpp Require Import sorting.
From S2P Require Import Prelude GoStrings Filepath.

Local Open Scope Z_scope.

(** ** Nodes and errors *)

Abbreviation loc := (list string).

Inductive node :=
| NFile (data : list byte)
| NDir
| NLink (target : string).

#[export] Instance node_eq_dec : EqDecision node.
Proof. solve_decision. Defined.

Inductive errno := ENOENT | ENOTDIR | EEXIST | EISDIR | ELOOP | EINVAL | EACCES | ENOSPC | EIO.

#[export] Instance errno_eq_dec : EqDecision errno.
Proof. solve_decision. Defined.

Definition errno_msg (e : errno) : string :=
  match e with
  | ENOENT => "no such file or directory"
  | ENOTDIR => "not a directory"
  | EEXIST => "file exists"
  | EISDIR => "is a directory"
  | ELOOP => "too many levels of symbolic links"
  | EINVAL => "invalid argument"
  | EACCES => "permission denied"
  | ENOSPC => "no space left on device"
  | EIO => "input/output error"
  end.

(** An [*os.PathError] *)
Definition PathError (op path : string) (e : errno) : error :=
  ErrorString (op +:+ " " +:+ path +:+ ": " +:+ errno_msg e).

(** The calls that can be refused. *)
Inductive sysop := OpStat | OpOpen | OpRead | OpWrite | OpClose | OpMkdir | OpSymlink | OpRemove | OpReadDir.

Definition Refusal : Type := sysop → string → option errno.

(** A kernel that refuses nothing. *)
Definition no_refusal : Refusal := λ _ _, None.

(** The nodes below the root, and the working directory of the process. *)
Record FS := MkFS { tree : gmap loc node; cwd : loc }.

Definition set_tree (fs : FS) (t : gmap loc node) : FS := MkFS t (cwd fs).

(** The root is a directory that is always there. *)
Definition look (t : gmap loc node) (p : loc) : option node :=
  match p with [] => Some NDir | _ => t !! p end.

Definition parent (p : loc) : loc := take (pred (length p)) p.

(** ** Resolution of paths *)

(** [resolve links t follow cur todo]: the location of [todo] from the directory [cur]; a link
    is followed unless it is the last element and [follow] is off; at most [links] times. *)
Fixpoint resolve (links : nat) (t : gmap loc node) (follow : bool) : loc → list string → errno + loc :=
  fix go (cur : loc) (todo : list string) {struct todo} : errno + loc :=
    match todo with
    | [] => inr cur
    | c :: rest =>
        if decide (c = ".") then go cur rest
        else if decide (c = "..") then go (parent cur) rest
        else
          let p := cur ++ [c] in
          match t !! p with
          | Some (NLink target) =>
              if decide (rest = [] ∧ follow = false) then inr p else
              match links with
              | O => inl ELOOP
              | S l =>
                  resolve l t follow (if IsAbs target then [] else cur) (names target ++ rest)
              end
          | Some NDir => go p rest
          | Some (NFile _) => match rest with [] => inr p | _ => inl ENOTDIR end
          | None => match rest with [] => inr p | _ => inl ENOENT end
          end
    end.

(** The limit of the kernel on the links in one path. *)
Definition MAXSYMLINKS : nat := 40.

Definition HasSuffixSlash (s : string) : bool := bool_decide (snd (split_last s) = "" ∧ s ≠ "").

Definition resolve_path (fs : FS) (follow : bool) (s : string) : errno + loc :=
  if decide (s = "") then inl ENOENT else
  resolve MAXSYMLINKS (tree fs) follow (if IsAbs s then [] else cwd fs) (names s).

(** ** The calls *)

Section calls.
Context (refuse : Refusal).

(** [os.Stat(s)] and [os.Lstat(s)]: the node; a trailing separator asks for a directory. *)
Definition stat_with (follow : bool) (fs : FS) (s : string) : errno + node :=
  match refuse OpStat s with
  | Some e => inl e
  | None =>
      match resolve_path fs (follow || HasSuffixSlash s) s with
      | inl e => inl e
      | inr p =>
          match look (tree fs) p with
          | None => inl ENOENT
          | Some NDir => inr NDir
          | Some n => if HasSuffixSlash s then inl ENOTDIR else inr n
          end
      end
  end.

Definition Stat : FS → string → errno + node := stat_with true.
Definition Lstat : FS → string → errno + node := stat_with false.

(** [os.IsNotExist(err)] *)
Definition IsNotExist (e : errno) : bool := bool_decide (e = ENOENT).

Definition IsDir (n : node) : bool := bool_decide (n = NDir).

(** Put a new node at [p], in a directory that is there. *)
Definition create (fs : FS) (p : loc) (n : node) : errno + FS :=
  match look (tree fs) (parent p) with
  | Some NDir => inr (set_tree fs (<[p := n]> (tree fs)))
  | Some _ => inl ENOTDIR
  | None => inl ENOENT
  end.

(** [os.Mkdir(s, perm)] *)
Definition Mkdir (fs : FS) (s : string) : errno + FS :=
  match refuse OpMkdir s with
  | Some e => inl e
  | None =>
      match resolve_path fs false s with
      | inl e => inl e
      | inr p => match look (tree fs) p with Some _ => inl EEXIST | None => create fs p NDir end
      end
  end.

(** [os.MkdirAll(s, perm)]; the recursion is on the text before the last element, which is
    shorter, so the length of the path is enough fuel. *)
Fixpoint MkdirAll_fuel (fuel : nat) (fs : FS) (s : string) : errno * FS + FS :=
  match Stat fs s with
  | inr NDir => inr fs
  | inr _ => inl (ENOTDIR, fs)
  | inl _ =>
      let j := fst (split_last (TrimRight s "/")) in
      let parent_made :=
        if decide (1 < slen j) then
          match fuel with
          | O => inl (EINVAL, fs)
          | S f => MkdirAll_fuel f fs (String.substring 0 (String.length j - 1) j)
          end
        else inr fs in
      match parent_made with
      | inl ef => inl ef
      | inr fs =>
          match Mkdir fs s with
          | inr fs' => inr fs'
          | inl e =>
              match Lstat fs s with
              | inr NDir => inr fs
              | _ => inl (e, fs)
              end
          end
      end
  end.

Definition MkdirAll (fs : FS) (s : string) : errno * FS + FS :=
  MkdirAll_fuel (String.length s) fs s.

(** [os.RemoveAll(s)]: the node and everything below it; the sources ignore the error. *)
Definition below (p q : loc) : Prop := p `prefix_of` q.

#[export] Instance below_dec p q : Decision (below p q).
Proof. unfold below. apply _. Defined.

Definition RemoveAll (fs : FS) (s : string) : FS :=
  if decide (s = "" ∨ Base s = ".") then fs else
  match refuse OpRemove s with
  | Some _ => fs
  | None =>
      match resolve_path fs false s with
      | inl _ => fs
      | inr p => set_tree fs (filter (λ kv, ¬ below p kv.1) (tree fs))
      end
  end.

(** [os.OpenFile(s, O_CREATE|O_RDWR|O_TRUNC, perm)]: where the file, now empty, is. *)
Definition OpenTrunc (fs : FS) (s : string) : errno + (loc * FS) :=
  match refuse OpOpen s with
  | Some e => inl e
  | None =>
      if HasSuffixSlash s then inl EISDIR else
      match resolve_path fs true s with
      | inl e => inl e
      | inr p =>
          match look (tree fs) p with
          | Some NDir => inl EISDIR
          | Some _ => inr (p, set_tree fs (<[p := NFile []]> (tree fs)))
          | None =>
              match create fs p (NFile []) with
              | inl e => inl e
              | inr fs' => inr (p, fs')
              end
          end
      end
  end.

(** [os.Open(s)] and reading the file to its end. *)
Definition ReadFile (fs : FS) (s : string) : errno + list byte :=
  match refuse OpOpen s with
  | Some e => inl e
  | None =>
      match Stat fs s with
      | inl e => inl e
      | inr (NFile b) => match refuse OpRead s with Some e => inl e | None => inr b end
      | inr _ => inl EISDIR
      end
  end.

(** [os.Symlink(target, s)] *)
Definition Symlink (fs : FS) (target s : string) : errno + FS :=
  match refuse OpSymlink s with
  | Some e => inl e
  | None =>
      if decide (target = "" ∨ HasSuffixSlash s = true) then inl ENOENT else
      match resolve_path fs false s with
      | inl e => inl e
      | inr p =>
          match look (tree fs) p with Some _ => inl EEXIST | None => create fs p (NLink target) end
      end
  end.

(** The names in the directory [p], in the order of [sort.Strings]. *)
Definition string_le (a b : string) : Prop := String.leb a b = true.

#[export] Instance string_le_dec : RelDecision string_le.
Proof. intros a b. unfold string_le. apply _. Defined.

Definition child_of (p q : loc) : option string :=
  if decide (take (length p) q = p) then
    match drop (length p) q with [c] => Some c | _ => None end
  else None.

Definition children (t : gmap loc node) (p : loc) : list string :=
  merge_sort string_le (omap (child_of p) (map_to_list t).*1).

(** [readDirNames(s)] of [path/filepath] *)
Definition readDirNames (fs : FS) (s : string) : errno + list string :=
  match refuse OpReadDir s with
  | Some e => inl e
  | None =>
      match resolve_path fs true s with
      | inl e => inl e
      | inr p =>
          match look (tree fs) p with
          | Some NDir => inr (children (tree fs) p)
          | Some _ => inl ENOTDIR
          | None => inl ENOENT
          end
      end
  end.

Definition mk_path (abs : bool) (l : list string) : string :=
  if abs then abs_path l else if decide (l = []) then "." else rel_path l.

(** The loop of [filepath.EvalSymlinks]: [dest] holds no links. *)
Fixpoint eval_links (links : nat) (fs : FS) : bool → list string → list string → errno + string :=
  fix go (abs : bool) (dest todo : list string) {struct todo} : errno + string :=
    match todo with
    | [] => inr (mk_path abs (clean_names abs dest))
    | c :: rest =>
        if decide (c = ".") then go abs dest rest
        else if decide (c = "..") then go abs (dest ++ [c]) rest
        else
          match Lstat fs (mk_path abs (dest ++ [c])) with
          | inl e => inl e
          | inr (NLink target) =>
              match links with
              | O => inl ELOOP
              | S l =>
                  eval_links l fs (abs || IsAbs target) (if IsAbs target then [] else dest)
                    (names target ++ rest)
              end
          | inr NDir => go abs (dest ++ [c]) rest
          | inr (NFile _) =>
              match rest with [] => go abs (dest ++ [c]) rest | _ => inl ENOTDIR end
          end
    end.

(** [filepath.EvalSymlinks(s)] *)
Definition EvalSymlinks (fs : FS) (s : string) : errno + string :=
  eval_links 255 fs (IsAbs s) [] (names s).

End calls.

(** ** Well-formed trees *)

(** Every node has a proper location in a directory that is there. *)
Definition wf_tree (t : gmap loc node) : Prop :=
  ∀ p n, t !! p = Some n → p ≠ [] ∧ Forall good_name p ∧ look t (parent p) = Some NDir.

(** No link on the way to [l] or at [l]. *)
Definition linkfree (t : gmap loc node) (l : loc) : Prop :=
  ∀ q g, q `prefix_of` l → t !! q ≠ Some (NLink g).

#[export] Instance wf_tree_dec t : Decision (wf_tree t).
Proof.
  refine (cast_if (decide (map_Forall (λ p n,
    p ≠ [] ∧ Forall good_name p ∧ look t (parent p) = Some NDir) t))); done.
Defined.

(** Trees without any link, a decidable way to be free of links everywhere. *)
Definition no_links (t : gmap loc node) : Prop :=
  map_Forall (λ _ n, match n with NLink _ => False | _ => True end) t.

#[export] Instance no_links_dec t : Decision (no_links t).
Proof. unfold no_links. apply map_Forall_dec. intros _ []; apply _. Defined.

Lemma no_links_linkfree t l : no_links t → linkfree t l.
Proof. intros H q g _ E. by apply H in E. Qed.

Lemma parent_snoc p c : parent (p ++ [c]) = p.
Proof.
  unfold parent. rewrite length_app. cbn. rewrite Nat.add_1_r. cbn. apply take_app_length.
Qed.

Lemma parent_app p q : q ≠ [] → parent (p ++ q) = p ++ parent q.
Proof.
  intros H. destruct q as [|c q] using rev_ind; [done|]. by rewrite app_assoc, !parent_snoc.
Qed.

Lemma look_ne t p : p ≠ [] → look t p = t !! p.
Proof. by destruct p. Qed.

Lemma linkfree_prefix t p l : p `prefix_of` l → linkfree t l → linkfree t p.
Proof. intros Hp Hl q g Hq. apply Hl. by etrans. Qed.

(** Everything above a node is a directory. *)
Lemma ancestor_dir t p q n :
  wf_tree t → look t (p ++ q) = Some n → q ≠ [] → look t p = Some NDir.
Proof.
  intros Hwf. revert n. induction q as [|c q IH] using rev_ind; intros n Hn Hq; [done|].
  rewrite look_ne in Hn by (by rewrite app_assoc; destruct (p ++ q)).
  apply Hwf in Hn as (_ & _ & Hp). rewrite app_assoc, parent_snoc in Hp.
  destruct (decide (q = [])) as [->|Hne]; [by rewrite app_nil_r in Hp|]. by eapply IH.
Qed.

Lemma above_node t p q n :
  wf_tree t → t !! q = Some n → p `prefix_of` q → p ≠ q → look t p = Some NDir.
Proof.
  intros Hwf Hn [r ->] Hne. eapply ancestor_dir; [done| |].
  - rewrite look_ne; [done|]. by apply Hwf in Hn as (? & _).
  - intros ->. by rewrite app_nil_r in Hne.
Qed.

(** ** Resolution without links *)

Lemma resolve_loc k t f cur todo p :
  Forall good_name todo → linkfree t (cur ++ todo) →
  resolve k t f cur todo = inr p → p = cur ++ todo.
Proof.
  destruct k as [|k]; cbn [resolve]; revert cur;
    (induction todo as [|c todo IH]; intros cur Hg Hl; [intros [= <-]; by rewrite app_nil_r|];
     apply Forall_cons_1 in Hg as [(_ & Hc1 & Hc2 & _) Hg];
     rewrite !decide_False by done;
     rewrite (cons_middle c cur todo), (app_assoc cur [c] todo) in Hl |- *;
     assert (∀ g, t !! (cur ++ [c]) ≠ Some (NLink g)) as Hn by (intros g; apply Hl; by eexists);
     destruct (t !! (cur ++ [c])) as [[b| |g]|];
     [destruct todo; [intros [= <-]; by rewrite app_nil_r|done]
     |by apply IH|by destruct (Hn g)
     |destruct todo; [intros [= <-]; by rewrite app_nil_r|done]]).
Qed.

Lemma resolve_plain k t f cur todo :
  wf_tree t → Forall good_name todo → linkfree t (cur ++ todo) →
  (todo ≠ [] → look t (parent (cur ++ todo)) = Some NDir) →
  resolve k t f cur todo = inr (cur ++ todo).
Proof.
  intros Hwf. destruct k as [|k]; cbn [resolve]; revert cur;
    (induction todo as [|c todo IH]; intros cur Hg Hl Hp; [by rewrite app_nil_r|];
     apply Forall_cons_1 in Hg as [(_ & Hc1 & Hc2 & _) Hg];
     rewrite !decide_False by done;
     rewrite (cons_middle c cur todo), (app_assoc cur [c] todo) in Hl, Hp |- *;
     assert (∀ g, t !! (cur ++ [c]) ≠ Some (NLink g)) as Hn by (intros g; apply Hl; by eexists);
     destruct (decide (todo = [])) as [->|Hne];
     [rewrite app_nil_r; destruct (t !! (cur ++ [c])) as [[b| |g]|]; [done|done|by destruct (Hn g)|done]|];
     rewrite parent_app in Hp by done; specialize (Hp ltac:(done));
     assert (t !! (cur ++ [c]) = Some NDir) as ->
       by (rewrite <- look_ne by (by destruct cur);
           destruct (decide (parent todo = [])) as [E|E];
           [by rewrite E, app_nil_r in Hp | by eapply ancestor_dir]);
     apply IH; [done..|]; intros _; by rewrite parent_app).
Qed.

Lemma resolve_abs fs f l :
  Forall good_name l → resolve_path fs f (abs_path l) = resolve MAXSYMLINKS (tree fs) f [] l.
Proof.
  intros H. unfold resolve_path. rewrite decide_False by done.
  by rewrite IsAbs_abs_path, names_abs_path.
Qed.

Lemma resolve_abs_loc fs f l p :
  Forall good_name l → linkfree (tree fs) l → resolve_path fs f (abs_path l) = inr p → p = l.
Proof. intros Hg Hl. rewrite resolve_abs by done. by apply resolve_loc. Qed.

Lemma resolve_abs_plain fs f l :
  wf_tree (tree fs) → Forall good_name l → linkfree (tree fs) l →
  (l ≠ [] → look (tree fs) (parent l) = Some NDir) →
  resolve_path fs f (abs_path l) = inr l.
Proof. intros. rewrite resolve_abs by done. by apply resolve_plain. Qed.

Lemma HasSuffixSlash_abs l : Forall good_name l → l ≠ [] → HasSuffixSlash (abs_path l) = false.
Proof.
  intros Hg Hl. destruct l as [|c l] using rev_ind; [done|]. clear Hl.
  apply Forall_app in Hg as [_ [(Hc & _ & _ & Hs) _]%Forall_cons_1].
  unfold HasSuffixSlash. rewrite abs_path_snoc. change ("/" +:+ c) with (String "/" c).
  rewrite split_last_slash by done. apply bool_decide_eq_false. cbn. by intros [? _].
Qed.

Lemma set_tree_same fs : set_tree fs (tree fs) = fs.
Proof. by destruct fs. Qed.

(** The text before the last element, as [MkdirAll] computes it. *)
Lemma MkdirAll_parent d c :
  Forall good_name d → good_name c →
  let j := fst (split_last (TrimRight (abs_path (d ++ [c])) "/")) in
  bool_decide (1 < slen j) = bool_decide (d ≠ []) ∧
  (d ≠ [] → String.substring 0 (String.length j - 1) j = abs_path d).
Proof.
  intros Hd Hc. rewrite TrimRight_abs_path by done. rewrite abs_path_snoc.
  change ("/" +:+ c) with (String "/" c). rewrite split_last_slash by apply Hc. cbn [fst].
  case_decide as E.
  - subst d. cbn. done.
  - split.
    + rewrite !bool_decide_true; [done..|]. rewrite slen_app. unfold abs_path.
      rewrite slen_app. unfold slen. cbn. lia.
    + intros _. rewrite slength_app. cbn [String.length]. rewrite Nat.add_sub.
      apply substring_app_l.
Qed.

(** ** The calls on plain locations, when the kernel refuses nothing *)

Section plain.
Context (fs : FS) (l : loc).
Context (Hwf : wf_tree (tree fs)) (Hg : Forall good_name l) (Hl : linkfree (tree fs) l).

Lemma stat_some follow n :
  look (tree fs) l = Some n → stat_with no_refusal follow fs (abs_path l) = inr n.
Proof using Hwf Hg Hl.
  intros Hn. unfold stat_with. cbn [no_refusal].
  rewrite resolve_abs_plain; [|done..|].
  - rewrite Hn. destruct (decide (l = [])) as [->|Hne]; [by injection Hn as <-|].
    rewrite HasSuffixSlash_abs by done. by destruct n.
  - intros Hne. rewrite look_ne in Hn by done. by apply Hwf in Hn as (_ & _ & ?).
Qed.

Lemma stat_none follow :
  l ≠ [] → tree fs !! l = None → look (tree fs) (parent l) = Some NDir →
  stat_with no_refusal follow fs (abs_path l) = inl ENOENT.
Proof using Hwf Hg Hl.
  intros Hne Hn Hp. unfold stat_with. cbn [no_refusal].
  rewrite resolve_abs_plain by done. by rewrite look_ne, Hn by done.
Qed.

Lemma MkdirAll_exists fuel :
  look (tree fs) l = Some NDir → MkdirAll_fuel no_refusal fuel fs (abs_path l) = inr fs.
Proof using Hwf Hg Hl.
  intros Hn. unfold Stat, MkdirAll_fuel. destruct fuel; unfold Stat; by rewrite (stat_some true NDir).
Qed.

Lemma RemoveAll_fresh :
  l ≠ [] → tree fs !! l = None → look (tree fs) (parent l) = Some NDir →
  RemoveAll no_refusal fs (abs_path l) = fs.
Proof using Hwf Hg Hl.
  intros Hne Hn Hp. unfold RemoveAll.
  rewrite decide_False.
  2: { destruct l as [|c l'] using rev_ind; [done|].
       apply Forall_app in Hg as [_ [Hc _]%Forall_cons_1]. rewrite Base_abs_path by done.
       destruct Hc as (_ & Hdot & _). by intros [?|?]. }
  cbn [no_refusal]. rewrite resolve_abs_plain by done.
  rewrite map_filter_id; [apply set_tree_same|].
  intros q n Hq Hb. cbn in Hb. destruct (decide (l = q)) as [->|Hd]; [congruence|].
  pose proof (above_node _ _ _ _ Hwf Hq Hb Hd) as HD. rewrite look_ne in HD by done. congruence.
Qed.

Lemma OpenTrunc_fresh :
  l ≠ [] → tree fs !! l = None → look (tree fs) (parent l) = Some NDir →
  OpenTrunc no_refusal fs (abs_path l) = inr (l, set_tree fs (<[l := NFile []]> (tree fs))).
Proof using Hwf Hg Hl.
  intros Hne Hn Hp. unfold OpenTrunc. cbn [no_refusal]. rewrite HasSuffixSlash_abs by done.
  rewrite resolve_abs_plain by done. rewrite look_ne, Hn by done. unfold create. by rewrite Hp.
Qed.

Lemma Mkdir_fresh :
  l ≠ [] → tree fs !! l = None → look (tree fs) (parent l) = Some NDir →
  Mkdir no_refusal fs (abs_path l) = inr (set_tree fs (<[l := NDir]> (tree fs))).
Proof using Hwf Hg Hl.
  intros Hne Hn Hp. unfold Mkdir. cbn [no_refusal].
  rewrite resolve_abs_plain by done. rewrite look_ne, Hn by done. unfold create. by rewrite Hp.
Qed.

End plain.

Lemma MkdirAll_fresh fs l :
  wf_tree (tree fs) → Forall good_name l → linkfree (tree fs) l →
  l ≠ [] → tree fs !! l = None → look (tree fs) (parent l) = Some NDir →
  MkdirAll no_refusal fs (abs_path l) = inr (set_tree fs (<[l := NDir]> (tree fs))).
Proof.
  intros Hwf Hg Hl Hne Hn Hp. unfold MkdirAll.
  destruct (String.length (abs_path l)) as [|m] eqn:E; [done|]. clear E. cbn [MkdirAll_fuel].
  unfold Stat. rewrite stat_none by done.
  destruct l as [|c d] using rev_ind; [done|]. clear IHd.
  pose proof Hg as [Hd [Hc _]%Forall_cons_1]%Forall_app.
  destruct (MkdirAll_parent d c Hd Hc) as [Hj1 Hj2]. cbn zeta in Hj1, Hj2.
  rewrite parent_snoc in Hp.
  assert (∀ n, (if decide (1 < slen (fst (split_last (TrimRight (abs_path (d ++ [c])) "/"))))
    then MkdirAll_fuel no_refusal n fs (String.substring 0
      (String.length (fst (split_last (TrimRight (abs_path (d ++ [c])) "/"))) - 1)
      (fst (split_last (TrimRight (abs_path (d ++ [c])) "/")))) else inr fs) = inr fs) as Hmade.
  { intros n. case_decide as Hs; [|done].
    rewrite (bool_decide_true (1 < _)) in Hj1 by done. symmetry in Hj1.
    apply bool_decide_eq_true in Hj1. rewrite Hj2 by done.
    apply MkdirAll_exists; [done..| |done]. eapply linkfree_prefix; [|done]. by eexists. }
  rewrite Hmade. rewrite Mkdir_fresh; [done..|]. by rewrite parent_snoc.
Qed.

Lemma parent_ne p : p ≠ [] → parent p ≠ p.
Proof.
  intros Hp E. apply (f_equal length) in E. unfold parent in E. rewrite length_take in E.
  destruct p; [done|]. cbn in E. lia.
Qed.

Lemma wf_insert t l n :
  wf_tree t → l ≠ [] → Forall good_name l → look t (parent l) = Some NDir → t !! l = None →
  wf_tree (<[l := n]> t).
Proof.
  intros Hwf Hl Hg Hp Hn q m Hq.
  assert (parent q ≠ l → look (<[l := n]> t) (parent q) = look t (parent q)) as Hlook.
  { intros Hne. destruct (parent q) eqn:E; [done|]. cbn. by rewrite lookup_insert_ne. }
  apply lookup_insert_Some in Hq as [[<- <-]|[Hlq Hq]].
  - split; [done|]. split; [done|]. rewrite Hlook; [done|]. by apply parent_ne.
  - destruct (Hwf _ _ Hq) as (? & ? & Hpq). split; [done|]. split; [done|].
    rewrite Hlook; [done|]. intros <-. rewrite look_ne in Hpq by done. congruence.
Qed.

Lemma linkfree_insert t q l n :
  (∀ g, n ≠ NLink g) → linkfree t q → linkfree (<[l := n]> t) q.
Proof.
  intros Hn Hl r g Hr E. apply lookup_insert_Some in E as [[_ E]|[_ E]]; [by apply (Hn g)|].
  by apply (Hl r g).
Qed.

(** ** What the calls leave alone, whatever the kernel refuses *)

(** [t'] is [t] with some of the missing directories on the way to [l] made. *)
Definition dirs_made (l : loc) (t t' : gmap loc node) : Prop :=
  ∀ q, t' !! q = t !! q ∨ (t !! q = None ∧ t' !! q = Some NDir ∧ q `prefix_of` l).

Lemma dirs_made_refl l t : dirs_made l t t.
Proof. by left. Qed.

Lemma dirs_made_trans l t1 t2 t3 : dirs_made l t1 t2 → dirs_made l t2 t3 → dirs_made l t1 t3.
Proof.
  intros H1 H2 q. destruct (H2 q) as [->|(E & ? & ?)]; [apply H1|].
  destruct (H1 q) as [<-|(_ & ? & _)]; [|congruence]. by right.
Qed.

Lemma dirs_made_weaken k l t t' : k `prefix_of` l → dirs_made k t t' → dirs_made l t t'.
Proof. intros Hk H q. destruct (H q) as [?|(? & ? & ?)]; [by left|]. right. split_and!; [done..|]. by etrans. Qed.

Lemma linkfree_dirs_made l q t t' : dirs_made l t t' → linkfree t q → linkfree t' q.
Proof. intros H Hl r g Hr E. destruct (H r) as [Hs|(_ & Hs & _)]; [|congruence]. by apply (Hl r g); [|congruence]. Qed.

Definition fs_of (r : errno * FS + FS) : FS := match r with inl (_, fs) => fs | inr fs => fs end.

Lemma Mkdir_frame refuse fs l fs' :
  Forall good_name l → linkfree (tree fs) l → Mkdir refuse fs (abs_path l) = inr fs' →
  dirs_made l (tree fs) (tree fs').
Proof.
  intros Hg Hl. unfold Mkdir. destruct (refuse OpMkdir _); [done|].
  destruct (resolve_path fs false (abs_path l)) as [|p] eqn:E; [done|].
  apply resolve_abs_loc in E as ->; [|done..].
  destruct (look (tree fs) l) eqn:Hn; [done|]. unfold create.
  destruct (look _ (parent l)) as [[]|]; try done. intros [= <-] q. cbn.
  destruct (decide (l = q)) as [<-|Hne]; [|left; by rewrite lookup_insert_ne].
  right. rewrite lookup_insert_eq. destruct l; done.
Qed.

Lemma MkdirAll_last_frame refuse fs l pm :
  Forall good_name l → linkfree (tree fs) l → dirs_made l (tree fs) (tree (fs_of pm)) →
  dirs_made l (tree fs) (tree (fs_of
    match pm with
    | inl ef => inl ef
    | inr fs =>
        match Mkdir refuse fs (abs_path l) with
        | inr fs' => inr fs'
        | inl e => match Lstat refuse fs (abs_path l) with inr NDir => inr fs | _ => inl (e, fs) end
        end
    end)).
Proof.
  intros Hg Hl. destruct pm as [ef|fs1]; intros H1; [done|]. cbn in H1.
  destruct (Mkdir refuse fs1 (abs_path l)) as [e|fs2] eqn:E.
  - by destruct (Lstat refuse fs1 (abs_path l)) as [|[]].
  - cbn. eapply dirs_made_trans; [done|]. eapply Mkdir_frame; [done| |done].
    by eapply linkfree_dirs_made.
Qed.

Lemma MkdirAll_fuel_frame refuse fuel fs l :
  Forall good_name l → linkfree (tree fs) l →
  dirs_made l (tree fs) (tree (fs_of (MkdirAll_fuel refuse fuel fs (abs_path l)))).
Proof.
  revert l. induction fuel as [|f IH]; intros l Hg Hl; cbn [MkdirAll_fuel];
    (destruct (Stat refuse fs (abs_path l)) as [|[]]; try apply dirs_made_refl;
     apply MkdirAll_last_frame; [done..|]; case_decide as Hj; try apply dirs_made_refl).
  destruct l as [|c d] using rev_ind; [done|]. clear IHd.
  pose proof Hg as [Hd [Hc _]%Forall_cons_1]%Forall_app.
  destruct (MkdirAll_parent d c Hd Hc) as [Hj1 Hj2]. cbn zeta in Hj1, Hj2.
  rewrite bool_decide_true in Hj1 by done. symmetry in Hj1. apply bool_decide_eq_true in Hj1.
  rewrite Hj2 by done. apply (dirs_made_weaken d); [by eexists|]. apply IH; [done|].
  eapply linkfree_prefix; [|done]. by eexists.
Qed.

Lemma MkdirAll_frame refuse fs l :
  Forall good_name l → linkfree (tree fs) l →
  dirs_made l (tree fs) (tree (fs_of (MkdirAll refuse fs (abs_path l)))).
Proof. apply MkdirAll_fuel_frame. Qed.

(** [t'] is [t] outside what lies at or below [l]. *)
Definition same_outside (l : loc) (t t' : gmap loc node) : Prop :=
  ∀ q, ¬ below l q → t' !! q = t !! q.

Lemma RemoveAll_frame refuse fs l :
  Forall good_name l → linkfree (tree fs) l →
  same_outside l (tree fs) (tree (RemoveAll refuse fs (abs_path l))) ∧
  (∀ q, linkfree (tree fs) q → linkfree (tree (RemoveAll refuse fs (abs_path l))) q).
Proof.
  intros Hg Hl. unfold RemoveAll. case_decide; [done|].
  destruct (refuse OpRemove _); [done|].
  destruct (resolve_path fs false (abs_path l)) as [|p] eqn:E; [done|].
  apply resolve_abs_loc in E as ->; [|done..]. cbn. split.
  - intros q Hq. destruct (tree fs !! q) as [n|] eqn:Hn.
    + by apply map_lookup_filter_Some.
    + apply map_lookup_filter_None. by left.
  - intros q Hq r g Hr E. apply map_lookup_filter_Some in E as [E _]. by apply (Hq r g).
Qed.

Lemma OpenTrunc_frame refuse fs l p fs' :
  Forall good_name l → linkfree (tree fs) l → OpenTrunc refuse fs (abs_path l) = inr (p, fs') →
  p = l ∧ tree fs' = <[l := NFile []]> (tree fs).
Proof.
  intros Hg Hl. unfold OpenTrunc. destruct (refuse OpOpen _); [done|].
  destruct (HasSuffixSlash _); [done|].
  destruct (resolve_path fs true (abs_path l)) as [|p'] eqn:E; [done|].
  apply resolve_abs_loc in E as ->; [|done..].
  destruct (look (tree fs) l) as [[]|]; try (intros [= <- <-]; done).
  unfold create. destruct (look _ (parent l)) as [[]|]; try done. by intros [= <- <-].
Qed.

(** ** Directories *)

Lemma child_of_Some p q c : child_of p q = Some c ↔ q = p ++ [c].
Proof.
  unfold child_of. split.
  - case_decide as E; [|done]. rewrite <- (take_drop (length p) q) at 2. rewrite E.
    destruct (drop (length p) q) as [|c' [|]]; try done. congruence.
  - intros ->. rewrite take_app_length, decide_True by done. by rewrite drop_app_length.
Qed.

Lemma elem_of_children t p c : c ∈ children t p ↔ is_Some (t !! (p ++ [c])).
Proof.
  unfold children. rewrite merge_sort_Permutation, list_elem_of_omap. split.
  - intros (q & Hq & ->%child_of_Some). apply list_elem_of_fmap in Hq as ([q' n] & -> & Hq).
    apply elem_of_map_to_list in Hq. by eexists.
  - intros [n Hn]. exists (p ++ [c]). split; [|by apply child_of_Some].
    apply list_elem_of_fmap. exists (p ++ [c], n). split; [done|]. by apply elem_of_map_to_list.
Qed.

Lemma NoDup_omap_inj {A B} (f : A → option B) l :
  (∀ x y b, f x = Some b → f y = Some b → x = y) → NoDup l → NoDup (omap f l).
Proof.
  intros Hinj. induction 1 as [|x l Hx _ IH]; [constructor|]. cbn.
  destruct (f x) as [b|] eqn:E; [|done]. constructor; [|done].
  intros (y & Hy & Ey)%list_elem_of_omap. by rewrite (Hinj x y b E Ey) in Hx.
Qed.

Lemma NoDup_children t p : NoDup (children t p).
Proof.
  unfold children. rewrite merge_sort_Permutation. apply NoDup_omap_inj.
  - intros x y c ->%child_of_Some ->%child_of_Some. done.
  - apply NoDup_fst_map_to_list.
Qed.

Lemma readDirNames_plain fs l :
  wf_tree (tree fs) → Forall good_name l → linkfree (tree fs) l → look (tree fs) l = Some NDir →
  readDirNames no_refusal fs (abs_path l) = inr (children (tree fs) l).
Proof.
  intros Hwf Hg Hl Hn. unfold readDirNames. cbn [no_refusal].
  rewrite resolve_abs_plain; [by rewrite Hn|done..|].
  intros Hne. rewrite look_ne in Hn by done. by apply Hwf in Hn as (_ & _ & ?).
Qed.

Lemma ReadFile_plain fs l b :
  wf_tree (tree fs) → Forall good_name l → linkfree (tree fs) l → l ≠ [] →
  tree fs !! l = Some (NFile b) → ReadFile no_refusal fs (abs_path l) = inr b.
Proof.
  intros Hwf Hg Hl Hne Hn. unfold ReadFile, Stat. cbn [no_refusal].
  by rewrite (stat_some fs l Hwf Hg Hl true (NFile b)) by (by rewrite look_ne).
Qed.

(** No location is deeper than there are nodes. *)
Lemma depth_bound t p n : wf_tree t → t !! p = Some n → (length p ≤ size t)%nat.
Proof.
  intros Hwf Hn.
  set (ps := (λ i, take (S i) p) <$> seq 0 (length p)).
  assert (length ps = length p) as <- by (unfold ps; by rewrite length_fmap, length_seq).
  rewrite <- length_map_to_list, <- (length_fmap fst).
  apply submseteq_length, NoDup_submseteq.
  - unfold ps. apply NoDup_fmap_2_strong; [|apply NoDup_seq].
    intros i j Hi Hj E. apply elem_of_seq in Hi, Hj. apply (f_equal length) in E.
    rewrite !length_take in E. lia.
  - intros q (i & -> & Hi)%list_elem_of_fmap. apply elem_of_seq in Hi.
    assert (is_Some (t !! take (S i) p)) as [m Hm].
    { destruct (decide (take (S i) p = p)) as [->|Hne]; [by eexists|].
      pose proof (above_node t (take (S i) p) p n Hwf Hn (prefix_take _ _) Hne) as H.
      rewrite look_ne in H; [by eexists|]. destruct p; [cbn in Hi; lia|done]. }
    apply list_elem_of_fmap. exists (take (S i) p, m). split; [done|]. by apply elem_of_map_to_list.
Qed.
