(* ===== verification/Tar.v ===== *)
(** * Tar streams: src/waterfall/golang/stream/tar.go

    [Untar], [UntarBytes], [Tar] and [TarBytes] on the file system of [Fs].  A tar stream is
    the list of its entries; the byte format belongs to [archive/tar] and is the class
    [TarFormat].  The theorems: unpacking what was packed gives the same tree back, archives
    without [..] stay below their root, and what the other ones do. *)

From S2P Require Import Prelude GoStrings GoIO Filepath Fs.

Local Open Scope Z_scope.

(** ** Entries *)

Inductive Typeflag := TypeReg | TypeRegA | TypeSymlink | TypeDir | TypeOther.

#[export] Instance Typeflag_eq_dec : EqDecision Typeflag.
Proof. solve_decision. Defined.

(** The fields of [tar.Header] the sources use. *)
Record Header := MkHeader {
  hTypeflag : Typeflag;
  hName : string;
  hLinkname : string;
  hSize : Z;
}.

(** A [tar.Reader]: each entry with its contents and the error that cuts them short, if any;
    then what [Next] returns ([EOF] at the end of a complete archive). *)
Record TarReader := MkTarReader {
  tr_entries : list (Header * (list byte * option error));
  tr_end : error;
}.

(** [tr.Next()]: the header, and the reader with the contents of the entry. *)
Definition Next (tr : TarReader) : TarReader * result (Header * (list byte * option error)) :=
  match tr_entries tr with
  | [] => (tr, Err (tr_end tr))
  | e :: es => (MkTarReader es (tr_end tr), Ok e)
  end.

(** A [tar.Writer]: the entries written, and after how many more calls the writer below it
    fails. *)
Record TarWriter := MkTarWriter {
  tw_entries : list (Header * list byte);
  tw_fail : option (nat * error);
}.

Definition tw_tick (tw : TarWriter) : result (option (nat * error)) :=
  match tw_fail tw with
  | None => Ok None
  | Some (O, e) => Err e
  | Some (S n, e) => Ok (Some (n, e))
  end.

(** [tw.WriteHeader(hdr)]: the entry before must be complete. *)
Definition WriteHeader (tw : TarWriter) (h : Header) : TarWriter * option error :=
  match list.last (tw_entries tw) with
  | Some (h0, c) =>
      if decide (len c < hSize h0)
      then (tw, Some (ErrorString ("archive/tar: missed writing " +:+ fmt_int (hSize h0 - len c) +:+ " bytes")))
      else
        match tw_tick tw with
        | Err e => (tw, Some e)
        | Ok f => (MkTarWriter (tw_entries tw ++ [(h, [])]) f, None)
        end
  | None =>
      match tw_tick tw with
      | Err e => (tw, Some e)
      | Ok f => (MkTarWriter [(h, [])] f, None)
      end
  end.

(** [tw.Write(b)], and [io.Copy(tw, r)] of the bytes [b]: the contents of the last header, up
    to its size. *)
Definition tw_Write (tw : TarWriter) (b : list byte) : TarWriter * option error :=
  match list.last (tw_entries tw) with
  | None => (tw, Some (ErrorString "archive/tar: write too long"))
  | Some (h, c) =>
      match tw_tick tw with
      | Err e => (tw, Some e)
      | Ok f =>
          (MkTarWriter (take (pred (length (tw_entries tw))) (tw_entries tw)
                        ++ [(h, take (Z.to_nat (hSize h)) (c ++ b))]) f,
           if decide (len (c ++ b) ≤ hSize h) then None
           else Some (ErrorString "archive/tar: write too long"))
      end
  end.

(** ** [Untar] *)

Section untar.
Context (refuse : Refusal).

Definition sys (op path : string) (e : errno) : option error := Some (PathError op path e).

(** Where the first entry goes, and where the others go: [name], [root], [rootReplace].  An
    entry that is neither a file, a link nor a directory leaves them at their initial values. *)
Definition Untar_root (fs : FS) (dst : string) (hdr : Header)
    : FS * (error + string * string * string) :=
  let st := Stat refuse fs dst in
  match hTypeflag hdr with
  | TypeSymlink | TypeRegA | TypeReg =>
      match st with
      | inr fi =>
          if IsDir fi then (fs, inr (PathJoin dst (hName hdr), dst, ""))
          else (fs, inr (dst, Dir dst, ""))
      | inl e =>
          if IsNotExist e then
            match MkdirAll refuse fs (Dir dst) with
            | inr fs' => (fs', inr (dst, Dir dst, ""))
            | inl (e, fs') => (fs', inl (PathError "mkdir" (Dir dst) e))
            end
          else (fs, inl (PathError "stat" dst e))
      end
  | TypeDir =>
      match st with
      | inr fi =>
          if IsDir fi then (fs, inr (PathJoin dst (hName hdr), dst, ""))
          else (fs, inl (ErrorString ("file " +:+ dst +:+ " exists and is not a directory")))
      | inl e =>
          if IsNotExist e then (fs, inr (dst, dst, hName hdr))
          else (fs, inl (PathError "stat" dst e))
      end
  | TypeOther => (fs, inr ("", dst, ""))
  end.

(** A regular file: whatever was there is removed. *)
Definition Untar_file (fs : FS) (content : list byte * option error) (name : string)
    : FS * option error :=
  let fs := RemoveAll refuse fs name in
  match OpenTrunc refuse fs name with
  | inl e => (fs, sys "open" name e)
  | inr (p, fs) =>
      match refuse OpWrite name with
      | Some e => (fs, sys "write" name e)
      | None =>
          let fs := set_tree fs (<[p := NFile (fst content)]> (tree fs)) in
          match snd content with
          | Some e => (fs, Some e)
          | None =>
              match refuse OpClose name with
              | Some e => (fs, sys "close" name e)
              | None => (fs, None)
              end
          end
      end
  end.

(** One turn of the loop: unpack the entry as [name]. *)
Definition Untar_entry (fs : FS) (hdr : Header) (content : list byte * option error)
    (name : string) : FS * option error :=
  match hTypeflag hdr with
  | TypeRegA | TypeReg => Untar_file fs content name
  | TypeDir =>
      match MkdirAll refuse fs name with
      | inr fs => (fs, None)
      | inl (e, fs) => (fs, sys "mkdir" name e)
      end
  | TypeSymlink =>
      match Symlink refuse fs (hLinkname hdr) name with
      | inr fs => (fs, None)
      | inl e => (fs, sys "symlink" name e)
      end
  | TypeOther => (fs, None)
  end.

(** The loop, with the entries that are still to come. *)
Fixpoint Untar_loop (fs : FS) (hdr : Header) (content : list byte * option error)
    (name root rootReplace : string) (rest : list (Header * (list byte * option error)))
    (fin : error) : FS * option error :=
  match Untar_entry fs hdr content name with
  | (fs, Some e) => (fs, Some e)
  | (fs, None) =>
      match rest with
      | [] => (fs, if decide (fin = EOF) then None else Some fin)
      | (hdr', content') :: rest' =>
          Untar_loop fs hdr' content'
            (PathJoin root (TrimPrefix (hName hdr') rootReplace)) root rootReplace rest' fin
      end
  end.

(** [Untar(r, dst)] *)
Definition Untar (fs : FS) (tr : TarReader) (dst : string) : FS * option error :=
  match Next tr with
  | (_, Err e) =>
      (fs, Some (if decide (e = EOF) then ErrorString "received empty Tar file" else e))
  | (tr', Ok (hdr, content)) =>
      match Untar_root fs dst hdr with
      | (fs, inl e) => (fs, Some e)
      | (fs, inr (name, root, rootReplace)) =>
          Untar_loop fs hdr content name root rootReplace (tr_entries tr') (tr_end tr')
      end
  end.

End untar.

(** [UntarBytes(dst, r)] *)
Definition UntarBytes (dst : sink) (tr : TarReader) : sink * option error :=
  match Next tr with
  | (_, Err e) => (dst, Some e)
  | (tr', Ok (hdr, (content, cerr))) =>
      match hTypeflag hdr with
      | TypeReg | TypeRegA =>
          match sink_write dst content with
          | (dst, (_, Some e)) => (dst, Some e)
          | (dst, (_, None)) =>
              match cerr with
              | Some e => (dst, Some e)
              | None =>
                  match Next tr' with
                  | (_, Err EOF) => (dst, None)
                  | _ => (dst, Some (ErrorString "too many files received when trying to untar file"))
                  end
              end
          end
      | _ => (dst, Some (ErrorString "trying to read a directory into writer"))
      end
  end.

(** ** [Tar] *)

Section tar.
Context (refuse : Refusal).

(** [tar.FileInfoHeader(fi, link)], but for the name, which the sources overwrite. *)
Definition FileInfoHeader (n : node) (link : string) : Header :=
  match n with
  | NFile b => MkHeader TypeReg "" "" (len b)
  | NDir => MkHeader TypeDir "" "" 0
  | NLink _ => MkHeader TypeSymlink "" link 0
  end.

Definition with_name (h : Header) (name : string) : Header :=
  MkHeader (hTypeflag h) name (hLinkname h) (hSize h).

(** The header the callback of [Tar] makes for [file]: [Ok None] when it skips the file. *)
Definition Tar_header (fs : FS) (src file : string) (fi : node) : result (option Header) :=
  match fi with
  | NLink _ =>
      match EvalSymlinks refuse fs file with
      | inl _ => Ok None
      | inr t =>
          let sr := match Rel src file with Ok s => s | Err _ => "" end in
          let name := PathJoin (Base src) sr in
          if HasPrefix t src then Ok (Some (with_name (FileInfoHeader fi t) name))
          else
            match Stat refuse fs t with
            | inl e => if IsNotExist e then Ok None else Err (PathError "stat" t e)
            | inr (NFile b) => Ok (Some (with_name (FileInfoHeader (NFile b) "") name))
            | inr _ => Ok None
            end
      end
  | _ =>
      match Rel (Dir src) file with
      | Err e => Err e
      | Ok rel => Ok (Some (with_name (FileInfoHeader fi "") rel))
      end
  end.

(** The callback of [Tar] on a file that could be examined. *)
Definition Tar_visit (fs : FS) (src : string) (tw : TarWriter) (file : string) (fi : node)
    : TarWriter * option error :=
  match Tar_header fs src file fi with
  | Err e => (tw, Some e)
  | Ok None => (tw, None)
  | Ok (Some hdr) =>
      match WriteHeader tw hdr with
      | (tw, Some e) => (tw, Some e)
      | (tw, None) =>
          if decide (hTypeflag hdr ≠ TypeReg ∧ hTypeflag hdr ≠ TypeRegA ∨ hSize hdr = 0) then (tw, None)
          else
            match ReadFile refuse fs file with
            | inl e => (tw, sys "open" file e)
            | inr b => tw_Write tw b
            end
      end
  end.

(** The loop of [walk] of [path/filepath] over the names in a directory; [rec] is [walk]. *)
Fixpoint walk_names (rec : TarWriter → string → node → TarWriter * option error) (fs : FS)
    (path : string) (tw : TarWriter) (ns : list string) : TarWriter * option error :=
  match ns with
  | [] => (tw, None)
  | n :: ns' =>
      let filename := PathJoin path n in
      match Lstat refuse fs filename with
      | inl e => (tw, sys "lstat" filename e)
      | inr fileInfo =>
          match rec tw filename fileInfo with
          | (tw, Some e) => (tw, Some e)
          | (tw, None) => walk_names rec fs path tw ns'
          end
      end
  end.

(** [walk] with the callback of [Tar]; the nesting of directories is bounded by the number of
    nodes, which is the fuel. *)
Fixpoint walk (fuel : nat) (fs : FS) (src : string) (tw : TarWriter) (path : string) (info : node)
    : TarWriter * option error :=
  match info with
  | NDir =>
      match readDirNames refuse fs path with
      | inl e => (tw, sys "open" path e)
      | inr ns =>
          match Tar_visit fs src tw path info with
          | (tw, Some e) => (tw, Some e)
          | (tw, None) =>
              match fuel with
              | O => (tw, Some (PathError "walk" path ELOOP))
              | S f => walk_names (walk f fs src) fs path tw ns
              end
          end
      end
  | _ => Tar_visit fs src tw path info
  end.

(** [Tar(writer, src)] *)
Definition Tar (fs : FS) (tw : TarWriter) (src : string) : TarWriter * option error :=
  match Stat refuse fs src with
  | inl e => (tw, Some (ErrorString ("Unable to tar files - " +:+ Error (PathError "stat" src e))))
  | inr _ =>
      let src := TrimRight src "/" in
      match Lstat refuse fs src with
      | inl e => (tw, sys "lstat" src e)
      | inr info => walk (S (size (tree fs))) fs src tw src info
      end
  end.

End tar.

(** [TarBytes(writer, bytes)] *)
Definition TarBytes (tw : TarWriter) (bytes : list byte) : TarWriter * option error :=
  let hdr := MkHeader TypeReg "bytefile" "" (len bytes) in
  match WriteHeader tw hdr with
  | (tw, Some e) => (tw, Some e)
  | (tw, None) => tw_Write tw bytes
  end.

(** What a reader of the written archive sees. *)
Definition tw_reader (tw : TarWriter) : TarReader :=
  MkTarReader ((λ '(h, b), (h, (b, None))) <$> tw_entries tw) EOF.

(** ** Containment *)

(** The new tree differs from the old one at most below [d], but for missing directories made
    on the way to [d]. *)
Definition contained (d : loc) (t t' : gmap loc node) : Prop :=
  ∀ q, ¬ below d q → t' !! q = t !! q ∨ (t !! q = None ∧ t' !! q = Some NDir ∧ q `prefix_of` d).

(** No links on the way to [d], at [d] or below it. *)
Definition plain_below (d : loc) (t : gmap loc node) : Prop := ∀ l, below d l → linkfree t l.

Lemma contained_trans d t1 t2 t3 : contained d t1 t2 → contained d t2 t3 → contained d t1 t3.
Proof.
  intros H1 H2 q Hq. destruct (H2 q Hq) as [->|(E & ? & ?)]; [by apply H1|].
  destruct (H1 q Hq) as [<-|(_ & ? & _)]; [by right|congruence].
Qed.

Lemma contained_refl d t : contained d t t.
Proof. by left. Qed.

Lemma contained_dirs d k t t' : dirs_made (d ++ k) t t' → contained d t t'.
Proof.
  intros H q Hq. destruct (H q) as [?|(? & ? & Hp)]; [by left|]. right. split_and!; [done..|].
  destruct (prefix_weak_total d q (d ++ k)) as [?|?]; [by eexists|done|done|done].
Qed.

Lemma contained_outside d k t t' : same_outside (d ++ k) t t' → contained d t t'.
Proof. intros H q Hq. left. apply H. intros Hb. apply Hq. unfold below in *. etrans; [by eexists|done]. Qed.

(** What one call does to a plain tree keeps it plain and contained; [I] collects both. *)
Definition kept (d : loc) (t t' : gmap loc node) : Prop := contained d t t' ∧ plain_below d t'.

Lemma kept_trans d t1 t2 t3 : kept d t1 t2 → kept d t2 t3 → kept d t1 t3.
Proof. intros [? ?] [? ?]. split; [|done]. by eapply contained_trans. Qed.

Lemma kept_refl d t : plain_below d t → kept d t t.
Proof. split; [apply contained_refl|done]. Qed.

Lemma kept_mkdir refuse fs d k :
  Forall good_name (d ++ k) → plain_below d (tree fs) →
  kept d (tree fs) (tree (fs_of (MkdirAll refuse fs (abs_path (d ++ k))))).
Proof.
  intros Hg Hp. pose proof (MkdirAll_frame refuse fs (d ++ k) Hg) as H.
  specialize (H (Hp _ ltac:(by eexists))). split; [by eapply contained_dirs|].
  intros l Hl. eapply linkfree_dirs_made; [done|]. by apply Hp.
Qed.

Lemma kept_insert d k t n :
  (∀ g, n ≠ NLink g) → plain_below d t → kept d t (<[d ++ k := n]> t).
Proof.
  intros Hn Hp. split.
  - apply (contained_outside d k). intros q Hq. rewrite lookup_insert_ne; [done|]. intros <-. by apply Hq.
  - intros l Hl. apply linkfree_insert; [done|]. by apply Hp.
Qed.

Lemma Untar_file_kept refuse fs content d k :
  Forall good_name (d ++ k) → plain_below d (tree fs) →
  kept d (tree fs) (tree (fst (Untar_file refuse fs content (abs_path (d ++ k))))).
Proof.
  intros Hg Hp. unfold Untar_file.
  destruct (RemoveAll_frame refuse fs (d ++ k) Hg (Hp _ ltac:(by eexists))) as [Ho Hlf].
  assert (kept d (tree fs) (tree (RemoveAll refuse fs (abs_path (d ++ k))))) as Hr.
  { split; [by eapply contained_outside|]. intros l Hl. by apply Hlf, Hp. }
  destruct (OpenTrunc refuse _ _) as [e|[p fs1]] eqn:E; [done|].
  apply OpenTrunc_frame in E as [-> E]; [|done|apply Hr; by eexists].
  assert (∀ b, kept d (tree fs) (<[d ++ k := NFile b]> (tree fs1))) as Hk.
  { intros b. rewrite E, insert_insert_eq. eapply kept_trans; [done|].
    apply kept_insert; [done|]. apply Hr. }
  assert (kept d (tree fs) (tree fs1)) as Hk1.
  { rewrite E. eapply kept_trans; [done|]. apply kept_insert; [done|]. apply Hr. }
  destruct (refuse OpWrite _); [done|]. destruct (snd content); [apply Hk|].
  destruct (refuse OpClose _); apply Hk.
Qed.

Lemma Untar_entry_kept refuse fs hdr content d k :
  Forall good_name (d ++ k) → plain_below d (tree fs) → hTypeflag hdr ≠ TypeSymlink →
  kept d (tree fs) (tree (fst (Untar_entry refuse fs hdr content (abs_path (d ++ k))))).
Proof.
  intros Hg Hp Ht. unfold Untar_entry.
  destruct (hTypeflag hdr);
    [by apply Untar_file_kept | by apply Untar_file_kept | done | | by apply kept_refl].
  pose proof (kept_mkdir refuse fs d k Hg Hp) as H.
  by destruct (MkdirAll refuse fs _) as [[e fs1]|fs1].
Qed.

(** Entries that are no links and whose names, as the loop uses them, have no [..]. *)
Definition tame (rootReplace : string) (e : Header * (list byte * option error)) : Prop :=
  hTypeflag e.1 ≠ TypeSymlink ∧ no_dotdot (TrimPrefix (hName e.1) rootReplace).

Lemma Untar_loop_kept refuse fs hdr content d k rr rest fin :
  Forall good_name (d ++ k) → plain_below d (tree fs) → hTypeflag hdr ≠ TypeSymlink →
  Forall (tame rr) rest →
  kept d (tree fs) (tree (fst
    (Untar_loop refuse fs hdr content (abs_path (d ++ k)) (abs_path d) rr rest fin))).
Proof.
  revert fs hdr content k. induction rest as [|[h c] rest IH]; intros fs hdr content k Hg Hp Ht Hr;
    cbn [Untar_loop];
    pose proof (Untar_entry_kept refuse fs hdr content d k Hg Hp Ht) as H;
    destruct (Untar_entry refuse fs hdr content (abs_path (d ++ k))) as [fs1 [e|]]; try done.
  cbn in H. apply Forall_cons_1 in Hr as [[Ht' Hn] Hr]. cbn in Ht', Hn.
  pose proof Hg as [Hd _]%Forall_app.
  destruct (PathJoin_below d _ Hd Hn) as (k' & -> & Hk'). eapply kept_trans; [done|].
  apply IH; [by apply Forall_app|apply H|done|done].
Qed.

(** The directory the entries of an archive go to. *)
Definition unpack_root (refuse : Refusal) (fs : FS) (d : loc) (hdr : Header) : loc :=
  match hTypeflag hdr with
  | TypeReg | TypeRegA | TypeSymlink =>
      match Stat refuse fs (abs_path d) with inr NDir => d | _ => parent d end
  | TypeDir | TypeOther => d
  end.

Lemma good_parent d : Forall good_name d → Forall good_name (parent d).
Proof. apply Forall_take. Qed.

Lemma parent_prefix d : parent d `prefix_of` d.
Proof. apply prefix_take. Qed.

Lemma Dir_parent d : Forall good_name d → Dir (abs_path d) = abs_path (parent d).
Proof.
  intros H. destruct d as [|c d] using rev_ind; [done|].
  apply Forall_app in H as [Hd [Hc _]%Forall_cons_1]. by rewrite parent_snoc, Dir_abs_path.
Qed.

(** Once the root is chosen, name and root are below [unpack_root], and nothing else changed. *)
Lemma Untar_root_kept refuse fs d hdr :
  Forall good_name d → hTypeflag hdr ≠ TypeSymlink → no_dotdot (hName hdr) →
  plain_below (unpack_root refuse fs d hdr) (tree fs) →
  let R := unpack_root refuse fs d hdr in
  let r := Untar_root refuse fs (abs_path d) hdr in
  kept R (tree fs) (tree (fst r)) ∧
  ∀ name root rr, snd r = inr (name, root, rr) →
    root = abs_path R ∧ (rr = "" ∨ rr = hName hdr) ∧
    (hTypeflag hdr = TypeOther ∨ ∃ k, name = abs_path (R ++ k) ∧ Forall good_name (R ++ k)).
Proof.
  intros Hd Ht Hn. cbn zeta.
  assert (∃ k, PathJoin (abs_path d) (hName hdr) = abs_path (d ++ k) ∧ Forall good_name (d ++ k)) as HJ.
  { destruct (PathJoin_below d _ Hd Hn) as (k & ? & ?). exists k. split; [done|]. by apply Forall_app. }
  assert (∃ k, abs_path d = abs_path (d ++ k) ∧ Forall good_name (d ++ k)) as HD
    by (exists []; by rewrite app_nil_r).
  assert (∃ k, abs_path d = abs_path (parent d ++ k) ∧ Forall good_name (parent d ++ k)) as HP.
  { destruct (parent_prefix d) as [k Hk]. exists k. by rewrite <- Hk. }
  pose proof (good_parent d Hd) as Hgp.
  unfold Untar_root, unpack_root. rewrite Dir_parent by done.
  pose proof (kept_mkdir refuse fs (parent d) []) as HM. rewrite app_nil_r in HM.
  destruct (hTypeflag hdr), (Stat refuse fs (abs_path d)) as [e|[]]; try done; intros Hp;
    cbn [IsDir bool_decide decide]; repeat case_match; simplify_eq/=;
    (split; [first [by apply kept_refl | specialize (HM Hgp Hp); by simplify_option_eq]
            |intros ??? [= <- <- <-]; eauto 10]).
Qed.

Lemma no_links_plain d t : no_links t → plain_below d t.
Proof. intros H l _. by apply no_links_linkfree. Qed.

(** ** Properties *)

(** C20: an archive without links and without [..] in the names, as [Untar] uses them, unpacked
    where beforehand no link lies on the way to, at or below its root, stays inside its root: outside
    it nothing changes but missing directories made on the way to it, whatever the archive replaces
    or the kernel refuses, and also when unpacking fails halfway.  (Through a link that is there
    already an entry is written wherever the link leads.) *)
Theorem untar_contained refuse fs d hdr content rest fin :
  Forall good_name d →
  hTypeflag hdr ≠ TypeSymlink → no_dotdot (hName hdr) →
  Forall (λ e, tame "" e ∧ tame (hName hdr) e) rest →
  plain_below (unpack_root refuse fs d hdr) (tree fs) →
  contained (unpack_root refuse fs d hdr) (tree fs)
    (tree (fst (Untar refuse fs (MkTarReader ((hdr, content) :: rest) fin) (abs_path d)))).
Proof.
  intros Hd Ht Hn Hr Hp. unfold Untar. cbn [Next tr_entries tr_end].
  destruct (Untar_root_kept refuse fs d hdr Hd Ht Hn Hp) as [Hk Hnames]. cbn zeta in Hnames.
  set (R := unpack_root refuse fs d hdr) in *.
  destruct (Untar_root refuse fs (abs_path d) hdr) as [fs1 [e|[[name root] rr]]]; cbn in *; [apply Hk|].
  destruct (Hnames _ _ _ eq_refl) as (-> & Hrr & Hname).
  assert (Forall (tame rr) rest) as Hr' by (eapply Forall_impl; [|exact Hr]; intros e [? ?]; by destruct Hrr; subst).
  assert (∃ k, Forall good_name (R ++ k) ∧
    Untar_loop refuse fs1 hdr content name (abs_path R) rr rest fin =
    Untar_loop refuse fs1 hdr content (abs_path (R ++ k)) (abs_path R) rr rest fin) as (k & Hg & ->).
  { destruct Hname as [Ho|(k & -> & Hg)]; [|by exists k]. exists []. rewrite app_nil_r. split.
    - subst R. unfold unpack_root. by rewrite Ho.
    - destruct rest as [|[??]?]; cbn [Untar_loop]; unfold Untar_entry; by rewrite Ho. }
  destruct (Untar_loop_kept refuse fs1 hdr content R k rr rest fin) as [Hc _]; try done; [apply Hk|].
  eapply contained_trans; [apply Hk|done].
Qed.

(** A tree for the examples: an existing directory with a file in it. *)
Definition demo_fs : FS :=
  MkFS (list_to_map [(["data"], NDir); (["data"; "app"], NDir);
                     (["data"; "app"; "old"], NFile ["o"%char])]) [].

Definition demo_file (name : string) : Header * (list byte * option error) :=
  (MkHeader TypeReg name "" 1, (["x"%char], None)).

Lemma untar_contained_witness :
  contained ["data"; "app"] (tree demo_fs)
    (tree (fst (Untar no_refusal demo_fs
      (MkTarReader [(MkHeader TypeDir "d" "" 0, ([], None)); demo_file "d/./f"; demo_file "old"] EOF)
      "/data/app"))).
Proof.
  apply (untar_contained no_refusal demo_fs ["data"; "app"] (MkHeader TypeDir "d" "" 0) ([], None)
           [demo_file "d/./f"; demo_file "old"] EOF).
  - apply (bool_decide_unpack _). vm_compute. done.
  - done.
  - apply (bool_decide_unpack _). vm_compute. done.
  - apply Forall_cons_2; [|apply Forall_singleton]; split; (split; [done|]);
      apply (bool_decide_unpack _); vm_compute; done.
  - apply no_links_plain, (bool_decide_unpack _). vm_compute. done.
Defined.

(** [Untar] does not confine an archive: a file called [../x] lands next to the destination
    directory, not in it. *)
Theorem untar_dotdot_escapes fs p c x content :
  wf_tree (tree fs) → Forall good_name (p ++ [c]) → good_name x →
  linkfree (tree fs) (p ++ [c]) → linkfree (tree fs) (p ++ [x]) →
  look (tree fs) (p ++ [c]) = Some NDir → tree fs !! (p ++ [x]) = None →
  Untar no_refusal fs
    (MkTarReader [(MkHeader TypeReg ("../" +:+ x) "" (len content), (content, None))] EOF)
    (abs_path (p ++ [c])) =
  (set_tree fs (<[p ++ [x] := NFile content]> (tree fs)), None).
Proof.
  intros Hwf Hg Hx Hl1 Hl2 Hd Hn.
  pose proof Hg as [Hgp [Hc _]%Forall_cons_1]%Forall_app.
  assert (look (tree fs) p = Some NDir) as Hp.
  { rewrite look_ne in Hd by (by destruct p). apply Hwf in Hd as (_ & _ & Hd).
    by rewrite parent_snoc in Hd. }
  assert (PathJoin (abs_path (p ++ [c])) ("../" +:+ x) = abs_path (p ++ [x])) as HJ.
  { rewrite PathJoin_abs by done. change ("../" +:+ x) with (".." +:+ String "/" x).
    rewrite names_app. rewrite (names_rel_path [x] : _ → names x = [x]) by (by apply Forall_singleton).
    change (names "..") with [".."]. unfold clean_names.
    rewrite foldl_app, (clean_good true [] (p ++ [c])), app_nil_r, rev_unit by done. cbn [foldl app].
    destruct Hc as (_ & _ & Hc & _), Hx as (_ & Hx1 & Hx2 & _).
    assert (clean_step true (c :: rev p) ".." = rev p) as -> by (unfold clean_step; by rewrite (decide_False (P := c = ".."))).
    unfold clean_step. rewrite !decide_False by done. cbn [rev]. by rewrite rev_involutive. }
  assert (Forall good_name (p ++ [x])) as Hgx by (apply Forall_app; split; [done|by apply Forall_singleton]).
  assert (p ++ [x] ≠ []) as Hne by by destruct p.
  unfold Untar. cbn [Next tr_entries tr_end]. unfold Untar_root, Stat. cbn [hTypeflag hName].
  rewrite (stat_some fs (p ++ [c]) Hwf Hg Hl1 true NDir Hd). change (IsDir NDir) with true. rewrite HJ.
  cbn [Untar_loop]. unfold Untar_entry, Untar_file. cbn [hTypeflag].
  rewrite RemoveAll_fresh, OpenTrunc_fresh; try done; [|by rewrite parent_snoc..].
  cbn. rewrite insert_insert_eq. done.
Qed.

Lemma untar_dotdot_escapes_witness :
  Untar no_refusal demo_fs (MkTarReader [demo_file "../evil"] EOF) "/data/app" =
  (set_tree demo_fs (<[["data"; "evil"] := NFile ["x"%char]]> (tree demo_fs)), None).
Proof.
  apply (untar_dotdot_escapes demo_fs ["data"] "app" "evil" ["x"%char]);
    try (apply (bool_decide_unpack _); vm_compute; done);
    apply no_links_linkfree, (bool_decide_unpack _); vm_compute; done.
Defined.

(** Two more ways out: through a link the archive brings along, and through a name whose [..]
    only appears when the name of the first directory is cut off. *)
Example untar_other_escapes :
  (tree (fst (Untar no_refusal demo_fs (MkTarReader
     [(MkHeader TypeSymlink "l" "/data" 0, ([], None)); demo_file "l/evil"] EOF) "/data/app")))
    !! ["data"; "evil"] = Some (NFile ["x"%char]) ∧
  (tree (fst (Untar no_refusal demo_fs (MkTarReader
     [(MkHeader TypeDir "a" "" 0, ([], None)); demo_file "a../evil"] EOF) "/data/app/new")))
    !! ["data"; "app"; "evil"] = Some (NFile ["x"%char]).
Proof. vm_compute. done. Qed.

(** [UntarBytes] succeeds on exactly the archives of one regular file, and copies it. *)
Theorem untar_bytes_exact dst tr dst' :
  UntarBytes dst tr = (dst', None) ↔
  ∃ hdr content k, tr = MkTarReader [(hdr, (content, None))] EOF ∧
    (hTypeflag hdr = TypeReg ∨ hTypeflag hdr = TypeRegA) ∧
    sink_write dst content = (dst', (k, None)).
Proof.
  split.
  - unfold UntarBytes. destruct tr as [[|[hdr [content cerr]] rest] fin]; cbn [Next tr_entries tr_end]; [done|].
    destruct (sink_write dst content) as [s [k [e|]]] eqn:E; [by destruct (hTypeflag hdr)|].
    destruct cerr; [by destruct (hTypeflag hdr)|].
    destruct rest as [|[]]; [destruct fin|]; destruct (hTypeflag hdr) eqn:Et; try done;
      intros [= <-]; eexists _, _, _; eauto.
  - intros (hdr & content & k & -> & Ht & E). unfold UntarBytes. cbn [Next tr_entries tr_end].
    rewrite E. by destruct Ht as [-> | ->].
Qed.
