(* ===== verification/UntarWf.v ===== *)
(** * Unpacking keeps the file system well formed

    Whatever the archive holds (links, [..], names of other types, entries cut short) and
    whatever the kernel refuses, [Untar] of src/waterfall/golang/stream/tar.go leaves a tree in
    which every node has a proper name in a directory that is there. *)

From S2P Require Import Prelude GoStrings Filepath Fs Tar.

Local Open Scope Z_scope.

(** A file system: its tree is well formed and its working directory has proper names. *)
Definition wf_fs (fs : FS) : Prop := wf_tree (tree fs) ∧ Forall good_name (cwd fs).

(** ** Locations have proper names *)

Definition name_part (c : string) : Prop := c ≠ "" ∧ has_char "/" c = false.

Lemma resolve_good k t f cur todo p :
  Forall good_name cur → Forall name_part todo → resolve k t f cur todo = inr p → Forall good_name p.
Proof.
  revert cur todo. induction k as [|k IHk]; cbn [resolve]; intros cur todo; revert cur;
    (induction todo as [|c todo IH]; intros cur Hc Ht; [by intros [= <-]|];
     apply Forall_cons_1 in Ht as [[Hc1 Hc2] Ht];
     destruct (decide (c = ".")) as [Hd|Hd]; [by apply IH|];
     destruct (decide (c = "..")) as [Hdd|Hdd]; [apply IH; [by apply good_parent|done]|];
     assert (Forall good_name (cur ++ [c])) as Hg by (apply Forall_app; split; [done|by apply Forall_singleton]);
     destruct (t !! (cur ++ [c])) as [[b| |g]|];
     [destruct todo; [by intros [= <-]|done]|by apply IH| |destruct todo; [by intros [= <-]|done]];
     destruct (decide (todo = [] ∧ f = false)); [by intros [= <-]|]; [..]).
  - done.
  - apply IHk; [by destruct (IsAbs g)|]. apply Forall_app. split; [apply names_no_slash|done].
Qed.

Lemma resolve_path_good fs f s p : Forall good_name (cwd fs) → resolve_path fs f s = inr p → Forall good_name p.
Proof.
  intros H. unfold resolve_path. case_decide; [done|]. apply resolve_good; [by destruct (IsAbs s)|apply names_no_slash].
Qed.

(** ** Each call keeps the tree well formed *)

(** Putting a file where there is a file or a link. *)
Lemma wf_replace t l n m : wf_tree t → t !! l = Some m → m ≠ NDir → n ≠ NDir → wf_tree (<[l := n]> t).
Proof.
  intros Hwf Hl Hm Hn q x Hq.
  assert (∀ r, look t r = Some NDir → look (<[l := n]> t) r = Some NDir) as Hlook.
  { intros [|a r] Hr; [done|]. cbn in *. rewrite lookup_insert_ne; [done|]. intros ->. congruence. }
  apply lookup_insert_Some in Hq as [[<- <-]|[Hlq Hq]].
  - destruct (Hwf _ _ Hl) as (? & ? & ?). auto.
  - destruct (Hwf _ _ Hq) as (? & ? & ?). auto.
Qed.

Lemma wf_remove t p : wf_tree t → wf_tree (filter (λ kv : loc * node, ¬ below p kv.1) t).
Proof.
  intros Hwf q x [Hq Hb]%map_lookup_filter_Some. cbn in Hb. destruct (Hwf _ _ Hq) as (Hne & Hg & Hp).
  split_and!; [done..|]. destruct (parent q) as [|a r] eqn:E; [done|]. cbn in *.
  apply map_lookup_filter_Some. split; [done|]. cbn. intros Hb'. apply Hb.
  etrans; [exact Hb'|]. rewrite <- E. unfold parent. apply prefix_take.
Qed.

Lemma create_wf fs p n fs' :
  wf_fs fs → look (tree fs) p = None → Forall good_name p → create fs p n = inr fs' → wf_fs fs'.
Proof.
  intros [Hwf Hc] Hn Hg. unfold create. destruct (look _ (parent p)) as [[]|] eqn:E; try done.
  intros [= <-]. split; [|done]. cbn. destruct p as [|a p]; [done|]. by apply wf_insert.
Qed.

Section calls.
Context (refuse : Refusal).

Lemma Mkdir_wf fs s fs' : wf_fs fs → Mkdir refuse fs s = inr fs' → wf_fs fs'.
Proof.
  intros Hwf. unfold Mkdir. destruct (refuse OpMkdir s); [done|].
  destruct (resolve_path fs false s) as [|p] eqn:E; [done|]. apply resolve_path_good in E; [|apply Hwf].
  destruct (look (tree fs) p) eqn:El; [done|]. by apply create_wf.
Qed.

Lemma Mkdir_last_wf pm s :
  wf_fs (fs_of pm) → wf_fs (fs_of
    match pm with
    | inl ef => inl ef
    | inr fs => match Mkdir refuse fs s with
                | inr fs' => inr fs'
                | inl e => match Lstat refuse fs s with inr NDir => inr fs | _ => inl (e, fs) end
                end
    end).
Proof.
  destruct pm as [ef|fs]; [done|]. intros H. destruct (Mkdir refuse fs s) eqn:E; [|by eapply Mkdir_wf].
  by destruct (Lstat refuse fs s) as [|[]].
Qed.

Lemma MkdirAll_fuel_wf fuel fs s : wf_fs fs → wf_fs (fs_of (MkdirAll_fuel refuse fuel fs s)).
Proof.
  revert fs s. induction fuel as [|f IH]; intros fs s H; cbn [MkdirAll_fuel];
    destruct (Stat refuse fs s) as [|[]]; try done; apply Mkdir_last_wf; case_decide; try done; by apply IH.
Qed.

Lemma MkdirAll_wf fs s : wf_fs fs → wf_fs (fs_of (MkdirAll refuse fs s)).
Proof. apply MkdirAll_fuel_wf. Qed.

Lemma RemoveAll_wf fs s : wf_fs fs → wf_fs (RemoveAll refuse fs s).
Proof.
  intros [Hwf Hc]. unfold RemoveAll. case_decide; [done|]. destruct (refuse OpRemove s); [done|].
  destruct (resolve_path fs false s); [done|]. split; [by apply wf_remove|done].
Qed.

Lemma OpenTrunc_wf fs s p fs' :
  wf_fs fs → OpenTrunc refuse fs s = inr (p, fs') → wf_fs fs' ∧ ∃ b, tree fs' !! p = Some (NFile b).
Proof.
  intros H. unfold OpenTrunc. destruct (refuse OpOpen s); [done|]. destruct (HasSuffixSlash s); [done|].
  destruct (resolve_path fs true s) as [|q] eqn:E; [done|]. apply resolve_path_good in E; [|apply H].
  destruct (look (tree fs) q) as [n|] eqn:El.
  - destruct n as [b| |g]; try done; intros [= <- <-]; (destruct q; [done|]; cbn [tree set_tree];
      split; [split; [by eapply wf_replace; [apply H|exact El|..]|apply H]|eexists; apply lookup_insert_eq]).
  - destruct (create fs q (NFile [])) as [|fs1] eqn:EC; [done|]. intros [= <- <-]. split; [by eapply create_wf|].
    unfold create in EC. destruct (look _ (parent q)) as [[]|]; try done. injection EC as <-.
    eexists. apply lookup_insert_eq.
Qed.

Lemma Symlink_wf fs target s fs' : wf_fs fs → Symlink refuse fs target s = inr fs' → wf_fs fs'.
Proof.
  intros H. unfold Symlink. destruct (refuse OpSymlink s); [done|]. case_decide; [done|].
  destruct (resolve_path fs false s) as [|p] eqn:E; [done|]. apply resolve_path_good in E; [|apply H].
  destruct (look (tree fs) p) eqn:El; [done|]. by apply create_wf.
Qed.

(** ** [Untar] *)

Lemma Untar_root_wf fs dst hdr : wf_fs fs → wf_fs (Untar_root refuse fs dst hdr).1.
Proof.
  intros H. unfold Untar_root. pose proof (MkdirAll_wf fs (Dir dst) H) as HM.
  destruct (hTypeflag hdr), (Stat refuse fs dst) as [e|fi]; try done;
    try (destruct (IsDir fi); done); destruct (IsNotExist e); try done;
    by destruct (MkdirAll refuse fs (Dir dst)) as [[]|].
Qed.

Lemma Untar_file_wf fs content name : wf_fs fs → wf_fs (Untar_file refuse fs content name).1.
Proof.
  intros H. apply (RemoveAll_wf fs name) in H. unfold Untar_file.
  destruct (OpenTrunc refuse _ name) as [e|[p fs1]] eqn:E; [done|].
  apply OpenTrunc_wf in E as [Hwf [b Hb]]; [|done]. destruct (refuse OpWrite name); [done|].
  assert (wf_fs (set_tree fs1 (<[p := NFile content.1]> (tree fs1)))) as HW.
  { split; [|apply Hwf]. by eapply wf_replace; [apply Hwf|exact Hb|..]. }
  destruct (content.2); [done|]. by destruct (refuse OpClose name).
Qed.

Lemma Untar_entry_wf fs hdr content name : wf_fs fs → wf_fs (Untar_entry refuse fs hdr content name).1.
Proof.
  intros H. unfold Untar_entry. destruct (hTypeflag hdr); try (by apply Untar_file_wf); try done.
  - destruct (Symlink refuse fs (hLinkname hdr) name) eqn:E; [done|]. by eapply Symlink_wf.
  - pose proof (MkdirAll_wf fs name H) as HM. by destruct (MkdirAll refuse fs name) as [[]|].
Qed.

Lemma Untar_loop_wf fs hdr content name root rootReplace rest fin :
  wf_fs fs → wf_fs (Untar_loop refuse fs hdr content name root rootReplace rest fin).1.
Proof.
  revert fs hdr content name. induction rest as [|[hdr' content'] rest IH]; intros fs hdr content name H;
    cbn [Untar_loop]; pose proof (Untar_entry_wf fs hdr content name H) as HE;
    destruct (Untar_entry refuse fs hdr content name) as [fs1 [e|]]; try done. by apply IH.
Qed.

End calls.

(** Unpacking keeps the file system well formed: whatever the archive, the destination, the
    outcome and the refusals of the kernel, afterwards every node has a proper name and lies
    in a directory that is there. *)
Theorem untar_well_formed refuse fs tr dst : wf_fs fs → wf_fs (Untar refuse fs tr dst).1.
Proof.
  intros H. unfold Untar. destruct (Next tr) as [tr' [[hdr content]|e]]; [|done].
  pose proof (Untar_root_wf refuse fs dst hdr H) as HR.
  destruct (Untar_root refuse fs dst hdr) as [fs1 [e|[[name root] rep]]]; [done|].
  by apply Untar_loop_wf.
Qed.

(** An archive that climbs out through a link of its own. *)
Definition hostile_tar : TarReader :=
  MkTarReader [(MkHeader TypeDir "d" "" 0, ([], None)); (MkHeader TypeSymlink "d/l" "/etc" 0, ([], None));
               (MkHeader TypeReg "d/l/../x" "" 1, (["a"%char], None))] UnexpectedEOF.

Lemma untar_well_formed_witness :
  let fs := MkFS (<[["etc"] := NDir]> (<[["tmp"] := NDir]> ∅)) [] in
  wf_fs fs ∧ wf_fs (Untar no_refusal fs hostile_tar "/tmp/new").1.
Proof.
  intros fs.
  assert (wf_fs fs) as H by (split; [apply (bool_decide_unpack _); vm_compute; exact I|constructor]).
  split; [exact H|]. exact (untar_well_formed no_refusal fs hostile_tar "/tmp/new" H).
Defined.
