(* ===== verification/TarRoundtrip.v ===== *)
(** * Packing and unpacking a tree

    [Tar] followed by [Untar], for trees of files and directories: the listing of a tree in
    the order [filepath.Walk] visits it, that [Tar] writes exactly that listing, and that
    [Untar] lays a listing out again, at the destination or inside it. *)

From S2P Require Import Prelude GoStrings GoIO Filepath Fs Tar.

Local Open Scope Z_scope.

(** ** The listing of a tree *)

(** What lies at and below [s ++ r], relative to [s], parents before children. *)
Fixpoint walk_list (fuel : nat) (t : gmap loc node) (s r : loc) (n : node) : list (loc * node) :=
  (r, n) ::
  match n, fuel with
  | NDir, S f =>
      mjoin ((λ c, match t !! (s ++ r ++ [c]) with
                   | Some m => walk_list f t s (r ++ [c]) m
                   | None => []
                   end) <$> children t (s ++ r))
  | _, _ => []
  end.

(** The fuel exceeds the depth of what is below [p]. *)
Definition deep_enough (fuel : nat) (t : gmap loc node) (p : loc) : Prop :=
  ∀ k m, t !! (p ++ k) = Some m → (length k < fuel)%nat.

Lemma deep_enough_child fuel t p c : deep_enough (S fuel) t p → deep_enough fuel t (p ++ [c]).
Proof. intros H k m E. rewrite <- app_assoc in E. apply H in E. cbn in E. lia. Qed.

Lemma elem_of_mjoin_fmap {A B} (f : A → list B) l x :
  x ∈ mjoin (f <$> l) ↔ ∃ y, y ∈ l ∧ x ∈ f y.
Proof.
  rewrite list_elem_of_join. split.
  - intros (k & Hx & (y & -> & Hy)%list_elem_of_fmap). eauto.
  - intros (y & Hy & Hx). exists (f y). split; [done|]. apply list_elem_of_fmap. eauto.
Qed.

Lemma fmap_mjoin_fmap {A B C} (g : B → C) (f : A → list B) l :
  g <$> mjoin (f <$> l) = mjoin ((λ x, g <$> f x) <$> l).
Proof.
  induction l as [|x l IH]; [done|]. rewrite !fmap_cons.
  change (mjoin (f x :: (f <$> l))) with (f x ++ mjoin (f <$> l)). by rewrite fmap_app, IH.
Qed.

(** The listing holds exactly the nodes of the tree. *)
Lemma walk_list_sound fuel t s r n r' m :
  t !! (s ++ r) = Some n → (r', m) ∈ walk_list fuel t s r n →
  ∃ k, r' = r ++ k ∧ t !! (s ++ r') = Some m.
Proof.
  revert r n. induction fuel as [|f IH]; intros r n Hn; cbn [walk_list];
    (intros [[= -> ->]|H]%elem_of_cons; [exists []; by rewrite app_nil_r|]);
    destruct n; try by apply not_elem_of_nil in H.
  apply elem_of_mjoin_fmap in H as (c & Hc & H).
  destruct (t !! (s ++ r ++ [c])) as [m'|] eqn:E; [|by apply not_elem_of_nil in H].
  destruct (IH _ _ E H) as (k & -> & Hk). exists ([c] ++ k). by rewrite app_assoc.
Qed.

Lemma walk_list_complete fuel t s r n k m :
  wf_tree t → s ++ r ≠ [] → t !! (s ++ r) = Some n → deep_enough fuel t (s ++ r) →
  t !! (s ++ r ++ k) = Some m → (r ++ k, m) ∈ walk_list fuel t s r n.
Proof.
  intros Hwf. revert r n k. induction fuel as [|f IH]; intros r n k Hs Hn Hd Hm.
  { apply (Hd []) in Hn || (rewrite <- (app_nil_r (s ++ r)) in Hn; apply Hd in Hn). lia. }
  cbn [walk_list]. destruct k as [|c k].
  { rewrite app_nil_r in *. rewrite Hn in Hm. injection Hm as ->. apply list_elem_of_here. }
  apply list_elem_of_further.
  assert (n = NDir) as ->.
  { rewrite app_assoc in Hm.
    pose proof (ancestor_dir t (s ++ r) (c :: k) m Hwf) as H.
    rewrite !look_ne in H by (by destruct (s ++ r)). specialize (H Hm). naive_solver. }
  apply elem_of_mjoin_fmap. exists c.
  assert (∃ m', t !! (s ++ r ++ [c]) = Some m') as [m' Hm'].
  { destruct (decide (k = [])) as [->|Hk]; [by eexists|]. exists NDir.
    rewrite <- look_ne by (rewrite app_assoc; by destruct (s ++ r)).
    eapply (ancestor_dir t _ k m); [done| |done].
    rewrite <- !app_assoc. cbn. rewrite look_ne; [done|]. rewrite app_assoc. by destruct (s ++ r). }
  split; [apply elem_of_children; rewrite <- app_assoc; by eexists|].
  rewrite Hm'. replace (r ++ c :: k) with ((r ++ [c]) ++ k) by by rewrite <- app_assoc.
  apply IH; [|done| |by rewrite <- !app_assoc].
  - rewrite app_assoc. by destruct (s ++ r).
  - rewrite app_assoc. by apply deep_enough_child.
Qed.

(** Every location is listed once. *)
Lemma walk_list_below fuel t s r n r' : r' ∈ (walk_list fuel t s r n).*1 → r `prefix_of` r'.
Proof.
  revert r n. induction fuel as [|f IH]; intros r n; cbn [walk_list]; rewrite fmap_cons;
    (intros [->|H]%elem_of_cons; [done|]); destruct n; try by apply not_elem_of_nil in H.
  apply list_elem_of_fmap in H as ([r1 m] & -> & H).
  apply elem_of_mjoin_fmap in H as (c & _ & H).
  destruct (t !! (s ++ r ++ [c])) as [m'|]; [|by apply not_elem_of_nil in H].
  etrans; [by eexists|]. eapply IH. apply list_elem_of_fmap. by exists (r1, m).
Qed.

Lemma NoDup_blocks {A} (f : string → list (loc * A)) r cs :
  NoDup cs → (∀ c, NoDup (f c).*1) → (∀ c q, q ∈ (f c).*1 → r ++ [c] `prefix_of` q) →
  NoDup (mjoin (f <$> cs)).*1.
Proof.
  intros Hcs Hf Hp. induction Hcs as [|c cs Hc _ IH]; [constructor|].
  rewrite fmap_cons. cbn [mjoin list_join foldr]. change (foldr app [] (f <$> cs)) with (mjoin (f <$> cs)).
  rewrite fmap_app. apply list.NoDup_app. split_and!; [done| |done].
  intros q Hq Hq'. apply list_elem_of_fmap in Hq' as ([q1 m] & -> & Hq').
  apply elem_of_mjoin_fmap in Hq' as (c' & Hc' & Hq').
  assert (q1 ∈ (f c').*1) as Hq'' by (apply list_elem_of_fmap; by exists (q1, m)).
  apply Hp in Hq, Hq''. cbn in Hq. apply Hc.
  destruct Hq as [k1 E1], Hq'' as [k2 E2]. rewrite <- !app_assoc in *. rewrite E1 in E2.
  apply app_inv_head in E2. cbn in E2. by injection E2 as -> _.
Qed.

Lemma NoDup_walk_list fuel t s r n : NoDup (walk_list fuel t s r n).*1.
Proof.
  revert r n. induction fuel as [|f IH]; intros r n; cbn [walk_list]; rewrite fmap_cons;
    destruct n; try by repeat constructor; apply not_elem_of_nil.
  constructor.
  - intros H. apply list_elem_of_fmap in H as ([r1 m] & Hr & H). cbn in Hr. subst r1.
    apply elem_of_mjoin_fmap in H as (c & _ & H).
    destruct (t !! (s ++ r ++ [c])) as [m'|]; [|by apply not_elem_of_nil in H].
    assert (r ++ [c] `prefix_of` r) as Hp%prefix_length.
    { eapply walk_list_below. apply list_elem_of_fmap. by exists (r, m). }
    rewrite length_app in Hp. cbn in Hp. lia.
  - apply (NoDup_blocks _ r); [apply NoDup_children| |].
    + intros c. destruct (t !! (s ++ r ++ [c])); [apply IH|constructor].
    + intros c q. destruct (t !! (s ++ r ++ [c])); [apply walk_list_below|by intros ?%not_elem_of_nil].
Qed.

(** Every entry comes after the directory it is in; [seen] are the directories before. *)
Fixpoint parents_first (seen : list loc) (es : list (loc * node)) : Prop :=
  match es with
  | [] => True
  | (q, n) :: es' =>
      parent q ∈ seen ∧ parents_first (if decide (n = NDir) then q :: seen else seen) es'
  end.

Lemma parents_first_mono seen seen' es :
  seen ⊆ seen' → parents_first seen es → parents_first seen' es.
Proof.
  revert seen seen'. induction es as [|[q n] es IH]; intros seen seen' Hs; [done|].
  intros [Hq H]. split; [by apply Hs|]. eapply IH; [|exact H]. case_decide; [|done].
  intros x [->|Hx]%elem_of_cons; [apply list_elem_of_here|]. apply list_elem_of_further. by apply Hs.
Qed.

Lemma parents_first_app seen es1 es2 :
  parents_first seen es1 → parents_first seen es2 → parents_first seen (es1 ++ es2).
Proof.
  revert seen. induction es1 as [|[q n] es1 IH]; intros seen; [done|].
  intros [Hq H1] H2. split; [done|]. apply IH; [done|]. eapply parents_first_mono; [|exact H2].
  case_decide; set_solver.
Qed.

Lemma parents_first_mjoin {A} (f : A → list (loc * node)) seen l :
  (∀ x, x ∈ l → parents_first seen (f x)) → parents_first seen (mjoin (f <$> l)).
Proof.
  induction l as [|x l IH]; intros H; [done|]. rewrite fmap_cons.
  change (mjoin (f x :: (f <$> l))) with (f x ++ mjoin (f <$> l)).
  apply parents_first_app; [apply H, list_elem_of_here|]. apply IH. intros y Hy.
  apply H. by apply list_elem_of_further.
Qed.

Lemma parents_first_walk fuel t s r n seen :
  parent r ∈ seen → parents_first seen (walk_list fuel t s r n).
Proof.
  revert r n seen. induction fuel as [|f IH]; intros r n seen Hr; cbn [walk_list];
    (split; [done|]); destruct n; try done.
  rewrite decide_True by done. apply parents_first_mjoin. intros c _.
  destruct (t !! (s ++ r ++ [c])); [|done]. apply IH. rewrite parent_snoc. apply list_elem_of_here.
Qed.

(** ** Laying a listing out *)

Definition plain_node (n : node) : Prop := ∀ g, n ≠ NLink g.

Definition put_all (D : loc) (t : gmap loc node) (es : list (loc * node)) : gmap loc node :=
  foldl (λ t e, <[D ++ e.1 := e.2]> t) t es.

(** Each entry in turn has a free place in a directory that is there. *)
Fixpoint layable (D : loc) (t : gmap loc node) (es : list (loc * node)) : Prop :=
  match es with
  | [] => True
  | (q, n) :: es' =>
      let l := D ++ q in
      l ≠ [] ∧ Forall good_name l ∧ linkfree t l ∧ t !! l = None ∧
      look t (parent l) = Some NDir ∧ plain_node n ∧ layable D (<[l := n]> t) es'
  end.

(** The tar entry of a plain node with the name [name]. *)
Definition plain_entry (name : string) (n : node) : Header * list byte :=
  match n with
  | NFile b => (MkHeader TypeReg name "" (len b), b)
  | _ => (MkHeader TypeDir name "" 0, [])
  end.

Definition complete (e : Header * list byte) : Header * (list byte * option error) :=
  (e.1, (e.2, None)).

Lemma Untar_entry_fresh fs l n name :
  wf_tree (tree fs) → l ≠ [] → Forall good_name l → linkfree (tree fs) l → tree fs !! l = None →
  look (tree fs) (parent l) = Some NDir → plain_node n →
  let e := complete (plain_entry name n) in
  Untar_entry no_refusal fs e.1 e.2 (abs_path l) = (set_tree fs (<[l := n]> (tree fs)), None).
Proof.
  intros Hwf Hne Hg Hl Hn Hp Hpl. unfold Untar_entry. destruct n as [b| |g]; cbn.
  - unfold Untar_file. rewrite RemoveAll_fresh by done. rewrite OpenTrunc_fresh by done.
    cbn. by rewrite insert_insert_eq.
  - by rewrite MkdirAll_fresh.
  - by destruct (Hpl g).
Qed.

(** The loop of [Untar] lays out a listing whose names lead to [D]. *)
Lemma Untar_loop_lays fs D (nm : loc → string) root rr q n es :
  wf_tree (tree fs) → layable D (tree fs) ((q, n) :: es) →
  (∀ r, r ∈ es.*1 → PathJoin root (TrimPrefix (nm r) rr) = abs_path (D ++ r)) →
  let e := complete (plain_entry (nm q) n) in
  Untar_loop no_refusal fs e.1 e.2 (abs_path (D ++ q)) root rr
    ((λ e, complete (plain_entry (nm e.1) e.2)) <$> es) EOF =
  (set_tree fs (put_all D (tree fs) ((q, n) :: es)), None).
Proof.
  revert fs q n. induction es as [|[q' n'] es IH]; intros fs q n Hwf (Hne & Hg & Hl & Hn & Hp & Hpl & Hlay) Hnm.
  - cbn [Untar_loop fmap list_fmap]. rewrite Untar_entry_fresh by done. by rewrite decide_True.
  - rewrite fmap_cons. cbn [Untar_loop]. rewrite Untar_entry_fresh by done.
    cbn [complete fst snd].
    assert (hName (plain_entry (nm q') n').1 = nm q') as -> by by destruct n'.
    rewrite Hnm by (rewrite fmap_cons; apply list_elem_of_here).
    set (fs1 := set_tree fs _).
    assert (wf_tree (tree fs1)) as Hwf1 by by apply wf_insert.
    apply (IH fs1 q' n' Hwf1 Hlay).
    intros r Hr. apply Hnm. rewrite fmap_cons. by apply list_elem_of_further.
Qed.

Lemma layable_intro D t seen es :
  (∀ q n, (q, n) ∈ es → q ≠ [] ∧ plain_node n ∧ t !! (D ++ q) = None ∧ Forall good_name (D ++ q) ∧
    linkfree t (D ++ q)) →
  NoDup es.*1 → (∀ p, p ∈ seen → look t (D ++ p) = Some NDir) → parents_first seen es →
  layable D t es.
Proof.
  revert t seen. induction es as [|[q n] es IH]; intros t seen Hes Hnd Hseen; [done|].
  intros [Hq Hpf]. rewrite fmap_cons in Hnd. apply list.NoDup_cons in Hnd as [Hqes Hnd].
  destruct (Hes q n) as (Hne & Hpl & Hn & Hg & Hl); [apply list_elem_of_here|].
  assert (D ++ q ≠ []) as HDq by (by intros [_ ?]%app_nil).
  split_and!; try done.
  { rewrite parent_app by done. by apply Hseen. }
  eapply IH; [|done| |done].
  - intros q' n' Hin. destruct (Hes q' n') as (? & ? & ? & ? & ?); [by apply list_elem_of_further|].
    split_and!; try done; [|by apply linkfree_insert].
    rewrite lookup_insert_ne; [done|]. intros ->%app_inv_head. apply Hqes.
    apply list_elem_of_fmap. by exists (q', n').
  - assert (∀ p, look t (D ++ p) = Some NDir → look (<[D ++ q := n]> t) (D ++ p) = Some NDir) as Hk.
    { intros p Hp. destruct (D ++ p) eqn:E; [done|]. rewrite <- E in *.
      rewrite look_ne in Hp |- * by (by rewrite E). rewrite lookup_insert_ne; [done|].
      intros Heq. rewrite Heq in Hn. congruence. }
    intros p Hp. case_decide as Hd; [|by apply Hk, Hseen].
    apply elem_of_cons in Hp as [->|Hp]; [|by apply Hk, Hseen].
    by rewrite look_ne, lookup_insert_eq, Hd.
Qed.

(** What was laid out can be looked up. *)
Lemma put_all_lookup D t es p :
  NoDup es.*1 →
  (∀ q n, (q, n) ∈ es → p = D ++ q → put_all D t es !! p = Some n) ∧
  ((∀ q n, (q, n) ∈ es → p ≠ D ++ q) → put_all D t es !! p = t !! p).
Proof.
  revert t. induction es as [|[q n] es IH]; intros t Hnd.
  { split; [by intros ?? ?%not_elem_of_nil|done]. }
  rewrite fmap_cons in Hnd. apply list.NoDup_cons in Hnd as [Hq Hnd].
  change (put_all D t ((q, n) :: es)) with (put_all D (<[D ++ q := n]> t) es).
  destruct (IH (<[D ++ q := n]> t) Hnd) as [IH1 IH2]. split.
  - intros q' n' [[= -> ->]|Hin]%elem_of_cons Hp; [|by eapply IH1]. subst p.
    rewrite IH2; [by rewrite lookup_insert_eq|].
    intros q2 n2 Hin E%app_inv_head. subst q2. apply Hq. apply list_elem_of_fmap. by exists (q, n2).
  - intros Hp. rewrite IH2.
    + rewrite lookup_insert_ne; [done|]. intros <-. eapply Hp; [apply list_elem_of_here|done].
    + intros q' n' Hin. eapply Hp. by apply list_elem_of_further.
Qed.

(** ** [Tar] writes the listing *)

(** A healthy writer whose last entry is complete. *)
Definition tw_ready (tw : TarWriter) : Prop :=
  tw_fail tw = None ∧ ∀ h c, list.last (tw_entries tw) = Some (h, c) → hSize h ≤ len c.

Definition tw_add (tw : TarWriter) (es : list (Header * list byte)) : TarWriter :=
  MkTarWriter (tw_entries tw ++ es) None.

Lemma WriteHeader_ready tw h :
  tw_ready tw → WriteHeader tw h = (tw_add tw [(h, [])], None).
Proof.
  intros [Hf Hl]. unfold WriteHeader, tw_add, tw_tick. rewrite Hf.
  destruct (list.last (tw_entries tw)) as [[h0 c]|] eqn:E.
  - rewrite decide_False; [done|]. specialize (Hl _ _ eq_refl). lia.
  - by apply last_None in E as ->.
Qed.

Lemma tw_Write_last tw h b :
  hSize h = len b → tw_Write (tw_add tw [(h, [])]) b = (tw_add tw [(h, b)], None).
Proof.
  intros Hs. unfold tw_Write, tw_add. cbn [tw_entries]. rewrite last_snoc. cbn [tw_tick tw_fail].
  rewrite length_app. cbn [length]. rewrite Nat.add_1_r. cbn [pred]. rewrite take_app_length.
  cbn [app]. rewrite Hs, take_len. by rewrite decide_True by lia.
Qed.

Lemma tw_ready_add tw h b : hSize h ≤ len b → tw_ready (tw_add tw [(h, b)]).
Proof. intros H. split; [done|]. intros h' c. cbn. rewrite last_snoc. by intros [= <- <-]. Qed.

Section tar_plain.
Context (fs : FS) (s0 : loc) (b : string).
Local Abbreviation s := (s0 ++ [b]).
Context (Hwf : wf_tree (tree fs)).
Context (Hlf : plain_below s (tree fs)).

Lemma below_src_plain r n : tree fs !! (s ++ r) = Some n → plain_node n.
Proof using Hlf. intros Hn g ->. eapply (Hlf (s ++ r)); [by eexists|done|done]. Qed.

Lemma Tar_visit_plain tw r n :
  tw_ready tw → tree fs !! (s ++ r) = Some n →
  let e := plain_entry (rel_path (b :: r)) n in
  Tar_visit no_refusal fs (abs_path s) tw (abs_path (s ++ r)) n = (tw_add tw [e], None) ∧
  tw_ready (tw_add tw [e]).
Proof using Hwf Hlf.
  intros Hr Hn. pose proof (Hwf _ _ Hn) as (Hne & Hg & _).
  pose proof (below_src_plain _ _ Hn) as Hpl.
  pose proof Hg as [[Hg0 [Hb _]%Forall_cons_1]%Forall_app _]%Forall_app.
  assert (Rel (Dir (abs_path s)) (abs_path (s ++ r)) = Ok (rel_path (b :: r))) as HR.
  { rewrite Dir_abs_path by done. rewrite <- app_assoc in *. by apply Rel_below. }
  unfold Tar_visit, Tar_header. cbn zeta.
  destruct n as [d| |g]; [| |by destruct (Hpl g)]; rewrite HR;
    cbn [with_name FileInfoHeader hTypeflag hLinkname hSize plain_entry];
    rewrite WriteHeader_ready by done.
  - destruct (decide (len d = 0)) as [Hd|Hd].
    + rewrite decide_True by (by right). apply len_zero_nil in Hd as ->.
      split; [done|]. by apply tw_ready_add.
    + rewrite decide_False by (by intros [[? _]|?]).
      rewrite (ReadFile_plain fs _ d); [|done..|apply Hlf; by eexists|done|done].
      rewrite tw_Write_last by done. split; [done|]. by apply tw_ready_add.
  - rewrite decide_True by (by left). split; [done|]. by apply tw_ready_add.
Qed.

End tar_plain.

Lemma walk_names_add rec fs path tw ns (info : string → node)
    (es : string → list (Header * list byte)) :
  (∀ c, c ∈ ns → Lstat no_refusal fs (PathJoin path c) = inr (info c) ∧
     ∀ tw, tw_ready tw →
       rec tw (PathJoin path c) (info c) = (tw_add tw (es c), None) ∧ tw_ready (tw_add tw (es c))) →
  tw_ready tw →
  walk_names no_refusal rec fs path tw ns = (tw_add tw (mjoin (es <$> ns)), None) ∧
  tw_ready (tw_add tw (mjoin (es <$> ns))).
Proof.
  revert tw. induction ns as [|c ns IH]; intros tw Hns Hr; cbn [walk_names].
  - unfold tw_add. cbn. rewrite app_nil_r. destruct tw, Hr as [Hf ?]. cbn in Hf. by subst.
  - destruct (Hns c) as [HL Hrec]; [apply list_elem_of_here|]. rewrite HL.
    destruct (Hrec tw Hr) as [-> Hr1]. rewrite fmap_cons.
    change (mjoin (es c :: (es <$> ns))) with (es c ++ mjoin (es <$> ns)).
    assert (tw_add tw (es c ++ mjoin (es <$> ns)) = tw_add (tw_add tw (es c)) (mjoin (es <$> ns))) as ->
      by (unfold tw_add; cbn; by rewrite app_assoc).
    apply IH; [|done]. intros c' Hc'. apply Hns. by apply list_elem_of_further.
Qed.

Section walk_plain.
Context (fs : FS) (s0 : loc) (b : string).
Local Abbreviation s := (s0 ++ [b]).
Context (Hwf : wf_tree (tree fs)).
Context (Hlf : plain_below s (tree fs)).

Lemma Lstat_child r c m :
  tree fs !! (s ++ r ++ [c]) = Some m →
  PathJoin (abs_path (s ++ r)) c = abs_path (s ++ r ++ [c]) ∧
  Lstat no_refusal fs (abs_path (s ++ r ++ [c])) = inr m.
Proof using Hwf Hlf.
  intros Hm. pose proof (Hwf _ _ Hm) as (Hne & Hg & _). split.
  - rewrite app_assoc in Hg |- *. apply Forall_app in Hg as [Hg [Hc _]%Forall_cons_1].
    apply (PathJoin_rel (s ++ r) [c]); [done|]. by apply Forall_singleton.
  - apply stat_some; [done..|apply Hlf; by eexists|by rewrite look_ne].
Qed.

Lemma walk_adds_listing fuel tw r n :
  tw_ready tw → tree fs !! (s ++ r) = Some n → deep_enough fuel (tree fs) (s ++ r) →
  let es := (λ e, plain_entry (rel_path (b :: e.1)) e.2) <$> walk_list fuel (tree fs) s r n in
  walk no_refusal fuel fs (abs_path s) tw (abs_path (s ++ r)) n = (tw_add tw es, None) ∧
  tw_ready (tw_add tw es).
Proof using Hwf Hlf.
  revert tw r n. induction fuel as [|f IH]; intros tw r n Hr Hn Hd.
  { rewrite <- (app_nil_r (s ++ r)) in Hn. apply Hd in Hn. lia. }
  destruct (Tar_visit_plain fs s0 b Hwf Hlf tw r n Hr Hn) as [Hv Hr1].
  pose proof (below_src_plain fs s0 b Hlf _ _ Hn) as Hpl.
  pose proof (Hwf _ _ Hn) as (Hne & Hg & _).
  destruct n as [d| |g]; [done| |by destruct (Hpl g)]. cbn zeta. cbn [walk].
  rewrite readDirNames_plain; [|done..|apply Hlf; by eexists|by rewrite look_ne].
  rewrite Hv. cbn [walk_list]. rewrite fmap_cons. set (tw1 := tw_add tw _) in *.
  assert (∀ es, tw_add tw (plain_entry (rel_path (b :: r)) NDir :: es) = tw_add tw1 es) as Hadd.
  { intros es. unfold tw1, tw_add. cbn. by rewrite <- app_assoc. }
  cbn [fst snd]. rewrite Hadd, fmap_mjoin_fmap.
  apply (walk_names_add _ _ _ _ _ (λ c, default NDir (tree fs !! (s ++ r ++ [c])))); [|done].
  intros c [m Hm]%elem_of_children. rewrite <- app_assoc in Hm. cbn beta. rewrite Hm.
  cbn [default from_option id].
  destruct (Lstat_child r c m Hm) as [-> ->]. split; [done|]. intros tw' Hr'.
  apply IH; [done..|]. rewrite app_assoc. by apply deep_enough_child.
Qed.

(** [Tar] writes the listing of its source, and nothing else. *)
Lemma Tar_lists n :
  tree fs !! s = Some n →
  Tar no_refusal fs (MkTarWriter [] None) (abs_path s) =
  (MkTarWriter ((λ e, plain_entry (rel_path (b :: e.1)) e.2) <$>
     walk_list (S (size (tree fs))) (tree fs) s [] n) None, None).
Proof using Hwf Hlf.
  intros Hn. pose proof (Hwf _ _ Hn) as (Hne & Hg & _).
  pose proof Hg as [_ [Hb _]%Forall_cons_1]%Forall_app. unfold Tar, Stat.
  rewrite (stat_some fs s Hwf Hg) with (n := n); [|apply Hlf; done|by rewrite look_ne].
  rewrite TrimRight_abs_path by done. unfold Lstat.
  rewrite (stat_some fs s Hwf Hg) with (n := n); [|apply Hlf; done|by rewrite look_ne].
  destruct (walk_adds_listing (S (size (tree fs))) (MkTarWriter [] None) [] n) as [H _].
  - by split.
  - by rewrite app_nil_r.
  - intros k m Hk. apply depth_bound in Hk; [|done]. rewrite !length_app in Hk. lia.
  - rewrite app_nil_r in H. exact H.
Qed.

End walk_plain.

(** ** The round trip *)

(** Where a tree called [b] ends up: inside the destination when it is a directory that is
    there, as the destination otherwise. *)
Definition target (t : gmap loc node) (d : loc) (b : string) : loc :=
  match look t d with Some NDir => d ++ [b] | _ => d end.

Lemma fresh_below t D q : wf_tree t → D ≠ [] → t !! D = None → t !! (D ++ q) = None.
Proof.
  intros Hwf HD Hn. destruct (decide (q = [])) as [->|Hq]; [by rewrite app_nil_r|].
  destruct (t !! (D ++ q)) as [m|] eqn:E; [|done].
  pose proof (ancestor_dir t D q m Hwf) as H.
  rewrite !look_ne in H by (by destruct D). rewrite (H E Hq) in Hn. done.
Qed.

Section roundtrip.
Context (h : gmap loc node) (s0 : loc) (b : string) (n : node).
Local Abbreviation s := (s0 ++ [b]).
Context (Hh : wf_tree h) (Hhl : plain_below s h) (Hn : h !! s = Some n).
Local Abbreviation W := (walk_list (S (size h)) h s [] n).

Lemma listing_mem r m : (r, m) ∈ W ↔ h !! (s ++ r) = Some m.
Proof using Hh Hn.
  split.
  - intros H. apply walk_list_sound in H as (k & _ & ?); [done|]. by rewrite app_nil_r.
  - intros H. apply (walk_list_complete (S (size h)) h s [] n r m); [done| |by rewrite app_nil_r| |done].
    + by intros [[_ ?]%app_nil _]%app_nil.
    + intros k m' Hk. apply depth_bound in Hk; [|done]. rewrite !length_app in Hk. lia.
Qed.

Lemma listing_plain r m : (r, m) ∈ W → plain_node m ∧ Forall good_name r.
Proof using Hh Hhl Hn.
  intros H%listing_mem. pose proof (Hh _ _ H) as (_ & Hg & _). split.
  - intros g ->. eapply (Hhl (s ++ r)); [by eexists|done|exact H].
  - by apply Forall_app in Hg as [_ ?].
Qed.

Lemma listing_layable t D :
  wf_tree t → D ≠ [] → Forall good_name D → t !! D = None → look t (parent D) = Some NDir →
  (∀ q, linkfree t (D ++ q)) → layable D t W.
Proof using Hh Hhl Hn.
  intros Hwf HD HgD HtD Hp Hlf.
  pose proof (NoDup_walk_list (S (size h)) h s [] n) as Hnd.
  pose proof (parents_first_walk (S (size h)) h s [] n [[]] (list_elem_of_here _ _)) as Hpf.
  assert (∀ r m, (r, m) ∈ W → plain_node m ∧ Forall good_name r) as Hpl by apply listing_plain.
  assert (∃ rest, W = ([], n) :: rest ∧ (n ≠ NDir → rest = [])) as (rest & HW & Hrest).
  { cbn [walk_list]. eexists. split; [done|]. by destruct n. }
  rewrite HW in *. rewrite fmap_cons in Hnd. apply list.NoDup_cons in Hnd as [Hq Hnd].
  destruct Hpf as [_ Hpf]. destruct (Hpl [] n) as [Hpn _]; [apply list_elem_of_here|].
  cbn [layable]. rewrite app_nil_r. split_and!; try done.
  { specialize (Hlf []). by rewrite app_nil_r in Hlf. }
  case_decide as Hd; [|by rewrite Hrest].
  eapply (layable_intro D _ [[]; []]); [|done| |done].
  - intros q m Hin. destruct (Hpl q m) as [Hm Hgq]; [by apply list_elem_of_further|].
    assert (q ≠ []) as Hqn.
    { intros ->. apply Hq. apply list_elem_of_fmap. by exists ([], m). }
    split_and!; [done|done| |by apply Forall_app|by apply linkfree_insert].
    rewrite lookup_insert_ne; [by apply fresh_below|].
    intros E. apply Hqn. rewrite <- (app_nil_r D) in E at 1. by apply app_inv_head in E.
  - intros p Hp'. assert (p = []) as ->
      by (by apply elem_of_cons in Hp' as [?|[?|[]%not_elem_of_nil]%elem_of_cons]). rewrite app_nil_r.
    by rewrite look_ne, lookup_insert_eq, Hd.
Qed.

Lemma listing_lookup t D :
  wf_tree t → D ≠ [] → t !! D = None →
  (∀ r, put_all D t W !! (D ++ r) = h !! (s ++ r)) ∧
  (∀ p, ¬ below D p → put_all D t W !! p = t !! p).
Proof using Hh Hn.
  intros Hwf HD HtD.
  assert (∀ p, _) as Hput by exact (λ p, put_all_lookup D t W p (NoDup_walk_list _ _ _ _ _)). split.
  - intros r. destruct (Hput (D ++ r)) as [H1 H2]. destruct (h !! (s ++ r)) as [m|] eqn:E.
    + eapply H1; [|done]. by apply listing_mem.
    + rewrite H2; [by apply fresh_below|]. intros q m Hin%listing_mem ->%app_inv_head. congruence.
  - intros p Hp. apply Hput. intros q m _ ->. apply Hp. by eexists.
Qed.

End roundtrip.

(** The reader of what [Tar] wrote, entry by entry. *)
Lemma tw_reader_entries (f : loc * node → Header * list byte) es tf :
  tr_entries (tw_reader (MkTarWriter (f <$> es) tf)) = (λ e, complete (f e)) <$> es.
Proof.
  unfold tw_reader. cbn [tr_entries tw_entries]. rewrite <- list_fmap_compose.
  apply list_fmap_ext. intros i e _. unfold complete. cbn. by destruct (f e).
Qed.

Lemma TrimPrefix_empty x : TrimPrefix x "" = x.
Proof. apply (TrimPrefix_app "" x). Qed.

(** How [Untar] names the entries of a listing, in each of its cases. *)
Lemma unpack_inside d b r :
  Forall good_name d → good_name b → Forall good_name r →
  PathJoin (abs_path d) (TrimPrefix (rel_path (b :: r)) "") = abs_path ((d ++ [b]) ++ r).
Proof.
  intros Hd Hb Hr. rewrite TrimPrefix_empty, PathJoin_rel, <- app_assoc; [done..|]. by constructor.
Qed.

Lemma unpack_as d b r :
  Forall good_name d → Forall good_name r → r ≠ [] →
  PathJoin (abs_path d) (TrimPrefix (rel_path (b :: r)) (rel_path [b])) = abs_path (d ++ r).
Proof.
  intros Hd Hr Hne. change (b :: r) with ([b] ++ r). rewrite (rel_path_app [b] r) by done.
  rewrite TrimPrefix_app.
  change ("/" +:+ rel_path r) with (abs_path r). rewrite PathJoin_good; rewrite ?names_abs_path; done.
Qed.

(** The first entry of a listing goes to the target, and the names of the others lead there. *)
Lemma Untar_root_target fs d b n :
  wf_tree (tree fs) → Forall good_name d → plain_below d (tree fs) → good_name b → plain_node n →
  let D := target (tree fs) d b in
  tree fs !! D = None → look (tree fs) (parent D) = Some NDir → D ≠ [] →
  ∃ root rr,
    Untar_root no_refusal fs (abs_path d) (plain_entry (rel_path [b]) n).1 =
      (fs, inr (abs_path D, root, rr)) ∧
    (n = NDir → ∀ r, Forall good_name r → r ≠ [] →
       PathJoin root (TrimPrefix (rel_path (b :: r)) rr) = abs_path (D ++ r)).
Proof.
  intros Hwf Hd Hpl Hb Hn D HD Hp HDne. unfold Untar_root, Stat.
  assert (linkfree (tree fs) d) as Hld by by apply Hpl.
  unfold D, target in *. destruct (look (tree fs) d) as [nd|] eqn:E.
  - destruct nd as [x| |g]; [exfalso| |exfalso].
    1, 3: rewrite look_ne in E by done; congruence.
    rewrite (stat_some fs d Hwf Hd Hld true NDir E).
    exists (abs_path d), "". split.
    + rewrite <- (PathJoin_rel d [b]) by (done || by apply Forall_singleton).
      destruct n as [x| |g]; [done|done|by destruct (Hn g)].
    + intros _ r Hr _. by apply unpack_inside.
  - rewrite (stat_none fs d Hwf Hd Hld true HDne HD Hp).
    destruct n as [x| |g]; [| |by destruct (Hn g)]; cbn.
    + exists (abs_path (parent d)), "". rewrite Dir_parent by done. split; [|done].
      unfold MkdirAll. rewrite MkdirAll_exists; [done|done|by apply good_parent| |done].
      eapply linkfree_prefix; [apply parent_prefix|done].
    + exists (abs_path d), (rel_path [b]). split; [done|]. intros _ r Hr Hne. by apply unpack_as.
Qed.

(** [Untar] lays the listing of a tree out at its target. *)
Lemma Untar_listing h s0 b n fs d :
  wf_tree h → plain_below (s0 ++ [b]) h → h !! (s0 ++ [b]) = Some n →
  wf_tree (tree fs) → Forall good_name d → plain_below d (tree fs) →
  let D := target (tree fs) d b in
  let W := walk_list (S (size h)) h (s0 ++ [b]) [] n in
  tree fs !! D = None → look (tree fs) (parent D) = Some NDir → D ≠ [] →
  Untar no_refusal fs
    (MkTarReader ((λ e, complete (plain_entry (rel_path (b :: e.1)) e.2)) <$> W) EOF) (abs_path d) =
  (set_tree fs (put_all D (tree fs) W), None).
Proof.
  intros Hh Hhl Hn Hwf Hd Hpl D W HD HpD HDne.
  pose proof (Hh _ _ Hn) as (_ & [Hgs [Hb _]%Forall_cons_1]%Forall_app & _).
  assert (∀ r m, (r, m) ∈ W → plain_node m ∧ Forall good_name r) as HgW by by apply listing_plain.
  assert (layable D (tree fs) W) as Hlay.
  { apply listing_layable; try done.
    - unfold D, target. repeat case_match; try done. apply Forall_app; split; [done|]. by apply Forall_singleton.
    - intros q. apply Hpl. unfold D, target, below. repeat case_match; rewrite <- ?app_assoc; by eexists. }
  pose proof (NoDup_walk_list (S (size h)) h (s0 ++ [b]) [] n : NoDup W.*1) as Hnd.
  assert (∃ rest, W = ([], n) :: rest ∧ (n ≠ NDir → rest = [])) as (rest & HW & Hrest).
  { eexists. split; [done|]. by destruct n. }
  rewrite HW in *. rewrite fmap_cons in Hnd. apply list.NoDup_cons in Hnd as [Hnil _].
  destruct (HgW [] n) as [Hpn _]; [apply list_elem_of_here|].
  destruct (Untar_root_target fs d b n) as (root & rr & Hroot & Hnames); try done.
  unfold Untar. rewrite fmap_cons. cbn [Next tr_entries tr_end complete fst snd]. rewrite Hroot.
  pose proof (Untar_loop_lays fs D (λ r, rel_path (b :: r)) root rr [] n rest Hwf Hlay) as H.
  rewrite app_nil_r in H. apply H. clear H.
  intros r Hr. destruct (decide (n = NDir)) as [En|En].
  - apply Hnames; [done| |by intros ->].
    apply list_elem_of_fmap in Hr as ([r' m] & -> & Hin).
    by apply (HgW r' m), list_elem_of_further.
  - rewrite (Hrest En) in Hr. by apply not_elem_of_nil in Hr.
Qed.

(** Both together. *)
Lemma tar_untar_tree host s0 b n dev d :
  wf_tree (tree host) → plain_below (s0 ++ [b]) (tree host) → tree host !! (s0 ++ [b]) = Some n →
  wf_tree (tree dev) → Forall good_name d → plain_below d (tree dev) →
  let D := target (tree dev) d b in
  tree dev !! D = None → look (tree dev) (parent D) = Some NDir → D ≠ [] →
  let tw := MkTarWriter ((λ e, plain_entry (rel_path (b :: e.1)) e.2) <$>
     walk_list (S (size (tree host))) (tree host) (s0 ++ [b]) [] n) None in
  ∃ dev',
    Tar no_refusal host (MkTarWriter [] None) (abs_path (s0 ++ [b])) = (tw, None) ∧
    Untar no_refusal dev (tw_reader tw) (abs_path d) = (dev', None) ∧
    (∀ r, tree dev' !! (D ++ r) = tree host !! ((s0 ++ [b]) ++ r)) ∧
    (∀ p, ¬ below D p → tree dev' !! p = tree dev !! p).
Proof.
  intros Hh Hhl Hn Hwf Hd Hpl D HD HpD HDne tw.
  eexists. split; [by apply Tar_lists|]. split.
  - pose proof (Untar_listing (tree host) s0 b n dev d Hh Hhl Hn Hwf Hd Hpl HD HpD HDne) as H.
    rewrite <- H. f_equal. unfold tw_reader. f_equal. apply (tw_reader_entries _ _ None).
  - cbn [tree set_tree]. by apply listing_lookup.
Qed.

Lemma TarBytes_writes bytes :
  TarBytes (MkTarWriter [] None) bytes = (MkTarWriter [plain_entry "bytefile" (NFile bytes)] None, None).
Proof. unfold TarBytes. rewrite WriteHeader_ready by done. by rewrite tw_Write_last. Qed.

Lemma UntarBytes_single h bytes dst :
  hTypeflag h = TypeReg → quota dst = None →
  UntarBytes dst (tw_reader (MkTarWriter [(h, bytes)] None)) = (MkSink (taken dst ++ bytes) None, None).
Proof. intros Ht Hq. unfold UntarBytes. cbn. rewrite Ht. by rewrite sink_write_healthy. Qed.

Lemma Untar_bytefile bytes fs d :
  wf_tree (tree fs) → Forall good_name d → plain_below d (tree fs) →
  let D := target (tree fs) d "bytefile" in
  tree fs !! D = None → look (tree fs) (parent D) = Some NDir → D ≠ [] →
  Untar no_refusal fs (tw_reader (MkTarWriter [plain_entry "bytefile" (NFile bytes)] None)) (abs_path d) =
  (set_tree fs (<[D := NFile bytes]> (tree fs)), None).
Proof.
  intros Hwf Hd Hpl D HD HpD HDne.
  destruct (Untar_root_target fs d "bytefile" (NFile bytes)) as (root & rr & Hroot & _); try done.
  unfold Untar. cbn [tw_reader tw_entries fmap list_fmap Next tr_entries tr_end plain_entry].
  change (MkHeader TypeReg "bytefile" "" (len bytes))
    with (plain_entry (rel_path ["bytefile"]) (NFile bytes)).1.
  rewrite Hroot. cbn [Untar_loop].
  assert (Forall good_name D) as HgD.
  { unfold D, target. repeat case_match; try done. apply Forall_app; split; [done|].
    by apply Forall_singleton. }
  assert (linkfree (tree fs) D) as HlD.
  { apply Hpl. unfold D, target, below. repeat case_match; try done; by eexists. }
  pose proof (Untar_entry_fresh fs D (NFile bytes) "bytefile" Hwf HDne HgD HlD HD HpD) as H.
  cbn zeta in H. cbn [complete plain_entry fst snd] in H |- *.
  change (rel_path ["bytefile"]) with "bytefile". fold D. rewrite H by (by intros g).
  by rewrite decide_True.
Qed.

(** ** Properties *)

(** Packing a tree of files and directories with [Tar] and unpacking the archive with [Untar]
    reproduces it: at the destination when that is free, inside it when it is a directory;
    every file has its contents, nothing is added, and nothing else on the receiving side
    changes. *)
Theorem tar_untar_roundtrip host s0 b n dev d :
  wf_tree (tree host) → plain_below (s0 ++ [b]) (tree host) → tree host !! (s0 ++ [b]) = Some n →
  wf_tree (tree dev) → Forall good_name d → plain_below d (tree dev) →
  let D := target (tree dev) d b in
  tree dev !! D = None → look (tree dev) (parent D) = Some NDir → D ≠ [] →
  ∃ tw dev',
    Tar no_refusal host (MkTarWriter [] None) (abs_path (s0 ++ [b])) = (tw, None) ∧
    Untar no_refusal dev (tw_reader tw) (abs_path d) = (dev', None) ∧
    (∀ r, tree dev' !! (D ++ r) = tree host !! ((s0 ++ [b]) ++ r)) ∧
    (∀ p, ¬ below D p → tree dev' !! p = tree dev !! p).
Proof.
  intros Hh Hhl Hn Hwf Hd Hpl D HD HpD HDne.
  destruct (tar_untar_tree host s0 b n dev d) as (dev' & H); try done. by eexists _, dev'.
Qed.

(** A tree to send: a directory with a file, an empty directory and a hidden file in a third. *)
Definition demo_host : FS :=
  MkFS (list_to_map [(["h"], NDir); (["h"; "zoo"], NDir); (["h"; "zoo"; "a"], NFile ["a"%char]);
                     (["h"; "zoo"; "bar"], NDir); (["h"; "zoo"; "baz"], NDir);
                     (["h"; "zoo"; "baz"; ".d"], NFile [])]) ["h"].

Lemma tar_untar_roundtrip_witness :
  ∃ dev', Untar no_refusal demo_fs
      (tw_reader (fst (Tar no_refusal demo_host (MkTarWriter [] None) "/h/zoo"))) "/data/new" = (dev', None) ∧
    tree dev' !! ["data"; "new"; "baz"; ".d"] = Some (NFile []) ∧
    tree dev' !! ["data"; "app"; "old"] = Some (NFile ["o"%char]).
Proof.
  destruct (tar_untar_roundtrip demo_host ["h"] "zoo" NDir demo_fs ["data"; "new"])
    as (tw & dev' & HT & HU & Hin & Hout);
    try (by apply (bool_decide_unpack _); vm_compute);
    try (by apply no_links_plain, (bool_decide_unpack _); vm_compute).
  exists dev'. change "/h/zoo" with (abs_path ["h"; "zoo"]). cbn [app] in HT. rewrite HT. split; [exact HU|]. split.
  - exact (Hin ["baz"; ".d"]).
  - rewrite Hout; [vm_compute; reflexivity|]. apply (bool_decide_unpack _). vm_compute. done.
Defined.

(** Bytes packed as a single logical file come back from [UntarBytes] as they were, and
    unpacked with [Untar] they become the destination file, or a file called [bytefile] when the
    destination is a directory. *)
Theorem tar_bytes_roundtrip bytes dst fs d :
  quota dst = None →
  wf_tree (tree fs) → Forall good_name d → plain_below d (tree fs) →
  let D := target (tree fs) d "bytefile" in
  tree fs !! D = None → look (tree fs) (parent D) = Some NDir → D ≠ [] →
  ∃ tw, TarBytes (MkTarWriter [] None) bytes = (tw, None) ∧
    UntarBytes dst (tw_reader tw) = (MkSink (taken dst ++ bytes) None, None) ∧
    Untar no_refusal fs (tw_reader tw) (abs_path d) =
      (set_tree fs (<[D := NFile bytes]> (tree fs)), None).
Proof.
  intros Hq Hwf Hd Hpl D HD HpD HDne. eexists. split; [apply TarBytes_writes|].
  split; [by apply UntarBytes_single | by apply Untar_bytefile].
Qed.

Lemma tar_bytes_roundtrip_witness : ∃ tw,
  TarBytes (MkTarWriter [] None) ["x"%char] = (tw, None) ∧
  Untar no_refusal demo_fs (tw_reader tw) "/data/app" =
    (set_tree demo_fs (<[["data"; "app"; "bytefile"] := NFile ["x"%char]]> (tree demo_fs)), None).
Proof.
  destruct (tar_bytes_roundtrip ["x"%char] (MkSink [] None) demo_fs ["data"; "app"])
    as (tw & HT & _ & HU); try done;
    try (by apply (bool_decide_unpack _); vm_compute);
    try (by apply no_links_plain, (bool_decide_unpack _); vm_compute).
  exists tw. split; [exact HT|exact HU].
Defined.

(** Sending the working directory to a new place: the name of its first entry is a dot, and the
    dot that starts the name of a hidden file is cut off with it. *)
Example tar_dot_renames_hidden :
  let host := MkFS (tree demo_host) ["h"; "zoo"; "baz"] in
  (tree (fst (Untar no_refusal demo_fs
     (tw_reader (fst (Tar no_refusal host (MkTarWriter [] None) "."))) "/data/new")))
    !! ["data"; "new"; "d"] = Some (NFile []).
Proof. vm_compute. reflexivity. Qed.

(** A link to a file whose path merely starts with the text of the source is sent as a link,
    not as the file; links are sent with the path they have on the sending side. *)
Example tar_links :
  let host := MkFS (<[["h"; "zoo2"] := NFile ["z"%char]]>
    (<[["h"; "zoo"; "l"] := NLink "../zoo2"]> (<[["h"; "zoo"; "m"] := NLink "a"]> (tree demo_host)))) [] in
  let es := tw_entries (fst (Tar no_refusal host (MkTarWriter [] None) "/h/zoo")) in
  (MkHeader TypeSymlink "zoo/l" "/h/zoo2" 0, []) ∈ es ∧
  (MkHeader TypeSymlink "zoo/m" "/h/zoo/a" 0, []) ∈ es.
Proof.
  cbn zeta. split; apply list_elem_of_lookup; [exists 5%nat | exists 6%nat]; vm_compute; reflexivity.
Qed.
