(* ===== verification/QemuConn.v ===== *)
(** * The framed connection: [Conn] of src/waterfall/golang/net/qemu/qemu.go

    Every [Write] sends one frame, a 32-bit little-endian size and the payload; a
    frame of size 0 ends the stream.  [Read] hands out the payload of one frame at a
    time, [left] bytes of it still to come.  Reads and writes run under separate
    locks and touch disjoint fields, so a run of concurrent reads
    and writes is a sequence of whole operations ([Close] has several parts, which wait for
    the locks: [ConnLocks]); [closeConn] is the goroutine [Accept] starts on every
    connection. *)

From S2P Require Import Prelude GoStrings GoIO.

Local Open Scope Z_scope.

(** ** State *)

Definition ioErrMsg : string := "input/output error".
Definition buffSize : Z := Z.shiftl 1 16.
Definition errClosed : error := ErrorString "error connection closed".

(** [readsCloseChan] and [writesCloseChan] hold whether the channel is closed (nothing
    is ever sent on them); [connCloses] counts the calls of [q.Conn.Close()]. *)
Record Conn := MkConn {
  wb : Writer;
  rb : source;
  left : Z;
  closedReads : bool;
  closedWrites : bool;
  closed : bool;
  readsCloseChan : bool;
  writesCloseChan : bool;
  connCloses : Z;
}.

Definition set_wb q v := MkConn v (rb q) (left q) (closedReads q) (closedWrites q) (closed q)
  (readsCloseChan q) (writesCloseChan q) (connCloses q).
Definition set_rb q v := MkConn (wb q) v (left q) (closedReads q) (closedWrites q) (closed q)
  (readsCloseChan q) (writesCloseChan q) (connCloses q).
Definition set_left q v := MkConn (wb q) (rb q) v (closedReads q) (closedWrites q) (closed q)
  (readsCloseChan q) (writesCloseChan q) (connCloses q).
Definition set_closedReads q v := MkConn (wb q) (rb q) (left q) v (closedWrites q) (closed q)
  (readsCloseChan q) (writesCloseChan q) (connCloses q).
Definition set_closedWrites q v := MkConn (wb q) (rb q) (left q) (closedReads q) v (closed q)
  (readsCloseChan q) (writesCloseChan q) (connCloses q).
Definition set_closed q v := MkConn (wb q) (rb q) (left q) (closedReads q) (closedWrites q) v
  (readsCloseChan q) (writesCloseChan q) (connCloses q).
Definition set_readsCloseChan q v := MkConn (wb q) (rb q) (left q) (closedReads q) (closedWrites q)
  (closed q) v (writesCloseChan q) (connCloses q).
Definition set_writesCloseChan q v := MkConn (wb q) (rb q) (left q) (closedReads q) (closedWrites q)
  (closed q) (readsCloseChan q) v (connCloses q).
Definition set_connCloses q v := MkConn (wb q) (rb q) (left q) (closedReads q) (closedWrites q)
  (closed q) (readsCloseChan q) (writesCloseChan q) v.

(** [makeConn(conn)]; the embedded connection is its two ends. *)
Definition makeConn (inp : source) (out : sink) : Conn :=
  MkConn (NewWriterSize out buffSize) inp 0 false false false false false 0.

(** ** Reading *)

(** [q.read(b)] with [len(b) = blen]; [w] is the width of [int].  The result is the
    filled part of [b] and the error. *)
Definition read (w : Z) (q : Conn) (blen : Z) : Conn * outcome (list byte * option error) :=
  if closedReads q then (q, Ret ([], Some errClosed)) else
  let toRead := if decide (left q > blen) then blen else left q in
  if decide (toRead > 0) then
    match ReadFull (rb q) toRead with
    | (r, Ret (bs, None)) => (set_left (set_rb q r) (left q - len bs), Ret (bs, None))
    | (r, Ret (bs, Some err)) => (set_rb q r, Ret (bs, Some err))
    | (r, Panic) => (set_rb q r, Panic)
    | (r, Block) => (set_rb q r, Block)
    end
  else
    match read_uint32 (rb q) with
    | (r, Ret (_, Some err)) => (set_rb q r, Ret ([], Some err))
    | (r, Ret (recd, None)) =>
        if decide (recd = 0) then (set_rb q r, Ret ([], Some EOF)) else
        let toRead := to_int w recd in
        let toRead := if decide (toRead > blen) then blen else toRead in
        if decide (toRead < 0) then (set_rb q r, Panic) else
        match ReadFull r toRead with
        | (r', Ret (bs, None)) =>
            (set_left (set_rb q r') (to_int w recd - toRead), Ret (bs, None))
        | (r', Ret (bs, Some err)) => (set_rb q r', Ret (bs, Some err))
        | (r', Panic) => (set_rb q r', Panic)
        | (r', Block) => (set_rb q r', Block)
        end
    | (r, Panic) => (set_rb q r, Panic)
    | (r, Block) => (set_rb q r, Block)
    end.

(** [q.Read(b)]: an EIO of the driver is the end of the stream. *)
Definition Read (w : Z) (q : Conn) (blen : Z) : Conn * outcome (list byte * option error) :=
  match read w q blen with
  | (q', Ret (bs, Some err)) =>
      if Contains (Error err) ioErrMsg then (q', Ret (bs, Some EOF))
      else (q', Ret (bs, Some err))
  | r => r
  end.

(** ** Writing *)

Definition uint32 (z : Z) : Z := to_uint 32 z.

(** [q.Write(b)] *)
Definition Write (q : Conn) (b : list byte) : Conn * (Z * option error) :=
  if closedWrites q then (q, (0, Some errClosed)) else
  match GoIO.Write (wb q) (put_uint32 (uint32 (len b))) with
  | (wb1, (_, Some err)) => (set_wb q wb1, (0, Some err))
  | (wb1, (_, None)) =>
      match GoIO.Write wb1 b with
      | (wb2, (n, Some err)) => (set_wb q wb2, (n, Some err))
      | (wb2, (n, None)) => let '(wb3, err) := Flush wb2 in (set_wb q wb3, (n, err))
      end
  end.

(** [q.sendClose()] *)
Definition sendClose (q : Conn) : Conn * option error :=
  match GoIO.Write (wb q) (put_uint32 (uint32 0)) with
  | (wb1, (_, Some err)) => (set_wb q wb1, Some err)
  | (wb1, (_, None)) =>
      match GoIO.Write wb1 [] with
      | (wb2, (_, Some err)) => (set_wb q wb2, Some err)
      | (wb2, (_, None)) => let '(wb3, err) := Flush wb2 in (set_wb q wb3, err)
      end
  end.

(** ** Closing *)

(** [q.CloseRead()]; closing a closed channel panics. *)
Definition CloseRead (q : Conn) : Conn * outcome (option error) :=
  if closedReads q then (q, Ret (Some errClosed)) else
  let q := set_closedReads q true in
  if readsCloseChan q then (q, Panic) else (set_readsCloseChan q true, Ret None).

(** [q.CloseWrite()] *)
Definition CloseWrite (q : Conn) : Conn * outcome (option error) :=
  if closedWrites q then (q, Ret (Some errClosed)) else
  let q := set_closedWrites q true in
  let '(q, err) := sendClose q in
  if writesCloseChan q then (q, Panic) else (set_writesCloseChan q true, Ret err).

(** [q.Close()]: the errors of the two halves and of the underlying connection are
    dropped. *)
Definition Close (q : Conn) : Conn * outcome (option error) :=
  if closed q then (q, Ret (Some errClosed)) else
  let q := set_closed q true in
  match CloseWrite q with
  | (q, Ret _) =>
      match CloseRead q with
      | (q, Ret _) => (set_connCloses q (connCloses q + 1), Ret None)
      | r => r
      end
  | r => r
  end.

(** [q.closeConn()]: waits until both channels are closed, then closes the
    underlying connection. *)
Definition closeConn (q : Conn) : outcome Conn :=
  if readsCloseChan q && writesCloseChan q
  then Ret (set_connCloses q (connCloses q + 1)) else Block.

(** ** Sequences of operations *)

Inductive op :=
| OpRead (blen : Z)
| OpWrite (b : list byte)
| OpCloseRead
| OpCloseWrite
| OpClose.

(** One operation; its result is dropped, a panic or a wait is not. *)
Definition run_op (w : Z) (q : Conn) (o : op) : outcome Conn :=
  match o with
  | OpRead blen => match Read w q blen with (q', Ret _) => Ret q' | (_, Panic) => Panic | (_, Block) => Block end
  | OpWrite b => Ret (fst (Write q b))
  | OpCloseRead => match CloseRead q with (q', Ret _) => Ret q' | (_, Panic) => Panic | (_, Block) => Block end
  | OpCloseWrite => match CloseWrite q with (q', Ret _) => Ret q' | (_, Panic) => Panic | (_, Block) => Block end
  | OpClose => match Close q with (q', Ret _) => Ret q' | (_, Panic) => Panic | (_, Block) => Block end
  end.

Fixpoint run_ops (w : Z) (q : Conn) (os : list op) : outcome Conn :=
  match os with
  | [] => Ret q
  | o :: os => obind (run_op w q o) (λ q', run_ops w q' os)
  end.

(** ** Frames *)

Definition frame (p : list byte) : list byte := put_uint32 (uint32 (len p)) ++ p.
Definition eof_frame : list byte := put_uint32 (uint32 0).
Definition wire (ps : list (list byte)) : list byte := concat (map frame ps).

(** A payload one frame can announce on an [int] of [w] bits, and which does not
    read as the end of the stream. *)
Definition payload_ok (w : Z) (p : list byte) : Prop := 0 < len p < 2 ^ Z.min 32 (w - 1).

(** Write a list of payloads. *)
Definition write_all (q : Conn) (ps : list (list byte)) : Conn :=
  foldl (λ q p, fst (Write q p)) q ps.

(** Read with buffers of the sizes [ns], one after the other, until an error. *)
Fixpoint drain (w : Z) (q : Conn) (ns : list Z) : outcome (list byte * option error) :=
  match ns with
  | [] => Ret ([], None)
  | n :: ns =>
      match Read w q n with
      | (_, Ret (bs, Some err)) => Ret (bs, Some err)
      | (q', Ret (bs, None)) =>
          obind (drain w q' ns) (λ '(rest, err), Ret (bs ++ rest, err))
      | (_, Panic) => Panic
      | (_, Block) => Block
      end
  end.

(** ** Abstract specification: a queue of messages *)

(** Reading up to [n] bytes of the first message; the end of the queue is the end of
    the stream. *)
Definition spec_read (msgs : list (list byte)) (n : Z)
    : list (list byte) * (list byte * option error) :=
  match msgs with
  | [] => ([], ([], Some EOF))
  | m :: rest =>
      if decide (len m ≤ n) then (rest, (m, None))
      else (drop (Z.to_nat n) m :: rest, (take (Z.to_nat n) m, None))
  end.

(** The connection holds [msgs]: the rest of the current frame, then whole frames,
    then the closing frame. *)
Definition holds (w : Z) (q : Conn) (msgs : list (list byte)) : Prop :=
  closedReads q = false ∧ Forall (payload_ok w) msgs ∧
  ∃ tl, if decide (left q = 0)
        then avail (rb q) = wire msgs ++ eof_frame ++ tl
        else ∃ m rest, msgs = m :: rest ∧ left q = len m ∧
             avail (rb q) = m ++ wire rest ++ eof_frame ++ tl.

(** ** Invariant *)

Record wf (q : Conn) : Prop := {
  wf_reads : readsCloseChan q = closedReads q;
  wf_writes : writesCloseChan q = closedWrites q;
  wf_closed : closed q = true → closedReads q = true ∧ closedWrites q = true;
  wf_left : 0 ≤ left q;
  wf_quota : quota_ok (wb q);
  wf_buffered : werr (wb q) = None → buffered (wb q) = [];
}.

Lemma wf_makeConn inp out :
  (∀ k e, quota out = Some (k, e) → 0 ≤ k) → wf (makeConn inp out).
Proof. intros H. split; cbn; done || lia || idtac. Qed.

(** Every way [read] can end, on a connection open for reads. *)
Lemma ReadFull_cases r n :
  0 ≤ n →
  (ReadFull r n = (r, Block) ∧ fin r = None) ∨
  (∃ r' bs err, ReadFull r n = (r', Ret (bs, err)) ∧ len bs ≤ n ∧ (err = None → len bs = n)).
Proof.
  intros Hn. unfold ReadFull. case_decide.
  - right. eexists _, _, _. split; [done|]. rewrite len_take; [lia|done].
  - destruct (fin r) as [e|] eqn:E; [right|by left].
    eexists _, _, _. split; [done|]. split; [lia|done].
Qed.

Lemma read_uint32_cases r :
  (read_uint32 r = (r, Block) ∧ fin r = None) ∨
  (∃ r' v err, read_uint32 r = (r', Ret (v, err)) ∧ 0 ≤ v < 2 ^ 32).
Proof.
  unfold read_uint32. destruct (ReadFull_cases r 4) as [[-> ?] | (r' & bs & err & -> & _)]; [lia|by left|].
  right. destruct err; eexists _, _, _; (split; [done|]); [lia|apply get_uint32_bound].
Qed.

(** [read] only advances the input and [left], which stays non-negative; it panics
    only when a frame announces a size that is negative as an [int]. *)
Lemma read_effect w q n q' o :
  0 ≤ n → 0 ≤ left q → read w q n = (q', o) →
  ∃ r l, q' = set_left (set_rb q r) l ∧ 0 ≤ l ∧
    (o = Panic → ∃ v, 0 ≤ v < 2 ^ 32 ∧ to_int w v < 0).
Proof.
  intros Hn Hl. unfold read.
  assert (∀ r, set_rb q r = set_left (set_rb q r) (left q)) as Hself by (by destruct q).
  destruct (closedReads q).
  { intros [= <- <-]. exists (rb q), (left q). by destruct q. }
  set (k := if decide (left q > n) then n else left q).
  assert (0 ≤ k ≤ left q) as Hk by (unfold k; case_decide; lia).
  case_decide.
  - destruct (ReadFull_cases (rb q) k) as [[-> _] | (r & bs & err & -> & Hb & _)]; [lia| |].
    { intros [= <- <-]. eexists _, _; split; [apply Hself|done]. }
    destruct err; intros [= <- <-]; eexists _, _; (split; [done || apply Hself|]); [done|].
    split; [lia|done].
  - destruct (read_uint32_cases (rb q)) as [[-> _] | (r & v & err & -> & Hv)].
    { intros [= <- <-]. eexists _, _; split; [apply Hself|done]. }
    destruct err as [e|].
    { intros [= <- <-]. eexists _, _; split; [apply Hself|done]. }
    case_decide.
    { intros [= <- <-]. eexists _, _; split; [apply Hself|done]. }
    set (t := if decide (to_int w v > n) then n else to_int w v).
    assert (t ≤ to_int w v) by (unfold t; case_decide; lia).
    case_decide as Ht.
    { intros [= <- <-]. eexists _, _; split; [apply Hself|]. split; [done|].
      intros _. exists v. split; [done|]. revert Ht. unfold t. case_decide; lia. }
    destruct (ReadFull_cases r t) as [[-> _] | (r' & bs & err & -> & _)]; [lia| |].
    { intros [= <- <-]. eexists _, _; split; [apply Hself|done]. }
    destruct err; intros [= <- <-]; eexists _, _; (split; [done || apply Hself|]); [done|].
    split; [lia|done].
Qed.

Lemma Read_read w q n :
  fst (Read w q n) = fst (read w q n) ∧ (snd (Read w q n) = Panic ↔ snd (read w q n) = Panic).
Proof.
  unfold Read. destruct (read w q n) as [q' [[bs [e|]]| |]]; [|done..].
  by destruct (Contains _ _).
Qed.

Lemma wf_set_input q r l : wf q → 0 ≤ l → wf (set_left (set_rb q r) l).
Proof. intros [] Hl. by split. Qed.

Lemma Read_wf w q n : 0 ≤ n → wf q → wf (fst (Read w q n)).
Proof.
  intros Hn Hq. destruct (Read_read w q n) as [-> _].
  destruct (read w q n) as [q' o] eqn:E.
  apply read_effect in E as (r & l & -> & Hl & _); [|done|apply wf_left, Hq].
  by apply wf_set_input.
Qed.

Lemma Read_no_panic w q n :
  IntWidth w → 32 < w → 0 ≤ n → wf q → snd (Read w q n) ≠ Panic.
Proof.
  intros Hw Hw' Hn Hq HP. destruct (Read_read w q n) as [_ HPP]. apply HPP in HP.
  destruct (read w q n) as [q' o] eqn:E.
  apply read_effect in E as (r & l & _ & _ & H); [|done|apply wf_left, Hq].
  destruct (H HP) as (v & Hv & Hneg). destruct Hw as [->| ->]; [lia|].
  rewrite to_int_small in Hneg; [lia|by right|]. change (2 ^ (64 - 1)) with (2 ^ 31 * 2 ^ 32). lia.
Qed.

(** *** Writes *)

Definition wf_writer (b : Writer) : Prop :=
  quota_ok b ∧ (werr b = None → buffered b = []).

(** A write of a list of chunks through the buffer, ended by a flush: what [Write]
    and [sendClose] do. *)
Lemma Write_wb q b :
  wf_writer (wb q) → closedWrites q = false →
  ∃ b' x y, fst (Write q b) = set_wb q b' ∧ wf_writer b' ∧ snd (snd (Write q b)) = werr b' ∧
    frame b = x ++ y ∧ wlog b' = wlog (wb q) ++ x ∧ (werr b' = None → y = []).
Proof.
  intros [Hq Hb] Hc. unfold Write. rewrite Hc.
  destruct (GoIO.Write (wb q) _) as [b1 [n1 e1]] eqn:E1.
  apply Write_prefix in E1 as (Hq1 & He1 & x1 & y1 & Hx1 & Hl1 & Hn1); [|done].
  destruct e1 as [e|].
  { exists b1, x1, (y1 ++ b). cbn [fst snd]. rewrite He1. repeat split; try done; [by rewrite He1|].
    unfold frame. by rewrite Hx1, app_assoc. }
  destruct (GoIO.Write b1 b) as [b2 [n2 e2]] eqn:E2.
  apply Write_prefix in E2 as (Hq2 & He2 & x2 & y2 & Hx2 & Hl2 & Hn2); [|done].
  rewrite (Hn1 eq_refl), app_nil_r in Hx1. subst x1.
  assert (frame b = (put_uint32 (uint32 (len b)) ++ x2) ++ y2) as Hf
    by (unfold frame; by rewrite <- app_assoc, <- Hx2).
  destruct e2 as [e|].
  { exists b2, (put_uint32 (uint32 (len b)) ++ x2), y2. cbn [fst snd]. rewrite He2.
    repeat split; try done; [by rewrite He2|]. by rewrite Hl2, Hl1, app_assoc. }
  destruct (Flush b2) as [b3 e3] eqn:E3.
  apply Flush_spec in E3 as (Hl3 & _ & He3 & Hq3 & Hb3); [|done].
  exists b3, (put_uint32 (uint32 (len b)) ++ x2), y2. cbn [fst snd]. rewrite He3.
  repeat split; try done.
  - by rewrite He3.
  - by rewrite Hl3, Hl2, Hl1, app_assoc.
  - intros _. by apply Hn2.
Qed.

(** [sendClose] is a [Write] of the empty payload. *)
Lemma sendClose_Write q :
  closedWrites q = false →
  sendClose q = (fst (Write q []), snd (snd (Write q []))).
Proof.
  intros Hc. unfold sendClose, Write. rewrite Hc. change (len []) with 0.
  destruct (GoIO.Write _ _) as [b1 [n1 [e|]]]; [done|].
  destruct (GoIO.Write b1 []) as [b2 [n2 [e|]]]; [done|]. by destruct (Flush b2).
Qed.

Lemma sendClose_set q c : sendClose (set_closedWrites q c) =
  (set_closedWrites (fst (sendClose q)) c, snd (sendClose q)).
Proof.
  unfold sendClose. cbn [wb set_closedWrites].
  destruct (GoIO.Write _ _) as [b1 [n1 [e|]]]; [done|].
  destruct (GoIO.Write b1 []) as [b2 [n2 [e|]]]; [done|]. by destruct (Flush b2).
Qed.

(** [CloseWrite] on an open connection: the closing frame goes out, the channel is
    closed, nothing else changes. *)
Lemma CloseWrite_open q :
  closedWrites q = false → writesCloseChan q = false → wf_writer (wb q) →
  ∃ b', CloseWrite q = (set_writesCloseChan (set_closedWrites (set_wb q b') true) true, Ret (werr b')) ∧
    fst (Write q []) = set_wb q b' ∧ wf_writer b'.
Proof.
  intros Hc Hch Hw. destruct (Write_wb q [] Hw Hc) as (b' & x & y & E & Hw' & He & _).
  exists b'. split; [|done]. unfold CloseWrite. rewrite Hc, sendClose_set, sendClose_Write by done.
  cbn [fst snd]. rewrite He, E. cbn. by rewrite Hch.
Qed.

Lemma wf_wf_writer q : wf q → wf_writer (wb q).
Proof. intros []. by split. Qed.

Lemma Write_wf q b : wf q → wf (fst (Write q b)).
Proof.
  intros Hq. destruct (closedWrites q) eqn:Hc.
  { unfold Write. by rewrite Hc. }
  destruct (Write_wb q b (wf_wf_writer q Hq) Hc) as (b' & x & y & -> & [] & _).
  destruct Hq. by split.
Qed.

Lemma CloseRead_wf q : wf q → ∃ q' e, CloseRead q = (q', Ret e) ∧ wf q' ∧ closedReads q' = true ∧
  closedWrites q' = closedWrites q ∧ writesCloseChan q' = writesCloseChan q.
Proof.
  intros Hq. unfold CloseRead. destruct (closedReads q) eqn:Hc; [by eauto 10|].
  destruct Hq as [Hr ??? ? ?]. cbn. rewrite Hr, Hc. eexists _, _. split; [done|].
  split; [|done]. split; cbn; try done. naive_solver.
Qed.

Lemma CloseWrite_wf q : wf q → ∃ q' e, CloseWrite q = (q', Ret e) ∧ wf q' ∧ closedWrites q' = true.
Proof.
  intros Hq. destruct (closedWrites q) eqn:Hc.
  { unfold CloseWrite. rewrite Hc. eauto. }
  destruct (CloseWrite_open q Hc) as (b' & -> & _ & []);
    [by rewrite (wf_writes q Hq)|by apply wf_wf_writer|].
  eexists _, _. split; [done|]. split; [|done]. destruct Hq. split; cbn; try done. naive_solver.
Qed.

Lemma Close_wf q : wf q → ∃ q' e, Close q = (q', Ret e) ∧ wf q' ∧ closed q' = true.
Proof.
  intros Hq. unfold Close. destruct (closed q) eqn:Hc; [by eauto|].
  assert (CloseWrite (set_closed q true)
          = (set_closed (fst (CloseWrite q)) true, snd (CloseWrite q))) as ->.
  { unfold CloseWrite. cbn [closedWrites set_closed]. destruct (closedWrites q); [done|].
    unfold sendClose. cbn [wb set_closed set_closedWrites].
    destruct (GoIO.Write _ _) as [b1 [n1 [e|]]]; cbn; [by destruct (writesCloseChan q)|].
    destruct (GoIO.Write b1 []) as [b2 [n2 [e|]]]; cbn; [by destruct (writesCloseChan q)|].
    destruct (Flush b2); cbn. by destruct (writesCloseChan q). }
  destruct (CloseWrite_wf q Hq) as (q1 & e1 & -> & Hq1 & Hcw). cbn [fst snd].
  assert (CloseRead (set_closed q1 true)
          = (set_closed (fst (CloseRead q1)) true, snd (CloseRead q1))) as ->.
  { unfold CloseRead. cbn. destruct (closedReads q1); [done|]. by destruct (readsCloseChan q1). }
  destruct (CloseRead_wf q1 Hq1) as (q2 & e2 & -> & Hq2 & Hcr & Hw & _). cbn [fst snd].
  eexists _, _. split; [done|]. split; [|done].
  destruct Hq2. split; cbn; try done. rewrite Hw. auto.
Qed.

Lemma Close_connCloses q q' e :
  closed q = false → Close q = (q', Ret e) → e = None ∧ connCloses q' = connCloses q + 1.
Proof.
  intros Hc. unfold Close. rewrite Hc.
  unfold CloseWrite, sendClose, CloseRead. cbn.
  repeat (case_match; cbn; try discriminate); intros ?; simplify_eq/=; done.
Qed.

Lemma run_op_wf w q o q' :
  (∀ n, o = OpRead n → 0 ≤ n) → wf q → run_op w q o = Ret q' → wf q'.
Proof.
  intros Hn Hq. destruct o as [n|b| | |]; cbn [run_op].
  - pose proof (Read_wf w q n (Hn _ eq_refl) Hq) as H.
    destruct (Read w q n) as [q1 [r| |]]; intros ?; go_inv. done.
  - intros ?; go_inv. by apply Write_wf.
  - destruct (CloseRead_wf q Hq) as (q1 & e & -> & H & _). intros ?; go_inv. done.
  - destruct (CloseWrite_wf q Hq) as (q1 & e & -> & H & _). intros ?; go_inv. done.
  - destruct (Close_wf q Hq) as (q1 & e & -> & H & _). intros ?; go_inv. done.
Qed.

Lemma run_op_no_panic w q o :
  IntWidth w → 32 < w → (∀ n, o = OpRead n → 0 ≤ n) → wf q → run_op w q o ≠ Panic.
Proof.
  intros Hw Hw' Hn Hq. destruct o as [n|b| | |]; cbn [run_op].
  - pose proof (Read_no_panic w q n Hw Hw' (Hn _ eq_refl) Hq) as H.
    by destruct (Read w q n) as [q1 [r| |]].
  - done.
  - by destruct (CloseRead_wf q Hq) as (q1 & e & -> & _).
  - by destruct (CloseWrite_wf q Hq) as (q1 & e & -> & _).
  - by destruct (Close_wf q Hq) as (q1 & e & -> & _).
Qed.

Definition reads_ok (os : list op) : Prop := Forall (λ o, ∀ n, o = OpRead n → 0 ≤ n) os.

Lemma run_ops_wf w q os q' : reads_ok os → wf q → run_ops w q os = Ret q' → wf q'.
Proof.
  revert q. induction os as [|o os IH]; intros q Hos Hq; cbn; [intros; by go_inv|].
  apply Forall_cons_1 in Hos as [Ho Hos].
  destruct (run_op w q o) as [q1| |] eqn:E; cbn; [|done..].
  apply IH; [done|]. by eapply run_op_wf.
Qed.

Lemma run_ops_no_panic w q os :
  IntWidth w → 32 < w → reads_ok os → wf q → run_ops w q os ≠ Panic.
Proof.
  intros Hw Hw'. revert q. induction os as [|o os IH]; intros q Hos Hq; cbn; [done|].
  apply Forall_cons_1 in Hos as [Ho Hos].
  pose proof (run_op_no_panic w q o Hw Hw' Ho Hq).
  destruct (run_op w q o) as [q1| |] eqn:E; cbn; [|done..].
  apply IH; [done|]. by eapply run_op_wf.
Qed.

(** *** Frames written *)

Lemma Write_frame q p :
  closedWrites q = false → healthy (wb q) → buffered (wb q) = [] → 0 ≤ cap (wb q) →
  Write q p = (set_wb q (MkWriter [] None (cap (wb q)) (MkSink (taken (wr (wb q)) ++ frame p) None)),
               (len p, None)).
Proof.
  intros Hc Hh Hb Hcap. unfold Write. rewrite Hc.
  destruct (Write_healthy (wb q) (put_uint32 (uint32 (len p)))) as (b1 & -> & Hl1 & Hh1 & Hc1 & Hle1);
    [done|rewrite Hb; llia|].
  destruct (Write_healthy b1 p) as (b2 & -> & Hl2 & Hh2 & Hc2 & Hle2); [done..|].
  rewrite Flush_healthy by done. rewrite Hl2, Hl1, Hc2, Hc1. unfold wlog.
  rewrite Hb, app_nil_r, <- app_assoc. done.
Qed.

Lemma write_all_wire q ps :
  closedWrites q = false → healthy (wb q) → buffered (wb q) = [] → 0 ≤ cap (wb q) →
  write_all q ps =
  set_wb q (MkWriter [] None (cap (wb q)) (MkSink (taken (wr (wb q)) ++ wire ps) None)).
Proof.
  revert q. induction ps as [|p ps IH]; intros q Hc Hh Hb Hcap; cbn [write_all foldl].
  - unfold wire. cbn. rewrite app_nil_r. destruct Hh as [He Hq].
    destruct q as [[? ? ? [? ?]] ? ? ? ? ? ? ? ?]. cbn in *. by subst.
  - rewrite Write_frame by done. cbn [fst].
    change (foldl _ ?x ps) with (write_all x ps). rewrite IH by done. cbn.
    unfold wire. cbn [map concat]. by rewrite <- app_assoc.
Qed.

(** What the peer of a closed stream has been sent. *)
Lemma CloseWrite_wire q ps :
  closedWrites q = false → writesCloseChan q = false →
  healthy (wb q) → buffered (wb q) = [] → 0 ≤ cap (wb q) →
  taken (wr (wb (fst (CloseWrite (write_all q ps))))) = taken (wr (wb q)) ++ wire ps ++ eof_frame.
Proof.
  intros Hc Hch Hh Hb Hcap. rewrite write_all_wire by done.
  set (q1 := set_wb q _).
  destruct (CloseWrite_open q1) as (b' & -> & HW & _); [done|done|by split|].
  rewrite Write_frame in HW by done. cbn [fst] in HW.
  apply (f_equal wb) in HW. cbn [wb set_wb] in HW.
  cbn [fst wb set_wb set_closedWrites set_writesCloseChan]. rewrite <- HW. cbn [wr taken q1 wb set_wb].
  by rewrite <- app_assoc.
Qed.

(** *** Frames read *)

Lemma payload_ok_int w p :
  IntWidth w → payload_ok w p →
  uint32 (len p) = len p ∧ 0 ≤ uint32 (len p) < 2 ^ 32 ∧ to_int w (len p) = len p ∧ len p ≠ 0.
Proof.
  intros Hw [H1 H2].
  assert (len p < 2 ^ 32 ∧ len p < 2 ^ (w - 1)) as [H3 H4].
  { destruct Hw; subst w; change (Z.min 32 (32 - 1)) with 31 in *;
      change (Z.min 32 (64 - 1)) with 32 in *; cbn in *; lia. }
  unfold uint32, to_uint. rewrite Z.mod_small by lia.
  rewrite to_int_small by (done || lia). lia.
Qed.

Lemma Read_Ok w q n q' bs : read w q n = (q', Ret (bs, None)) → Read w q n = (q', Ret (bs, None)).
Proof. intros E. unfold Read. by rewrite E. Qed.

Lemma Read_EOF w q n q' : read w q n = (q', Ret ([], Some EOF)) → Read w q n = (q', Ret ([], Some EOF)).
Proof. intros E. unfold Read. by rewrite E. Qed.

(** The first [k] bytes of a message, cut or whole. *)
Lemma ReadFull_part m rest f k :
  0 ≤ k ≤ len m →
  ReadFull (MkSource (m ++ rest) f) k
  = (MkSource (drop (Z.to_nat k) m ++ rest) f, Ret (take (Z.to_nat k) m, None)).
Proof.
  intros Hk. unfold ReadFull. cbn [avail fin].
  rewrite decide_True by (rewrite len_app; pose proof (len_nonneg rest); lia).
  assert ((Z.to_nat k ≤ length m)%nat) by (unfold len in Hk; lia).
  by rewrite take_app_le, drop_app_le.
Qed.

(** What is left of a message after [n] of its bytes. *)
Lemma spec_read_cons m rest n :
  0 < n → 0 < len m →
  let k := if decide (len m > n) then n else len m in
  spec_read (m :: rest) n =
  (if decide (len m - k = 0) then rest else drop (Z.to_nat k) m :: rest,
   (take (Z.to_nat k) m, None)).
Proof.
  intros Hn Hm k. cbn [spec_read]. unfold k.
  destruct (decide (len m > n)).
  - rewrite !decide_False by lia. done.
  - rewrite !decide_True by lia. by rewrite take_len.
Qed.

(** The connection with the rest of a message at the front of its input. *)
Lemma holds_rest w q k m rest tl f :
  closedReads q = false → Forall (payload_ok w) (m :: rest) → 0 ≤ k ≤ len m →
  holds w (set_left (set_rb q (MkSource (drop (Z.to_nat k) m ++ wire rest ++ eof_frame ++ tl) f))
             (len m - k))
    (if decide (len m - k = 0) then rest else drop (Z.to_nat k) m :: rest).
Proof.
  intros Hc HF Hk. apply Forall_cons_1 in HF as [Hm HF]. unfold holds.
  cbn [closedReads set_left set_rb left rb].
  case_decide as H0.
  - repeat split; [done..|]. exists tl. cbn [avail].
    replace k with (len m) by lia. by rewrite drop_len.
  - repeat split; [done| |].
    + constructor; [|done]. unfold payload_ok in *. rewrite len_drop by lia. lia.
    + exists tl, (drop (Z.to_nat k) m), rest. rewrite len_drop by lia. done.
Qed.

Lemma Read_refines_step w q n msgs :
  IntWidth w → 0 < n → holds w q msgs →
  ∃ q', Read w q n = (q', Ret (snd (spec_read msgs n))) ∧
        (msgs ≠ [] → holds w q' (fst (spec_read msgs n))).
Proof.
  intros Hw Hn (Hc & HF & tl & H). destruct (rb q) as [av f] eqn:Erb. cbn [avail] in H.
  destruct (decide (left q = 0)) as [Hl|Hl].
  - destruct msgs as [|m rest].
    + eexists. split; [|done]. cbn [spec_read snd]. apply Read_EOF. unfold read. rewrite Hc, Hl.
      rewrite (decide_False (P := 0 > n)) by lia. rewrite decide_False by lia.
      rewrite Erb, H. unfold wire. cbn [map concat].
      unfold eof_frame. rewrite app_nil_l, read_uint32_app by (change (uint32 0) with 0; lia).
      rewrite decide_True by reflexivity. reflexivity.
    + pose proof (Forall_cons_1 _ _ _ HF) as [Hm _].
      destruct (payload_ok_int w m Hw Hm) as (Hu & Hb & Hi & Hne). destruct Hm as [Hm0 _].
      rewrite spec_read_cons by lia. cbn [fst snd].
      set (k := if decide (len m > n) then n else len m).
      assert (0 < k ≤ len m) as Hk by (unfold k; case_decide; lia).
      eexists. split.
      * apply Read_Ok. unfold read. rewrite Hc, Hl.
        rewrite (decide_False (P := 0 > n)) by lia. rewrite decide_False by lia.
        rewrite Erb, H. unfold wire. cbn [map concat].
        unfold frame at 1. rewrite <- !app_assoc, read_uint32_app by done.
        rewrite Hu, decide_False by done. rewrite Hi. fold k.
        rewrite decide_False by lia. rewrite ReadFull_part by lia. done.
      * intros _. apply holds_rest; [done|done|lia].
  - destruct H as (m & rest & -> & Hlm & Hav).
    pose proof (Forall_cons_1 _ _ _ HF) as [[Hm0 _] _].
    rewrite spec_read_cons by lia. cbn [fst snd].
    set (k := if decide (len m > n) then n else len m).
    assert (0 < k ≤ len m) as Hk by (unfold k; case_decide; lia).
    eexists. split.
    + apply Read_Ok. unfold read. rewrite Hc, Hlm. fold k. rewrite decide_True by lia.
      rewrite Erb, Hav.
      rewrite ReadFull_part by lia. rewrite len_take by lia. done.
    + intros _. apply holds_rest; [done|done|lia].
Qed.

Lemma spec_read_concat w msgs n msgs' bs err :
  0 < n → Forall (payload_ok w) msgs → msgs ≠ [] → spec_read msgs n = (msgs', (bs, err)) →
  err = None ∧ concat msgs = bs ++ concat msgs' ∧ (0 < length bs)%nat.
Proof.
  intros Hn HF Hne. destruct msgs as [|m rest]; [done|].
  apply Forall_cons_1 in HF as [[Hm _] _]. cbn [spec_read concat].
  assert ((0 < length m)%nat) by (unfold len in Hm; lia).
  case_decide; intros [= <- <- <-]; cbn [concat].
  - repeat split. done.
  - rewrite app_assoc, take_drop. repeat split. rewrite length_take. lia.
Qed.

Lemma drain_holds w q ns msgs :
  IntWidth w → Forall (λ n, 0 < n) ns → holds w q msgs → (length (concat msgs) < length ns)%nat →
  drain w q ns = Ret (concat msgs, Some EOF).
Proof.
  intros Hw Hns. revert q msgs. induction Hns as [|n ns Hn _ IH]; intros q msgs Hq Hf; [cbn in Hf; lia|].
  destruct (Read_refines_step w q n msgs Hw Hn Hq) as (q' & E & Hq'). cbn [drain]. rewrite E.
  destruct (decide (msgs = [])) as [->|Hne]; [done|].
  destruct (spec_read msgs n) as [msgs' [bs err]] eqn:Es. cbn [snd fst] in *.
  apply (spec_read_concat w) in Es as (-> & Hc & Hl); [|done|apply Hq|done].
  rewrite Hc in Hf. rewrite length_app in Hf. cbn in Hf.
  rewrite (IH q' msgs'); [|auto|lia]. cbn. by rewrite Hc.
Qed.

Lemma holds_makeConn w ps tl f out :
  Forall (payload_ok w) ps → holds w (makeConn (MkSource (wire ps ++ eof_frame ++ tl) f) out) ps.
Proof. intros H. repeat split; [done|]. by exists tl. Qed.

(** *** Errors of the sink *)

Lemma Write_failed q p e :
  closedWrites q = false → werr (wb q) = Some e → Write q p = (q, (0, Some e)).
Proof.
  intros Hc He. unfold Write. rewrite Hc, (Write_sticky _ _ e) by done. by destruct q.
Qed.

Lemma write_all_failed q ps e :
  closedWrites q = false → werr (wb q) = Some e → write_all q ps = q.
Proof.
  intros Hc He. induction ps as [|p ps IH]; [done|]. cbn [write_all foldl].
  rewrite (Write_failed q p e) by done. exact IH.
Qed.

Lemma write_all_log q ps :
  wf_writer (wb q) → closedWrites q = false →
  wlog (wb (write_all q ps)) `prefix_of` wlog (wb q) ++ wire ps ∧
  (werr (wb (write_all q ps)) = None → wlog (wb (write_all q ps)) = wlog (wb q) ++ wire ps).
Proof.
  revert q. induction ps as [|p ps IH]; intros q Hw Hc.
  { unfold wire. cbn. rewrite app_nil_r. done. }
  cbn [write_all foldl]. change (foldl _ ?x ps) with (write_all x ps).
  destruct (Write_wb q p Hw Hc) as (b' & x & y & E & Hw' & _ & Hf & Hl & Hy). rewrite E.
  unfold wire. cbn [map concat]. fold (wire ps).
  destruct (werr b') as [e|] eqn:He.
  - rewrite (write_all_failed _ ps e) by done. cbn [wb set_wb]. rewrite He. split; [|done].
    rewrite Hl, Hf. exists (y ++ wire ps). by rewrite <- !app_assoc.
  - rewrite (Hy eq_refl), app_nil_r in Hf. rewrite Hf, app_assoc, <- Hl.
    apply (IH (set_wb q b')); [done|done].
Qed.

(** ** Properties *)

(** C1: framing round trip. Whatever non-empty payloads are written (each shorter
    than the largest size a frame can announce), followed by [CloseWrite], a peer
    that reads the produced bytes with non-empty buffers, of whatever sizes, each its own,
    receives exactly their concatenation and then [io.EOF], after at most one read per byte. *)
Theorem conn_stream_roundtrip (w : Z) (ns : list Z) (ps : list (list byte))
    (inp : source) (out : sink) (f : option error) :
  IntWidth w → Forall (λ n, 0 < n) ns → Forall (payload_ok w) ps →
  (length (concat ps) < length ns)%nat →
  let s := fst (CloseWrite (write_all (makeConn inp (MkSink [] None)) ps)) in
  drain w (makeConn (MkSource (taken (wr (wb s))) f) out) ns = Ret (concat ps, Some EOF).
Proof.
  intros Hw Hn HF Hfuel s. unfold s. rewrite CloseWrite_wire by done.
  cbn [makeConn wb NewWriterSize wr taken]. rewrite app_nil_l, <- (app_nil_r eof_frame).
  apply drain_holds; [done|done|by apply holds_makeConn|done].
Qed.

Lemma conn_stream_roundtrip_witness :
  let ps := map (String.list_ascii_of_string) ["hello"; "world!"] in
  let s := fst (CloseWrite (write_all (makeConn (MkSource [] None) (MkSink [] None)) ps)) in
  drain 32 (makeConn (MkSource (taken (wr (wb s))) None) (MkSink [] None)) [4; 1; 9; 2; 3; 1; 1; 1; 1; 1; 1; 1]
  = Ret (String.list_ascii_of_string "helloworld!", Some EOF).
Proof.
  apply (conn_stream_roundtrip 32 [4; 1; 9; 2; 3; 1; 1; 1; 1; 1; 1; 1]); [apply _|repeat constructor| |vm_compute; lia].
  repeat constructor; vm_compute; reflexivity.
Defined.

(** C2: reading refines the queue of messages. On a connection that holds the
    messages [msgs], [Read] with a buffer of [n > 0] bytes returns what the abstract
    queue returns (at most [n] bytes of the first message, [io.EOF] after the last
    one) and the connection then holds the rest of the queue. *)
Theorem Read_refines_queue (w n : Z) (q : Conn) (msgs : list (list byte)) :
  IntWidth w → 0 < n → holds w q msgs →
  ∃ q', Read w q n = (q', Ret (snd (spec_read msgs n))) ∧
        (msgs ≠ [] → holds w q' (fst (spec_read msgs n))).
Proof. apply Read_refines_step. Qed.

Lemma Read_refines_queue_witness :
  let m := String.list_ascii_of_string "hello" in
  ∃ q', Read 64 (makeConn (MkSource (wire [m] ++ eof_frame) None) (MkSink [] None)) 2
        = (q', Ret (String.list_ascii_of_string "he", None)) ∧
        ([m] ≠ [] → holds 64 q' [String.list_ascii_of_string "llo"]).
Proof.
  intros m.
  apply (Read_refines_queue 64 2 (makeConn (MkSource (wire [m] ++ eof_frame) None) (MkSink [] None)) [m]);
    [apply _|lia|].
  apply (holds_makeConn 64 [m] []). repeat constructor; vm_compute; reflexivity.
Defined.

(** No operation of the connection panics on a 64-bit [int]: from a fresh
    connection, any sequence of reads, writes, half closes and closes, whatever the
    peer sends and wherever the writes start to fail, closes each channel at most
    once and slices within bounds; and the invariant [wf] holds at the end. *)
Theorem conn_ops_safe (inp : source) (out : sink) (os : list op) :
  (∀ k e, quota out = Some (k, e) → 0 ≤ k) → reads_ok os →
  run_ops 64 (makeConn inp out) os ≠ Panic ∧
  ∀ q, run_ops 64 (makeConn inp out) os = Ret q → wf q.
Proof.
  intros Hq Hos. pose proof (wf_makeConn inp out Hq). split.
  - by apply run_ops_no_panic; [apply _|lia|..].
  - intros q. by apply run_ops_wf.
Qed.

Lemma conn_ops_safe_witness :
  let os := [OpWrite ["a"%char; "b"%char]; OpClose; OpClose; OpCloseRead; OpRead 3] in
  let out := MkSink [] (Some (5, ErrorString "broken pipe")) in
  run_ops 64 (makeConn (MkSource [] (Some EOF)) out) os ≠ Panic ∧
  ∀ q, run_ops 64 (makeConn (MkSource [] (Some EOF)) out) os = Ret q → wf q.
Proof.
  apply (conn_ops_safe (MkSource [] (Some EOF)) (MkSink [] (Some (5, ErrorString "broken pipe")))).
  - intros k e [= <- _]. lia.
  - repeat constructor; intros ? [= <-]; lia.
Defined.

(** On a 32-bit [int] (the 386 and arm builds) the same is false: a peer that
    announces a frame of [2^31] bytes or more makes [Read] panic with a negative
    slice bound. *)
Theorem conn_read_panics_on_32_bits (v n : Z) (rest : list byte) (f : option error) (out : sink) :
  2 ^ 31 ≤ v < 2 ^ 32 → 0 ≤ n →
  snd (Read 32 (makeConn (MkSource (put_uint32 v ++ rest) f) out) n) = Panic.
Proof.
  intros Hv Hn. apply Read_read. unfold read. cbn [closedReads makeConn left rb].
  rewrite (decide_False (P := 0 > n)) by lia. rewrite decide_False by lia.
  rewrite read_uint32_app by lia. rewrite decide_False by lia.
  assert (to_int 32 v < 0) as Hneg.
  { unfold to_int. change (2 ^ (32 - 1)) with 2147483648. change (2 ^ 32) with 4294967296 in *.
    change (2 ^ 31) with 2147483648 in *.
    pose proof (Z.mod_pos_bound (v + 2147483648) 4294967296 ltac:(lia)).
    rewrite (Zmod_eq (v + 2147483648)) by lia.
    assert ((v + 2147483648) / 4294967296 = 1) as -> by (symmetry; apply Z.div_unique with (v - 2147483648); lia).
    lia. }
  rewrite (decide_False (P := _ > n)) by lia. by rewrite decide_True by lia.
Qed.

Lemma conn_read_panics_on_32_bits_witness :
  snd (Read 32 (makeConn (MkSource (put_uint32 (2 ^ 31) ++ []) None) (MkSink [] None)) 10) = Panic.
Proof. apply conn_read_panics_on_32_bits; lia. Defined.

(** A failing connection never corrupts the stream: wherever the underlying
    writer starts to fail, what the peer received is a prefix of the frames of the
    payloads in order, and all of them if no write reported an error. *)
Theorem conn_write_prefix (inp : source) (out : sink) (ps : list (list byte)) :
  (∀ k e, quota out = Some (k, e) → 0 ≤ k) →
  let s := wb (write_all (makeConn inp out) ps) in
  taken (wr s) `prefix_of` taken out ++ wire ps ∧
  (werr s = None → taken (wr s) ++ buffered s = taken out ++ wire ps).
Proof.
  intros Hq s. destruct (write_all_log (makeConn inp out) ps) as [Hp Hall]; [by split|done|].
  fold s in Hp, Hall. unfold wlog in Hp, Hall. cbn [makeConn wb NewWriterSize wr buffered] in Hp, Hall.
  rewrite app_nil_r in Hp, Hall. split; [|done].
  etrans; [|apply Hp]. by eexists.
Qed.

Lemma conn_write_prefix_witness :
  let out := MkSink [] (Some (7, ErrorString "broken pipe")) in
  let ps := [["a"%char; "b"%char]; ["c"%char]] in
  let s := wb (write_all (makeConn (MkSource [] None) out) ps) in
  taken (wr s) `prefix_of` [] ++ wire ps ∧
  (werr s = None → taken (wr s) ++ buffered s = [] ++ wire ps).
Proof.
  apply (conn_write_prefix (MkSource [] None) (MkSink [] (Some (7, ErrorString "broken pipe")))).
  intros k e [= <- _]. lia.
Defined.

(** [Close] is final: after it, reads, writes and every close report the closed
    connection and change nothing, the underlying connection was closed, and the
    goroutine waiting in [closeConn] is released. *)
Theorem conn_close_final (q : Conn) :
  wf q → closed q = false →
  ∃ q', Close q = (q', Ret None) ∧ connCloses q' = connCloses q + 1 ∧
    (∀ w n, Read w q' n = (q', Ret ([], Some errClosed))) ∧
    (∀ b, Write q' b = (q', (0, Some errClosed))) ∧
    Close q' = (q', Ret (Some errClosed)) ∧
    CloseRead q' = (q', Ret (Some errClosed)) ∧ CloseWrite q' = (q', Ret (Some errClosed)) ∧
    closeConn q' ≠ Block.
Proof.
  intros Hq Hc. destruct (Close_wf q Hq) as (q' & e & E & Hq' & Hc').
  destruct (wf_closed q' Hq' Hc') as [Hr Hw].
  exists q'. assert (e = None ∧ connCloses q' = connCloses q + 1) as [-> Hcnt].
  { pose proof (Close_connCloses q q' e Hc E). done. }
  split; [done|]. split; [done|]. unfold Read, read, Write, Close, CloseRead, CloseWrite, closeConn.
  rewrite Hr, Hw, Hc', (wf_reads q' Hq'), (wf_writes q' Hq'), Hr, Hw. done.
Qed.

Lemma conn_close_final_witness :
  let q := makeConn (MkSource [] None) (MkSink [] None) in
  ∃ q', Close q = (q', Ret None) ∧ connCloses q' = 0 + 1 ∧
    (∀ w n, Read w q' n = (q', Ret ([], Some errClosed))) ∧
    (∀ b, Write q' b = (q', (0, Some errClosed))) ∧
    Close q' = (q', Ret (Some errClosed)) ∧
    CloseRead q' = (q', Ret (Some errClosed)) ∧ CloseWrite q' = (q', Ret (Some errClosed)) ∧
    closeConn q' ≠ Block.
Proof. apply (conn_close_final (makeConn (MkSource [] None) (MkSink [] None))); [by apply wf_makeConn|done]. Defined.

(** A read with an empty buffer in the middle of a frame loses data: instead of
    returning at once, [Read] takes the next four payload bytes for the size of a new
    frame, drops them, and expects that many bytes. *)
Theorem conn_zero_read_desyncs (q : Conn) (hdr rest : list byte) (f : option error) :
  closedReads q = false → 0 < left q →
  rb q = MkSource (hdr ++ rest) f → len hdr = 4 → get_uint32 hdr ≠ 0 →
  Read 64 q 0 = (set_left (set_rb q (MkSource rest f)) (get_uint32 hdr), Ret ([], None)).
Proof.
  intros Hc Hl Hrb Hh Hne. apply Read_Ok. unfold read. rewrite Hc, Hrb.
  rewrite (decide_True (P := left q > 0)) by lia. rewrite decide_False by lia.
  unfold read_uint32. rewrite <- Hh, ReadFull_app. rewrite decide_False by done.
  pose proof (get_uint32_bound hdr) as Hb.
  assert (to_int 64 (get_uint32 hdr) = get_uint32 hdr) as ->.
  { apply to_int_small; [apply _|]. change (2 ^ (64 - 1)) with (2 ^ 31 * 2 ^ 32). lia. }
  rewrite (decide_True (P := get_uint32 hdr > 0)) by lia. rewrite decide_False by lia.
  unfold ReadFull. cbn [avail fin]. rewrite decide_True by apply len_nonneg.
  cbn. by rewrite Z.sub_0_r.
Qed.

Lemma conn_zero_read_desyncs_witness :
  let q := set_left (makeConn (MkSource (String.list_ascii_of_string "hello" ++ []) None) (MkSink [] None)) 5 in
  Read 64 q 0 = (set_left (set_rb q (MkSource (["o"%char] ++ []) None)) 1819043176, Ret ([], None)).
Proof.
  apply (conn_zero_read_desyncs
           (set_left (makeConn (MkSource (String.list_ascii_of_string "hello" ++ []) None) (MkSink [] None)) 5)
           (String.list_ascii_of_string "hell") (["o"%char] ++ []) None);
    [reflexivity|vm_compute; reflexivity|reflexivity|reflexivity|vm_compute; discriminate].
Defined.

(** An empty write ends the stream: [Write] of an empty slice succeeds with the
    bytes of the closing frame, and the peer reads [io.EOF] although the writing side
    is still open. *)
Theorem conn_empty_write_is_eof (w n : Z) (inp : source) (out : sink) (f : option error) :
  IntWidth w → 0 ≤ n →
  let s := Write (makeConn inp (MkSink [] None)) [] in
  snd s = (0, None) ∧ closedWrites (fst s) = false ∧
  snd (Read w (makeConn (MkSource (taken (wr (wb (fst s)))) f) out) n) = Ret ([], Some EOF).
Proof.
  intros Hw Hn s. unfold s. rewrite Write_frame by done. cbn [fst snd].
  split; [done|]. split; [done|]. cbn [wb set_wb wr taken makeConn NewWriterSize].
  rewrite (Read_EOF w _ n (set_rb (makeConn (MkSource eof_frame f) out) (MkSource [] f))); [done|].
  unfold read. cbn [closedReads makeConn left rb].
  rewrite (decide_False (P := 0 > n)) by lia. rewrite decide_False by lia.
  change ([] ++ frame []) with (eof_frame ++ []). unfold eof_frame.
  rewrite read_uint32_app by (change (uint32 0) with 0; lia). reflexivity.
Qed.

Lemma conn_empty_write_is_eof_witness :
  let s := Write (makeConn (MkSource [] None) (MkSink [] None)) [] in
  snd s = (0, None) ∧ closedWrites (fst s) = false ∧
  snd (Read 64 (makeConn (MkSource (taken (wr (wb (fst s)))) None) (MkSink [] None)) 8) = Ret ([], Some EOF).
Proof. apply (conn_empty_write_is_eof 64 8); [apply _|lia]. Defined.
