(* ===== verification/ConnLocks.v ===== *)
(** * The locks of a framed connection: [Conn] of net/qemu/qemu.go used by several goroutines

    [Read], [Write] and the closes of one connection called from different goroutines.  The
    steps are the places where they can interleave: a read holds [readLock] from its call to
    its return, also while it waits for the peer; [Close] is five parts, each under its own
    lock.  The parts are those of [QemuConn]; a [Write] does not wait for the peer. *)

From S2P Require Import Prelude GoIO QemuConn.

Local Open Scope Z_scope.

(** ** Goroutines *)

(** Where a goroutine is: before [Read(b)] with [len(b) = n], inside it with [readLock] held,
    before a [Write], [CloseRead] or [CloseWrite]; [Close]: before it, before its
    [CloseWrite], before its [CloseRead], before [q.Conn.Close()]; the goroutine [closeConn];
    a call that returned. *)
Inductive gor :=
| GRead (n : Z)
| GReading (n : Z)
| GGot (b : list byte) (err : option error)
| GWrite (b : list byte)
| GCloseRead
| GCloseWrite
| GClose
| GClose_write
| GClose_read
| GClose_conn
| GCloseConn
| GDone (err : option error)
| GPanic.

#[export] Instance gor_eq_dec : EqDecision gor.
Proof. solve_decision. Defined.

(** The connection, who holds [readLock] and [closeLock], and the goroutines.  [writeLock] is
    held within a step only. *)
Record world := MkWorld {
  cn : Conn;
  readLock : option nat;
  closeLock : option nat;
  gors : gmap nat gor;
}.

Definition with_gor (t : nat) (g : gor) (s : world) : world :=
  MkWorld (cn s) (readLock s) (closeLock s) (<[t := g]> (gors s)).

(** What a half close gives its goroutine. *)
Definition after {A} (o : outcome A) (k : A → gor) : gor :=
  match o with Ret a => k a | _ => GPanic end.

(** What the peer does: bytes, or the end of its stream. *)
Definition peer_sends (bs : list byte) (q : Conn) : Conn :=
  set_rb q (MkSource (avail (rb q) ++ bs) (fin (rb q))).
Definition peer_ends (e : error) (q : Conn) : Conn := set_rb q (MkSource (avail (rb q)) (Some e)).

(** Calls a user makes. *)
Definition call (g : gor) : Prop :=
  match g with
  | GRead n => 0 ≤ n
  | GWrite _ | GCloseRead | GCloseWrite | GClose => True
  | _ => False
  end.

Section steps.
Context (w : Z).

(** The steps on the device's side; the last one: once the underlying connection was closed
    its reads end. *)
Inductive conn_step : world → world → Prop :=
| s_call t g s :
    gors s !! t = None → call g → conn_step s (with_gor t g s)
| s_read_lock t n s :
    gors s !! t = Some (GRead n) → readLock s = None →
    conn_step s (MkWorld (cn s) (Some t) (closeLock s) (<[t := GReading n]> (gors s)))
| s_read t n s q b err :
    gors s !! t = Some (GReading n) → Read w (cn s) n = (q, Ret (b, err)) →
    conn_step s (MkWorld q None (closeLock s) (<[t := GGot b err]> (gors s)))
| s_read_panic t n s q :
    gors s !! t = Some (GReading n) → Read w (cn s) n = (q, Panic) →
    conn_step s (MkWorld q None (closeLock s) (<[t := GPanic]> (gors s)))
| s_write t b s q r :
    gors s !! t = Some (GWrite b) → Write (cn s) b = (q, r) →
    conn_step s (MkWorld q (readLock s) (closeLock s) (<[t := GDone (snd r)]> (gors s)))
| s_CloseRead t s q o :
    gors s !! t = Some GCloseRead → readLock s = None → CloseRead (cn s) = (q, o) →
    conn_step s (MkWorld q None (closeLock s) (<[t := after o GDone]> (gors s)))
| s_CloseWrite t s q o :
    gors s !! t = Some GCloseWrite → CloseWrite (cn s) = (q, o) →
    conn_step s (MkWorld q (readLock s) (closeLock s) (<[t := after o GDone]> (gors s)))
| s_Close_again t s :
    gors s !! t = Some GClose → closeLock s = None → closed (cn s) = true →
    conn_step s (with_gor t (GDone (Some errClosed)) s)
| s_Close t s :
    gors s !! t = Some GClose → closeLock s = None → closed (cn s) = false →
    conn_step s (MkWorld (set_closed (cn s) true) (readLock s) (Some t)
                   (<[t := GClose_write]> (gors s)))
| s_Close_write t s q o :
    gors s !! t = Some GClose_write → CloseWrite (cn s) = (q, o) →
    conn_step s (MkWorld q (readLock s) (closeLock s) (<[t := after o (λ _, GClose_read)]> (gors s)))
| s_Close_read t s q o :
    gors s !! t = Some GClose_read → readLock s = None → CloseRead (cn s) = (q, o) →
    conn_step s (MkWorld q None (closeLock s) (<[t := after o (λ _, GClose_conn)]> (gors s)))
| s_Close_conn t s :
    gors s !! t = Some GClose_conn →
    conn_step s (MkWorld (set_connCloses (cn s) (connCloses (cn s) + 1)) (readLock s) None
                   (<[t := GDone None]> (gors s)))
| s_closeConn t s q :
    gors s !! t = Some GCloseConn → closeConn (cn s) = Ret q →
    conn_step s (MkWorld q (readLock s) (closeLock s) (<[t := GDone None]> (gors s)))
| s_shut s e :
    0 < connCloses (cn s) → fin (rb (cn s)) = None →
    conn_step s (MkWorld (peer_ends e (cn s)) (readLock s) (closeLock s) (gors s)).

(** The steps of the peer. *)
Inductive peer_step : world → world → Prop :=
| p_sends bs s :
    fin (rb (cn s)) = None →
    peer_step s (MkWorld (peer_sends bs (cn s)) (readLock s) (closeLock s) (gors s))
| p_ends e s :
    fin (rb (cn s)) = None →
    peer_step s (MkWorld (peer_ends e (cn s)) (readLock s) (closeLock s) (gors s)).

Definition any_step (s s' : world) : Prop := conn_step s s' ∨ peer_step s s'.

(** A connection [Accept] returned: its goroutine [closeConn] runs as number 0. *)
Definition conn_init (q : Conn) : world := MkWorld q None None {[0%nat := GCloseConn]}.
End steps.

(** ** Reads see only their half *)

(** The part of a connection that [Read] uses, and the part the other calls use. *)
Definition read_half (q : Conn) : bool * Z * source := (closedReads q, left q, rb q).

Lemma Read_half w q q' n : read_half q = read_half q' → snd (Read w q n) = snd (Read w q' n).
Proof.
  unfold read_half. intros [= H1 H2 H3]. unfold Read, read. rewrite H1, H2, H3.
  repeat case_match; simplify_eq/=; congruence.
Qed.

Lemma Write_half q b : read_half (fst (Write q b)) = read_half q ∧
  connCloses (fst (Write q b)) = connCloses q ∧ closed (fst (Write q b)) = closed q ∧
  readsCloseChan (fst (Write q b)) = readsCloseChan q ∧
  closedWrites (fst (Write q b)) = closedWrites q ∧
  writesCloseChan (fst (Write q b)) = writesCloseChan q.
Proof. unfold Write. by repeat (case_match; cbn). Qed.

Lemma CloseWrite_half q : read_half (fst (CloseWrite q)) = read_half q ∧
  connCloses (fst (CloseWrite q)) = connCloses q ∧ closed (fst (CloseWrite q)) = closed q ∧
  readsCloseChan (fst (CloseWrite q)) = readsCloseChan q.
Proof. unfold CloseWrite, sendClose. by repeat (case_match; simplify_eq/=). Qed.

(** A read that waits: it needs bytes that did not come. *)
Definition waits (w : Z) (q : Conn) (n : Z) : Prop := snd (Read w q n) = Block.

Lemma waits_open w q n : waits w q n → closedReads q = false ∧ fin (rb q) = None.
Proof.
  unfold waits, Read, read, read_uint32, ReadFull.
  repeat (case_match; simplify_eq/=; try done); intros; simplify_eq/=; auto.
Qed.

(** ** Invariant *)

(** The goroutine holds [readLock]; it is in [Close] and holds [closeLock]; its [Close] is past
    [CloseWrite], past [CloseRead]. *)
Definition reading (g : option gor) : bool :=
  match g with Some (GReading _) => true | _ => false end.
Definition in_Close (g : option gor) : bool :=
  match g with Some (GClose_write | GClose_read | GClose_conn) => true | _ => false end.
Definition past_write (g : option gor) : bool :=
  match g with Some (GClose_read | GClose_conn) => true | _ => false end.
Definition past_read (g : option gor) : bool :=
  match g with Some GClose_conn => true | _ => false end.

(** The last field: [Close] closed the underlying connection once it released its lock, and
    [closeConn] when it ended. *)
Record locks_ok (s : world) : Prop := {
  lo_read t : readLock s = Some t ↔ reading (gors s !! t) = true;
  lo_close t : closeLock s = Some t ↔ in_Close (gors s !! t) = true;
  lo_readsChan : readsCloseChan (cn s) = closedReads (cn s);
  lo_writesChan : writesCloseChan (cn s) = closedWrites (cn s);
  lo_closing : closeLock s ≠ None → closed (cn s) = true;
  lo_writes t : past_write (gors s !! t) = true → closedWrites (cn s) = true;
  lo_reads t : past_read (gors s !! t) = true → closedReads (cn s) = true;
  lo_closed : closed (cn s) = true → closeLock s = None →
    closedReads (cn s) = true ∧ closedWrites (cn s) = true;
  lo_only t : gors s !! t = Some GCloseConn → t = 0%nat;
  lo_closer : gors s !! 0%nat = Some GCloseConn ∨
    gors s !! 0%nat = Some (GDone None) ∧ closedReads (cn s) = true ∧ closedWrites (cn s) = true;
  lo_count : connCloses (cn s) =
    (if decide (closed (cn s) = true ∧ closeLock s = None) then 1 else 0) +
    (if decide (gors s !! 0%nat = Some GCloseConn) then 0 else 1);
}.

Lemma conn_init_ok inp out : locks_ok (conn_init (makeConn inp out)).
Proof.
  assert (∀ t g, ({[0%nat := GCloseConn]} : gmap nat gor) !! t = Some g → g = GCloseConn) as H
    by (intros t g Hg; apply lookup_singleton_Some in Hg; naive_solver).
  split; cbn; try done.
  - intros t. split; [done|]. destruct (_ !! t) eqn:E; [|done]. by rewrite (H _ _ E).
  - intros t. split; [done|]. destruct (_ !! t) eqn:E; [|done]. by rewrite (H _ _ E).
  - intros t. destruct (_ !! t) eqn:E; [|done]. by rewrite (H _ _ E).
  - intros t. destruct (_ !! t) eqn:E; [|done]. by rewrite (H _ _ E).
  - intros t Ht. by apply lookup_singleton_Some in Ht as [<- _].
  - left. by rewrite lookup_singleton_eq.
Qed.

Lemma read_keeps w q n q' r : Read w q n = (q', r) →
  closedReads q' = closedReads q ∧ closedWrites q' = closedWrites q ∧ closed q' = closed q ∧
  readsCloseChan q' = readsCloseChan q ∧ writesCloseChan q' = writesCloseChan q ∧
  connCloses q' = connCloses q.
Proof.
  unfold Read, read. intros H.
  repeat (case_match; simplify_eq/=; try done); by destruct q.
Qed.

Lemma Write_keeps q b q' r : Write q b = (q', r) →
  closedReads q' = closedReads q ∧ closedWrites q' = closedWrites q ∧ closed q' = closed q ∧
  readsCloseChan q' = readsCloseChan q ∧ writesCloseChan q' = writesCloseChan q ∧
  connCloses q' = connCloses q.
Proof. intros E. pose proof (Write_half q b) as H. rewrite E in H. unfold read_half in H. naive_solver. Qed.

Lemma CloseRead_keeps q q' o : readsCloseChan q = closedReads q → CloseRead q = (q', o) →
  (∃ e, o = Ret e) ∧ closedReads q' = true ∧ readsCloseChan q' = true ∧
  closedWrites q' = closedWrites q ∧ closed q' = closed q ∧
  writesCloseChan q' = writesCloseChan q ∧ connCloses q' = connCloses q.
Proof.
  unfold CloseRead. intros H E. destruct (closedReads q) eqn:Hc; cbn in E; rewrite ?H in E;
    injection E as <- <-; cbn; eauto 10.
Qed.

Lemma CloseWrite_keeps q q' o : writesCloseChan q = closedWrites q → CloseWrite q = (q', o) →
  (∃ e, o = Ret e) ∧ closedWrites q' = true ∧ writesCloseChan q' = true ∧
  closedReads q' = closedReads q ∧ closed q' = closed q ∧
  readsCloseChan q' = readsCloseChan q ∧ connCloses q' = connCloses q.
Proof.
  intros H E. pose proof (CloseWrite_half q) as Hh. rewrite E in Hh. unfold read_half in Hh.
  revert E. unfold CloseWrite. destruct (closedWrites q) eqn:Hc.
  { intros [= <- <-]. naive_solver. }
  assert (writesCloseChan (fst (sendClose (set_closedWrites q true))) = false ∧
    closedWrites (fst (sendClose (set_closedWrites q true))) = true) as [Hw Hcw].
  { unfold sendClose. repeat (case_match; cbn); done. }
  destruct (sendClose _) as [q1 e]. cbn in Hw, Hcw. rewrite Hw. intros [= <- <-].
  cbn in *. naive_solver.
Qed.

(** *** Moving one goroutine *)

Section moves.
Context (f : option gor → bool) (m : gmap nat gor) (t : nat) (g : gor).

Lemma owner_same (l : option nat) :
  (∀ x, l = Some x ↔ f (m !! x) = true) → f (m !! t) = f (Some g) →
  ∀ x, l = Some x ↔ f (<[t := g]> m !! x) = true.
Proof. intros H E x. rewrite H, lookup_insert. case_decide; [by subst; rewrite E|done]. Qed.

Lemma owner_take :
  (∀ x, None = Some x ↔ f (m !! x) = true) → f (Some g) = true →
  ∀ x, Some t = Some x ↔ f (<[t := g]> m !! x) = true.
Proof.
  intros H E x. rewrite lookup_insert. case_decide; [by subst; rewrite E|].
  rewrite <- H. split; [congruence|done].
Qed.

Lemma owner_drop (l : option nat) :
  (∀ x, l = Some x ↔ f (m !! x) = true) → f (m !! t) = true → f (Some g) = false →
  ∀ x, None = Some x ↔ f (<[t := g]> m !! x) = true.
Proof.
  intros H E E' x. rewrite lookup_insert. apply H in E. case_decide; [by subst; rewrite E'|].
  rewrite <- H. split; congruence.
Qed.

Lemma stage_same (P Q : Prop) :
  (∀ x, f (m !! x) = true → P) → (P → Q) → (f (Some g) = true → Q) →
  ∀ x, f (<[t := g]> m !! x) = true → Q.
Proof. intros H HPQ E x. rewrite lookup_insert. case_decide; [done|]. eauto. Qed.

Lemma closer_same g0 :
  m !! t = g0 → g0 ≠ Some GCloseConn → g0 ≠ Some (GDone None) →
  m !! 0%nat = Some GCloseConn ∨ m !! 0%nat = Some (GDone None) ∧ True →
  <[t := g]> m !! 0%nat = m !! 0%nat.
Proof. intros <- H1 H2 H. rewrite lookup_insert_ne; [done|]. intros ->. naive_solver. Qed.

Lemma only_same : (∀ x, m !! x = Some GCloseConn → x = 0%nat) → g ≠ GCloseConn →
  ∀ x, <[t := g]> m !! x = Some GCloseConn → x = 0%nat.
Proof. intros H Hg x. rewrite lookup_insert. case_decide; [congruence|apply H]. Qed.
End moves.

(** The fields of the invariant after the step of a goroutine that was at [g0]. *)
Ltac ok_fields Ht :=
  split; cbn; try done;
  try first
    [ solve [apply owner_same; [done|by rewrite Ht]]
    | solve [by apply only_same]
    | solve [by apply owner_take]
    | solve [eapply owner_drop; [eassumption|by rewrite Ht|done]]
    | solve [eapply stage_same; [eassumption|done|done]] ];
  try solve [intuition congruence].

Lemma conn_step_ok w s s' : locks_ok s → conn_step w s s' → locks_ok s'.
Proof.
  intros [L1 L2 L3 L4 L5 L6 L7 L8 L8' L9 L10] Hs.
  assert (∀ t g0 g, gors s !! t = g0 → g0 ≠ Some GCloseConn → g0 ≠ Some (GDone None) →
    <[t := g]> (gors s) !! 0%nat = gors s !! 0%nat) as Hz
    by (intros; eapply closer_same; naive_solver).
  destruct Hs as [t g s Ht Hg|t n s Ht Hl|t n s q b err Ht Hr|t n s q Ht Hr|t b s q r Ht Hw
    |t s q o Ht Hl Hc|t s q o Ht Hc|t s Ht Hl Hc|t s Ht Hl Hc|t s q o Ht Hc|t s q o Ht Hl Hc|t s Ht
    |t s q Ht Hc|s e Hc Hf];
    try match goal with
    | |- locks_ok (MkWorld _ _ _ (<[t := ?g]> _)) => rewrite <- (Hz t _ g Ht) in L9, L10 by done
    | |- locks_ok (with_gor t ?g _) => rewrite <- (Hz t _ g Ht) in L9, L10 by done
    end.
  - destruct g; try done; ok_fields Ht.
  - rewrite Hl in L1. ok_fields Ht.
  - apply read_keeps in Hr as (E1 & E2 & E3 & E4 & E5 & E6).
    rewrite <- E1, <- ?E2, <- ?E3, <- ?E4, <- ?E5, <- ?E6 in *. ok_fields Ht.
  - apply read_keeps in Hr as (E1 & E2 & E3 & E4 & E5 & E6).
    rewrite <- E1, <- ?E2, <- ?E3, <- ?E4, <- ?E5, <- ?E6 in *. ok_fields Ht.
  - apply Write_keeps in Hw as (E1 & E2 & E3 & E4 & E5 & E6).
    rewrite <- E1, <- ?E2, <- ?E3, <- ?E4, <- ?E5, <- ?E6 in *. ok_fields Ht.
  - apply CloseRead_keeps in Hc as ((e & ->) & E1 & E2 & E3 & E4 & E5 & E6); [|done].
    rewrite <- ?E3, <- ?E4, <- ?E5, <- ?E6, ?Hl in *. ok_fields Ht.
  - apply CloseWrite_keeps in Hc as ((e & ->) & E1 & E2 & E3 & E4 & E5 & E6); [|done].
    rewrite <- ?E3, <- ?E4, <- ?E5, <- ?E6 in *. ok_fields Ht.
  - ok_fields Ht.
  - rewrite Hl in L2. ok_fields Ht. rewrite L10. f_equal.
    rewrite !decide_False by (intros [? ?]; congruence). done.
  - apply CloseWrite_keeps in Hc as ((e & ->) & E1 & E2 & E3 & E4 & E5 & E6); [|done].
    rewrite <- ?E3, <- ?E4, <- ?E5, <- ?E6 in *. ok_fields Ht.
  - apply CloseRead_keeps in Hc as ((e & ->) & E1 & E2 & E3 & E4 & E5 & E6); [|done].
    assert (past_write (gors s !! t) = true) as Hp%L6 by (by rewrite Ht).
    rewrite <- ?E3, <- ?E4, <- ?E5, <- ?E6, ?Hl in *. ok_fields Ht.
  - assert (closeLock s = Some t) as Hcl by (apply L2; by rewrite Ht).
    assert (past_write (gors s !! t) = true) as Hw%L6 by (by rewrite Ht).
    assert (past_read (gors s !! t) = true) as Hr%L7 by (by rewrite Ht).
    assert (closed (cn s) = true) as Hc by (apply L5; by rewrite Hcl).
    ok_fields Ht. rewrite L10, Hcl, Hc. repeat case_decide; intuition (congruence || lia).
  - pose proof (L8' _ Ht) as ->. unfold closeConn in Hc. rewrite L3, L4 in Hc.
    destruct (closedReads (cn s)) eqn:Hr, (closedWrites (cn s)) eqn:Hw; try done.
    injection Hc as <-. ok_fields Ht.
    + right. by rewrite lookup_insert_eq.
    + rewrite L10, Ht, lookup_insert_eq. repeat case_decide; intuition (congruence || lia).
  - ok_fields Hc.
Qed.

Lemma peer_step_ok s s' : locks_ok s → peer_step s s' → locks_ok s'.
Proof. intros []. destruct 1; by split. Qed.

Lemma any_step_ok w : invariant (any_step w) locks_ok.
Proof. intros s s' H [Hs|Hs]; [by eapply conn_step_ok|by eapply peer_step_ok]. Qed.

(** ** A read that waits holds up every close *)

(** Goroutine [t] waits in a read; [u] is in [Close], before its [CloseRead]. *)
Definition held_up (w : Z) (t u : nat) (s : world) : Prop :=
  locks_ok s ∧ connCloses (cn s) = 0 ∧
  (∃ n, gors s !! t = Some (GReading n) ∧ waits w (cn s) n) ∧
  (gors s !! u = Some GClose_write ∨ gors s !! u = Some GClose_read).

Lemma waits_half w q q' n : read_half q = read_half q' → waits w q n → waits w q' n.
Proof. unfold waits. intros E <-. symmetry. by apply Read_half. Qed.

(** A step of another goroutine [v] that keeps the half of the reads keeps [t] and [u]. *)
Lemma held_up_other w t u v g s q r c :
  locks_ok (MkWorld q r c (<[v := g]> (gors s))) → v ≠ t → v ≠ u → held_up w t u s →
  read_half q = read_half (cn s) → connCloses q = connCloses (cn s) →
  held_up w t u (MkWorld q r c (<[v := g]> (gors s))).
Proof.
  intros Hok Ht Hu (_ & H0 & (n & Hn & Hw) & Hs) Hh Hc. unfold held_up. cbn.
  rewrite !lookup_insert_ne by done. split_and!; [done|congruence| |done].
  exists n. split; [done|]. by eapply waits_half.
Qed.

Lemma held_up_conn_step w t u s s' : held_up w t u s → conn_step w s s' → held_up w t u s'.
Proof.
  intros HH Hs. pose proof HH as (Hok & H0 & (n & Ht & Hn) & Hu).
  pose proof (conn_step_ok _ _ _ Hok Hs) as Hok'.
  pose proof (waits_open _ _ _ Hn) as [Hcr Hf].
  assert (readLock s = Some t) as Hl by (apply (lo_read _ Hok); by rewrite Ht).
  destruct Hs as [v g s Hv Hg|v k s Hv Hl'|v k s q b err Hv Hr|v k s q Hv Hr|v b s q r Hv Hw
    |v s q o Hv Hl' Hc|v s q o Hv Hc|v s Hv Hl' Hc|v s Hv Hl' Hc|v s q o Hv Hc|v s q o Hv Hl' Hc|v s Hv
    |v s q Hv Hc|s e Hc Hf']; try congruence.
  - apply held_up_other; try done; intros ->; destruct Hu; congruence.
  - assert (Some v = Some t) as [= ->] by (rewrite <- Hl; symmetry; apply (lo_read _ Hok); by rewrite Hv).
    unfold waits in Hn. rewrite Ht in Hv. injection Hv as <-. by rewrite Hr in Hn.
  - assert (Some v = Some t) as [= ->] by (rewrite <- Hl; symmetry; apply (lo_read _ Hok); by rewrite Hv).
    unfold waits in Hn. rewrite Ht in Hv. injection Hv as <-. by rewrite Hr in Hn.
  - pose proof (Write_half (cn s) b) as (E1 & E2 & _). rewrite Hw in E1, E2.
    apply held_up_other; try done; intros ->; destruct Hu; congruence.
  - pose proof (CloseWrite_half (cn s)) as (E1 & E2 & _). rewrite Hc in E1, E2.
    apply held_up_other; try done; intros ->; destruct Hu; congruence.
  - apply held_up_other; try done; intros ->; destruct Hu; congruence.
  - apply held_up_other; try done; intros ->; destruct Hu; congruence.
  - pose proof (CloseWrite_half (cn s)) as (E1 & E2 & _). rewrite Hc in E1, E2.
    apply CloseWrite_keeps in Hc as ((e & ->) & _); [|by apply lo_writesChan].
    destruct (decide (v = u)) as [->|]; [|apply held_up_other; try done; intros ->; congruence].
    unfold held_up. cbn in *. assert (u ≠ t) as Hut by (intros ->; congruence).
    rewrite lookup_insert_ne, lookup_insert_eq by done. split_and!; [done|congruence| |by right].
    exists n. split; [done|]. by eapply waits_half.
  - exfalso. enough (closedReads (cn s) = true) by congruence. apply (lo_reads _ Hok v). by rewrite Hv.
  - exfalso. unfold closeConn in Hc. rewrite (lo_readsChan _ Hok), Hcr in Hc. done.
  - lia.
Qed.

(** ** Theorems *)

(** C17: Closing does not end a read: while a goroutine waits in [Read] and the peer is silent, no
    [Close] that another goroutine makes returns, whatever else is called on the connection,
    and the underlying connection stays open, so the read waits on. *)
Theorem close_waits_for_read w t u s s' :
  held_up w t u s → rtc (conn_step w) s s' →
  (∃ n, gors s' !! t = Some (GReading n)) ∧
  (gors s' !! u = Some GClose_write ∨ gors s' !! u = Some GClose_read) ∧ connCloses (cn s') = 0.
Proof.
  intros H Hs. apply (invariant_rtc (conn_step w) (held_up w t u)) in Hs as (_ & H0 & (n & Hn & _) & Hu);
    [eauto|intros a b; apply held_up_conn_step|done].
Qed.

(** The order in which a connection goes: on every run of its goroutines and its peer, the
    underlying connection is closed only after both halves were, at most twice (by [Close]
    and by [closeConn]), and a [Close] that got past its halves had the locks to itself. *)
Theorem conn_close_order w inp out s :
  rtc (any_step w) (conn_init (makeConn inp out)) s →
  0 ≤ connCloses (cn s) ≤ 2 ∧
  (0 < connCloses (cn s) → closedReads (cn s) = true ∧ closedWrites (cn s) = true) ∧
  (∀ t u, in_Close (gors s !! t) = true → in_Close (gors s !! u) = true → t = u) ∧
  (∀ t u, reading (gors s !! t) = true → reading (gors s !! u) = true → t = u).
Proof.
  intros Hs. assert (locks_ok s) as [L1 L2 L3 L4 L5 L6 L7 L8 L8' L9 L10].
  { eapply invariant_rtc; [apply any_step_ok|exact Hs|apply conn_init_ok]. }
  split_and!; rewrite ?L10.
  - repeat case_decide; lia.
  - repeat case_decide; lia.
  - intros Hc. destruct (decide (closed (cn s) = true ∧ closeLock s = None)) as [[? ?]|_]; [by apply L8|].
    destruct (decide (gors s !! 0%nat = Some GCloseConn)) as [E|E]; [lia|]. intuition.
  - intros t u Ht%L2 Hu%L2. congruence.
  - intros t u Ht%L1 Hu%L1. congruence.
Qed.

(** [Close] without a read in its way is the function [QemuConn.Close]: its five parts, run by
    goroutine [t] alone, end in its state with its result. *)
Theorem Close_refines w t s :
  gors s !! t = Some GClose → readLock s = None → closeLock s = None → wf (cn s) →
  ∃ s' e, rtc (conn_step w) s s' ∧ Close (cn s) = (cn s', Ret e) ∧
    gors s' !! t = Some (GDone e) ∧ readLock s' = None ∧ closeLock s' = None.
Proof.
  intros Ht Hr Hl Hq. destruct (closed (cn s)) eqn:Hc.
  { eexists _, (Some errClosed). split; [eapply rtc_once, s_Close_again; eauto|].
    unfold Close. rewrite Hc. cbn. by rewrite lookup_insert_eq. }
  unfold Close. rewrite Hc.
  destruct (CloseWrite (set_closed (cn s) true)) as [q1 o1] eqn:E1.
  pose proof (wf_writes _ Hq) as Hw. pose proof (wf_reads _ Hq) as Hrd.
  pose proof (CloseWrite_keeps (set_closed (cn s) true) q1 o1 Hw E1) as ((e1 & ->) & _ & _ & Ecr & _ & Erc & _).
  cbn in Ecr, Erc. destruct (CloseRead q1) as [q2 o2] eqn:E2.
  pose proof (CloseRead_keeps q1 q2 o2 ltac:(congruence) E2) as ((e2 & ->) & _).
  exists (MkWorld (set_connCloses q2 (connCloses q2 + 1)) None None
    (<[t := GDone None]> (<[t := GClose_conn]> (<[t := GClose_read]> (<[t := GClose_write]> (gors s)))))), None.
  split; [|cbn; rewrite lookup_insert_eq; done].
  eapply rtc_l; [by apply s_Close with (t := t)|]. rewrite Hr.
  eapply rtc_l; [eapply s_Close_write with (t := t); [by cbn; rewrite lookup_insert_eq|exact E1]|].
  eapply rtc_l; [eapply s_Close_read with (t := t); [by cbn; rewrite lookup_insert_eq|done|exact E2]|].
  eapply rtc_l; [by apply s_Close_conn with (t := t); cbn; rewrite lookup_insert_eq|].
  apply rtc_refl.
Qed.

(** A [Close] under way gets through once no read is under way. *)
Lemma close_gets_through w u s :
  locks_ok s → readLock s = None →
  gors s !! u = Some GClose_write ∨ gors s !! u = Some GClose_read →
  ∃ s', rtc (conn_step w) s s' ∧ gors s' !! u = Some (GDone None).
Proof.
  assert (∀ s, locks_ok s → readLock s = None → gors s !! u = Some GClose_read →
    ∃ s', rtc (conn_step w) s s' ∧ gors s' !! u = Some (GDone None)) as Hread.
  { clear s. intros s Hok Hr Hu. destruct (CloseRead (cn s)) as [q o] eqn:E.
    pose proof (CloseRead_keeps _ _ _ (lo_readsChan _ Hok) E) as ((e & ->) & _).
    eexists. split.
    - eapply rtc_l; [by eapply s_Close_read with (t := u)|].
      eapply rtc_once, s_Close_conn with (t := u). cbn. by rewrite lookup_insert_eq.
    - cbn. by rewrite lookup_insert_eq. }
  intros Hok Hr [Hu|Hu]; [|by apply Hread].
  destruct (CloseWrite (cn s)) as [q o] eqn:E.
  pose proof (CloseWrite_keeps _ _ _ (lo_writesChan _ Hok) E) as ((e & ->) & _).
  assert (conn_step w s (MkWorld q (readLock s) (closeLock s) (<[u := GClose_read]> (gors s)))) as Hs
    by (by eapply (s_Close_write w u s q (Ret e))).
  destruct (Hread _ (conn_step_ok _ _ _ Hok Hs)) as (s' & Hs' & Hd); [done|cbn; by rewrite lookup_insert_eq|].
  exists s'. split; [by eapply rtc_l|done].
Qed.

Lemma Read_ends w q n (e : error) : snd (Read w (peer_ends e q) n) ≠ Block.
Proof.
  intros H. destruct (waits_open w (peer_ends e q) n H) as [_ Hf]. done.
Qed.

(** What ends the wait is the peer: once its stream ends the read returns, and the [Close]
    that waited for it can get through. *)
Theorem close_after_peer_ends w t u s (e : error) :
  held_up w t u s →
  ∃ s1 s2, peer_step s s1 ∧ rtc (conn_step w) s1 s2 ∧ gors s2 !! u = Some (GDone None).
Proof.
  intros (Hok & _ & (n & Ht & Hn) & Hu). pose proof (waits_open _ _ _ Hn) as [_ Hf].
  set (s1 := MkWorld (peer_ends e (cn s)) (readLock s) (closeLock s) (gors s)).
  assert (peer_step s s1) as Hp by (by apply p_ends).
  pose proof (peer_step_ok _ _ Hok Hp) as Hok1.
  assert (u ≠ t) as Hut by (intros ->; destruct Hu; congruence).
  assert (∃ s2, conn_step w s1 s2 ∧ readLock s2 = None ∧ gors s2 !! u = gors s !! u) as (s2 & Hs & Hr & Hu2).
  { pose proof (Read_ends w (cn s) n e) as Hb. destruct (Read w (peer_ends e (cn s)) n) as [q [[b err]| |]] eqn:E.
    - eexists. split; [by eapply s_read with (t := t)|]. cbn. by rewrite lookup_insert_ne.
    - eexists. split; [by eapply s_read_panic with (t := t)|]. cbn. by rewrite lookup_insert_ne.
    - done. }
  destruct (close_gets_through w u s2) as (s3 & Hs3 & Hd); [by eapply conn_step_ok|done|by rewrite Hu2|].
  exists s1, s3. split_and!; [done|by eapply rtc_l|done].
Qed.

(** ** Example: a server's reader waits, another goroutine closes *)

Definition idle : Conn := makeConn (MkSource [] None) (MkSink [] None).

Definition demo_held : world :=
  MkWorld (set_closed idle true) (Some 1%nat) (Some 2%nat)
    (<[2%nat := GClose_write]> (<[1%nat := GReading 16]> {[0%nat := GCloseConn]})).

Lemma demo_held_run w : rtc (conn_step w) (conn_init idle) demo_held.
Proof.
  eapply rtc_l; [by apply s_call with (t := 1%nat) (g := GRead 16)|].
  eapply rtc_l; [by apply s_read_lock with (t := 1%nat) (n := 16)|].
  eapply rtc_l; [by apply s_call with (t := 2%nat) (g := GClose)|].
  eapply rtc_l; [by apply s_Close with (t := 2%nat)|]. apply rtc_refl.
Qed.

Lemma demo_held_up : held_up 64 1 2 demo_held.
Proof.
  split; [|split; [done|split; [|by left]]].
  - eapply (invariant_rtc (any_step 64)); [apply any_step_ok| |apply conn_init_ok].
    eapply rtc_subrel; [|apply (demo_held_run 64)]. intros a b H. by left.
  - by exists 16.
Qed.

Lemma close_waits_for_read_witness :
  rtc (conn_step 64) (conn_init idle) demo_held ∧
  ∀ s', rtc (conn_step 64) demo_held s' → connCloses (cn s') = 0.
Proof.
  split; [exact (demo_held_run 64)|].
  intros s' Hs. exact (proj2 (proj2 (close_waits_for_read _ _ _ _ _ demo_held_up Hs))).
Defined.

Lemma conn_close_order_witness : 0 ≤ connCloses (cn demo_held) ≤ 2.
Proof.
  refine (proj1 (conn_close_order 64 (MkSource [] None) (MkSink [] None) demo_held _)).
  eapply rtc_subrel; [|exact (demo_held_run 64)]. intros a b H. left. exact H.
Defined.

Lemma close_after_peer_ends_witness : ∃ s1 s2,
  peer_step demo_held s1 ∧ rtc (conn_step 64) s1 s2 ∧ gors s2 !! 2%nat = Some (GDone None).
Proof. exact (close_after_peer_ends 64 1 2 demo_held EOF demo_held_up). Defined.

Lemma Close_refines_witness : ∃ s',
  rtc (conn_step 64) (with_gor 1 GClose (conn_init idle)) s' ∧
  gors s' !! 1%nat = Some (GDone None) ∧ connCloses (cn s') = 1.
Proof.
  destruct (Close_refines 64 1 (with_gor 1 GClose (conn_init idle))) as (s' & e & H1 & H2 & H3 & _);
    [reflexivity|reflexivity|reflexivity|apply wf_makeConn; discriminate|].
  exists s'. split; [exact H1|].
  pose proof (f_equal (λ p, connCloses (fst p)) H2) as Hn.
  pose proof (f_equal snd H2) as He. cbn [fst snd] in Hn, He.
  injection He as <-. split; [exact H3|]. rewrite <- Hn. reflexivity.
Defined.
