(* ===== verification/QemuAccept.v ===== *)
(** * Connection set-up over the qemu pipe: [ConnBuilder], [PipeConnBuilder] and
      [Pipe] of src/waterfall/golang/net/qemu/qemu.go

    Both ends exchange ["rdy"] before a connection is used.  The environment of an
    [Accept] loop is the list of connections it will be given, each with what its
    peer sends and how much it accepts; a loop that outlives the list waits. *)

From S2P Require Import Prelude GoStrings GoIO QemuConn.

Local Open Scope Z_scope.
Local Open Scope go_scope.

(** ** Host and guest builders *)

Definition rdyMsg : string := "rdy".
Definition rdyBytes : list byte := String.list_ascii_of_string rdyMsg.

(** An accepted [net.Conn]: its two directions. *)
Record rawconn := MkRaw { rin : source; rout : sink }.

(** [ConnBuilder.Accept]: the connections it closed, what is left of the listener,
    and the connection or the listener's error. *)
Fixpoint ConnBuilder_Accept (lis : list (result rawconn)) (shut : list rawconn)
    : list rawconn * list (result rawconn) * outcome (result Conn) :=
  match lis with
  | [] => (shut, [], Block)
  | Err err :: lis => (shut, lis, Ret (Err err))
  | Ok conn :: lis =>
      let '(out, (_, werr)) := sink_write (rout conn) rdyBytes in
      match werr with
      | Some _ => ConnBuilder_Accept lis (shut ++ [MkRaw (rin conn) out])
      | None =>
          match ReadFull (rin conn) (len rdyBytes) with
          | (r, Ret (rdy, None)) =>
              if negb (bool_decide (rdyBytes = rdy))
              then ConnBuilder_Accept lis (shut ++ [MkRaw r out])
              else (shut, lis, Ret (Ok (makeConn r out)))
          | (r, Ret (_, Some _)) => ConnBuilder_Accept lis (shut ++ [MkRaw r out])
          | (_, Panic) => (shut, lis, Panic)
          | (_, Block) => (shut, lis, Block)
          end
      end
  end.

(** [PipeConnBuilder]: the connections its listener will give and the connection
    being synchronised. *)
Record PipeConnBuilder := MkPCB {
  pcb_lis : list (result rawconn);
  pendingConn : option rawconn;
  pcb_shut : list rawconn;
}.

(** [MakePipeConnBuilder(pipe)]: [lis] is what [pipe] will accept. *)
Definition MakePipeConnBuilder (lis : list (result rawconn)) : PipeConnBuilder := MkPCB lis None [].

(** [PipeConnBuilder.Accept] *)
Fixpoint PipeConnBuilder_Accept_loop (lis : list (result rawconn)) (pend : option rawconn)
    (shut : list rawconn) : PipeConnBuilder * outcome (result Conn) :=
  match lis with
  | [] => (MkPCB [] pend shut, Block)
  | Err err :: lis => (MkPCB lis pend shut, Ret (Err err))
  | Ok conn :: lis =>
      let pend := Some conn in
      match ReadFull (rin conn) (len rdyBytes) with
      | (r, Ret (_, Some _)) =>
          PipeConnBuilder_Accept_loop lis pend (shut ++ [MkRaw r (rout conn)])
      | (r, Ret (rdy, None)) =>
          if negb (bool_decide (rdyBytes = rdy))
          then PipeConnBuilder_Accept_loop lis pend (shut ++ [MkRaw r (rout conn)])
          else
            let '(out, (_, werr)) := sink_write (rout conn) rdy in
            match werr with
            | Some _ => PipeConnBuilder_Accept_loop lis pend (shut ++ [MkRaw r out])
            | None => (MkPCB lis None shut, Ret (Ok (makeConn r out)))
            end
      | (_, Panic) => (MkPCB lis pend shut, Panic)
      | (_, Block) => (MkPCB lis pend shut, Block)
      end
  end.

Definition PipeConnBuilder_Accept (b : PipeConnBuilder) : PipeConnBuilder * outcome (result Conn) :=
  PipeConnBuilder_Accept_loop (pcb_lis b) (pendingConn b) (pcb_shut b).

(** ** The guest's pipe listener *)

Definition qemuSvc : string := "pipe:unix:".

(** What one [Write] on the device does: it returns, or hangs. *)
Inductive dresp := Done (n : Z) (err : option error) | Hang.

(** [withTimeout(f, b)]: the result of [f], or a timeout error after 500 ms. *)
Definition withTimeout (r : dresp) : Z * option error :=
  match r with
  | Done n err => (n, err)
  | Hang => (0, Some (ErrorString "handshake timeout"))
  end.

(** How the inner loop of [Pipe.Accept] ends: service written ([br] is set); write
    failed, connection closed; the ["0"] write failed, connection not closed here. *)
Inductive svc := SvcWrote | SvcClosed | SvcOpen.

(** The inner loop: write the rest of the service name; after a short write, write
    ["0"] and go on.  [resps] are the answers of the device in order (a device with no
    answer left hangs), [sent] the bytes it has accepted.  The ["0"] write has no
    timeout. *)
Fixpoint write_service (resps : list dresp) (buff sent : list byte)
    : list byte * outcome svc :=
  match resps with
  | [] => (sent, Ret SvcClosed)
  | r :: resps =>
      let '(written, err) := withTimeout r in
      match err with
      | Some _ => (sent ++ take (Z.to_nat written) buff, Ret SvcClosed)
      | None =>
          let sent := sent ++ take (Z.to_nat written) buff in
          match slice_from buff written with
          | Ret buff =>
              if decide (len buff = 0) then (sent, Ret SvcWrote) else
              match resps with
              | [] => (sent, Block)
              | Hang :: _ => (sent, Block)
              | Done _ (Some _) :: _ => (sent, Ret SvcOpen)
              | Done _ None :: resps => write_service resps buff (sent ++ ["0"%char])
              end
          | Panic => (sent, Panic)
          | Block => (sent, Block)
          end
      end
  end.

(** A connection opened by [Accept]: the bytes it took and how often it was closed. *)
Record devconn := MkDev { dsent : list byte; dcloses : Z }.

(** [svcName] and its terminating NUL: [make([]byte, len(svcName)+1)] filled by [copy]. *)
Definition service_bytes (socketName : string) : list byte :=
  String.list_ascii_of_string (qemuSvc +:+ socketName) ++ ["000"%char].

(** The outer loop of [Pipe.Accept]; [opens] are the results of [connFn]: an error,
    or a connection given by its answers.  [conn] is the connection of the previous
    round, closed again at the top of the loop.  Result: the connections given up and
    the one returned. *)
Fixpoint Pipe_Accept_loop (socketName : string) (opens : list (result (list dresp)))
    (conn : option devconn) (old : list devconn)
    : list devconn * outcome (result devconn) :=
  let old := match conn with
             | Some c => old ++ [MkDev (dsent c) (dcloses c + 1)]
             | None => old
             end in
  match opens with
  | [] => (old, Block)
  | Err err :: _ => (old, Ret (Err err))
  | Ok resps :: opens =>
      match write_service resps (service_bytes socketName) [] with
      | (sent, Ret SvcWrote) => (old, Ret (Ok (MkDev sent 0)))
      | (sent, Ret SvcClosed) => Pipe_Accept_loop socketName opens (Some (MkDev sent 1)) old
      | (sent, Ret SvcOpen) => Pipe_Accept_loop socketName opens (Some (MkDev sent 0)) old
      | (_, Panic) => (old, Panic)
      | (_, Block) => (old, Block)
      end
  end.

(** [Pipe] *)
Record Pipe := MkPipe { socketName : string; pclosed : bool; useVsock : bool }.

(** [q.Accept()]: the device or the vsock dialer gives the connections. *)
Definition Pipe_Accept (q : Pipe) (devOpens vsockDials : list (result (list dresp)))
    : list devconn * outcome (result devconn) :=
  if pclosed q then ([], Ret (Err errClosed)) else
  Pipe_Accept_loop (socketName q) (if useVsock q then vsockDials else devOpens) None [].

(** [q.Close()] *)
Definition Pipe_Close (q : Pipe) : Pipe * option error :=
  (MkPipe (socketName q) true (useVsock q), None).

(** [MakePipe]: vsock if the driver is there, else the qemu device; the arguments are
    the results of the two [os.Stat] calls. *)
Definition MakePipe (name : string) (statVsock statQemu : option error) : result Pipe :=
  match statVsock with
  | None => Ok (MkPipe name false true)
  | Some _ =>
      match statQemu with
      | Some err => Err err
      | None => Ok (MkPipe name false false)
      end
  end.

(** [PipeConnBuilder.Close]: closes the listener (a [Pipe]: its next [Accept] fails
    with [errClosed]) and the connection being synchronised, whose error it returns. *)
Definition PipeConnBuilder_Close (b : PipeConnBuilder) (pendErr : option error)
    : PipeConnBuilder * option error :=
  let ret := None in
  match pendingConn b with
  | Some c => (MkPCB [Err errClosed] (Some c) (pcb_shut b ++ [c]), pendErr)
  | None => (MkPCB [Err errClosed] None (pcb_shut b), ret)
  end.

(** ** The handshake *)

(** The connection [c] answers the handshake, which leaves [q]: ["rdy"] is taken off
    its input and put on its output, and nothing else. *)
Definition synced (c : rawconn) (q : Conn) : Prop :=
  ∃ rest out, rin c = MkSource (rdyBytes ++ rest) (fin (rin c)) ∧
    sink_write (rout c) rdyBytes = (out, (len rdyBytes, None)) ∧
    q = makeConn (MkSource rest (fin (rin c))) out.

Lemma ReadFull_exact r n r' bs :
  0 ≤ n → ReadFull r n = (r', Ret (bs, None)) →
  r = MkSource (bs ++ avail r') (fin r') ∧ fin r' = fin r ∧ len bs = n.
Proof.
  intros Hn. unfold ReadFull. case_decide.
  - intros [= <- <-]. cbn [avail fin]. rewrite take_drop, len_take by lia. by destruct r.
  - destruct (fin r); [|done]. intros [= _ _ He].
Qed.

Lemma ReadFull_not_panic r n r' : ReadFull r n ≠ (r', Panic).
Proof. unfold ReadFull. case_decide; [done|]. by destruct (fin r). Qed.

Lemma sink_write_rdy s s' n : sink_write s rdyBytes = (s', (n, None)) → n = len rdyBytes.
Proof. unfold sink_write. destruct (quota s) as [[k e]|]; [case_decide|]; intros ?; by simplify_eq. Qed.

(** What an [Accept] loop promises: the results it consumed are connections it closed,
    one close each, followed by the connection it synchronised or by the listener's
    error; it never panics. *)
Definition accept_spec (lis : list (result rawconn)) (shut shut' : list rawconn)
    (lis' : list (result rawconn)) (o : outcome (result Conn)) : Prop :=
  ∃ more, shut' = shut ++ more ∧
    (∀ q, o = Ret (Ok q) →
       ∃ pre c, lis = map Ok pre ++ Ok c :: lis' ∧ length more = length pre ∧ synced c q) ∧
    (∀ e, o = Ret (Err e) →
       ∃ pre, lis = map Ok pre ++ Err e :: lis' ∧ length more = length pre) ∧
    o ≠ Panic.

Lemma accept_spec_skip conn lis shut c' shut' lis' o :
  accept_spec lis (shut ++ [c']) shut' lis' o → accept_spec (Ok conn :: lis) shut shut' lis' o.
Proof.
  intros (more & -> & Hok & Herr & Hp). exists (c' :: more).
  rewrite <- app_assoc. repeat split; [| |done].
  - intros q Hq. destruct (Hok q Hq) as (pre & c & Hl & Hm & Hs).
    exists (conn :: pre), c. cbn. by rewrite Hl, Hm.
  - intros e He. destruct (Herr e He) as (pre & Hl & Hm). exists (conn :: pre). cbn. by rewrite Hl, Hm.
Qed.

Lemma accept_spec_block lis shut lis' : accept_spec lis shut shut lis' Block.
Proof. exists []. by rewrite app_nil_r. Qed.

Lemma accept_spec_err e lis shut : accept_spec (Err e :: lis) shut shut lis (Ret (Err e)).
Proof.
  exists []. rewrite app_nil_r. repeat split; [done| |done]. intros e' [= <-]. by exists [].
Qed.

Lemma accept_spec_synced conn lis shut q :
  synced conn q → accept_spec (Ok conn :: lis) shut shut lis (Ret (Ok q)).
Proof.
  exists []. rewrite app_nil_r. repeat split; [|done..]. intros q' [= <-]. by exists [], conn.
Qed.

#[export] Hint Resolve accept_spec_skip accept_spec_block accept_spec_err accept_spec_synced : go.

Lemma synced_intro conn r out n :
  ReadFull (rin conn) (len rdyBytes) = (r, Ret (rdyBytes, None)) →
  sink_write (rout conn) rdyBytes = (out, (n, None)) →
  synced conn (makeConn r out).
Proof.
  intros Er Ew. apply ReadFull_exact in Er as (Hr & Hf & _); [|done]. rewrite Hf in Hr.
  pose proof (sink_write_rdy _ _ _ Ew) as ->. exists (avail r), out.
  split; [done|]. split; [done|]. f_equal. destruct r. cbn in *. by subst.
Qed.

Lemma ConnBuilder_Accept_spec lis shut shut' lis' o :
  ConnBuilder_Accept lis shut = (shut', lis', o) → accept_spec lis shut shut' lis' o.
Proof.
  revert shut. induction lis as [|[conn|err] lis IH]; intros shut; cbn [ConnBuilder_Accept].
  { intros [= <- <- <-]. auto with go. }
  2: { intros [= <- <- <-]. auto with go. }
  destruct (sink_write (rout conn) rdyBytes) as [out [n werr]] eqn:Ew.
  destruct werr; [by eauto with go|].
  destruct (ReadFull (rin conn) (len rdyBytes)) as [r [[rdy [e|]]| |]] eqn:Er.
  - by eauto with go.
  - case_bool_decide as Heq; cbn [negb]; [|by eauto with go].
    intros [= <- <- <-]. subst rdy. apply accept_spec_synced. by eapply synced_intro.
  - by apply ReadFull_not_panic in Er.
  - intros [= <- <- <-]. auto with go.
Qed.

Lemma PipeConnBuilder_Accept_loop_spec lis pend shut b' o :
  PipeConnBuilder_Accept_loop lis pend shut = (b', o) →
  accept_spec lis shut (pcb_shut b') (pcb_lis b') o ∧
  (∀ q, o = Ret (Ok q) → pendingConn b' = None).
Proof.
  revert pend shut. induction lis as [|[conn|err] lis IH]; intros pend shut;
    cbn [PipeConnBuilder_Accept_loop].
  { intros [= <- <-]. split; [cbn; auto with go|done]. }
  2: { intros [= <- <-]. split; [cbn; auto with go|done]. }
  assert (∀ c', PipeConnBuilder_Accept_loop lis (Some conn) (shut ++ [c']) = (b', o) →
          accept_spec (Ok conn :: lis) shut (pcb_shut b') (pcb_lis b') o ∧
          (∀ q, o = Ret (Ok q) → pendingConn b' = None)) as Hnext.
  { intros c' [H1 H2]%IH. split; [by eapply accept_spec_skip|done]. }
  destruct (ReadFull (rin conn) (len rdyBytes)) as [r [[rdy [e|]]| |]] eqn:Er.
  - apply Hnext.
  - case_bool_decide as Heq; cbn [negb]; [|apply Hnext]. subst rdy.
    destruct (sink_write (rout conn) rdyBytes) as [out [n werr]] eqn:Ew.
    destruct werr; [apply Hnext|]. intros [= <- <-]. split; [|done]. cbn.
    apply accept_spec_synced. by eapply synced_intro.
  - by apply ReadFull_not_panic in Er.
  - intros [= <- <-]. split; [cbn; auto with go|done].
Qed.

(** ** The guest's pipe *)

(** The answers of a device that follows the contract of [io.Writer]: a write that
    reports no error has taken all its bytes. *)
Definition writer_contract (n : Z) (resps : list dresp) : Prop :=
  match resps with Done k None :: _ => k = n | _ => True end.

Lemma write_service_contract resps buff sent sent' :
  writer_contract (len buff) resps → write_service resps buff sent = (sent', Ret SvcWrote) →
  sent' = sent ++ buff.
Proof.
  destruct resps as [|[k [e|]|] resps]; cbn [write_service withTimeout writer_contract]; try done.
  intros ->. rewrite take_len. unfold slice_from.
  rewrite decide_True by (pose proof (len_nonneg buff); lia).
  rewrite drop_len, decide_True by done. intros [= <-]. done.
Qed.

Lemma Pipe_Accept_loop_spec name opens conn old old' o :
  Forall (λ c, 1 ≤ dcloses c) old → (∀ c, conn = Some c → 0 ≤ dcloses c) →
  Pipe_Accept_loop name opens conn old = (old', o) →
  Forall (λ c, 1 ≤ dcloses c) old' ∧
  ∀ d, o = Ret (Ok d) → dcloses d = 0 ∧
    (Forall (λ r, ∀ resps, r = Ok resps → writer_contract (len (service_bytes name)) resps) opens →
     dsent d = service_bytes name).
Proof.
  revert conn old. induction opens as [|[resps|err] opens IH]; intros conn old Hold Hconn;
    cbn [Pipe_Accept_loop].
  all: set (old1 := match conn with Some c => _ | None => old end).
  all: assert (Forall (λ c, 1 ≤ dcloses c) old1) as H1
    by (unfold old1; destruct conn as [c|]; [|done]; apply Forall_app_2; [done|];
        constructor; [|done]; cbn; specialize (Hconn c eq_refl); lia).
  { intros [= <- <-]. done. }
  2: { intros [= <- <-]. done. }
  destruct (write_service resps (service_bytes name) []) as [sent [[| |]| |]] eqn:E;
    try (intros [= <- <-]; done).
  - intros [= <- <-]. split; [done|]. intros d [= <-]. split; [done|]. intros HF.
    apply Forall_cons_1 in HF as [Hr _].
    apply write_service_contract in E; [done|by apply Hr].
  - intros H. apply IH in H as [H2 H3]; [|done|intros ? [= <-]; done].
    split; [done|]. intros d Hd. destruct (H3 d Hd) as [? H4]. split; [done|].
    intros HF. by apply Forall_cons_1 in HF as [_ ?%H4].
  - intros H. apply IH in H as [H2 H3]; [|done|intros ? [= <-]; done].
    split; [done|]. intros d Hd. destruct (H3 d Hd) as [? H4]. split; [done|].
    intros HF. by apply Forall_cons_1 in HF as [_ ?%H4].
Qed.

(** ** Properties *)

(** Both [Accept] loops return only connections that completed the handshake, in
    the order the listener gave them: the peer sent ["rdy"], it was answered with
    ["rdy"], exactly those bytes were consumed; every connection given up on the way
    was closed, once; an error is the listener's; nothing panics. *)
Theorem accept_returns_synced (lis : list (result rawconn)) (pend : option rawconn)
    (shut : list rawconn) :
  (let '(shut', lis', o) := ConnBuilder_Accept lis shut in accept_spec lis shut shut' lis' o) ∧
  (let '(b', o) := PipeConnBuilder_Accept (MkPCB lis pend shut) in
   accept_spec lis shut (pcb_shut b') (pcb_lis b') o ∧
   (∀ q, o = Ret (Ok q) → pendingConn b' = None)).
Proof.
  split.
  - destruct (ConnBuilder_Accept lis shut) as [[shut' lis'] o] eqn:E.
    by apply ConnBuilder_Accept_spec.
  - unfold PipeConnBuilder_Accept. cbn [pcb_lis pendingConn pcb_shut].
    destruct (PipeConnBuilder_Accept_loop lis pend shut) as [b' o] eqn:E.
    by apply PipeConnBuilder_Accept_loop_spec in E.
Qed.

(** The host's connection after a handshake with a peer that answers ["rdy"]. *)
Lemma ConnBuilder_Accept_ok X f lis :
  ConnBuilder_Accept (Ok (MkRaw (MkSource (rdyBytes ++ X) f) (MkSink [] None)) :: lis) []
  = ([], lis, Ret (Ok (makeConn (MkSource X f) (MkSink rdyBytes None)))).
Proof.
  cbn [ConnBuilder_Accept rout rin]. rewrite sink_write_healthy, ReadFull_app by done.
  by rewrite bool_decide_true by done.
Qed.

Lemma PipeConnBuilder_Accept_ok X f lis :
  PipeConnBuilder_Accept
    (MkPCB (Ok (MkRaw (MkSource (rdyBytes ++ X) f) (MkSink [] None)) :: lis) None [])
  = (MkPCB lis None [], Ret (Ok (makeConn (MkSource X f) (MkSink rdyBytes None)))).
Proof.
  unfold PipeConnBuilder_Accept. cbn [pcb_lis pendingConn pcb_shut PipeConnBuilder_Accept_loop rout rin].
  rewrite ReadFull_app, bool_decide_true by done. by cbn [negb].
Qed.

(** A host and a guest connected to each other both come out of the handshake, and
    the byte stream survives it: each side has sent exactly the ["rdy"] the other one
    waits for, and when the host then writes the payloads [ps] and closes its writing
    side, the guest, reading what the host put on the pipe since it was opened,
    receives exactly their concatenation and then [io.EOF]. *)
Theorem handshake_then_stream (w : Z) (ns : list Z) (ps : list (list byte))
    (back : list byte) (fh fg : option error) :
  IntWidth w → Forall (λ n, 0 < n) ns → Forall (payload_ok w) ps →
  (length (concat ps) < length ns)%nat →
  ∃ qh qg b,
    ConnBuilder_Accept [Ok (MkRaw (MkSource (rdyBytes ++ back) fh) (MkSink [] None))] []
      = ([], [], Ret (Ok qh)) ∧
    let s := fst (CloseWrite (write_all qh ps)) in
    PipeConnBuilder_Accept
      (MkPCB [Ok (MkRaw (MkSource (taken (wr (wb s))) fg) (MkSink [] None))] None [])
      = (b, Ret (Ok qg)) ∧
    taken (wr (wb qg)) = rdyBytes ∧ avail (rb qh) = back ∧
    drain w qg ns = Ret (concat ps, Some EOF).
Proof.
  intros Hw Hn HF Hfuel.
  exists (makeConn (MkSource back fh) (MkSink rdyBytes None)),
    (makeConn (MkSource (wire ps ++ eof_frame ++ []) fg) (MkSink rdyBytes None)), (MkPCB [] None []).
  split; [apply ConnBuilder_Accept_ok|]. intros s. unfold s.
  rewrite CloseWrite_wire by done. cbn [makeConn wb NewWriterSize wr taken].
  rewrite <- (app_nil_r eof_frame) at 1. rewrite PipeConnBuilder_Accept_ok.
  repeat split. apply drain_holds; [done|done|by apply holds_makeConn|done].
Qed.

Lemma handshake_then_stream_witness :
  let ps := [String.list_ascii_of_string "hello"] in
  ∃ qh qg b,
    ConnBuilder_Accept [Ok (MkRaw (MkSource (rdyBytes ++ []) None) (MkSink [] None))] []
      = ([], [], Ret (Ok qh)) ∧
    let s := fst (CloseWrite (write_all qh ps)) in
    PipeConnBuilder_Accept
      (MkPCB [Ok (MkRaw (MkSource (taken (wr (wb s))) (Some EOF)) (MkSink [] None))] None [])
      = (b, Ret (Ok qg)) ∧
    taken (wr (wb qg)) = rdyBytes ∧ avail (rb qh) = [] ∧
    drain 64 qg [3; 1; 2; 5; 4; 3] = Ret (concat ps, Some EOF).
Proof.
  apply (handshake_then_stream 64 [3; 1; 2; 5; 4; 3]); [apply _|repeat constructor| |vm_compute; lia].
  repeat constructor; vm_compute; reflexivity.
Defined.

(** The guest's [Pipe.Accept] leaks no connection and announces the right
    service: every connection it opened and gave up (a write failed, or the host did
    not answer within the timeout) has been closed, and the connection it returns is
    open and has received exactly [pipe:unix:<socket>] and a NUL byte, when the device
    follows the contract of [io.Writer]; a closed pipe opens nothing. *)
Theorem pipe_accept_no_leak (q : Pipe) (devOpens vsockDials : list (result (list dresp)))
    (old : list devconn) (o : outcome (result devconn)) :
  Pipe_Accept q devOpens vsockDials = (old, o) →
  Forall (λ c, 1 ≤ dcloses c) old ∧
  (pclosed q = true → old = [] ∧ o = Ret (Err errClosed)) ∧
  (∀ d, o = Ret (Ok d) → dcloses d = 0 ∧
    (Forall (λ r, ∀ resps, r = Ok resps →
              writer_contract (len (service_bytes (socketName q))) resps)
       (if useVsock q then vsockDials else devOpens) →
     dsent d = service_bytes (socketName q))).
Proof.
  unfold Pipe_Accept. destruct (pclosed q).
  - intros [= <- <-]. done.
  - intros H. apply Pipe_Accept_loop_spec in H as [H1 H2]; [done|constructor|done].
Qed.

Lemma pipe_accept_no_leak_witness :
  let q := MkPipe "sockets/h2o" false false in
  let opens := [Ok [Hang]; Ok [Done 3 (Some (ErrorString "no host"))]; Ok [Done 22 None]] in
  let old := [MkDev [] 2; MkDev (take 3 (service_bytes "sockets/h2o")) 2] in
  let d := MkDev (service_bytes "sockets/h2o") 0 in
  Forall (λ c, 1 ≤ dcloses c) old ∧
  (false = true → old = [] ∧ Ret (Ok d) = Ret (Err errClosed)) ∧
  (∀ d', Ret (Ok d) = Ret (Ok d') → dcloses d' = 0 ∧
    (Forall (λ r, ∀ resps, r = Ok resps →
              writer_contract (len (service_bytes "sockets/h2o")) resps) opens →
     dsent d' = service_bytes "sockets/h2o")).
Proof.
  intros q opens old d.
  apply (pipe_accept_no_leak q opens [] old (Ret (Ok d))). vm_compute. reflexivity.
Defined.
