(* ===== verification/Control.v ===== *)
(** * Qemu control sockets: src/waterfall/golang/net/qemu/control.go

    One connection, the control socket (virtual descriptor 0), asks the guest to open and
    close the others.  Connections are objects that refer to each other: a data connection
    wraps the connection it was opened with, and closing the control socket closes every
    connection of the table; they live in a heap.  The encoding of the control messages is
    protobuf's: a parameter with the laws the code relies on. *)

From S2P Require Import Prelude GoIO QemuConn.

Local Open Scope Z_scope.

(** [SocketControl] of proto/control_socket.proto *)
Inductive Sort := identity | open | close.
Record SocketControl := MkControl { sc_sort : Sort; sc_fd : Z }.

#[export] Instance Sort_eq_dec : EqDecision Sort.
Proof. solve_decision. Defined.

(** [proto.Marshal] and [proto.Unmarshal] of such a message; the messages have one size. *)
Class ControlCodec := {
  marshal : SocketControl → list byte;
  unmarshal : list byte → result SocketControl;
  csize : Z;
}.

(** What the code relies on: descriptors of 32 bits survive, and the size is fixed. *)
Class ControlCodecLaws {CC : ControlCodec} : Prop := {
  unmarshal_marshal m : 0 ≤ sc_fd m < 2 ^ 32 → unmarshal (marshal m) = Ok m;
  marshal_size m : 0 ≤ sc_fd m < 2 ^ 32 → len (marshal m) = csize;
}.

Section Control.
Context {CC : ControlCodec}.

(** [ControlSocketConn]: its descriptor, the connection it wraps ([None]: the pipe), its
    flags, what it put on the pipe, and how often it closed the pipe. *)
Record cconn := MkCC {
  fd : Z;
  cl : option nat;
  closedReads : bool;
  closedWrites : bool;
  closed : bool;
  out : list byte;
  pipeCloses : Z;
}.

(** [ControlSocket]: the connections by number, the table [m], the control connection [c],
    the connections posted on [available], and the next number. *)
Record ControlSocket := MkCS {
  conns : gmap nat cconn;
  m : gmap Z nat;
  c : option nat;
  available : list (nat * option error);
  next : nat;
}.

(** [MakeControlSocket(pipe)] *)
Definition MakeControlSocket : ControlSocket := MkCS ∅ ∅ None [] 0.

Definition set_conn (i : nat) (q : cconn) (s : ControlSocket) : ControlSocket :=
  MkCS (<[i := q]> (conns s)) (m s) (c s) (available s) (next s).

Definition set_m (f : gmap Z nat → gmap Z nat) (s : ControlSocket) : ControlSocket :=
  MkCS (conns s) (f (m s)) (c s) (available s) (next s).

(** [makeControlSocketConn(conn, fd, cs)]: connection number [next]. *)
Definition makeControlSocketConn (inner : option nat) (f : Z) (s : ControlSocket)
    : ControlSocket :=
  MkCS (<[next s := MkCC f inner false false false [] 0]> (conns s)) (m s) (c s) (available s)
    (S (next s)).

(** [q.Write(b)] on a pipe that accepts everything: a wrapping connection writes through
    the one it wraps. *)
Definition cc_Write (i : nat) (b : list byte) (s : ControlSocket)
    : ControlSocket * option error :=
  match conns s !! i with
  | None => (s, Some errClosed)
  | Some q =>
      if closedWrites q then (s, Some errClosed) else
      let put j q := set_conn j (MkCC (fd q) (cl q) (closedReads q) (closedWrites q) (closed q)
                                   (out q ++ b) (pipeCloses q)) s in
      match cl q with
      | None => (put i q, None)
      | Some j =>
          match conns s !! j with
          | None => (s, Some errClosed)
          | Some q' => if closedWrites q' then (s, Some errClosed) else (put j q', None)
          end
      end
  end.

(** [q.CloseRead()] and [q.CloseWrite()] *)
Definition cc_CloseRead (q : cconn) : cconn * option error :=
  if closedReads q then (q, Some errClosed)
  else (MkCC (fd q) (cl q) true (closedWrites q) (closed q) (out q) (pipeCloses q), None).
Definition cc_CloseWrite (q : cconn) : cconn * option error :=
  if closedWrites q then (q, Some errClosed)
  else (MkCC (fd q) (cl q) (closedReads q) true (closed q) (out q) (pipeCloses q), None).

(** The goroutine [q.closeConn()]: once both halves are closed it closes the pipe. *)
Definition cc_closeConn (q : cconn) : outcome cconn :=
  if closedReads q && closedWrites q
  then Ret (MkCC (fd q) (cl q) (closedReads q) (closedWrites q) (closed q) (out q) (pipeCloses q + 1))
  else Block.

(** The end of [b.close(q)]: the close message on the control socket; without one, a nil
    interface is called. *)
Definition send_close (f : Z) (s : ControlSocket) : outcome ControlSocket :=
  match c s with
  | None => Panic
  | Some k => Ret (fst (cc_Write k (marshal (MkControl close f)) s))
  end.

(** [q.Close()] up to [q.cl.Close()]. *)
Definition mark_closed (q : cconn) : cconn :=
  let q := MkCC (fd q) (cl q) (closedReads q) (closedWrites q) true (out q) (pipeCloses q) in
  fst (cc_CloseRead (fst (cc_CloseWrite q))).

(** [q.Close()] and [b.close(q)].  The calls nest at most three deep: the control socket, a
    connection of the table, the connection it wraps ([close_data], [close_control]). *)
Fixpoint Close_fuel (fuel : nat) (i : nat) (s : ControlSocket)
    : outcome (ControlSocket * option error) :=
  match fuel with
  | O => Block
  | S f =>
      match conns s !! i with
      | None => Panic
      | Some q =>
          if closed q then Ret (s, Some errClosed) else
          let s := set_conn i (mark_closed q) s in
          let closed_inner :=
            match cl q with
            | None =>
                let q := mark_closed q in
                Ret (set_conn i (MkCC (fd q) (cl q) (closedReads q) (closedWrites q) (closed q)
                                   (out q) (pipeCloses q + 1)) s)
            | Some j => match Close_fuel f j s with Ret (s, _) => Ret s | Panic => Panic | Block => Block end
            end in
          let swept :=
            match closed_inner with
            | Ret s =>
                let s := set_m (delete (fd q)) s in
                if decide (fd q = 0) then
                  foldr (λ kv acc,
                    match acc with
                    | Ret s => match Close_fuel f (snd kv) s with
                               | Ret (s, _) => Ret s | Panic => Panic | Block => Block end
                    | o => o
                    end) (Ret s) (map_to_list (m s))
                else Ret s
            | o => o
            end in
          match swept with
          | Ret s => match send_close (fd q) s with
                     | Ret s => Ret (s, None) | Panic => Panic | Block => Block end
          | Panic => Panic
          | Block => Block
          end
      end
  end.

Definition cc_Close (i : nat) (s : ControlSocket) : outcome (ControlSocket * option error) :=
  Close_fuel 3 i s.

(** [b.open(fd)]; [base] is the error of [pipe.Accept()].  The number of the connection it
    returns, and the error. *)
Definition open_fd (f : Z) (base : option error) (s : ControlSocket)
    : ControlSocket * nat * option error :=
  let i := next s in
  let s := makeControlSocketConn None f s in
  match base with
  | Some e => (s, i, Some e)
  | None =>
      match cc_Write i (marshal (MkControl identity f)) s with
      | (s, Some e) => (s, i, Some e)
      | (s, None) =>
          if decide (f = 0) then (MkCS (conns s) (m s) (Some i) (available s) (next s), i, None)
          else
            let j := next s in
            let s := makeControlSocketConn (Some i) f s in
            (set_m <[f := j]> s, j, None)
      end
  end.

(** [b.Open(fd)]: the result is posted for [Accept]. *)
Definition Open (f : Z) (base : option error) (s : ControlSocket) : ControlSocket :=
  let '(s, i, err) := open_fd f base s in
  MkCS (conns s) (m s) (c s) (available s ++ [(i, err)]) (next s).

(** A round of [controlSocketHandler] on the bytes it read: [None] when it returns. *)
Definition handle_control (cBytes : list byte) (base : option error) (s : ControlSocket)
    : option (outcome ControlSocket) :=
  match unmarshal cBytes with
  | Err _ => None
  | Ok cinfo =>
      Some (match sc_sort cinfo with
            | open => Ret (Open (sc_fd cinfo) base s)
            | close =>
                match m s !! sc_fd cinfo with
                | Some i => match cc_Close i s with
                            | Ret (s, _) => Ret s | Panic => Panic | Block => Block end
                | None => Ret s
                end
            | identity => Ret s
            end)
  end.

(** ** The table *)

(** Connection [i] of the table under descriptor [f]: open, wrapping the open connection [j]
    that owns the pipe. *)
Record data_conn (s : ControlSocket) (f : Z) (i j : nat) (q q' : cconn) : Prop := {
  dc_i : conns s !! i = Some q;
  dc_fd : fd q = f;
  dc_cl : cl q = Some j;
  dc_open : closed q = false;
  dc_j : conns s !! j = Some q';
  dc_fd' : fd q' = f;
  dc_cl' : cl q' = None;
  dc_open' : closed q' = false;
  dc_ne : i ≠ j;
}.

Record table_ok (s : ControlSocket) : Prop := {
  to_conn f i : m s !! f = Some i → f ≠ 0 ∧ ∃ j q q', data_conn s f i j q q';
  to_control k : c s = Some k → ∃ q, conns s !! k = Some q ∧ fd q = 0 ∧ cl q = None;
  to_fresh i q : conns s !! i = Some q → (i < next s)%nat ∧ 0 ≤ pipeCloses q;
}.

(** The table does not depend on the posted connections. *)
Lemma table_ok_available s a :
  table_ok s → table_ok (MkCS (conns s) (m s) (c s) a (next s)).
Proof.
  intros [H1 H2 H3]. split; [|done|done]. intros f i Hi. destruct (H1 _ _ Hi) as (Hf & j & q & q' & Hd).
  split; [done|]. exists j, q, q'. by destruct Hd.
Qed.

Lemma mark_closed_eq q :
  mark_closed q = MkCC (fd q) (cl q) true true true (out q) (pipeCloses q).
Proof.
  unfold mark_closed, cc_CloseWrite. cbn. destruct (closedWrites q); cbn; unfold cc_CloseRead; cbn;
    by destruct (closedReads q).
Qed.

(** The closed form of a connection that owns its pipe. *)
Definition shut (q : cconn) : cconn :=
  MkCC (fd q) (cl q) true true true (out q) (pipeCloses q + 1).

Definition close_msg (f : Z) : list byte := marshal (MkControl close f).

(** The state after data connection [i] was closed, before the close messages are sent. *)
Definition data_closed (f : Z) (i j : nat) (q q' : cconn) (s : ControlSocket) : ControlSocket :=
  MkCS (<[j := shut q']> (<[i := mark_closed q]> (conns s))) (delete f (m s)) (c s)
    (available s) (next s).

(** Writing on the control socket changes only what it put on the pipe. *)
Definition control_write (k : nat) (b : list byte) (s : ControlSocket) : ControlSocket :=
  fst (cc_Write k b s).

Lemma control_write_eq k b q s :
  conns s !! k = Some q → cl q = None →
  control_write k b s =
  if closedWrites q then s else
  set_conn k (MkCC (fd q) (cl q) (closedReads q) (closedWrites q) (closed q) (out q ++ b)
                (pipeCloses q)) s.
Proof.
  intros Hk Hcl. unfold control_write, cc_Write. rewrite Hk. destruct (closedWrites q); [done|].
  by rewrite Hcl.
Qed.

Lemma control_write_fields k b s :
  m (control_write k b s) = m s ∧ c (control_write k b s) = c s.
Proof. unfold control_write, cc_Write. repeat case_match; done. Qed.

Lemma set_m_id g s : g (m s) = m s → set_m g s = s.
Proof. intros H. unfold set_m. rewrite H. by destruct s. Qed.

Lemma send_close_eq f k s : c s = Some k → send_close f s = Ret (control_write k (close_msg f) s).
Proof. intros H. unfold send_close. by rewrite H. Qed.

(** Closing a connection that owns its pipe. *)
Lemma close_pipe n j q k s :
  conns s !! j = Some q → closed q = false → cl q = None → fd q ≠ 0 → c s = Some k →
  Close_fuel (S n) j s =
  Ret (control_write k (close_msg (fd q))
    (MkCS (<[j := shut q]> (conns s)) (delete (fd q) (m s)) (c s) (available s) (next s)), None).
Proof.
  intros Hj Ho Hcl Hf Hc. cbn [Close_fuel]. rewrite Hj, Ho, Hcl.
  rewrite decide_False by done.
  rewrite (send_close_eq _ k) by done. rewrite mark_closed_eq. unfold set_m, set_conn.
  cbn [conns m c available next fd cl closedReads closedWrites closed out pipeCloses].
  by rewrite insert_insert_eq.
Qed.

(** Closing a connection of the table. *)
Lemma close_data n f i j q q' k s :
  data_conn s f i j q q' → f ≠ 0 → c s = Some k →
  Close_fuel (S (S n)) i s =
  Ret (control_write k (close_msg f) (control_write k (close_msg f) (data_closed f i j q q' s)), None).
Proof.
  intros [Hi Hf Hcl Ho Hj Hf' Hcl' Ho' Hne] Hf0 Hc.
  assert (Close_fuel (S n) j (set_conn i (mark_closed q) s) =
    Ret (control_write k (close_msg f) (data_closed f i j q q' s), None)) as Hin.
  { rewrite (close_pipe n j q' k); cbn; try done.
    - by rewrite Hf'.
    - by rewrite lookup_insert_ne.
    - by rewrite Hf'. }
  remember (S n) as n1. cbn [Close_fuel]. rewrite Hi, Ho, Hcl, Hin. subst n1.
  rewrite Hf, decide_False by done.
  destruct (control_write_fields k (close_msg f) (data_closed f i j q q' s)) as [Em Ec].
  rewrite set_m_id by (rewrite Em; cbn; apply delete_id, lookup_delete_eq).
  by rewrite (send_close_eq f k) by (rewrite Ec; done).
Qed.

(** ** A control socket that is open *)

(** Closing a connection of the table sends its close message twice, once for the
    connection and once for the connection it wraps. *)
Lemma close_data_open n f i j q q' k qk s :
  data_conn s f i j q q' → f ≠ 0 → c s = Some k → conns s !! k = Some qk → fd qk = 0 →
  cl qk = None → closedWrites qk = false →
  ∃ s', Close_fuel (S (S n)) i s = Ret (s', None) ∧ m s' = delete f (m s) ∧ c s' = Some k ∧
    conns s' = <[k := MkCC 0 None (closedReads qk) false (closed qk)
                        (out qk ++ close_msg f ++ close_msg f) (pipeCloses qk)]>
                 (<[j := shut q']> (<[i := mark_closed q]> (conns s))) ∧ next s' = next s.
Proof.
  intros Hd Hf0 Hc Hk Hk0 Hkcl Hkw. rewrite (close_data n f i j q q' k) by done.
  destruct Hd as [Hi Hf Hcl Ho Hj Hf' Hcl' Ho' Hne].
  assert (k ≠ i ∧ k ≠ j) as [Hki Hkj] by (split; intros ->; congruence).
  assert (conns (data_closed f i j q q' s) !! k = Some qk) as Hk1
    by (cbn; by rewrite !lookup_insert_ne by done).
  rewrite (control_write_eq k _ qk (data_closed f i j q q' s)) by done. rewrite Hkw.
  erewrite control_write_eq; [|cbn; by rewrite lookup_insert_eq|done]. cbn.
  eexists. split; [done|]. cbn. rewrite insert_insert_eq, Hk0, Hkcl, <- app_assoc. done.
Qed.

(** ** A control socket that is closed *)

Lemma close_data_closed n f i j q q' k qk s :
  data_conn s f i j q q' → f ≠ 0 → c s = Some k → conns s !! k = Some qk → fd qk = 0 →
  cl qk = None → closedWrites qk = true →
  Close_fuel (S (S n)) i s = Ret (data_closed f i j q q' s, None).
Proof.
  intros Hd Hf0 Hc Hk Hk0 Hkcl Hkw. rewrite (close_data n f i j q q' k) by done.
  destruct Hd as [Hi Hf Hcl Ho Hj Hf' Hcl' Ho' Hne].
  assert (k ≠ i ∧ k ≠ j) as [Hki Hkj] by (split; intros ->; congruence).
  assert (conns (data_closed f i j q q' s) !! k = Some qk) as Hk1
    by (cbn; by rewrite !lookup_insert_ne by done).
  do 2 (rewrite (control_write_eq k _ qk (data_closed f i j q q' s)) by done; rewrite Hkw). done.
Qed.

(** The sweep over the table: [done] are the entries already closed. *)
Definition sweep (f : nat) (s : ControlSocket) (l : list (Z * nat)) : outcome ControlSocket :=
  foldr (λ kv acc,
    match acc with
    | Ret s => match Close_fuel f (snd kv) s with
               | Ret (s, _) => Ret s | Panic => Panic | Block => Block end
    | o => o
    end) (Ret s) l.

(** Connection [i] of descriptor [f] and the connection it wraps are closed, and the pipe
    too. *)
Definition data_shut (s : ControlSocket) (f : Z) (i : nat) : Prop :=
  ∃ q j q', conns s !! i = Some q ∧ fd q = f ∧ closed q = true ∧ cl q = Some j ∧
            conns s !! j = Some q' ∧ fd q' = f ∧ closed q' = true ∧ 0 < pipeCloses q'.

Lemma sweep_spec n k qk s l :
  c s = Some k → conns s !! k = Some qk → fd qk = 0 → cl qk = None → closedWrites qk = true →
  NoDup l.*1 →
  Forall (λ kv, fst kv ≠ 0 ∧ ∃ j q q', data_conn s (fst kv) (snd kv) j q q' ∧ 0 ≤ pipeCloses q') l →
  ∃ s', sweep (S (S n)) s l = Ret s' ∧ c s' = Some k ∧ next s' = next s ∧
    m s' = foldr (λ kv t, delete (fst kv) t) (m s) l ∧
    Forall (λ kv, data_shut s' (fst kv) (snd kv)) l ∧
    (∀ x q, conns s !! x = Some q → (∀ kv, kv ∈ l → fd q ≠ fst kv) → conns s' !! x = Some q) ∧
    (∀ x, is_Some (conns s' !! x) → is_Some (conns s !! x)).
Proof.
  intros Hc Hk Hk0 Hkcl Hkw. induction l as [|[f i] l IH]; intros Hnd Hl; cbn [sweep foldr].
  { exists s. by split_and!. }
  cbn in Hnd. pose proof (NoDup_cons_1_1 _ _ Hnd) as Hnf. apply NoDup_cons_1_2 in Hnd.
  apply Forall_cons_1 in Hl as [(Hf0 & j & q & q' & Hd & Hpc) Hl]. cbn in Hf0, Hd.
  destruct (IH Hnd Hl) as (s1 & E1 & Hc1 & Hn1 & Hm1 & Hs1 & Hsame & Hdom).
  change (foldr _ (Ret s) l) with (sweep (S (S n)) s l). rewrite E1. cbn [snd fst].
  assert (∀ kv, kv ∈ l → f ≠ fst kv) as Hfl.
  { intros kv Hkv ->. apply Hnf. apply list_elem_of_fmap. eauto. }
  assert (∀ kv, kv ∈ l → 0 ≠ fst kv) as H0l.
  { intros kv Hkv. rewrite Forall_in in Hl. by destruct (Hl kv Hkv) as [? _]. }
  destruct Hd as [Hi Hf Hcl Ho Hj Hf' Hcl' Ho' Hne].
  assert (data_conn s1 f i j q q') as Hd1.
  { split; try done; [apply Hsame|apply Hsame]; try done; intros kv Hkv; [rewrite Hf|rewrite Hf']; auto. }
  assert (conns s1 !! k = Some qk) as Hk1 by (apply Hsame; [done|intros kv ?; rewrite Hk0; auto]).
  rewrite (close_data_closed n f i j q q' k qk) by done.
  exists (data_closed f i j q q' s1). split_and!; [done|done|done|cbn; by rewrite Hm1| | |].
  - constructor.
    + exists (mark_closed q), j, (shut q'). cbn [conns data_closed fst snd].
      rewrite lookup_insert_ne, !lookup_insert_eq by done. rewrite mark_closed_eq. cbn.
      split_and!; try done. lia.
    + rewrite Forall_in in Hs1 |- *. intros [g x] Hx.
      destruct (Hs1 _ Hx) as (q1 & j1 & q1' & H1 & H2 & H3 & H4 & H5 & H6 & H7 & H8). cbn in *.
      pose proof (Hfl _ Hx) as Hgf. cbn in Hgf.
      destruct Hd1 as [Hi1 _ _ _ Hj1 _ _ _ _].
      exists q1, j1, q1'. cbn. split_and!; try done; (rewrite !lookup_insert_ne; [done|..]);
        intros ->; congruence.
  - intros x q0 Hx Hq. assert (fd q0 ≠ f) as Hqf by (apply (Hq (f, i)); left).
    cbn. rewrite !lookup_insert_ne by (intros ->; congruence).
    apply Hsame; [done|]. intros kv Hkv. apply Hq. by right.
  - intros x. cbn. rewrite !lookup_insert_is_Some'. naive_solver.
Qed.

Lemma foldr_delete_None (l : list (Z * nat)) (t : gmap Z nat) f :
  t !! f = None ∨ f ∈ l.*1 → foldr (λ kv t, delete (fst kv) t) t l !! f = None.
Proof.
  revert t. induction l as [|[g x] l IH]; intros t Ht; cbn.
  - destruct Ht as [?|Ht]; [done|by apply elem_of_nil in Ht].
  - destruct (decide (g = f)) as [->|Hgf]; [apply lookup_delete_eq|].
    rewrite lookup_delete_ne by done. apply IH. destruct Ht as [?|Ht]; [by left|right].
    cbn in Ht. by apply elem_of_cons in Ht as [->|?].
Qed.

(** Closing the control socket, with three levels of calls. *)
Lemma close_control k qk s :
  table_ok s → c s = Some k → conns s !! k = Some qk → closed qk = false →
  ∃ s', Close_fuel 3 k s = Ret (s', None) ∧ m s' = ∅ ∧ conns s' !! k = Some (shut qk) ∧
    ∀ f i, m s !! f = Some i → data_shut s' f i.
Proof.
  intros Hok Hc Hk Ho. destruct (to_control _ Hok _ Hc) as (q & Hq & Hq0 & Hqcl).
  rewrite Hk in Hq. injection Hq as <-.
  set (s1 := MkCS (<[k := shut qk]> (conns s)) (m s) (c s) (available s) (next s)).
  assert (conns s1 !! k = Some (shut qk)) as Hk1 by (cbn; by rewrite lookup_insert_eq).
  assert (Forall (λ kv, fst kv ≠ 0 ∧ ∃ j q q', data_conn s1 (fst kv) (snd kv) j q q' ∧
    0 ≤ pipeCloses q') (map_to_list (m s))) as HF.
  { apply Forall_in. intros [f i] Hin. apply elem_of_map_to_list in Hin.
    destruct (to_conn _ Hok _ _ Hin) as (Hf0 & j & q & q' & [Hi Hf Hcl Hop Hj Hf' Hcl' Hop' Hne]).
    split; [done|]. exists j, q, q'. split; [|by eapply (to_fresh s)].
    split; try done; cbn; (rewrite lookup_insert_ne; [done|]); intros <-; congruence. }
  destruct (sweep_spec 0 k (shut qk) s1 (map_to_list (m s))) as (s' & E & Hc' & _ & Hm' & Hs' & Hsame & _);
    [done|done|done|done|done|apply NoDup_fst_map_to_list|done|].
  assert (Hkk : conns s' !! k = Some (shut qk)).
  { apply Hsame; [done|]. intros kv Hkv. rewrite Forall_in in HF. cbn. rewrite Hq0.
    by destruct (HF kv Hkv) as [? _]. }
  assert (m s !! 0 = None) as Hm0.
  { destruct (m s !! 0) eqn:E0; [|done]. by destruct (to_conn _ Hok _ _ E0) as [? _]. }
  exists s'. split_and!.
  - remember 2%nat as n2 eqn:E2. cbn [Close_fuel]. rewrite Hk, Ho, Hqcl, Hq0, decide_True by done.
    rewrite mark_closed_eq. unfold set_conn, set_m.
    cbn [conns m c available next fd cl closedReads closedWrites closed out pipeCloses].
    rewrite insert_insert_eq, delete_id by done.
    change (foldr _ (Ret ?x) (map_to_list (m s))) with (sweep n2 x (map_to_list (m s))).
    fold (shut qk). subst n2. fold s1. rewrite E.
    rewrite (send_close_eq 0 k) by done. by rewrite (control_write_eq k _ (shut qk)).
  - rewrite Hm'. cbn. apply map_eq. intros f. rewrite lookup_empty.
    apply foldr_delete_None. destruct (m s !! f) as [x|] eqn:Ef; [right|by left].
    apply list_elem_of_fmap. exists (f, x). split; [done|]. by apply elem_of_map_to_list.
  - done.
  - intros f i Hfi. rewrite Forall_in in Hs'. apply (Hs' (f, i)). by apply elem_of_map_to_list.
Qed.

(** ** Opening *)

Lemma lookup_fresh s i : table_ok s → (next s ≤ i)%nat → conns s !! i = None.
Proof.
  intros Hok Hi. destruct (conns s !! i) eqn:E; [|done]. apply (to_fresh _ Hok) in E. lia.
Qed.

(** The state after a connection was opened for descriptor [f ≠ 0]. *)
Lemma open_data f s :
  table_ok s → f ≠ 0 →
  open_fd f None s =
  (MkCS (<[S (next s) := MkCC f (Some (next s)) false false false [] 0]>
           (<[next s := MkCC f None false false false (marshal (MkControl identity f)) 0]> (conns s)))
     (<[f := S (next s)]> (m s)) (c s) (available s) (S (S (next s))),
   S (next s), None).
Proof.
  intros Hok Hf. unfold open_fd, makeControlSocketConn, cc_Write. cbn [conns].
  rewrite lookup_insert_eq. cbn. rewrite decide_False by done.
  unfold set_m, set_conn. cbn. by rewrite insert_insert_eq.
Qed.

Lemma open_data_ok f s :
  table_ok s → f ≠ 0 → table_ok (fst (fst (open_fd f None s))).
Proof.
  intros Hok Hf. rewrite (open_data f s Hok Hf). cbn [fst].
  pose proof (lookup_fresh s (next s) Hok ltac:(lia)) as Hn1.
  pose proof (lookup_fresh s (S (next s)) Hok ltac:(lia)) as Hn2.
  assert (∀ x q, conns s !! x = Some q → x ≠ next s ∧ x ≠ S (next s)) as Hold
    by (intros x q Hx; split; intros ->; congruence).
  split; cbn.
  - intros g i [[<- <-]|[Hne H]]%lookup_insert_Some.
    + split; [done|]. exists (next s), (MkCC f (Some (next s)) false false false [] 0),
        (MkCC f None false false false (marshal (MkControl identity f)) 0).
      split; cbn; try done; [by rewrite lookup_insert_eq|].
      rewrite lookup_insert_ne by lia. by rewrite lookup_insert_eq.
    + destruct (to_conn _ Hok _ _ H) as (Hg & j & q & q' & [Hi H1 H2 H3 Hj H4 H5 H6 H7]).
      split; [done|]. exists j, q, q'. destruct (Hold _ _ Hi), (Hold _ _ Hj).
      split; try done; cbn; by rewrite !lookup_insert_ne by lia.
  - intros k Hk. destruct (to_control _ Hok _ Hk) as (q & Hq & ?). exists q.
    destruct (Hold _ _ Hq). by rewrite !lookup_insert_ne by lia.
  - intros i q [[<- <-]|[_ [[<- <-]|[_ H]]%lookup_insert_Some]]%lookup_insert_Some; cbn; [lia|lia|].
    destruct (to_fresh _ Hok _ _ H). lia.
Qed.

(** The state after the control socket was opened. *)
Lemma open_control s :
  open_fd 0 None s =
  (MkCS (<[next s := MkCC 0 None false false false (marshal (MkControl identity 0)) 0]> (conns s))
     (m s) (Some (next s)) (available s) (S (next s)), next s, None).
Proof.
  unfold open_fd, makeControlSocketConn, cc_Write. cbn [conns]. rewrite lookup_insert_eq. cbn.
  by rewrite insert_insert_eq.
Qed.

Lemma open_control_ok s : table_ok s → table_ok (fst (fst (open_fd 0 None s))).
Proof.
  intros Hok. rewrite open_control. cbn [fst].
  pose proof (lookup_fresh s (next s) Hok ltac:(lia)) as Hn.
  split; cbn.
  - intros g i H. destruct (to_conn _ Hok _ _ H) as (Hg & j & q & q' & [Hi H1 H2 H3 Hj H4 H5 H6 H7]).
    split; [done|]. exists j, q, q'.
    split; try done; cbn; (rewrite lookup_insert_ne; [done|]); intros <-; congruence.
  - intros k [= <-]. eexists. by rewrite lookup_insert_eq.
  - intros i q [[<- <-]|[_ H]]%lookup_insert_Some; cbn; [lia|].
    destruct (to_fresh _ Hok _ _ H). lia.
Qed.

Lemma MakeControlSocket_ok : table_ok MakeControlSocket.
Proof. by split. Qed.

(** ** Theorems *)

(** When the control socket goes, everything goes: closing it closes every connection of
    the table, each with the connection it wraps and its pipe, empties the table, and
    returns. *)
Theorem control_gone_closes_all k qk s :
  table_ok s → c s = Some k → conns s !! k = Some qk → closed qk = false →
  ∃ s', cc_Close k s = Ret (s', None) ∧ m s' = ∅ ∧ conns s' !! k = Some (shut qk) ∧
    ∀ f i, m s !! f = Some i → data_shut s' f i.
Proof. apply close_control. Qed.

(** The table after one of its connections was closed: the others have other descriptors. *)
Lemma close_data_table f i j q q' k qk qk' s s' :
  table_ok s → data_conn s f i j q q' → f ≠ 0 → conns s !! k = Some qk → fd qk = 0 →
  m s' = delete f (m s) → c s' = Some k → next s' = next s →
  conns s' = <[k := qk']> (<[j := shut q']> (<[i := mark_closed q]> (conns s))) →
  fd qk' = 0 → cl qk' = None → pipeCloses qk' = pipeCloses qk → table_ok s'.
Proof.
  intros Hok [Hi Hf Hcl Ho Hj Hf' Hcl' Ho' Hne] Hf0 Hk Hk0 Em Ec En Es Hq1 Hq2 Hq3.
  split; rewrite ?Em, ?Ec, ?En.
  - intros g x [Hgf Hx]%lookup_delete_Some.
    destruct (to_conn _ Hok _ _ Hx) as (Hg & y & p & p' & [H1 H2 H3 H4 H5 H6 H7 H8 H9]).
    split; [done|]. exists y, p, p'. split; try done; rewrite Es;
      rewrite !lookup_insert_ne by (intros <-; congruence); done.
  - intros x [= <-]. exists qk'. by rewrite Es, lookup_insert_eq.
  - intros x p. rewrite Es.
    intros [[<- <-]|[_ [[<- <-]|[_ [[<- <-]|[_ H]]%lookup_insert_Some]]%lookup_insert_Some]]%lookup_insert_Some.
    + destruct (to_fresh _ Hok _ _ Hk). by rewrite Hq3.
    + destruct (to_fresh _ Hok _ _ Hj). cbn. lia.
    + destruct (to_fresh _ Hok _ _ Hi). by rewrite mark_closed_eq.
    + by apply (to_fresh _ Hok).
Qed.

(** Closing a connection tells the host twice: with the control socket open, [Close] of a
    connection of the table closes it, the connection it wraps and the pipe, removes it
    from the table (which stays well formed), and sends its close message two times. *)
Theorem control_close_twice f i k qk s :
  table_ok s → m s !! f = Some i → c s = Some k → conns s !! k = Some qk →
  closedWrites qk = false →
  ∃ s' qk', cc_Close i s = Ret (s', None) ∧ m s' = delete f (m s) ∧ data_shut s' f i ∧
    table_ok s' ∧ conns s' !! k = Some qk' ∧ out qk' = out qk ++ close_msg f ++ close_msg f.
Proof.
  intros Hok Hi Hc Hk Hw. destruct (to_conn _ Hok _ _ Hi) as (Hf & j & q & q' & Hd).
  destruct (to_control _ Hok _ Hc) as (q0 & Hq0 & H0 & Hcl). rewrite Hk in Hq0. injection Hq0 as <-.
  destruct (close_data_open 1 f i j q q' k qk s) as (s' & E & Hm & Hcs & Hs' & Hnx); try done.
  pose proof (close_data_table _ _ _ _ _ _ _ _ _ _ Hok Hd Hf Hk H0 Hm Hcs Hnx Hs'
    eq_refl eq_refl eq_refl) as Hok'.
  destruct Hd as [Hdi H1 H2 H3 Hdj H4 H5 H6 H7].
  assert (k ≠ i ∧ k ≠ j) as [Hki Hkj] by (split; intros ->; congruence).
  exists s'. eexists.
  split_and!; [exact E|exact Hm| |exact Hok'|rewrite Hs'; by rewrite lookup_insert_eq|done].
  exists (mark_closed q), j, (shut q'). rewrite Hs'.
  rewrite (lookup_insert_ne _ k i), (lookup_insert_ne _ k j) by done.
  rewrite lookup_insert_ne, !lookup_insert_eq by done. rewrite mark_closed_eq. cbn.
  split_and!; try done. destruct (to_fresh _ Hok _ _ Hdj). lia.
Qed.

(** The guest answers a request to open: for a descriptor other than 0 the handler opens
    a connection whose first bytes on its pipe are the identity message of that descriptor,
    files it, posts it for [Accept], and keeps the table well formed. *)
Theorem control_open_identity `{!ControlCodecLaws} f s :
  table_ok s → 0 < f < 2 ^ 32 →
  ∃ s' i j q q', handle_control (marshal (MkControl open f)) None s = Some (Ret s') ∧
    m s' !! f = Some i ∧ data_conn s' f i j q q' ∧ out q' = marshal (MkControl identity f) ∧
    available s' = available s ++ [(i, None)] ∧ table_ok s'.
Proof.
  intros Hok Hf. unfold handle_control. rewrite unmarshal_marshal by (cbn; lia). cbn [sc_sort sc_fd].
  pose proof (open_data_ok f s Hok ltac:(lia)) as Hok'. unfold Open.
  rewrite (open_data f s Hok) in * by lia. cbn [fst] in Hok'.
  eexists _, (S (next s)), (next s), (MkCC f (Some (next s)) false false false [] 0),
    (MkCC f None false false false (marshal (MkControl identity f)) 0). split; [done|]. split; [cbn; by rewrite lookup_insert_eq|].
  split_and!.
  - split; cbn; [by rewrite lookup_insert_eq|..|lia]; try done.
    rewrite lookup_insert_ne by lia. by rewrite lookup_insert_eq.
  - done.
  - done.
  - exact (table_ok_available _ _ Hok').
Qed.
End Control.

(** ** The wire format *)

(** The protobuf encoding of a [SocketControl]: a tagged varint and a tagged fixed32. *)
Module Wire.
Definition sort_byte (x : Sort) : byte :=
  byte_of_Z (match x with identity => 0 | open => 1 | close => 2 end).

Definition byte_sort (b : byte) : option Sort :=
  if decide (b = byte_of_Z 0) then Some identity
  else if decide (b = byte_of_Z 1) then Some open
  else if decide (b = byte_of_Z 2) then Some close else None.

Definition encode (x : SocketControl) : list byte :=
  byte_of_Z 8 :: sort_byte (sc_sort x) :: byte_of_Z 21 :: put_uint32 (sc_fd x).

Definition decode (l : list byte) : result SocketControl :=
  match l with
  | t1 :: b :: t2 :: rest =>
      match byte_sort b with
      | Some x => if decide (t1 = byte_of_Z 8 ∧ t2 = byte_of_Z 21 ∧ len rest = 4)
                  then Ok (MkControl x (get_uint32 rest)) else Err UnexpectedEOF
      | None => Err UnexpectedEOF
      end
  | _ => Err UnexpectedEOF
  end.

#[export] Instance wire : ControlCodec := {| marshal := encode; unmarshal := decode; csize := 7 |}.

#[export] Instance wire_laws : @ControlCodecLaws wire.
Proof.
  split; intros [x f] Hf; cbn [sc_fd] in Hf; [|done].
  cbn [unmarshal marshal wire]. unfold encode, decode. cbn [sc_sort sc_fd].
  assert (byte_sort (sort_byte x) = Some x) as -> by (by destruct x).
  rewrite decide_True by done. by rewrite get_put_uint32.
Qed.
End Wire.
Import Wire.

(** A guest with its control socket and one connection, descriptor 5. *)
Definition cs1 : ControlSocket := fst (fst (open_fd (CC := wire) 0 None MakeControlSocket)).
Definition cs2 : ControlSocket := fst (fst (open_fd (CC := wire) 5 None cs1)).

Lemma cs1_ok : table_ok cs1.
Proof. apply (open_control_ok (CC := wire)), MakeControlSocket_ok. Qed.

Lemma cs2_ok : table_ok cs2.
Proof. apply (open_data_ok (CC := wire)); [apply cs1_ok|done]. Qed.

Definition cs2_control : cconn := MkCC 0 None false false false (encode (MkControl identity 0)) 0.

Lemma control_gone_closes_all_witness : ∃ s',
  cc_Close (CC := wire) 0 cs2 = Ret (s', None) ∧ m s' = ∅ ∧ data_shut s' 5 2.
Proof.
  destruct (control_gone_closes_all (CC := wire) 0 cs2_control cs2 cs2_ok) as (s' & H1 & H2 & _ & H3);
    [vm_compute; reflexivity|vm_compute; reflexivity|reflexivity|].
  exists s'. split; [exact H1|split; [exact H2|apply H3; vm_compute; reflexivity]].
Defined.

Lemma control_close_twice_witness : ∃ s' qk',
  cc_Close (CC := wire) 2 cs2 = Ret (s', None) ∧ conns s' !! 0%nat = Some qk' ∧
  out qk' = encode (MkControl identity 0) ++ encode (MkControl close 5) ++ encode (MkControl close 5).
Proof.
  destruct (control_close_twice (CC := wire) 5 2 0 cs2_control cs2 cs2_ok)
    as (s' & qk' & H1 & _ & _ & _ & H2 & H3);
    [vm_compute; reflexivity|vm_compute; reflexivity|vm_compute; reflexivity|reflexivity|].
  exists s', qk'. split; [exact H1|split; [exact H2|exact H3]].
Defined.

Lemma control_open_identity_witness : ∃ s' i,
  handle_control (CC := wire) (encode (MkControl open 7)) None cs2 = Some (Ret s') ∧
  m s' !! 7 = Some i.
Proof.
  destruct (control_open_identity (CC := wire) 7 cs2 cs2_ok) as (s' & i & _ & _ & _ & H1 & H2 & _);
    [lia|].
  exists s', i. split; [exact H1|exact H2].
Defined.
