(* ===== verification/ControlStep.v ===== *)
(** * A session over control sockets: net/qemu/control.go as a whole

    The goroutines of a guest that serves control sockets, as a step relation over the heap of
    [Control]: the server's [Accept], the handler of the control connection, a goroutine per
    request to open, readers, and closes.  A goroutine is a list of the instructions it still
    has to run; a call pushes those of its body.  A read holds the read lock of its
    connection (and of the connection it wraps) until the host lets it return, and a close
    passes through that lock, as in [ConnLocks].  Writes do not wait. *)

From S2P Require Import Prelude GoIO QemuConn Control.

Local Open Scope Z_scope.

(** ** Goroutines *)

(** What the host makes of a read of the handler: the whole message, a part of it, an error. *)
Inductive hread := HMsg (cBytes : list byte) | HPart | HErr.

Inductive instr :=
(** [b.Accept()]: the test of [b.c], [b.open(0)] in it, the wait on [b.available] *)
| IAccept | IOpenControl | IRecv
(** [b.Open(fd)]: the wait in [b.pipe.Accept()], then the send on [b.available] *)
| IOpen (f : Z) | IPost (i : nat) (err : option error)
(** [b.controlSocketHandler()]: [k0] is the connection its deferred call closes, [k] the one
    it reads; before the read lock, and in the read *)
| IHandler (k0 : nat) | IHLock (k0 k : nat) | IHRead (k0 k : nat)
(** [Read] on connection [i]: before its lock; with it, before that of the wrapped connection;
    in the read of the pipe, with the locks [js] *)
| IRead (i : nat) | IReadIn (i : nat) | IPipe (js : list nat)
(** [Write] on connection [i] *)
| IWrite (i : nat) (b : list byte)
(** [Close] on connection [i], by parts, and [b.close(i)]; [m.Range] visits every key that was
    there at its start ([todo]) and stays, perhaps others, and none twice *)
| IClose (i : nat) | ICloseWrite (i : nat) | ICloseRead (i : nat) | ICloseInner (i : nat)
| IDelete (i : nat) | IRange (i : nat) | ISweep (i : nat) (todo seen : list Z)
| ISend (i : nat) | IUnlock (i : nat)
(** the goroutine [closeConn], and [ControlSocket.Close] with [b.pipe.Close()] *)
| ICloseConn (i : nat) | ISockClose | IPipeClose.

#[export] Instance instr_eq_dec : EqDecision instr.
Proof. solve_decision. Defined.

(** The heap, the connections whose read lock, whose close lock is held, the goroutines, what
    [Accept] returned so far, whether the pipe was closed, whether the process died. *)
Record world := MkW {
  cs : ControlSocket;
  rlock : gset nat;
  clock : gset nat;
  thr : gmap nat (list instr);
  accepted : list (nat * option error);
  pipeClosed : bool;
  crashed : bool;
}.

Definition set_cs s w := MkW s (rlock w) (clock w) (thr w) (accepted w) (pipeClosed w) (crashed w).
Definition set_rlock l w := MkW (cs w) l (clock w) (thr w) (accepted w) (pipeClosed w) (crashed w).
Definition set_clock l w := MkW (cs w) (rlock w) l (thr w) (accepted w) (pipeClosed w) (crashed w).
Definition set_thr h w := MkW (cs w) (rlock w) (clock w) h (accepted w) (pipeClosed w) (crashed w).
Definition set_accepted a w := MkW (cs w) (rlock w) (clock w) (thr w) a (pipeClosed w) (crashed w).
Definition set_pipeClosed w := MkW (cs w) (rlock w) (clock w) (thr w) (accepted w) true (crashed w).
Definition set_crashed w := MkW (cs w) (rlock w) (clock w) (thr w) (accepted w) (pipeClosed w) true.

(** Goroutine [t] goes on with [p]. *)
Definition go_on (t : nat) (p : list instr) (w : world) : world := set_thr (<[t := p]> (thr w)) w.

(** [go ...]: a goroutine of its own. *)
Definition go (u : nat) (p : list instr) (w : world) : world := set_thr (<[u := p]> (thr w)) w.

Definition set_c (k : nat) (s : ControlSocket) : ControlSocket :=
  MkCS (conns s) (m s) (Some k) (available s) (next s).

(** The body of [q.Close()] behind the test of [closed]. *)
Definition close_body (i : nat) : list instr :=
  [ICloseWrite i; ICloseRead i; ICloseInner i; IDelete i; IRange i; ISend i; IUnlock i].

Definition mark (i : nat) (q : cconn) (s : ControlSocket) : ControlSocket :=
  set_conn i (MkCC (fd q) (cl q) (closedReads q) (closedWrites q) true (out q) (pipeCloses q)) s.

(** [q.cl.Close()] of a connection that owns its pipe. *)
Definition close_pipe_of (i : nat) (q : cconn) (s : ControlSocket) : ControlSocket :=
  set_conn i (MkCC (fd q) (cl q) (closedReads q) (closedWrites q) (closed q) (out q)
                (pipeCloses q + 1)) s.

(** What the server may call: on a connection that [Accept] gave it, or on the listener. *)
Definition user_call (w : world) (p : list instr) : Prop :=
  p = [IAccept] ∨ p = [ISockClose] ∨
  ∃ i, (i, None) ∈ accepted w ∧ (p = [IRead i] ∨ (∃ b, p = [IWrite i b]) ∨
    p = [IClose i] ∨ p = [ICloseRead i] ∨ p = [ICloseWrite i]).

Section steps.
Context {CC : ControlCodec}.

(** One round of the handler on a whole message: the goroutine it starts, if any, and what it
    goes on with. *)
Definition handler_round (cBytes : list byte) (k0 : nat) (s : ControlSocket)
    : option (list instr) * list instr :=
  match unmarshal cBytes with
  | Err _ => (None, [IClose k0])
  | Ok cinfo =>
      match sc_sort cinfo with
      | open => (Some [IOpen (sc_fd cinfo)], [IHandler k0])
      | close =>
          match m s !! sc_fd cinfo with
          | Some i => (None, [IClose i; IHandler k0])
          | None => (None, [IHandler k0])
          end
      | identity => (None, [IHandler k0])
      end
  end.

Definition spawn (u : nat) (o : option (list instr)) (w : world) : world :=
  match o with Some p => go u p w | None => w end.

(** The steps of the goroutines; the label is set where the host lets a read return. *)
Inductive tstep : bool → world → world → Prop :=
| t_call u p w :
    thr w !! u = None → user_call w p → tstep false w (go u p w)
| t_accept_first t r w :
    thr w !! t = Some (IAccept :: r) → c (cs w) = None →
    tstep false w (go_on t (IOpenControl :: r) w)
| t_accept t r k w :
    thr w !! t = Some (IAccept :: r) → c (cs w) = Some k → tstep false w (go_on t (IRecv :: r) w)
| t_open_control_err t r base s i e u w :
    thr w !! t = Some (IOpenControl :: r) → open_fd 0 base (cs w) = (s, i, Some e) →
    thr w !! u = None →
    tstep false w
      (go_on t r (go u [ICloseConn i] (set_accepted (accepted w ++ [(i, Some e)]) (set_cs s w))))
| t_open_control t r base s i u v w :
    thr w !! t = Some (IOpenControl :: r) → open_fd 0 base (cs w) = (s, i, None) →
    thr w !! u = None → thr w !! v = None → u ≠ v →
    tstep false w
      (go_on t (IRecv :: r) (go v [IHandler i] (go u [ICloseConn i] (set_cs (set_c i s) w))))
| t_recv t r u r' i err w :
    thr w !! t = Some (IRecv :: r) → thr w !! u = Some (IPost i err :: r') →
    tstep false w (go_on t r (go_on u r' (set_accepted (accepted w ++ [(i, err)]) w)))
| t_open t f r base s i err u w :
    thr w !! t = Some (IOpen f :: r) → open_fd f base (cs w) = (s, i, err) → thr w !! u = None →
    tstep false w (go_on t (IPost i err :: r) (go u [ICloseConn (next (cs w))] (set_cs s w)))
| t_handler t k0 k r w :
    thr w !! t = Some (IHandler k0 :: r) → c (cs w) = Some k →
    tstep false w (go_on t (IHLock k0 k :: r) w)
| t_hlock t k0 k r w :
    thr w !! t = Some (IHLock k0 k :: r) → k ∉ rlock w →
    tstep false w (go_on t (IHRead k0 k :: r) (set_rlock ({[k]} ∪ rlock w) w))
| t_hread_msg t k0 k r cBytes sp p u w :
    thr w !! t = Some (IHRead k0 k :: r) → handler_round cBytes k0 (cs w) = (sp, p) →
    thr w !! u = None →
    tstep true w (go_on t (p ++ r) (spawn u sp (set_rlock (rlock w ∖ {[k]}) w)))
| t_hread_part t k0 k r w :
    thr w !! t = Some (IHRead k0 k :: r) →
    tstep true w (go_on t (IHLock k0 k :: r) (set_rlock (rlock w ∖ {[k]}) w))
| t_hread_err b t k0 k r w :
    thr w !! t = Some (IHRead k0 k :: r) →
    b = true ∨ (∃ q, conns (cs w) !! k = Some q ∧ 0 < pipeCloses q) →
    tstep b w (go_on t (IClose k0 :: r) (set_rlock (rlock w ∖ {[k]}) w))
| t_read t i r w :
    thr w !! t = Some (IRead i :: r) → i ∉ rlock w →
    tstep false w (go_on t (IReadIn i :: r) (set_rlock ({[i]} ∪ rlock w) w))
| t_read_own t i q r w :
    thr w !! t = Some (IReadIn i :: r) → conns (cs w) !! i = Some q → cl q = None →
    tstep false w (go_on t (IPipe [i] :: r) w)
| t_read_inner t i j q r w :
    thr w !! t = Some (IReadIn i :: r) → conns (cs w) !! i = Some q → cl q = Some j →
    j ∉ rlock w →
    tstep false w (go_on t (IPipe [i; j] :: r) (set_rlock ({[j]} ∪ rlock w) w))
| t_pipe b t js r w :
    thr w !! t = Some (IPipe js :: r) →
    b = true ∨ (∃ j q, j ∈ js ∧ conns (cs w) !! j = Some q ∧ 0 < pipeCloses q) →
    tstep b w (go_on t r (set_rlock (rlock w ∖ list_to_set js) w))
| t_write t i b r w :
    thr w !! t = Some (IWrite i b :: r) →
    tstep false w (go_on t r (set_cs (fst (cc_Write i b (cs w))) w))
| t_close_again t i q r w :
    thr w !! t = Some (IClose i :: r) → i ∉ clock w → conns (cs w) !! i = Some q →
    closed q = true → tstep false w (go_on t r w)
| t_close t i q r w :
    thr w !! t = Some (IClose i :: r) → i ∉ clock w → conns (cs w) !! i = Some q →
    closed q = false →
    tstep false w (go_on t (close_body i ++ r) (set_clock ({[i]} ∪ clock w) (set_cs (mark i q (cs w)) w)))
| t_closeWrite t i q r w :
    thr w !! t = Some (ICloseWrite i :: r) → conns (cs w) !! i = Some q →
    tstep false w (go_on t r (set_cs (set_conn i (fst (cc_CloseWrite q)) (cs w)) w))
| t_closeRead t i q r w :
    thr w !! t = Some (ICloseRead i :: r) → i ∉ rlock w → conns (cs w) !! i = Some q →
    tstep false w (go_on t r (set_cs (set_conn i (fst (cc_CloseRead q)) (cs w)) w))
| t_inner_own t i q r w :
    thr w !! t = Some (ICloseInner i :: r) → conns (cs w) !! i = Some q → cl q = None →
    tstep false w (go_on t r (set_cs (close_pipe_of i q (cs w)) w))
| t_inner t i j q r w :
    thr w !! t = Some (ICloseInner i :: r) → conns (cs w) !! i = Some q → cl q = Some j →
    tstep false w (go_on t (IClose j :: r) w)
| t_delete t i q r w :
    thr w !! t = Some (IDelete i :: r) → conns (cs w) !! i = Some q →
    tstep false w (go_on t r (set_cs (set_m (delete (fd q)) (cs w)) w))
| t_range_data t i q r w :
    thr w !! t = Some (IRange i :: r) → conns (cs w) !! i = Some q → fd q ≠ 0 →
    tstep false w (go_on t r w)
| t_range t i q r w :
    thr w !! t = Some (IRange i :: r) → conns (cs w) !! i = Some q → fd q = 0 →
    tstep false w (go_on t (ISweep i (map_to_list (m (cs w))).*1 [] :: r) w)
| t_sweep t i todo seen f x r w :
    thr w !! t = Some (ISweep i todo seen :: r) → f ∉ seen → m (cs w) !! f = Some x →
    tstep false w (go_on t (IClose x :: ISweep i todo (f :: seen) :: r) w)
| t_sweep_end t i todo seen r w :
    thr w !! t = Some (ISweep i todo seen :: r) →
    (∀ f, f ∈ todo → f ∈ seen ∨ m (cs w) !! f = None) → tstep false w (go_on t r w)
| t_send t i q s r w :
    thr w !! t = Some (ISend i :: r) → conns (cs w) !! i = Some q →
    send_close (fd q) (cs w) = Ret s → tstep false w (go_on t r (set_cs s w))
| t_send_panic t i q r w :
    thr w !! t = Some (ISend i :: r) → conns (cs w) !! i = Some q →
    send_close (fd q) (cs w) = Panic → tstep false w (set_crashed w)
| t_unlock t i r w :
    thr w !! t = Some (IUnlock i :: r) →
    tstep false w (go_on t r (set_clock (clock w ∖ {[i]}) w))
| t_closeConn t i q q' r w :
    thr w !! t = Some (ICloseConn i :: r) → conns (cs w) !! i = Some q → cc_closeConn q = Ret q' →
    tstep false w (go_on t r (set_cs (set_conn i q' (cs w)) w))
| t_sock_close t k r w :
    thr w !! t = Some (ISockClose :: r) → c (cs w) = Some k →
    tstep false w (go_on t (IClose k :: IPipeClose :: r) w)
| t_sock_panic t r w :
    thr w !! t = Some (ISockClose :: r) → c (cs w) = None → tstep false w (set_crashed w)
| t_pipe_close t r w :
    thr w !! t = Some (IPipeClose :: r) → tstep false w (go_on t r (set_pipeClosed w)).

(** Steps of a process that did not die; without the label the host is silent. *)
Definition step (w w' : world) : Prop := crashed w = false ∧ ∃ b, tstep b w w'.
Definition quiet (w w' : world) : Prop := crashed w = false ∧ tstep false w w'.
End steps.

(** The state after [MakeControlSocket(pipe)]. *)
Definition session_init : world := MkW MakeControlSocket ∅ ∅ ∅ [] false false.

(** ** What a step does to the goroutines *)

(** The instructions an instruction can leave in its place. *)
Inductive pushes (s : ControlSocket) : instr → list instr → Prop :=
| pu_accept_first : c s = None → pushes s IAccept [IOpenControl]
| pu_accept k : c s = Some k → pushes s IAccept [IRecv]
| pu_recv : pushes s IOpenControl [IRecv]
| pu_post f i err : pushes s (IOpen f) [IPost i err]
| pu_handler k0 k : pushes s (IHandler k0) [IHLock k0 k]
| pu_hlock k0 k : pushes s (IHLock k0 k) [IHRead k0 k]
| pu_part k0 k : pushes s (IHRead k0 k) [IHLock k0 k]
| pu_loop k0 k : pushes s (IHRead k0 k) [IHandler k0]
| pu_close_loop k0 k i : pushes s (IHRead k0 k) [IClose i; IHandler k0]
| pu_exit k0 k : pushes s (IHRead k0 k) [IClose k0]
| pu_read i : pushes s (IRead i) [IReadIn i]
| pu_pipe i js : pushes s (IReadIn i) [IPipe js]
| pu_close i q : conns s !! i = Some q → pushes s (IClose i) (close_body i)
| pu_inner i j : pushes s (ICloseInner i) [IClose j]
| pu_range i todo : pushes s (IRange i) [ISweep i todo []]
| pu_sweep i x todo seen seen' : pushes s (ISweep i todo seen) [IClose x; ISweep i todo seen']
| pu_sock k : pushes s ISockClose [IClose k; IPipeClose]
| pu_done x : (∀ k0, x ≠ IHandler k0) → pushes s x [].

(** The goroutines that steps start. *)
Inductive starts (w : world) : list instr → Prop :=
| st_user p : user_call w p → starts w p
| st_closeConn i : starts w [ICloseConn i]
| st_open f t k0 k r : thr w !! t = Some (IHRead k0 k :: r) → starts w [IOpen f]
| st_handler i t r : thr w !! t = Some (IOpenControl :: r) → starts w [IHandler i].

Create HintDb session.
#[local] Hint Constructors pushes starts : session.

Section shape.
Context {CC : ControlCodec}.

Lemma handler_round_pushes s cBytes k0 k sp p :
  handler_round cBytes k0 s = (sp, p) →
  pushes s (IHRead k0 k) p ∧ (sp = None ∨ ∃ f, sp = Some [IOpen f]).
Proof. unfold handler_round. intros H. repeat case_match; simplify_eq/=; eauto 6 with session. Qed.

Ltac pushed_as l :=
  do 2 eexists; exists l; split; [eassumption|split; [reflexivity|eauto with session]].
Ltac pushed :=
  first [ solve [pushed_as (@nil instr)]
        | do 2 eexists; eexists [_]; split; [eassumption|split; [reflexivity|solve [eauto with session]]]
        | do 2 eexists; eexists [_; _]; split; [eassumption|split; [reflexivity|solve [eauto with session]]]
        | do 2 eexists; eexists (close_body _); split; [eassumption|split; [reflexivity|solve [eauto with session]]] ].

(** Every goroutine after a step was there before, or ran one instruction, or is new. *)
Lemma step_threads b w w' u p' :
  tstep b w w' → thr w' !! u = Some p' →
  thr w !! u = Some p' ∨
  (∃ x r p, thr w !! u = Some (x :: r) ∧ p' = p ++ r ∧ pushes (cs w) x p) ∨
  (thr w !! u = None ∧ starts w p').
Proof.
  intros Hs Hu. destruct Hs; cbn in Hu;
    try match goal with H : handler_round _ _ _ = _ |- _ =>
      eapply handler_round_pushes in H as [Hp [->|[f ->]]]; cbn in Hu end;
    rewrite ?lookup_insert in Hu; repeat case_decide; simplify_eq/=; auto;
    try (right; left; do 3 eexists; split; [eassumption|split; [|eassumption]]; reflexivity);
    try (right; right; split; [done|eauto with session]; fail);
    right; left; pushed.
Qed.
End shape.

(** ** What a step does to the heap *)

(** A connection later: what never changes, and the flags that stay set. *)
Record conn_le (q q' : cconn) : Prop := {
  cle_fd : fd q' = fd q;
  cle_cl : cl q' = cl q;
  cle_reads : closedReads q = true → closedReads q' = true;
  cle_closed : closed q = true → closed q' = true;
  cle_closes : pipeCloses q ≤ pipeCloses q';
}.

(** The heap later, when only connections in [B] had their pipe closed, only connections in [R]
    their reads, and only for those in [C] a [Close] started; new connections are open. *)
Record heap_le (B R C : nat → Prop) (s s' : ControlSocket) : Prop := {
  hl_next : (next s ≤ next s')%nat;
  hl_dom i : is_Some (conns s !! i) → is_Some (conns s' !! i);
  hl_conn i q' : conns s' !! i = Some q' →
    (∃ q, conns s !! i = Some q ∧ conn_le q q' ∧ (pipeCloses q' = pipeCloses q ∨ B i) ∧
       (closedReads q' = closedReads q ∨ R i) ∧ (closed q' = closed q ∨ C i)) ∨
    ((next s ≤ i < next s')%nat ∧ pipeCloses q' = 0 ∧ closedReads q' = false ∧ closed q' = false);
}.

Definition fresh (s : ControlSocket) : Prop := ∀ i q, conns s !! i = Some q → (i < next s)%nat.

Lemma conn_le_refl q : conn_le q q.
Proof. by split. Qed.

Lemma heap_le_conns B R C s s' : conns s' = conns s → next s' = next s → heap_le B R C s s'.
Proof.
  intros Hc Hn. split; rewrite ?Hc, ?Hn; [done|done|].
  intros i q' Hq. left. exists q'. split_and!; auto using conn_le_refl.
Qed.

Lemma heap_le_set B R C s i q q' :
  conns s !! i = Some q → conn_le q q' → pipeCloses q' = pipeCloses q ∨ B i →
  closedReads q' = closedReads q ∨ R i → closed q' = closed q ∨ C i →
  heap_le B R C s (set_conn i q' s).
Proof.
  intros Hi Hle HB HR HC. split; cbn; [done| |].
  - intros x. rewrite lookup_insert_is_Some'. auto.
  - intros x q1. rewrite lookup_insert. case_decide as Hx.
    + intros [= <-]. subst x. left. eauto 7.
    + intros Hq. left. exists q1. split_and!; auto using conn_le_refl.
Qed.

Lemma heap_le_trans B R C s1 s2 s3 :
  fresh s1 → heap_le B R C s1 s2 → heap_le (λ _, False) (λ _, False) (λ _, False) s2 s3 → heap_le B R C s1 s3.
Proof.
  intros Hf [N1 D1 C1] [N2 D2 C2]. split; [lia|auto|].
  intros i q3 H3. destruct (C2 _ _ H3) as [(q2 & H2 & [] & [Hp|[]] & [Hr|[]] & [Hcl|[]])|(Hn & Hp & Hr & Hcl)].
  - destruct (C1 _ _ H2) as [(q1 & H1 & [] & Hp1 & Hr1 & Hcl1)|(Hn & Hp1 & Hr1 & Hcl1)].
    + left. exists q1. split_and!; [done| |rewrite Hp; naive_solver|rewrite Hr; naive_solver|rewrite Hcl; naive_solver].
      split; [congruence|congruence|auto|auto|lia].
    + right. split_and!; [lia|lia|congruence|congruence|congruence].
  - right. split_and!; [lia|lia|done|done|done].
Qed.

Section heap.
Context {CC : ControlCodec}.

Lemma heap_le_write B R C i b s : heap_le B R C s (fst (cc_Write i b s)).
Proof.
  unfold cc_Write. repeat case_match; cbn [fst]; try (by apply heap_le_conns);
    (eapply heap_le_set; [eassumption|split; cbn; auto; lia|by left|by left|by left]).
Qed.

Lemma heap_le_make B R C inner f s :
  fresh s → heap_le B R C s (makeControlSocketConn inner f s).
Proof.
  intros Hf. split; cbn; [lia| |].
  - intros i. rewrite lookup_insert_is_Some'. auto.
  - intros i q'. rewrite lookup_insert. case_decide as Hx.
    + intros [= <-]. subst i. right. cbn. split_and!; [lia|lia|done|done|done].
    + intros Hq. left. exists q'. split_and!; auto using conn_le_refl.
Qed.

Lemma fresh_make inner f s : fresh s → fresh (makeControlSocketConn inner f s).
Proof.
  intros Hf i q. cbn. rewrite lookup_insert. case_decide; [subst; lia|]. intros Hq%Hf. lia.
Qed.

Lemma fresh_le B R C s s' : fresh s → heap_le B R C s s' → fresh s'.
Proof.
  intros Hf [Hn _ Hc] i q Hq. destruct (Hc _ _ Hq) as [(q0 & Hq0 & _)|[? _]]; [|lia].
  apply Hf in Hq0. lia.
Qed.

Lemma heap_le_open B R C f base s : fresh s → heap_le B R C s (fst (fst (open_fd f base s))).
Proof.
  intros Hf. unfold open_fd. pose proof (heap_le_make B R C None f s Hf) as H1.
  pose proof (fresh_make None f s Hf) as Hf1. destruct base as [e|]; [done|].
  pose proof (heap_le_write (λ _, False) (λ _, False) (λ _, False) (next s)
    (marshal (MkControl identity f)) (makeControlSocketConn None f s)) as H2.
  pose proof (fresh_le _ _ _ _ _ Hf1 H2) as Hf2.
  pose proof (heap_le_trans _ _ _ _ _ _ Hf H1 H2) as H3.
  destruct (cc_Write _ _ _) as [s2 [e|]]; cbn [fst] in *; [done|].
  case_decide; cbn [fst].
  - eapply heap_le_trans; [done|exact H3|by apply heap_le_conns].
  - eapply heap_le_trans; [done|exact H3|].
    eapply heap_le_trans; [done|by apply heap_le_make|by apply heap_le_conns].
Qed.

(** Which goroutines may close the pipe of [i], and when the reads of [i] may be closed. *)
Definition closes_pipe (w : world) (i : nat) : Prop :=
  (∃ t r, thr w !! t = Some (ICloseInner i :: r)) ∨
  (∃ q, conns (cs w) !! i = Some q ∧ closedReads q = true).

Definition closing (w : world) (i : nat) : Prop :=
  ∃ t r, thr w !! t = Some (close_body i ++ r).

Lemma step_heap b w w' :
  fresh (cs w) → tstep b w w' →
  heap_le (closes_pipe w) (λ i, i ∉ rlock w) (closing w') (cs w) (cs w').
Proof.
  intros Hf Hs. remember (closing w') as C eqn:HC.
  destruct Hs; cbn; try (by apply heap_le_conns).
  - match goal with H : open_fd _ _ _ = _ |- _ =>
      pose proof (heap_le_open (closes_pipe w) (λ i, i ∉ rlock w) C 0 base _ Hf) as Hl; rewrite H in Hl end.
    done.
  - match goal with H : open_fd _ _ _ = _ |- _ =>
      pose proof (heap_le_open (closes_pipe w) (λ i, i ∉ rlock w) C 0 base _ Hf) as Hl; rewrite H in Hl end.
    eapply heap_le_trans; [done|exact Hl|by apply heap_le_conns].
  - match goal with H : open_fd _ _ _ = _ |- _ =>
      pose proof (heap_le_open (closes_pipe w) (λ i, i ∉ rlock w) C f base _ Hf) as Hl; rewrite H in Hl end.
    done.
  - destruct sp; apply heap_le_conns; done.
  - apply heap_le_write.
  - eapply heap_le_set; [done|split; cbn; auto; lia|by left|by left|]. right. subst C.
    exists t, r. cbn. by rewrite lookup_insert_eq.
  - eapply heap_le_set; [done|unfold cc_CloseWrite; case_match; split; cbn; auto; lia| | |];
      left; unfold cc_CloseWrite; by case_match.
  - eapply heap_le_set; [done|unfold cc_CloseRead; case_match; split; cbn; auto; lia| |by right|];
      left; unfold cc_CloseRead; by case_match.
  - eapply heap_le_set; [done|split; cbn; auto; lia| |by left|by left]. right. left. eauto.
  - match goal with H : send_close _ _ = _ |- _ => unfold send_close in H; destruct (c (cs w)); [|done];
      injection H as <- end. apply heap_le_write.
  - match goal with H : cc_closeConn q = _ |- _ => unfold cc_closeConn in H;
      destruct (closedReads q) eqn:Hr, (closedWrites q); try done; injection H as <- end.
    eapply heap_le_set; [done|split; cbn; auto; lia| |by left|by left]. right. right. eauto.
Qed.
End heap.

(** ** Invariants *)

(** The read locks a goroutine holds. *)
Definition holds (p : list instr) : list nat :=
  match p with
  | IHRead _ k :: _ => [k]
  | IReadIn i :: _ => [i]
  | IPipe js :: _ => js
  | _ => []
  end.

(** An instruction that runs with a read lock held is the first of its goroutine. *)
Definition tail_free (p : list instr) : Prop := Forall (λ x, holds [x] = []) (tail p).

(** Closing the pipe of [j] comes behind the part of [Close] that takes the read lock. *)
Fixpoint guarded (j : nat) (p : list instr) : bool :=
  match p with
  | [] => true
  | x :: r => if decide (x = ICloseRead j) then true
              else if decide (x = ICloseInner j) then false else guarded j r
  end.

Record session_ok (w : world) : Prop := {
  so_fresh : fresh (cs w);
  so_known u p j : thr w !! u = Some p → ICloseInner j ∈ p → (j < next (cs w))%nat;
  so_shield j q : conns (cs w) !! j = Some q → closedReads q = false →
    pipeCloses q = 0 ∧ ∀ u p, thr w !! u = Some p → guarded j p = true;
  so_tail u p : thr w !! u = Some p → tail_free p;
  so_locked u p j : thr w !! u = Some p → j ∈ holds p → j ∈ rlock w;
  so_apart u v p p' j : u ≠ v → thr w !! u = Some p → thr w !! v = Some p' →
    j ∈ holds p → j ∈ holds p' → False;
}.

Lemma guarded_unknown j p : ICloseInner j ∉ p → guarded j p = true.
Proof.
  induction p as [|x p IH]; cbn; [done|]. rewrite not_elem_of_cons. intros [Hx Hp].
  case_decide; [done|]. rewrite decide_False by congruence. auto.
Qed.

Lemma guarded_app j p r :
  ICloseInner j ∉ p → guarded j r = true → guarded j (p ++ r) = true.
Proof.
  induction p as [|x p IH]; cbn; [done|]. rewrite not_elem_of_cons. intros [Hx Hp] Hr.
  case_decide; [done|]. rewrite decide_False by congruence. auto.
Qed.

(** What is pushed closes the pipe of a connection only behind its read lock. *)
Lemma pushes_guarded s x p j r :
  pushes s x p → x ≠ ICloseRead j → guarded j (x :: r) = true → guarded j (p ++ r) = true.
Proof.
  intros Hp Hx. cbn. rewrite decide_False by done. case_decide as Hi; [done|]. intros Hr.
  destruct Hp; cbn; repeat (case_decide; try done); congruence.
Qed.

Lemma pushes_inner s x p j :
  pushes s x p → ICloseInner j ∈ p → ∃ q, conns s !! j = Some q.
Proof.
  destruct 1; unfold close_body; cbn; rewrite ?elem_of_cons, ?elem_of_nil; intros Hj;
    repeat match type of Hj with _ ∨ _ => destruct Hj as [Hj|Hj] end;
    try discriminate Hj; try contradiction.
  injection Hj as ->. eauto.
Qed.

Lemma starts_inner w p j : starts w p → ICloseInner j ∉ p.
Proof.
  destruct 1 as [p [->|[->|(i & _ & [->|[[b ->]|[->|[->| ->]]]])]]| | |];
    rewrite list_elem_of_singleton; done.
Qed.

Lemma pushes_tail s x p r : pushes s x p → tail_free (x :: r) → tail_free (p ++ r).
Proof.
  unfold tail_free. cbn. intros Hp Hr. destruct Hp; cbn; try done; repeat constructor; try done.
  destruct r; [done|]. by inversion Hr.
Qed.

Lemma starts_holds w p : starts w p → holds p = [] ∧ tail_free p.
Proof. destruct 1 as [p [->|[->|(i & _ & [->|[[b ->]|[->|[->| ->]]]])]]| | |]; (split; [done|apply Forall_nil_2]). Qed.

#[local] Hint Resolve starts_holds : session.

Section invariants.
Context {CC : ControlCodec}.

Lemma step_fresh b w w' : fresh (cs w) → tstep b w w' → fresh (cs w').
Proof. intros Hf Hs. eapply fresh_le; [done|]. by eapply step_heap. Qed.

Lemma step_known_old b w w' : session_ok w → tstep b w w' →
  ∀ u p j, thr w' !! u = Some p → ICloseInner j ∈ p → (j < next (cs w))%nat.
Proof.
  intros Hok Hs u p j Hu Hj.
  destruct (step_threads _ _ _ _ _ Hs Hu) as [H|[(x & r & p0 & H & -> & Hp)|[_ H]]].
  - by eapply so_known.
  - apply elem_of_app in Hj as [Hj|Hj].
    + destruct (pushes_inner _ _ _ _ Hp Hj) as [q Hq]. by eapply so_fresh.
    + eapply so_known; [done|exact H|by right].
  - by eapply starts_inner in Hj.
Qed.

Lemma step_known b w w' : session_ok w → tstep b w w' →
  ∀ u p j, thr w' !! u = Some p → ICloseInner j ∈ p → (j < next (cs w'))%nat.
Proof.
  intros Hok Hs u p j Hu Hj. pose proof (step_heap _ _ _ (so_fresh _ Hok) Hs) as [Hn _ _].
  pose proof (step_known_old _ _ _ Hok Hs _ _ _ Hu Hj). lia.
Qed.

Lemma step_tail b w w' : session_ok w → tstep b w w' →
  ∀ u p, thr w' !! u = Some p → tail_free p.
Proof.
  intros Hok Hs u p Hu.
  destruct (step_threads _ _ _ _ _ Hs Hu) as [H|[(x & r & p0 & H & -> & Hp)|[_ H]]].
  - by eapply so_tail.
  - eapply pushes_tail; [done|]. by eapply so_tail.
  - by eapply starts_holds.
Qed.

(** The instruction that closes the reads of [j] waits for the lock, and closes them. *)
Lemma step_closeRead b w w' u j r p :
  tstep b w w' → thr w !! u = Some (ICloseRead j :: r) → thr w' !! u = Some p →
  p = ICloseRead j :: r ∨
  (j ∉ rlock w ∧ ∀ q, conns (cs w') !! j = Some q → closedReads q = true).
Proof.
  intros Hs Hu Hu'. destruct Hs; cbn in Hu' |- *;
    try match goal with H : handler_round _ _ _ = _ |- _ =>
      eapply (handler_round_pushes _ _ _ 0) in H as [_ [->|[f ->]]]; cbn in Hu' end;
    rewrite ?lookup_insert in Hu'; repeat case_decide; simplify_eq/=; auto.
  right. split; [done|]. intros q1. rewrite lookup_insert_eq. intros [= <-].
  unfold cc_CloseRead. by case_match.
Qed.

Lemma step_shield b w w' : session_ok w → tstep b w w' →
  ∀ j q, conns (cs w') !! j = Some q → closedReads q = false →
  pipeCloses q = 0 ∧ ∀ u p, thr w' !! u = Some p → guarded j p = true.
Proof.
  intros Hok Hs j q' Hq' Hr. pose proof (step_heap _ _ _ (so_fresh _ Hok) Hs) as [_ _ Hh].
  destruct (Hh _ _ Hq') as [(q & Hq & Hle & Hp & _)|(Hn & Hp & _)].
  - assert (closedReads q = false) as Hr0.
    { destruct (closedReads q) eqn:E; [|done]. apply (cle_reads _ _ Hle) in E. congruence. }
    destruct (so_shield _ Hok _ _ Hq Hr0) as [H0 Hg]. split.
    + destruct Hp as [Hp|[(t & r & Ht)|(q1 & Hq1 & E)]]; [lia| |congruence].
      apply Hg in Ht. cbn in Ht. by rewrite decide_False, decide_True in Ht.
    + intros u p Hu. destruct (step_threads _ _ _ _ _ Hs Hu) as [H|[(x & r & p0 & H & -> & Hpu)|[_ H]]].
      * by eapply Hg.
      * destruct (decide (x = ICloseRead j)) as [->|Hx]; [|by eapply pushes_guarded; eauto].
        destruct (step_closeRead _ _ _ _ _ _ _ Hs H Hu) as [E|[_ E]].
        { rewrite E. cbn. by rewrite decide_True. }
        apply E in Hq'. congruence.
      * eapply guarded_unknown, starts_inner; eauto.
  - split; [done|]. intros u p Hu. apply guarded_unknown. intros Hj.
    enough (j < next (cs w))%nat by lia. by eapply step_known_old.
Qed.

(** *** Read locks *)

Definition hold_of (w : world) (u : nat) : list nat :=
  match thr w !! u with Some p => holds p | None => [] end.

(** A step keeps, takes or releases the locks of one goroutine. *)
Definition lock_step (w w' : world) : Prop := ∃ t,
  (∀ u, u ≠ t → hold_of w' u = [] ∨ hold_of w' u = hold_of w u) ∧
  ((rlock w' = rlock w ∧ (hold_of w' t = [] ∨ hold_of w' t = hold_of w t)) ∨
   (∃ k, k ∉ rlock w ∧ rlock w' = {[k]} ∪ rlock w ∧
      ∀ j, j ∈ hold_of w' t → j = k ∨ j ∈ hold_of w t) ∨
   (rlock w' = rlock w ∖ list_to_set (hold_of w t) ∧ hold_of w' t = [])).

Lemma tail_free_holds x r : tail_free (x :: r) → holds r = [].
Proof. unfold tail_free. cbn. destruct r; [done|]. by inversion 1. Qed.

(** The locks of the goroutines after a step of goroutine [t], by cases. *)
Ltac locks_of t :=
  exists t; unfold hold_of; cbn; rewrite ?lookup_insert_eq;
  repeat match goal with H : thr _ !! _ = Some _ |- _ => rewrite ?H; revert H end; intros;
  split; [intros y Hy; rewrite ?lookup_insert; repeat case_decide; simplify_eq/=; auto|cbn; auto].

Lemma tstep_locks b w w' : session_ok w → tstep b w w' → lock_step w w'.
Proof.
  intros Hok Hs.
  assert (∀ t x r, thr w !! t = Some (x :: r) → holds r = []) as Htl
    by (intros t x r H; eapply tail_free_holds, so_tail; eauto).
  destruct Hs as [u p w Hu Hc|t r w H|t r k w H|t r base s i e u w H Ho Hu|t r base s i u v w H Ho Hu Hv Huv
    |t r u r' i err w H Hu|t f r base s i err u w H|t k0 k r w H|t k0 k r w H Hl
    |t k0 k r cBytes sp p u w H Hr Hu|t k0 k r w H|b t k0 k r w H|t i r w H Hl|t i q r w H Hi Hq
    |t i j q r w H Hi Hq Hl|b t js r w H|t i bs r w H|t i q r w H|t i q r w H|t i q r w H|t i q r w H|t i q r w H
    |t i j q r w H|t i q r w H|t i q r w H|t i q r w H|t i todo seen f x r w H|t i todo seen r w H
    |t i q s r w H|t i q r w H|t i r w H|t i q q' r w H|t k r w H|t r w H|t r w H];
    try (pose proof (Htl _ _ _ H) as El; solve [locks_of t]).
  - destruct (starts_holds w p (st_user w p Hc)) as [Ep _]. locks_of u.
  - pose proof (Htl _ _ _ H) as El. pose proof (Htl _ _ _ Hu) as El'. locks_of t.
  - locks_of t. right. left. exists k. split_and!; [done|done|]. set_solver.
  - pose proof (Htl _ _ _ H) as El.
    eapply (handler_round_pushes _ _ _ k) in Hr as [Hp Hsp].
    assert (holds (p ++ r) = []) as Ep by (inversion Hp; subst; cbn; done).
    destruct Hsp as [->|[f ->]]; locks_of t; right; right; (split; [|done]); set_solver.
  - locks_of t. right; right. split; [|done]. set_solver.
  - locks_of t. right; right. split; [|done]. set_solver.
  - locks_of t. right. left. exists i. split_and!; [done|done|]. set_solver.
  - locks_of t. right. left. exists j. split_and!; [done|done|]. set_solver.
Qed.

Lemma hold_of_in w u p j : thr w !! u = Some p → j ∈ holds p ↔ j ∈ hold_of w u.
Proof. intros H. unfold hold_of. by rewrite H. Qed.

Lemma session_step_ok : invariant step session_ok.
Proof.
  intros w w' Hok [_ [b Hs]].
  destruct (tstep_locks _ _ _ Hok Hs) as (t & Hoth & Ht).
  assert (∀ u j, j ∈ hold_of w u → j ∈ rlock w) as Hlk.
  { intros u j. unfold hold_of. destruct (thr w !! u) eqn:E; [|by intros ?%elem_of_nil].
    by eapply so_locked. }
  assert (∀ u v j, u ≠ v → j ∈ hold_of w u → j ∈ hold_of w v → False) as Hap.
  { intros u v j Huv. unfold hold_of. destruct (thr w !! u) eqn:E1; [|by intros ?%elem_of_nil].
    destruct (thr w !! v) eqn:E2; [|by intros _ ?%elem_of_nil]. by eapply so_apart. }
  assert (∀ u j, u ≠ t → j ∈ hold_of w' u → j ∈ hold_of w u) as Hsub.
  { intros u j Hu. destruct (Hoth u Hu) as [-> | ->]; [by intros ?%elem_of_nil|done]. }
  assert (∀ u j, j ∈ hold_of w' u → j ∈ rlock w') as Hlk'.
  { intros u j Hj. destruct Ht as [[-> Ht]|[(k & Hk & -> & Ht)|[-> Ht]]].
    - destruct (decide (u = t)) as [->|Hu]; [|by eauto].
      destruct Ht as [E|E]; rewrite E in Hj; [by apply elem_of_nil in Hj|by eauto].
    - destruct (decide (u = t)) as [->|Hu]; [|by set_solver]. apply Ht in Hj as [->|Hj]; set_solver.
    - destruct (decide (u = t)) as [->|Hu]; [rewrite Ht in Hj; by apply elem_of_nil in Hj|].
      apply elem_of_difference. split; [by eauto|]. rewrite elem_of_list_to_set. eauto. }
  assert (∀ u v j, u ≠ v → v ≠ t → j ∈ hold_of w' u → j ∈ hold_of w' v → False) as Hap'.
  { intros u v j Huv Hv Hju Hjv. apply Hsub in Hjv; [|done].
    destruct (decide (u = t)) as [->|Hu]; [|by eauto].
    destruct Ht as [[_ [E|E]]|[(k & Hk & _ & E)|[_ E]]]; try (rewrite E in Hju; try by apply elem_of_nil in Hju).
    - by eauto.
    - apply E in Hju as [->|Hju]; eauto. }
  split.
  - eapply step_fresh; [apply Hok|done].
  - by eapply step_known.
  - by eapply step_shield.
  - by eapply step_tail.
  - intros u p j Hu. rewrite (hold_of_in _ _ _ _ Hu). apply Hlk'.
  - intros u v p p' j Huv Hu Hv. rewrite (hold_of_in _ _ _ _ Hu), (hold_of_in _ _ _ _ Hv).
    destruct (decide (v = t)) as [->|Hvt]; [|by apply Hap'].
    intros H1 H2. by apply (Hap' t u j); auto.
Qed.

Lemma session_init_ok : session_ok session_init.
Proof. split; cbn; intros; simplify_map_eq; by unfold fresh. Qed.

Lemma session_reach w : rtc step session_init w → session_ok w.
Proof. intros H. eapply invariant_rtc; [apply session_step_ok|exact H|apply session_init_ok]. Qed.

(** ** A read holds up every close *)

(** Goroutine [h] waits for the host in a read with the read locks of [js], whose reads
    are open; goroutine [t] has still to take the read lock of [j]. *)
Definition held_up (h t j : nat) (w : world) : Prop :=
  session_ok w ∧ (∃ p, thr w !! t = Some p ∧ ICloseRead j ∈ p) ∧
  ∃ x r, thr w !! h = Some (x :: r) ∧ (x = IPipe (holds [x]) ∨ ∃ k0 k, x = IHRead k0 k) ∧
    j ∈ holds [x] ∧
    ∀ i, i ∈ holds [x] → ∃ q, conns (cs w) !! i = Some q ∧ closedReads q = false.

Lemma step_dom b w w' u : tstep b w w' → is_Some (thr w !! u) → is_Some (thr w' !! u).
Proof.
  intros Hs Hu. destruct Hs; cbn; try destruct sp; cbn; rewrite ?lookup_insert_is_Some'; auto 10.
Qed.

(** While the host is silent only a closed pipe lets a read return. *)
Lemma step_waits w w' h x r :
  tstep false w w' → thr w !! h = Some (x :: r) → (x = IPipe (holds [x]) ∨ ∃ k0 k, x = IHRead k0 k) →
  (∀ i q, i ∈ holds [x] → conns (cs w) !! i = Some q → pipeCloses q = 0) →
  thr w' !! h = Some (x :: r).
Proof.
  intros Hs Hh Hx H0. remember false as b eqn:Hb. destruct Hs; try discriminate Hb; cbn;
    try destruct sp; cbn; rewrite ?lookup_insert; repeat case_decide; simplify_eq/=; try done;
    try (by destruct Hx as [?|(? & ? & ?)]).
  - destruct H1 as [?|(q & Hq & Hp)]; [done|]. specialize (H0 k q ltac:(left) Hq). lia.
  - destruct H1 as [?|(j & q & Hj & Hq & Hp)]; [done|]. specialize (H0 j q Hj Hq). lia.
Qed.

Lemma held_up_step h t j w w' : held_up h t j w → quiet w w' → held_up h t j w'.
Proof.
  intros (Hok & (p & Hp & Hj) & (x & r & Hh & Hx & Hjx & Hopen)) [Hcr Hs].
  pose proof (session_step_ok _ _ Hok (conj Hcr (ex_intro _ false Hs))) as Hok'.
  assert (∀ i, i ∈ holds [x] → i ∈ rlock w) as Hlk.
  { intros i Hi. eapply so_locked; [done|exact Hh|]. by destruct x. }
  split; [done|]. split.
  - destruct (step_dom _ _ _ t Hs ltac:(eauto)) as [p' Hp']. exists p'. split; [done|].
    destruct (step_threads _ _ _ _ _ Hs Hp') as [H|[(y & r' & p0 & H & -> & Hpu)|[H _]]];
      [congruence| |congruence].
    rewrite Hp in H. injection H as ->. apply elem_of_cons in Hj as [<-|Hj]; [|apply elem_of_app; by right].
    destruct (step_closeRead _ _ _ _ _ _ _ Hs Hp Hp') as [->|[Hn _]]; [by left|].
    by apply Hlk in Hjx.
  - exists x, r. split_and!; [|done|done|].
    + eapply step_waits; [done|done|done|]. intros i q Hi Hq.
      destruct (Hopen i Hi) as (q1 & Hq1 & Hr). rewrite Hq in Hq1. injection Hq1 as <-.
      by apply (so_shield _ Hok i q).
    + intros i Hi. destruct (Hopen i Hi) as (q & Hq & Hr).
      destruct (step_heap _ _ _ (so_fresh _ Hok) Hs) as [_ Hdom Hc].
      destruct (Hdom i ltac:(eauto)) as [q' Hq']. exists q'. split; [done|].
      destruct (Hc _ _ Hq') as [(q1 & Hq1 & _ & _ & [E|E] & _)|(_ & _ & E & _)]; [congruence| |done].
      by apply Hlk in Hi.
Qed.

(** C16: Nothing is closed while a read waits: in every reachable state in which a reader waits for a
    silent host, a goroutine that has to close the reads of its connection (in [Close] of the
    connection, of the control connection, of the listener) never gets to it, and the reader
    waits on. *)
Theorem session_close_hangs w h t j :
  rtc step session_init w →
  (∃ p, thr w !! t = Some p ∧ ICloseRead j ∈ p) →
  (∃ x r, thr w !! h = Some (x :: r) ∧ (x = IPipe (holds [x]) ∨ ∃ k0 k, x = IHRead k0 k) ∧
    j ∈ holds [x] ∧ ∀ i, i ∈ holds [x] → ∃ q, conns (cs w) !! i = Some q ∧ closedReads q = false) →
  ∀ w', rtc quiet w w' →
  (∃ p, thr w' !! t = Some p ∧ ICloseRead j ∈ p) ∧ is_Some (thr w' !! h) ∧
  ∃ q, conns (cs w') !! j = Some q ∧ closedReads q = false ∧ pipeCloses q = 0.
Proof.
  intros Hr Ht Hh w' Hq.
  assert (held_up h t j w') as (Hok & Ht' & (x & r & Hh' & _ & Hj & Ho)).
  { apply (invariant_rtc quiet (held_up h t j) w); [intros ? ?; apply held_up_step|done|].
    split; [by apply session_reach|done]. }
  destruct (Ho _ Hj) as (q & Hq' & Hr'). split_and!; [done|by eexists|].
  exists q. split_and!; [done|done|]. by apply (so_shield _ Hok j q).
Qed.

(** ** After the control connection *)

(** No goroutine opens connections, and [b.c] is set. *)
Definition deaf_instr (x : instr) : bool :=
  match x with
  | IOpenControl | IOpen _ | IPost _ _ | IHandler _ | IHLock _ _ | IHRead _ _ => false
  | _ => true
  end.

Definition deaf (w : world) : Prop :=
  is_Some (c (cs w)) ∧ ∀ u p, thr w !! u = Some p → Forall (λ x, deaf_instr x = true) p.

Lemma cc_Write_c i b s : c (fst (cc_Write i b s)) = c s.
Proof. unfold cc_Write. by repeat case_match. Qed.

Lemma open_fd_c f base s : is_Some (c s) → is_Some (c (fst (fst (open_fd f base s)))).
Proof.
  intros H. unfold open_fd. destruct base; [done|].
  pose proof (cc_Write_c (next s) (marshal (MkControl identity f)) (makeControlSocketConn None f s)) as E.
  destruct (cc_Write _ _ _) as [s2 [e|]]; cbn [fst] in *; [by rewrite E|].
  case_decide; cbn; [done|by rewrite E].
Qed.

Lemma step_c b w w' : tstep b w w' → is_Some (c (cs w)) → is_Some (c (cs w')).
Proof.
  intros Hs Hc. destruct Hs; cbn; try done; try destruct sp; cbn; try done; try (by eexists);
    try (by rewrite cc_Write_c);
    try match goal with H : open_fd ?f ?b ?s = _ |- _ =>
      pose proof (open_fd_c f b s Hc) as Hc'; rewrite H in Hc'; exact Hc' end.
  match goal with H : send_close _ _ = _ |- _ => unfold send_close in H; destruct (c (cs w)) eqn:E; [|done];
    injection H as <-; rewrite cc_Write_c, E; by eexists end.
Qed.

Lemma pushes_deaf s x p : is_Some (c s) → pushes s x p → deaf_instr x = true →
  Forall (λ x, deaf_instr x = true) p.
Proof.
  intros [k Hk] Hp. destruct Hp; cbn; try done; intros; try congruence;
    unfold close_body; repeat constructor.
Qed.

Lemma starts_deaf w p : deaf w → starts w p → Forall (λ x, deaf_instr x = true) p.
Proof.
  intros [_ Hd]. destruct 1 as [p [->|[->|(i & _ & [->|[[b ->]|[->|[->| ->]]]])]]|i|f t k0 k r H|i t r H];
    try (by repeat constructor); apply Hd in H; by inversion H.
Qed.

Lemma deaf_step b w w' : deaf w → tstep b w w' → deaf w' ∧ accepted w' = accepted w ∧
  ∀ u r, thr w !! u = Some (IRecv :: r) → thr w' !! u = Some (IRecv :: r).
Proof.
  intros Hd Hs. pose proof Hd as [Hc Hp]. split_and!.
  - split; [by eapply step_c|]. intros u p Hu.
    destruct (step_threads _ _ _ _ _ Hs Hu) as [H|[(x & r & p0 & H & -> & Hpu)|[_ H]]].
    + by eapply Hp.
    + apply Hp, Forall_cons_1 in H as [Hx Hr]. apply Forall_app_2; [|done].
      by eapply pushes_deaf.
    + by eapply starts_deaf.
  - destruct Hs; cbn; try done; try (by destruct sp);
      match goal with H : thr w !! _ = Some (IOpenControl :: _) |- _ => apply Hp in H; by inversion H
      | H : thr w !! _ = Some (IPost _ _ :: _) |- _ => apply Hp in H; by inversion H end.
  - intros v r' Hv. destruct Hs; cbn; try destruct sp; cbn; rewrite ?lookup_insert; repeat case_decide;
      simplify_eq/=; try done;
      match goal with H : thr w !! _ = Some (IPost _ _ :: _) |- _ => apply Hp in H; by inversion H end.
Qed.

(** Once the control connection is gone the listener is deaf: when its handler has ended and
    no open is under way, no further connection is ever accepted, and a goroutine that waits in
    [Accept] waits for ever, whatever the host and the server do. *)
Theorem session_deaf w w' :
  deaf w → rtc step w w' →
  deaf w' ∧ accepted w' = accepted w ∧
  ∀ u r, thr w !! u = Some (IRecv :: r) → thr w' !! u = Some (IRecv :: r).
Proof.
  intros Hd Hs. induction Hs as [w|w w1 w2 [_ [b H1]] _ IH]; [done|].
  destruct (deaf_step _ _ _ Hd H1) as (Hd1 & E1 & Hu1). destruct (IH Hd1) as (Hd2 & E2 & Hu2).
  split_and!; [done|congruence|]. intros u r Hu. apply Hu2, Hu1, Hu.
Qed.

(** Closing the listener before [Accept] has a control connection, as a server does whose first
    [Accept] failed, calls a method of a nil interface. *)
Theorem sock_close_crashes w t r :
  crashed w = false → c (cs w) = None → thr w !! t = Some (ISockClose :: r) →
  (∃ w', quiet w w' ∧ crashed w' = true) ∧
  ∀ w', step w w' → crashed w' = true ∨ (thr w' !! t = Some (ISockClose :: r)).
Proof.
  intros Hcr Hc Ht. split.
  - exists (set_crashed w). split; [split; [done|by eapply t_sock_panic]|done].
  - intros w' [_ [b Hs]]. destruct Hs; cbn; try destruct sp; cbn; rewrite ?lookup_insert; repeat case_decide;
      simplify_eq/=; auto.
Qed.

(** ** Every connection is accepted once *)

(** The connections a goroutine has opened and not yet handed over. *)
Definition posts (p : list instr) : list nat :=
  omap (λ x, match x with IPost i _ => Some i | _ => None end) p.
Definition posts_of (w : world) (u : nat) : list nat :=
  match thr w !! u with Some p => posts p | None => [] end.

Definition new_in (w w' : world) (i : nat) : Prop := (next (cs w) ≤ i < next (cs w'))%nat.

(** A step opens a connection, hands one over, returns a failed one, or none of these. *)
Definition post_step (w w' : world) : Prop := ∃ t,
  (∀ u, u ≠ t → posts_of w' u = posts_of w u) ∧
  ((accepted w' = accepted w ∧ posts_of w' t = posts_of w t) ∨
   (∃ i, new_in w w' i ∧ accepted w' = accepted w ∧ posts_of w' t = i :: posts_of w t) ∨
   (∃ i e, accepted w' = accepted w ++ [(i, e)] ∧ posts_of w t = i :: posts_of w' t) ∨
   (∃ i e, new_in w w' i ∧ accepted w' = accepted w ++ [(i, e)] ∧ posts_of w' t = posts_of w t)).

Lemma open_fd_new f base s : (next s ≤ snd (fst (open_fd f base s)) < next (fst (fst (open_fd f base s))))%nat.
Proof.
  unfold open_fd. destruct base; cbn; [lia|]. unfold cc_Write, makeControlSocketConn. cbn.
  rewrite lookup_insert_eq. cbn. case_decide; cbn; lia.
Qed.

(** The posts of the goroutines after a step of goroutine [t], by cases. *)
Ltac posts_step t :=
  exists t; unfold posts_of; cbn; rewrite ?lookup_insert_eq;
  repeat match goal with H : thr _ !! _ = Some _ |- _ => rewrite ?H; revert H
  | H : thr _ !! _ = None |- _ => rewrite ?H; revert H end; intros;
  split; [intros y Hy; rewrite ?lookup_insert; repeat case_decide; simplify_eq/=; auto;
          repeat match goal with H : thr _ !! _ = _ |- _ => rewrite H end; done|cbn; auto].

Lemma tstep_posts b w w' : tstep b w w' → post_step w w'.
Proof.
  intros Hs.
  destruct Hs as [u p w Hu Hc|t r w H|t r k w H|t r base s i e u w H Ho Hu|t r base s i u v w H Ho Hu Hv Huv
    |t r u r' i err w H Hu|t f r base s i err u w H Ho Hu|t k0 k r w H|t k0 k r w H Hl
    |t k0 k r cBytes sp p u w H Hr Hu|t k0 k r w H|b t k0 k r w H|t i r w H Hl|t i q r w H Hi Hq
    |t i j q r w H Hi Hq Hl|b t js r w H|t i bs r w H|t i q r w H|t i q r w H|t i q r w H|t i q r w H|t i q r w H
    |t i j q r w H|t i q r w H|t i q r w H|t i q r w H|t i todo seen f x r w H|t i todo seen r w H
    |t i q s r w H|t i q r w H|t i r w H|t i q q' r w H|t k r w H|t r w H|t r w H];
    try (solve [posts_step t]).
  - assert (posts p = []) as Ep
      by (destruct Hc as [->|[->|(i & _ & [->|[[b ->]|[->|[->| ->]]]])]]; done).
    posts_step u.
  - posts_step t. right; right; right. exists i, (Some e). split_and!; [|done|done].
    pose proof (open_fd_new 0 base (cs w)) as Hn. by rewrite Ho in Hn.
  - exists u. assert (t ≠ u) as Htu by (intros ->; congruence). split.
    + intros y Hy. unfold posts_of. cbn. rewrite !lookup_insert.
      repeat case_decide; subst; try done. by rewrite H.
    + right; right; left. exists i, err. split; [done|]. unfold posts_of. cbn.
      rewrite lookup_insert_ne, lookup_insert_eq, Hu by done. done.
  - posts_step t. right; left. exists i. split_and!; [|done|done].
    pose proof (open_fd_new f base (cs w)) as Hn. by rewrite Ho in Hn.
  - assert (posts (p ++ r) = posts r ∧ (sp = None ∨ ∃ f, sp = Some [IOpen f])) as [Ep Hsp].
    { unfold handler_round in Hr. repeat case_match; simplify_eq/=; eauto. }
    destruct Hsp as [->|[f ->]]; posts_step t.
Qed.

Record posted_ok (w : world) : Prop := {
  po_nodup : NoDup (accepted w).*1;
  po_known i : i ∈ (accepted w).*1 → (i < next (cs w))%nat;
  po_post u i : i ∈ posts_of w u → (i < next (cs w))%nat ∧ i ∉ (accepted w).*1;
  po_once u : NoDup (posts_of w u);
  po_apart u v i : u ≠ v → i ∈ posts_of w u → i ∈ posts_of w v → False;
}.

Lemma posted_step b w w' : fresh (cs w) → posted_ok w → tstep b w w' → posted_ok w'.
Proof.
  intros Hf [P1 P2 P3 P4 P5] Hs.
  pose proof (hl_next _ _ _ _ _ (step_heap _ _ _ Hf Hs)) as Hn.
  destruct (tstep_posts _ _ _ Hs) as (t & Ho & Ht).
  assert (∀ u i, i ∈ posts_of w' u → i ∈ posts_of w u ∨ (u = t ∧ new_in w w' i)) as Hin.
  { intros u i Hi. destruct (decide (u = t)) as [->|Hu]; [|left; by rewrite <- Ho].
    destruct Ht as [[_ E]|[(j & Hj & _ & E)|[(j & e & _ & E)|(j & e & _ & _ & E)]]].
    - left. by rewrite <- E.
    - rewrite E in Hi. apply elem_of_cons in Hi as [->|Hi]; auto.
    - left. rewrite E. by right.
    - left. by rewrite <- E. }
  assert (∀ i e, accepted w' = accepted w ++ [(i, e)] → ∀ j, j ∈ (accepted w').*1 ↔ j ∈ (accepted w).*1 ∨ j = i) as Hacc.
  { intros i e -> j. rewrite fmap_app, elem_of_app. cbn. by rewrite list_elem_of_singleton. }
  assert (∀ u v i, u ≠ v → i ∈ posts_of w' u → i ∈ posts_of w' v → False) as H5.
  { intros u v i Huv Hu Hv. unfold new_in in Hin.
    destruct (Hin _ _ Hu) as [Hu'|[-> Hiu]], (Hin _ _ Hv) as [Hv'|[-> Hiv]]; [by eauto| | |done].
    - apply P3 in Hu'. lia.
    - apply P3 in Hv'. lia. }
  unfold new_in in *.
  split.
  - destruct Ht as [[Ea _]|[(j & _ & Ea & _)|[(j & e & Ea & E)|(j & e & Hj & Ea & _)]]];
      rewrite Ea; try done; rewrite fmap_app; cbn; apply list.NoDup_app; (split_and!; [done| |apply NoDup_singleton]);
      intros x Hx ->%list_elem_of_singleton.
    + destruct (P3 t j) as [_ Hn']; [rewrite E; by left|done].
    + apply P2 in Hx. lia.
  - intros i Hi. destruct Ht as [[Ea _]|[(j & _ & Ea & _)|[(j & e & Ea & E)|(j & e & Hj & Ea & _)]]];
      [rewrite Ea in Hi; apply P2 in Hi; lia..| |]; apply (Hacc _ _ Ea) in Hi as [Hi%P2| ->]; try lia.
    destruct (P3 t j) as [? _]; [rewrite E; by left|lia].
  - intros u i Hi.
    assert ((i < next (cs w'))%nat) as Hlt.
    { destruct (Hin _ _ Hi) as [Hi0%P3|[_ ?]]; lia. }
    split; [done|]. intros Hx.
    destruct Ht as [[Ea E]|[(j & Hj & Ea & E)|[(j & e & Ea & E)|(j & e & Hj & Ea & E)]]].
    + rewrite Ea in Hx. destruct (decide (u = t)) as [->|Hu]; [rewrite E in Hi|rewrite Ho in Hi by done];
        by apply P3 in Hi as [_ ?].
    + rewrite Ea in Hx. destruct (Hin _ _ Hi) as [[_ ?]%P3|[_ ?]]; [done|]. apply P2 in Hx. lia.
    + assert (i ∈ posts_of w u) as Hi0.
      { destruct (decide (u = t)) as [->|Hu]; [rewrite E; by right|by rewrite <- Ho]. }
      apply (Hacc _ _ Ea) in Hx as [Hx| ->]; [by apply P3 in Hi0 as [_ ?]|].
      destruct (decide (u = t)) as [->|Hu]; [|apply (P5 u t j); [done|done|rewrite E; by left]].
      pose proof (P4 t) as Hnd. rewrite E in Hnd. by apply list.NoDup_cons in Hnd as [? _].
    + assert (i ∈ posts_of w u) as Hi0.
      { destruct (decide (u = t)) as [->|Hu]; [by rewrite <- E|by rewrite <- Ho]. }
      apply (Hacc _ _ Ea) in Hx as [Hx| ->]; apply P3 in Hi0 as [? ?]; [done|lia].
  - intros u. destruct (decide (u = t)) as [->|Hu]; [|by rewrite Ho].
    destruct Ht as [[Ea E]|[(j & Hj & Ea & E)|[(j & e & Ea & E)|(j & e & Hj & Ea & E)]]].
    + by rewrite E.
    + rewrite E. apply list.NoDup_cons. split; [|done]. intros Hx%P3. lia.
    + pose proof (P4 t) as Hnd. rewrite E in Hnd. by apply list.NoDup_cons in Hnd as [_ ?].
    + by rewrite E.
  - done.
Qed.

Lemma session_posted w : rtc step session_init w → posted_ok w.
Proof.
  intros H. apply (invariant_rtc step (λ w, session_ok w ∧ posted_ok w)) in H as [_ ?]; [done| |].
  - intros v v' [Hok Hpo] Hs. split; [by eapply session_step_ok|]. destruct Hs as [_ [b Hs]].
    eapply posted_step; [apply Hok|done|done].
  - split; [apply session_init_ok|]. split; cbn; unfold posts_of; cbn; intros;
      rewrite ?lookup_empty in *; try (by apply NoDup_nil_2); by set_solver.
Qed.

(** Every connection is handed out once: in every reachable state the connections that
    [Accept] has returned are distinct, and none of them is still waiting to be accepted. *)
Theorem session_accept_once w :
  rtc step session_init w →
  NoDup (accepted w).*1 ∧
  ∀ u r i err, thr w !! u = Some (IPost i err :: r) → i ∉ (accepted w).*1.
Proof.
  intros H. pose proof (session_posted w H) as [P1 _ P3 _ _]. split; [done|].
  intros u r i err Hu. destruct (P3 u i) as [_ ?]; [|done].
  unfold posts_of. rewrite Hu. by left.
Qed.

(** ** The table *)

(** An entry of the table is filed under its own descriptor and wraps a connection with a pipe
    of its own; when it is closed, the goroutine that closes it is about to remove it. *)
Definition entry (w : world) (f : Z) (i : nat) : Prop :=
  f ≠ 0 ∧ ∃ j q q', conns (cs w) !! i = Some q ∧ conns (cs w) !! j = Some q' ∧
    fd q = f ∧ cl q = Some j ∧ fd q' = f ∧ cl q' = None ∧
    (closed q = true → ∃ u p, thr w !! u = Some p ∧ IDelete i ∈ p).

Lemma cc_Write_m i b s : m (fst (cc_Write i b s)) = m s.
Proof. unfold cc_Write. by repeat case_match. Qed.

Lemma open_fd_m f base s s' i e g x :
  fresh s → open_fd f base s = (s', i, e) → m s' !! g = Some x →
  m s !! g = Some x ∨
  (g = f ∧ f ≠ 0 ∧ ∃ j q q', conns s' !! x = Some q ∧ conns s' !! j = Some q' ∧
    fd q = f ∧ cl q = Some j ∧ fd q' = f ∧ cl q' = None ∧ closed q = false).
Proof.
  intros Hf. unfold open_fd. destruct base as [er|]; [intros [= <- <- <-]; by left|].
  unfold cc_Write, makeControlSocketConn. cbn. rewrite lookup_insert_eq. cbn.
  case_decide as Hz; intros [= <- <- <-]; cbn; [by left|].
  intros [[<- <-]|[_ ?]]%lookup_insert_Some; [right|by left].
  split_and!; [done|done|]. eexists (next s), _, _.
  rewrite lookup_insert_eq. split; [done|]. rewrite lookup_insert_ne by lia.
  rewrite lookup_insert_eq. done.
Qed.

Lemma step_delete b w w' u i q r p :
  tstep b w w' → conns (cs w) !! i = Some q → thr w !! u = Some (IDelete i :: r) →
  thr w' !! u = Some p → p = IDelete i :: r ∨ m (cs w') !! fd q = None.
Proof.
  intros Hs Hq Hu Hu'. destruct Hs; cbn in Hu' |- *;
    try match goal with H : handler_round _ _ _ = _ |- _ =>
      eapply (handler_round_pushes _ _ _ 0) in H as [_ [->|[f ->]]]; cbn in Hu' end;
    rewrite ?lookup_insert in Hu'; repeat case_decide; simplify_eq/=; auto.
  right. by rewrite lookup_delete_eq.
Qed.

Lemma step_m b w w' f i :
  fresh (cs w) → tstep b w w' → m (cs w') !! f = Some i →
  m (cs w) !! f = Some i ∨ (f ≠ 0 ∧ ∃ j q q', conns (cs w') !! i = Some q ∧
    conns (cs w') !! j = Some q' ∧ fd q = f ∧ cl q = Some j ∧ fd q' = f ∧ cl q' = None ∧
    closed q = false).
Proof.
  intros Hf Hs Hm. destruct Hs; cbn in Hm |- *; auto;
    try match goal with H : open_fd _ _ _ = _ |- _ =>
      destruct (open_fd_m _ _ _ _ _ _ _ _ Hf H Hm) as [?|(-> & ? & ?)]; by auto end.
  - destruct sp; auto.
  - rewrite cc_Write_m in Hm. auto.
  - apply lookup_delete_Some in Hm as [_ ?]. auto.
  - match goal with H : send_close _ _ = _ |- _ => unfold send_close in H; destruct (c (cs w)); [|done];
      injection H as <- end. rewrite cc_Write_m in Hm. auto.
Qed.

Lemma entry_step b w w' :
  fresh (cs w) → (∀ f i, m (cs w) !! f = Some i → entry w f i) → tstep b w w' →
  ∀ f i, m (cs w') !! f = Some i → entry w' f i.
Proof.
  intros Hf HE Hs f i Hm. destruct (step_m _ _ _ _ _ Hf Hs Hm) as [Hm0|(Hz & j & q & q' & ?)].
  2: { destruct_and!. split; [done|]. exists j, q, q'. split_and!; try done. intros; congruence. }
  destruct (HE _ _ Hm0) as (Hz & j & q & q' & Hq & Hq' & E1 & E2 & E3 & E4 & Hcl). split; [done|].
  destruct (step_heap _ _ _ Hf Hs) as [_ Hdom Hc].
  destruct (Hdom i ltac:(eauto)) as [q1 Hq1], (Hdom j ltac:(eauto)) as [q1' Hq1'].
  destruct (Hc _ _ Hq1) as [(q0 & Hq0 & Hle & _ & _ & Hclosed)|[? _]];
    [|apply Hf in Hq; lia].
  destruct (Hc _ _ Hq1') as [(q0' & Hq0' & Hle' & _)|[? _]]; [|apply Hf in Hq'; lia].
  rewrite Hq in Hq0. injection Hq0 as <-. rewrite Hq' in Hq0'. injection Hq0' as <-.
  exists j, q1, q1'.
  rewrite (cle_fd _ _ Hle), (cle_cl _ _ Hle), (cle_fd _ _ Hle'), (cle_cl _ _ Hle').
  split_and!; try done. intros Hc1. destruct Hclosed as [E|(t & r & Ht)].
  - rewrite E in Hc1. destruct (Hcl Hc1) as (u & p & Hu & Hp).
    destruct (step_dom _ _ _ u Hs ltac:(eauto)) as [p' Hu'].
    destruct (step_threads _ _ _ _ _ Hs Hu') as [H|[(x & r & p0 & H & -> & Hpu)|[H _]]];
      [exists u, p'; split; [done|congruence]| |congruence].
    rewrite Hu in H. injection H as ->. apply elem_of_cons in Hp as [<-|Hp].
    + destruct (step_delete _ _ _ _ _ _ _ _ Hs Hq Hu Hu') as [Ep|Ep]; [|congruence].
      exists u, (IDelete i :: r). rewrite Hu', Ep. split; [done|by left].
    + exists u, (p0 ++ r). split; [done|]. apply elem_of_app. by right.
  - exists t, (close_body i ++ r). split; [done|]. apply elem_of_app. left. cbn. set_solver.
Qed.

(** C14: The table in every reachable state: an entry is filed under its own descriptor, which is not
    0, wraps a connection that owns a pipe, and is live, or is just being removed by the
    goroutine that closes it. *)
Theorem session_table w f i :
  rtc step session_init w → m (cs w) !! f = Some i → entry w f i.
Proof.
  intros H. revert f i.
  apply (invariant_rtc step (λ w, session_ok w ∧ ∀ f i, m (cs w) !! f = Some i → entry w f i)) in H as [_ ?];
    [done| |].
  - intros v v' [Hok He] Hs. split; [by eapply session_step_ok|]. destruct Hs as [_ [b Hs]].
    eapply entry_step; [apply Hok|done|done].
  - split; [apply session_init_ok|]. cbn. intros f i. by rewrite lookup_empty.
Qed.
End invariants.

(** ** Two connections under one descriptor *)

Section reopen.
Context {CC : ControlCodec} `{!ControlCodecLaws}.

(** When the host opens a descriptor that is in use, the table forgets the old connection; and
    when the old one is then closed, it forgets the new one too: that stays open, and the
    host's request to close the descriptor is ignored from then on. *)
Theorem reopen_orphans f i k qk s :
  table_ok s → m s !! f = Some i → 0 < f < 2 ^ 32 → c s = Some k → conns s !! k = Some qk →
  closedWrites qk = false →
  ∃ s1 i' s2 q', open_fd f None s = (s1, i', None) ∧ i' ≠ i ∧ m s1 !! f = Some i' ∧
    cc_Close i s1 = Ret (s2, None) ∧ m s2 !! f = None ∧
    conns s2 !! i' = Some q' ∧ closed q' = false ∧
    ∀ base, handle_control (marshal (MkControl close f)) base s2 = Some (Ret s2).
Proof.
  intros Hok Hi Hf Hc Hk Hw. destruct (to_conn _ Hok _ _ Hi) as (Hf0 & j & q & q' & Hd).
  destruct (to_control _ Hok _ Hc) as (q0 & Hq0 & H0 & Hcl). rewrite Hk in Hq0. injection Hq0 as <-.
  pose proof (open_data f s Hok Hf0) as E.
  set (s1 := fst (fst (open_fd f None s))). assert (s1 = fst (fst (open_fd f None s))) as E1 by done.
  rewrite E in E1. cbn [fst] in E1. pose proof Hd as [Hdi H1 H2 H3 Hdj H4 H5 H6 H7].
  destruct (to_fresh _ Hok _ _ Hdi) as [Hni _]. destruct (to_fresh _ Hok _ _ Hdj) as [Hnj _].
  destruct (to_fresh _ Hok _ _ Hk) as [Hnk _].
  destruct (close_data_open 1 f i j q q' k qk s1) as (s2 & Hcl2 & Hm & _ & Hs2 & _); try done.
  { rewrite E1. split; cbn; try done; rewrite !lookup_insert_ne by lia; done. }
  { by rewrite E1. }
  { rewrite E1. cbn. rewrite !lookup_insert_ne by lia. done. }
  assert (m s2 !! f = None) as Hm2 by (rewrite Hm; apply lookup_delete_eq).
  exists s1, (S (next s)), s2, (MkCC f (Some (next s)) false false false [] 0). split_and!.
  - by rewrite E, E1.
  - lia.
  - rewrite E1. cbn. by rewrite lookup_insert_eq.
  - exact Hcl2.
  - exact Hm2.
  - rewrite Hs2, E1. cbn [conns]. rewrite !lookup_insert_ne by lia. by rewrite lookup_insert_eq.
  - done.
  - intros base. unfold handle_control. rewrite unmarshal_marshal by (cbn; lia). cbn [sc_sort sc_fd].
    by rewrite Hm2.
Qed.
End reopen.

(** ** Runs *)

Import Wire.

Tactic Notation "quietly" tactic3(c) :=
  eapply rtc_l; [split; [reflexivity|c; try reflexivity; try done]|].
Tactic Notation "stepping" tactic3(c) :=
  eapply rtc_l; [split; [reflexivity|eexists; c; try reflexivity; try done]|].

Abbreviation qstep := (quiet (CC := wire)).
Abbreviation hstep := (step (CC := wire)).

Lemma quiet_step (w w' : world) : rtc qstep w w' → rtc hstep w w'.
Proof. apply rtc_subrel. intros a b [? ?]. split; [done|by exists false]. Qed.

(** A server in [Accept], its handler in a read of the control connection. *)
Definition serving : world :=
  MkW cs1 {[0%nat]} ∅
    (<[0%nat := [IRecv]]> (<[2%nat := [IHRead 0 0]]> (<[1%nat := [ICloseConn 0]]> ∅))) [] false false.

Lemma serving_run : rtc qstep session_init serving.
Proof.
  quietly eapply (t_call (CC := wire) 0 [IAccept]); [by left|].
  quietly eapply (t_accept_first (CC := wire)) with (t := 0%nat).
  quietly eapply (t_open_control (CC := wire)) with (t := 0%nat) (u := 1%nat) (v := 2%nat) (base := None).
  quietly eapply (t_handler (CC := wire)) with (t := 2%nat).
  quietly eapply (t_hlock (CC := wire)) with (t := 2%nat).
  replace serving with (MkW cs1 ({[0%nat]} ∪ ∅) ∅ (thr serving) [] false false) by reflexivity.
  apply rtc_refl.
Qed.

(** The listener is closed meanwhile. *)
Definition hanging : world :=
  MkW (mark 0 cs2_control cs1) {[0%nat]} {[0%nat]}
    (<[3%nat := close_body 0 ++ [IPipeClose]]> (thr serving)) [] false false.

Lemma hanging_run : rtc qstep session_init hanging.
Proof.
  etrans; [apply serving_run|].
  quietly eapply (t_call (CC := wire) 3 [ISockClose]); [by right; left|].
  quietly eapply (t_sock_close (CC := wire)) with (t := 3%nat).
  quietly eapply (t_close (CC := wire)) with (t := 3%nat).
  replace hanging with (MkW (mark 0 cs2_control cs1) {[0%nat]} ({[0%nat]} ∪ ∅)
    (thr hanging) [] false false) by reflexivity.
  apply rtc_refl.
Qed.

Lemma session_close_hangs_witness : ∃ w', rtc qstep hanging w' ∧ is_Some (thr w' !! 9%nat) ∧
  ∃ p, thr w' !! 3%nat = Some p ∧ ICloseRead 0 ∈ p.
Proof.
  set (w' := go 9 [IAccept] hanging).
  assert (rtc qstep hanging w') as Hw'.
  { apply rtc_once. split; [reflexivity|]. apply t_call; [reflexivity|by left]. }
  exists w'. split; [exact Hw'|]. split; [by eexists|].
  refine (proj1 (session_close_hangs (CC := wire) hanging 2 3 0 (quiet_step _ _ hanging_run) _ _ w' Hw')).
  - eexists. split; [reflexivity|]. cbn. right. left.
  - exists (IHRead 0 0), []. split; [reflexivity|]. split; [right; eauto|].
    split; [left|]. intros i Hi. apply list_elem_of_singleton in Hi as ->.
    eexists. split; [reflexivity|reflexivity].
Defined.

(** The host ends the control connection. *)
Definition deafened : world :=
  MkW cs1 ∅ ∅ (<[2%nat := [IClose 0]]> (thr serving)) [] false false.

Lemma deafened_run : rtc hstep session_init deafened.
Proof.
  etrans; [apply quiet_step, serving_run|].
  stepping eapply (t_hread_err (CC := wire) true) with (t := 2%nat); [by left|].
  replace deafened with (MkW cs1 ({[0%nat]} ∖ {[0%nat]}) ∅ (thr deafened) [] false false)
    by reflexivity.
  apply rtc_refl.
Qed.

Lemma deafened_deaf : deaf deafened.
Proof.
  split; [by eexists|]. intros u p Hu.
  cbn in Hu. rewrite ?lookup_insert, lookup_empty in Hu.
  repeat case_decide; simplify_eq; repeat constructor.
Qed.

Lemma session_deaf_witness : ∀ w', rtc hstep deafened w' → thr w' !! 0%nat = Some [IRecv].
Proof.
  intros w' Hw'.
  exact (proj2 (proj2 (session_deaf (CC := wire) deafened w' deafened_deaf Hw')) 0%nat [] eq_refl).
Defined.

(** The host opens descriptor 5 and [Accept] returns it. *)
Definition accepted5 : world :=
  MkW cs2 ∅ ∅
    (<[0%nat := []]> (<[4%nat := []]> (<[5%nat := [ICloseConn 1]]> (<[2%nat := [IHandler 0]]> (thr serving)))))
    [(2%nat, None)] false false.

Lemma accepted5_run : rtc hstep session_init accepted5.
Proof.
  etrans; [apply quiet_step, serving_run|].
  stepping eapply (t_hread_msg (CC := wire)) with (t := 2%nat) (u := 4%nat) (cBytes := encode (MkControl open 5)).
  stepping eapply (t_open (CC := wire)) with (t := 4%nat) (u := 5%nat) (base := None).
  stepping eapply (t_recv (CC := wire)) with (t := 0%nat) (u := 4%nat).
  replace accepted5 with (MkW cs2 ({[0%nat]} ∖ {[0%nat]}) ∅ (thr accepted5) [(2%nat, None)] false false)
    by reflexivity.
  apply rtc_refl.
Qed.

Lemma session_accept_once_witness : NoDup (accepted accepted5).*1 ∧ accepted accepted5 = [(2%nat, None)].
Proof. split; [exact (proj1 (session_accept_once (CC := wire) accepted5 accepted5_run))|reflexivity]. Defined.

Lemma session_table_witness : entry accepted5 5 2.
Proof. exact (session_table (CC := wire) accepted5 5 2 accepted5_run ltac:(vm_compute; reflexivity)). Defined.

Lemma sock_close_crashes_witness : ∃ w',
  qstep (go 0 [ISockClose] session_init) w' ∧ crashed w' = true.
Proof.
  exact (proj1 (sock_close_crashes (CC := wire) (go 0 [ISockClose] session_init) 0 [] eq_refl eq_refl eq_refl)).
Defined.

Lemma reopen_orphans_witness : ∃ s1 s2,
  cc_Close (CC := wire) 2 s1 = Ret (s2, None) ∧ m s2 !! 5 = None.
Proof.
  destruct (reopen_orphans (CC := wire) 5 2 0 cs2_control cs2 cs2_ok)
    as (s1 & i' & s2 & q' & _ & _ & _ & H1 & H2 & _);
    [vm_compute; reflexivity|lia|vm_compute; reflexivity|vm_compute; reflexivity|reflexivity|].
  exists s1, s2. split; [exact H1|exact H2].
Defined.
