(* ===== verification/ControlRefine.v ===== *)
(** * The steps of a close implement its function

    [Control] defines [Close] of a connection as a function; [ControlStep] runs it one part at a
    time, under its locks.  When no read is under way and no other goroutine moves, the steps
    compute the function: the nested calls, the sweep over the table and the messages are the
    same, and no lock is waited for. *)

From S2P Require Import Prelude GoIO QemuConn Control ControlStep.

Local Open Scope Z_scope.

(** ** Connections that refer to each other as the code makes them *)

(** The control connection calls the connections of the table, those call what they wrap. *)
Definition rank (q : cconn) : nat :=
  if decide (fd q = 0) then 2 else match cl q with Some _ => 1 | None => 0 end.

Record linked (s : ControlSocket) : Prop := {
  li_entry f i : m s !! f = Some i → f ≠ 0 ∧ ∃ q j, conns s !! i = Some q ∧ fd q = f ∧ cl q = Some j;
  li_inner i q j : conns s !! i = Some q → cl q = Some j →
    fd q ≠ 0 ∧ ∃ q', conns s !! j = Some q' ∧ fd q' = fd q ∧ cl q' = None;
}.

(** A heap with the same connections, as to descriptor and wrapped connection, and no new
    entries. *)
Definition shape (s : ControlSocket) (i : nat) : option (Z * option nat) :=
  (λ q, (fd q, cl q)) <$> conns s !! i.

Record reshaped (s s' : ControlSocket) : Prop := {
  rs_shape i : shape s' i = shape s i;
  rs_m f i : m s' !! f = Some i → m s !! f = Some i;
  rs_c : c s' = c s;
}.

#[export] Instance reshaped_refl : Reflexive reshaped.
Proof. by split. Qed.
#[export] Instance reshaped_trans : Transitive reshaped.
Proof. intros s1 s2 s3 [] []. split; intros; auto; congruence. Qed.

Lemma shape_Some s i q : conns s !! i = Some q → shape s i = Some (fd q, cl q).
Proof. intros H. unfold shape. by rewrite H. Qed.

Lemma shape_inv s i f j : shape s i = Some (f, j) → ∃ q, conns s !! i = Some q ∧ fd q = f ∧ cl q = j.
Proof. unfold shape. destruct (conns s !! i) as [q|]; [|done]. intros [= <- <-]. eauto. Qed.

Lemma linked_reshaped s s' : linked s → reshaped s s' → linked s'.
Proof.
  intros [H1 H2] [Hs Hm _]. split.
  - intros f i Hi%Hm. destruct (H1 _ _ Hi) as (Hf & q & j & Hq & E & Hc). split; [done|].
    apply shape_Some in Hq. rewrite <- Hs in Hq. apply shape_inv in Hq as (q' & ? & ? & ?).
    exists q', j. split_and!; congruence.
  - intros i q j Hq Hj. pose proof (shape_Some _ _ _ Hq) as E. rewrite Hs in E.
    apply shape_inv in E as (q1 & Hq1 & E1 & E2). rewrite Hj in E2.
    destruct (H2 _ _ _ Hq1 E2) as (Hf & q2 & Hq2 & E3 & E4). split; [congruence|].
    apply shape_Some in Hq2. rewrite <- Hs in Hq2. apply shape_inv in Hq2 as (q3 & ? & ? & ?).
    exists q3. split_and!; congruence.
Qed.

Lemma reshaped_set s i q q' :
  conns s !! i = Some q → fd q' = fd q → cl q' = cl q → reshaped s (set_conn i q' s).
Proof.
  intros Hi E1 E2. split; cbn; try done. intros x. unfold shape, set_conn. cbn.
  rewrite lookup_insert. case_decide; [|done]. subst x. rewrite Hi. cbn. by rewrite E1, E2.
Qed.

Lemma reshaped_delete s f : reshaped s (set_m (delete f) s).
Proof. split; cbn; try done. intros g i [_ ?]%lookup_delete_Some. done. Qed.

Section refine.
Context {CC : ControlCodec}.

Lemma reshaped_write s i b : reshaped s (fst (cc_Write i b s)).
Proof. unfold cc_Write. repeat case_match; cbn; try done; by eapply reshaped_set. Qed.

Lemma reshaped_send s f s' : send_close f s = Ret s' → reshaped s s'.
Proof. unfold send_close. destruct (c s); [|done]. intros [= <-]. apply reshaped_write. Qed.

Lemma mark_closed_shape q : fd (mark_closed q) = fd q ∧ cl (mark_closed q) = cl q.
Proof. by rewrite mark_closed_eq. Qed.

(** ** One goroutine on its own *)

Context (t : nat) (th : gmap nat (list instr)) (acc : list (nat * option error)) (pc : bool).

(** Goroutine [t] has [p] to run, with the close locks [L]; no read is under way. *)
Definition alone (s : ControlSocket) (L : gset nat) (p : list instr) : world :=
  MkW s ∅ L (<[t := p]> th) acc pc false.

Definition runs (s : ControlSocket) (L : gset nat) (p : list instr) (s' : ControlSocket)
    (L' : gset nat) (p' : list instr) : Prop :=
  rtc (quiet (CC := CC)) (alone s L p) (alone s' L' p').

Lemma runs_trans s1 L1 p1 s2 L2 p2 s3 L3 p3 :
  runs s1 L1 p1 s2 L2 p2 → runs s2 L2 p2 s3 L3 p3 → runs s1 L1 p1 s3 L3 p3.
Proof. apply rtc_trans. Qed.

(** One step of [t]. *)
Lemma runs_one s L p w p' :
  tstep (CC := CC) false (alone s L p) (go_on t p' w) →
  rlock w = ∅ → thr w = <[t := p]> th → accepted w = acc → pipeClosed w = pc → crashed w = false →
  runs s L p (cs w) (clock w) p'.
Proof.
  intros Hs H1 H2 H3 H4 H5. apply rtc_once. split; [done|].
  destruct w as [s1 rl L1 th1 a1 p1 c1]. cbn in *. subst.
  unfold go_on, set_thr in Hs. cbn in Hs. by rewrite insert_insert_eq in Hs.
Qed.

Ltac one w c := eapply (runs_one _ _ _ w);
  [eapply c; cbn; rewrite ?lookup_insert_eq; try done|try done..].

Lemma run_close_again s L i q r :
  conns s !! i = Some q → closed q = true → i ∉ L → runs s L (IClose i :: r) s L r.
Proof. intros. one (alone s L (IClose i :: r)) (t_close_again (CC := CC)). Qed.

(** Up to [q.cl.Close()]. *)
Lemma run_mark s L i q r :
  conns s !! i = Some q → closed q = false → i ∉ L →
  runs s L (IClose i :: r) (set_conn i (mark_closed q) s) ({[i]} ∪ L)
    ([ICloseInner i; IDelete i; IRange i; ISend i; IUnlock i] ++ r).
Proof.
  intros Hi Ho HL. set (q1 := MkCC (fd q) (cl q) (closedReads q) (closedWrites q) true (out q) (pipeCloses q)).
  eapply runs_trans; [|eapply runs_trans].
  - one (MkW (mark i q s) ∅ ({[i]} ∪ L) (<[t := IClose i :: r]> th) acc pc false) (t_close (CC := CC)).
  - one (MkW (set_conn i (fst (cc_CloseWrite q1)) (mark i q s)) ∅ ({[i]} ∪ L)
      (<[t := close_body i ++ r]> th) acc pc false) (t_closeWrite (CC := CC)).
  - cbn [cs clock app].
    replace (set_conn i (mark_closed q) s) with
      (set_conn i (fst (cc_CloseRead (fst (cc_CloseWrite q1)))) (set_conn i (fst (cc_CloseWrite q1)) (mark i q s))).
    2: { unfold set_conn. cbn. by rewrite !insert_insert_eq. }
    one (MkW (set_conn i (fst (cc_CloseRead (fst (cc_CloseWrite q1)))) (set_conn i (fst (cc_CloseWrite q1)) (mark i q s)))
      ∅ ({[i]} ∪ L) (<[t := ICloseRead i :: ICloseInner i :: IDelete i :: IRange i :: ISend i :: IUnlock i :: r]> th) acc pc false)
      (t_closeRead (CC := CC)).
Qed.

Lemma run_inner_own s L i q r :
  conns s !! i = Some q → cl q = None →
  runs s L (ICloseInner i :: r) (close_pipe_of i q s) L r.
Proof.
  intros. one (MkW (close_pipe_of i q s) ∅ L (<[t := ICloseInner i :: r]> th) acc pc false)
    (t_inner_own (CC := CC)).
Qed.

Lemma run_inner s L i j q r :
  conns s !! i = Some q → cl q = Some j →
  runs s L (ICloseInner i :: r) s L (IClose j :: r).
Proof. intros. one (alone s L (ICloseInner i :: r)) (t_inner (CC := CC)). Qed.

Lemma run_delete s L i q r :
  conns s !! i = Some q → runs s L (IDelete i :: r) (set_m (delete (fd q)) s) L r.
Proof.
  intros. one (MkW (set_m (delete (fd q)) s) ∅ L (<[t := IDelete i :: r]> th) acc pc false)
    (t_delete (CC := CC)).
Qed.

Lemma run_range_data s L i q r :
  conns s !! i = Some q → fd q ≠ 0 → runs s L (IRange i :: r) s L r.
Proof. intros. one (alone s L (IRange i :: r)) (t_range_data (CC := CC)). Qed.

Lemma run_range s L i q r :
  conns s !! i = Some q → fd q = 0 →
  runs s L (IRange i :: r) s L (ISweep i (map_to_list (m s)).*1 [] :: r).
Proof. intros. one (alone s L (IRange i :: r)) (t_range (CC := CC)). Qed.

Lemma run_sweep s L i todo seen f x r :
  f ∉ seen → m s !! f = Some x →
  runs s L (ISweep i todo seen :: r) s L (IClose x :: ISweep i todo (f :: seen) :: r).
Proof. intros. one (alone s L (ISweep i todo seen :: r)) (t_sweep (CC := CC)). Qed.

Lemma run_sweep_end s L i todo r : runs s L (ISweep i todo todo :: r) s L r.
Proof. one (alone s L (ISweep i todo todo :: r)) (t_sweep_end (CC := CC)). auto. Qed.

Lemma run_send s s' L i q r :
  conns s !! i = Some q → send_close (fd q) s = Ret s' → runs s L (ISend i :: r) s' L r.
Proof.
  intros. one (MkW s' ∅ L (<[t := ISend i :: r]> th) acc pc false) (t_send (CC := CC)).
Qed.

Lemma run_unlock s L i r : i ∉ L → runs s ({[i]} ∪ L) (IUnlock i :: r) s L r.
Proof.
  intros Hi. replace L with (({[i]} ∪ L) ∖ {[i]}) at 2 by set_solver.
  one (MkW s ∅ (({[i]} ∪ L) ∖ {[i]}) (<[t := IUnlock i :: r]> th) acc pc false) (t_unlock (CC := CC)).
Qed.

(** ** The induction *)

(** The close locks are held by connections further up the calls. *)
Definition above (k : nat) (L : gset nat) (s : ControlSocket) : Prop :=
  ∀ x, x ∈ L → ∃ qx, conns s !! x = Some qx ∧ (k < rank qx)%nat.

(** What [Close_fuel n] computes is what the steps do. *)
Definition closes (n : nat) : Prop := ∀ i q s s' e L r,
  linked s → conns s !! i = Some q → above (rank q) L s → Close_fuel n i s = Ret (s', e) →
  runs s L (IClose i :: r) s' L r ∧ reshaped s s' ∧
  ((rank q ≤ 1)%nat → ∀ f, f ≠ fd q → m s' !! f = m s !! f).

Lemma shape_rank s s' i q :
  shape s' i = shape s i → conns s !! i = Some q →
  ∃ q', conns s' !! i = Some q' ∧ fd q' = fd q ∧ cl q' = cl q ∧ rank q' = rank q.
Proof.
  intros E Hq. rewrite (shape_Some _ _ _ Hq) in E. apply shape_inv in E as (q' & Hq' & E1 & E2).
  exists q'. unfold rank. by rewrite E1, E2.
Qed.

Lemma above_reshaped k L s s' : above k L s → reshaped s s' → above k L s'.
Proof.
  intros Ha [Hs _ _] x Hx. destruct (Ha x Hx) as (qx & Hq & Hr).
  destruct (shape_rank s s' x qx (Hs x) Hq) as (q' & ? & _ & _ & E). exists q'. by rewrite E.
Qed.

Lemma sweep_runs n i todo s s' L r l :
  closes n → linked s → above 1 L s → NoDup l.*1 →
  (∀ f x, (f, x) ∈ l → m s !! f = Some x) → sweep n s l = Ret s' →
  runs s L (ISweep i todo [] :: r) s' L (ISweep i todo l.*1 :: r) ∧ reshaped s s' ∧
  ∀ f, f ∉ l.*1 → m s' !! f = m s !! f.
Proof.
  intros Hn Hli Ha. revert s'. induction l as [|[f x] l IH]; intros s' Hnd Hl; cbn [sweep foldr].
  { intros [= <-]. split_and!; [apply rtc_refl|done|done]. }
  cbn in Hnd. apply list.NoDup_cons in Hnd as [Hf Hnd].
  change (foldr _ (Ret s) l) with (sweep n s l). destruct (sweep n s l) as [s1| |] eqn:E1; [|done..].
  destruct (IH s1 Hnd) as (Hr1 & Hs1 & Hm1); [intros; apply Hl; by right|done|].
  cbn [snd]. destruct (Close_fuel n x s1) as [[s2 e]| |] eqn:E2; [|done..]. intros [= <-].
  assert (m s1 !! f = Some x) as Hfx by (rewrite Hm1 by done; apply Hl; left).
  pose proof (linked_reshaped _ _ Hli Hs1) as Hli1.
  destruct (li_entry _ Hli1 _ _ Hfx) as (Hf0 & qx & j & Hx & Ef & Ej).
  assert (rank qx = 1%nat) as Hrx by (unfold rank; by rewrite decide_False, Ej by congruence).
  destruct (Hn x qx s1 s2 e L (ISweep i todo (f :: l.*1) :: r)) as (Hr2 & Hs2 & Hm2); try done.
  { intros y Hy. destruct (above_reshaped _ _ _ _ Ha Hs1 y Hy) as (qy & ? & ?). exists qy.
    split; [done|lia]. }
  split_and!.
  - eapply runs_trans; [exact Hr1|]. eapply runs_trans; [by apply run_sweep|]. exact Hr2.
  - by etrans.
  - intros g Hg. cbn in Hg. apply not_elem_of_cons in Hg as [? ?].
    rewrite Hm2 by (lia || congruence). by apply Hm1.
Qed.

Lemma above_notin k L s i q : above k L s → conns s !! i = Some q → (rank q ≤ k)%nat → i ∉ L.
Proof. intros Ha Hi Hk HL. destruct (Ha i HL) as (q' & Hq' & ?). rewrite Hi in Hq'. injection Hq' as <-. lia. Qed.

Lemma above_add k L s i q :
  above k L s → conns s !! i = Some q → (k < rank q)%nat → above k ({[i]} ∪ L) s.
Proof. intros Ha Hi Hk x [->%elem_of_singleton|Hx]%elem_of_union; eauto. Qed.

Lemma above_le k k' L s : above k L s → (k' ≤ k)%nat → above k' L s.
Proof. intros Ha Hk x Hx. destruct (Ha x Hx) as (qx & ? & ?). exists qx. split; [done|lia]. Qed.

(** The part of a close on the connection it wraps, or on its pipe. *)
Lemma inner_runs n i q s L r o :
  closes n → linked s → conns s !! i = Some q → above (rank q) L s →
  i ∈ L ∨ i ∉ L →
  match cl q with
  | None => Ret (close_pipe_of i q s)
  | Some j => match Close_fuel n j s with Ret (s, _) => Ret s | Panic => Panic | Block => Block end
  end = Ret o →
  runs s ({[i]} ∪ L) (ICloseInner i :: r) o ({[i]} ∪ L) r ∧ reshaped s o ∧
  ∀ f, f ≠ fd q → m o !! f = m s !! f.
Proof.
  intros Hn Hli Hq Ha _. destruct (cl q) as [j|] eqn:Ej.
  - destruct (li_inner _ Hli _ _ _ Hq Ej) as (Hf & q' & Hq' & Ef & Ec).
    assert (rank q = 1%nat) as Hr by (unfold rank; by rewrite decide_False, Ej by done).
    assert (rank q' = 0%nat) as Hr' by (unfold rank; by rewrite decide_False, Ec by congruence).
    destruct (Close_fuel n j s) as [[s2 e]| |] eqn:E; [|done..]. intros [= <-].
    destruct (Hn j q' s s2 e ({[i]} ∪ L) r Hli Hq') as (H1 & H2 & H3); [|done|].
    { rewrite Hr'. eapply above_add; [|done|lia]. eapply above_le; [done|lia]. }
    split_and!; [|done|].
    + eapply runs_trans; [by eapply run_inner|exact H1].
    + intros g Hg. apply H3; [lia|congruence].
  - intros [= <-]. split_and!; [by apply run_inner_own|by eapply reshaped_set|done].
Qed.

(** The part of a close on the table. *)
Lemma range_runs n i q s s' L r :
  closes n → linked s → conns s !! i = Some q → above (rank q) L s →
  (if decide (fd q = 0) then sweep n s (map_to_list (m s)) else Ret s) = Ret s' →
  runs s ({[i]} ∪ L) (IRange i :: r) s' ({[i]} ∪ L) r ∧ reshaped s s' ∧
  (fd q ≠ 0 → s' = s).
Proof.
  intros Hn Hli Hq Ha. case_decide as Hf; intros E.
  - assert (rank q = 2%nat) as Hr by (unfold rank; by rewrite decide_True).
    destruct (sweep_runs n i (map_to_list (m s)).*1 s s' ({[i]} ∪ L) r (map_to_list (m s)))
      as (H1 & H2 & _); try done.
    + eapply above_add; [|done|lia]. eapply above_le; [done|lia].
    + apply NoDup_fst_map_to_list.
    + intros f x Hx. by apply elem_of_map_to_list in Hx.
    + split_and!; [|done|done]. eapply runs_trans; [by eapply run_range|].
      eapply runs_trans; [exact H1|]. apply run_sweep_end.
  - injection E as <-. split_and!; [by eapply run_range_data|done|done].
Qed.

Lemma send_close_m f s s' : send_close f s = Ret s' → m s' = m s.
Proof. unfold send_close. destruct (c s); [|done]. intros [= <-]. apply cc_Write_m. Qed.

(** The body of a close as a sequence of its parts. *)
Lemma Close_fuel_eq n i q s :
  conns s !! i = Some q → closed q = false →
  Close_fuel (S n) i s =
  let s1 := set_conn i (mark_closed q) s in
  obind (match cl q with
         | None => Ret (close_pipe_of i (mark_closed q) s1)
         | Some j => match Close_fuel n j s1 with Ret (s, _) => Ret s | Panic => Panic | Block => Block end
         end) (λ s2,
  let s3 := set_m (delete (fd q)) s2 in
  obind (if decide (fd q = 0) then sweep n s3 (map_to_list (m s3)) else Ret s3) (λ s4,
  obind (send_close (fd q) s4) (λ s5, Ret (s5, None)))).
Proof.
  intros Hq Ho. cbn [Close_fuel]. rewrite Hq, Ho. destruct (cl q) as [j|]; cbn [obind].
  - destruct (Close_fuel n j _) as [[s2 e]| |]; [|done..]. cbn [obind].
    unfold sweep. case_decide; [|cbn; by destruct (send_close _ _)].
    destruct (foldr _ _ _) as [s4| |]; [|done..]. cbn. by destruct (send_close _ _).
  - unfold sweep. case_decide; [|cbn; by destruct (send_close _ _)].
    fold (close_pipe_of i (mark_closed q) (set_conn i (mark_closed q) s)).
    destruct (foldr _ _ _) as [s4| |]; [|done..]. cbn. by destruct (send_close _ _).
Qed.

Lemma Close_fuel_closes n : closes n.
Proof.
  induction n as [|n Hn]; intros i q s s' e L r Hli Hq Ha; [done|].
  pose proof (above_notin _ _ _ _ _ Ha Hq ltac:(done)) as HiL.
  destruct (closed q) eqn:Ho.
  { cbn [Close_fuel]. rewrite Hq, Ho. intros [= <- <-].
    split_and!; [by eapply run_close_again|done|done]. }
  rewrite (Close_fuel_eq n i q s Hq Ho). cbn zeta.
  destruct (mark_closed_shape q) as [Ef Ec].
  set (s1 := set_conn i (mark_closed q) s).
  assert (reshaped s s1) as R1 by (by eapply reshaped_set).
  assert (conns s1 !! i = Some (mark_closed q)) as Hq1 by (cbn; by rewrite lookup_insert_eq).
  assert (rank (mark_closed q) = rank q) as Hrk by (unfold rank; by rewrite Ef, Ec).
  pose proof (linked_reshaped _ _ Hli R1) as Hli1.
  pose proof (above_reshaped _ _ _ _ Ha R1) as Ha1.
  pose proof (λ r s2, inner_runs n i (mark_closed q) s1 L r s2 Hn Hli1 Hq1) as Hin.
  rewrite Ec, Hrk, Ef in Hin. destruct (match cl q with None => _ | Some _ => _ end) as [s2| |]; [|done..].
  destruct (Hin ([IDelete i; IRange i; ISend i; IUnlock i] ++ r) s2 Ha1 ltac:(by right) eq_refl)
    as (Hr2 & R2 & Hm2). cbn [obind].
  destruct (shape_rank _ _ _ _ (rs_shape _ _ R2 i) Hq1) as (q2 & Hq2 & Ef2 & _ & Hrk2).
  rewrite Ef in Ef2. set (s3 := set_m (delete (fd q)) s2).
  pose proof (reshaped_delete s2 (fd q)) as R3. fold s3 in R3.
  pose proof (linked_reshaped _ _ (linked_reshaped _ _ Hli1 R2) R3) as Hli3.
  pose proof (above_reshaped _ _ _ _ (above_reshaped _ _ _ _ Ha1 R2) R3) as Ha3.
  destruct (if decide (fd q = 0) then _ else _) as [s4| |] eqn:E4; [|done..]. cbn [obind].
  destruct (range_runs n i q2 s3 s4 L (ISend i :: IUnlock i :: r) Hn Hli3 Hq2)
    as (Hr4 & R4 & Hs4); [by rewrite Hrk2, Hrk|by rewrite Ef2|].
  destruct (send_close (fd q) s4) as [s5| |] eqn:E5; [|done..]. cbn [obind]. intros [= <- <-].
  destruct (shape_rank _ _ _ _ (rs_shape _ _ R4 i) Hq2) as (q4 & Hq4 & Ef4 & _).
  split_and!.
  - eapply runs_trans; [by apply run_mark|]. eapply runs_trans; [exact Hr2|].
    eapply runs_trans; [by eapply run_delete|]. rewrite Ef2.
    eapply runs_trans; [exact Hr4|].
    eapply runs_trans; [eapply run_send; [exact Hq4|by rewrite Ef4, Ef2]|]. by apply run_unlock.
  - etrans; [exact R1|]. etrans; [exact R2|]. etrans; [exact R3|]. etrans; [exact R4|].
    by eapply reshaped_send.
  - intros Hk f Hf. assert (fd q ≠ 0) as Hf0 by (unfold rank in Hk; case_decide; lia).
    rewrite (send_close_m _ _ _ E5), Hs4 by congruence. cbn.
    rewrite lookup_delete_ne by done. by apply Hm2.
Qed.
End refine.

(** ** Reachable sessions *)

Section reachable.
Context {CC : ControlCodec}.

(** A new connection that wraps another wraps one with a pipe, both for the descriptor that
    was opened. *)
Definition wraps (s : ControlSocket) (q : cconn) : Prop :=
  ∀ j, cl q = Some j → fd q ≠ 0 ∧ ∃ q', conns s !! j = Some q' ∧ fd q' = fd q ∧ cl q' = None.

Lemma open_fd_wraps f base s s' i0 e i q :
  fresh s → open_fd f base s = (s', i0, e) → conns s' !! i = Some q → (next s ≤ i)%nat → wraps s' q.
Proof.
  intros Hf. unfold open_fd. destruct base as [er|].
  { intros [= <- <- <-]. cbn. intros [[<- <-]|[Hne Hi]]%lookup_insert_Some ? j; [done|].
    apply Hf in Hi. lia. }
  unfold cc_Write, makeControlSocketConn. cbn. rewrite lookup_insert_eq. cbn.
  case_decide as Hz; intros [= <- <- <-]; cbn.
  - rewrite insert_insert_eq. intros [[<- <-]|[Hne Hi]]%lookup_insert_Some ? j; [done|].
    apply Hf in Hi. lia.
  - rewrite insert_insert_eq.
    intros [[<- <-]|[_ [[<- <-]|[Hne Hi]]%lookup_insert_Some]]%lookup_insert_Some ? j;
      [|done|apply Hf in Hi; lia].
    intros [= <-]. cbn. split; [done|]. eexists. rewrite lookup_insert_ne by lia.
    rewrite lookup_insert_eq. done.
Qed.

Lemma cc_Write_next i b s : next (fst (cc_Write i b s)) = next s.
Proof. unfold cc_Write. by repeat case_match. Qed.

Lemma step_wraps b w w' i q :
  fresh (cs w) → tstep b w w' → conns (cs w') !! i = Some q → (next (cs w) ≤ i)%nat →
  wraps (cs w') q.
Proof.
  intros Hf Hs Hi Hn. pose proof (step_fresh _ _ _ Hf Hs i q Hi) as Hlt.
  destruct Hs; cbn in Hi, Hlt |- *; try lia;
    try match goal with H : open_fd _ _ _ = _ |- _ => by eapply open_fd_wraps in H end.
  - destruct sp; cbn in Hlt; lia.
  - rewrite cc_Write_next in Hlt. lia.
  - match goal with H : send_close _ _ = _ |- _ => unfold send_close in H; destruct (c (cs w)); [|done];
      injection H as <- end. rewrite cc_Write_next in Hlt. lia.
Qed.

Definition all_wrap (w : world) : Prop := ∀ i q, conns (cs w) !! i = Some q → wraps (cs w) q.

Lemma all_wrap_step b w w' : fresh (cs w) → all_wrap w → tstep b w w' → all_wrap w'.
Proof.
  intros Hf Ha Hs i q' Hq'. destruct (decide (next (cs w) ≤ i)%nat) as [Hn|Hn]; [by eapply step_wraps|].
  destruct (step_heap _ _ _ Hf Hs) as [_ Hdom Hc].
  destruct (Hc _ _ Hq') as [(q & Hq & Hle & _)|[? _]]; [|lia].
  intros j Hj. rewrite (cle_cl _ _ Hle) in Hj. destruct (Ha _ _ Hq j Hj) as (Hf0 & q1 & Hq1 & E1 & E2).
  rewrite (cle_fd _ _ Hle). split; [done|].
  destruct (Hdom j ltac:(eauto)) as [q1' Hq1']. exists q1'.
  destruct (Hc _ _ Hq1') as [(q2 & Hq2 & Hle2 & _)|[? _]]; [|apply Hf in Hq1; lia].
  rewrite Hq1 in Hq2. injection Hq2 as <-.
  by rewrite (cle_fd _ _ Hle2), (cle_cl _ _ Hle2).
Qed.

Lemma session_linked w : rtc step session_init w → linked (cs w).
Proof.
  intros H. split.
  - intros f i Hi. destruct (session_table w f i H Hi) as (Hf & j & q & q' & ?). split; [done|].
    exists q, j. naive_solver.
  - apply (invariant_rtc step (λ w, session_ok w ∧ all_wrap w)) in H as [_ Ha].
    + intros i q j Hq Hj. by apply (Ha i q Hq).
    + intros v v' [Hok Ha] Hs. split; [by eapply session_step_ok|]. destruct Hs as [_ [b Hs]].
      eapply all_wrap_step; [apply Hok|done|done].
    + split; [apply session_init_ok|]. intros i q. cbn. by rewrite lookup_empty.
Qed.

(** C15: [Close] as the goroutines run it is the function [cc_Close]: from every reachable state in
    which no read and no other close is under way, the goroutine that calls it ends, on its own,
    in the state the function returns, with all locks free. *)
Theorem Close_refines_function w t i r q s' e :
  rtc step session_init w → crashed w = false → rlock w = ∅ → clock w = ∅ →
  thr w !! t = Some (IClose i :: r) → conns (cs w) !! i = Some q →
  cc_Close i (cs w) = Ret (s', e) →
  rtc quiet w (alone t (thr w) (accepted w) (pipeClosed w) s' ∅ r).
Proof.
  intros Hr Hc Hrl Hcl Ht Hq E. pose proof (session_linked w Hr) as Hli.
  destruct (Close_fuel_closes t (thr w) (accepted w) (pipeClosed w) 3 i q (cs w) s' e ∅ r Hli Hq)
    as (H & _); [by intros x ?%elem_of_empty|exact E|].
  unfold runs, alone in H. rewrite (insert_id (thr w) t) in H by done.
  destruct w as [s0 rl L0 th0 a0 p0 c0]. cbn in *. subst. exact H.
Qed.
End reachable.

(** The connection accepted in [accepted5] is closed by the server. *)
Lemma Close_refines_function_witness : ∃ w s',
  rtc hstep session_init w ∧ cc_Close (CC := Wire.wire) 2 cs2 = Ret (s', None) ∧
  rtc qstep w (MkW s' ∅ ∅ (<[6%nat := []]> (thr w)) (accepted w) (pipeClosed w) false).
Proof.
  set (w := go 6 [IClose 2] accepted5).
  assert (rtc hstep session_init w) as Hr.
  { eapply rtc_r; [exact accepted5_run|]. split; [reflexivity|]. exists false.
    apply t_call; [reflexivity|]. right; right. exists 2%nat. split; [left|]. auto. }
  destruct (control_close_twice (CC := Wire.wire) 5 2 0 cs2_control cs2 cs2_ok)
    as (s' & qk' & H1 & _); try (vm_compute; reflexivity).
  exists w, s'. split; [exact Hr|]. split; [exact H1|].
  refine (Close_refines_function (CC := Wire.wire) w 6 2 [] _ s' None Hr eq_refl eq_refl eq_refl eq_refl _ H1).
  vm_compute. reflexivity.
Defined.
