(* ===== verification/Proto.v ===== *)
(** * The messages of src/waterfall/proto/waterfall.proto

    The fields the Go sources read or write.  Enumerations are open, as in proto3: a
    value outside the declared ones is kept. *)

From S2P Require Import Prelude.

Local Open Scope Z_scope.

(** [Message], the unit of the multiplexer and of [Echo]. *)
Record Message := MkMessage { Message_payload : list byte }.

(** [ForwardMessage.Kind] and [ForwardMessage.Op] *)
Inductive Kind := UNSET | TCP | UDP | UNIX | OtherKind (n : Z).
Inductive Op := OPEN | FWD | CLOSE | ANNOUNCE | OtherOp (n : Z).

#[export] Instance Kind_eq_dec : EqDecision Kind.
Proof. solve_decision. Defined.
#[export] Instance Op_eq_dec : EqDecision Op.
Proof. solve_decision. Defined.

(** [ForwardMessage] *)
Record ForwardMessage := MkForwardMessage {
  fm_kind : Kind;
  fm_op : Op;
  fm_addr : string;
  fm_payload : list byte;
}.

(** [new(ForwardMessage)]: the zero values. *)
Definition ForwardMessage_zero : ForwardMessage := MkForwardMessage UNSET OPEN "" [].

(** [ForwardSession] and [PortForwardRequest] *)
Record ForwardSession := MkForwardSession { fs_src : string; fs_dst : string }.
Record PortForwardRequest := MkPortForwardRequest { pr_rebind : bool; pr_session : ForwardSession }.

(** [ForwardedSessions], the answer of [List]; [PortForwardResponse], which the service names as the
    answer of [ReverseForwardPort] and no Go code makes. *)
Record ForwardedSessions := MkForwardedSessions { fs_sessions : list ForwardSession }.
Record PortForwardResponse := MkPortForwardResponse { fr_session : ForwardSession }.

(** [VersionMessage] *)
Record VersionMessage := MkVersionMessage { vm_version : string }.
