(* ===== verification/Stream.v ===== *)
(** * Byte streams over message streams: src/waterfall/golang/stream/stream.go

    A [Reader] owns a goroutine, [startReads], that moves messages from the gRPC
    stream into a channel of 256 slices; [Read] takes slices off the channel.  Every
    [Read] is given a schedule: how many steps the goroutine makes before each receive
    of the channel.  The theorems hold for all schedules, so for every interleaving of
    the two. *)

From S2P Require Import Prelude GoIO.

Local Open Scope Z_scope.

(** ** Message interfaces *)

(** The methods of [MessageReadWriteCloser], [MessageReader], [MessageWriter] and
    [MessageCloser], for the message type [M] their [interface{}] values hold. *)
Class MsgBuilder (M : Type) := BuildMsg : M.
Class MsgReader (M : Type) := GetBytes : M → result (list byte).
Class MsgWriter (M : Type) := SetBytes : M → list byte → M.
Class MsgCloser (M : Type) := CloseMsg : M.

(** What a stream relies on: a payload put in a fresh message is the payload read
    from it, if it is one the message type can carry, and the closing message reads as
    the end of the stream. *)
Class MsgLaws (M : Type) `{!MsgBuilder M, !MsgReader M, !MsgWriter M, !MsgCloser M}
    (carries : list byte → Prop) := {
  get_set : ∀ b, carries b → GetBytes (SetBytes BuildMsg b) = Ok b;
  get_close : GetBytes CloseMsg = Err EOF;
}.

(** ** Reader *)

Definition msgChanCap : Z := 256.

Section Reader.
Context {M : Type} `{!MsgReader M}.

(** [incoming] and [ending]: the messages [RecvMsg] will give and the error that ends
    them ([None]: none comes).  [msgClosed]: [msgChan] is closed; [producing]:
    [startReads] has not returned. *)
Record Reader := MkReader {
  incoming : list M;
  ending : option error;
  lastRead : list byte;
  msgChan : list (list byte);
  msgClosed : bool;
  errChan : list error;
  producing : bool;
}.

(** [NewReader(stream, sm)] *)
Definition NewReader (ms : list M) (e : option error) : Reader :=
  MkReader ms e [] [] false [] true.

(** One round of the loop of [startReads]; [None] while it waits (for a message, or
    for room in [msgChan]) and after it returned. *)
Definition startReads_step (s : Reader) : option Reader :=
  if negb (producing s) then None else
  let stop err ms :=
    Some (MkReader ms (ending s) (lastRead s) (msgChan s) true (errChan s ++ [err]) false) in
  match incoming s with
  | [] => match ending s with Some err => stop err [] | None => None end
  | m :: ms =>
      match GetBytes m with
      | Err err => stop err ms
      | Ok b =>
          if decide (len (msgChan s) < msgChanCap)
          then Some (MkReader ms (ending s) (lastRead s) (msgChan s ++ [b]) (msgClosed s)
                       (errChan s) true)
          else None
      end
  end.

(** The goroutine runs, at most [k] rounds. *)
Fixpoint startReads_run (k : nat) (s : Reader) : Reader :=
  match k with
  | O => s
  | S k => match startReads_step s with Some s' => startReads_run k s' | None => s end
  end.

(** A receive on [msgChan] that does not wait: a slice, closed, or nothing there. *)
Inductive recvd := Got (b : list byte) | ChanClosed | ChanEmpty.

Definition recv (s : Reader) : Reader * recvd :=
  match msgChan s with
  | b :: q => (MkReader (incoming s) (ending s) (lastRead s) q (msgClosed s) (errChan s)
                 (producing s), Got b)
  | [] => (s, if msgClosed s then ChanClosed else ChanEmpty)
  end.

Definition set_lastRead (s : Reader) (b : list byte) : Reader :=
  MkReader (incoming s) (ending s) b (msgChan s) (msgClosed s) (errChan s) (producing s).

(** [copy(dst, src)] with [len(dst) = n]: what is copied and what is left of [src]. *)
Definition copy_n (n : Z) (src : list byte) : list byte * list byte :=
  (take (Z.to_nat n) src, drop (Z.to_nat n) src).

(** The closure [handleMsg]; [acc] is [b[:nTotal]].  Result: [b] so far, [earlyReturn]
    and the error. *)
Definition handleMsg (s : Reader) (blen : Z) (acc : list byte) (rb : option (list byte))
    : Reader * outcome (list byte * bool * option error) :=
  match rb with
  | None =>
      if decide (len acc = 0) then
        match errChan s with
        | err :: es =>
            (MkReader (incoming s) (ending s) (lastRead s) (msgChan s) (msgClosed s) es (producing s),
             Ret (acc, true, Some err))
        | [] => (s, Block)
        end
      else (s, Ret (acc, true, None))
  | Some rb =>
      let '(new, rest) := copy_n (blen - len acc) rb in
      (set_lastRead s rest,
       Ret (acc ++ new, bool_decide (len (acc ++ new) = blen), None))
  end.

(** The [for]/[select] loop that drains the channel; [default] returns.  Each round
    takes one slice, so the number of slices that can still come bounds the rounds. *)
Fixpoint drain_chan (fuel : nat) (sched : list nat) (s : Reader) (blen : Z) (acc : list byte)
    : Reader * outcome (list byte * option error) :=
  match fuel with
  | O => (s, Ret (acc, None))
  | S f =>
      let '(s1, rb) := recv (startReads_run (hd O sched) s) in
      match rb with
      | ChanEmpty => (s1, Ret (acc, None))
      | _ =>
          match handleMsg s1 blen acc (match rb with Got b => Some b | _ => None end) with
          | (s2, Ret (acc', early, err)) =>
              if (early : bool) then (s2, Ret (acc', err))
              else drain_chan f (tl sched) s2 blen acc'
          | (s2, Panic) => (s2, Panic)
          | (s2, Block) => (s2, Block)
          end
      end
  end.

(** [Reader.Read(b)] with [len(b) = blen].  The first receive waits: if the channel is
    still empty after the scheduled rounds, the goroutine has to run. *)
Definition Read (sched : list nat) (s : Reader) (blen : Z)
    : Reader * outcome (list byte * option error) :=
  if decide (0 < len (lastRead s)) then
    let '(got, rest) := copy_n blen (lastRead s) in
    (set_lastRead s rest, Ret (got, None))
  else
    let s0 := startReads_run (hd O sched) s in
    let s0 := match recv s0 with
              | (_, ChanEmpty) => startReads_run 1 s0
              | _ => s0
              end in
    let '(s1, rb) := recv s0 in
    match rb with
    | ChanEmpty => (s1, Block)
    | _ =>
        match handleMsg s1 blen [] (match rb with Got b => Some b | _ => None end) with
        | (s2, Ret (acc, early, err)) =>
            if (early : bool) then (s2, Ret (acc, err))
            else drain_chan (S (length (msgChan s2) + length (incoming s2))) (tl sched) s2 blen acc
        | (s2, Panic) => (s2, Panic)
        | (s2, Block) => (s2, Block)
        end
    end.
End Reader.

Arguments Reader M : clear implicits.

(** ** What a reader still has to deliver *)

Section Content.
Context {M : Type} `{!MsgReader M}.
Implicit Types s : Reader M.

(** The bytes of a list of messages, up to the first one that ends the stream, and
    the error that ends it. *)
Fixpoint payloads (ms : list M) : list byte :=
  match ms with
  | [] => []
  | m :: ms => match GetBytes m with Ok b => b ++ payloads ms | Err _ => [] end
  end.

Fixpoint stream_end (ms : list M) (e : option error) : option error :=
  match ms with
  | [] => e
  | m :: ms => match GetBytes m with Ok _ => stream_end ms e | Err err => Some err end
  end.

Definition content s : list byte :=
  lastRead s ++ concat (msgChan s) ++ (if producing s then payloads (incoming s) else []).

(** The error the reader will report, [None] if it has none (left). *)
Definition term s : option error :=
  if producing s then stream_end (incoming s) (ending s) else head (errChan s).

(** The goroutine sends one error and closes the channel when it returns. *)
Record rwf s : Prop := {
  rwf_closed : msgClosed s = negb (producing s);
  rwf_err : producing s = true → errChan s = [];
  rwf_once : (length (errChan s) ≤ 1)%nat;
}.

Lemma rwf_NewReader (ms : list M) e :
  rwf (NewReader ms e) ∧ content (NewReader ms e) = payloads ms ∧
  term (NewReader ms e) = stream_end ms e.
Proof. repeat split; cbn; lia. Qed.

(** A step of the goroutine changes nothing of what will be read. *)
Definition same s s' : Prop :=
  content s' = content s ∧ term s' = term s ∧ lastRead s' = lastRead s ∧
  (length (msgChan s') + length (incoming s') ≤ length (msgChan s) + length (incoming s))%nat.

Lemma same_refl s : same s s.
Proof. by repeat split. Qed.

Lemma same_trans s1 s2 s3 : same s1 s2 → same s2 s3 → same s1 s3.
Proof. intros (?&?&?&?) (?&?&?&?). unfold same. repeat split; congruence || lia. Qed.

Lemma startReads_step_same s s' : rwf s → startReads_step s = Some s' → rwf s' ∧ same s s'.
Proof.
  intros [Hc He Ho]. unfold startReads_step, same, content, term.
  destruct (producing s) eqn:Hp; cbn [negb]; [|done]. specialize (He eq_refl).
  destruct (incoming s) as [|m ms]; cbn [payloads stream_end].
  - destruct (ending s); [|done]. intros [= <-]. rewrite He. cbn. by repeat split; cbn; try lia.
  - destruct (GetBytes m) as [b|err].
    + case_decide; [|done]. intros [= <-]. cbn.
      rewrite concat_app, length_app. cbn. rewrite app_nil_r, <- !app_assoc.
      repeat split; cbn; try done; lia.
    + intros [= <-]. rewrite He. cbn. repeat split; cbn; lia.
Qed.

Lemma startReads_run_same k s : rwf s → rwf (startReads_run k s) ∧ same s (startReads_run k s).
Proof.
  revert s. induction k as [|k IH]; intros s Hs; cbn; [split; [done|apply same_refl]|].
  destruct (startReads_step s) as [s'|] eqn:E; [|split; [done|apply same_refl]].
  apply startReads_step_same in E as [Hs' Hsame]; [|done].
  destruct (IH s' Hs') as [? ?]. split; [done|]. by eapply same_trans.
Qed.

(** If the goroutine cannot fill an empty channel, there is nothing to wait for. *)
Lemma startReads_stuck s :
  rwf s → msgChan s = [] → msgClosed s = false → startReads_step s = None →
  incoming s = [] ∧ ending s = None ∧ producing s = true.
Proof.
  intros [Hc He Ho] Hch Hcl. rewrite Hc in Hcl. apply negb_false_iff in Hcl.
  unfold startReads_step. rewrite Hcl, Hch. cbn [negb].
  destruct (incoming s) as [|m ms]; [by destruct (ending s)|].
  destruct (GetBytes m); [|done]. by rewrite decide_True.
Qed.

Lemma startReads_fills s s' :
  rwf s → msgChan s = [] → startReads_step s = Some s' → snd (recv s') ≠ ChanEmpty.
Proof.
  intros [Hc He Ho] Hch. unfold startReads_step, recv.
  destruct (producing s); cbn [negb]; [|done].
  destruct (incoming s) as [|m ms].
  - destruct (ending s); [|done]. intros [= <-]. cbn. by rewrite Hch.
  - destruct (GetBytes m); [case_decide; [|done]|]; intros [= <-]; cbn; by rewrite Hch.
Qed.

(** *** Receiving *)

Lemma recv_cases s s1 rb :
  rwf s → lastRead s = [] → recv s = (s1, rb) →
  rwf s1 ∧ term s1 = term s ∧ lastRead s1 = [] ∧
  match rb with
  | Got b => content s = b ++ content s1 ∧
      (length (msgChan s1) + length (incoming s1) < length (msgChan s) + length (incoming s))%nat
  | ChanClosed => s1 = s ∧ content s = [] ∧ producing s = false
  | ChanEmpty => s1 = s ∧ msgChan s = [] ∧ msgClosed s = false
  end.
Proof.
  intros Hs Hl. pose proof Hs as [Hc He Ho]. unfold recv.
  destruct (msgChan s) as [|b q] eqn:Hq; intros [= <- <-].
  - assert (msgClosed s = true → producing s = false) as Hp
      by (rewrite Hc; apply negb_true_iff).
    split; [done|]. split; [done|]. split; [done|].
    destruct (msgClosed s); [|done]. split; [done|]. specialize (Hp eq_refl). split; [|done].
    unfold content. by rewrite Hl, Hq, Hp.
  - unfold content. cbn. rewrite Hl, Hq. cbn. rewrite <- app_assoc.
    repeat split; try done; cbn; lia.
Qed.

(** *** Reading *)

(** What a read of at most [blen] bytes that has already stored [acc] promises: the
    bytes it adds are the next ones; an error comes alone, when nothing is left; it
    waits only when nothing is left and no error will come. *)
Definition read_post s (blen : Z) (acc : list byte) s' (o : outcome (list byte * option error)) : Prop :=
  rwf s' ∧
  match o with
  | Ret (out, err) =>
      ∃ bs, out = acc ++ bs ∧ content s = bs ++ content s' ∧ len out ≤ blen ∧
        match err with
        | None => term s' = term s
        | Some e => out = [] ∧ content s = [] ∧ term s = Some e ∧
                    producing s' = false ∧ errChan s' = [] ∧ msgChan s' = [] ∧ lastRead s' = []
        end
  | Block => acc = [] ∧ content s = [] ∧ term s = None
  | Panic => False
  end.

Lemma read_post_same s0 s blen acc s' o :
  same s0 s → read_post s blen acc s' o → read_post s0 blen acc s' o.
Proof.
  intros (Hc & Ht & _) [Hw H]. split; [done|].
  destruct o as [[out [e|]]| |]; [| |done|]; rewrite <- Hc, <- Ht; done.
Qed.

Lemma read_post_prepend s0 s b blen acc s' o :
  content s0 = b ++ content s → term s0 = term s →
  read_post s blen (acc ++ b) s' o → read_post s0 blen acc s' o.
Proof.
  intros Hc Ht [Hw H]. split; [done|]. destruct o as [[out err]| |]; [|done|].
  - destruct H as (bs & -> & Hcs & Hlen & Herr). exists (b ++ bs).
    split; [by rewrite <- app_assoc|]. split; [by rewrite Hc, Hcs, app_assoc|].
    split; [done|]. rewrite Ht. destruct err as [e|]; [|done].
    destruct Herr as (Hnil & Hcn & Hrest).
    split; [done|]. split; [|done]. rewrite Hc, Hcn, app_nil_r.
    by apply app_eq_nil in Hnil as [[_ ?]%app_eq_nil _].
  - destruct H as ([-> ->]%app_eq_nil & Hcn & Htn). by rewrite Hc, Hcn, Ht.
Qed.

Lemma content_set_lastRead s rest :
  lastRead s = [] → content (set_lastRead s rest) = rest ++ content s.
Proof. intros H. unfold content. cbn. by rewrite H. Qed.

Lemma rwf_set_lastRead s rest : rwf s → rwf (set_lastRead s rest).
Proof. intros []. by split. Qed.

(** [handleMsg] on a slice: either the buffer is full, or all of the slice went in. *)
Lemma handleMsg_some s blen acc b :
  lastRead s = [] → len acc ≤ blen →
  ∃ new rest, handleMsg s blen acc (Some b)
    = (set_lastRead s rest, Ret (acc ++ new, bool_decide (len (acc ++ new) = blen), None)) ∧
    b = new ++ rest ∧ len (acc ++ new) ≤ blen ∧
    (len (acc ++ new) ≠ blen → rest = [] ∧ new = b).
Proof.
  intros Hl Ha. cbn [handleMsg]. unfold copy_n. eexists _, _. split; [done|].
  rewrite take_drop. rewrite len_app. unfold len in *. rewrite length_take.
  split; [done|]. split; [lia|]. intros Hne.
  assert ((length b ≤ Z.to_nat (blen - Z.of_nat (length acc)))%nat) by lia.
  split; [by apply drop_ge | by apply firstn_all2].
Qed.

(** [handleMsg] on the closed channel. *)
Lemma handleMsg_none s blen acc :
  rwf s → content s = [] → lastRead s = [] → msgChan s = [] → producing s = false → 0 ≤ blen →
  len acc ≤ blen →
  match handleMsg s blen acc None with
  | (s', Ret (out, early, err)) => early = true ∧ read_post s blen acc s' (Ret (out, err))
  | (s', o) => read_post s blen acc s' Block ∧ o = Block
  end.
Proof.
  intros Hs Hc Hl Hm Hp Hb Ha. cbn [handleMsg]. case_decide as H0.
  - apply len_zero_nil in H0. subst acc.
    destruct (errChan s) as [|e es] eqn:Ee.
    + split; [|done]. split; [done|]. unfold term. by rewrite Hp, Ee.
    + split; [done|]. destruct Hs as [H1 H2 H3]. rewrite Ee in H3. cbn in H3.
      assert (es = []) as -> by (destruct es; [done|cbn in H3; lia]). split.
      * split; cbn; done || lia.
      * exists []. unfold content, term in *. cbn. rewrite Hl, Hm, Hp, Ee. by repeat split.
  - split; [done|]. split; [done|]. exists []. by rewrite app_nil_r.
Qed.

Lemma recv_closed s s1 : recv s = (s1, ChanClosed) → s1 = s ∧ msgChan s = [].
Proof. unfold recv. destruct (msgChan s); [|done]. destruct (msgClosed s); by intros [= <-]. Qed.

Lemma read_post_stop s0 s blen acc : rwf s → same s0 s → len acc ≤ blen →
  read_post s0 blen acc s (Ret (acc, None)).
Proof.
  intros Hs (Hc & Ht & _) Ha. split; [done|]. exists []. rewrite app_nil_r, Hc. by repeat split.
Qed.

Lemma drain_chan_post fuel sched s blen acc s' o :
  rwf s → lastRead s = [] → 0 ≤ blen → len acc ≤ blen →
  drain_chan fuel sched s blen acc = (s', o) → read_post s blen acc s' o.
Proof.
  revert sched s acc. induction fuel as [|f IH]; intros sched s acc Hs Hl Hb Ha; cbn [drain_chan].
  { intros [= <- <-]. apply read_post_stop; [done|apply same_refl|done]. }
  destruct (startReads_run_same (hd O sched) s Hs) as [Hs0 Hsame].
  set (s0 := startReads_run (hd O sched) s) in *.
  assert (lastRead s0 = []) as Hl0 by (destruct Hsame as (_&_&->&_); done).
  destruct (recv s0) as [s1 rb] eqn:Er.
  pose proof (recv_cases s0 s1 rb Hs0 Hl0 Er) as (Hs1 & Ht1 & Hl1 & Hrb).
  destruct rb as [b| |].
  - destruct Hrb as [Hc1 _].
    destruct (handleMsg_some s1 blen acc b Hl1 Ha) as (new & rest & -> & Hbb & Hle & Hfull).
    case_bool_decide as Hfl.
    + intros [= <- <-]. eapply read_post_same; [done|]. split; [by apply rwf_set_lastRead|].
      exists new. rewrite content_set_lastRead by done. rewrite Hc1, Hbb, <- app_assoc. by repeat split.
    + destruct (Hfull Hfl) as [-> ->]. intros HD.
      apply IH in HD; [|by apply rwf_set_lastRead|done|done|done].
      eapply read_post_same; [done|].
      eapply read_post_prepend, HD; [|done]. by rewrite content_set_lastRead.
  - destruct Hrb as (-> & Hc1 & Hp). apply recv_closed in Er as [_ Hm].
    pose proof (handleMsg_none s0 blen acc Hs0 Hc1 Hl0 Hm Hp Hb Ha) as HN.
    destruct (handleMsg s0 blen acc None) as [s2 [[[out early] err]| |]].
    + destruct HN as [-> HN]. intros [= <- <-]. by eapply read_post_same.
    + by destruct HN.
    + destruct HN as [HN _]. intros [= <- <-]. by eapply read_post_same.
  - destruct Hrb as (-> & _). intros [= <- <-]. by apply read_post_stop.
Qed.

(** Before the first receive the goroutine runs, and again if the channel is empty. *)
Definition first_wait (k : nat) s : Reader M :=
  let s0 := startReads_run k s in
  match recv s0 with (_, ChanEmpty) => startReads_run 1 s0 | _ => s0 end.

Lemma first_wait_same k s : rwf s → rwf (first_wait k s) ∧ same s (first_wait k s).
Proof.
  intros Hs. unfold first_wait.
  destruct (startReads_run_same k s Hs) as [Hs0 Hsame].
  destruct (recv (startReads_run k s)) as [? [b| |]]; [done..|].
  destruct (startReads_run_same 1 _ Hs0) as [? ?]. split; [done|]. by eapply same_trans.
Qed.

Lemma first_wait_empty k s s1 :
  rwf s → lastRead s = [] → recv (first_wait k s) = (s1, ChanEmpty) →
  content s = [] ∧ term s = None.
Proof.
  intros Hs Hl Hr. destruct (first_wait_same k s Hs) as [Hw Hsame]. unfold first_wait in *.
  destruct (startReads_run_same k s Hs) as [Hs0 Hsame0].
  assert (lastRead (startReads_run k s) = []) as Hl0 by (destruct Hsame0 as (_&_&->&_); done).
  set (s0 := startReads_run k s) in *.
  destruct (recv s0) as [s2 [b| |]] eqn:E; [by rewrite E in Hr..|].
  apply recv_cases in E as (_ & _ & _ & -> & Hm & Hcl); [|done|done].
  cbn [startReads_run] in *. destruct (startReads_step s0) as [s3|] eqn:Es.
  - pose proof (startReads_fills s0 s3 Hs0 Hm Es) as H. by rewrite Hr in H.
  - destruct (startReads_stuck s0 Hs0 Hm Hcl Es) as (Hi & He & Hp).
    destruct Hsame0 as (<- & <- & _). unfold content, term. by rewrite Hl0, Hm, Hp, Hi.
Qed.

Lemma Read_post sched s blen s' o :
  rwf s → 0 ≤ blen → Read sched s blen = (s', o) → read_post s blen [] s' o.
Proof.
  intros Hs Hb. unfold Read. case_decide as Hlr.
  { unfold copy_n. intros [= <- <-]. split; [by apply rwf_set_lastRead|].
    exists (take (Z.to_nat blen) (lastRead s)). split; [done|]. split.
    { unfold content. cbn [lastRead set_lastRead msgChan producing incoming].
      by rewrite (app_assoc (take _ _)), take_drop. }
    split; [|done]. unfold len. rewrite length_take. lia. }
  assert (lastRead s = []) as Hl by (apply len_zero_nil; pose proof (len_nonneg (lastRead s)); lia).
  fold (first_wait (hd O sched) s).
  destruct (first_wait_same (hd O sched) s Hs) as [Hs0 Hsame].
  pose proof (first_wait_empty (hd O sched) s) as Hempty.
  set (s0 := first_wait (hd O sched) s) in *.
  assert (lastRead s0 = []) as Hl0 by (destruct Hsame as (_&_&->&_); done).
  destruct (recv s0) as [s1 rb] eqn:Er.
  pose proof (recv_cases s0 s1 rb Hs0 Hl0 Er) as (Hs1 & Ht1 & Hl1 & Hrb).
  destruct rb as [b| |].
  - destruct Hrb as [Hc1 _].
    destruct (handleMsg_some s1 blen [] b Hl1 ltac:(done)) as (new & rest & -> & Hbb & Hle & Hfull).
    rewrite app_nil_l in *. case_bool_decide as Hfl.
    + intros [= <- <-]. eapply read_post_same; [done|]. split; [by apply rwf_set_lastRead|].
      exists new. rewrite content_set_lastRead by done. rewrite Hc1, Hbb, <- app_assoc. by repeat split.
    + destruct (Hfull Hfl) as [-> ->]. intros HD.
      apply drain_chan_post in HD; [|by apply rwf_set_lastRead|done|done|done].
      eapply read_post_same; [done|].
      eapply (read_post_prepend s0 _ b blen []), HD; [|done]. by rewrite content_set_lastRead.
  - destruct Hrb as (-> & Hc1 & Hp). apply recv_closed in Er as [_ Hm].
    pose proof (handleMsg_none s0 blen [] Hs0 Hc1 Hl0 Hm Hp Hb ltac:(done)) as HN.
    destruct (handleMsg s0 blen [] None) as [s2 [[[out early] err]| |]].
    + destruct HN as [-> HN]. intros [= <- <-]. by eapply read_post_same.
    + by destruct HN.
    + destruct HN as [HN _]. intros [= <- <-]. by eapply read_post_same.
  - intros [= <- <-]. destruct (Hempty s1 Hs Hl eq_refl) as [? ?]. by split.
Qed.

(** *** Progress *)

Definition msgs_left s : nat := length (msgChan s) + length (incoming s).

Lemma msgs_left_recv s s1 b : recv s = (s1, Got b) → (msgs_left s1 < msgs_left s)%nat.
Proof.
  unfold recv, msgs_left. destruct (msgChan s); [by destruct (msgClosed s)|].
  intros [= <- _]. cbn. lia.
Qed.

Lemma recv_rwf s s1 rb : rwf s → recv s = (s1, rb) → rwf s1 ∧ (msgs_left s1 ≤ msgs_left s)%nat.
Proof.
  intros [] Er. unfold recv, msgs_left in *.
  destruct (msgChan s) eqn:Em; injection Er as <- <-; rewrite ?Em; (split; [by split|cbn; lia]).
Qed.

Lemma handleMsg_rwf s blen acc rb s' out err :
  rwf s → handleMsg s blen acc rb = (s', Ret (out, false, err)) → rwf s'.
Proof.
  intros Hs. unfold handleMsg, copy_n. destruct rb as [b|].
  - intros [= <- _ _ _]. by apply rwf_set_lastRead.
  - case_decide; [destruct (errChan s)|]; intros ?; by simplify_eq/=.
Qed.

Lemma msgs_left_handleMsg s blen acc rb s' o :
  handleMsg s blen acc rb = (s', o) → msgs_left s' = msgs_left s.
Proof.
  unfold handleMsg, copy_n, msgs_left. intros H.
  destruct rb; [by simplify_eq/=|]. case_decide; [destruct (errChan s)|]; by simplify_eq/=.
Qed.

Lemma drain_chan_left fuel sched s blen acc s' o :
  rwf s → drain_chan fuel sched s blen acc = (s', o) → (msgs_left s' ≤ msgs_left s)%nat.
Proof.
  revert sched s acc. induction fuel as [|f IH]; intros sched s acc Hs; cbn [drain_chan].
  { by intros [= <- _]. }
  destruct (startReads_run_same (hd O sched) s Hs) as [Hs0 (_ & _ & _ & Hle)].
  set (s0 := startReads_run (hd O sched) s) in *. fold (msgs_left s0) (msgs_left s) in Hle.
  destruct (recv s0) as [s1 rb] eqn:Er.
  destruct (recv_rwf s0 s1 rb Hs0 Er) as [Hs1 Hle1].
  assert (∀ rb', match handleMsg s1 blen acc rb' with
          | (s2, Ret (acc', early, err)) =>
              if (early : bool) then (s2, Ret (acc', err))
              else drain_chan f (tl sched) s2 blen acc'
          | (s2, Panic) => (s2, Panic)
          | (s2, Block) => (s2, Block)
          end = (s', o) → (msgs_left s' ≤ msgs_left s)%nat) as Hgo.
  { intros rb'. destruct (handleMsg s1 blen acc rb') as [s2 [[[out early] err]| |]] eqn:EH;
      pose proof (msgs_left_handleMsg _ _ _ _ _ _ EH).
    2,3: intros [= <- _]; lia.
    destruct early; [intros [= <- _]; lia|]. intros HD. apply IH in HD; [lia|]. by eapply handleMsg_rwf. }
  destruct rb; [apply Hgo|apply Hgo|]. intros [= <- _]. lia.
Qed.

(** A read of at least one byte delivers a byte or uses up a message. *)
Lemma Read_progress sched s blen s' bs :
  rwf s → 0 < blen → Read sched s blen = (s', Ret (bs, None)) →
  (length (content s') + msgs_left s' < length (content s) + msgs_left s)%nat.
Proof.
  intros Hs Hb HR. pose proof (Read_post sched s blen _ _ Hs ltac:(lia) HR) as [_ (bs' & Heq & Hc & _)].
  rewrite app_nil_l in Heq. subst bs'. rewrite Hc, length_app. revert HR. unfold Read.
  case_decide as Hlr.
  { unfold copy_n. intros [= <- <-]. unfold msgs_left. cbn. rewrite length_take. unfold len in Hlr. lia. }
  fold (first_wait (hd O sched) s).
  destruct (first_wait_same (hd O sched) s Hs) as [Hs0 (_ & _ & _ & Hle)].
  set (s0 := first_wait (hd O sched) s) in *. fold (msgs_left s0) (msgs_left s) in Hle.
  destruct (recv s0) as [s1 rb] eqn:Er.
  destruct rb as [b| |].
  - pose proof (msgs_left_recv _ _ _ Er).
    destruct (handleMsg s1 blen [] (Some b)) as [s2 [[[out early] err]| |]] eqn:EH;
      pose proof (msgs_left_handleMsg _ _ _ _ _ _ EH); [|done..].
    destruct early; [intros [= <- _ _]; lia|]. intros HD. apply drain_chan_left in HD; [lia|].
    eapply handleMsg_rwf, EH. by eapply recv_rwf.
  - cbn [handleMsg]. rewrite decide_True by done. by destruct (errChan s1).
  - done.
Qed.

(** The rounds of the draining loop are bounded by the messages left: more fuel
    changes nothing. *)
Lemma drain_chan_fuel f g sched s blen acc :
  rwf s → (msgs_left s < f)%nat → (f ≤ g)%nat →
  drain_chan f sched s blen acc = drain_chan g sched s blen acc.
Proof.
  revert g sched s acc. induction f as [|f IH]; intros [|g] sched s acc Hs Hf Hg; [lia..|].
  cbn [drain_chan].
  destruct (startReads_run_same (hd O sched) s Hs) as [Hs0 (_ & _ & _ & Hle)].
  set (s0 := startReads_run (hd O sched) s) in *. fold (msgs_left s0) (msgs_left s) in Hle.
  destruct (recv s0) as [s1 [b| |]] eqn:Er; [| |done].
  - pose proof (msgs_left_recv _ _ _ Er).
    destruct (handleMsg s1 blen acc (Some b)) as [s2 [[[out early] err]| |]] eqn:EH; [|done..].
    destruct early; [done|]. pose proof (msgs_left_handleMsg _ _ _ _ _ _ EH).
    apply IH; [|lia|lia]. eapply handleMsg_rwf, EH. by eapply recv_rwf.
  - cbn [handleMsg]. case_decide; [by destruct (errChan s1)|done].
Qed.

(** A reader whose goroutine has returned and whose error was taken. *)
Lemma reader_finished_blocks sched s blen :
  rwf s → producing s = false → errChan s = [] → msgChan s = [] → lastRead s = [] →
  snd (Read sched s blen) = Block.
Proof.
  intros Hs Hp He Hm Hl. unfold Read. rewrite Hl. rewrite decide_False by llia.
  assert (∀ k, startReads_run k s = s) as Hrun.
  { intros [|k]; [done|]. cbn. unfold startReads_step. by rewrite Hp. }
  rewrite Hrun. unfold recv. rewrite Hm, (rwf_closed s Hs), Hp. cbn [negb].
  rewrite Hm, (rwf_closed s Hs), Hp. cbn [negb handleMsg]. rewrite decide_True by done.
  by rewrite He.
Qed.

(** ** Sequences of reads *)

(** Read with the given schedules and buffer sizes until an error or a wait: the
    reader, everything read, and how it ended ([Ret None]: no read failed). *)
Fixpoint run_reads s (rs : list (list nat * Z)) : Reader M * list byte * outcome (option error) :=
  match rs with
  | [] => (s, [], Ret None)
  | (sched, n) :: rs =>
      match Read sched s n with
      | (s', Ret (bs, Some e)) => (s', bs, Ret (Some e))
      | (s', Ret (bs, None)) =>
          let '(s'', rest, o) := run_reads s' rs in (s'', bs ++ rest, o)
      | (s', Panic) => (s', [], Panic)
      | (s', Block) => (s', [], Block)
      end
  end.

Lemma run_reads_spec s rs s' bs o :
  rwf s → Forall (λ r, 0 < r.2) rs → run_reads s rs = (s', bs, o) →
  rwf s' ∧
  match o with
  | Ret None => content s = bs ++ content s' ∧
                (length rs ≤ length (content s) + msgs_left s)%nat
  | Ret (Some e) => content s = bs ∧ term s = Some e
  | Block => content s = bs ∧ term s = None
  | Panic => False
  end.
Proof.
  revert s bs. induction rs as [|[sched n] rs IH]; intros s bs Hs HF; cbn [run_reads].
  { intros [= <- <- <-]. cbn. split; [done|]. split; [done|lia]. }
  apply Forall_cons_1 in HF as [Hn HF]. cbn in Hn.
  destruct (Read sched s n) as [s1 o1] eqn:ER.
  pose proof (Read_post sched s n _ _ Hs ltac:(lia) ER) as [Hs1 HP].
  destruct o1 as [[b1 [e|]]| |].
  - intros [= <- <- <-]. destruct HP as (x & -> & Hc & _ & Hnil & Hcn & Ht & _).
    cbn in Hnil. subst x. done.
  - destruct HP as (x & Hx & Hc & _ & Ht). cbn in Hx. subst x.
    pose proof (Read_progress sched s n s1 b1 Hs Hn ER) as Hlt.
    destruct (run_reads s1 rs) as [[s2 rest] o2] eqn:ER2. intros [= <- <- <-].
    apply IH in ER2 as (Hs2 & Ho); [|done|done]. split; [done|].
    destruct o2 as [[e|]| |]; [| |done|].
    + destruct Ho as [Hc2 Ht2]. by rewrite Hc, Hc2, <- Ht.
    + destruct Ho as [Hc2 Hle]. split; [by rewrite Hc, Hc2, app_assoc|]. cbn. lia.
    + destruct Ho as [Hc2 Ht2]. by rewrite Hc, Hc2, <- Ht.
  - done.
  - intros [= <- <- <-]. by destruct HP as (_ & Hcn & Ht).
Qed.
End Content.

(** ** Writer and ReadWriteCloser *)

Definition errClosedRead : error := ErrorString "closed for reading".
Definition errClosedWrite : error := ErrorString "closed for writing".

Section ReadWriteCloser.
Context {M : Type} `{!MsgBuilder M, !MsgReader M, !MsgWriter M, !MsgCloser M}.

(** The sending half of the [Stream]: what was sent, and after how many more messages
    it fails ([None]: never). *)
Record Outs := MkOuts { sent : list M; sendFail : option (nat * error) }.

(** [Stream.SendMsg(m)] *)
Definition SendMsg (o : Outs) (m : M) : Outs * option error :=
  match sendFail o with
  | None => (MkOuts (sent o ++ [m]) None, None)
  | Some (O, e) => (o, Some e)
  | Some (S k, e) => (MkOuts (sent o ++ [m]) (Some (k, e)), None)
  end.

(** [Writer.Write(b)] *)
Definition Writer_Write (o : Outs) (b : list byte) : Outs * (Z * option error) :=
  let msg := SetBytes BuildMsg b in
  match SendMsg o msg with
  | (o', Some err) => (o', (0, Some err))
  | (o', None) => (o', (len b, None))
  end.

(** [io.Copy(w, r)] into a [Writer]: [bs] are the slices read from [r], up to its EOF. *)
Fixpoint Writer_copy (o : Outs) (bs : list (list byte)) : Outs * option error :=
  match bs with
  | [] => (o, None)
  | b :: bs' =>
      match Writer_Write o b with
      | (o', (_, Some err)) => (o', Some err)
      | (o', (_, None)) => Writer_copy o' bs'
      end
  end.

Lemma Writer_copy_sent o bs :
  sendFail o = None → Writer_copy o bs = (MkOuts (sent o ++ map (SetBytes BuildMsg) bs) None, None).
Proof.
  revert o. induction bs as [|b bs IH]; intros [ms f] Hf; cbn in *; subst f; [by rewrite app_nil_r|].
  unfold Writer_Write, SendMsg. cbn. rewrite IH by done. cbn. by rewrite <- app_assoc.
Qed.

Record ReadWriteCloser := MkRWC { r : Reader M; w : Outs; cr : bool; cw : bool }.

(** [NewReadWriteCloser(stream, sm)] *)
Definition NewReadWriteCloser (ms : list M) (e : option error) (o : Outs) : ReadWriteCloser :=
  MkRWC (NewReader ms e) o false false.

(** [ReadWriteCloser.Read(b)] *)
Definition RWC_Read (sched : list nat) (s : ReadWriteCloser) (blen : Z)
    : ReadWriteCloser * outcome (list byte * option error) :=
  if cr s then (s, Ret ([], Some errClosedRead)) else
  let '(r', o) := Read sched (r s) blen in (MkRWC r' (w s) (cr s) (cw s), o).

(** [ReadWriteCloser.Write(b)] *)
Definition RWC_Write (s : ReadWriteCloser) (b : list byte) : ReadWriteCloser * (Z * option error) :=
  if cw s then (s, (0, Some errClosedWrite)) else
  let '(w', o) := Writer_Write (w s) b in (MkRWC (r s) w' (cr s) (cw s), o).

(** [ReadWriteCloser.CloseRead()] and [CloseWrite()] *)
Definition RWC_CloseRead (s : ReadWriteCloser) : ReadWriteCloser * option error :=
  (MkRWC (r s) (w s) true (cw s), None).

Definition RWC_CloseWrite (s : ReadWriteCloser) : ReadWriteCloser * option error :=
  let '(w', err) := SendMsg (w s) CloseMsg in (MkRWC (r s) w' (cr s) true, err).

(** [ReadWriteCloser.Close()] *)
Definition RWC_Close (s : ReadWriteCloser) : ReadWriteCloser * option error :=
  let s := MkRWC (r s) (w s) true true in
  let '(s, _) := RWC_CloseRead s in
  RWC_CloseWrite s.

(** Reads of a [ReadWriteCloser] until an error or a wait, like [run_reads]. *)
Fixpoint RWC_reads (s : ReadWriteCloser) (rs : list (list nat * Z))
    : ReadWriteCloser * list byte * outcome (option error) :=
  match rs with
  | [] => (s, [], Ret None)
  | (sched, n) :: rs =>
      match RWC_Read sched s n with
      | (s', Ret (bs, Some e)) => (s', bs, Ret (Some e))
      | (s', Ret (bs, None)) =>
          let '(s'', rest, o) := RWC_reads s' rs in (s'', bs ++ rest, o)
      | (s', Panic) => (s', [], Panic)
      | (s', Block) => (s', [], Block)
      end
  end.

(** While it is not closed for reading, its reads are those of its [Reader]. *)
Lemma RWC_reads_open s rs :
  cr s = false →
  RWC_reads s rs =
  let '(r', bs, o) := run_reads (r s) rs in (MkRWC r' (w s) false (cw s), bs, o).
Proof.
  revert s. induction rs as [|[sched n] rs IH]; intros [rd wr c1 c2] Hc; cbn in Hc; subst c1; [done|].
  cbn [RWC_reads run_reads RWC_Read r cr w cw].
  destruct (Read sched rd n) as [r1 [[bs [e|]]| |]]; [done| |done|done].
  rewrite IH by done. cbn [r w cw]. by destruct (run_reads r1 rs) as [[r2 rest] o].
Qed.

Definition RWC_write_all (s : ReadWriteCloser) (bs : list (list byte)) : ReadWriteCloser :=
  foldl (λ s b, fst (RWC_Write s b)) s bs.

(** Writing does not touch the reading half. *)
Lemma RWC_write_all_reading s bs : r (RWC_write_all s bs) = r s ∧ cr (RWC_write_all s bs) = cr s.
Proof.
  revert s. induction bs as [|b bs IH]; intros s; [done|].
  cbn [RWC_write_all foldl]. change (foldl _ ?x bs) with (RWC_write_all x bs).
  destruct (IH (fst (RWC_Write s b))) as [-> ->].
  unfold RWC_Write. destruct (cw s); [done|]. by destruct (Writer_Write _ _).
Qed.

Lemma RWC_write_all_sent s bs :
  cw s = false → sendFail (w s) = None →
  w (RWC_write_all s bs) = MkOuts (sent (w s) ++ map (SetBytes BuildMsg) bs) None ∧
  cw (RWC_write_all s bs) = false.
Proof.
  revert s. induction bs as [|b bs IH]; intros s Hc Hf; cbn [RWC_write_all foldl].
  { cbn. rewrite app_nil_r. destruct s as [? [? ?] ? ?]. cbn in *. by subst. }
  change (foldl _ ?x bs) with (RWC_write_all x bs).
  unfold RWC_Write, Writer_Write, SendMsg. rewrite Hc, Hf. cbn [fst].
  destruct (IH (MkRWC (r s) (MkOuts (sent (w s) ++ [SetBytes BuildMsg b]) None) (cr s) false)) as [-> ->];
    [done|done|]. cbn. by rewrite <- app_assoc.
Qed.
End ReadWriteCloser.

Arguments Outs M : clear implicits.
Arguments ReadWriteCloser M : clear implicits.

(** ** Properties *)

Section Properties.
Context {M : Type} `{!MsgBuilder M, !MsgReader M, !MsgWriter M, !MsgCloser M}.

(** A reader delivers the message stream as a byte stream, in any interleaving
    with the goroutine that receives the messages: the reads return the payloads in
    order, no byte lost, repeated or reordered, whatever the buffer sizes; the stream's
    error is returned only after the last byte; a read waits for ever only when
    everything was read and no error ends the stream; nothing panics. *)
Theorem reader_delivers_in_order (ms : list M) (e : option error)
    (rs : list (list nat * Z)) (s' : Reader M) (bs : list byte) (o : outcome (option error)) :
  Forall (λ r, 0 < r.2) rs → run_reads (NewReader ms e) rs = (s', bs, o) →
  match o with
  | Ret None => bs `prefix_of` payloads ms
  | Ret (Some err) => bs = payloads ms ∧ stream_end ms e = Some err
  | Block => bs = payloads ms ∧ stream_end ms e = None
  | Panic => False
  end.
Proof.
  intros HF HR. destruct (rwf_NewReader ms e) as (Hw & Hc & Ht).
  apply run_reads_spec in HR as [_ HR]; [|done|done]. rewrite Hc, Ht in HR.
  destruct o as [[err|]| |]; [| |done|]; destruct HR as [HR ?]; [done| |done].
  rewrite HR. by eexists.
Qed.

(** Enough reads of a stream that ends give all its bytes, then its error. *)
Lemma reads_all (ms : list M) (e : option error) (err : error) (rs : list (list nat * Z)) :
  Forall (λ r, 0 < r.2) rs → stream_end ms e = Some err →
  (length (payloads ms) + length ms < length rs)%nat →
  ∃ s', run_reads (NewReader ms e) rs = (s', payloads ms, Ret (Some err)).
Proof.
  intros HF He Hlen. destruct (rwf_NewReader ms e) as (Hw & Hc & Ht).
  destruct (run_reads (NewReader ms e) rs) as [[s' bs] o] eqn:HR.
  apply run_reads_spec in HR as [_ HR]; [|done|done]. rewrite Hc, Ht, He in HR.
  exists s'. destruct o as [[err'|]| |]; [| |done|].
  - by destruct HR as [-> [= ->]].
  - destruct HR as [_ HR]. unfold msgs_left in HR. cbn in HR. lia.
  - by destruct HR.
Qed.

(** A stream that ends is read to its end: after more reads than it has bytes and
    messages, whatever the schedules and the buffer sizes, everything has been
    delivered and the error that ends it has been returned. *)
Theorem reader_delivers_all (ms : list M) (e : option error) (err : error)
    (rs : list (list nat * Z)) :
  Forall (λ r, 0 < r.2) rs → stream_end ms e = Some err →
  (length (payloads ms) + length ms < length rs)%nat →
  ∃ s', run_reads (NewReader ms e) rs = (s', payloads ms, Ret (Some err)).
Proof. apply reads_all. Qed.

(** Once a reader has returned its error, it never returns again: the error was
    taken off [errChan], which is neither refilled nor closed, so every later [Read]
    waits for ever. *)
Theorem reader_hangs_after_error (ms : list M) (e : option error) (rs : list (list nat * Z))
    (s' : Reader M) (bs : list byte) (err : error) (sched : list nat) (n : Z) :
  Forall (λ r, 0 < r.2) rs →
  run_reads (NewReader ms e) rs = (s', bs, Ret (Some err)) →
  snd (Read sched s' n) = Block.
Proof.
  intros HF. assert (rwf (NewReader ms e)) as Hw by apply rwf_NewReader.
  revert Hw. generalize (NewReader ms e). revert bs.
  induction rs as [|[sc k] rs IH]; intros bs s Hs; cbn [run_reads]; [done|].
  apply Forall_cons_1 in HF as [Hk HF]. cbn in Hk.
  destruct (Read sc s k) as [s1 o1] eqn:ER.
  pose proof (Read_post sc s k _ _ Hs ltac:(lia) ER) as [Hs1 HP].
  destruct o1 as [[b1 [e1|]]| |]; [|..|done|done].
  - intros [= -> -> ->]. destruct HP as (x & _ & _ & _ & _ & _ & _ & Hp & He & Hm & Hl).
    apply reader_finished_blocks; done.
  - destruct (run_reads s1 rs) as [[s2 rest] o2] eqn:ER2. intros [= -> _ ->]. by eapply IH.
Qed.

(** The loop of [Read] that drains the channel ends: it makes no more rounds than
    there are messages left, so any larger bound than the one used computes the same
    result. *)
Theorem reader_drain_terminates (fuel : nat) (sched : list nat) (s : Reader M) (blen : Z)
    (acc : list byte) :
  rwf s → (length (msgChan s) + length (incoming s) < fuel)%nat →
  drain_chan fuel sched s blen acc
  = drain_chan (S (length (msgChan s) + length (incoming s))) sched s blen acc.
Proof. intros Hs Hf. symmetry. apply drain_chan_fuel; [done|unfold msgs_left; lia|lia]. Qed.

(** What a writer copied is read back by a reader whose stream ends with EOF, for every message
    type whose payload can be read back. *)
Lemma writer_carries (bs : list (list byte)) (rs : list (list nat * Z)) :
  (∀ b, GetBytes (SetBytes BuildMsg b) = Ok b) → Forall (λ r, 0 < r.2) rs →
  (length (concat bs) + length bs < length rs)%nat →
  ∃ s', run_reads (NewReader (map (SetBytes BuildMsg) bs) (Some EOF)) rs = (s', concat bs, Ret (Some EOF)).
Proof.
  intros Hg HF Hlen.
  assert (payloads (map (SetBytes BuildMsg) bs) = concat bs ∧ stream_end (map (SetBytes BuildMsg) bs) (Some EOF) = Some EOF)
    as [Hp He].
  { clear Hlen. induction bs as [|b bs [IH1 IH2]]; [done|]. cbn. rewrite Hg. by rewrite IH1. }
  rewrite <- Hp. apply reads_all; [done..|]. rewrite Hp, length_map. lia.
Qed.

Lemma payloads_writes (carries : list byte → Prop) `{!MsgLaws M carries} bs :
  Forall carries bs →
  payloads (map (SetBytes BuildMsg) bs ++ [CloseMsg]) = concat bs ∧
  ∀ e, stream_end (map (SetBytes BuildMsg) bs ++ [CloseMsg]) e = Some EOF.
Proof.
  induction 1 as [|b bs Hb _ [IH1 IH2]]; cbn.
  - by rewrite get_close.
  - rewrite get_set by done. by rewrite IH1.
Qed.

(** The messages of an end that wrote [bs] and closed its writing half. *)
Lemma rwc_sent (bs : list (list byte)) (ms : list M) (e : option error) :
  sent (w (fst (RWC_CloseWrite (RWC_write_all (NewReadWriteCloser ms e (MkOuts [] None)) bs)))) =
  map (SetBytes BuildMsg) bs ++ [CloseMsg].
Proof.
  unfold RWC_CloseWrite.
  by destruct (RWC_write_all_sent (NewReadWriteCloser ms e (MkOuts [] None)) bs) as [-> _].
Qed.

Lemma RWC_CloseWrite_reading (s : ReadWriteCloser M) :
  r (fst (RWC_CloseWrite s)) = r s ∧ cr (fst (RWC_CloseWrite s)) = cr s.
Proof. unfold RWC_CloseWrite. by destruct (SendMsg _ _). Qed.

(** What one end writes and closes is read by the other, until it closes its reading half. *)
Lemma rwc_reads (carries : list byte → Prop) `{!MsgLaws M carries}
    (bs : list (list byte)) (rs : list (list nat * Z)) (ms : list M) (e e' : option error)
    (t : ReadWriteCloser M) :
  Forall carries bs → Forall (λ r, 0 < r.2) rs →
  (length (concat bs) + length bs + 1 < length rs)%nat →
  let s := fst (RWC_CloseWrite (RWC_write_all (NewReadWriteCloser ms e (MkOuts [] None)) bs)) in
  r t = NewReader (sent (w s)) e' → cr t = false →
  ∃ t', RWC_reads t rs = (t', concat bs, Ret (Some EOF)).
Proof.
  intros Hb HF Hlen s Hr Hc. unfold s in Hr. rewrite rwc_sent in Hr.
  destruct (payloads_writes carries bs Hb) as [Hp He].
  destruct (reads_all (map (SetBytes BuildMsg) bs ++ [CloseMsg]) e' EOF rs HF (He e')) as [r' HR].
  { rewrite Hp, length_app, length_map. cbn. lia. }
  rewrite RWC_reads_open, Hr, HR by done. eexists. by rewrite Hp.
Qed.

Lemma rwc_carries (carries : list byte → Prop) `{!MsgLaws M carries}
    (bs : list (list byte)) (rs : list (list nat * Z)) (ms : list M) (e e' : option error) :
  Forall carries bs → Forall (λ r, 0 < r.2) rs →
  (length (concat bs) + length bs + 1 < length rs)%nat →
  let s := fst (RWC_CloseWrite (RWC_write_all (NewReadWriteCloser ms e (MkOuts [] None)) bs)) in
  ∃ t', RWC_reads (NewReadWriteCloser (sent (w s)) e' (MkOuts [] None)) rs = (t', concat bs, Ret (Some EOF)).
Proof. intros. by eapply (rwc_reads carries). Qed.

(** C3: round trip of the stream adapter. For every message type that keeps the laws
    of the interface, what one end writes (payloads the message type carries) and then closes
    with [CloseWrite] is what the reads of the [ReadWriteCloser] at the other end return,
    followed by [io.EOF], in any interleaving with its goroutine and with any buffers that are not
    empty, also when that end has written before and has closed its own writing half; after
    its [CloseRead] it reads nothing of it. *)
Theorem rwc_roundtrip (carries : list byte → Prop) `{!MsgLaws M carries}
    (bs bs' : list (list byte)) (rs : list (list nat * Z)) (ms : list M) (e e' : option error)
    (o' : Outs M) (half : bool) :
  Forall carries bs → Forall (λ r, 0 < r.2) rs →
  (length (concat bs) + length bs + 1 < length rs)%nat →
  let s := fst (RWC_CloseWrite (RWC_write_all (NewReadWriteCloser ms e (MkOuts [] None)) bs)) in
  let t := RWC_write_all (NewReadWriteCloser (sent (w s)) e' o') bs' in
  let t := if half then fst (RWC_CloseWrite t) else t in
  (∃ t', RWC_reads t rs = (t', concat bs, Ret (Some EOF))) ∧
  snd (RWC_reads (fst (RWC_CloseRead t)) rs) = Ret (Some errClosedRead).
Proof.
  intros Hb HF Hlen s t0 t.
  assert (r t = NewReader (sent (w s)) e' ∧ cr t = false) as [Hr Hc].
  { destruct (RWC_write_all_reading (NewReadWriteCloser (sent (w s)) e' o') bs') as [H1 H2].
    unfold t. destruct half; [|done]. destruct (RWC_CloseWrite_reading t0) as [-> ->]. done. }
  split.
  - by eapply (rwc_reads carries).
  - destruct rs as [|[sched n] rs]; [cbn in Hlen; lia|]. done.
Qed.

(** Closing is final for the local user: after [Close], reads and writes return
    the closing errors, nothing more is sent by writes, and the peer has been told. *)
Theorem rwc_close_final (s : ReadWriteCloser M) :
  sendFail (w s) = None →
  let s' := fst (RWC_Close s) in
  sent (w s') = sent (w s) ++ [CloseMsg] ∧
  (∀ sched n, RWC_Read sched s' n = (s', Ret ([], Some errClosedRead))) ∧
  (∀ b, RWC_Write s' b = (s', (0, Some errClosedWrite))).
Proof.
  intros Hf s'. unfold s', RWC_Close, RWC_CloseRead, RWC_CloseWrite, SendMsg. cbn. rewrite Hf.
  by repeat split.
Qed.
End Properties.

(** ** The message type of stream_test.go *)

Module ByteMsg.
Record byteMsg := MkByteMsg { bs : list byte; err : option error }.
#[export] Instance byteMsg_build : MsgBuilder byteMsg := MkByteMsg [] None.
#[export] Instance byteMsg_get : MsgReader byteMsg :=
  λ m, match err m with Some e => Err e | None => Ok (bs m) end.
#[export] Instance byteMsg_set : MsgWriter byteMsg := λ m b, MkByteMsg b (err m).
#[export] Instance byteMsg_close : MsgCloser byteMsg := MkByteMsg [] (Some EOF).
#[export] Instance byteMsg_laws : MsgLaws byteMsg (λ _, True).
Proof. by split. Qed.
End ByteMsg.
Import ByteMsg.

Definition two_msgs : list byteMsg :=
  [MkByteMsg ["a"%char; "b"%char; "c"%char] None; MkByteMsg [] None;
   MkByteMsg ["d"%char] None; MkByteMsg [] (Some EOF)].
Definition nine_reads : list (list nat * Z) := replicate 9 ([1%nat; 2%nat], 2).

Lemma reader_delivers_in_order_witness :
  match Ret (Some EOF) with
  | Ret None => ["a"%char; "b"%char; "c"%char; "d"%char] `prefix_of` payloads two_msgs
  | Ret (Some err) => ["a"%char; "b"%char; "c"%char; "d"%char] = payloads two_msgs ∧
                      stream_end two_msgs None = Some err
  | Block => ["a"%char; "b"%char; "c"%char; "d"%char] = payloads two_msgs ∧
             stream_end two_msgs None = None
  | Panic => False
  end.
Proof.
  apply (reader_delivers_in_order two_msgs None nine_reads
           (fst (fst (run_reads (NewReader two_msgs None) nine_reads)))
           ["a"%char; "b"%char; "c"%char; "d"%char] (Ret (Some EOF))).
  - repeat constructor.
  - vm_compute. reflexivity.
Defined.

Lemma reader_delivers_all_witness :
  ∃ s', run_reads (NewReader two_msgs None) nine_reads
        = (s', payloads two_msgs, Ret (Some EOF)).
Proof.
  apply (reader_delivers_all two_msgs None EOF nine_reads);
    [repeat constructor|vm_compute; reflexivity|vm_compute; lia].
Defined.

Lemma reader_hangs_after_error_witness :
  snd (Read [] (fst (fst (run_reads (NewReader two_msgs None) nine_reads))) 10) = Block.
Proof.
  apply (reader_hangs_after_error two_msgs None nine_reads
           (fst (fst (run_reads (NewReader two_msgs None) nine_reads)))
           ["a"%char; "b"%char; "c"%char; "d"%char] EOF);
    [repeat constructor|vm_compute; reflexivity].
Defined.

Lemma reader_drain_terminates_witness :
  drain_chan 50 [1%nat] (NewReader two_msgs None) 4 []
  = drain_chan (S (length (msgChan (NewReader two_msgs None)) + length (incoming (NewReader two_msgs None))))
      [1%nat] (NewReader two_msgs None) 4 [].
Proof. apply (reader_drain_terminates 50); [apply rwf_NewReader|vm_compute; lia]. Defined.

Lemma rwc_roundtrip_witness :
  let s := fst (RWC_CloseWrite (RWC_write_all (NewReadWriteCloser (M := byteMsg) [] None (MkOuts [] None))
                  [["x"%char]; []; ["y"%char; "z"%char]])) in
  let t := NewReadWriteCloser (sent (w s)) None (MkOuts [] None) in
  ∃ t', RWC_reads t nine_reads = (t', concat [["x"%char]; []; ["y"%char; "z"%char]], Ret (Some EOF)).
Proof.
  refine (proj1 (rwc_roundtrip (λ _, True) [["x"%char]; []; ["y"%char; "z"%char]] [] nine_reads [] None None
    (MkOuts [] None) false _ _ _)); [repeat constructor|repeat constructor|vm_compute; lia].
Defined.

Lemma rwc_close_final_witness :
  let s' := fst (RWC_Close (NewReadWriteCloser two_msgs None (MkOuts [] None))) in
  sent (w s') = [] ++ [MkByteMsg [] (Some EOF)] ∧
  (∀ sched n, RWC_Read sched s' n = (s', Ret ([], Some errClosedRead))) ∧
  (∀ b, RWC_Write s' b = (s', (0, Some errClosedWrite))).
Proof. apply (rwc_close_final (NewReadWriteCloser two_msgs None (MkOuts [] None))). reflexivity. Defined.
