(* ===== verification/Mux.v ===== *)
(** * The multiplexer: src/waterfall/golang/mux/mux.go, conn.go and message.go

    A connection that cannot be shared carries one gRPC server, whose streams are the
    connections.  Here: the codec of those streams, the half closes of [Conn], and the
    listener that hands out its one connection once. *)

From S2P Require Import Prelude GoIO Proto Stream.

Local Open Scope Z_scope.

(** ** The messages of a stream *)

(** The methods of mux [Message]: an empty payload is the end of the stream. *)
#[export] Instance Message_BuildMsg : MsgBuilder Message := MkMessage [].
#[export] Instance Message_GetBytes : MsgReader Message :=
  λ m, if decide (len (Message_payload m) = 0) then Err EOF else Ok (Message_payload m).
#[export] Instance Message_SetBytes : MsgWriter Message := λ _ b, MkMessage b.
#[export] Instance Message_CloseMsg : MsgCloser Message := MkMessage [].

(** The codec carries the non-empty slices. *)
#[export] Instance Message_laws : MsgLaws Message (λ b, b ≠ []).
Proof.
  split; [|done]. intros b Hb. unfold GetBytes, SetBytes, Message_GetBytes, Message_SetBytes.
  cbn. rewrite decide_False; [done|]. by intros ?%len_zero_nil.
Qed.

(** ** [Conn] *)

(** [CloseRead] and [CloseWrite] of [Conn] on a wrapped value of state [S]: its own half
    close when it has one ([Some]), otherwise its [Close]. *)
Definition Conn_half {S} (half : option (S → S * option error)) (Close : S → S * option error)
    (s : S) : S * option error :=
  match half with Some f => f s | None => Close s end.

(** [CloseWrite] of a stream's connection: [stream.ReadWriteCloser] has half closes. *)
Definition stream_CloseWrite (s : ReadWriteCloser Message) : ReadWriteCloser Message * option error :=
  Conn_half (Some (@RWC_CloseWrite Message _)) (@RWC_Close Message _) s.

(** ** The listener of the one connection *)

(** [singletonListener]: the connection while it waits in the channel, whether the listener
    was closed, and how often [conn.Close] was called. *)
Record singletonListener := MkSL { connCh : option nat; sl_closed : bool; connCloses : Z }.

(** The listener [NewListener(f)] makes for connection [c]. *)
Definition NewListener (c : nat) : singletonListener := MkSL (Some c) false 0.

Definition errListener : error := ErrorString "can't accept - listener closed".

(** [Accept()] *)
Definition SL_Accept (sl : singletonListener) : singletonListener * outcome (result nat) :=
  match connCh sl with
  | Some c => (MkSL None (sl_closed sl) (connCloses sl), Ret (Ok c))
  | None => (sl, if sl_closed sl then Ret (Err errListener) else Block)
  end.

(** [Close()] *)
Definition SL_Close (sl : singletonListener) : singletonListener * outcome (option error) :=
  if sl_closed sl then (sl, Ret (Some (ErrorString "alredy closed")))
  else (MkSL (connCh sl) true (connCloses sl + 1), Ret None).

(** What the goroutines that use the listener do to it, in order, and the connections they
    were given; a call that waits stays where it is. *)
Inductive sl_op := SLAccept | SLClose.

Definition sl_step (s : singletonListener * list nat) (o : sl_op) : singletonListener * list nat :=
  match o with
  | SLAccept =>
      match SL_Accept (fst s) with
      | (sl, Ret (Ok c)) => (sl, snd s ++ [c])
      | (sl, _) => (sl, snd s)
      end
  | SLClose => (fst (SL_Close (fst s)), snd s)
  end.

(** ** Theorems *)

(** Multiplexed connections carry what is written: for non-empty slices, what one end of
    a multiplexed stream writes before [CloseWrite] is what the other end reads, followed
    by EOF, in any interleaving and with any buffer sizes; the message of an empty write is
    the message that closes the stream. *)
Theorem mux_stream_roundtrip bs rs ms e e' :
  Forall (λ b, b ≠ []) bs → Forall (λ r, 0 < r.2) rs →
  (length (concat bs) + length bs + 1 < length rs)%nat →
  let s := fst (stream_CloseWrite (RWC_write_all (NewReadWriteCloser ms e (MkOuts [] None)) bs)) in
  (∃ t', RWC_reads (NewReadWriteCloser (sent (w s)) e' (MkOuts [] None)) rs
        = (t', concat bs, Ret (Some EOF))) ∧
  SetBytes BuildMsg [] = CloseMsg (M := Message).
Proof. intros Hb Hr Hl s. split; [|done]. by apply (rwc_carries (λ b, b ≠ [])). Qed.

Lemma mux_stream_roundtrip_witness : ∃ t',
  RWC_reads (NewReadWriteCloser [MkMessage ["a"%char]; MkMessage []] None (MkOuts [] None))
    (replicate 5 ([1%nat], 2)) = (t', ["a"%char], Ret (Some EOF)).
Proof.
  refine (proj1 (mux_stream_roundtrip [["a"%char]] (replicate 5 ([1%nat], 2)) [] None None _ _ _)).
  - by constructor.
  - by apply Forall_replicate.
  - cbn. lia.
Defined.

(** The connection is handed out at most once: whatever calls of [Accept] and [Close] the
    goroutines of the gRPC server make, the connections they get are a prefix of the one
    there is, and the connection is closed at most once. *)
Theorem singleton_once c ops :
  let '(sl, got) := foldl sl_step (NewListener c, []) ops in
  got `prefix_of` [c] ∧ 0 ≤ connCloses sl ≤ 1 ∧ (sl_closed sl = true ↔ connCloses sl = 1).
Proof.
  assert (∀ s, (connCh (fst s) = Some c ∧ snd s = [] ∨ connCh (fst s) = None ∧ snd s = [c]) →
    (connCloses (fst s) = if sl_closed (fst s) then 1 else 0) →
    let s' := foldl sl_step s ops in
    (snd s' = [] ∨ snd s' = [c]) ∧ connCloses (fst s') = if sl_closed (fst s') then 1 else 0) as H.
  { induction ops as [|o ops IH]; intros s Hs Hc; cbn [foldl]; [naive_solver|].
    apply IH; destruct s as [[ch cl n] got], o; cbn in *.
    - destruct Hs as [[-> ->]|[-> ->]]; cbn; [by right|]. destruct cl; by right.
    - unfold SL_Close. cbn. by destruct cl.
    - destruct ch; cbn; [done|]. by destruct cl.
    - unfold SL_Close. cbn. destruct cl; cbn; lia. }
  specialize (H (NewListener c, [])). cbn in H. destruct H as [Hg Hc]; [by left|done|].
  destruct (foldl sl_step _ ops) as [sl got]. cbn in *. rewrite Hc.
  destruct Hg as [-> | ->]; (split; [|destruct (sl_closed sl); lia]); [apply prefix_nil|done].
Qed.

(** ** The listener of the streams *)

(** [Listener]: the control listener, the streams whose [NewStream] handlers wait to send on
    [strms], and whether [strms] was closed. *)
Record Listener := MkListener {
  control : singletonListener;
  strms : list nat;
  strms_closed : bool;
}.

(** [svr.streamCh <- s] of the handler [NewStream]: the channel has no buffer. *)
Definition NewStream (l : Listener) (s : nat) : Listener * outcome unit :=
  if strms_closed l then (l, Panic)
  else (MkListener (control l) (strms l ++ [s]) false, Ret tt).

(** [Accept()] *)
Definition L_Accept (l : Listener) : Listener * outcome (result nat) :=
  match strms l with
  | s :: rest => (MkListener (control l) rest (strms_closed l), Ret (Ok s))
  | [] => (l, if strms_closed l then Ret (Err (ErrorString "error receiving next stream: grpc server stopped"))
              else Block)
  end.

(** [Close()]; [stop_waits] says whether [svr.Stop()] of the library waits for the handlers that
    run: those that wait to send never end, whatever becomes of their streams. *)
Definition L_Close (stop_waits : bool) (l : Listener) : Listener * outcome (option error) :=
  match SL_Close (control l) with
  | (sl, Ret (Some e)) => (MkListener sl (strms l) (strms_closed l), Ret (Some e))
  | (sl, Ret None) =>
      let l := MkListener sl (strms l) (strms_closed l) in
      if decide (strms l = []) then (MkListener sl [] true, if strms_closed l then Panic else Ret None)
      else (l, if stop_waits then Block else Panic)
  | (sl, Panic) => (MkListener sl (strms l) (strms_closed l), Panic)
  | (sl, Block) => (MkListener sl (strms l) (strms_closed l), Block)
  end.

(** What happens to an open listener, and the streams [Accept] returned. *)
Inductive l_op := LNewStream (s : nat) | LAccept.

Definition l_step (s : Listener * list nat) (o : l_op) : Listener * list nat :=
  match o with
  | LNewStream n => (fst (NewStream (fst s) n), snd s)
  | LAccept =>
      match L_Accept (fst s) with
      | (l, Ret (Ok n)) => (l, snd s ++ [n])
      | (l, _) => (l, snd s)
      end
  end.

Definition new_streams (ops : list l_op) : list nat :=
  omap (λ o, match o with LNewStream s => Some s | LAccept => None end) ops.

Lemma l_steps_order l got ops :
  strms_closed l = false →
  let s := foldl l_step (l, got) ops in
  strms_closed (fst s) = false ∧ control (fst s) = control l ∧ snd s ++ strms (fst s) = (got ++ strms l) ++ new_streams ops.
Proof.
  revert l got. induction ops as [|o ops IH]; intros l got Hc; cbn [foldl]; [by rewrite app_nil_r|].
  destruct o as [n|]; cbn [l_step fst snd].
  - unfold NewStream. rewrite Hc. cbn [fst]. destruct (IH (MkListener (control l) (strms l ++ [n]) false) got eq_refl)
      as (H1 & H2 & H3). split_and!; [done..|]. rewrite H3. cbn [strms]. by rewrite <- !app_assoc.
  - unfold L_Accept. destruct (strms l) as [|n rest] eqn:Es.
    + rewrite Hc. destruct (IH l got Hc) as (H1 & H2 & H3). split_and!; [done..|]. rewrite H3, Es. done.
    + destruct (IH (MkListener (control l) rest (strms_closed l)) (got ++ [n]) Hc) as (H1 & H2 & H3).
      split_and!; [done..|]. rewrite H3. cbn [strms]. by rewrite <- !app_assoc.
Qed.

(** Streams are accepted in the order they came, none lost and none twice; and [Close] returns nil
    exactly when no stream waits to be accepted: otherwise it ends in a panic of the handler
    that sends on the closed channel, or waits for it for ever. *)
Theorem mux_listener_order c ops stop_waits :
  let s := foldl l_step (MkListener (NewListener c) [] false, []) ops in
  snd s ++ strms (fst s) = new_streams ops ∧
  snd (L_Close stop_waits (fst s)) =
    if decide (snd s = new_streams ops) then Ret None else if stop_waits then Block else Panic.
Proof.
  intros s. destruct (l_steps_order (MkListener (NewListener c) [] false) [] ops eq_refl) as (H1 & H2 & H3).
  fold s in H1, H2, H3. cbn in H3. split; [exact H3|].
  unfold L_Close. rewrite H2. cbn. rewrite H1. rewrite <- H3.
  destruct (strms (fst s)) as [|n rest] eqn:Es.
  - rewrite app_nil_r, !decide_True by done. done.
  - rewrite !decide_False; [done| |done]. intros HE. apply (f_equal length) in HE. rewrite length_app in HE. cbn in HE. lia.
Qed.
