(* ===== verification/MuxSession.v ===== *)
(** * Both ends of a multiplexed connection, and the net.Conn methods: src/waterfall/golang/mux
      and src/waterfall/golang/net/qemu

    The client's [ConnBuilder] and the server's [Listener] over one connection: every stream the
    client opens becomes one connection on either side.  The second part is the addresses and
    deadlines of the connection types of both packages. *)

From S2P Require Import Prelude GoStrings GoIO Proto Stream Mux.

(** ** ConnBuilder *)

(** [ConnBuilder]: whether its connection is open, and how many streams it has opened. *)
Record ConnBuilder := MkCB { cb_open : bool; cb_next : nat }.

(** [NewConnBuilder(ctx, rwc)]: [grpc.Dial] does not wait, and its error is returned with the
    builder. *)
Definition NewConnBuilder (dialErr : option error) : ConnBuilder * option error := (MkCB true 0, dialErr).

(** [Accept()]: [newStream] is the error of [client.NewStream]; a stream is its number. *)
Definition CB_Accept (b : ConnBuilder) (newStream : option error) : ConnBuilder * result nat :=
  match newStream with
  | Some e => (b, Err e)
  | None => (MkCB (cb_open b) (S (cb_next b)), Ok (cb_next b))
  end.

(** [Close()]: [ClientConn.Close] of the library fails when it was closed before, and tears down the
    connection and all its streams ([ses_close]). *)
Definition CB_Close (b : ConnBuilder) (closing : error) : ConnBuilder * option error :=
  if cb_open b then (MkCB false (cb_next b), None) else (b, Some closing).

(** ** The session *)

(** Both ends: the builder, the connections its [Accept] returned, the streams on their way (the
    server starts a handler for each, in any order), the listener and the connections its
    [Accept] returned; whether the connection below is up, and the streams that were lost with it. *)
Record session := MkSession {
  builder : ConnBuilder;
  dialled : list nat;
  on_way : list nat;
  listener : Listener;
  accepted : list nat;
  up : bool;
  lost : list nat;
}.

Definition session_init (c : nat) : session :=
  MkSession (fst (NewConnBuilder None)) [] [] (MkListener (NewListener c) [] false) [] true [].

(** The connection goes down with [ClientConn.Close], with the listener's [Close], which closes the
    control connection and stops the server, or by itself.  The streams that were on their way may
    then be lost; the library does not say that they are, so they may also still come in. *)
Inductive session_step : session → session → Prop :=
| ses_open e b r s : CB_Accept (builder s) e = (b, r) →
    (e = None → cb_open (builder s) = true ∧ up s = true) →
    session_step s (match r with
      | Ok n => MkSession b (dialled s ++ [n]) (on_way s ++ [n]) (listener s) (accepted s) (up s) (lost s)
      | Err _ => MkSession b (dialled s) (on_way s) (listener s) (accepted s) (up s) (lost s)
      end)
| ses_handler n l1 l2 l s : on_way s = l1 ++ n :: l2 → NewStream (listener s) n = (l, Ret tt) →
    session_step s (MkSession (builder s) (dialled s) (l1 ++ l2) l (accepted s) (up s) (lost s))
| ses_accept l n s : L_Accept (listener s) = (l, Ret (Ok n)) →
    session_step s (MkSession (builder s) (dialled s) (on_way s) l (accepted s ++ [n]) (up s) (lost s))
| ses_close e b r s : CB_Close (builder s) e = (b, r) →
    session_step s (MkSession b (dialled s) (on_way s) (listener s) (accepted s)
      (if r is None then false else up s) (lost s))
| ses_stop stop_waits l r s : L_Close stop_waits (listener s) = (l, r) → r ≠ Panic →
    session_step s (MkSession (builder s) (dialled s) (on_way s) l (accepted s) false (lost s))
| ses_fail s :
    session_step s (MkSession (builder s) (dialled s) (on_way s) (listener s) (accepted s) false (lost s))
| ses_lose n l1 l2 s : up s = false → on_way s = l1 ++ n :: l2 →
    session_step s (MkSession (builder s) (dialled s) (l1 ++ l2) (listener s) (accepted s) false (lost s ++ [n])).

Definition session_inv (s : session) : Prop :=
  dialled s = seq 0 (cb_next (builder s)) ∧ (up s = true → strms_closed (listener s) = false ∧ lost s = []) ∧
  accepted s ++ strms (listener s) ++ on_way s ++ lost s ≡ₚ dialled s.

(** [Close] of the listener takes no stream away. *)
Lemma L_Close_strms w l l' r : L_Close w l = (l', r) → strms l' = strms l.
Proof.
  unfold L_Close. destruct (SL_Close (control l)) as [sl [[e|]| |]]; try (by intros [= <- _]).
  case_decide as H; intros [= <- _]; [by cbn in *|done].
Qed.

Lemma session_inv_step s s' : session_inv s → session_step s s' → session_inv s'.
Proof.
  intros (H1 & H2 & H3) Hs. unfold session_inv.
  destruct Hs as [e b r s H Hup|n l1 l2 l s Hw H|l n s H|e b r s H|w l r s H Hp|s|n l1 l2 s Hup Hw].
  - unfold CB_Accept in H. destruct e as [e|]; injection H as <- <-; cbn -[seq]; [done|].
    split_and!; [by rewrite seq_S, H1|done|]. rewrite <- H3. solve_Permutation.
  - unfold NewStream in H. destruct (strms_closed (listener s)); [done|]. injection H as <-. cbn.
    split_and!; [done|intros Hu; by destruct (H2 Hu)|]. rewrite <- H3, Hw. solve_Permutation.
  - unfold L_Accept in H. destruct (strms (listener s)) as [|m rest] eqn:E.
    { destruct (strms_closed _); discriminate. }
    injection H as <- <-. cbn. split_and!; [done|done|]. rewrite <- H3. solve_Permutation.
  - unfold CB_Close in H. destruct (cb_open _); injection H as <- <-; done.
  - apply L_Close_strms in H. cbn. rewrite H. done.
  - done.
  - cbn. split_and!; [done|done|]. rewrite <- H3, Hw. solve_Permutation.
Qed.

Lemma session_reach_inv c s : rtc session_step (session_init c) s → session_inv s.
Proof. intros Hr. apply (invariant_rtc session_step session_inv (session_init c) s); [exact session_inv_step|done|done]. Qed.

(** While the connection is up, the server gets and accepts every stream on its way. *)
Lemma session_drains s :
  session_inv s → up s = true → ∃ s', rtc session_step s s' ∧ dialled s' = dialled s ∧ accepted s' ≡ₚ dialled s.
Proof.
  remember (length (on_way s) + length (on_way s) + length (strms (listener s)))%nat as k eqn:Hk.
  revert s Hk. induction (lt_wf k) as [k _ IH]. intros s Hk Hi Hu.
  destruct (id Hi) as (H1 & H2 & H3). destruct (H2 Hu) as [Hc Hl].
  destruct (strms (listener s)) as [|n rest] eqn:Es.
  - destruct (on_way s) as [|n w] eqn:Ew.
    { exists s. rewrite Hl, !app_nil_r in H3. by split_and!; [apply rtc_refl|..]. }
    assert (session_step s (MkSession (builder s) (dialled s) ([] ++ w)
      (MkListener (control (listener s)) (strms (listener s) ++ [n]) false) (accepted s) (up s) (lost s))) as Hs.
    { apply (ses_handler n []); [done|]. unfold NewStream. by rewrite Hc. }
    edestruct IH as (s' & Hr & Hd & Hp); [|reflexivity|exact (session_inv_step _ _ Hi Hs)|exact Hu|].
    { cbn. rewrite Es, Hk. cbn. lia. }
    exists s'. split_and!; [by eapply rtc_l|exact Hd|exact Hp].
  - assert (session_step s (MkSession (builder s) (dialled s) (on_way s)
      (MkListener (control (listener s)) rest (strms_closed (listener s))) (accepted s ++ [n]) (up s) (lost s))) as Hs.
    { apply ses_accept. unfold L_Accept. by rewrite Es. }
    edestruct IH as (s' & Hr & Hd & Hp); [|reflexivity|exact (session_inv_step _ _ Hi Hs)|exact Hu|].
    { cbn. rewrite Hk. cbn. lia. }
    exists s'. split_and!; [by eapply rtc_l|exact Hd|exact Hp].
Qed.


Definition demo_session : session :=
  MkSession (MkCB true 1) [0%nat] [] (MkListener (NewListener 7) [0%nat] false) [] true [].


(** A client that closes its builder right after [Accept] may lose the connection it was given: the
    server never sees it. *)
Example mux_close_loses : ∃ s,
  rtc session_step (session_init 7) s ∧ dialled s = [0%nat] ∧ accepted s = [] ∧ lost s = [0%nat].
Proof.
  eexists. split; [|split_and!].
  - eapply rtc_l; [exact (ses_open None (MkCB true 1) (Ok 0%nat) (session_init 7) eq_refl (λ _, conj eq_refl eq_refl))|].
    eapply rtc_l; [exact (ses_close (ErrorString "closing") (MkCB false 1) None
      (MkSession (MkCB true 1) [0%nat] [0%nat] (MkListener (NewListener 7) [] false) [] true []) eq_refl)|].
    eapply rtc_l; [exact (ses_lose 0 [] []
      (MkSession (MkCB false 1) [0%nat] [0%nat] (MkListener (NewListener 7) [] false) [] false []) eq_refl eq_refl)|].
    apply rtc_refl.
  - done.
  - done.
  - done.
Qed.

(** ** Addresses and deadlines *)

(** mux: the address type is its own text. *)
Definition maddr_Network (a : string) : string := a.
Definition maddr_String (a : string) : string := a.
Definition sl_Addr : string := "singleton".
Definition L_Addr : string := "mux".
Definition MuxConn_LocalAddr : string := "muxconn".
Definition MuxConn_RemoteAddr : string := "muxconn".

(** The deadlines of a [mux.Conn] are errors, whatever it wraps. *)
Definition MuxConn_SetDeadline : option error := Some (ErrorString "unimplemented SetDeadline").
Definition MuxConn_SetReadDeadline : option error := Some (ErrorString "unimplemented SetReadDeadline").
Definition MuxConn_SetWriteDeadline : option error := Some (ErrorString "unimplemented SetWriteDeadline").

(** Read, Write and Close of a [mux.Conn] are those of what it wraps. *)
Definition MuxConn_op {S A} (wrapped : S → S * A) (s : S) : S * A := wrapped s.
Definition NewConn {S} (rwc : S) : S := rwc.

(** qemu: [qemuAddr]. *)
Definition qemuDriverName : string := "/dev/qemu_pipe".
Definition qemuAddr_Network (a : string) : string := qemuDriverName.
Definition qemuAddr_String (a : string) : string := a.

Definition errNotImplemented : error := ErrorString "error not implemented".

(** The deadlines of [QemuConn]: those of the connection it wraps, when that has any, as a vsock
    has and a pipe device has not; [ControlSocketConn] has none. *)
Definition QemuConn_deadline (wrapped : option (option error)) : option error :=
  match wrapped with Some r => r | None => Some errNotImplemented end.
Definition ControlSocketConn_deadline : option error := Some errNotImplemented.

(** [MakeQemuConn(conn)] wraps, and its addresses are constant. *)
Definition MakeQemuConn {S} (conn : S) : S := conn.
Definition QemuConn_Addr : string := "qemu-pipe".

(** [LocalAddr] and [RemoteAddr] of [Conn] and of [ControlSocketConn]: the address both are made
    with; [Addr] of the listeners. *)
Definition Conn_Addr : string := "".
Definition ControlSocketConn_Addr : string := "".
Definition Pipe_Addr (socketName : string) : string := socketName.
Definition ControlSocket_Addr (pipeSocket : string) : string := Pipe_Addr pipeSocket.
