(* ===== verification/Forward.v ===== *)
(** * Connection forwarding: src/waterfall/golang/forward/forward.go and stream.go

    [Forward] copies between two connections with two goroutines.  The run is a step
    relation: each goroutine moves bytes, ends, signals and closes its halves; the
    caller waits for the first signal that lets it return and closes both ends. *)

From S2P Require Import Prelude GoIO Proto Stream.

Local Open Scope Z_scope.

(** ** The message codec of a forwarding stream *)

(** The methods of [forwardMsg]. *)
#[export] Instance forwardMsg_BuildMsg : MsgBuilder ForwardMessage := ForwardMessage_zero.
#[export] Instance forwardMsg_GetBytes : MsgReader ForwardMessage :=
  λ msg, if decide (fm_op msg = CLOSE) then Err EOF else Ok (fm_payload msg).
#[export] Instance forwardMsg_SetBytes : MsgWriter ForwardMessage :=
  λ msg b, MkForwardMessage (fm_kind msg) (fm_op msg) (fm_addr msg) b.
#[export] Instance forwardMsg_CloseMsg : MsgCloser ForwardMessage :=
  MkForwardMessage UNSET CLOSE "" [].

(** A forwarding stream carries every payload, the empty one included. *)
#[export] Instance forwardMsg_laws : MsgLaws ForwardMessage (λ _, True).
Proof. by split. Qed.

(** ** Forwarding *)

(** A copying goroutine: copying; [io.Copy] returned and the caller was signalled;
    the deferred [CloseRead] and [CloseWrite] have run. *)
Inductive copy_state := Copying | Signalled (err : option error) | Exited (err : option error).

(** What [Close] does when a [Read] on the same connection waits: a socket ends the read; a
    [stream.ReadWriteCloser] leaves it waiting; a qemu connection ([qemu.Conn],
    [ControlSocketConn]) first waits for the read to return ([ConnLocks]).  A socket's [Close] also
    ends a [Write] that waits; the other two have to send a message first, as their [CloseWrite]
    does, and a peer that takes nothing more holds it up. *)
Inductive closing := Interrupts | Leaves | Waits.

#[export] Instance closing_eq_dec : EqDecision closing.
Proof. solve_decision. Defined.

(** One [asyncCopy(w, r)]: what [r] will deliver, how [r] closes, what [w] takes, and whether
    [r.CloseRead] and [w.CloseWrite] were called. *)
Record copier := MkCopier {
  src : source;
  on_close : closing;
  dst : sink;
  st : copy_state;
  readClosed : bool;
  writeClosed : bool;
}.

Definition startCopy (w : sink) (r : source) (i : closing) : copier :=
  MkCopier r i w Copying false false.

(** The caller: in the [select]; returned [err], with the deferred closes to run. *)
Inductive caller := Waiting | Returning (err : option error).

(** [wgCount] is the counter of [wg], [errCh] the buffered errors; [xClosed] and
    [yClosed]: [Close] was called on the end. *)
Record fwd := MkFwd {
  intoX : copier;
  intoY : copier;
  wgCount : Z;
  errCh : list error;
  main : caller;
  xClosed : bool;
  yClosed : bool;
}.

(** [Forward(x, y)] after it started both goroutines: [xin] and [yin] are what the two
    ends will deliver, [xi] and [yi] how they close. *)
Definition Forward_init (xin yin : source) (xi yi : closing) (xout yout : sink) : fwd :=
  MkFwd (startCopy xout yin yi) (startCopy yout xin xi) 2 [] Waiting false false.

(** The error of a write on an end that was closed. *)
Definition errUseClosed : error := ErrorString "use of closed network connection".

(** A peer that stops reading: the bytes an end takes in all before a [Write] waits for its peer;
    [None] for an end whose peer always reads on. *)
Definition room (cap : option Z) (out : sink) (n : Z) : Prop :=
  match cap with None => True | Some m => len (taken out) + n ≤ m end.

Definition full (cap : option Z) (out : sink) : Prop :=
  match cap with None => False | Some m => m ≤ len (taken out) end.

#[export] Instance full_dec cap out : Decision (full cap out).
Proof. unfold full. destruct cap; apply _. Defined.

(** [io.Copy(w, r)] of one goroutine, one read and the write of what it returned, then
    the signal, then the deferred closes.  [rshut], [wshut]: [Close] was called on the
    end it reads, on the end it writes; [cap] and [wkind]: what the end it writes takes, and how
    that end closes.  A write that has to wait is one that has not begun: what it gave before is a
    move of its own.  A read that was under way when its end was closed
    may still complete; the next one returns EOF or an error, depending on the kind of
    connection.  The label is the result of the copy when it ends. *)
Inductive copy_step (rshut wshut : bool) (cap : option Z) (wkind : closing) :
    copier → option (option error) → copier → Prop :=
| copy_move c k out n :
    st c = Copying → wshut = false → 0 < k ≤ len (avail (src c)) → room cap (dst c) k →
    sink_write (dst c) (take (Z.to_nat k) (avail (src c))) = (out, (n, None)) →
    copy_step rshut wshut cap wkind c None
      (MkCopier (MkSource (drop (Z.to_nat k) (avail (src c))) (fin (src c))) (on_close c) out Copying
         (readClosed c) (writeClosed c))
| copy_write_err c k out n e :
    st c = Copying → wshut = false → 0 < k ≤ len (avail (src c)) → room cap (dst c) n →
    sink_write (dst c) (take (Z.to_nat k) (avail (src c))) = (out, (n, Some e)) →
    copy_step rshut wshut cap wkind c (Some (Some e))
      (MkCopier (MkSource (drop (Z.to_nat k) (avail (src c))) (fin (src c))) (on_close c) out
         (Signalled (Some e)) (readClosed c) (writeClosed c))
| copy_write_shut c k :
    st c = Copying → wshut = true → 0 < k ≤ len (avail (src c)) →
    copy_step rshut wshut cap wkind c (Some (Some errUseClosed))
      (MkCopier (MkSource (drop (Z.to_nat k) (avail (src c))) (fin (src c))) (on_close c) (dst c)
         (Signalled (Some errUseClosed)) (readClosed c) (writeClosed c))
| copy_end c e :
    st c = Copying → avail (src c) = [] → fin (src c) = Some e →
    let err := if decide (e = EOF) then None else Some e in
    copy_step rshut wshut cap wkind c (Some err)
      (MkCopier (src c) (on_close c) (dst c) (Signalled err) (readClosed c) (writeClosed c))
| copy_read_shut c err :
    st c = Copying → rshut = true →
    on_close c ≠ Leaves ∨ avail (src c) ≠ [] ∨ fin (src c) ≠ None →
    copy_step rshut wshut cap wkind c (Some err)
      (MkCopier (src c) (on_close c) (dst c) (Signalled err) (readClosed c) (writeClosed c))
| copy_exit c err :
    st c = Signalled err → wshut = true ∨ wkind = Interrupts ∨ ¬ full cap (dst c) →
    copy_step rshut wshut cap wkind c None
      (MkCopier (src c) (on_close c) (dst c) (Exited err) true true).

(** The signal of a finished copy: [wg.Done()] or [ch <- err]. *)
Definition signal (res : option (option error)) (wg : Z) (ch : list error) : Z * list error :=
  match res with
  | None => (wg, ch)
  | Some None => (wg - 1, ch)
  | Some (Some e) => (wg, ch ++ [e])
  end.

(** The copy waits in a [Read] for bytes, or an end of stream, that do not come. *)
Definition starved (c : copier) : Prop :=
  st c = Copying ∧ avail (src c) = [] ∧ fin (src c) = None.

(** The copy waits in a [Write] for a peer that does not read. *)
Definition clogged (cap : option Z) (c : copier) : Prop :=
  st c = Copying ∧ avail (src c) ≠ [] ∧ full cap (dst c).

(** [Close] of the end that [c] reads waits for the read. *)
Definition close_waits (c : copier) : Prop := on_close c = Waits ∧ starved c.

(** [Close] of an end waits: for the read of the copy [r] from it, or for its peer to take the
    message it sends. *)
Definition close_held (cap : option Z) (r w : copier) : Prop :=
  close_waits r ∨ (on_close r ≠ Interrupts ∧ full cap (dst w)).

Lemma close_held_None r w : close_held None r w ↔ close_waits r.
Proof. unfold close_held. cbn. tauto. Qed.

(** [xcap] and [ycap]: what the two ends take. *)
Inductive Forward_step (xcap ycap : option Z) : fwd → fwd → Prop :=
| step_intoX f res c wg ch :
    copy_step (yClosed f) (xClosed f) xcap (on_close (intoY f)) (intoX f) res c →
    signal res (wgCount f) (errCh f) = (wg, ch) →
    Forward_step xcap ycap f (MkFwd c (intoY f) wg ch (main f) (xClosed f) (yClosed f))
| step_intoY f res c wg ch :
    copy_step (xClosed f) (yClosed f) ycap (on_close (intoX f)) (intoY f) res c →
    signal res (wgCount f) (errCh f) = (wg, ch) →
    Forward_step xcap ycap f (MkFwd (intoX f) c wg ch (main f) (xClosed f) (yClosed f))
| step_done f :
    main f = Waiting → wgCount f = 0 →
    Forward_step xcap ycap f (MkFwd (intoX f) (intoY f) (wgCount f) (errCh f) (Returning None)
                      (xClosed f) (yClosed f))
| step_err f e es :
    main f = Waiting → errCh f = e :: es →
    Forward_step xcap ycap f (MkFwd (intoX f) (intoY f) (wgCount f) es (Returning (Some e))
                      (xClosed f) (yClosed f))
| step_closeY f err :
    main f = Returning err → yClosed f = false → ¬ close_held ycap (intoX f) (intoY f) →
    Forward_step xcap ycap f (MkFwd (intoX f) (intoY f) (wgCount f) (errCh f) (main f) (xClosed f) true)
| step_closeX f err :
    main f = Returning err → yClosed f = true → xClosed f = false → ¬ close_held xcap (intoY f) (intoX f) →
    Forward_step xcap ycap f (MkFwd (intoX f) (intoY f) (wgCount f) (errCh f) (main f) true true).

(** Peers that stop reading take steps away and add none: whatever holds in all runs between ends
    that take everything holds here too. *)
Lemma copy_step_unbounded rs ws cap wk c res c' :
  copy_step rs ws cap wk c res c' → copy_step rs ws None wk c res c'.
Proof.
  destruct 1; [eapply copy_move|eapply copy_write_err|eapply copy_write_shut|eapply copy_end
    |eapply copy_read_shut|eapply copy_exit]; try done. right; right. by intros ?.
Qed.

(** The deferred closes between ends that take everything. *)
Lemma copy_exit_None rs ws wk c err :
  st c = Signalled err →
  copy_step rs ws None wk c None (MkCopier (src c) (on_close c) (dst c) (Exited err) true true).
Proof. intros H. apply copy_exit; [done|]. right; right. by intros ?. Qed.

Lemma Forward_step_unbounded xcap ycap f f' :
  Forward_step xcap ycap f f' → Forward_step None None f f'.
Proof.
  destruct 1 as [f res c wg ch Hc Hs|f res c wg ch Hc Hs|f Hm H0|f e es Hm He|f err Hm Hy Hw|f err Hm Hy Hx Hw].
  - eapply step_intoX; [by eapply copy_step_unbounded|done].
  - eapply step_intoY; [by eapply copy_step_unbounded|done].
  - by apply step_done.
  - by eapply step_err.
  - eapply step_closeY; [done|done|]. intros [?|[_ []]]. by destruct Hw; left.
  - eapply step_closeX; [done|done|done|]. intros [?|[_ []]]. by destruct Hw; left.
Qed.

(** ** What a copy has done *)

Definition copy_result (c : copier) : option (option error) :=
  match st c with Copying => None | Signalled e | Exited e => Some e end.

(** A copy that started from [r] and [w]: the destination holds a prefix of what there
    was to copy, and nothing is lost while it copies. *)
Definition copies (r : source) (w : sink) (c : copier) : Prop :=
  taken (dst c) `prefix_of` taken w ++ avail r ∧
  fin (src c) = fin r ∧
  (st c = Copying → taken (dst c) ++ avail (src c) = taken w ++ avail r).

(** All of it was copied, up to the source's EOF. *)
Definition copied_all (r : source) (w : sink) (c : copier) : Prop :=
  taken (dst c) = taken w ++ avail r ∧ fin r = Some EOF.

Lemma sink_write_taken s p s' n err :
  sink_write s p = (s', (n, err)) →
  (err = None → taken s' = taken s ++ p) ∧ taken s' `prefix_of` taken s ++ p.
Proof.
  unfold sink_write. destruct (quota s) as [[k e]|]; [case_decide|]; intros [=]; subst; cbn.
  - done.
  - split; [done|]. apply prefix_app. apply prefix_take.
  - done.
Qed.

Lemma sink_write_grows s p s' n err : sink_write s p = (s', (n, err)) → len (taken s) ≤ len (taken s').
Proof.
  unfold sink_write. destruct (quota s) as [[k e]|]; [case_decide|]; intros [= <- _ _]; cbn; rewrite len_app;
    match goal with |- context [len ?x + len ?y] => pose proof (len_nonneg y) end; lia.
Qed.

Lemma copy_step_copies {cap wk} rs ws r w c res c' :
  copies r w c → copy_step rs ws cap wk c res c' → copies r w c'.
Proof.
  intros (Hp & Hf & Hc) Hs.
  inversion Hs as [c0 k out n Hst Hw Hk Hro Hwr|c0 k out n e Hst Hw Hk Hro Hwr
    |c0 k Hst Hw Hk|c0 e Hst Ha Hfin|c0 e Hst Hr Hi|c0 e Hst]; subst;
    (split; [|split]; cbn; [|done|try done]); try done.
  - rewrite <- (Hc Hst). apply sink_write_taken in Hwr as [-> _]; [|done].
    rewrite <- (take_drop (Z.to_nat k) (avail (src c))) at 2. rewrite app_assoc.
    by apply prefix_app_r.
  - intros _. rewrite <- (Hc Hst). apply sink_write_taken in Hwr as [-> _]; [|done].
    by rewrite <- app_assoc, take_drop.
  - rewrite <- (Hc Hst). apply sink_write_taken in Hwr as [_ Hpre].
    rewrite <- (take_drop (Z.to_nat k) (avail (src c))). rewrite app_assoc.
    by apply prefix_app_r.
Qed.

(** While no end is closed, a copy that reports success copied everything. *)
Lemma copy_step_clean {cap wk} r w c c' :
  copies r w c → copy_step false false cap wk c (Some None) c' → copied_all r w c'.
Proof.
  intros (Hp & Hf & Hc) Hs. inversion Hs as [| | |c0 e Hst Ha Hfin| |]; subst; try done.
  split; cbn; [rewrite <- (Hc Hst), Ha; by rewrite app_nil_r|].
  subst err. rewrite <- Hf, Hfin. by case_decide; subst.
Qed.

(** A step either keeps the copy running, records its result, or runs its closes. *)
Lemma copy_step_result {cap wk} rs ws c res c' :
  copy_step rs ws cap wk c res c' →
  (res = None ∧ copy_result c' = copy_result c) ∨
  (copy_result c = None ∧ ∃ e, res = Some e ∧ copy_result c' = Some e).
Proof.
  unfold copy_result. inversion 1; subst; cbn;
    repeat match goal with H : st _ = _ |- _ => rewrite H; clear H end; eauto.
Qed.

Lemma copy_step_done {cap wk} rs ws r w c res c' :
  copied_all r w c → copy_result c ≠ None → copy_step rs ws cap wk c res c' → copied_all r w c'.
Proof.
  unfold copy_result. intros Hd Hr. inversion 1; subst;
    repeat match goal with H : st _ = _ |- _ => rewrite H in Hr; clear H end; done.
Qed.

(** ** The invariant of a forwarding session *)

Section session.
Context (xin yin : source) (xi yi : closing) (xout yout : sink).

Definition clean (c : copier) : Z := if decide (copy_result c = Some None) then 1 else 0.

Definition reported (f : fwd) (e : error) : Prop :=
  copy_result (intoX f) = Some (Some e) ∨ copy_result (intoY f) = Some (Some e).

Definition caller_inv (f : fwd) : Prop :=
  match main f with
  | Waiting =>
      xClosed f = false ∧ yClosed f = false ∧ (∀ e, reported f e → e ∈ errCh f) ∧
      (copy_result (intoX f) = Some None → copied_all yin xout (intoX f)) ∧
      (copy_result (intoY f) = Some None → copied_all xin yout (intoY f))
  | Returning None =>
      copy_result (intoX f) = Some None ∧ copied_all yin xout (intoX f) ∧
      copy_result (intoY f) = Some None ∧ copied_all xin yout (intoY f)
  | Returning (Some e) => reported f e
  end.

Definition fwd_inv (f : fwd) : Prop :=
  copies yin xout (intoX f) ∧ copies xin yout (intoY f) ∧
  wgCount f = 2 - clean (intoX f) - clean (intoY f) ∧
  (∀ e, e ∈ errCh f → reported f e) ∧ caller_inv f.

Lemma Forward_init_inv : fwd_inv (Forward_init xin yin xi yi xout yout).
Proof.
  unfold fwd_inv, caller_inv, reported, copies; cbn.
  split_and!; try done; try (by apply prefix_app_r); try set_solver.
Qed.

(** What one copy step does to the counter, the channel and the reports. *)
Lemma signal_spec {cap wk} rs ws c res c' wg ch wg' ch' :
  copy_step rs ws cap wk c res c' → signal res wg ch = (wg', ch') →
  wg' = wg + clean c - clean c' ∧
  (∀ e, e ∈ ch' ↔ e ∈ ch ∨ (copy_result c = None ∧ copy_result c' = Some (Some e))) ∧
  (∀ e, copy_result c = Some e → copy_result c' = Some e).
Proof.
  intros Hs Hsig. unfold clean.
  apply copy_step_result in Hs as [[-> Heq]|(Hn & e & -> & He)].
  - injection Hsig as <- <-. rewrite Heq. split_and!; [lia| |done].
    intros e. split; [by left|]. intros [?|[? ?]]; [done|congruence].
  - rewrite Hn, He. destruct e as [e|]; injection Hsig as <- <-; cbn;
      (split_and!; [repeat case_decide; simplify_eq; lia| |done]); intros e'; [rewrite elem_of_app, list_elem_of_singleton|];
      naive_solver.
Qed.

Ltac inv_fields := unfold fwd_inv, caller_inv, reported in *; cbn in *.

Lemma step_intoX_inv {cap wk} f res c wg ch :
  fwd_inv f → copy_step (yClosed f) (xClosed f) cap wk (intoX f) res c →
  signal res (wgCount f) (errCh f) = (wg, ch) →
  fwd_inv (MkFwd c (intoY f) wg ch (main f) (xClosed f) (yClosed f)).
Proof.
  intros (HX & HY & Hwg & Hch & Hm) Hs Hsig.
  pose proof (signal_spec _ _ _ _ _ _ _ _ _ Hs Hsig) as (Hwg' & Hch' & Hres).
  pose proof (copy_step_copies _ _ _ _ _ _ _ HX Hs) as HX'.
  inv_fields. split_and!; [done|done|lia| |].
  { intros e He. apply Hch' in He as [He|[_ He]]; [|by left].
    destruct (Hch _ He) as [?|?]; [left; by apply Hres|by right]. }
  destruct (main f) as [|[e|]].
  - destruct Hm as (Hx & Hy & Hrep & HcX & HcY). rewrite Hx, Hy in Hs.
    split_and!; [done|done| | |done].
    + intros e [He|He]; apply Hch'; [|left; apply Hrep; by right].
      destruct (copy_step_result _ _ _ _ _ Hs) as [[_ Heq]|(Hn & _)];
        [left; apply Hrep; left; congruence|by right].
    + intros Hc. destruct (copy_step_result _ _ _ _ _ Hs) as [[_ Heq]|(Hn & e & -> & He)].
      * refine (copy_step_done _ _ _ _ _ _ _ _ _ Hs); [apply HcX|]; congruence.
      * rewrite Hc in He. injection He as <-. exact (copy_step_clean _ _ _ _ HX Hs).
  - destruct Hm as [?|?]; [left; by apply Hres|by right].
  - destruct Hm as (H1 & H2 & H3 & H4). split_and!; [by apply Hres| |done|done].
    refine (copy_step_done _ _ _ _ _ _ _ _ _ Hs); [done|congruence].
Qed.

Lemma step_intoY_inv {cap wk} f res c wg ch :
  fwd_inv f → copy_step (xClosed f) (yClosed f) cap wk (intoY f) res c →
  signal res (wgCount f) (errCh f) = (wg, ch) →
  fwd_inv (MkFwd (intoX f) c wg ch (main f) (xClosed f) (yClosed f)).
Proof.
  intros (HX & HY & Hwg & Hch & Hm) Hs Hsig.
  pose proof (signal_spec _ _ _ _ _ _ _ _ _ Hs Hsig) as (Hwg' & Hch' & Hres).
  pose proof (copy_step_copies _ _ _ _ _ _ _ HY Hs) as HY'.
  inv_fields. split_and!; [done|done|lia| |].
  { intros e He. apply Hch' in He as [He|[_ He]]; [|by right].
    destruct (Hch _ He) as [?|?]; [by left|right; by apply Hres]. }
  destruct (main f) as [|[e|]].
  - destruct Hm as (Hx & Hy & Hrep & HcX & HcY). rewrite Hx, Hy in Hs.
    split_and!; [done|done| |done|].
    + intros e [He|He]; apply Hch'; [left; apply Hrep; by left|].
      destruct (copy_step_result _ _ _ _ _ Hs) as [[_ Heq]|(Hn & _)];
        [left; apply Hrep; right; congruence|by right].
    + intros Hc. destruct (copy_step_result _ _ _ _ _ Hs) as [[_ Heq]|(Hn & e & -> & He)].
      * refine (copy_step_done _ _ _ _ _ _ _ _ _ Hs); [apply HcY|]; congruence.
      * rewrite Hc in He. injection He as <-. exact (copy_step_clean _ _ _ _ HY Hs).
  - destruct Hm as [?|?]; [by left|right; by apply Hres].
  - destruct Hm as (H1 & H2 & H3 & H4). split_and!; [done|done|by apply Hres|].
    refine (copy_step_done _ _ _ _ _ _ _ _ _ Hs); [done|congruence].
Qed.

Lemma wg_zero_clean f :
  wgCount f = 2 - clean (intoX f) - clean (intoY f) → wgCount f = 0 →
  copy_result (intoX f) = Some None ∧ copy_result (intoY f) = Some None.
Proof. unfold clean. intros Hwg H0. do 2 case_decide; done || lia. Qed.

Lemma Forward_step_inv {xcap ycap} : invariant (Forward_step xcap ycap) fwd_inv.
Proof.
  intros f f' Hinv Hs. destruct Hs as [f res c wg ch Hc Hsig|f res c wg ch Hc Hsig
    |f Hm Hw|f e es Hm He|f err Hm Hy Hw|f err Hm Hy Hx Hw].
  - by eapply step_intoX_inv.
  - by eapply step_intoY_inv.
  - destruct Hinv as (HX & HY & Hwg & Hch & Hcall). inv_fields. rewrite Hm in Hcall.
    destruct Hcall as (_ & _ & _ & HcX & HcY).
    destruct (wg_zero_clean _ Hwg Hw) as [H1 H2]. split_and!; auto.
  - destruct Hinv as (HX & HY & Hwg & Hch & Hcall). inv_fields. rewrite He in Hch.
    split_and!; try done; [|apply Hch]; set_solver.
  - destruct Hinv as (HX & HY & Hwg & Hch & Hcall). inv_fields. rewrite Hm in Hcall |- *.
    split_and!; done.
  - destruct Hinv as (HX & HY & Hwg & Hch & Hcall). inv_fields. rewrite Hm in Hcall |- *.
    split_and!; done.
Qed.

Lemma Forward_reach_inv {xcap ycap} f : rtc (Forward_step xcap ycap) (Forward_init xin yin xi yi xout yout) f → fwd_inv f.
Proof. intros H. eapply invariant_rtc; [exact (Forward_step_inv (xcap := xcap) (ycap := ycap))|exact H|apply Forward_init_inv]. Qed.

End session.

(** ** Progress *)

Definition copy_size (c : copier) : nat :=
  (length (avail (src c)) + match st c with Copying => 2 | Signalled _ => 1 | Exited _ => 0 end)%nat.

Definition fwd_size (f : fwd) : nat :=
  (copy_size (intoX f) + copy_size (intoY f) +
   (if main f is Waiting then 1 else 0) +
   (if xClosed f then 0 else 1) + (if yClosed f then 0 else 1))%nat.

Lemma copy_step_size {cap wk} rs ws c res c' :
  copy_step rs ws cap wk c res c' → (copy_size c' < copy_size c)%nat.
Proof.
  unfold copy_size. inversion 1; subst; cbn;
    repeat match goal with H : st _ = _ |- _ => rewrite H; clear H end;
    rewrite ?length_drop; unfold len in *; lia.
Qed.

Lemma Forward_step_size {xcap ycap} f f' : Forward_step xcap ycap f f' → (fwd_size f' < fwd_size f)%nat.
Proof.
  unfold fwd_size. destruct 1; cbn;
    repeat match goal with
    | H : copy_step _ _ _ _ _ _ _ |- _ => apply copy_step_size in H
    | H : main _ = _ |- _ => rewrite H
    | H : xClosed _ = _ |- _ => rewrite H
    | H : yClosed _ = _ |- _ => rewrite H
    end; lia.
Qed.

Lemma Forward_steps_size {xcap ycap} n f f' :
  nsteps (Forward_step xcap ycap) n f f' → (n + fwd_size f' ≤ fwd_size f)%nat.
Proof. induction 1 as [f|n f f1 f2 Hs _ IH]; [lia|]. apply Forward_step_size in Hs. lia. Qed.

(** The goroutine ended, or it is left in a [Read] that closing does not end. *)
Definition released (c : copier) : Prop :=
  (∃ err, st c = Exited err) ∨ (starved c ∧ on_close c = Leaves).

(** An end that is not full takes one byte, or fails. *)
Lemma write_one out bs cap :
  0 < 1 ≤ len bs → ¬ full cap out →
  ∃ out' n err, sink_write out (take (Z.to_nat 1) bs) = (out', (n, err)) ∧ room cap out n ∧ room cap out 1.
Proof.
  intros Hb Hf. assert (room cap out 1) as Hr by (unfold room, full in *; destruct cap; [lia|done]).
  destruct (sink_write out _) as [out' [n err]] eqn:E. exists out', n, err. split_and!; [done| |done].
  assert (n ≤ 1) as Hn.
  { unfold sink_write in E. rewrite len_take in E by lia. destruct (quota out) as [[q er]|]; [case_decide|];
      injection E as _ <- _; lia. }
  unfold room in *. destruct cap; [lia|done].
Qed.

(** The goroutine has its result, and waits in the [CloseWrite] of an end that takes nothing more. *)
Definition close_write_waits (cap : option Z) (wk : closing) (c : copier) : Prop :=
  copy_result c ≠ None ∧ wk ≠ Interrupts ∧ full cap (dst c).

Lemma copy_progress rs ws cap wk c :
  (∃ err, st c = Exited err) ∨ (starved c ∧ (rs = false ∨ on_close c = Leaves)) ∨
  (ws = false ∧ (clogged cap c ∨ close_write_waits cap wk c)) ∨
  ∃ res c', copy_step rs ws cap wk c res c'.
Proof.
  destruct (st c) as [|err|err] eqn:Hst; [| |by left; eexists].
  2: { right; right. destruct ws; [right; do 2 eexists; apply copy_exit with (err := err); auto|].
       destruct (decide (wk = Interrupts ∨ ¬ full cap (dst c))) as [Hx|Hx].
       - right. do 2 eexists. apply copy_exit with (err := err); auto.
       - left. split; [done|right]. unfold close_write_waits, copy_result. rewrite Hst.
         split_and!; [done|by auto|]. destruct (decide (full cap (dst c))); [done|by destruct Hx; right]. }
  destruct (avail (src c)) as [|b bs] eqn:Ha.
  - destruct (fin (src c)) as [e|] eqn:Hf.
    { do 3 right. do 2 eexists. by apply copy_end with (e := e). }
    destruct rs; [|by right; left; split; [|left]].
    destruct (decide (on_close c = Leaves)) as [Hi|Hi]; [by right; left; split; [|right]|].
    do 3 right. exists (Some None). eexists. apply copy_read_shut; auto.
  - right; right. assert (0 < 1 ≤ len (avail (src c))) as Hk by (rewrite Ha; llia).
    destruct ws; [right; do 2 eexists; by apply copy_write_shut with (k := 1)|].
    destruct (decide (full cap (dst c))) as [Hfu|Hfu]; [left; split; [done|left]; split_and!; congruence|].
    right. destruct (write_one (dst c) (avail (src c)) cap Hk Hfu) as (out & n & err & Hw & Hn & Hr).
    destruct err as [e|]; do 2 eexists;
      [eapply copy_write_err with (k := 1)|eapply copy_move with (k := 1)]; first [exact Hw|exact Hn|exact Hr|exact Hk|done].
Qed.

(** A finished session: the call returned, both ends are closed, both goroutines are
    released. *)
Definition finished (f : fwd) : Prop :=
  (∃ err, main f = Returning err) ∧ xClosed f = true ∧ yClosed f = true ∧
  released (intoX f) ∧ released (intoY f).

(** The call waits for a peer: one that stays open and silent, or one that does not read. *)
Definition waits_for_peer (xcap ycap : option Z) (f : fwd) : Prop :=
  main f = Waiting ∧
  (starved (intoX f) ∨ starved (intoY f) ∨ clogged xcap (intoX f) ∨ clogged ycap (intoY f)).

(** The call has its result and hangs in a deferred [Close], which waits for a read, or to send
    its message to a peer that does not read. *)
Definition hangs_in_close (xcap ycap : option Z) (f : fwd) : Prop :=
  (∃ err, main f = Returning err) ∧
  ((yClosed f = false ∧ close_held ycap (intoX f) (intoY f)) ∨
   (yClosed f = true ∧ xClosed f = false ∧ close_held xcap (intoY f) (intoX f))).

Lemma copy_stuck_X {xcap ycap} f :
  (∀ f', ¬ Forward_step xcap ycap f f') →
  released (intoX f) ∨ (yClosed f = false ∧ starved (intoX f)) ∨
  (xClosed f = false ∧ (clogged xcap (intoX f) ∨ close_write_waits xcap (on_close (intoY f)) (intoX f))).
Proof.
  intros Hst. destruct (copy_progress (yClosed f) (xClosed f) xcap (on_close (intoY f)) (intoX f))
    as [?|[[? [?|?]]|[[? [?|?]]|(res & c' & Hs)]]];
    [by left; left|by right; left|by left; right|right; right; by auto..|exfalso].
  destruct (signal res (wgCount f) (errCh f)) as [wg ch] eqn:Hsig.
  eapply Hst, step_intoX; eauto.
Qed.

Lemma copy_stuck_Y {xcap ycap} f :
  (∀ f', ¬ Forward_step xcap ycap f f') →
  released (intoY f) ∨ (xClosed f = false ∧ starved (intoY f)) ∨
  (yClosed f = false ∧ (clogged ycap (intoY f) ∨ close_write_waits ycap (on_close (intoX f)) (intoY f))).
Proof.
  intros Hst. destruct (copy_progress (xClosed f) (yClosed f) ycap (on_close (intoX f)) (intoY f))
    as [?|[[? [?|?]]|[[? [?|?]]|(res & c' & Hs)]]];
    [by left; left|by right; left|by left; right|right; right; by auto..|exfalso].
  destruct (signal res (wgCount f) (errCh f)) as [wg ch] eqn:Hsig.
  eapply Hst, step_intoY; eauto.
Qed.

(** A call that waits with no step left: a copy without a result waits for its peer. *)
Lemma waiting_stuck {xcap ycap} xin yin xout yout f :
  fwd_inv xin yin xout yout f → main f = Waiting → (∀ f', ¬ Forward_step xcap ycap f f') →
  waits_for_peer xcap ycap f.
Proof.
  intros (_ & _ & Hwg & _ & Hc) Hm Hst. unfold caller_inv in Hc. rewrite Hm in Hc.
  destruct Hc as (_ & _ & Hrep & _ & _).
  assert (errCh f = []) as Hch.
  { destruct (errCh f) eqn:He; [done|]. exfalso. eapply Hst, step_err; eauto. }
  assert (wgCount f ≠ 0) as H0 by (intros H0; eapply Hst, step_done; eauto).
  split; [done|].
  assert (∀ c, (∃ err, st c = Exited err) → copy_result c ≠ None) as Hex.
  { intros c [err E]. unfold copy_result. by rewrite E. }
  destruct (copy_stuck_X f Hst) as [[HX|[? _]]|[[_ ?]|[_ [?|[HX _]]]]]; auto; [apply Hex in HX|];
    (destruct (copy_stuck_Y f Hst) as [[HY|[? _]]|[[_ ?]|[_ [?|[HY _]]]]]; auto; [apply Hex in HY|]); exfalso;
    rewrite Hch in Hrep; unfold reported in Hrep; apply H0; rewrite Hwg; unfold clean;
    destruct (copy_result (intoX f)) as [[e|]|]; try done; try (exfalso; specialize (Hrep e); set_solver);
    destruct (copy_result (intoY f)) as [[e|]|]; try done; exfalso; specialize (Hrep e); set_solver.
Qed.

#[export] Instance starved_dec c : Decision (starved c).
Proof.
  unfold starved. destruct (st c), (avail (src c)), (fin (src c));
    (by left) || (right; by intros (? & ? & ?)).
Defined.

#[export] Instance close_held_dec cap r w : Decision (close_held cap r w).
Proof. unfold close_held, close_waits. apply _. Defined.

Lemma returning_stuck {xcap ycap} f err :
  main f = Returning err → (∀ f', ¬ Forward_step xcap ycap f f') →
  finished f ∨ hangs_in_close xcap ycap f.
Proof.
  intros Hm Hst. destruct (yClosed f) eqn:Hy.
  2: { right. split; [by eexists|left]. split; [done|].
       destruct (decide (close_held ycap (intoX f) (intoY f))) as [|Hw]; [done|exfalso].
       eapply Hst, step_closeY; eauto. }
  destruct (xClosed f) eqn:Hx.
  2: { right. split; [by eexists|right]. split_and!; [done|done|].
       destruct (decide (close_held xcap (intoY f) (intoX f))) as [|Hw]; [done|exfalso].
       eapply Hst, step_closeX; eauto. }
  destruct (copy_stuck_X f Hst) as [?|[[? _]|[? _]]]; [|congruence..].
  destruct (copy_stuck_Y f Hst) as [?|[[? _]|[? _]]]; [|congruence..].
  left. split_and!; eauto.
Qed.

(** Between ends that take everything only reads wait. *)
Lemma free_stuck f :
  (∀ f', ¬ Forward_step None None f f') →
  (released (intoX f) ∨ starved (intoX f)) ∧
  ∀ xin yin xout yout, fwd_inv xin yin xout yout f →
    match main f with
    | Waiting => starved (intoX f) ∨ starved (intoY f)
    | Returning _ => finished f ∨ close_waits (intoX f) ∨ close_waits (intoY f)
    end.
Proof.
  intros Hst. split.
  - destruct (copy_stuck_X f Hst) as [?|[[_ ?]|[_ [(_ & _ & [])|(_ & _ & [])]]]]; auto.
  - intros xin yin xout yout HI. destruct (main f) as [|err] eqn:Hm.
    + destruct (waiting_stuck _ _ _ _ _ HI Hm Hst) as [_ [?|[?|[(_ & _ & [])|(_ & _ & [])]]]]; auto.
    + destruct (returning_stuck f err Hm Hst) as [?|[_ [[_ H]|(_ & _ & H)]]]; [by left|..];
        rewrite close_held_None in H; auto.
Qed.

(** ** Theorems *)

(** A session in which [x] sends two bytes and both ends then reach EOF. *)
Definition demo_in : source := MkSource ["a"%char; "b"%char] (Some EOF).
Definition demo_empty : source := MkSource [] (Some EOF).
Definition demo_out : sink := MkSink [] None.
Definition demo_bad : sink := MkSink [] (Some (1, ErrorString "broken pipe")).

Lemma demo_run : ∃ f,
  rtc (Forward_step None None) (Forward_init demo_in demo_empty Interrupts Interrupts demo_out demo_out) f ∧
  main f = Returning None ∧ taken (dst (intoY f)) = ["a"%char; "b"%char].
Proof.
  eexists. split; [|split].
  - eapply rtc_l; [eapply step_intoX; [by apply copy_end with (e := EOF)|done]|].
    eapply rtc_l; [eapply step_intoY; [by eapply copy_move with (k := 2)|done]|].
    eapply rtc_l; [eapply step_intoY; [by apply copy_end with (e := EOF)|done]|].
    eapply rtc_l; [by apply step_done|apply rtc_refl].
  - done.
  - done.
Defined.

(** The same session into an end that fails after one byte. *)
Lemma demo_fail : ∃ f,
  rtc (Forward_step None None) (Forward_init demo_in demo_empty Interrupts Interrupts demo_out demo_bad) f ∧
  main f = Returning (Some (ErrorString "broken pipe")).
Proof.
  eexists. split.
  - eapply rtc_l; [eapply step_intoY; [by eapply copy_write_err with (k := 2)|done]|].
    eapply rtc_l; [by eapply step_err|apply rtc_refl].
  - done.
Defined.

(** Forwarding never invents, reorders or duplicates bytes: at every point of a
    session, whatever each end has received is a prefix of what the other end sent. *)
Theorem forward_integrity xcap ycap xin yin xi yi xout yout f :
  rtc (Forward_step xcap ycap) (Forward_init xin yin xi yi xout yout) f →
  taken (dst (intoX f)) `prefix_of` taken xout ++ avail yin ∧
  taken (dst (intoY f)) `prefix_of` taken yout ++ avail xin.
Proof. intros H. by apply Forward_reach_inv in H as ((? & _) & (? & _) & _). Qed.

Lemma forward_integrity_witness : ∃ f,
  taken (dst (intoY f)) `prefix_of` ["a"%char; "b"%char] ∧ main f = Returning None.
Proof.
  destruct demo_run as (f & Hr & Hm & _). exists f.
  split; [exact (proj2 (forward_integrity _ _ _ _ _ _ _ _ _ Hr))|exact Hm].
Defined.

(** C7: [Forward] returns nil only when both directions are complete: each source
    reached EOF and every byte it delivered was written to the other end. *)
Theorem forward_nil_complete xcap ycap xin yin xi yi xout yout f :
  rtc (Forward_step xcap ycap) (Forward_init xin yin xi yi xout yout) f → main f = Returning None →
  taken (dst (intoX f)) = taken xout ++ avail yin ∧ fin yin = Some EOF ∧
  taken (dst (intoY f)) = taken yout ++ avail xin ∧ fin xin = Some EOF.
Proof.
  intros H Hm. apply Forward_reach_inv in H as (_ & _ & _ & _ & Hc).
  unfold caller_inv in Hc. rewrite Hm in Hc. destruct Hc as (_ & [? ?] & _ & [? ?]). done.
Qed.

Lemma forward_nil_complete_witness : ∃ f,
  main f = Returning None ∧ taken (dst (intoY f)) = ["a"%char; "b"%char].
Proof.
  destruct demo_run as (f & Hr & Hm & _). exists f. split; [exact Hm|].
  exact (proj1 (proj2 (proj2 (forward_nil_complete _ _ _ _ _ _ _ _ _ Hr Hm)))).
Defined.

(** The error [Forward] returns is the error of one of its two copies; the counter
    its waiting goroutine waits for then never reaches zero, so that goroutine stays. *)
Theorem forward_error_origin xcap ycap xin yin xi yi xout yout f e :
  rtc (Forward_step xcap ycap) (Forward_init xin yin xi yi xout yout) f → main f = Returning (Some e) →
  reported f e ∧ ∀ f', rtc (Forward_step xcap ycap) f f' → main f' = Returning (Some e) ∧ 0 < wgCount f'.
Proof.
  intros H Hm. split.
  { apply Forward_reach_inv in H as (_ & _ & _ & _ & Hc). unfold caller_inv in Hc.
    by rewrite Hm in Hc. }
  intros f' H'. assert (main f' = Returning (Some e)) as Hm'.
  { apply (invariant_rtc (Forward_step xcap ycap) (λ f, main f = Returning (Some e)) f f'); [|done|done].
    intros g g' Hg Hs. destruct Hs; cbn in *; congruence. }
  split; [done|].
  assert (rtc (Forward_step xcap ycap) (Forward_init xin yin xi yi xout yout) f') as Hr by (by etrans).
  apply Forward_reach_inv in Hr as (_ & _ & Hwg & _ & Hc).
  unfold caller_inv in Hc. rewrite Hm' in Hc. rewrite Hwg. unfold clean.
  destruct Hc as [Hc|Hc]; rewrite Hc; repeat case_decide; simplify_eq; lia.
Qed.

Lemma forward_error_origin_witness : ∃ f,
  reported f (ErrorString "broken pipe") ∧ 0 < wgCount f.
Proof.
  destruct demo_fail as (f & Hr & Hm). exists f.
  destruct (forward_error_origin _ _ _ _ _ _ _ _ _ _ Hr Hm) as [H1 H2].
  split; [exact H1|exact (proj2 (H2 f (rtc_refl _ f)))].
Defined.

(** C10: a session between ends that deliver finitely many bytes comes to rest: whatever the
    schedule, it takes at most as many steps as they deliver bytes, and seven more, and when none is
    left either the call returned with both ends closed and its goroutines released, or it waits for
    a peer (one that stays open and silent, or one that stopped reading), or it has its result and
    hangs in a [Close] that waits for such a peer. *)
Theorem forward_terminates xcap ycap xin yin xi yi xout yout f :
  rtc (Forward_step xcap ycap) (Forward_init xin yin xi yi xout yout) f →
  (∀ n, nsteps (Forward_step xcap ycap) n (Forward_init xin yin xi yi xout yout) f →
     (n ≤ length (avail xin) + length (avail yin) + 7)%nat) ∧
  Acc (flip (Forward_step xcap ycap)) f ∧
  ((∀ f', ¬ Forward_step xcap ycap f f') →
   finished f ∨ waits_for_peer xcap ycap f ∨ hangs_in_close xcap ycap f).
Proof.
  intros H. apply Forward_reach_inv in H. split_and!.
  - intros n Hn. apply Forward_steps_size in Hn.
    assert (fwd_size (Forward_init xin yin xi yi xout yout) = length (avail xin) + length (avail yin) + 7)%nat as E
      by (unfold fwd_size, copy_size; cbn; lia). lia.
  - apply (wf_projected lt fwd_size); [|apply lt_wf]. intros g g' Hs. by eapply Forward_step_size.
  - intros Hst. destruct (main f) as [|err] eqn:Hm.
    + right; left. by eapply waiting_stuck.
    + destruct (returning_stuck f err Hm Hst) as [?|?]; auto.
Qed.

(** A peer that does not read, behind a socket: the copy waits in its [Write], and the call with
    it. *)
Definition demo_unread : fwd := Forward_init demo_in demo_empty Interrupts Interrupts demo_out demo_out.

Lemma forward_terminates_witness :
  Acc (flip (Forward_step None (Some 1))) demo_unread ∧
  ∃ f, rtc (Forward_step None (Some 1)) demo_unread f ∧ waits_for_peer None (Some 1) f.
Proof.
  split; [exact (proj1 (proj2 (forward_terminates None (Some 1) _ _ _ _ _ _ _ (rtc_refl _ _))))|].
  assert (∃ f, rtc (Forward_step None (Some 1)) demo_unread f ∧ main f = Waiting ∧
    clogged (Some 1) (intoY f)) as (f & Hr & Hm & Hc).
  { eexists. split.
    - eapply rtc_l; [eapply step_intoY; [by eapply copy_move with (k := 1)|done]|apply rtc_refl].
    - done. }
  exists f. split; [exact Hr|]. split; [exact Hm|]. auto.
Defined.

Lemma on_close_step {xcap ycap} f f' :
  Forward_step xcap ycap f f' →
  on_close (intoX f') = on_close (intoX f) ∧ on_close (intoY f') = on_close (intoY f).
Proof.
  destruct 1 as [f res c wg ch Hc Hs|f res c wg ch Hc Hs| | | |]; cbn; try done;
    (split; [|done]) || (split; [done|]); by destruct Hc.
Qed.

(** Two ends that are not qemu connections, and streams only where the peer reads on: the call
    always gets past its closes. *)
Theorem forward_closes_others xcap ycap xin yin xi yi xout yout f :
  rtc (Forward_step xcap ycap) (Forward_init xin yin xi yi xout yout) f →
  xi ≠ Waits → yi ≠ Waits → (xi = Leaves → xcap = None) → (yi = Leaves → ycap = None) →
  ¬ hangs_in_close xcap ycap f.
Proof.
  intros H Hx Hy Hxc Hyc.
  assert (on_close (intoX f) = yi ∧ on_close (intoY f) = xi) as [E1 E2].
  { apply (invariant_rtc (Forward_step xcap ycap)
      (λ f, on_close (intoX f) = yi ∧ on_close (intoY f) = xi)
      (Forward_init xin yin xi yi xout yout)); [|done|done].
    intros g g' [E1 E2] Hs. destruct (on_close_step _ _ Hs) as [-> ->]. done. }
  unfold hangs_in_close, close_held, close_waits. rewrite E1, E2.
  intros [_ [[_ [[? _]|[Hi Hf]]]|(_ & _ & [[? _]|[Hi Hf]])]]; try done.
  - rewrite Hyc in Hf; [done|by destruct yi].
  - rewrite Hxc in Hf; [done|by destruct xi].
Qed.

(** While [Close] of an end waits for its peer it goes on waiting. *)
Lemma close_held_stays {xcap ycap} f f' :
  Forward_step xcap ycap f f' → yClosed f = false →
  close_held ycap (intoX f) (intoY f) → close_held ycap (intoX f') (intoY f') ∧ yClosed f' = false.
Proof.
  intros Hs Hy Hh.
  destruct Hs as [g res c wg ch Hc Hsig|g res c wg ch Hc Hsig|g Hm'|g e es Hm'|g err' Hm' Hy' Hn
    |g err' Hm' Hy']; cbn in *; try congruence; (split; [|done]); try done.
  - destruct Hh as [[Hk (Hst & Ha & Hf)]|[Hk Hf]].
    + exfalso. rewrite Hy in Hc. destruct Hc; cbn in *; rewrite ?Ha, ?Hf in *; try congruence; llia.
    + right. split; [|done]. by destruct Hc.
  - destruct Hh as [Hh|[Hk Hf]]; [by left|right]. split; [done|].
    destruct Hc as [c k out n _ _ _ _ Hw|c k out n e _ _ _ _ Hw| | | |]; cbn; try done;
      apply sink_write_grows in Hw; unfold full in *; destruct ycap; [lia|done|lia|done].
Qed.

(** A silent qemu peer holds up the other end, and so does a peer that does not read: when the copy
    towards [y] fails while [Close] of [y] has to wait, [Forward] has its error but never returns,
    and never closes [x]. *)
Theorem forward_hangs_on_qemu xcap ycap f :
  hangs_in_close xcap ycap f → yClosed f = false → ∀ f', rtc (Forward_step xcap ycap) f f' →
  xClosed f' = xClosed f ∧ yClosed f' = false ∧ hangs_in_close xcap ycap f'.
Proof.
  intros Hh Hy f' Hs.
  apply (invariant_rtc (Forward_step xcap ycap)
    (λ g, xClosed g = xClosed f ∧ yClosed g = false ∧ hangs_in_close xcap ycap g) f f'); [|done|done].
  clear. intros g g' (Hx & Hy & (err & Hm) & [[_ Hw]|(? & _)]) Hs; [|congruence].
  destruct (close_held_stays _ _ Hs Hy Hw) as [Hw' Hy'].
  assert (xClosed g' = xClosed g ∧ main g' = Returning err) as [-> Hm'].
  { destruct Hs; cbn in *; try congruence; by split. }
  split_and!; [done|done|]. split; [by eexists|by left].
Qed.

(** A session between a socket that is reset and a silent qemu peer. *)
Definition demo_hang : fwd :=
  let c := startCopy demo_out (MkSource [] None) Waits in
  MkFwd c (MkCopier (MkSource [] (Some errUseClosed)) Interrupts demo_out
             (Signalled (Some errUseClosed)) false false)
    2 [] (Returning (Some errUseClosed)) false false.

Lemma demo_hang_run :
  rtc (Forward_step None None) (Forward_init (MkSource [] (Some errUseClosed)) (MkSource [] None)
    Interrupts Waits demo_out demo_out) demo_hang.
Proof.
  eapply rtc_l; [eapply step_intoY; [by apply copy_end with (e := errUseClosed)|done]|].
  eapply rtc_l; [by eapply step_err|apply rtc_refl].
Qed.

Lemma forward_hangs_on_qemu_witness :
  hangs_in_close None None demo_hang ∧
  ∀ f', rtc (Forward_step None None) demo_hang f' → xClosed f' = false.
Proof.
  assert (hangs_in_close None None demo_hang) as Hh by (split; [by eexists|left; split; [done|by left]]).
  split; [exact Hh|]. intros f' Hf'. exact (proj1 (forward_hangs_on_qemu _ _ _ Hh eq_refl f' Hf')).
Defined.

Lemma forward_closes_others_witness : ∃ f,
  rtc (Forward_step None None) (Forward_init demo_in demo_empty Interrupts Interrupts demo_out demo_out) f ∧
  ¬ hangs_in_close None None f.
Proof.
  destruct demo_run as (f & Hr & _). exists f. split; [exact Hr|].
  exact (forward_closes_others _ _ _ _ _ _ _ _ _ Hr ltac:(discriminate) ltac:(discriminate)
    (λ _, eq_refl) (λ _, eq_refl)).
Defined.
