(* ===== verification/StreamForwarder.v ===== *)
(** * Forwarding between a message stream and a connection: src/waterfall/golang/forward/stream.go

    [StreamForwarder.Forward] is [Forward] with the stream as [x] and the connection as [y].
    [Forward] sees the bytes of the stream; this file adds the messages: every write of the copy
    into the stream is one message, and every close of its writing half sends the close message.
    Two forwarders on the two ends of a stream make a tunnel between their connections. *)

From S2P Require Import Prelude GoIO Proto Stream Forward.

Local Open Scope Z_scope.

(** Here every end takes what it is given, now or later: a write that waits for its peer is one whose
    step is not taken yet, and by [Forward_step_unbounded] every run with peers that stop reading is
    among these. *)
Notation forward_step := (Forward_step None None).

(** What [Read] of the stream's [ReadWriteCloser] delivers when the messages [ms] come in, and
    then the stream ends with [e], or stays open. *)
Definition stream_source (ms : list ForwardMessage) (e : option error) : source :=
  MkSource (payloads ms) (stream_end ms e).

(** A forwarder: the state of its [Forward], what it sent on the stream, and the fields of the
    connection's closing. *)
Record StreamForwarder := MkSF { run : fwd; msgs : list ForwardMessage }.

(** [NewStreamForwarder(s, conn)] and the start of [Forward()]: [ms] and [e] are what the stream
    will deliver, [conn] what the connection will, [ci] how it closes and [cout] what it takes. *)
Definition NewStreamForwarder (ms : list ForwardMessage) (e : option error) (conn : source)
    (ci : closing) (cout : sink) : StreamForwarder :=
  MkSF (Forward_init (stream_source ms e) conn Leaves ci (MkSink [] None) cout) [].

(** The messages of one step: [SendMsg] of the bytes the copy wrote into the stream, and of the
    close message for the copy's [CloseWrite] and for [Close]. *)
Definition emits (f f' : fwd) : list ForwardMessage :=
  let old := taken (dst (intoX f)) in
  let new := taken (dst (intoX f')) in
  (if decide (length old < length new)%nat then [SetBytes BuildMsg (drop (length old) new)] else []) ++
  (if writeClosed (intoX f') && negb (writeClosed (intoX f)) then [CloseMsg] else []) ++
  (if xClosed f' && negb (xClosed f) then [CloseMsg] else []).

(** [stream.Close()] and [conn.Close()] of [Stop()], from another goroutine. *)
Definition close_stream (f : fwd) : fwd :=
  MkFwd (intoX f) (intoY f) (wgCount f) (errCh f) (main f) true (yClosed f).
Definition close_conn (f : fwd) : fwd :=
  MkFwd (intoX f) (intoY f) (wgCount f) (errCh f) (main f) (xClosed f) true.

(** A step of [Forward()]. *)
Definition sf_step (s s' : StreamForwarder) : Prop :=
  forward_step (run s) (run s') ∧ msgs s' = msgs s ++ emits (run s) (run s').

(** A step of [Stop()]; [Close] sends its message even when the stream was closed before. *)
Inductive stop_step : StreamForwarder → StreamForwarder → Prop :=
| stop_stream s : stop_step s (MkSF (close_stream (run s)) (msgs s ++ [CloseMsg]))
| stop_conn s : ¬ close_waits (intoX (run s)) → stop_step s (MkSF (close_conn (run s)) (msgs s)).

Definition any_step (s s' : StreamForwarder) : Prop := sf_step s s' ∨ stop_step s s'.

(** ** The messages carry the bytes *)

Lemma payloads_data bs ms :
  payloads ((SetBytes BuildMsg <$> bs) ++ ms : list ForwardMessage) = concat bs ++ payloads ms.
Proof.
  induction bs as [|b bs IH]; [done|].
  change (b ++ payloads ((SetBytes BuildMsg <$> bs) ++ ms) = (b ++ concat bs) ++ payloads ms).
  by rewrite IH, app_assoc.
Qed.

Lemma stream_end_data bs (ms : list ForwardMessage) e :
  stream_end ((SetBytes BuildMsg <$> bs) ++ ms) e = stream_end ms e.
Proof. induction bs as [|b bs IH]; [done|exact IH]. Qed.

(** No more bytes will be written into the stream. *)
Definition quiet (f : fwd) : Prop := st (intoX f) ≠ Copying ∨ xClosed f = true.

(** Everything sent: the bytes the copy has written, then close messages only; after a close no
    bytes are written. *)
Definition carries (s : StreamForwarder) : Prop :=
  ∃ bs n, msgs s = (SetBytes BuildMsg <$> bs) ++ replicate n CloseMsg ∧
    concat bs = taken (dst (intoX (run s))) ∧ (n ≠ 0%nat → quiet (run s)).

Lemma replicate_snoc {A} n (x : A) : replicate n x ++ [x] = replicate (S n) x.
Proof. change [x] with (replicate 1 x). rewrite <- replicate_add. f_equal. lia. Qed.

(** One step of a copy: it writes while it copies and its end is open, and then stops. *)
Lemma copy_step_cases {cap wk} rs ws c r c' :
  copy_step rs ws cap wk c r c' → quota (dst c) = None →
  quota (dst c') = None ∧ on_close c' = on_close c ∧
  ((st c = Copying ∧ st c' = Copying ∧ ws = false ∧ writeClosed c' = writeClosed c ∧
      ∃ b, b ≠ [] ∧ taken (dst c') = taken (dst c) ++ b) ∨
   (st c = Copying ∧ st c' ≠ Copying ∧ taken (dst c') = taken (dst c) ∧ writeClosed c' = writeClosed c) ∨
   (st c ≠ Copying ∧ st c' ≠ Copying ∧ taken (dst c') = taken (dst c) ∧ writeClosed c' = true)).
Proof.
  intros Hs Hq.
  destruct Hs as [c k out n H1 H2 H3 H3' H4|c k out n e H1 H2 H3 H3' H4|c k H1 H2 H3|c e H1 H2 H3 err|c err H1 H2 H3|c err H1 H2];
    cbn [dst on_close st writeClosed src].
  - unfold sink_write in H4. rewrite Hq in H4. injection H4 as <- _. cbn [quota taken]. split_and!; [done|done|].
    left. split_and!; try done. eexists. split; [|reflexivity].
    intros Hn%(f_equal length). rewrite length_take in Hn. cbn in Hn. unfold len in H3. lia.
  - unfold sink_write in H4. by rewrite Hq in H4.
  - split_and!; [done|done|]. right; left. done.
  - split_and!; [done|done|]. right; left. done.
  - split_and!; [done|done|]. right; left. done.
  - split_and!; [done|done|]. right; right. by rewrite H1.
Qed.

Lemma emits_same f f' :
  taken (dst (intoX f')) = taken (dst (intoX f)) → writeClosed (intoX f') = writeClosed (intoX f) →
  xClosed f' = xClosed f → emits f f' = [].
Proof.
  intros H1 H2 H3. unfold emits. cbv zeta. rewrite H1, H2, H3. rewrite decide_False by lia.
  by destruct (writeClosed (intoX f)), (xClosed f).
Qed.

(** What one step sends: one message with the bytes written, while the stream is not quiet, or
    close messages, after which it is. *)
Lemma emits_cases f f' :
  forward_step f f' → quota (dst (intoX f)) = None →
  quota (dst (intoX f')) = None ∧ (quiet f → quiet f') ∧
  ((¬ quiet f ∧ ∃ b, emits f f' = [SetBytes BuildMsg b] ∧
      taken (dst (intoX f')) = taken (dst (intoX f)) ++ b) ∨
   (∃ n, emits f f' = replicate n CloseMsg ∧ taken (dst (intoX f')) = taken (dst (intoX f)) ∧
      (n ≠ 0%nat → quiet f'))).
Proof.
  intros Hs Hq. unfold quiet.
  destruct Hs as [f res c wg ch Hc Hsig|f res c wg ch Hc Hsig|f|f e es|f er|f er Hm Hy Hx]; cbn [intoX xClosed];
    try (split_and!; [exact Hq|done|right; exists 0%nat; by rewrite emits_same]).
  - apply copy_step_cases in Hc as (Hq' & _ & Hc); [|done]. split; [exact Hq'|].
    unfold emits. cbv zeta. cbn [intoX xClosed]. rewrite (andb_negb_r (xClosed f)), app_nil_r.
    destruct Hc as [(H1 & H2 & H3 & H4 & b & Hb & H5)|[(H1 & H2 & H3 & H4)|(H1 & H2 & H3 & H4)]].
    + split; [intros [?|?]; congruence|left]. split; [intros [?|?]; congruence|]. exists b.
      rewrite H5, H4, length_app, andb_negb_r, app_nil_r. rewrite decide_True by (destruct b; [done|cbn; lia]).
      by rewrite drop_app_length.
    + split; [by left|right]. exists 0%nat. rewrite H3, H4, andb_negb_r, decide_False by lia. done.
    + split; [by left|right]. exists (if writeClosed (intoX f) then 0%nat else 1%nat).
      rewrite H3, H4, decide_False by lia. split_and!; [by destruct (writeClosed (intoX f))|done|by left].
  - split_and!; [exact Hq|by right|right; exists 1%nat]. unfold emits. cbv zeta. cbn [intoX xClosed].
    rewrite decide_False, Hx, andb_negb_r by lia. split_and!; [done|done|by right].
Qed.

Definition sink_healthy (s : StreamForwarder) : Prop := quota (dst (intoX (run s))) = None ∧ carries s.

Lemma carries_step s s' : sink_healthy s → any_step s s' → sink_healthy s'.
Proof.
  intros (Hq & bs & n & Hm & Hb & Hn) [[Hs He]|Hs].
  - apply emits_cases in Hs as (Hq' & Hqu & [(Hnq & b & Hem & Ht)|(k & Hem & Ht & Hk)]); [| |done];
      (split; [done|]); unfold carries; rewrite He, Hem, Hm.
    + assert (n = 0%nat) as -> by (destruct n; [done|]; by destruct Hnq; apply Hn).
      exists (bs ++ [b]), 0%nat. cbn [replicate]. rewrite fmap_app, !app_nil_r, concat_app, Ht, Hb. cbn.
      by rewrite app_nil_r.
    + exists bs, (n + k)%nat. rewrite <- app_assoc, <- replicate_add, Ht. split_and!; [done|done|].
      intros Hnk. destruct (decide (n = 0%nat)) as [->|]; auto.
  - destruct Hs as [s|s _]; split; try exact Hq.
    + exists bs, (S n). cbn. rewrite Hm, <- app_assoc, replicate_snoc. split_and!; [done|done|by right].
    + by exists bs, n.
Qed.

Lemma carries_reach ms e conn ci cout s :
  rtc any_step (NewStreamForwarder ms e conn ci cout) s → sink_healthy s.
Proof.
  intros H. apply (invariant_rtc any_step sink_healthy (NewStreamForwarder ms e conn ci cout) s).
  - intros ?? ??. by eapply carries_step.
  - done.
  - split; [done|]. exists [], 0%nat. done.
Qed.

(** ** The tunnel *)

Lemma payloads_close n : payloads (replicate n (CloseMsg : ForwardMessage)) = [].
Proof. by destruct n. Qed.

Lemma sent_payloads s : carries s → payloads (msgs s) = taken (dst (intoX (run s))).
Proof.
  intros (bs & n & -> & Hb & _). rewrite payloads_data, payloads_close, app_nil_r. exact Hb.
Qed.

(** What a prefix of the messages delivers is a prefix, and all of it when the close message is
    there. *)
Lemma payloads_prefix s ms :
  carries s → ms `prefix_of` msgs s →
  payloads ms `prefix_of` taken (dst (intoX (run s))) ∧
  (stream_end ms None = Some EOF → payloads ms = taken (dst (intoX (run s)))).
Proof.
  intros (bs & n & Hm & Hb & _) [rest Hp]. rewrite Hm in Hp. clear Hm. rewrite <- Hb. clear Hb.
  revert ms Hp. induction bs as [|b bs IH]; intros ms Hp.
  - cbn in Hp. destruct ms as [|m ms]; [done|].
    assert (m = CloseMsg) as ->.
    { assert (In m (replicate n CloseMsg)) as Hin by (rewrite Hp; by left).
      apply list_elem_of_In, elem_of_replicate in Hin. by destruct Hin. }
    done.
  - destruct ms as [|m ms]; [split; [apply prefix_nil|done]|]. cbn in Hp. injection Hp as <- Hp.
    destruct (IH ms Hp) as [H1 H2].
    change (payloads (SetBytes BuildMsg b :: ms)) with (b ++ payloads ms).
    change (stream_end (SetBytes BuildMsg b :: ms) None) with (stream_end ms None). cbn [concat].
    split; [by apply prefix_app|]. intros He. by rewrite H2.
Qed.

Lemma sf_forward ms e conn ci cout s :
  rtc sf_step (NewStreamForwarder ms e conn ci cout) s →
  rtc forward_step (Forward_init (stream_source ms e) conn Leaves ci (MkSink [] None) cout) (run s).
Proof.
  apply (rtc_ind_r (λ s, rtc forward_step
    (Forward_init (stream_source ms e) conn Leaves ci (MkSink [] None) cout) (run s))); [done|].
  intros s1 s2 _ [H _] IH. by eapply rtc_r.
Qed.

Lemma any_reach s s' : rtc sf_step s s' → rtc any_step s s'.
Proof. apply rtc_subrel. intros ?? H. by left. Qed.

(** What the two copies of a forwarder have done, also while it is being stopped. *)
Lemma any_copies ms e conn ci cout s :
  rtc any_step (NewStreamForwarder ms e conn ci cout) s →
  copies conn (MkSink [] None) (intoX (run s)) ∧ copies (stream_source ms e) cout (intoY (run s)).
Proof.
  intros H. apply (invariant_rtc any_step (λ s, copies conn (MkSink [] None) (intoX (run s)) ∧
    copies (stream_source ms e) cout (intoY (run s))) (NewStreamForwarder ms e conn ci cout) s); [|done|].
  - intros s1 s2 [H1 H2] [[Hs _]|Hs].
    + destruct (run s1) as [cx cy], (run s2) as [cx' cy']. cbn [intoX intoY] in *.
      inversion Hs; subst; try done.
      * split; [by eapply copy_step_copies|done].
      * split; [done|by eapply copy_step_copies].
    + by destruct Hs.
  - unfold copies. cbn. split_and!; try done; [apply prefix_nil|by apply prefix_app_r].
Qed.

(** The forwarders of the two ends of a stream: what the stream delivers to [b] is a prefix of
    what [a] sent.  Whatever the two runs, and whenever either is stopped, what the connection of
    [b] was given is a prefix of what the connection of [a] delivered. *)
Theorem tunnel_safe msA eA connA ciA outA a msB eB connB ciB outB b :
  rtc any_step (NewStreamForwarder msA eA connA ciA outA) a →
  rtc any_step (NewStreamForwarder msB eB connB ciB outB) b →
  msB `prefix_of` msgs a →
  taken (dst (intoY (run b))) `prefix_of` taken outB ++ avail connA.
Proof.
  intros Ha Hb Hp. destruct (carries_reach _ _ _ _ _ _ Ha) as [_ Hc].
  destruct (payloads_prefix _ _ Hc Hp) as [H1 _].
  destruct (any_copies _ _ _ _ _ _ Ha) as [[H2 _] _]. destruct (any_copies _ _ _ _ _ _ Hb) as [_ [H3 _]].
  cbn [stream_source avail] in H3. etrans; [exact H3|]. apply prefix_app. by etrans.
Qed.

Lemma tunnel_half msA eA connA ciA outA a msB connB ciB outB b :
  rtc sf_step (NewStreamForwarder msA eA connA ciA outA) a →
  rtc sf_step (NewStreamForwarder msB None connB ciB outB) b →
  msB `prefix_of` msgs a → main (run a) = Returning None → main (run b) = Returning None →
  taken (dst (intoY (run b))) = taken outB ++ avail connA ∧ fin connA = Some EOF.
Proof.
  intros Ha Hb Hp Hma Hmb. destruct (carries_reach _ _ _ _ _ _ (any_reach _ _ Ha)) as [_ Hc].
  destruct (payloads_prefix _ _ Hc Hp) as [_ Hall].
  apply sf_forward, Forward_reach_inv in Ha as (_ & _ & _ & _ & Ha).
  apply sf_forward, Forward_reach_inv in Hb as (_ & _ & _ & _ & Hb).
  unfold caller_inv in Ha, Hb. rewrite Hma in Ha. rewrite Hmb in Hb.
  destruct Ha as (_ & [Ha1 Ha2] & _). destruct Hb as (_ & _ & _ & [Hb1 Hb2]).
  cbn [stream_source avail fin taken app] in *. rewrite Hb1, (Hall Hb2), Ha1. done.
Qed.

(** When the two forwarders on the ends of a stream that stays open have both returned nil, each
    connection was given everything the other one delivered, and both delivered EOF. *)
Theorem tunnel_complete msA connA ciA outA a msB connB ciB outB b :
  rtc sf_step (NewStreamForwarder msA None connA ciA outA) a →
  rtc sf_step (NewStreamForwarder msB None connB ciB outB) b →
  msB `prefix_of` msgs a → msA `prefix_of` msgs b →
  main (run a) = Returning None → main (run b) = Returning None →
  taken (dst (intoY (run b))) = taken outB ++ avail connA ∧ fin connA = Some EOF ∧
  taken (dst (intoY (run a))) = taken outA ++ avail connB ∧ fin connB = Some EOF.
Proof.
  intros Ha Hb H1 H2 Hma Hmb.
  destruct (tunnel_half _ _ _ _ _ _ _ _ _ _ _ Ha Hb H1 Hma Hmb) as [? ?].
  destruct (tunnel_half _ _ _ _ _ _ _ _ _ _ _ Hb Ha H2 Hmb Hma) as [? ?]. done.
Qed.

(** ** Stop *)

(** [Stop] on a forwarder whose connection waits for its reads ([qemu.Conn]) does not get past
    [conn.Close()] while the peer is silent: the connection is never closed. *)
Theorem stop_hangs_on_qemu s s' :
  rtc any_step s s' → close_waits (intoX (run s)) → yClosed (run s) = false →
  yClosed (run s') = false ∧ close_waits (intoX (run s')).
Proof.
  intros H Hw Hy. apply (invariant_rtc any_step (λ s, yClosed (run s) = false ∧ close_waits (intoX (run s))) s s');
    [|done|done].
  clear. intros s s' [Hy (Hc & Hst & Ha & Hf)] [[Hs _]|Hs].
  - destruct (run s) as [cx cy wg ch m xc yc], (run s') as [cx' cy' wg' ch' m' xc' yc'].
    cbn [yClosed intoX] in *. subst yc.
    inversion Hs as [f res c wg1 ch1 Hcs Hsig|f res c wg1 ch1 Hcs Hsig| | |f er Hm Hyc Hcw|]; subst; cbn in *; try done.
    + destruct Hcs; cbn in *; rewrite ?Ha, ?Hf in *; try congruence; llia.
    + rewrite close_held_None in Hcw. by destruct Hcw.
  - destruct Hs as [s|s Hn]; cbn; [done|]. by destruct Hn.
Qed.

(** After [Stop] closed the stream nothing but close messages is sent. *)
Theorem stop_silences ms e conn ci cout s s' :
  rtc any_step (NewStreamForwarder ms e conn ci cout) s → xClosed (run s) = true → rtc any_step s s' →
  payloads (msgs s') = payloads (msgs s) ∧ xClosed (run s') = true.
Proof.
  intros Hr Hx Hr'.
  assert (rtc any_step (NewStreamForwarder ms e conn ci cout) s') as Hr2 by by etrans.
  rewrite (sent_payloads s) by apply (carries_reach _ _ _ _ _ _ Hr).
  rewrite (sent_payloads s') by apply (carries_reach _ _ _ _ _ _ Hr2).
  assert (quota (dst (intoX (run s))) = None) as Hq by apply (carries_reach _ _ _ _ _ _ Hr).
  enough (quota (dst (intoX (run s'))) = None ∧ xClosed (run s') = true ∧
    taken (dst (intoX (run s'))) = taken (dst (intoX (run s)))) as (_ & ? & ?) by done.
  apply (invariant_rtc any_step (λ s', quota (dst (intoX (run s'))) = None ∧ xClosed (run s') = true ∧
    taken (dst (intoX (run s'))) = taken (dst (intoX (run s)))) s s'); [|done|done].
  clear s' Hr' Hr2. intros s1 s2 (Hq1 & Hx1 & Ht) [[Hs _]|Hs]; [|by destruct Hs].
  destruct (run s1) as [cx cy wg ch m xc yc], (run s2) as [cx' cy' wg' ch' m' xc' yc']. cbn [xClosed intoX] in *. subst xc.
  inversion Hs as [f res c wg1 ch1 Hcs Hsig|f res c wg1 ch1 Hcs Hsig| | |f er Hm Hyc Hcw|]; subst; cbn in *; try done.
  apply copy_step_cases in Hcs as (Hq' & _ & Hcs); [|done]. split_and!; [done|done|].
  destruct Hcs as [(_ & _ & ? & _)|[(_ & _ & -> & _)|(_ & _ & -> & _)]]; done.
Qed.

(** ** A tunnel *)

Lemma sf_do f f' m : forward_step f f' → sf_step (MkSF f m) (MkSF f' (m ++ emits f f')).
Proof. done. Qed.

(** Two bytes go from [a] to [b]; nothing comes back. *)
Definition demo_data : ForwardMessage := SetBytes BuildMsg ["a"; "b"]%char.

Lemma demo_a : ∃ f,
  rtc sf_step (NewStreamForwarder [CloseMsg] None demo_in Interrupts demo_out) (MkSF f [demo_data; CloseMsg]) ∧
  main f = Returning None.
Proof.
  eexists. split.
  - eapply rtc_l; [apply sf_do; eapply step_intoX; [by eapply copy_move with (k := 2)|done]|].
    eapply rtc_l; [apply sf_do; eapply step_intoX; [by eapply copy_end with (e := EOF)|done]|].
    eapply rtc_l; [apply sf_do; eapply step_intoX; [by apply copy_exit_None|done]|].
    eapply rtc_l; [apply sf_do; eapply step_intoY; [by eapply copy_end with (e := EOF)|done]|].
    eapply rtc_l; [apply sf_do; by apply step_done|]. apply rtc_refl.
  - done.
Defined.

Lemma demo_b : ∃ f,
  rtc sf_step (NewStreamForwarder [demo_data; CloseMsg] None demo_empty Interrupts demo_out) (MkSF f [CloseMsg]) ∧
  main f = Returning None.
Proof.
  eexists. split.
  - eapply rtc_l; [apply sf_do; eapply step_intoX; [by eapply copy_end with (e := EOF)|done]|].
    eapply rtc_l; [apply sf_do; eapply step_intoX; [by apply copy_exit_None|done]|].
    eapply rtc_l; [apply sf_do; eapply step_intoY; [by eapply copy_move with (k := 2)|done]|].
    eapply rtc_l; [apply sf_do; eapply step_intoY; [by eapply copy_end with (e := EOF)|done]|].
    eapply rtc_l; [apply sf_do; by apply step_done|]. apply rtc_refl.
  - done.
Defined.

Lemma tunnel_complete_witness : ∃ b, main b = Returning None ∧ taken (dst (intoY b)) = ["a"; "b"]%char.
Proof.
  destruct demo_a as (fa & Ha & Hma), demo_b as (fb & Hb & Hmb). exists fb. split; [exact Hmb|].
  exact (proj1 (tunnel_complete _ _ _ _ _ _ _ _ _ _ Ha Hb (reflexivity _) (reflexivity _) Hma Hmb)).
Defined.

Lemma tunnel_safe_witness : ∃ b, main b = Returning None ∧ taken (dst (intoY b)) `prefix_of` ["a"; "b"]%char.
Proof.
  destruct demo_a as (fa & Ha & _), demo_b as (fb & Hb & Hmb). exists fb. split; [exact Hmb|].
  exact (tunnel_safe _ _ _ _ _ _ _ _ _ _ _ _ (any_reach _ _ Ha) (any_reach _ _ Hb) (reflexivity _)).
Defined.

(** A connection whose reads are waited for, and a silent peer. *)
Definition demo_silent : StreamForwarder :=
  NewStreamForwarder [] None (MkSource [] None) Waits demo_out.

Lemma stop_hangs_on_qemu_witness : ∀ s',
  rtc any_step demo_silent s' → yClosed (run s') = false.
Proof.
  intros s' H. exact (proj1 (stop_hangs_on_qemu demo_silent s' H
    (conj eq_refl (conj eq_refl (conj eq_refl eq_refl))) eq_refl)).
Defined.

Lemma stop_silences_witness : ∀ s',
  rtc any_step (MkSF (close_stream (run demo_silent)) [CloseMsg]) s' → payloads (msgs s') = [].
Proof.
  intros s' H.
  assert (rtc any_step demo_silent (MkSF (close_stream (run demo_silent)) [CloseMsg])) as Hr
    by (apply rtc_once; right; exact (stop_stream demo_silent)).
  exact (proj1 (stop_silences [] None (MkSource [] None) Waits demo_out _ s' Hr eq_refl H)).
Defined.
