(* ===== verification/Tunnel.v ===== *)
(** * A tunnel: two [StreamForwarder]s on the two ends of one RPC

    The daemon's forwarder and the server's run at the same time, each between its connection and
    its end of the stream; the messages they send are under way until the other one receives them.
    The RPC ends when the server's handler returns, and may break at any time.
    Sources: src/waterfall/golang/forward/stream.go, forward/forward.go, stream/stream.go. *)

From S2P Require Import Prelude GoIO Proto Stream Forward StreamForwarder.

Local Open Scope Z_scope.

(** ** One end *)

(** A round of [startReads], the goroutine of the stream's [Reader]: [r] is what [RecvMsg]
    returned.  After an error, or the close message, it has ended. *)
Definition startReads_round (r : result ForwardMessage) (s : source) : source :=
  match fin s with
  | Some _ => s
  | None =>
      match rbind r GetBytes with
      | Ok b => MkSource (avail s ++ b) None
      | Err e => MkSource (avail s) (Some e)
      end
  end.

Definition set_src (s : source) (c : copier) : copier :=
  MkCopier s (on_close c) (dst c) (st c) (readClosed c) (writeClosed c).
Definition set_dst (d : sink) (c : copier) : copier :=
  MkCopier (src c) (on_close c) d (st c) (readClosed c) (writeClosed c).

(** The stream of [f] received [r]. *)
Definition receive (r : result ForwardMessage) (f : fwd) : fwd :=
  MkFwd (intoX f) (set_src (startReads_round r (src (intoY f))) (intoY f)) (wgCount f) (errCh f)
    (main f) (xClosed f) (yClosed f).

(** From now on [SendMsg] on the stream of [f] fails with [e]. *)
Definition fail_sends (e : error) (f : fwd) : fwd :=
  MkFwd (set_dst (MkSink (taken (dst (intoX f))) (Some (0, e))) (intoX f)) (intoY f) (wgCount f)
    (errCh f) (main f) (xClosed f) (yClosed f).

(** What a step puts on the wire: nothing once sends fail. *)
Definition sent (f f' : fwd) : list ForwardMessage :=
  match quota (dst (intoX f)) with None => emits f f' | Some _ => [] end.

(** [sf.Forward()] has returned, its deferred closes included. *)
Definition returned (f : fwd) (err : option error) : Prop :=
  main f = Returning err ∧ xClosed f = true ∧ yClosed f = true.

(** The stream has not ended for the [Reader] of [f]. *)
Definition receiving (f : fwd) : Prop := fin (src (intoY f)) = None.
Definition sending (f : fwd) : Prop := quota (dst (intoX f)) = None.

(** ** The two ends *)

(** [near]: the daemon's forwarder, the client of the RPC; [far]: the server's; the messages
    under way to either. *)
Record tunnel := MkTunnel {
  near : fwd;
  far : fwd;
  toNear : list ForwardMessage;
  toFar : list ForwardMessage;
}.

(** The forwarders of [connN] and [connF] have started. *)
Definition tunnel_init (connN : source) (ciN : closing) (outN : sink)
    (connF : source) (ciF : closing) (outF : sink) : tunnel :=
  let open := MkSource [] None in
  let wire := MkSink [] None in
  MkTunnel (Forward_init open connN Leaves ciN wire outN) (Forward_init open connF Leaves ciF wire outF) [] [].

(** The steps of a tunnel whose RPC does not break.  Once the server's handler has returned,
    the client's [SendMsg] answers EOF, and its [RecvMsg] the status, which is EOF exactly when the
    handler returned nil, after all messages. *)
Inductive tunnel_step : tunnel → tunnel → Prop :=
| t_near t f :
    forward_step (near t) f →
    tunnel_step t (MkTunnel f (far t) (toNear t) (toFar t ++ sent (near t) f))
| t_far t f :
    forward_step (far t) f →
    tunnel_step t (MkTunnel (near t) f (toNear t ++ sent (far t) f) (toFar t))
| t_recv_near t m ms :
    toNear t = m :: ms → tunnel_step t (MkTunnel (receive (Ok m) (near t)) (far t) ms (toFar t))
| t_recv_far t m ms :
    toFar t = m :: ms → tunnel_step t (MkTunnel (near t) (receive (Ok m) (far t)) (toNear t) ms)
| t_end_recv t err e :
    returned (far t) err → toNear t = [] → receiving (near t) → (e = EOF ↔ err = None) →
    tunnel_step t (MkTunnel (receive (Err e) (near t)) (far t) (toNear t) (toFar t))
| t_end_send t err :
    returned (far t) err → sending (near t) →
    tunnel_step t (MkTunnel (fail_sends EOF (near t)) (far t) (toNear t) (toFar t)).

(** The RPC breaks, because its context is cancelled or the transport is lost: either end learns it
    at its own time from [RecvMsg] and from [SendMsg], whose error is then no clean end. *)
Inductive tunnel_break : tunnel → tunnel → Prop :=
| t_break_near_recv t e :
    e ≠ EOF → tunnel_break t (MkTunnel (receive (Err e) (near t)) (far t) (toNear t) (toFar t))
| t_break_near_send t e :
    tunnel_break t (MkTunnel (fail_sends e (near t)) (far t) (toNear t) (toFar t))
| t_break_far_recv t e :
    e ≠ EOF → tunnel_break t (MkTunnel (near t) (receive (Err e) (far t)) (toNear t) (toFar t))
| t_break_far_send t e :
    tunnel_break t (MkTunnel (near t) (fail_sends e (far t)) (toNear t) (toFar t)).

Definition tunnel_any (t t' : tunnel) : Prop := tunnel_step t t' ∨ tunnel_break t t'.

(** ** The invariant of one end *)

Definition sends_ok (f : fwd) : Prop :=
  sending f ∨ ∃ e, quota (dst (intoX f)) = Some (0, e).

(** An end that has received the bytes [R] so far. *)
Definition end_inv (conn : source) (out : sink) (R : list byte) (f : fwd) : Prop :=
  fwd_inv (MkSource R (fin (src (intoY f)))) conn (MkSink [] None) out f ∧ sends_ok f.

Lemma startReads_round_fin r s : fin s ≠ None → startReads_round r s = s.
Proof. unfold startReads_round. by destruct (fin s). Qed.

(** What a round does to the bytes received so far and what it does to those still unread agree. *)
Lemma startReads_round_agrees r R (s : source) :
  ∃ b, avail (startReads_round r (MkSource R (fin s))) = R ++ b ∧
       avail (startReads_round r s) = avail s ++ b ∧
       fin (startReads_round r (MkSource R (fin s))) = fin (startReads_round r s) ∧
       (fin s ≠ None → b = [] ∧ fin (startReads_round r s) = fin s).
Proof.
  unfold startReads_round. cbn [fin avail]. destruct (fin s) as [e|] eqn:E.
  - exists []. rewrite !app_nil_r, E. done.
  - destruct (rbind r GetBytes) as [b|e]; [exists b|exists []]; rewrite ?app_nil_r; done.
Qed.

Lemma copy_step_fin {cap wk} rs ws c r c' : copy_step rs ws cap wk c r c' → fin (src c') = fin (src c).
Proof. by destruct 1. Qed.

Lemma Forward_step_fin f f' :
  forward_step f f' →
  fin (src (intoY f')) = fin (src (intoY f)) ∧ fin (src (intoX f')) = fin (src (intoX f)).
Proof.
  destruct 1; cbn; (split; [|]); try done;
    match goal with H : copy_step _ _ _ _ _ _ _ |- _ => by apply copy_step_fin in H end.
Qed.

(** A copy whose writes fail writes nothing. *)
Lemma copy_step_failing {cap wk} rs ws c r c' e :
  copy_step rs ws cap wk c r c' → quota (dst c) = Some (0, e) →
  dst c' = dst c ∧ (st c ≠ Copying → st c' ≠ Copying).
Proof.
  intros Hs Hq. destruct Hs as [c k out n H1 H2 H3 H3' H4|c k out n e' H1 H2 H3 H3' H4| | | |c err H1 H2]; cbn [dst st]; try done.
  1, 2: unfold sink_write in H4; rewrite Hq in H4; rewrite decide_False in H4
    by (rewrite len_take by lia; lia); injection H4 as <- _ He; try done.
  split; [|done]. destruct (dst c) as [tk q]. cbn in *. subst q. by rewrite app_nil_r.
Qed.

Lemma failing_step f f' e :
  forward_step f f' → quota (dst (intoX f)) = Some (0, e) →
  dst (intoX f') = dst (intoX f) ∧ (quiet f → quiet f').
Proof.
  intros Hs Hq. unfold quiet. destruct Hs; cbn [intoX xClosed]; try done.
  - eapply copy_step_failing in Hq as [? ?]; [|done]. split; [done|]. intros [?|?]; [left|right]; auto.
  - split; [done|]. by right.
Qed.

Section tunnel.
Context (connN connF : source) (ciN ciF : closing) (outN outF : sink).

Lemma end_step conn out R f f' : end_inv conn out R f → forward_step f f' → end_inv conn out R f'.
Proof.
  intros [Hi Hs] Hf. split.
  - rewrite (proj1 (Forward_step_fin _ _ Hf)). by eapply Forward_step_inv.
  - destruct Hs as [Hs|[e He]].
    + left. by apply (emits_cases _ _ Hf Hs).
    + right. exists e. by rewrite (proj1 (failing_step _ _ _ Hf He)).
Qed.

Lemma end_receive conn out R r f :
  end_inv conn out R f →
  end_inv conn out (avail (startReads_round r (MkSource R (fin (src (intoY f)))))) (receive r f).
Proof.
  intros [Hi Hs]. split; [|exact Hs].
  destruct (startReads_round_agrees r R (src (intoY f))) as (b & E1 & E2 & _ & E4).
  rewrite E1. cbn [receive intoY set_src src].
  destruct (fin (src (intoY f))) as [e|] eqn:He.
  { rewrite startReads_round_fin by congruence. destruct (E4 ltac:(done)) as [-> _].
    rewrite app_nil_r. destruct f as [cx [[av fi] oc d s rc wc] ? ? ? ? ?].
    cbn in He. subst fi. exact Hi. }
  destruct Hi as (HX & (HY1 & HY2 & HY3) & Hwg & Hch & Hm). cbn [avail fin] in *.
  unfold fwd_inv, caller_inv, copies, clean, reported, copy_result, copied_all in *.
  cbn [receive intoX intoY wgCount errCh main xClosed yClosed set_src src dst st avail fin] in *.
  split_and!; try done; try (by apply HX).
  - etrans; [exact HY1|]. apply prefix_app, prefix_app_r. done.
  - intros Hc. rewrite E2, app_assoc, (HY3 Hc), app_assoc. done.
  - destruct (main f) as [|[e|]]; [|done|].
    + destruct Hm as (H1 & H2 & H3 & H4 & H5). split_and!; try done. intros Hc. by destruct (H5 Hc) as [_ ?].
    + by destruct Hm as (_ & _ & _ & _ & ?).
Qed.

Lemma end_fail_sends conn out R e f : end_inv conn out R f → end_inv conn out R (fail_sends e f).
Proof. intros [Hi _]. split; [exact Hi|right; by exists e]. Qed.

(** ** The invariant of one direction *)

(** [f] sends, [ms] is under way, and the other end has received [R] and then [e]: nothing is lost
    while it receives, and when it received EOF it received everything that will be written. *)
Definition flow (f : fwd) (ms : list ForwardMessage) (e : option error) (R : list byte) : Prop :=
  ∃ bs n, ms = (SetBytes BuildMsg <$> bs) ++ replicate n CloseMsg ∧ (n ≠ 0%nat → quiet f) ∧
    R `prefix_of` taken (dst (intoX f)) ∧
    (e = None → R ++ concat bs = taken (dst (intoX f))) ∧
    (e = Some EOF → quiet f ∧ R = taken (dst (intoX f))).

Lemma flow_step f f' ms e R :
  forward_step f f' → sends_ok f → flow f ms e R → flow f' (ms ++ sent f f') e R.
Proof.
  intros Hf Hok (bs & n & -> & Hn & Hp & Ho & He). unfold sent. destruct Hok as [Hs|[er Hs]]; rewrite Hs.
  - destruct (emits_cases _ _ Hf Hs) as (_ & Hq & [(Hnq & b & -> & Ht)|(k & -> & Ht & Hk)]).
    + assert (n = 0%nat) as -> by (destruct n; [done|]; by destruct Hnq; apply Hn).
      exists (bs ++ [b]), 0%nat. cbn [replicate]. rewrite fmap_app, !app_nil_r, concat_app, Ht. cbn.
      split_and!; try done.
      * by apply prefix_app_r.
      * intros E. by rewrite app_nil_r, <- (Ho E), app_assoc.
      * intros E. by destruct (He E).
    + exists bs, (n + k)%nat. rewrite <- app_assoc, <- replicate_add, Ht. split_and!; try done.
      * intros Hnk. destruct (decide (n = 0%nat)) as [->|]; auto.
      * intros E. destruct (He E). auto.
  - destruct (failing_step _ _ _ Hf Hs) as [Hd Hq]. rewrite app_nil_r. exists bs, n. rewrite Hd.
    split_and!; try done; [auto|]. intros E. destruct (He E). auto.
Qed.

Lemma flow_receive f m ms e R :
  flow f (m :: ms) e R →
  let s := startReads_round (Ok m) (MkSource R e) in flow f ms (fin s) (avail s).
Proof.
  intros (bs & n & Hm & Hn & Hp & Ho & He). cbv zeta. unfold startReads_round. cbn [fin avail rbind].
  destruct bs as [|b bs].
  - destruct n as [|n]; [done|]. cbn in Hm. injection Hm as -> ->. cbn. exists [], n.
    destruct e as [e|]; cbn [fin avail]; (split_and!; try done; try (by intros; apply Hn)).
    intros _. split; [by apply Hn|]. rewrite <- (Ho eq_refl). by rewrite app_nil_r.
  - cbn in Hm. injection Hm as -> ->. exists bs, n.
    destruct e as [e|]; cbn [fin avail]; (split_and!; try done); cbn.
    + rewrite <- (Ho eq_refl). cbn. apply prefix_app, prefix_app_r. done.
    + intros _. rewrite <- (Ho eq_refl). cbn. by rewrite app_assoc.
Qed.

Lemma flow_end f ms er e R :
  (er = EOF → quiet f ∧ ms = []) → flow f ms e R →
  let s := startReads_round (Err er) (MkSource R e) in flow f ms (fin s) (avail s).
Proof.
  intros Her (bs & n & Hm & Hn & Hp & Ho & He). cbv zeta. unfold startReads_round. cbn [fin avail rbind].
  exists bs, n. destruct e as [e|]; cbn [fin avail]; (split_and!; try done).
  intros [= ->]. destruct (Her eq_refl) as [Hq ->]. split; [done|].
  destruct bs; [|done]. rewrite <- (Ho eq_refl). by rewrite app_nil_r.
Qed.

(** ** The invariant of the tunnel *)

Definition tunnel_inv (t : tunnel) : Prop :=
  ∃ RN RF,
    end_inv connN outN RN (near t) ∧ end_inv connF outF RF (far t) ∧
    flow (near t) (toFar t) (fin (src (intoY (far t)))) RF ∧
    flow (far t) (toNear t) (fin (src (intoY (near t)))) RN.

Lemma tunnel_init_inv : tunnel_inv (tunnel_init connN ciN outN connF ciF outF).
Proof.
  exists [], []. split_and!; try (split; [apply Forward_init_inv|by left]);
    exists [], 0%nat; (split_and!; try done).
Qed.

Lemma tunnel_step_inv t t' : tunnel_inv t → tunnel_step t t' → tunnel_inv t'.
Proof.
  intros (RN & RF & HN & HF & FN & FF) Hs.
  destruct Hs as [t f Hf|t f Hf|t m ms Hm|t m ms Hm|t err e (Hr & Hx & _) Hm Hrec He|t err Hr Hsn].
  - exists RN, RF. cbn [near far toNear toFar]. rewrite (proj1 (Forward_step_fin _ _ Hf)).
    split_and!; [by eapply end_step|done|apply flow_step; [done|apply HN|done]|done].
  - exists RN, RF. cbn [near far toNear toFar]. rewrite (proj1 (Forward_step_fin _ _ Hf)).
    split_and!; [done|by eapply end_step|done|apply flow_step; [done|apply HF|done]].
  - rewrite Hm in FF. apply flow_receive in FF. eexists _, RF. split_and!; [by apply end_receive|done|exact FN|].
    destruct (startReads_round_agrees (Ok m) RN (src (intoY (near t)))) as (b & _ & _ & E & _).
    cbn [near receive intoY set_src src]. rewrite <- E. exact FF.
  - rewrite Hm in FN. apply flow_receive in FN. eexists RN, _. split_and!; [done|by apply end_receive| |exact FF].
    destruct (startReads_round_agrees (Ok m) RF (src (intoY (far t)))) as (b & _ & _ & E & _).
    cbn [far receive intoY set_src src]. rewrite <- E. exact FN.
  - apply (flow_end _ _ e) in FF; [|by split; [right|]].
    eexists _, RF. split_and!; [by apply end_receive|done|exact FN|].
    destruct (startReads_round_agrees (Err e) RN (src (intoY (near t)))) as (b & _ & _ & E & _).
    cbn [near receive intoY set_src src]. rewrite <- E. exact FF.
  - exists RN, RF. split_and!; [by apply end_fail_sends|done|exact FN|exact FF].
Qed.

Lemma tunnel_break_inv t t' : tunnel_inv t → tunnel_break t t' → tunnel_inv t'.
Proof.
  intros (RN & RF & HN & HF & FN & FF) Hs.
  destruct Hs as [t e He|t e|t e He|t e].
  - apply (flow_end _ _ e) in FF; [|done].
    eexists _, RF. split_and!; [by apply end_receive|done|exact FN|].
    destruct (startReads_round_agrees (Err e) RN (src (intoY (near t)))) as (b & _ & _ & E & _).
    cbn [near receive intoY set_src src]. rewrite <- E. exact FF.
  - exists RN, RF. split_and!; [by apply end_fail_sends|done|exact FN|exact FF].
  - apply (flow_end _ _ e) in FN; [|done].
    eexists RN, _. split_and!; [done|by apply end_receive| |exact FF].
    destruct (startReads_round_agrees (Err e) RF (src (intoY (far t)))) as (b & _ & _ & E & _).
    cbn [far receive intoY set_src src]. rewrite <- E. exact FN.
  - exists RN, RF. split_and!; [done|by apply end_fail_sends|exact FN|exact FF].
Qed.

Lemma tunnel_reach_inv t :
  rtc tunnel_any (tunnel_init connN ciN outN connF ciF outF) t → tunnel_inv t.
Proof.
  intros H. eapply invariant_rtc; [|exact H|apply tunnel_init_inv].
  intros t1 t2 Hi [Hs|Hs]; [by eapply tunnel_step_inv|by eapply tunnel_break_inv].
Qed.

(** What one direction has delivered. *)
Lemma delivered_prefix f ms R conn1 out1 R1 g conn2 out2 :
  end_inv conn1 out1 R1 f → end_inv conn2 out2 R g → flow f ms (fin (src (intoY g))) R →
  taken (dst (intoY g)) `prefix_of` taken out2 ++ avail conn1.
Proof.
  intros [(HX & _) _] [(_ & HY & _) _] (bs & n & _ & _ & Hp & _).
  destruct HX as [HX _], HY as [HY _]. cbn [avail taken app] in *.
  etrans; [exact HY|]. apply prefix_app. by etrans.
Qed.

Lemma delivered_all f ms R conn1 out1 R1 g conn2 out2 :
  end_inv conn1 out1 R1 f → end_inv conn2 out2 R g → flow f ms (fin (src (intoY g))) R →
  main f = Returning None → main g = Returning None →
  taken (dst (intoY g)) = taken out2 ++ avail conn1 ∧ fin conn1 = Some EOF.
Proof.
  intros [(_ & _ & _ & _ & H1) _] [(_ & _ & _ & _ & H2) _] (bs & n & _ & _ & _ & _ & He) M1 M2.
  unfold caller_inv in *. rewrite M1 in H1. rewrite M2 in H2.
  destruct H1 as (_ & [A1 A2] & _), H2 as (_ & _ & _ & [B1 B2]). cbn [avail fin taken app] in *.
  destruct (He B2) as [_ ->]. by rewrite B1, A1.
Qed.

Lemma tunnel_any_safe t :
  rtc tunnel_any (tunnel_init connN ciN outN connF ciF outF) t →
  taken (dst (intoY (far t))) `prefix_of` taken outF ++ avail connN ∧
  taken (dst (intoY (near t))) `prefix_of` taken outN ++ avail connF.
Proof.
  intros (RN & RF & HN & HF & FN & FF)%tunnel_reach_inv.
  split; by eapply delivered_prefix.
Qed.

Lemma tunnel_any_complete t :
  rtc tunnel_any (tunnel_init connN ciN outN connF ciF outF) t →
  main (near t) = Returning None → main (far t) = Returning None →
  taken (dst (intoY (far t))) = taken outF ++ avail connN ∧ fin connN = Some EOF ∧
  taken (dst (intoY (near t))) = taken outN ++ avail connF ∧ fin connF = Some EOF.
Proof.
  intros (RN & RF & HN & HF & FN & FF)%tunnel_reach_inv M1 M2.
  destruct (delivered_all _ _ _ _ _ _ _ _ _ HN HF FN M1 M2).
  by destruct (delivered_all _ _ _ _ _ _ _ _ _ HF HN FF M2 M1).
Qed.

(** ** Progress, when the connections do not fail *)

(** Nothing has failed at this end: no error was reported, no end was closed before both copies
    were done, and the stream has not ended but with EOF. *)
Record calm (f : fwd) : Prop := {
  cm_sink : quota (dst (intoY f)) = None;
  cm_wire : sending f ∨ st (intoX f) ≠ Copying;
  cm_errs : errCh f = [];
  cm_reported e : ¬ reported f e;
  cm_closed : xClosed f = true ∨ yClosed f = true → main f = Returning None;
  cm_stream e : fin (src (intoY f)) = Some e → e = EOF;
  cm_exited e : st (intoX f) = Exited e → writeClosed (intoX f) = true;
}.

(** A copy whose ends are open and healthy, or that has ended. *)
Lemma calm_copy {cap wk} rs ws c res c' :
  copy_step rs ws cap wk c res c' →
  (st c = Copying → rs = false ∧ ws = false ∧ quota (dst c) = None) →
  (∀ e, fin (src c) = Some e → e = EOF) → (∀ e, copy_result c ≠ Some (Some e)) →
  (res = None ∨ res = Some None) ∧ (∀ e, copy_result c' ≠ Some (Some e)) ∧
  quota (dst c') = quota (dst c) ∧ (st c' = Copying → st c = Copying) ∧
  (∀ e, st c' = Exited e → writeClosed c' = true).
Proof.
  unfold copy_result. intros Hs Hc Hf Hr.
  destruct Hs as [c k out n H1 H2 H3 H3' H4|c k out n e H1 H2 H3 H3' H4|c k H1 H2 H3|c e H1 H2 H3 err|c err H1 H2 H3|c err H1 H2];
    rewrite H1 in *; cbn [dst st writeClosed].
  - destruct (Hc eq_refl) as (_ & _ & Hq). unfold sink_write in H4. rewrite Hq in *. injection H4 as <- _. cbn.
    split_and!; auto; done.
  - destruct (Hc eq_refl) as (_ & _ & Hq). unfold sink_write in H4. by rewrite Hq in H4.
  - destruct (Hc eq_refl) as (_ & ? & _). congruence.
  - assert (err = None) as -> by (subst err; rewrite decide_True by auto; done).
    split_and!; auto; done.
  - destruct (Hc eq_refl) as (? & _). congruence.
  - split_and!; auto; done.
Qed.

Lemma calm_open conn out R f :
  end_inv conn out R f → calm f → copy_result (intoX f) = None ∨ copy_result (intoY f) = None →
  xClosed f = false ∧ yClosed f = false.
Proof.
  intros [(_ & _ & _ & _ & Hc) _] Hcm Hn.
  unfold caller_inv in Hc. destruct (xClosed f) eqn:Hx; [|destruct (yClosed f) eqn:Hy; [|done]];
    (rewrite (cm_closed _ Hcm) in Hc by auto; destruct Hc as (? & _ & ? & _); destruct Hn; congruence).
Qed.

Lemma calm_returns conn out R f er :
  end_inv conn out R f → calm f → main f = Returning er → er = None.
Proof.
  intros [(_ & _ & _ & _ & Hc) _] Hcm Hm. unfold caller_inv in Hc. rewrite Hm in Hc.
  destruct er as [e|]; [|done]. by apply (cm_reported _ Hcm) in Hc.
Qed.

Lemma calm_step conn out R f f' :
  fin conn = Some EOF → end_inv conn out R f → calm f → forward_step f f' → calm f'.
Proof.
  intros Hfin Hi Hcm Hs. pose proof (calm_open _ _ _ _ Hi Hcm) as Hopen.
  pose proof Hcm as [Hk Hw He Hr Hcl Hst Hex]. unfold copy_result, reported in Hopen, Hr.
  assert (∀ e, fin (src (intoX f)) = Some e → e = EOF) as HfX
    by (destruct Hi as [((_ & Hf & _) & _) _]; rewrite Hf, Hfin; intros e [=]; done).
  destruct Hs as [f res c wg ch Hc Hsig|f res c wg ch Hc Hsig|f Hm H0|f e es Hm H0|f er Hm Hy Hn|f er Hm Hy Hx Hn].
  - apply calm_copy in Hc as (Hres & Hrc & Hq & Hcp & Hec);
      [|intros E; rewrite E in *; destruct Hopen as [-> ->]; [by left|]; by destruct Hw|done|naive_solver].
    assert (ch = []) as -> by (rewrite He in Hsig; by destruct Hres as [-> | ->]; injection Hsig).
    split; unfold reported, sending in *; cbn [intoX intoY main errCh xClosed yClosed]; try done.
    + rewrite Hq. destruct Hw as [Hw|Hw]; [by left|]. right. auto.
    + intros e [E|E]; [by eapply Hrc|]. eapply Hr. right. exact E.
  - pose proof (copy_step_fin _ _ _ _ _ Hc) as Hfe.
    apply calm_copy in Hc as (Hres & Hrc & Hq & Hcp & Hec);
      [|intros E; rewrite E in *; destruct Hopen as [-> ->]; [by right|]; done|done|naive_solver].
    assert (ch = []) as -> by (rewrite He in Hsig; by destruct Hres as [-> | ->]; injection Hsig).
    split; unfold reported, sending in *; cbn [intoX intoY main errCh xClosed yClosed]; try done.
    + by rewrite Hq.
    + intros e [E|E]; [eapply Hr; left; exact E|by eapply Hrc].
    + by rewrite Hfe.
  - by split.
  - by rewrite He in H0.
  - apply (calm_returns _ _ _ _ _ Hi Hcm) in Hm as E. subst er. by split.
  - apply (calm_returns _ _ _ _ _ Hi Hcm) in Hm as E. subst er. by split.
Qed.

(** The close message of [f] has been received by [g], or is under way. *)
Definition closes (f : fwd) (ms : list ForwardMessage) (g : fwd) : Prop :=
  writeClosed (intoX f) = true → ¬ receiving g ∨ (CloseMsg : ForwardMessage) ∈ ms.

Record tunnel_calm (t : tunnel) : Prop := {
  tc_inv : tunnel_inv t;
  tc_near : calm (near t);
  tc_far : calm (far t);
  tc_sending : sending (far t) ∧ (sending (near t) ∨ ¬ receiving (far t));
  tc_closes : closes (near t) (toFar t) (far t) ∧ closes (far t) (toNear t) (near t);
}.

Lemma closes_sender f f' ms g :
  forward_step f f' → sending f ∨ ¬ receiving g → closes f ms g → closes f' (ms ++ sent f f') g.
Proof.
  intros Hf Hs Hc Hw. destruct Hs as [Hs|]; [|by left].
  destruct (writeClosed (intoX f)) eqn:E.
  { destruct (Hc E) as [?|?]; [by left|right]. set_solver. }
  right. unfold sent. rewrite Hs. unfold emits. cbv zeta. rewrite Hw, E. set_solver.
Qed.

Lemma closes_receiver f ms g g' :
  (receiving g' → receiving g) → closes f ms g → closes f ms g'.
Proof. intros Hg Hc Hw. destruct (Hc Hw); [left|right]; auto. Qed.

Lemma startReads_round_open r s : fin (startReads_round r s) = None → fin s = None.
Proof. unfold startReads_round. destruct (fin s) eqn:E; [by rewrite E|done]. Qed.

Lemma closes_receive f m ms g : closes f (m :: ms) g → closes f ms (receive (Ok m) g).
Proof.
  intros Hc Hw. destruct (Hc Hw) as [Hg|[<-|Hin]%elem_of_cons].
  - left. intros Hr. apply Hg. exact (startReads_round_open _ _ Hr).
  - left. unfold receiving, receive, startReads_round. cbn. by destruct (fin (src (intoY g))) eqn:E; cbn; rewrite ?E.
  - by right.
Qed.

Lemma calm_receive f r :
  (∀ e, rbind r GetBytes = Err e → e = EOF) → calm f → calm (receive r f).
Proof.
  intros Hr [Hk Hw He Hrep Hcl Hst Hex]. split; try done.
  intros e. cbn. unfold startReads_round. destruct (fin (src (intoY f))) eqn:E; [rewrite E|].
  - intros [= <-]. by apply Hst.
  - destruct (rbind r GetBytes) as [b|e'] eqn:Er; cbn; [done|]. intros [= <-]. auto.
Qed.

Lemma flow_message f m ms e R : flow f (m :: ms) e R → ∀ e', rbind (Ok m) GetBytes = Err e' → e' = EOF.
Proof.
  intros (bs & n & Hm & _) e'. destruct bs as [|b bs]; [destruct n; [done|]|]; cbn in Hm; injection Hm as -> _.
  - cbn. by intros [= <-].
  - done.
Qed.

Lemma flow_quiet f ms R : flow f ms (Some EOF) R → quiet f.
Proof. intros (bs & n & _ & _ & _ & _ & He). by apply He. Qed.

(** The end of [returned] has received EOF, and the other one writes no more. *)
Lemma returned_quiet conn out R f ms g conn1 out1 R1 :
  end_inv conn1 out1 R1 f → calm f → end_inv conn out R g → calm g →
  flow f ms (fin (src (intoY g))) R → main g = Returning None →
  ¬ receiving g ∧ st (intoX f) ≠ Copying.
Proof.
  intros Hf Cf [(_ & HY & _ & _ & Hc) _] Cg Hfl Hm. unfold caller_inv in Hc. rewrite Hm in Hc.
  destruct Hc as (_ & _ & _ & [_ Hc]). cbn [fin] in Hc. rewrite Hc in Hfl. split.
  - unfold receiving. congruence.
  - intros Hst. apply flow_quiet in Hfl as [?|Hx]; [done|].
    destruct (calm_open _ _ _ _ Hf Cf) as [? _]; [left; unfold copy_result; by rewrite Hst|congruence].
Qed.

Context (finN : fin connN = Some EOF) (finF : fin connF = Some EOF).
Context (sinkN : quota outN = None) (sinkF : quota outF = None).

Lemma calm_init conn ci out : quota out = None →
  calm (Forward_init (MkSource [] None) conn Leaves ci (MkSink [] None) out).
Proof. intros Hq. split; try done; [by left| |]; [by intros e [?|?]|by intros []]. Qed.

Lemma tunnel_calm_init : tunnel_calm (tunnel_init connN ciN outN connF ciF outF).
Proof.
  split; [apply tunnel_init_inv|by apply calm_init|by apply calm_init|by split; [|left]|by split].
Qed.

Lemma receiving_step f f' : forward_step f f' → receiving f' → receiving f.
Proof. intros Hs. unfold receiving. by rewrite (proj1 (Forward_step_fin _ _ Hs)). Qed.

Lemma sending_step f f' : forward_step f f' → sending f → sending f'.
Proof. intros Hs H. by apply (emits_cases _ _ Hs H). Qed.

Lemma tunnel_calm_step t t' : tunnel_calm t → tunnel_step t t' → tunnel_calm t'.
Proof.
  intros [Hi CN CF [SF SN] [KN KF]] Hs.
  pose proof (tunnel_step_inv _ _ Hi Hs) as Hi'. destruct Hi as (RN & RF & HN & HF & FN & FF).
  destruct Hs as [t f Hf|t f Hf|t m ms Hm|t m ms Hm|t err e (Hr & Hx & _) Hm Hrec He|t err Hr Hsn];
    (split; [exact Hi'| | | |]; cbn [near far toNear toFar] in *); try done.
  - exact (calm_step _ _ _ _ _ finN HN CN Hf).
  - split; [done|]. destruct SN; [left; by eapply sending_step|by right].
  - split; [by apply closes_sender|]. eapply closes_receiver; [|exact KF]. by apply receiving_step.
  - exact (calm_step _ _ _ _ _ finF HF CF Hf).
  - split; [by eapply sending_step|]. destruct SN as [|HS]; [by left|right].
    intros Hr. apply HS. by eapply receiving_step.
  - split; [|by apply closes_sender; [|left|]]. eapply closes_receiver; [|exact KN]. by apply receiving_step.
  - apply calm_receive; [|done]. rewrite Hm in FF. by eapply flow_message.
  - split; [exact KN|]. rewrite Hm in KF. by apply closes_receive.
  - apply calm_receive; [|done]. rewrite Hm in FN. by eapply flow_message.
  - split; [done|]. destruct SN as [|HS]; [by left|right]. intros Hr. apply HS. exact (startReads_round_open _ _ Hr).
  - split; [|exact KF]. rewrite Hm in KN. by apply closes_receive.
  - apply calm_receive; [|done]. apply (calm_returns _ _ _ _ _ HF CF) in Hr as ->.
    cbn. intros e' [= <-]. by apply He.
  - split; [done|]. eapply closes_receiver; [|exact KF]. apply startReads_round_open.
  - destruct Hr as (Hr & _). pose proof Hr as Hr0. apply (calm_returns _ _ _ _ _ HF CF) in Hr0 as ->.
    destruct (returned_quiet _ _ _ _ _ _ _ _ _ HN CN HF CF FN Hr) as [_ Hq].
    destruct CN as [Hk Hw He Hrep Hcl Hst Hex]. split; try done. by right.
  - destruct Hr as (Hr & _). pose proof Hr as Hr0. apply (calm_returns _ _ _ _ _ HF CF) in Hr0 as ->.
    destruct (returned_quiet _ _ _ _ _ _ _ _ _ HN CN HF CF FN Hr) as [Hq _]. split; [done|by right].
Qed.

(** An end that can do nothing more, whose connection ends and whose stream has ended, is done. *)
Lemma calm_exit conn out R f :
  fin conn = Some EOF → end_inv conn out R f → calm f → (∀ f', ¬ forward_step f f') →
  ∃ e, st (intoX f) = Exited e.
Proof.
  intros Hfin [((_ & Hf & _) & _) _] _ Hst. rewrite Hfin in Hf.
  destruct (free_stuck f Hst) as [[[?|[(_ & _ & ?) _]]|(_ & _ & ?)] _]; [done|congruence|congruence].
Qed.

Lemma calm_done conn out R f :
  fin conn = Some EOF → end_inv conn out R f → calm f → ¬ receiving f → (∀ f', ¬ forward_step f f') →
  finished f ∧ main f = Returning None.
Proof.
  intros Hfin Hi Hcm Hrec Hst. pose proof Hi as [HI _]. pose proof HI as [(_ & Hf & _) _]. rewrite Hfin in Hf.
  assert (¬ starved (intoX f)) as HX by (intros (_ & _ & ?); congruence).
  assert (¬ starved (intoY f)) as HY by (intros (_ & _ & ?); by apply Hrec).
  destruct (free_stuck f Hst) as [_ HF]. specialize (HF _ _ _ _ HI).
  destruct (main f) as [|er] eqn:Hm; [by destruct HF|].
  pose proof (calm_returns _ _ _ _ _ Hi Hcm Hm) as ->. split; [|done].
  by destruct HF as [?|[[_ ?]|[_ ?]]].
Qed.

Lemma tunnel_calm_stuck t :
  tunnel_calm t → (∀ t', ¬ tunnel_step t t') →
  (finished (near t) ∧ main (near t) = Returning None) ∧ finished (far t) ∧ main (far t) = Returning None.
Proof.
  intros [(RN & RF & HN & HF & _ & _) CN CF _ [KN KF]] Hst.
  assert (toNear t = []) as E1 by (destruct (toNear t) eqn:E; [done|exfalso; by eapply Hst, t_recv_near]).
  assert (toFar t = []) as E2 by (destruct (toFar t) eqn:E; [done|exfalso; by eapply Hst, t_recv_far]).
  assert (∀ f', ¬ forward_step (near t) f') as SN by (intros f' Hf; by eapply Hst, t_near).
  assert (∀ f', ¬ forward_step (far t) f') as SF by (intros f' Hf; by eapply Hst, t_far).
  destruct (calm_exit _ _ _ _ finN HN CN SN) as [eN XN]. destruct (calm_exit _ _ _ _ finF HF CF SF) as [eF XF].
  apply (cm_exited _ CN) in XN. apply (cm_exited _ CF) in XF.
  destruct (KN XN) as [RF'|Hin]; [|rewrite E2 in Hin; by apply not_elem_of_nil in Hin].
  destruct (KF XF) as [RN'|Hin]; [|rewrite E1 in Hin; by apply not_elem_of_nil in Hin].
  split; [exact (calm_done _ _ _ _ finN HN CN RN' SN)|exact (calm_done _ _ _ _ finF HF CF RF' SF)].
Qed.

End tunnel.

(** ** Every schedule is finite *)

Definition flag (b : bool) (n : nat) : nat := if b then 0%nat else n.

(** A byte weighs most before it is sent, less under way, and least before the last copy. *)
Definition end_weight (f : fwd) : nat :=
  (4 * copy_size (intoX f) + copy_size (intoY f) + (if main f is Waiting then 1 else 0) +
   flag (xClosed f) 4 + flag (yClosed f) 1 + (if fin (src (intoY f)) is None then 1 else 0) +
   (if quota (dst (intoX f)) is None then 1 else 0))%nat.

Definition msg_weight (m : ForwardMessage) : nat := (2 * length (fm_payload m) + 1)%nat.

Definition tunnel_weight (t : tunnel) : nat :=
  (end_weight (near t) + end_weight (far t) + sum_list_with msg_weight (toNear t) +
   sum_list_with msg_weight (toFar t))%nat.

(** What a step of a copy writes, and its close message, weigh less than what it used up. *)
Lemma copy_step_weight {cap wk} rs ws c r c' :
  copy_step rs ws cap wk c r c' →
  let new := (length (taken (dst c')) - length (taken (dst c)))%nat in
  (4 * copy_size c' + 2 * new + (if decide (0 < new)%nat then 1 else 0) +
   flag (negb (writeClosed c' && negb (writeClosed c))) 1 < 4 * copy_size c)%nat ∧
  (length (taken (dst c)) ≤ length (taken (dst c')))%nat.
Proof.
  cbv zeta. unfold copy_size, flag.
  destruct 1 as [c k out n H1 H2 H3 H3' H4|c k out n e H1 H2 H3 H3' H4|c k H1 H2 H3|c e H1 H2 H3 err|c err H1 H2 H3|c err H1 H2];
    cbn [dst src st writeClosed avail]; rewrite H1, ?length_drop, ?andb_negb_r; cbn [negb].
  1, 2: (assert (length (taken out) ≤ length (taken (dst c)) + Z.to_nat k ∧
           length (taken (dst c)) ≤ length (taken out))%nat as [? ?]).
  1, 3: (unfold sink_write in H4; unfold len in H3; destruct (quota (dst c)) as [[q er]|];
    [case_decide|]; injection H4 as <- _; cbn; rewrite ?length_app, ?length_take; lia).
  1, 2: (unfold len in H3; split; [case_decide; lia|done]).
  all: rewrite ?Nat.sub_diag; split; [|lia]; try (unfold len in H3); rewrite ?decide_False by lia; try lia.
  destruct (writeClosed c); cbn; lia.
Qed.

Lemma copy_step_quota {cap wk} rs ws c r c' : copy_step rs ws cap wk c r c' → quota (dst c') = None ↔ quota (dst c) = None.
Proof.
  destruct 1 as [c k out n H1 H2 H3 H3' H4|c k out n e H1 H2 H3 H3' H4| | | |]; cbn; try done;
    unfold sink_write in H4; (destruct (quota (dst c)) as [[q er]|]; [case_decide|]; by injection H4 as <- _).
Qed.

Lemma sum_app {A} (f : A → nat) l k : sum_list_with f (l ++ k) = (sum_list_with f l + sum_list_with f k)%nat.
Proof. induction l; cbn; lia. Qed.

Lemma sent_weight f f' :
  (sum_list_with msg_weight (sent f f') ≤
   let new := (length (taken (dst (intoX f'))) - length (taken (dst (intoX f))))%nat in
   2 * new + (if decide (0 < new)%nat then 1 else 0) +
   flag (negb (writeClosed (intoX f') && negb (writeClosed (intoX f)))) 1 +
   flag (negb (xClosed f' && negb (xClosed f))) 1)%nat.
Proof.
  cbv zeta. unfold sent. destruct (quota (dst (intoX f))); [cbn; lia|]. unfold emits. cbv zeta.
  rewrite !sum_app, Nat.add_assoc. unfold flag. apply Nat.add_le_mono; [apply Nat.add_le_mono|].
  - case_decide; [|cbn; lia]. cbn. unfold msg_weight. cbn. rewrite length_drop, decide_True by lia. lia.
  - destruct (writeClosed (intoX f') && negb (writeClosed (intoX f))); cbn; unfold msg_weight; cbn; lia.
  - destruct (xClosed f' && negb (xClosed f)); cbn; unfold msg_weight; cbn; lia.
Qed.

Lemma end_step_weight f f' :
  forward_step f f' → (end_weight f' + sum_list_with msg_weight (sent f f') < end_weight f)%nat.
Proof.
  intros Hs. pose proof (sent_weight f f') as Hw. pose proof (Forward_step_fin _ _ Hs) as [Hf _].
  unfold end_weight. rewrite Hf. cbv zeta in Hw.
  destruct Hs as [f res c wg ch Hc Hsig|f res c wg ch Hc Hsig|f Hm H0|f e es Hm H0|f er Hm Hy Hn|f er Hm Hy Hx Hn];
    cbn [intoX intoY main xClosed yClosed] in *; rewrite ?Nat.sub_diag, ?andb_negb_r in Hw; cbn [flag negb] in *.
  - pose proof (copy_step_quota _ _ _ _ _ Hc) as Hq. apply copy_step_weight in Hc as [Hc _]. cbv zeta in Hc.
    unfold flag in *. destruct (quota (dst c)), (quota (dst (intoX f))); [lia|exfalso; naive_solver..|lia].
  - apply copy_step_size in Hc. rewrite decide_False in Hw by lia. lia.
  - rewrite Hm. rewrite decide_False in Hw by lia. lia.
  - rewrite Hm. rewrite decide_False in Hw by lia. lia.
  - rewrite Hy. rewrite decide_False in Hw by lia. cbn [flag] in *. lia.
  - rewrite Hx. rewrite decide_False in Hw by lia. rewrite Hx in Hw. cbn [flag negb andb] in *. lia.
Qed.

Lemma receive_weight m f : (end_weight (receive (Ok m) f) < end_weight f + msg_weight m)%nat.
Proof.
  unfold end_weight, msg_weight, copy_size. cbn [receive set_src intoX intoY src st main xClosed yClosed].
  unfold startReads_round. destruct (fin (src (intoY f))) eqn:E; [rewrite E; lia|].
  cbn [rbind]. unfold GetBytes, forwardMsg_GetBytes. case_decide; cbn [avail fin]; rewrite ?length_app; lia.
Qed.

Lemma receive_err_weight e f : receiving f → (end_weight (receive (Err e) f) < end_weight f)%nat.
Proof.
  unfold receiving, end_weight, copy_size. intros E. cbn [receive set_src intoX intoY src st main xClosed yClosed].
  unfold startReads_round. rewrite E. cbn. lia.
Qed.

Lemma fail_sends_weight e f : sending f → (end_weight (fail_sends e f) < end_weight f)%nat.
Proof. unfold sending, end_weight. intros E. cbn. rewrite E. unfold copy_size. cbn. lia. Qed.

Lemma tunnel_step_weight t t' : tunnel_step t t' → (tunnel_weight t' < tunnel_weight t)%nat.
Proof.
  unfold tunnel_weight. destruct 1 as [t f Hf|t f Hf|t m ms Hm|t m ms Hm|t err e Hr Hm Hrec He|t err Hr Hsn];
    cbn [near far toNear toFar].
  - rewrite sum_app. apply end_step_weight in Hf. lia.
  - rewrite sum_app. apply end_step_weight in Hf. lia.
  - rewrite Hm. pose proof (receive_weight m (near t)). cbn [sum_list_with]. lia.
  - rewrite Hm. pose proof (receive_weight m (far t)). cbn [sum_list_with]. lia.
  - pose proof (receive_err_weight e (near t) Hrec). lia.
  - pose proof (fail_sends_weight EOF (near t) Hsn). lia.
Qed.

(** ** Theorems *)

(** Whatever breaks and whenever, a connection is given a prefix of what the other one delivered;
    when both forwarders have returned nil, it was given all of it. *)
Theorem tunnel_integrity connN ciN outN connF ciF outF t :
  rtc tunnel_any (tunnel_init connN ciN outN connF ciF outF) t →
  (taken (dst (intoY (far t))) `prefix_of` taken outF ++ avail connN ∧
   taken (dst (intoY (near t))) `prefix_of` taken outN ++ avail connF) ∧
  (main (near t) = Returning None → main (far t) = Returning None →
   taken (dst (intoY (far t))) = taken outF ++ avail connN ∧
   taken (dst (intoY (near t))) = taken outN ++ avail connF).
Proof.
  intros H. split; [by eapply tunnel_any_safe|]. intros M1 M2.
  by destruct (tunnel_any_complete _ _ _ _ _ _ _ H M1 M2) as (? & _ & ? & _).
Qed.

Lemma tunnel_total connN ciN outN connF ciF outF t :
  fin connN = Some EOF → fin connF = Some EOF → quota outN = None → quota outF = None →
  rtc tunnel_step (tunnel_init connN ciN outN connF ciF outF) t →
  Acc (flip tunnel_step) t ∧
  ((∀ t', ¬ tunnel_step t t') →
   returned (near t) None ∧ returned (far t) None ∧
   taken (dst (intoY (far t))) = taken outF ++ avail connN ∧
   taken (dst (intoY (near t))) = taken outN ++ avail connF).
Proof.
  intros FN FF QN QF H. split.
  { apply (wf_projected lt tunnel_weight); [|apply lt_wf]. intros g g' Hs. by apply tunnel_step_weight. }
  intros Hst.
  assert (tunnel_calm connN connF outN outF t) as Hc.
  { eapply invariant_rtc; [|exact H|by apply tunnel_calm_init]. intros t1 t2. by apply tunnel_calm_step. }
  destruct (tunnel_calm_stuck _ _ _ _ FN FF t Hc Hst) as [[(_ & X1 & Y1 & _) M1] [(_ & X2 & Y2 & _) M2]].
  destruct (tunnel_any_complete connN connF ciN ciF outN outF t) as (? & _ & ? & _); [|done|done|].
  - eapply rtc_subrel; [|exact H]. intros ?? Hs. by left.
  - done.
Qed.

(** C9: A tunnel whose RPC and whose connections do not fail delivers: every schedule of the two
    forwarders, their four copies and the messages under way is finite, and where it ends both
    forwarders have returned nil, both connections and both ends of the stream are closed, and each
    connection was given everything the other one delivered. *)
Theorem tunnel_delivers connN ciN outN connF ciF outF t :
  fin connN = Some EOF → fin connF = Some EOF → quota outN = None → quota outF = None →
  rtc tunnel_step (tunnel_init connN ciN outN connF ciF outF) t →
  Acc (flip tunnel_step) t ∧
  ((∀ t', ¬ tunnel_step t t') →
   returned (near t) None ∧ returned (far t) None ∧
   taken (dst (intoY (far t))) = taken outF ++ avail connN ∧
   taken (dst (intoY (near t))) = taken outN ++ avail connF).
Proof. apply tunnel_total. Qed.

(** ** A run *)

(** Both copies have exited, the call has returned and both ends are closed: nothing is left to do. *)
Lemma exited_stuck f e1 e2 err f' :
  st (intoX f) = Exited e1 → st (intoY f) = Exited e2 → returned f err → ¬ forward_step f f'.
Proof.
  intros H1 H2 (Hm & Hx & Hy) Hs.
  destruct Hs as [f res c wg ch Hc|f res c wg ch Hc|f Hm'|f e es Hm'|f er Hm' Hy'|f er Hm' Hy' Hx'];
    [inversion Hc; congruence|inversion Hc; congruence|congruence..].
Qed.

Definition demo_tunnel : tunnel :=
  tunnel_init demo_in Interrupts demo_out demo_empty Interrupts demo_out.

(** Evaluate the state a run has come to; take the step [tac]. *)
Ltac norm :=
  match goal with |- rtc _ ?t _ => let t' := eval vm_compute in t in change t with t' end.
Tactic Notation "run" tactic3(tac) := eapply rtc_l; [tac|norm].

Lemma demo_tunnel_run : ∃ t, rtc tunnel_step demo_tunnel t ∧ ∀ t', ¬ tunnel_step t t'.
Proof.
  eexists. split.
  - unfold demo_tunnel. norm. run (apply t_near; eapply step_intoX; [by eapply copy_move with (k := 2)|done]).
    run (apply t_near; eapply step_intoX; [by eapply copy_end with (e := EOF)|done]).
    run (apply t_near; eapply step_intoX; [by apply copy_exit_None|done]).
    run (apply t_far; eapply step_intoX; [by eapply copy_end with (e := EOF)|done]).
    run (apply t_far; eapply step_intoX; [by apply copy_exit_None|done]).
    run (eapply t_recv_far; vm_compute; reflexivity).
    run (eapply t_recv_far; vm_compute; reflexivity).
    run (eapply t_recv_near; vm_compute; reflexivity).
    run (apply t_near; eapply step_intoY; [by eapply copy_end with (e := EOF)|done]).
    run (apply t_near; eapply step_intoY; [by apply copy_exit_None|done]).
    run (apply t_far; eapply step_intoY; [by eapply copy_move with (k := 2)|done]).
    run (apply t_far; eapply step_intoY; [by eapply copy_end with (e := EOF)|done]).
    run (apply t_far; eapply step_intoY; [by apply copy_exit_None|done]).
    run (apply t_near; by apply step_done).
    run (apply t_far; by apply step_done).
    run (apply t_near; eapply step_closeY; [done|done|by intros [(_ & ? & _)|[_ []]]]).
    run (apply t_near; eapply step_closeX; [done|done|done|by intros [(_ & ? & _)|[_ []]]]).
    run (apply t_far; eapply step_closeY; [done|done|by intros [(_ & ? & _)|[_ []]]]).
    run (apply t_far; eapply step_closeX; [done|done|done|by intros [(_ & ? & _)|[_ []]]]).
    run (eapply t_recv_far; vm_compute; reflexivity).
    run (eapply t_recv_near; vm_compute; reflexivity).
    run (eapply (t_end_send _ None); [done|done]).
    apply rtc_refl.
  - intros t' Hs. inversion Hs as [t f Hf|t f Hf|t m ms Hm|t m ms Hm|t err e Hr Hm Hrec He|t err Hr Hsn]; subst; try done.
    + by eapply exited_stuck in Hf.
    + by eapply exited_stuck in Hf.
Defined.

Lemma tunnel_integrity_witness : ∃ t, taken (dst (intoY (far t))) `prefix_of` ["a"; "b"]%char.
Proof.
  destruct demo_tunnel_run as (t & Hr & _). exists t.
  refine (proj1 (proj1 (tunnel_integrity demo_in Interrupts demo_out demo_empty Interrupts demo_out t _))).
  eapply rtc_subrel; [|exact Hr]. intros ?? Hs. by left.
Defined.

Lemma tunnel_delivers_witness : ∃ t,
  returned (near t) None ∧ returned (far t) None ∧ taken (dst (intoY (far t))) = ["a"; "b"]%char.
Proof.
  destruct demo_tunnel_run as (t & Hr & Hst). exists t.
  destruct (tunnel_delivers demo_in Interrupts demo_out demo_empty Interrupts demo_out t
    eq_refl eq_refl eq_refl eq_refl Hr) as [_ H].
  destruct (H Hst) as (H1 & H2 & H3 & _). split; [exact H1|split; [exact H2|exact H3]].
Defined.
