(* ===== verification/Ports.v ===== *)
(** * The port forwarding daemon: src/waterfall/golang/forward/ports/ports.go

    [PortForwarder] keeps the forward and the reverse sessions of a host.  Its handlers
    run under a mutex each, its goroutines between them: the daemon is a step relation
    whose steps are the handlers and the rounds of the goroutines.  What the kernel and
    the waterfall server answer is an argument of the step. *)

From S2P Require Import Prelude GoStrings Proto.

Local Open Scope Z_scope.
Local Open Scope go_scope.

(** ** Addresses *)

(** [parseAddr(addr)] *)
Definition parseAddr (addr : string) : result (string * string) :=
  match SplitN addr ":" 2 with
  | [pts0; pts1] => Ok (pts0, pts1)
  | _ => Err (ErrorString ("failed to parse address " +:+ addr))
  end.

(** [networkKind(kind)] *)
Definition networkKind (kind : string) : result Kind :=
  if decide (kind = "tcp") then Ok TCP
  else if decide (kind = "udp") then Ok UDP
  else if decide (kind = "unix") then Ok UNIX
  else Err (StatusError InvalidArgument "unknown network kind").

(** The result of a call that only returns an error. *)
Definition check (err : option error) : result () :=
  match err with None => Ok () | Some e => Err e end.

(** [conn.(forward.HalfReadWriteCloser)] for a connection [net.Dial(network, ...)] made: the
    connections of these networks have [CloseRead] and [CloseWrite], those of udp do not, and the
    assertion panics. *)
Definition half_closer (network : string) : bool :=
  bool_decide (network ∈ ["tcp"; "tcp4"; "tcp6"; "unix"; "unixgram"; "unixpacket"]).

(** [makeForwarder(ctx, c, addr, from)]: the message that opens the stream; [rpcErr] and
    [sendErr] are the errors of [c.Forward] and [rpc.Send]. *)
Definition makeForwarder (addr : string) (rpcErr sendErr : option error)
    : result ForwardMessage :=
  try! (kind, addr) := parseAddr addr in
  try! _ := check rpcErr in
  try! ntwk := networkKind kind in
  try! _ := check sendErr in
  Ok (MkForwardMessage ntwk OPEN addr []).

(** ** The daemon's state *)

(** [forwardSession]: [id] names the session object, its listener (of a forward session)
    and its context. *)
Record forwardSession := MkSession { src : string; dst : string; id : nat }.

(** A call on the waterfall client, with the session whose context it uses ([None]: the
    context of the request being handled). *)
Inductive call :=
| CallForward (ctx : option nat) (m : ForwardMessage)
| CallStartReverse (ctx : option nat) (m : ForwardMessage)
| CallReverse (ctx : option nat) (m : ForwardMessage)
| CallStopReverse (ctx : option nat) (m : ForwardMessage).

(** [sessions] and [reverseSessions] are the fields of the Go struct.  The rest is what
    the daemon holds outside it: its open listeners, the contexts it cancelled, the
    goroutines of the forward and of the reverse sessions, the calls it made, and the next
    fresh [id]. *)
Record PortForwarder := MkPF {
  sessions : gmap string forwardSession;
  reverseSessions : gmap string forwardSession;
  listening : gset nat;
  cancelled : gset nat;
  loops : gmap nat forwardSession;
  rloops : gmap nat forwardSession;
  calls : list call;
  next : nat;
}.

(** [NewServer(client)] *)
Definition NewServer : PortForwarder := MkPF ∅ ∅ ∅ ∅ ∅ ∅ [] 0.

Definition set_sessions (f : gmap string forwardSession → gmap string forwardSession)
    (pf : PortForwarder) : PortForwarder :=
  MkPF (f (sessions pf)) (reverseSessions pf) (listening pf) (cancelled pf) (loops pf)
    (rloops pf) (calls pf) (next pf).
Definition set_reverse (f : gmap string forwardSession → gmap string forwardSession)
    (pf : PortForwarder) : PortForwarder :=
  MkPF (sessions pf) (f (reverseSessions pf)) (listening pf) (cancelled pf) (loops pf)
    (rloops pf) (calls pf) (next pf).

(** [session.cancel()] *)
Definition cancel (i : nat) (pf : PortForwarder) : PortForwarder :=
  MkPF (sessions pf) (reverseSessions pf) (listening pf) ({[i]} ∪ cancelled pf) (loops pf)
    (rloops pf) (calls pf) (next pf).

Definition errListenerClosed : error := ErrorString "use of closed network connection".

(** [session.lis.Close()] *)
Definition lis_Close (i : nat) (pf : PortForwarder) : PortForwarder * option error :=
  if decide (i ∈ listening pf) then
    (MkPF (sessions pf) (reverseSessions pf) (listening pf ∖ {[i]}) (cancelled pf) (loops pf)
       (rloops pf) (calls pf) (next pf), None)
  else (pf, Some errListenerClosed).

Definition add_call (c : call) (pf : PortForwarder) : PortForwarder :=
  MkPF (sessions pf) (reverseSessions pf) (listening pf) (cancelled pf) (loops pf)
    (rloops pf) (calls pf ++ [c]) (next pf).

(** ** Forward sessions *)

(** A new listener and context, the session in the map, its goroutine started. *)
Definition startSession (s d : string) (pf : PortForwarder) : PortForwarder :=
  let ss := MkSession s d (next pf) in
  MkPF (<[s := ss]> (sessions pf)) (reverseSessions pf) ({[next pf]} ∪ listening pf)
    (cancelled pf) (<[next pf := ss]> (loops pf)) (rloops pf) (calls pf) (S (next pf)).

Definition errRebind (s : string) : error :=
  StatusError AlreadyExists ("no-rebind specified, can't forward address: " +:+ s).

(** [ForwardPort(ctx, req)]; [listen] is the error of [net.Listen]. *)
Definition ForwardPort (listen : string → string → option error) (req : PortForwardRequest)
    (pf : PortForwarder) : PortForwarder * result () :=
  let s := fs_src (pr_session req) in
  let d := fs_dst (pr_session req) in
  match parseAddr s with
  | Err e => (pf, Err e)
  | Ok (kind, addr) =>
      match parseAddr d with
      | Err e => (pf, Err e)
      | Ok _ =>
          let bind pf :=
            match listen kind addr with
            | Some e => (pf, Err e)
            | None => (startSession s d pf, Ok ())
            end in
          match sessions pf !! s with
          | Some ss =>
              if negb (pr_rebind req) then (pf, Err (errRebind s)) else
              match lis_Close (id ss) (set_sessions (delete s) pf) with
              | (pf, Some e) => (pf, Err e)
              | (pf, None) => bind pf
              end
          | None => bind pf
          end
      end
  end.

(** A round of the goroutine of session [i] that accepts a connection: the message it
    opens the stream with, or the error after which it closed the connection. *)
Definition accept_round (i : nat) (rpcErr sendErr : option error) (pf : PortForwarder)
    : option (PortForwarder * result ForwardMessage) :=
  match loops pf !! i with
  | None => None
  | Some ss =>
      match makeForwarder (dst ss) rpcErr sendErr with
      | Ok m => Some (add_call (CallForward (Some i) m) pf, Ok m)
      | Err e => Some (pf, Err e)
      end
  end.

(** The goroutine after a failed [Accept]: the deferred [lis.Close()] and [cancel()]. *)
Definition accept_exit (i : nat) (pf : PortForwarder) : PortForwarder :=
  let '(pf, _) := lis_Close i pf in
  let pf := cancel i pf in
  MkPF (sessions pf) (reverseSessions pf) (listening pf) (cancelled pf) (delete i (loops pf))
    (rloops pf) (calls pf) (next pf).

(** [Stop(ctx, req)] *)
Definition Stop (req : PortForwardRequest) (pf : PortForwarder) : PortForwarder * result () :=
  let s := fs_src (pr_session req) in
  match sessions pf !! s with
  | None => (pf, Ok ())
  | Some ss =>
      let pf := cancel (id ss) pf in
      let pf := set_sessions (delete s) pf in
      let '(pf, err) := lis_Close (id ss) pf in (pf, check err)
  end.

(** [StopAll(ctx, req)]: the sessions in some order, the range over the map. *)
Definition StopAll (pf : PortForwarder) : PortForwarder * result () :=
  let pf := foldr (λ ks pf, fst (lis_Close (id (snd ks)) (cancel (id (snd ks)) pf))) pf
              (map_to_list (sessions pf)) in
  (set_sessions (λ _, ∅) pf, Ok ()).

(** [List(ctx, req)] *)
Definition List (pf : PortForwarder) : ForwardedSessions :=
  MkForwardedSessions
    ((λ ks, MkForwardSession (src (snd ks)) (dst (snd ks))) <$> map_to_list (sessions pf)).

(** ** Reverse sessions *)

(** [stopReverseForwarding(ctx, session)]; [stopErr] is the error of the
    [StopReverseForward] call. *)
Definition stopReverseForwarding (ctx : option nat) (ss : forwardSession)
    (stopErr : option error) (pf : PortForwarder) : PortForwarder * result () :=
  match parseAddr (src ss) with
  | Err e => (cancel (id ss) pf, Err e)
  | Ok (kind, addr) =>
      let pf := set_reverse (delete (src ss)) pf in
      match networkKind kind with
      | Err e => (cancel (id ss) pf, Err e)
      | Ok ntwk =>
          let pf := add_call (CallStopReverse ctx (MkForwardMessage ntwk CLOSE addr [])) pf in
          (cancel (id ss) pf, check stopErr)
      end
  end.

(** The part of [ReverseForwardPort] after an old session was stopped; a context is made
    before the call, so its [id] is used up whether or not it succeeds. *)
Definition startReverse (s d : string) (startErr : option error) (pf : PortForwarder)
    : PortForwarder * result () :=
  match parseAddr s with
  | Err e => (pf, Err e)
  | Ok (srcKind, srcAddr) =>
      match parseAddr d with
      | Err e => (pf, Err e)
      | Ok _ =>
          match networkKind srcKind with
          | Err e => (pf, Err e)
          | Ok srcNtwk =>
              let i := next pf in
              let pf := add_call
                (CallStartReverse (Some i) (MkForwardMessage srcNtwk OPEN srcAddr [])) pf in
              match startErr with
              | Some e =>
                  (MkPF (sessions pf) (reverseSessions pf) (listening pf) (cancelled pf)
                     (loops pf) (rloops pf) (calls pf) (S i), Err e)
              | None =>
                  let ss := MkSession s d i in
                  (MkPF (sessions pf) (<[s := ss]> (reverseSessions pf)) (listening pf)
                     (cancelled pf) (loops pf) (<[i := ss]> (rloops pf)) (calls pf) (S i), Ok ())
              end
          end
      end
  end.

(** [ReverseForwardPort(ctx, req)] *)
Definition ReverseForwardPort (stopErr startErr : option error) (req : PortForwardRequest)
    (pf : PortForwarder) : PortForwarder * result () :=
  let s := fs_src (pr_session req) in
  let d := fs_dst (pr_session req) in
  match reverseSessions pf !! s with
  | Some rs =>
      if negb (pr_rebind req) then (pf, Err (errRebind s)) else
      match stopReverseForwarding None rs stopErr pf with
      | (pf, Err e) => (pf, Err e)
      | (pf, Ok _) => startReverse s d startErr pf
      end
  | None => startReverse s d startErr pf
  end.

(** What a round of a reverse goroutine does with a message: it leaves the loop; it opened
    a stream with message [m], and forwards it ([dialed]) or goes on without; or it panics on the
    connection it dialled for it. *)
Inductive rround :=
| RLeave (sent : option ForwardMessage)
| RNext (m : ForwardMessage) (dialed : bool)
| RPanic (m : ForwardMessage).

(** One round after [ncs.Recv()] returned [fwd]; [rpcErr], [sendErr] and [dialErr] are the
    errors of [ReverseForward], [Send] and [net.Dial].  [ReverseForwardPort] has parsed both
    addresses before it starts the goroutine. *)
Definition reverse_round (ss : forwardSession) (fwd : ForwardMessage)
    (rpcErr sendErr dialErr : option error) : rround :=
  match parseAddr (src ss) with
  | Err _ => RLeave None
  | Ok (srcKind, srcAddr) =>
      match networkKind srcKind with
      | Err _ => RLeave None
      | Ok srcNtwk =>
          if decide (fm_op fwd ≠ OPEN) then RLeave None else
          match rpcErr with
          | Some _ => RLeave None
          | None =>
              let '(ntwk, addr) :=
                if decide (fm_kind fwd ≠ UNSET ∧ 0 < slen (fm_addr fwd))
                then (fm_kind fwd, fm_addr fwd) else (srcNtwk, srcAddr) in
              let m := MkForwardMessage ntwk OPEN addr [] in
              match sendErr with
              | Some _ => RLeave (Some m)
              | None =>
                  match dialErr, parseAddr (dst ss) with
                  | None, Ok (dstKind, _) => if half_closer dstKind then RNext m true else RPanic m
                  | _, _ => RNext m false
                  end
              end
          end
      end
  end.

(** The goroutine leaves its loop: the deferred [stopReverseForwarding(fCtx, ss)]. *)
Definition reverse_exit (ss : forwardSession) (stopErr : option error) (pf : PortForwarder)
    : PortForwarder :=
  let '(pf, _) := stopReverseForwarding (Some (id ss)) ss stopErr pf in
  MkPF (sessions pf) (reverseSessions pf) (listening pf) (cancelled pf) (loops pf)
    (delete (id ss) (rloops pf)) (calls pf) (next pf).

(** A round of the goroutine of reverse session [i].  A panic takes the daemon down. *)
Definition reverse_recv (i : nat) (fwd : ForwardMessage)
    (rpcErr sendErr dialErr stopErr : option error) (pf : PortForwarder)
    : option (outcome PortForwarder) :=
  match rloops pf !! i with
  | None => None
  | Some ss =>
      match reverse_round ss fwd rpcErr sendErr dialErr with
      | RLeave None => Some (Ret (reverse_exit ss stopErr pf))
      | RLeave (Some m) =>
          Some (Ret (reverse_exit ss stopErr (add_call (CallReverse (Some i) m) pf)))
      | RNext m _ => Some (Ret (add_call (CallReverse (Some i) m) pf))
      | RPanic _ => Some Panic
      end
  end.

(** [StopReverse(ctx, req)] *)
Definition StopReverse (stopErr : option error) (req : PortForwardRequest) (pf : PortForwarder)
    : PortForwarder * result () :=
  match reverseSessions pf !! fs_src (pr_session req) with
  | None => (pf, Ok ())
  | Some ss => stopReverseForwarding None ss stopErr pf
  end.

(** ** The daemon *)

Inductive pf_step : PortForwarder → PortForwarder → Prop :=
| pf_forward listen req pf : pf_step pf (fst (ForwardPort listen req pf))
| pf_stop req pf : pf_step pf (fst (Stop req pf))
| pf_stop_all pf : pf_step pf (fst (StopAll pf))
| pf_accept i e1 e2 pf pf' r :
    i ∈ listening pf → accept_round i e1 e2 pf = Some (pf', r) → pf_step pf pf'
| pf_accept_exit i ss pf : loops pf !! i = Some ss → pf_step pf (accept_exit i pf)
| pf_reverse e1 e2 req pf : pf_step pf (fst (ReverseForwardPort e1 e2 req pf))
| pf_stop_reverse e req pf : pf_step pf (fst (StopReverse e req pf))
| pf_recv i fwd e1 e2 e3 e4 pf pf' :
    reverse_recv i fwd e1 e2 e3 e4 pf = Some (Ret pf') → pf_step pf pf'
| pf_recv_err i ss e pf : rloops pf !! i = Some ss → pf_step pf (reverse_exit ss e pf).

(** ** The invariant of the forward sessions *)

(** Sessions are filed under their source and have listeners of their own; an open
    listener belongs to a session of the map and is served by that session's goroutine; a
    session whose listener was closed by its goroutine has its context cancelled; a stream
    opened for a connection has a running goroutine or a cancelled context behind it. *)
Record fwd_wf (pf : PortForwarder) : Prop := {
  fw_key k s : sessions pf !! k = Some s → src s = k ∧ (id s < next pf)%nat;
  fw_inj k1 k2 s1 s2 :
    sessions pf !! k1 = Some s1 → sessions pf !! k2 = Some s2 → id s1 = id s2 → k1 = k2;
  fw_owned i : i ∈ listening pf → ∃ k s, sessions pf !! k = Some s ∧ id s = i;
  fw_loop i s : loops pf !! i = Some s → id s = i ∧ (i < next pf)%nat;
  fw_served k s : sessions pf !! k = Some s → id s ∈ listening pf → loops pf !! id s = Some s;
  fw_dead k s : sessions pf !! k = Some s → id s ∉ listening pf → id s ∈ cancelled pf;
  fw_stream i m :
    CallForward (Some i) m ∈ calls pf → is_Some (loops pf !! i) ∨ i ∈ cancelled pf;
}.

(** The parts of the state the invariant reads. *)
Lemma fwd_wf_ext pf pf' :
  fwd_wf pf → sessions pf' = sessions pf → listening pf' = listening pf →
  loops pf' = loops pf → cancelled pf ⊆ cancelled pf' → (next pf ≤ next pf')%nat →
  (∀ i m, CallForward (Some i) m ∈ calls pf' → CallForward (Some i) m ∈ calls pf) →
  fwd_wf pf'.
Proof.
  intros [Hk Hi Ho Hl Hs Hd Hst] E1 E2 E3 Hc Hn Hcall.
  split; rewrite ?E1, ?E2, ?E3; try done.
  - intros k s H. destruct (Hk _ _ H). split; [done|lia].
  - intros i s H. destruct (Hl _ _ H). split; [done|lia].
  - set_solver.
  - intros i m H. destruct (Hst _ _ (Hcall _ _ H)); [by left|right; set_solver].
Qed.

Lemma NewServer_wf : fwd_wf NewServer.
Proof. split; cbn; set_solver. Qed.

(** Dropping a session and closing its listener. *)
Lemma drop_session_wf k s pf :
  fwd_wf pf → sessions pf !! k = Some s →
  fwd_wf (fst (lis_Close (id s) (set_sessions (delete k) pf))).
Proof.
  intros [Hk Hi Ho Hl Hs Hd Hst] Hks. unfold lis_Close, set_sessions; cbn.
  destruct (decide (id s ∈ listening pf)) as [Hin|Hin]; split; cbn; try done.
  all: try (intros k' s' [Hne H]%lookup_delete_Some; by apply Hk).
  all: try (intros k1 k2 s1 s2 [_ ?]%lookup_delete_Some [_ ?]%lookup_delete_Some; by apply Hi).
  - intros i [Hil Hne]%elem_of_difference. destruct (Ho _ Hil) as (k' & s' & H & <-).
    exists k', s'. split; [|done]. apply lookup_delete_Some. split; [|done]. intros ->.
    rewrite Hks in H. injection H as <-. set_solver.
  - intros k' s' [_ H]%lookup_delete_Some Hin'. apply (Hs _ _ H). set_solver.
  - intros k' s' [Hne H]%lookup_delete_Some Hin'. apply (Hd _ _ H). intros Hil. apply Hin'.
    apply elem_of_difference. split; [done|]. rewrite elem_of_singleton. intros Heq.
    apply Hne. by eapply Hi.
  - intros i Hil. destruct (Ho _ Hil) as (k' & s' & H & <-). exists k', s'. split; [|done].
    apply lookup_delete_Some. split; [|done]. intros ->. rewrite Hks in H.
    injection H as <-. done.
  - intros k' s' [_ H]%lookup_delete_Some. by apply (Hs _ _ H).
  - intros k' s' [Hne H]%lookup_delete_Some. by apply (Hd _ _ H).
Qed.

Lemma startSession_wf s d pf :
  fwd_wf pf → sessions pf !! s = None → fwd_wf (startSession s d pf).
Proof.
  intros [Hk Hi Ho Hl Hs Hd Hst] Hnone. unfold startSession. split; cbn.
  - intros k s' [[<- <-]|[Hne H]]%lookup_insert_Some; cbn; [split; [done|lia]|].
    destruct (Hk _ _ H). split; [done|lia].
  - intros k1 k2 s1 s2 [[<- <-]|[Hn1 H1]]%lookup_insert_Some
      [[<- <-]|[Hn2 H2]]%lookup_insert_Some; cbn; intros Heq; try done.
    + destruct (Hk _ _ H2). lia.
    + destruct (Hk _ _ H1). lia.
    + by eapply Hi.
  - intros i [->%elem_of_singleton|Hin]%elem_of_union.
    + exists s. eexists. by rewrite lookup_insert_eq.
    + destruct (Ho _ Hin) as (k & s' & H & <-). exists k, s'. split; [|done].
      rewrite lookup_insert_ne; [done|]. intros <-. congruence.
  - intros i s' [[<- <-]|[Hne H]]%lookup_insert_Some; cbn; [split; [done|lia]|].
    destruct (Hl _ _ H). split; [done|lia].
  - intros k s' [[<- <-]|[Hne H]]%lookup_insert_Some Hin; cbn; [by rewrite lookup_insert_eq|].
    destruct (Hk _ _ H). rewrite lookup_insert_ne by lia. apply (Hs _ _ H).
    set_unfold. destruct Hin; [lia|done].
  - intros k s' [[<- <-]|[Hne H]]%lookup_insert_Some Hin; [set_solver|].
    apply (Hd _ _ H). set_solver.
  - intros i m H. destruct (Hst _ _ H) as [[s' Hs']|]; [left|by right].
    destruct (decide (next pf = i)) as [<-|]; [rewrite lookup_insert_eq; eauto|].
    rewrite lookup_insert_ne by done. eauto.
Qed.

Lemma cancel_wf i pf : fwd_wf pf → fwd_wf (cancel i pf).
Proof. intros H. apply (fwd_wf_ext pf); cbn; try done. set_solver. Qed.

Lemma ForwardPort_wf listen req pf : fwd_wf pf → fwd_wf (fst (ForwardPort listen req pf)).
Proof.
  intros Hwf. unfold ForwardPort. cbv zeta.
  destruct (parseAddr (fs_src (pr_session req))) as [[kind addr]|e]; [|done].
  destruct (parseAddr (fs_dst (pr_session req))) as [_|e]; [|done].
  destruct (sessions pf !! _) as [ss|] eqn:Hss.
  2: { destruct (listen kind addr); [done|]. by apply startSession_wf. }
  destruct (pr_rebind req); [cbn|done].
  pose proof (drop_session_wf _ _ _ Hwf Hss) as Hd.
  destruct (lis_Close _ _) as [pf' [e|]] eqn:Hc; [done|].
  destruct (listen kind addr); [done|]. apply startSession_wf; [done|].
  unfold lis_Close in Hc. case_decide; [|done]. injection Hc as <-. cbn.
  by rewrite lookup_delete_eq.
Qed.

Lemma Stop_wf req pf : fwd_wf pf → fwd_wf (fst (Stop req pf)).
Proof.
  intros Hwf. unfold Stop. cbv zeta. destruct (sessions pf !! _) as [ss|] eqn:Hss; [|done].
  pose proof (drop_session_wf _ _ _ (cancel_wf (id ss) _ Hwf) Hss) as Hd.
  by destruct (lis_Close _ _).
Qed.

Lemma accept_exit_wf i ss pf :
  fwd_wf pf → loops pf !! i = Some ss → fwd_wf (accept_exit i pf).
Proof.
  intros [Hk Hi Ho Hl Hs Hd Hst] Hi0. unfold accept_exit, lis_Close.
  case_decide; split; cbn; try done.
  all: try (intros i' Hin; apply Ho; clear -Hin; set_solver).
  all: try (intros i' s' [_ H']%lookup_delete_Some; by apply Hl).
  - intros k s H' Hin. rewrite lookup_delete_ne by set_solver. apply (Hs _ _ H'). set_solver.
  - intros k s H' Hin. destruct (decide (id s = i)) as [->|]; [set_solver|].
    apply elem_of_union_r, (Hd _ _ H'). set_solver.
  - intros i' m Hc. destruct (decide (i = i')) as [<-|]; [right; set_solver|].
    rewrite lookup_delete_ne by done. destruct (Hst _ _ Hc); [by left|right; set_solver].
  - intros k s H' Hin. rewrite lookup_delete_ne by congruence. by apply (Hs _ _ H').
  - intros k s H' Hin. apply elem_of_union_r. by apply (Hd _ _ H').
  - intros i' m Hc. destruct (decide (i = i')) as [<-|]; [right; set_solver|].
    rewrite lookup_delete_ne by done. destruct (Hst _ _ Hc); [by left|right; set_solver].
Qed.

Lemma accept_round_wf i e1 e2 pf pf' r :
  fwd_wf pf → accept_round i e1 e2 pf = Some (pf', r) → fwd_wf pf'.
Proof.
  unfold accept_round. intros Hwf. destruct (loops pf !! i) as [ss|] eqn:Hl; [|done].
  destruct (makeForwarder _ _ _) as [m|e]; intros [= <- <-]; [|done].
  destruct Hwf as [Hk Hi Ho Hlp Hs Hd Hst]. split; cbn; try done.
  intros i' m' [H|H]%elem_of_app; [by eapply Hst|]. apply list_elem_of_singleton in H.
  injection H as -> ->. left. eauto.
Qed.

Definition ids (l : list (string * forwardSession)) : gset nat :=
  list_to_set ((λ ks, id (snd ks)) <$> l).

Lemma stop_fold_spec l pf :
  foldr (λ ks pf, fst (lis_Close (id (snd ks)) (cancel (id (snd ks)) pf))) pf l =
  MkPF (sessions pf) (reverseSessions pf) (listening pf ∖ ids l) (ids l ∪ cancelled pf)
    (loops pf) (rloops pf) (calls pf) (next pf).
Proof.
  induction l as [|[k s] l IH]; cbn.
  - destruct pf; cbn. f_equal; unfold ids; cbn; set_solver.
  - rewrite IH. unfold lis_Close, cancel; cbn. change (ids ((k, s) :: l)) with ({[id s]} ∪ ids l).
    case_decide as Hin; cbn; f_equal; set_solver.
Qed.

Lemma ids_elem pf k s :
  sessions pf !! k = Some s → id s ∈ ids (map_to_list (sessions pf)).
Proof.
  intros H. unfold ids. apply elem_of_list_to_set, list_elem_of_fmap.
  exists (k, s). split; [done|]. by apply elem_of_map_to_list.
Qed.

Lemma StopAll_state pf :
  fwd_wf pf →
  fst (StopAll pf) =
  MkPF ∅ (reverseSessions pf) ∅ (ids (map_to_list (sessions pf)) ∪ cancelled pf)
    (loops pf) (rloops pf) (calls pf) (next pf).
Proof.
  intros Hwf. unfold StopAll. cbn [fst]. rewrite stop_fold_spec. unfold set_sessions. cbn.
  f_equal. apply set_eq. intros i. split; [|set_solver].
  intros [Hin Hno]%elem_of_difference. destruct (fw_owned _ Hwf _ Hin) as (k & s & H & <-).
  exfalso. apply Hno. by eapply ids_elem.
Qed.

Lemma StopAll_wf pf : fwd_wf pf → fwd_wf (fst (StopAll pf)).
Proof.
  intros Hwf. rewrite (StopAll_state _ Hwf). destruct Hwf as [Hk Hi Ho Hl Hs Hd Hst].
  split; cbn; [by intros ??|by intros ????| |done|by intros ??|by intros ??|].
  - intros i. set_solver.
  - intros i m H. destruct (Hst _ _ H); [by left|right; set_solver].
Qed.

(** Reverse operations leave the forward sessions alone. *)
Lemma stopReverse_wf ctx ss e pf :
  fwd_wf pf → fwd_wf (fst (stopReverseForwarding ctx ss e pf)).
Proof.
  intros Hwf. unfold stopReverseForwarding.
  destruct (parseAddr (src ss)) as [[kind addr]|]; [|by apply cancel_wf].
  destruct (networkKind kind) as [ntwk|]; cbn; (apply (fwd_wf_ext pf); cbn; [done..|set_solver| |]);
    try done.
  intros i m. rewrite elem_of_app, list_elem_of_singleton. by intros [?|?].
Qed.

Lemma startReverse_wf s d e pf : fwd_wf pf → fwd_wf (fst (startReverse s d e pf)).
Proof.
  intros Hwf. unfold startReverse. destruct (parseAddr s) as [[sk sa]|]; [|done].
  destruct (parseAddr d) as [_|]; [|done]. destruct (networkKind sk) as [ntwk|]; [|done].
  destruct e; cbn; (apply (fwd_wf_ext pf); cbn; [done..|lia|]);
    intros i m; rewrite elem_of_app, list_elem_of_singleton; by intros [?|?].
Qed.

Lemma reverse_exit_wf ss e pf : fwd_wf pf → fwd_wf (reverse_exit ss e pf).
Proof.
  intros Hwf. unfold reverse_exit.
  pose proof (stopReverse_wf (Some (id ss)) ss e _ Hwf) as H.
  destruct (stopReverseForwarding _ _ _ _) as [pf' r]. apply (fwd_wf_ext pf'); done.
Qed.

Lemma add_reverse_wf c m pf : fwd_wf pf → fwd_wf (add_call (CallReverse c m) pf).
Proof.
  intros Hwf. apply (fwd_wf_ext pf); cbn; try done.
  intros i m'. rewrite elem_of_app, list_elem_of_singleton. by intros [?|?].
Qed.

#[local] Hint Resolve ForwardPort_wf Stop_wf StopAll_wf accept_exit_wf accept_round_wf
  stopReverse_wf startReverse_wf reverse_exit_wf add_reverse_wf : go.

Lemma pf_step_wf : invariant pf_step fwd_wf.
Proof.
  intros pf pf' Hwf Hs. destruct Hs as [| | | | |e1 e2 req pf|e req pf|i fwd e1 e2 e3 e4 pf pf' H|];
    eauto with go.
  - unfold ReverseForwardPort. cbv zeta. destruct (reverseSessions pf !! _) as [rs|]; [|auto with go].
    destruct (pr_rebind req); [cbn|done].
    pose proof (stopReverse_wf None rs e1 _ Hwf) as H.
    destruct (stopReverseForwarding _ _ _ _) as [pf' [[]|e]]; auto with go.
  - unfold StopReverse. destruct (reverseSessions pf !! _) as [rs|]; auto with go.
  - unfold reverse_recv in H. destruct (rloops pf !! i) as [ss|]; [|done].
    destruct (reverse_round _ _ _ _ _) as [[m|]|m d|m]; simplify_eq; auto with go.
Qed.

Lemma pf_reach_wf pf : rtc pf_step NewServer pf → fwd_wf pf.
Proof. intros H. eapply invariant_rtc; [apply pf_step_wf|exact H|apply NewServer_wf]. Qed.

(** ** The invariant of the reverse sessions *)

(** A listed reverse session is filed under its source, its goroutine runs and its
    context is live; identifiers in use were handed out. *)
Record rev_wf (pf : PortForwarder) : Prop := {
  rw_key k s : reverseSessions pf !! k = Some s → src s = k;
  rw_live k s : reverseSessions pf !! k = Some s → id s ∉ cancelled pf;
  rw_runs k s : reverseSessions pf !! k = Some s → rloops pf !! id s = Some s;
  rw_loop i s :
    rloops pf !! i = Some s → id s = i ∧ (i < next pf)%nat ∧ ∃ p, parseAddr (src s) = Ok p;
  rw_fresh i : i ∈ cancelled pf → (i < next pf)%nat;
  rw_fwd k s : sessions pf !! k = Some s → (id s < next pf)%nat ∧ rloops pf !! id s = None;
  rw_floop i s : loops pf !! i = Some s → (i < next pf)%nat ∧ rloops pf !! i = None;
}.

Lemma NewServer_rev : rev_wf NewServer.
Proof. split; cbn; set_solver. Qed.

(** Forward operations: fewer forward sessions and goroutines, the contexts of forward
    sessions cancelled. *)
Lemma rev_wf_fwd pf pf' :
  rev_wf pf → reverseSessions pf' = reverseSessions pf → rloops pf' = rloops pf →
  sessions pf' ⊆ sessions pf → loops pf' ⊆ loops pf → next pf' = next pf →
  (∀ i, i ∈ cancelled pf' → i ∈ cancelled pf ∨ ((i < next pf)%nat ∧ rloops pf !! i = None)) →
  rev_wf pf'.
Proof.
  intros [Hk Hli Hr Hl Hf Hs Hfl] E1 E2 Hss Hll En Hc.
  split; rewrite ?E1, ?E2, ?En; try done.
  - intros k s H Hin. destruct (Hc _ Hin) as [Hin'|[_ Hno]]; [by eapply Hli|].
    by rewrite (Hr _ _ H) in Hno.
  - intros i Hin. destruct (Hc _ Hin) as [Hin'|[? _]]; [by apply Hf|done].
  - intros k s H. eapply Hs. by eapply lookup_weaken.
  - intros i s H. eapply Hfl. by eapply lookup_weaken.
Qed.

Lemma lis_Close_rev i pf : rev_wf pf → rev_wf (fst (lis_Close i pf)).
Proof.
  intros H. unfold lis_Close. case_decide; [|done]. apply (rev_wf_fwd pf); cbn; try done. by left.
Qed.

Lemma delete_session_rev k pf : rev_wf pf → rev_wf (set_sessions (delete k) pf).
Proof.
  intros H. apply (rev_wf_fwd pf); cbn; try done; [|by left]. apply delete_subseteq.
Qed.

Lemma cancel_rev i pf :
  rev_wf pf → (i < next pf)%nat ∧ rloops pf !! i = None → rev_wf (cancel i pf).
Proof.
  intros H Hi. apply (rev_wf_fwd pf); cbn; try done. intros j.
  rewrite elem_of_union, elem_of_singleton. intros [->|?]; [by right|by left].
Qed.

Lemma startSession_rev s d pf : rev_wf pf → rev_wf (startSession s d pf).
Proof.
  intros [Hk Hli Hr Hl Hf Hs Hfl]. unfold startSession.
  assert (rloops pf !! next pf = None) as Hn.
  { destruct (rloops pf !! next pf) eqn:E; [|done]. destruct (Hl _ _ E) as (_ & ? & _). lia. }
  split; cbn; try done.
  - intros i s' H. destruct (Hl _ _ H) as (? & ? & ?). split_and!; [done|lia|done].
  - intros i H. pose proof (Hf _ H). lia.
  - intros k s' [[<- <-]|[_ H]]%lookup_insert_Some; cbn; [split; [lia|done]|].
    destruct (Hs _ _ H). split; [lia|done].
  - intros i s' [[<- <-]|[_ H]]%lookup_insert_Some; [split; [lia|done]|].
    destruct (Hfl _ _ H). split; [lia|done].
Qed.

Lemma ForwardPort_rev listen req pf : rev_wf pf → rev_wf (fst (ForwardPort listen req pf)).
Proof.
  intros Hwf. unfold ForwardPort. cbv zeta.
  destruct (parseAddr (fs_src (pr_session req))) as [[kind addr]|e]; [|done].
  destruct (parseAddr (fs_dst (pr_session req))) as [_|e]; [|done].
  destruct (sessions pf !! _) as [ss|] eqn:Hss.
  2: { destruct (listen kind addr); [done|]. by apply startSession_rev. }
  destruct (pr_rebind req); [cbn|done].
  pose proof (lis_Close_rev (id ss) _ (delete_session_rev (fs_src (pr_session req)) _ Hwf)) as Hd.
  destruct (lis_Close _ _) as [pf' [e|]]; [done|].
  destruct (listen kind addr); [done|]. by apply startSession_rev.
Qed.

Lemma Stop_rev req pf : rev_wf pf → rev_wf (fst (Stop req pf)).
Proof.
  intros Hwf. unfold Stop. cbv zeta. destruct (sessions pf !! _) as [ss|] eqn:Hss; [|done].
  pose proof (lis_Close_rev (id ss) _ (delete_session_rev (fs_src (pr_session req)) _
    (cancel_rev (id ss) _ Hwf (rw_fwd _ Hwf _ _ Hss)))) as Hd.
  by destruct (lis_Close _ _).
Qed.

Lemma StopAll_rev pf : rev_wf pf → rev_wf (fst (StopAll pf)).
Proof.
  intros Hwf. unfold StopAll. cbn [fst]. rewrite stop_fold_spec.
  apply (rev_wf_fwd pf); cbn; try done; [apply map_empty_subseteq|].
  intros i. rewrite elem_of_union. intros [Hi|Hi]; [right|by left].
  unfold ids in Hi. apply elem_of_list_to_set, list_elem_of_fmap in Hi as ([k s] & -> & Hin).
  apply elem_of_map_to_list in Hin. by eapply rw_fwd.
Qed.

Lemma accept_exit_rev i ss pf : rev_wf pf → loops pf !! i = Some ss → rev_wf (accept_exit i pf).
Proof.
  intros Hwf Hl. unfold accept_exit. pose proof (rw_floop _ Hwf _ _ Hl) as Hi.
  assert (cancelled (fst (lis_Close i pf)) = cancelled pf ∧ next (fst (lis_Close i pf)) = next pf ∧
    rloops (fst (lis_Close i pf)) = rloops pf) as (E1 & E2 & E3)
    by (unfold lis_Close; case_decide; done).
  pose proof (lis_Close_rev i _ Hwf) as H. destruct (lis_Close i pf) as [pf1 err]. cbn in *.
  apply (rev_wf_fwd pf1); cbn; try done; [apply delete_subseteq|].
  intros j. rewrite elem_of_union, elem_of_singleton, E2, E3. intros [->|?]; [by right|by left].
Qed.

Lemma add_call_rev c pf : rev_wf pf → rev_wf (add_call c pf).
Proof. intros H. apply (rev_wf_fwd pf); cbn; try done. by left. Qed.

(** Cancelling a reverse session and forgetting the session under its source. *)
Lemma stop_reverse_core ss pf :
  rev_wf pf → rloops pf !! id ss = Some ss →
  rev_wf (cancel (id ss) (set_reverse (delete (src ss)) pf)).
Proof.
  intros [Hk Hli Hr Hl Hf Hs Hfl] Hss. split; cbn; try done.
  - intros k s [_ H]%lookup_delete_Some. by apply Hk.
  - intros k s [Hne H]%lookup_delete_Some. rewrite not_elem_of_union, not_elem_of_singleton.
    split; [|by eapply Hli]. intros Heq. apply Hne. pose proof (Hr _ _ H) as H'.
    rewrite Heq, Hss in H'. injection H' as ->. by apply Hk.
  - intros k s [_ H]%lookup_delete_Some. by eapply Hr.
  - intros i. rewrite elem_of_union, elem_of_singleton. intros [->|?]; [|by apply Hf].
    by destruct (Hl _ _ Hss) as (_ & ? & _).
Qed.

Lemma stopReverse_rev ctx ss e pf :
  rev_wf pf → rloops pf !! id ss = Some ss →
  rev_wf (fst (stopReverseForwarding ctx ss e pf)) ∧
  rloops (fst (stopReverseForwarding ctx ss e pf)) = rloops pf ∧
  reverseSessions (fst (stopReverseForwarding ctx ss e pf)) !! src ss = None.
Proof.
  intros Hwf Hss. destruct (rw_loop _ Hwf _ _ Hss) as (_ & _ & [kind addr] & Hp).
  unfold stopReverseForwarding. rewrite Hp.
  destruct (networkKind kind) as [ntwk|]; cbn; (split; [|by rewrite lookup_delete_eq]).
  - apply (add_call_rev (CallStopReverse ctx (MkForwardMessage ntwk CLOSE addr [])) _
      (stop_reverse_core _ _ Hwf Hss)).
  - by apply stop_reverse_core.
Qed.

Lemma reverse_exit_rev ss e pf :
  rev_wf pf → rloops pf !! id ss = Some ss → rev_wf (reverse_exit ss e pf).
Proof.
  intros Hwf Hss. unfold reverse_exit.
  destruct (stopReverse_rev (Some (id ss)) ss e pf Hwf Hss) as (H & El & Hno).
  destruct (stopReverseForwarding _ _ _ _) as [pf' r]. cbn in *.
  destruct H as [Hk Hli Hr Hl Hf Hs Hfl]. split; cbn; try done.
  - intros k s H. rewrite lookup_delete_ne; [by eapply Hr|]. intros Heq.
    pose proof (Hr _ _ H) as H'. rewrite El, <- Heq, Hss in H'. injection H' as <-.
    rewrite <- (Hk _ _ H) in H. by rewrite Hno in H.
  - intros i s [_ H]%lookup_delete_Some. by apply Hl.
  - intros k s H. destruct (Hs _ _ H). split; [done|]. by apply lookup_delete_None; right.
  - intros i s H. destruct (Hfl _ _ H). split; [done|]. by apply lookup_delete_None; right.
Qed.

Lemma startReverse_rev s d e pf : rev_wf pf → rev_wf (fst (startReverse s d e pf)).
Proof.
  intros Hwf. unfold startReverse. destruct (parseAddr s) as [[sk sa]|] eqn:Hp; [|done].
  destruct (parseAddr d) as [_|]; [|done]. destruct (networkKind sk) as [ntwk|]; [|done].
  destruct Hwf as [Hk Hli Hr Hl Hf Hs Hfl].
  assert (∀ i s, rloops pf !! i = Some s →
    id s = i ∧ (i < S (next pf))%nat ∧ ∃ p, parseAddr (src s) = Ok p) as Hl'.
  { intros i s' H. destruct (Hl _ _ H) as (? & ? & ?). split_and!; [done|lia|done]. }
  destruct e; split; cbn; try done.
  - intros i H. pose proof (Hf _ H). lia.
  - intros k s' H. destruct (Hs _ _ H). split; [lia|done].
  - intros i s' H. destruct (Hfl _ _ H). split; [lia|done].
  - intros k s' [[<- <-]|[_ H]]%lookup_insert_Some; [done|by apply Hk].
  - intros k s' [[<- <-]|[_ H]]%lookup_insert_Some; cbn; [|by eapply Hli].
    intros H. pose proof (Hf _ H). lia.
  - intros k s' [[<- <-]|[_ H]]%lookup_insert_Some; cbn; [by rewrite lookup_insert_eq|].
    pose proof (Hr _ _ H) as H'. destruct (Hl _ _ H') as (_ & ? & _).
    rewrite lookup_insert_ne by lia. done.
  - intros i s' [[<- <-]|[_ H]]%lookup_insert_Some; cbn; [split_and!; [done|lia|eauto]|auto].
  - intros i H. pose proof (Hf _ H). lia.
  - intros k s' H. destruct (Hs _ _ H). split; [lia|]. by rewrite lookup_insert_ne by lia.
  - intros i s' H. destruct (Hfl _ _ H). split; [lia|]. by rewrite lookup_insert_ne by lia.
Qed.

Lemma ReverseForwardPort_rev e1 e2 req pf :
  rev_wf pf → rev_wf (fst (ReverseForwardPort e1 e2 req pf)).
Proof.
  intros Hwf. unfold ReverseForwardPort. cbv zeta.
  destruct (reverseSessions pf !! _) as [rs|] eqn:Hrs; [|by apply startReverse_rev].
  destruct (pr_rebind req); [cbn|done].
  destruct (stopReverse_rev None rs e1 pf Hwf (rw_runs _ Hwf _ _ Hrs)) as [H _].
  destruct (stopReverseForwarding _ _ _ _) as [pf' [[]|e]]; [by apply startReverse_rev|done].
Qed.

Lemma reverse_recv_rev i fwd e1 e2 e3 e4 pf pf' :
  rev_wf pf → reverse_recv i fwd e1 e2 e3 e4 pf = Some (Ret pf') → rev_wf pf'.
Proof.
  unfold reverse_recv. intros Hwf. destruct (rloops pf !! i) as [ss|] eqn:Hss; [|done].
  destruct (rw_loop _ Hwf _ _ Hss) as (<- & _ & _).
  destruct (reverse_round _ _ _ _ _) as [[m|]|m d|m]; intros [= <-].
  - apply reverse_exit_rev; [by apply add_call_rev|done].
  - by apply reverse_exit_rev.
  - by apply add_call_rev.
Qed.

Lemma pf_step_rev : invariant pf_step rev_wf.
Proof.
  intros pf pf' Hwf Hs. destruct Hs as [| | |i e1 e2 pf pf' r Hi Ha| |e1 e2 req pf|e req pf|
    |i ss e pf Hl].
  - by apply ForwardPort_rev.
  - by apply Stop_rev.
  - by apply StopAll_rev.
  - unfold accept_round in Ha. destruct (loops pf !! i); [|done].
    destruct (makeForwarder _ _ _); injection Ha as <- <-; [by apply add_call_rev|done].
  - by eapply accept_exit_rev.
  - by apply ReverseForwardPort_rev.
  - unfold StopReverse. destruct (reverseSessions pf !! _) as [rs|] eqn:Hrs; [|done].
    apply stopReverse_rev; [done|]. by eapply rw_runs.
  - by eapply reverse_recv_rev.
  - destruct (rw_loop _ Hwf _ _ Hl) as (<- & _ & _). by apply reverse_exit_rev.
Qed.

Lemma pf_reach_rev pf : rtc pf_step NewServer pf → rev_wf pf.
Proof. intros H. eapply invariant_rtc; [apply pf_step_rev|exact H|apply NewServer_rev]. Qed.

(** ** The invariant of the addresses *)

(** An address the daemon can split, and one whose network it knows. *)
Definition is_addr (a : string) : Prop := ∃ k x, parseAddr a = Ok (k, x).
Definition net_addr (a : string) : Prop := ∃ k x n, parseAddr a = Ok (k, x) ∧ networkKind k = Ok n.

Lemma net_addr_is_addr a : net_addr a → is_addr a.
Proof. intros (k & x & n & H & _). by exists k, x. Qed.

(** A message with a network, of the operation its call asks for. *)
Definition call_typed (c : call) : Prop :=
  match c with
  | CallForward _ m | CallStartReverse _ m | CallReverse _ m => fm_op m = OPEN ∧ fm_kind m ≠ UNSET
  | CallStopReverse _ m => fm_op m = CLOSE ∧ fm_kind m ≠ UNSET
  end.

Lemma networkKind_set k n : networkKind k = Ok n → n ≠ UNSET.
Proof. unfold networkKind. repeat case_decide; congruence. Qed.

Record typed (pf : PortForwarder) : Prop := {
  ty_fwd : map_Forall (λ k s, src s = k ∧ is_addr (src s) ∧ is_addr (dst s)) (sessions pf);
  ty_rev : map_Forall (λ k s, src s = k ∧ net_addr (src s) ∧ is_addr (dst s)) (reverseSessions pf);
  ty_loops : map_Forall (λ _ s, is_addr (src s) ∧ is_addr (dst s)) (loops pf);
  ty_rloops : map_Forall (λ _ s, net_addr (src s) ∧ is_addr (dst s)) (rloops pf);
  ty_calls : Forall call_typed (calls pf);
}.

Lemma map_Forall_sub {A} (P : string → A → Prop) (m m' : gmap string A) :
  m' ⊆ m → map_Forall P m → map_Forall P m'.
Proof. intros Hs H k s Hk. apply H. by eapply lookup_weaken. Qed.

Lemma map_Forall_sub_nat {A} (P : nat → A → Prop) (m m' : gmap nat A) :
  m' ⊆ m → map_Forall P m → map_Forall P m'.
Proof. intros Hs H k s Hk. apply H. by eapply lookup_weaken. Qed.

(** Fewer sessions and goroutines, and at most typed calls in addition. *)
Lemma typed_sub pf pf' cs :
  typed pf → sessions pf' ⊆ sessions pf → reverseSessions pf' ⊆ reverseSessions pf →
  loops pf' ⊆ loops pf → rloops pf' ⊆ rloops pf → calls pf' = calls pf ++ cs → Forall call_typed cs →
  typed pf'.
Proof.
  intros [H1 H2 H3 H4 H5] S1 S2 S3 S4 E HC.
  split; [by eapply map_Forall_sub|by eapply map_Forall_sub|by eapply map_Forall_sub_nat|by eapply map_Forall_sub_nat|].
  rewrite E. by apply Forall_app.
Qed.

(** No call in addition. *)
Ltac typed_less H :=
  eapply (typed_sub _ _ []); [exact H|..];
  cbn; rewrite ?app_nil_r; try reflexivity; try apply delete_subseteq; try apply map_empty_subseteq; constructor.

Lemma lis_Close_typed i pf : typed pf → typed (fst (lis_Close i pf)).
Proof. intros H. unfold lis_Close. case_decide; [typed_less H|done]. Qed.

Lemma cancel_typed i pf : typed pf → typed (cancel i pf).
Proof. intros H. typed_less H. Qed.

Lemma delete_session_typed k pf : typed pf → typed (set_sessions (delete k) pf).
Proof. intros H. typed_less H. Qed.

Lemma delete_reverse_typed k pf : typed pf → typed (set_reverse (delete k) pf).
Proof. intros H. typed_less H. Qed.

Lemma add_call_typed c pf : typed pf → call_typed c → typed (add_call c pf).
Proof.
  intros H Hc. eapply (typed_sub _ _ [c]); [exact H|..]; try reflexivity. by apply Forall_singleton.
Qed.

Create HintDb ty.
#[local] Hint Resolve lis_Close_typed cancel_typed delete_session_typed delete_reverse_typed
  add_call_typed : ty.

Lemma startSession_typed s d pf : is_addr s → is_addr d → typed pf → typed (startSession s d pf).
Proof.
  intros Hs Hd [H1 H2 H3 H4 H5]. split; cbn; try done; by apply map_Forall_insert_2.
Qed.

Lemma ForwardPort_typed listen req pf : typed pf → typed (fst (ForwardPort listen req pf)).
Proof.
  intros H. unfold ForwardPort. cbv zeta.
  destruct (parseAddr (fs_src (pr_session req))) as [[k a]|] eqn:Es; [|done].
  destruct (parseAddr (fs_dst (pr_session req))) as [[k' a']|] eqn:Ed; [|done].
  assert (∀ pf, typed pf → typed (startSession (fs_src (pr_session req)) (fs_dst (pr_session req)) pf)) as HS
    by (intros pf' H'; apply startSession_typed; [by exists k, a|by exists k', a'|done]).
  destruct (sessions pf !! _) as [ss|]; [|destruct (listen k a); cbn; auto].
  destruct (pr_rebind req); [cbn|done].
  pose proof (lis_Close_typed (id ss) _ (delete_session_typed (fs_src (pr_session req)) _ H)) as Hl.
  destruct (lis_Close _ _) as [pf' [e|]]; [done|]. destruct (listen k a); cbn; auto.
Qed.

Lemma Stop_typed req pf : typed pf → typed (fst (Stop req pf)).
Proof.
  intros H. unfold Stop. cbv zeta. destruct (sessions pf !! _) as [ss|]; [|done].
  pose proof (lis_Close_typed (id ss) _ (delete_session_typed (fs_src (pr_session req)) _
    (cancel_typed (id ss) _ H))) as Hl.
  by destruct (lis_Close _ _) as [pf' err].
Qed.

Lemma StopAll_typed pf : typed pf → typed (fst (StopAll pf)).
Proof. intros H. unfold StopAll. cbn [fst]. rewrite stop_fold_spec. typed_less H. Qed.

Lemma accept_round_typed i e1 e2 pf pf' r :
  typed pf → accept_round i e1 e2 pf = Some (pf', r) → typed pf'.
Proof.
  intros H. unfold accept_round. destruct (loops pf !! i) as [ss|]; [|done].
  unfold makeForwarder. destruct (parseAddr (dst ss)) as [[k a]|e]; cbn [rbind]; [|by intros [= <- _]].
  destruct (check e1); cbn [rbind]; [|by intros [= <- _]].
  destruct (networkKind k) as [n|] eqn:Ek; cbn [rbind]; [|by intros [= <- _]].
  destruct (check e2); cbn [rbind]; intros [= <- _]; [|done].
  apply add_call_typed; [done|]. split; [done|]. by eapply networkKind_set.
Qed.

Lemma accept_exit_typed i pf : typed pf → typed (accept_exit i pf).
Proof.
  intros H. apply (lis_Close_typed i) in H. unfold accept_exit.
  destruct (lis_Close i pf) as [pf' err]. cbn in H. typed_less H.
Qed.

Lemma stopReverse_typed ctx ss e pf : typed pf → typed (fst (stopReverseForwarding ctx ss e pf)).
Proof.
  intros H. unfold stopReverseForwarding. destruct (parseAddr (src ss)) as [[k a]|]; cbn [fst]; [|auto with ty].
  destruct (networkKind k) as [n|] eqn:Ek; cbn [fst]; [|auto with ty].
  apply cancel_typed, add_call_typed; [auto with ty|]. split; [done|]. by eapply networkKind_set.
Qed.

Lemma startReverse_typed s d e pf : typed pf → typed (fst (startReverse s d e pf)).
Proof.
  intros H. unfold startReverse. destruct (parseAddr s) as [[k a]|] eqn:Es; [|done].
  destruct (parseAddr d) as [[k' a']|] eqn:Ed; [|done].
  destruct (networkKind k) as [n|] eqn:Ek; [|done]. cbv zeta.
  apply (add_call_typed (CallStartReverse (Some (next pf)) (MkForwardMessage n OPEN a []))) in H;
    [|split; [done|by eapply networkKind_set]].
  assert (net_addr s) as Hs by (by exists k, a, n). assert (is_addr d) as Hd by (by exists k', a').
  destruct H as [H1 H2 H3 H4 H5]. destruct e; split; cbn; try done; by apply map_Forall_insert_2.
Qed.

Lemma reverse_exit_typed ss e pf : typed pf → typed (reverse_exit ss e pf).
Proof.
  intros H. apply (stopReverse_typed (Some (id ss)) ss e) in H. unfold reverse_exit.
  destruct (stopReverseForwarding _ _ _ _) as [pf' r]. cbn in H. typed_less H.
Qed.

(** The messages of a round have a network: the server's if it names one, else the source's. *)
Lemma reverse_round_typed ss fwd e1 e2 e3 m d :
  reverse_round ss fwd e1 e2 e3 = RLeave (Some m) ∨ reverse_round ss fwd e1 e2 e3 = RNext m d →
  fm_op m = OPEN ∧ fm_kind m ≠ UNSET.
Proof.
  unfold reverse_round. destruct (parseAddr (src ss)) as [[k a]|]; [|by intros [|]].
  destruct (networkKind k) as [n|] eqn:Ek; [|by intros [|]]. apply networkKind_set in Ek.
  case_decide; [by intros [|]|]. destruct e1; [by intros [|]|].
  case_decide as Hf; (destruct e2; [by intros [[= <-]|]; cbn; naive_solver|]);
    destruct e3, (parseAddr (dst ss)) as [[kd ?]|]; try destruct (half_closer kd);
    intros [?|?]; simplify_eq; cbn; naive_solver.
Qed.

Lemma pf_step_typed : invariant pf_step typed.
Proof.
  intros pf pf' H Hs. destruct Hs as [listen req pf|req pf|pf|i e1 e2 pf pf' r Hi Ha|i ss pf Hl|e1 e2 req pf|e req pf
    |i fwd e1 e2 e3 e4 pf pf' Hr|i ss e pf Hl].
  - by apply ForwardPort_typed.
  - by apply Stop_typed.
  - by apply StopAll_typed.
  - by eapply accept_round_typed.
  - by apply accept_exit_typed.
  - unfold ReverseForwardPort. cbv zeta. destruct (reverseSessions pf !! _) as [rs|]; [|by apply startReverse_typed].
    destruct (pr_rebind req); [cbn|done].
    pose proof (stopReverse_typed None rs e1 pf H) as H'.
    destruct (stopReverseForwarding _ _ _ _) as [pf' [|]]; [by apply startReverse_typed|done].
  - unfold StopReverse. destruct (reverseSessions pf !! _); [by apply stopReverse_typed|done].
  - unfold reverse_recv in Hr. destruct (rloops pf !! i) as [ss|]; [|done].
    destruct (reverse_round _ _ _ _ _) as [[m|]|m d|m] eqn:E; [..|done]; injection Hr as <-.
    + apply reverse_exit_typed, add_call_typed; [done|]. by apply (reverse_round_typed ss fwd e1 e2 e3 m true); left.
    + by apply reverse_exit_typed.
    + apply add_call_typed; [done|]. by apply (reverse_round_typed ss fwd e1 e2 e3 m d); right.
  - by apply reverse_exit_typed.
Qed.

Lemma pf_reach_typed pf : rtc pf_step NewServer pf → typed pf.
Proof.
  intros H. eapply invariant_rtc; [apply pf_step_typed|exact H|].
  split; cbn; try apply map_Forall_empty. constructor.
Qed.

(** ** The table of forward sessions *)

(** What the daemon promises: which source is forwarded where. *)
Definition table (pf : PortForwarder) : gmap string string := dst <$> sessions pf.

Lemma lis_Close_sessions i pf : sessions (fst (lis_Close i pf)) = sessions pf.
Proof. unfold lis_Close. by case_decide. Qed.

Lemma lis_Close_closed i pf : i ∉ listening (fst (lis_Close i pf)).
Proof. unfold lis_Close. case_decide; cbn; set_solver. Qed.

(** A session is started: its table entry, listener and goroutine. *)
Definition started (s d : string) (pf : PortForwarder) : Prop :=
  ∃ ss, sessions pf !! s = Some ss ∧ dst ss = d ∧ id ss ∈ listening pf ∧
        loops pf !! id ss = Some ss.

Lemma startSession_started s d pf : started s d (startSession s d pf).
Proof.
  exists (MkSession s d (next pf)). cbn. rewrite !lookup_insert_eq. split_and!; try done. set_solver.
Qed.

(** A run of the daemon with one forward session, used by the examples. *)
Definition req1 : PortForwardRequest :=
  MkPortForwardRequest false (MkForwardSession "tcp:localhost:80" "tcp:localhost:8080").
Definition listen_ok (kind addr : string) : option error := None.
Definition pf1 : PortForwarder := fst (ForwardPort listen_ok req1 NewServer).

Lemma pf1_reach : rtc pf_step NewServer pf1.
Proof. apply rtc_once. apply pf_forward. Defined.

(** C11: no listener leaks: in every reachable state of the daemon, an open listener
    belongs to exactly one session of the table, filed under its own source, and that
    session's goroutine is accepting on it. *)
Theorem ports_no_listener_leak pf i :
  rtc pf_step NewServer pf → i ∈ listening pf →
  ∃ s, sessions pf !! src s = Some s ∧ id s = i ∧ loops pf !! i = Some s ∧
       ∀ k s', sessions pf !! k = Some s' → id s' = i → k = src s.
Proof.
  intros H%pf_reach_wf Hi. destruct (fw_owned _ H _ Hi) as (k & s & Hs & <-).
  destruct (fw_key _ H _ _ Hs) as [<- _]. exists s. split_and!; [done|done| |].
  - by eapply fw_served.
  - intros k s' Hs' Heq. by eapply fw_inj.
Qed.

Lemma ports_no_listener_leak_witness : ∃ s, sessions pf1 !! src s = Some s ∧ id s = 0%nat.
Proof.
  destruct (ports_no_listener_leak pf1 0 pf1_reach) as (s & H1 & H2 & _).
  - by apply (bool_decide_unpack _); vm_compute.
  - exists s. split; [exact H1|exact H2].
Defined.

(** [StopAll] stops everything: whatever the daemon did before, no session is listed,
    no listener is open, and the context of every session that was listed is cancelled. *)
Theorem ports_stop_all pf :
  rtc pf_step NewServer pf →
  let pf' := fst (StopAll pf) in
  fs_sessions (List pf') = [] ∧ listening pf' = ∅ ∧
  ∀ k s, sessions pf !! k = Some s → id s ∈ cancelled pf'.
Proof.
  intros H%pf_reach_wf. cbv zeta. rewrite (StopAll_state _ H). split_and!; cbn; [|done|].
  - unfold List. cbn. by rewrite map_to_list_empty.
  - intros k s Hs. apply elem_of_union_l. by eapply ids_elem.
Qed.

Lemma ports_stop_all_witness : listening (fst (StopAll pf1)) = ∅.
Proof. exact (proj1 (proj2 (ports_stop_all pf1 pf1_reach))). Defined.

(** The effect of [ForwardPort] on the table. *)
Lemma ForwardPort_table listen req pf :
  let s := fs_src (pr_session req) in
  let d := fs_dst (pr_session req) in
  let '(pf', r) := ForwardPort listen req pf in
  (∀ k, k ≠ s → sessions pf' !! k = sessions pf !! k) ∧
  match r with
  | Ok _ => (table pf !! s = None ∨ pr_rebind req = true) ∧
            table pf' = <[s := d]> (table pf) ∧ started s d pf'
  | Err _ => pf' = pf ∨ (pr_rebind req = true ∧ table pf' = delete s (table pf))
  end.
Proof.
  cbv zeta. unfold ForwardPort. cbv zeta. set (s := fs_src _). set (d := fs_dst _).
  destruct (parseAddr s) as [[kind addr]|e]; [|by split; [|left]].
  destruct (parseAddr d) as [_|e]; [|by split; [|left]].
  unfold table. destruct (sessions pf !! s) as [ss|] eqn:Hss.
  - destruct (pr_rebind req); [cbn [negb]|by split; [|left]].
    pose proof (lis_Close_sessions (id ss) (set_sessions (delete s) pf)) as E.
    destruct (lis_Close _ _) as [pf' [e|]]; cbn in E; [|destruct (listen kind addr)].
    + rewrite E. split; [intros; by rewrite lookup_delete_ne|]. right. by rewrite fmap_delete.
    + rewrite E. split; [intros; by rewrite lookup_delete_ne|]. right. by rewrite fmap_delete.
    + split; [intros k Hk; cbn; by rewrite lookup_insert_ne, E, lookup_delete_ne by done|].
      split; [by right|]. split; [|apply startSession_started]. cbn.
      by rewrite E, fmap_insert, fmap_delete, insert_delete_eq.
  - destruct (listen kind addr); [by split; [|left]|].
    split; [intros k Hk; cbn; by rewrite lookup_insert_ne|].
    split; [left; by rewrite lookup_fmap, Hss|]. split; [|apply startSession_started].
    cbn. by rewrite fmap_insert.
Qed.

(** C12: [ForwardPort] implements insertion in the table: on success (only for a source that
    was free or with rebind set) the table maps the source to the destination and the
    session is listening and served; on an error nothing changed, except that a rebind
    may have dropped the old entry; no other session is touched. *)
Theorem ForwardPort_refines listen req pf :
  let s := fs_src (pr_session req) in
  let d := fs_dst (pr_session req) in
  let '(pf', r) := ForwardPort listen req pf in
  (∀ k, k ≠ s → sessions pf' !! k = sessions pf !! k) ∧
  match r with
  | Ok _ => (table pf !! s = None ∨ pr_rebind req = true) ∧
            table pf' = <[s := d]> (table pf) ∧ started s d pf'
  | Err _ => pf' = pf ∨ (pr_rebind req = true ∧ table pf' = delete s (table pf))
  end.
Proof. apply ForwardPort_table. Qed.

(** Without rebind a source that is already forwarded is refused with AlreadyExists
    and the daemon's state does not change. *)
Theorem ForwardPort_no_rebind listen req pf ss p q :
  sessions pf !! fs_src (pr_session req) = Some ss → pr_rebind req = false →
  parseAddr (fs_src (pr_session req)) = Ok p → parseAddr (fs_dst (pr_session req)) = Ok q →
  ForwardPort listen req pf = (pf, Err (errRebind (fs_src (pr_session req)))).
Proof.
  intros Hs Hr Hp Hq. unfold ForwardPort. rewrite Hp, Hq, Hs, Hr. by destruct p.
Qed.

Lemma ForwardPort_no_rebind_witness :
  ForwardPort listen_ok req1 pf1 = (pf1, Err (errRebind "tcp:localhost:80")).
Proof.
  eapply (ForwardPort_no_rebind listen_ok req1 pf1
    (MkSession "tcp:localhost:80" "tcp:localhost:8080" 0)); vm_compute; reflexivity.
Defined.

(** [Stop] ends the session of its source: it is no longer listed, its context is
    cancelled and its listener closed; the other sessions and listeners stay.  It reports
    an error exactly when the session's goroutine had already closed the listener. *)
Theorem ports_stop pf req ss :
  rtc pf_step NewServer pf → sessions pf !! fs_src (pr_session req) = Some ss →
  let '(pf', r) := Stop req pf in
  sessions pf' = delete (fs_src (pr_session req)) (sessions pf) ∧
  id ss ∈ cancelled pf' ∧ listening pf' = listening pf ∖ {[id ss]} ∧
  (r = Ok () ↔ id ss ∈ listening pf).
Proof.
  intros H Hs. unfold Stop. cbv zeta. rewrite Hs. unfold lis_Close; cbn.
  case_decide as Hin; cbn; (split_and!; [done|set_solver|set_solver|]); by split.
Qed.

Lemma ports_stop_witness : id (MkSession "tcp:localhost:80" "tcp:localhost:8080" 0) ∈
  cancelled (fst (Stop req1 pf1)).
Proof.
  pose proof (ports_stop pf1 req1 (MkSession "tcp:localhost:80" "tcp:localhost:8080" 0) pf1_reach)
    as H.
  destruct (Stop req1 pf1) as [pf' r]. apply H. vm_compute. reflexivity.
Defined.

(** [List] returns exactly the sessions of the table. *)
Theorem ports_list_exact pf s d :
  rtc pf_step NewServer pf → (MkForwardSession s d ∈ fs_sessions (List pf) ↔ table pf !! s = Some d).
Proof.
  intros H%pf_reach_wf. unfold List, table. cbn [fs_sessions]. rewrite lookup_fmap, fmap_Some. split.
  - intros ([k ss] & Heq & Hin)%list_elem_of_fmap. cbn in Heq. injection Heq as -> ->.
    apply elem_of_map_to_list in Hin. destruct (fw_key _ H _ _ Hin) as [<- _]. eauto.
  - intros (ss & Hs & ->). apply list_elem_of_fmap. exists (s, ss). split.
    + cbn. by destruct (fw_key _ H _ _ Hs) as [<- _].
    + by apply elem_of_map_to_list.
Qed.

Lemma ports_list_exact_witness :
  MkForwardSession "tcp:localhost:80" "tcp:localhost:8080" ∈ fs_sessions (List pf1).
Proof. apply (ports_list_exact pf1 _ _ pf1_reach). vm_compute. reflexivity. Defined.

(** ** Reverse sessions *)

Definition rreq (rebind : bool) (s d : string) : PortForwardRequest :=
  MkPortForwardRequest rebind (MkForwardSession s d).

Definition pf2 : PortForwarder :=
  fst (ReverseForwardPort None None (rreq false "tcp:localhost:80" "tcp:localhost:8080") NewServer).

Lemma pf2_reach : rtc pf_step NewServer pf2.
Proof. apply rtc_once. apply pf_reverse. Defined.



(** C24: a listed reverse session is alive: in every reachable state it is filed under its
    source, its goroutine is receiving and its context is not cancelled. *)
Theorem reverse_listed_live pf k s :
  rtc pf_step NewServer pf → reverseSessions pf !! k = Some s →
  src s = k ∧ rloops pf !! id s = Some s ∧ id s ∉ cancelled pf.
Proof.
  intros H%pf_reach_rev Hs.
  split_and!; [by eapply rw_key|by eapply rw_runs|by eapply rw_live].
Qed.

Lemma reverse_listed_live_witness : 0%nat ∉ cancelled pf2.
Proof.
  apply (reverse_listed_live pf2 "tcp:localhost:80"
    (MkSession "tcp:localhost:80" "tcp:localhost:8080" 0) pf2_reach).
  vm_compute. reflexivity.
Defined.

(** A reverse session to a udp destination: the daemon accepts it and dials, but the connection has
    no half closes; the first connection the server announces takes the daemon down. *)
Theorem reverse_udp_panics pf i ss fwd addr kind a k e4 :
  rloops pf !! i = Some ss → parseAddr (src ss) = Ok (kind, a) → networkKind kind = Ok k →
  parseAddr (dst ss) = Ok ("udp", addr) → fm_op fwd = OPEN →
  reverse_recv i fwd None None None e4 pf = Some Panic.
Proof.
  intros Hl Hp Hk Hd Ho. unfold reverse_recv, reverse_round. rewrite Hl, Hp, Hk, Hd.
  rewrite decide_False by (by intros []). by case_decide.
Qed.

Lemma reverse_udp_panics_witness :
  reverse_recv 0 (MkForwardMessage TCP OPEN "localhost:80/1" []) None None None None
    (fst (ReverseForwardPort None None (rreq false "tcp:localhost:80" "udp:localhost:53") NewServer))
  = Some Panic.
Proof.
  eapply (reverse_udp_panics _ 0 (MkSession "tcp:localhost:80" "udp:localhost:53" 0) _
    "localhost:53" "tcp" "localhost:80" TCP); vm_compute; reflexivity.
Defined.

(** The daemon after a reverse session on [s] was rebound, and after the goroutine of the
    first session has ended (its context was cancelled by the rebind). *)
Definition rebound (s d1 d2 : string) : PortForwarder :=
  fst (ReverseForwardPort None None (rreq true s d2)
    (fst (ReverseForwardPort None None (rreq false s d1) NewServer))).
Definition rebound_exit (s d1 d2 : string) (e : option error) : PortForwarder :=
  reverse_exit (MkSession s d1 0) e (rebound s d1 d2).

Lemma startReverse_ok s d kind addr q k pf :
  parseAddr s = Ok (kind, addr) → networkKind kind = Ok k → parseAddr d = Ok q →
  startReverse s d None pf =
  (let ss := MkSession s d (next pf) in
   MkPF (sessions pf) (<[s := ss]> (reverseSessions pf)) (listening pf) (cancelled pf)
     (loops pf) (<[next pf := ss]> (rloops pf))
     (calls pf ++ [CallStartReverse (Some (next pf)) (MkForwardMessage k OPEN addr [])])
     (S (next pf)), Ok ()).
Proof. intros Hp Hk Hd. unfold startReverse. by rewrite Hp, Hd, Hk. Qed.

Lemma stopReverse_ok ctx ss kind addr k e pf :
  parseAddr (src ss) = Ok (kind, addr) → networkKind kind = Ok k →
  stopReverseForwarding ctx ss e pf =
  (MkPF (sessions pf) (delete (src ss) (reverseSessions pf)) (listening pf)
     ({[id ss]} ∪ cancelled pf) (loops pf) (rloops pf)
     (calls pf ++ [CallStopReverse ctx (MkForwardMessage k CLOSE addr [])]) (next pf), check e).
Proof. intros Hp Hk. unfold stopReverseForwarding. by rewrite Hp, Hk. Qed.

Lemma rebound_state s d1 d2 kind addr q1 q2 k :
  parseAddr s = Ok (kind, addr) → networkKind kind = Ok k →
  parseAddr d1 = Ok q1 → parseAddr d2 = Ok q2 →
  let m op := MkForwardMessage k op addr [] in
  rebound s d1 d2 =
  MkPF ∅ {[s := MkSession s d2 1]} ∅ {[0%nat]} ∅
    {[1%nat := MkSession s d2 1; 0%nat := MkSession s d1 0]}
    [CallStartReverse (Some 0%nat) (m OPEN); CallStopReverse None (m CLOSE);
     CallStartReverse (Some 1%nat) (m OPEN)] 2.
Proof.
  intros Hp Hk H1 H2. unfold rebound, ReverseForwardPort, rreq.
  cbn [pr_session pr_rebind fs_src fs_dst NewServer reverseSessions negb].
  rewrite lookup_empty, (startReverse_ok _ _ _ _ _ _ _ Hp Hk H1). cbn [fst reverseSessions].
  rewrite lookup_insert_eq, (stopReverse_ok _ (MkSession s d1 0) _ _ _ _ _ Hp Hk). cbn [check].
  rewrite (startReverse_ok _ _ _ _ _ _ _ Hp Hk H2). cbn. f_equal.
  by rewrite delete_insert_eq, delete_empty.
Qed.

Lemma rebound_exit_state s d1 d2 kind addr q1 q2 k e :
  parseAddr s = Ok (kind, addr) → networkKind kind = Ok k →
  parseAddr d1 = Ok q1 → parseAddr d2 = Ok q2 →
  let pf := rebound_exit s d1 d2 e in
  reverseSessions pf = ∅ ∧ rloops pf = {[1%nat := MkSession s d2 1]} ∧ cancelled pf = {[0%nat]}.
Proof.
  intros Hp Hk H1 H2. unfold rebound_exit, reverse_exit.
  rewrite (rebound_state _ _ _ _ _ _ _ _ Hp Hk H1 H2).
  rewrite (stopReverse_ok _ (MkSession s d1 0) _ _ _ _ _ Hp Hk). cbn. split_and!.
  - by rewrite delete_singleton_eq.
  - done.
  - set_solver.
Qed.

(** Rebinding a reverse session loses it: when the goroutine of the old session ends,
    its clean-up removes the new session from the map, while the new session's goroutine
    keeps running with a live context; [StopReverse] then answers success and does
    nothing. *)
Theorem reverse_rebind_loses_session s d1 d2 kind addr q1 q2 k e :
  parseAddr s = Ok (kind, addr) → networkKind kind = Ok k →
  parseAddr d1 = Ok q1 → parseAddr d2 = Ok q2 →
  let pf := rebound_exit s d1 d2 e in
  rtc pf_step NewServer pf ∧ reverseSessions pf !! s = None ∧
  rloops pf !! 1%nat = Some (MkSession s d2 1) ∧ 1%nat ∉ cancelled pf ∧
  ∀ e', StopReverse e' (rreq false s d2) pf = (pf, Ok ()).
Proof.
  intros Hp Hk H1 H2. cbv zeta.
  pose proof (rebound_state _ _ _ _ _ _ _ _ Hp Hk H1 H2) as E.
  pose proof (rebound_exit_state _ _ _ _ _ _ _ _ e Hp Hk H1 H2) as (E1 & E2 & E3). split_and!.
  - eapply rtc_l; [apply (pf_reverse None None (rreq false s d1))|].
    eapply rtc_l; [apply (pf_reverse None None (rreq true s d2))|].
    eapply rtc_l; [apply (pf_recv_err 0 (MkSession s d1 0) e)|apply rtc_refl].
    fold (rebound s d1 d2). by rewrite E.
  - by rewrite E1.
  - by rewrite E2.
  - rewrite E3. set_solver.
  - intros e'. unfold StopReverse. cbn. by rewrite E1.
Qed.

Lemma reverse_rebind_loses_session_witness :
  reverseSessions (rebound_exit "tcp:localhost:80" "tcp:localhost:1" "tcp:localhost:2" None)
    !! "tcp:localhost:80" = None.
Proof.
  eapply (reverse_rebind_loses_session "tcp:localhost:80" "tcp:localhost:1" "tcp:localhost:2"
    "tcp" "localhost:80" ("tcp", "localhost:1") ("tcp", "localhost:2") TCP None);
    vm_compute; reflexivity.
Defined.
