(* ===== verification/Reverse.v ===== *)
(** * Forwarding in the server: src/waterfall/golang/server/server.go, lines 63-76, 524-761

    The server dials out for [Forward], and for a reverse session listens, announces each
    connection it accepts and later hands it to the [ReverseForward] stream that asks for
    it.  Sessions are shared between handlers that run concurrently: the model keeps them
    in a heap, and the handlers are a step relation that interleaves them at the places
    where they take a lock or wait. *)

From S2P Require Import Prelude GoStrings Proto Ports.

Local Open Scope Z_scope.
Local Open Scope go_scope.

(** [networkDescription(kind)] *)
Definition networkDescription (kind : Kind) : result string :=
  match kind with
  | TCP => Ok "tcp"
  | UDP => Ok "udp"
  | UNIX => Ok "unix"
  | _ => Err (StatusError InvalidArgument "unsupported network type")
  end.

(** [Forward(rpc)] up to the dial: the network and address it connects to, from the result
    of the first [rpc.Recv()]. *)
Definition Forward_dial (recv : result ForwardMessage) : result (string * string) :=
  try! fwd := recv in
  try! kind := networkDescription (fm_kind fwd) in
  Ok (kind, fm_addr fwd).

(** ** Listeners *)

(** [lis.Addr()] *)
Inductive laddr := TCPAddr (port : Z) | UDPAddr (port : Z) | UnixAddr (name : string).

(** [listenerPort(l)] *)
Definition listenerPort (l : laddr) : Z :=
  match l with TCPAddr p => p | UDPAddr p => p | UnixAddr _ => 0 end.

Definition errNoPort : error :=
  ErrorString "failed to bind to free port when any available port requested".

(** The loop of [buildListener]: [n] attempts left, [listen i] the result of attempt [i].
    The second component counts the listeners it closed again. *)
Fixpoint buildListener_loop (n i : nat) (listen : nat → result laddr) : result laddr * nat :=
  match n with
  | O => (Err errNoPort, O)
  | S n' =>
      match listen i with
      | Err e => (Err e, O)
      | Ok l =>
          if decide (listenerPort l ≠ 0) then (Ok l, O)
          else let '(r, c) := buildListener_loop n' (S i) listen in (r, S c)
      end
  end.

(** [buildListener(kind, address)] *)
Definition buildListener (listen : nat → result laddr) : result laddr * nat :=
  buildListener_loop 3 0 listen.

(** ** The server's state *)

(** [reverseForwardSession]: its connections by [cID].  A session object, its listener and
    the [StartReverseForward] call that made it have the same number. *)
Record reverseForwardSession := MkRFS { rs_addr : string; connMap : gmap Z nat }.

(** A running [StartReverseForward]: [fwd] (its [Addr] rewritten when a port was chosen),
    the local [addr] and the counter [cID]. *)
Record handler := MkHandler { h_fwd : ForwardMessage; h_addr : string; h_cID : Z }.

(** [reverseForwardSessions] maps addresses to session objects ([heap]).  [checked] are
    the [StartReverseForward] calls between their check of the map and their update of
    it; [accepting] the open listeners; [closed] the connections that were closed; [sent]
    the messages sent on the rpc of each session; [forwarding] the [ReverseForward] calls
    that are forwarding (session, [cID] and connection). *)
Record WaterfallServer := MkServer {
  reverseForwardSessions : gmap string nat;
  heap : gmap nat reverseForwardSession;
  handlers : gmap nat handler;
  checked : list ForwardMessage;
  accepting : gset nat;
  closed : gset nat;
  sent : list (nat * ForwardMessage);
  forwarding : list (nat * Z * nat);
  nextSession : nat;
  nextConn : nat;
}.

(** [New(server)] *)
Definition New : WaterfallServer := MkServer ∅ ∅ ∅ [] ∅ ∅ [] [] 0 0.

(** ** [StartReverseForward(fwd, rpc)] *)

Definition sess_addr (kind addr : string) : string := kind +:+ ":" +:+ addr.

(** Its guards, up to the check of the map. *)
Definition StartReverseForward_check (fwd : ForwardMessage) (s : WaterfallServer)
    : result string :=
  if decide (fm_op fwd ≠ OPEN)
  then Err (StatusError InvalidArgument "unexpected forward kind") else
  try! kind := networkDescription (fm_kind fwd) in
  match reverseForwardSessions s !! sess_addr kind (fm_addr fwd) with
  | Some _ => Err (StatusError AlreadyExists "address already being forwarded")
  | None => Ok kind
  end.

(** The address the session is filed under, and [fwd] as the handler keeps it. *)
Definition announceAddr (kind : string) (fwd : ForwardMessage) : bool :=
  bool_decide (fm_addr fwd = "localhost:0" ∧ (kind = "tcp" ∨ kind = "udp")).

Definition listen_fwd (kind : string) (fwd : ForwardMessage) (l : laddr)
    : ForwardMessage * string :=
  if announceAddr kind fwd then
    let a := "localhost:" +:+ fmt_int (listenerPort l) in
    (MkForwardMessage (fm_kind fwd) (fm_op fwd) a (fm_payload fwd),
     if decide (fm_kind fwd = TCP) then "tcp:" +:+ a
     else if decide (fm_kind fwd = UDP) then "udp:" +:+ a
     else sess_addr kind (fm_addr fwd))
  else (fwd, sess_addr kind (fm_addr fwd)).

(** From [buildListener] to the accept loop: the session is made and filed, and with a
    chosen port announced (an error of that [Send] is ignored). *)
Definition StartReverseForward_serve (kind : string) (fwd : ForwardMessage)
    (listen : nat → result laddr) (s : WaterfallServer) : WaterfallServer * result () :=
  match fst (buildListener listen) with
  | Err e => (s, Err e)
  | Ok l =>
      let i := nextSession s in
      let '(fwd', addr) := listen_fwd kind fwd l in
      (MkServer (<[addr := i]> (reverseForwardSessions s))
         (<[i := MkRFS addr ∅]> (heap s)) (<[i := MkHandler fwd' addr 0]> (handlers s))
         (checked s) ({[i]} ∪ accepting s) (closed s)
         (if announceAddr kind fwd
          then sent s ++ [(i, MkForwardMessage (fm_kind fwd') ANNOUNCE addr [])] else sent s)
         (forwarding s) (S i) (nextConn s), Ok ())
  end.

(** The handler of session [i] returns: the deferred [lis.Close()]. *)
Definition StartReverseForward_return (i : nat) (s : WaterfallServer) : WaterfallServer :=
  MkServer (reverseForwardSessions s) (heap s) (delete i (handlers s)) (checked s)
    (accepting s ∖ {[i]}) (closed s) (sent s) (forwarding s) (nextSession s) (nextConn s).

(** The message that tells the client of connection [cID]. *)
Definition open_msg (fwd : ForwardMessage) (cID : Z) : ForwardMessage :=
  MkForwardMessage (fm_kind fwd) OPEN (fm_addr fwd +:+ "/" +:+ fmt_d cID) [].

(** A round of the accept loop of session [i] that accepted a connection; [sendErr] is the
    error of [rpc.Send]. *)
Definition StartReverseForward_accept (i : nat) (sendErr : option error) (s : WaterfallServer)
    : option WaterfallServer :=
  match handlers s !! i, heap s !! i with
  | Some h, Some ss =>
      let cID := to_uint 64 (h_cID h + 1) in
      let c := nextConn s in
      let s := MkServer (reverseForwardSessions s)
        (<[i := MkRFS (rs_addr ss) (<[cID := c]> (connMap ss))]> (heap s))
        (<[i := MkHandler (h_fwd h) (h_addr h) cID]> (handlers s)) (checked s) (accepting s)
        (closed s) (sent s) (forwarding s) (nextSession s) (S c) in
      match sendErr with
      | None =>
          Some (MkServer (reverseForwardSessions s) (heap s) (handlers s) (checked s)
            (accepting s) (closed s) (sent s ++ [(i, open_msg (h_fwd h) cID)])
            (forwarding s) (nextSession s) (nextConn s))
      | Some _ =>
          Some (StartReverseForward_return i
            (MkServer (delete (h_addr h) (reverseForwardSessions s)) (heap s) (handlers s)
               (checked s) (accepting s) (closed s) (sent s) (forwarding s) (nextSession s) (nextConn s)))
      end
  | _, _ => None
  end.

(** ** [ReverseForward(stream)] *)

(** A text between double quotes. *)
Definition quoted (s : string) : string :=
  String (Ascii.ascii_of_nat 34) (s +:+ String (Ascii.ascii_of_nat 34) "").

(** Up to the forwarding: the session and connection the first message names. *)
Definition ReverseForward_lookup (recv : result ForwardMessage) (s : WaterfallServer)
    : result (nat * Z * nat) :=
  try! fwd := recv in
  try! kind := networkDescription (fm_kind fwd) in
  match SplitN (fm_addr fwd) "/" 2 with
  | [pts0; pts1] =>
      let addr := sess_addr kind pts0 in
      let ss := reverseForwardSessions s !! addr in
      match ParseUint pts1 with
      | (_, Some _) =>
          Err (StatusError InvalidArgument
                 ("unable to parse cID from src address " +:+ quoted (fm_addr fwd)))
      | (cID, None) =>
          match ss with
          | None => Err (StatusError NotFound
                     ("forwarding session for " +:+ addr +:+ " does not exist"))
          | Some i =>
              match heap s !! i ≫= λ r, connMap r !! cID with
              | None => Err (StatusError NotFound
                         ("forwarding session for " +:+ fm_addr fwd +:+ " does not exist"))
              | Some c => Ok (i, cID, c)
              end
          end
      end
  | _ => Err (StatusError InvalidArgument
                ("unable to parse src address " +:+ quoted (fm_addr fwd)))
  end.

(** After the forwarding, which closed the connection: it is forgotten. *)
Definition ReverseForward_finish (i : nat) (cID : Z) (c : nat) (s : WaterfallServer)
    : WaterfallServer :=
  MkServer (reverseForwardSessions s)
    (alter (λ r, MkRFS (rs_addr r) (delete cID (connMap r))) i (heap s)) (handlers s)
    (checked s) (accepting s) ({[c]} ∪ closed s) (sent s) (forwarding s) (nextSession s) (nextConn s).

(** ** [StopReverseForward(ctxt, fwd)] *)

Definition conns (r : reverseForwardSession) : gset nat :=
  list_to_set (snd <$> map_to_list (connMap r)).

Definition StopReverseForward (fwd : ForwardMessage) (s : WaterfallServer)
    : WaterfallServer * result () :=
  match networkDescription (fm_kind fwd) with
  | Err e => (s, Err e)
  | Ok kind =>
      let addr := sess_addr kind (fm_addr fwd) in
      match reverseForwardSessions s !! addr with
      | None => (s, Ok ())
      | Some i =>
          (MkServer (delete addr (reverseForwardSessions s)) (heap s) (handlers s) (checked s)
             (accepting s ∖ {[i]})
             (match heap s !! i with Some r => conns r ∪ closed s | None => closed s end)
             (sent s) (forwarding s) (nextSession s) (nextConn s), Ok ())
      end
  end.

(** ** The server *)

Inductive srv_step : WaterfallServer → WaterfallServer → Prop :=
| srv_check fwd kind s :
    StartReverseForward_check fwd s = Ok kind →
    srv_step s (MkServer (reverseForwardSessions s) (heap s) (handlers s) (fwd :: checked s)
                  (accepting s) (closed s) (sent s) (forwarding s) (nextSession s) (nextConn s))
| srv_serve fwd kind listen c1 c2 s s' r :
    checked s = c1 ++ fwd :: c2 → networkDescription (fm_kind fwd) = Ok kind →
    StartReverseForward_serve kind fwd listen
      (MkServer (reverseForwardSessions s) (heap s) (handlers s) (c1 ++ c2)
         (accepting s) (closed s) (sent s) (forwarding s) (nextSession s) (nextConn s)) = (s', r) →
    srv_step s s'
| srv_accept i e s s' :
    i ∈ accepting s → StartReverseForward_accept i e s = Some s' → srv_step s s'
| srv_accept_err i h s :
    handlers s !! i = Some h → srv_step s (StartReverseForward_return i s)
| srv_reverse fwd i cID c s :
    ReverseForward_lookup (Ok fwd) s = Ok (i, cID, c) →
    srv_step s (MkServer (reverseForwardSessions s) (heap s) (handlers s) (checked s)
                  (accepting s) (closed s) (sent s) ((i, cID, c) :: forwarding s)
                  (nextSession s) (nextConn s))
| srv_reverse_done i cID c f1 f2 s :
    forwarding s = f1 ++ (i, cID, c) :: f2 →
    srv_step s (ReverseForward_finish i cID c
      (MkServer (reverseForwardSessions s) (heap s) (handlers s) (checked s) (accepting s)
         (closed s) (sent s) (f1 ++ f2) (nextSession s) (nextConn s)))
| srv_stop fwd s : srv_step s (fst (StopReverseForward fwd s)).

(** ** Invariant *)

(** A handler's local [addr] is where its (rewritten) request is filed, its session object
    exists, and the identifiers it handed out run up to [cID]. *)
Record handler_ok (s : WaterfallServer) (i : nat) (h : handler) (r : reverseForwardSession)
    : Prop := {
  ho_addr : ∃ kind, networkDescription (fm_kind (h_fwd h)) = Ok kind ∧
                    h_addr h = sess_addr kind (fm_addr (h_fwd h));
  ho_sess : rs_addr r = h_addr h;
  ho_cID : 0 ≤ h_cID h ∧ (Z.of_nat (nextConn s) < 2 ^ 64 → h_cID h ≤ Z.of_nat (nextConn s));
  ho_conns cID c : Z.of_nat (nextConn s) < 2 ^ 64 → connMap r !! cID = Some c → 1 ≤ cID ≤ h_cID h;
}.

Record srv_wf (s : WaterfallServer) : Prop := {
  sw_map a i : reverseForwardSessions s !! a = Some i → ∃ r, heap s !! i = Some r ∧ rs_addr r = a;
  sw_heap i r : heap s !! i = Some r → (i < nextSession s)%nat;
  sw_handler i h : handlers s !! i = Some h → ∃ r, heap s !! i = Some r ∧ handler_ok s i h r;
  sw_conn i r cID c : heap s !! i = Some r → connMap r !! cID = Some c → (c < nextConn s)%nat;
  sw_once i j r q cID dID c :
    heap s !! i = Some r → heap s !! j = Some q → connMap r !! cID = Some c →
    connMap q !! dID = Some c → i = j ∧ cID = dID;
  sw_accepting i : i ∈ accepting s → is_Some (handlers s !! i);
}.

Lemma New_wf : srv_wf New.
Proof. split; cbn; set_solver. Qed.

(** Steps that leave the sessions alone. *)
Lemma srv_wf_ext s s' :
  srv_wf s → heap s' = heap s → nextSession s' = nextSession s → nextConn s' = nextConn s →
  reverseForwardSessions s' ⊆ reverseForwardSessions s → handlers s' ⊆ handlers s →
  (∀ i, i ∈ accepting s' → i ∈ accepting s ∧ handlers s' !! i = handlers s !! i) → srv_wf s'.
Proof.
  intros [Hm Hh Hha Hc Ho Ha] E1 E2 E3 Hsub Hsubh Hacc. split; rewrite ?E1, ?E2, ?E3; try done.
  - intros a i H. apply Hm. by eapply lookup_weaken.
  - intros i h H. destruct (Hha i h) as (r & Hr & [? ? ? ?]); [by eapply lookup_weaken|].
    exists r. split; [done|]. by split; rewrite ?E3.
  - intros i [Hin ->]%Hacc. by apply Ha.
Qed.

Lemma networkDescription_ok kind d :
  networkDescription kind = Ok d →
  (kind = TCP ∧ d = "tcp") ∨ (kind = UDP ∧ d = "udp") ∨ (kind = UNIX ∧ d = "unix").
Proof. destruct kind; cbn; intros [=]; subst; auto. Qed.

Lemma listen_fwd_ok kind fwd l fwd' addr :
  networkDescription (fm_kind fwd) = Ok kind → listen_fwd kind fwd l = (fwd', addr) →
  fm_kind fwd' = fm_kind fwd ∧ addr = sess_addr kind (fm_addr fwd').
Proof.
  intros Hk. unfold listen_fwd, announceAddr. case_bool_decide as Ha; intros [= <- <-]; [|done].
  cbn. split; [done|].
  apply networkDescription_ok in Hk as [[-> ->]|[[-> ->]|[-> ->]]]; [done|done|].
  destruct Ha as [_ [?|?]]; done.
Qed.

Lemma serve_wf kind fwd listen s s' r :
  srv_wf s → networkDescription (fm_kind fwd) = Ok kind →
  StartReverseForward_serve kind fwd listen s = (s', r) → srv_wf s'.
Proof.
  intros Hwf Hk. unfold StartReverseForward_serve.
  destruct (fst (buildListener listen)) as [l|e]; [|by intros [= <- <-]].
  destruct (listen_fwd kind fwd l) as [fwd' addr] eqn:Hl.
  destruct (listen_fwd_ok _ _ _ _ _ Hk Hl) as [Hfk ->]. intros [= <- <-].
  destruct Hwf as [Hm Hh Hha Hc Ho Ha].
  assert (heap s !! nextSession s = None) as Hn.
  { destruct (heap s !! nextSession s) eqn:E; [|done]. apply Hh in E. lia. }
  split; cbn.
  - intros a i [[<- <-]|[Hne H]]%lookup_insert_Some; [rewrite lookup_insert_eq; eauto|].
    destruct (Hm _ _ H) as (q & Hq & ?). exists q. split; [|done].
    rewrite lookup_insert_ne; [done|]. apply Hh in Hq. lia.
  - intros i q [[<- <-]|[Hne H]]%lookup_insert_Some; [lia|]. apply Hh in H. lia.
  - intros i h [[<- <-]|[Hne H]]%lookup_insert_Some.
    + eexists. rewrite lookup_insert_eq. split; [done|]. split; cbn; [|done|lia|done].
      exists kind. by rewrite Hfk.
    + destruct (Hha _ _ H) as (q & Hq & [? ? ? ?]). exists q. rewrite lookup_insert_ne by done.
      split; [done|]. by split.
  - intros i q cID c [[<- <-]|[Hne H]]%lookup_insert_Some; [done|]. by eapply Hc.
  - intros i j r q cID dID c [[<- <-]|[Hne H]]%lookup_insert_Some
      [[<- <-]|[Hne' H']]%lookup_insert_Some; cbn; try done. by eapply Ho.
  - intros i [->%elem_of_singleton|Hin]%elem_of_union; [by rewrite lookup_insert_eq|].
    destruct (decide (nextSession s = i)) as [<-|]; [by rewrite lookup_insert_eq|].
    rewrite lookup_insert_ne by done. by apply Ha.
Qed.

(** The state after a connection was filed in session [i]. *)
Definition file_conn (i : nat) (h : handler) (ss : reverseForwardSession) (s : WaterfallServer)
    : WaterfallServer :=
  let cID := to_uint 64 (h_cID h + 1) in
  MkServer (reverseForwardSessions s)
    (<[i := MkRFS (rs_addr ss) (<[cID := nextConn s]> (connMap ss))]> (heap s))
    (<[i := MkHandler (h_fwd h) (h_addr h) cID]> (handlers s)) (checked s) (accepting s)
    (closed s) (sent s) (forwarding s) (nextSession s) (S (nextConn s)).

Lemma next_cID s i h r :
  handler_ok s i h r → Z.of_nat (nextConn s) + 1 < 2 ^ 64 → to_uint 64 (h_cID h + 1) = h_cID h + 1.
Proof. intros [_ _ [? Hle] _] Hn. unfold to_uint. apply Z.mod_small. specialize (Hle ltac:(lia)). lia. Qed.

Lemma file_conn_once i h ss s :
  srv_wf s → heap s !! i = Some ss →
  ∀ j k r q cID dID c,
    heap (file_conn i h ss s) !! j = Some r → heap (file_conn i h ss s) !! k = Some q →
    connMap r !! cID = Some c → connMap q !! dID = Some c → j = k ∧ cID = dID.
Proof.
  intros Hwf Hss j k r q cID dID c. cbn.
  intros [[<- <-]|[Hj Hr]]%lookup_insert_Some [[<- <-]|[Hk Hq]]%lookup_insert_Some; cbn.
  - intros [[<- <-]|[? Hc]]%lookup_insert_Some [[<- ?]|[? Hd]]%lookup_insert_Some; try done.
    + pose proof (sw_conn _ Hwf _ _ _ _ Hss Hd). lia.
    + subst. pose proof (sw_conn _ Hwf _ _ _ _ Hss Hc). lia.
    + by eapply (sw_once _ Hwf i i ss ss).
  - intros [[<- <-]|[? Hc]]%lookup_insert_Some Hd.
    + pose proof (sw_conn _ Hwf _ _ _ _ Hq Hd). lia.
    + by eapply (sw_once _ Hwf i k ss q).
  - intros Hc [[<- <-]|[? Hd]]%lookup_insert_Some.
    + pose proof (sw_conn _ Hwf _ _ _ _ Hr Hc). lia.
    + by eapply (sw_once _ Hwf j i r ss).
  - intros Hc Hd. by eapply (sw_once _ Hwf j k r q).
Qed.

Lemma file_conn_handler i h ss s j g r :
  handler_ok s i h ss → handler_ok s j g r →
  handler_ok (file_conn i h ss s) j g r ∧
  handler_ok (file_conn i h ss s) i (MkHandler (h_fwd h) (h_addr h) (to_uint 64 (h_cID h + 1)))
    (MkRFS (rs_addr ss) (<[to_uint 64 (h_cID h + 1) := nextConn s]> (connMap ss))).
Proof.
  intros H [Ha Hs [H0 Hle] Hc]. split.
  - split; cbn; [done|done| |].
    + split; [done|]. intros Hn. specialize (Hle ltac:(lia)). lia.
    + intros cID c Hn. apply Hc. lia.
  - pose proof (next_cID _ _ _ _ H) as Hnext. destruct H as [Ha' Hs' [H0' Hle'] Hc'].
    split; cbn; [done|done| |].
    + split; [apply Z.mod_pos_bound; lia|]. intros Hn. rewrite Hnext by lia.
      specialize (Hle' ltac:(lia)). lia.
    + intros cID c Hn. rewrite Hnext by lia.
      intros [[<- <-]|[? Hd]]%lookup_insert_Some; [lia|].
      specialize (Hc' _ _ ltac:(lia) Hd). lia.
Qed.

Lemma file_conn_wf i h ss s :
  srv_wf s → handlers s !! i = Some h → heap s !! i = Some ss → srv_wf (file_conn i h ss s).
Proof.
  intros Hwf Hh Hss.
  assert (handler_ok s i h ss) as Hok.
  { destruct (sw_handler _ Hwf _ _ Hh) as (r & Hr & Hok). rewrite Hss in Hr. by injection Hr as <-. }
  pose proof (file_conn_once i h ss s Hwf Hss) as Honce.
  destruct Hwf as [Hm Hhp Hha Hc Ho Ha]. split; [..|exact Honce|]; cbn.
  - intros a j H. destruct (Hm _ _ H) as (r & Hr & Hra).
    destruct (decide (i = j)) as [<-|]; [|by rewrite lookup_insert_ne; eauto].
    rewrite lookup_insert_eq. rewrite Hss in Hr. injection Hr as <-. eauto.
  - intros j r [[<- <-]|[? H]]%lookup_insert_Some; [by eapply Hhp|by eapply Hhp].
  - intros j g [[<- <-]|[? H]]%lookup_insert_Some.
    + rewrite lookup_insert_eq. eexists. split; [done|].
      exact (proj2 (file_conn_handler i h ss s i h ss Hok Hok)).
    + rewrite lookup_insert_ne by done. destruct (Hha _ _ H) as (r & Hr & Hg). exists r.
      split; [done|]. exact (proj1 (file_conn_handler i h ss s j g r Hok Hg)).
  - intros j r cID c [[<- <-]|[? H]]%lookup_insert_Some; cbn.
    + intros [[<- <-]|[? Hd]]%lookup_insert_Some; [lia|]. pose proof (Hc _ _ _ _ Hss Hd). lia.
    + intros Hd. pose proof (Hc _ _ _ _ H Hd). lia.
  - intros j Hj. destruct (decide (i = j)) as [<-|]; [by rewrite lookup_insert_eq|].
    rewrite lookup_insert_ne by done. by apply Ha.
Qed.

Lemma return_wf i s : srv_wf s → srv_wf (StartReverseForward_return i s).
Proof.
  intros Hwf. apply (srv_wf_ext s); cbn; try done; [apply delete_subseteq|].
  intros j [? ?%not_elem_of_singleton]%elem_of_difference. split; [done|].
  by apply lookup_delete_ne.
Qed.

Lemma accept_wf i e s s' : srv_wf s → StartReverseForward_accept i e s = Some s' → srv_wf s'.
Proof.
  intros Hwf. unfold StartReverseForward_accept.
  destruct (handlers s !! i) as [h|] eqn:Hh; [|done].
  destruct (heap s !! i) as [ss|] eqn:Hss; [|done].
  pose proof (file_conn_wf _ _ _ _ Hwf Hh Hss) as Hf.
  destruct e; intros [= <-]; [apply return_wf|]; apply (srv_wf_ext _ _ Hf); try done.
  apply delete_subseteq.
Qed.

Lemma finish_wf i cID c s : srv_wf s → srv_wf (ReverseForward_finish i cID c s).
Proof.
  intros [Hm Hhp Hha Hc Ho Ha].
  assert (∀ j r, alter (λ r, MkRFS (rs_addr r) (delete cID (connMap r))) i (heap s) !! j = Some r →
    ∃ q, heap s !! j = Some q ∧ rs_addr r = rs_addr q ∧ connMap r ⊆ connMap q) as Hinv.
  { intros j r. rewrite lookup_alter. case_decide; subst; [|eauto].
    intros (q & Hq & ->)%fmap_Some. exists q. split_and!; [done|done|]. apply delete_subseteq. }
  split; cbn.
  - intros a j H. destruct (Hm _ _ H) as (r & Hr & Hra). rewrite lookup_alter.
    case_decide; subst; rewrite Hr; cbn; eexists; by split.
  - intros j r H. destruct (Hinv _ _ H) as (q & Hq & _). eauto.
  - intros j h H. destruct (Hha _ _ H) as (r & Hr & [H1 H2 H3 H4]). rewrite lookup_alter.
    case_decide; subst; rewrite Hr; cbn; eexists; (split; [done|]); split; try done.
    intros d e ?. cbn. intros [_ ?]%lookup_delete_Some. by eapply H4.
  - intros j r d e H Hd. destruct (Hinv _ _ H) as (q & Hq & _ & Hsub).
    eapply Hc; [exact Hq|]. by eapply lookup_weaken.
  - intros j k r q d e n H1 H2 Hd He. destruct (Hinv _ _ H1) as (r' & Hr & _ & S1).
    destruct (Hinv _ _ H2) as (q' & Hq & _ & S2).
    eapply Ho; [exact Hr|exact Hq|by eapply lookup_weaken|by eapply lookup_weaken].
  - done.
Qed.

Lemma stop_wf fwd s : srv_wf s → srv_wf (fst (StopReverseForward fwd s)).
Proof.
  intros Hwf. unfold StopReverseForward. destruct (networkDescription _) as [kind|]; [|done].
  destruct (reverseForwardSessions s !! _) as [i|]; [|done].
  apply (srv_wf_ext s); cbn; try done; [apply delete_subseteq|set_solver].
Qed.

Lemma srv_step_wf : invariant srv_step srv_wf.
Proof.
  intros s s' Hwf Hs. destruct Hs as [|fwd kind listen c1 c2 s s' r Hc Hk Hs|i e s s' Hi Ha| | | |].
  - by apply (srv_wf_ext s).
  - eapply serve_wf; [|exact Hk|exact Hs]. by apply (srv_wf_ext s).
  - by eapply accept_wf.
  - by apply return_wf.
  - by apply (srv_wf_ext s).
  - apply finish_wf. by apply (srv_wf_ext s).
  - by apply stop_wf.
Qed.

Lemma srv_reach_wf s : rtc srv_step New s → srv_wf s.
Proof. intros H. eapply invariant_rtc; [apply srv_step_wf|exact H|apply New_wf]. Qed.

(** ** Theorems *)

(** A server with one session on tcp port 80 of localhost, used by the examples. *)
Definition fwd80 : ForwardMessage := MkForwardMessage TCP OPEN "localhost:80" [].
Definition listen80 (i : nat) : result laddr := Ok (TCPAddr 80).
Definition srv80 : WaterfallServer := fst (StartReverseForward_serve "tcp" fwd80 listen80 New).

Lemma srv80_reach : rtc srv_step New srv80.
Proof.
  eapply rtc_l; [apply (srv_check fwd80 "tcp"); reflexivity|].
  eapply rtc_once. apply (srv_serve fwd80 "tcp" listen80 [] [] _ _ (Ok ())); reflexivity.
Defined.

Lemma open_msg_split addr cID :
  has_char "/" addr = false → SplitN (addr +:+ "/" +:+ fmt_d cID) "/" 2 = [addr; fmt_d cID].
Proof. intros H. rewrite SplitN_2.
  change ("/" +:+ fmt_d cID) with (String "/" (fmt_d cID)). by rewrite (cut_char "/" addr (fmt_d cID) H). Qed.

Lemma slen_open addr cID : 0 < slen (addr +:+ "/" +:+ fmt_d cID).
Proof. rewrite !slen_app. unfold slen. cbn [String.length]. lia. Qed.

(** A reverse connection reaches the stream that asks for it: the message the server
    sends when it accepts a connection is answered by the client with the same kind and
    address, and that answer makes [ReverseForward] pick exactly the accepted connection,
    under an identifier no earlier connection of the session has. *)
Theorem reverse_connection_roundtrip s i h s' ss kind addr k dKind dAddr :
  rtc srv_step New s → i ∈ accepting s → handlers s !! i = Some h →
  reverseForwardSessions s !! h_addr h = Some i →
  has_char "/" (fm_addr (h_fwd h)) = false → Z.of_nat (nextConn s) + 1 < 2 ^ 64 →
  StartReverseForward_accept i None s = Some s' →
  parseAddr (src ss) = Ok (kind, addr) → networkKind kind = Ok k →
  parseAddr (dst ss) = Ok (dKind, dAddr) → half_closer dKind = true →
  ∃ m cID, sent s' = sent s ++ [(i, m)] ∧
    reverse_round ss m None None None = RNext m true ∧
    ReverseForward_lookup (Ok m) s' = Ok (i, cID, nextConn s) ∧
    ∀ r, heap s !! i = Some r → connMap r !! cID = None.
Proof.
  intros Hr Hi Hh Hmap Hno Hn Ha Hp Hk Hd Hhc. apply srv_reach_wf in Hr.
  destruct (sw_handler _ Hr _ _ Hh) as (r & Hheap & Hok).
  pose proof (next_cID _ _ _ _ Hok Hn) as Hnext.
  destruct Hok as [(d & Hdk & Haddr) Hs [H0 Hle] Hc]. specialize (Hle ltac:(lia)).
  unfold StartReverseForward_accept in Ha. rewrite Hh, Hheap in Ha. injection Ha as <-.
  rewrite Hnext. exists (open_msg (h_fwd h) (h_cID h + 1)), (h_cID h + 1).
  split_and!; [done| | |].
  - unfold reverse_round. rewrite Hp, Hk. cbn. rewrite decide_False by (by intros []).
    rewrite decide_True; [by rewrite Hd, Hhc|]. split; [|apply slen_open]. intros E. by rewrite E in Hdk.
  - unfold ReverseForward_lookup, open_msg. cbn [fm_kind fm_addr rbind].
    rewrite Hdk. cbn [rbind heap reverseForwardSessions].
    rewrite open_msg_split, ParseUint_fmt_d by (done || lia).
    rewrite <- Haddr, Hmap, lookup_insert_eq. cbn. by rewrite lookup_insert_eq.
  - intros r' Hr'. rewrite Hheap in Hr'. injection Hr' as <-.
    destruct (connMap r !! _) eqn:E; [|done]. apply Hc in E; lia.
Qed.

Lemma reverse_connection_roundtrip_witness : ∃ m cID s',
  StartReverseForward_accept 0 None srv80 = Some s' ∧
  ReverseForward_lookup (Ok m) s' = Ok (0%nat, cID, 0%nat).
Proof.
  destruct (reverse_connection_roundtrip srv80 0 (MkHandler fwd80 "tcp:localhost:80" 0)
    (default New (StartReverseForward_accept 0 None srv80))
    (MkSession "tcp:localhost:80" "tcp:localhost:90" 0) "tcp" "localhost:80" TCP "tcp" "localhost:90")
    as (m & cID & _ & _ & H & _).
  - exact srv80_reach.
  - apply (bool_decide_unpack _); vm_compute; exact I.
  - vm_compute; reflexivity.
  - vm_compute; reflexivity.
  - vm_compute; reflexivity.
  - vm_compute; reflexivity.
  - vm_compute; reflexivity.
  - vm_compute; reflexivity.
  - reflexivity.
  - vm_compute; reflexivity.
  - vm_compute; reflexivity.
  - exists m, cID, (default New (StartReverseForward_accept 0 None srv80)).
    split; [vm_compute; reflexivity|exact H].
Defined.

(** A connection is filed once: in every reachable state of the server two entries of
    the sessions' connection maps that hold the same connection are the same entry. *)
Theorem reverse_conn_unique s i j r q cID dID c :
  rtc srv_step New s → heap s !! i = Some r → heap s !! j = Some q →
  connMap r !! cID = Some c → connMap q !! dID = Some c → i = j ∧ cID = dID.
Proof. intros H%srv_reach_wf. by eapply sw_once. Qed.

Definition srv80c : WaterfallServer := default New (StartReverseForward_accept 0 None srv80).

Lemma reverse_conn_unique_witness : (0%nat = 0%nat) ∧ (1 = 1).
Proof.
  apply (reverse_conn_unique srv80c 0 0 (MkRFS "tcp:localhost:80" {[1 := 0%nat]})
    (MkRFS "tcp:localhost:80" {[1 := 0%nat]}) 1 1 0); try (vm_compute; reflexivity).
  eapply rtc_r; [exact srv80_reach|].
  apply (srv_accept 0 None); [apply (bool_decide_unpack _); vm_compute; exact I|].
  vm_compute; reflexivity.
Defined.

Lemma conns_elem r cID c : connMap r !! cID = Some c → c ∈ conns r.
Proof.
  intros H. unfold conns. apply elem_of_list_to_set, list_elem_of_fmap.
  exists (cID, c). split; [done|]. by apply elem_of_map_to_list.
Qed.

(** [StopReverseForward] ends a session: its listener and every connection it still
    holds are closed, other listeners stay open, and its address can be forwarded again. *)
Theorem reverse_stop_closes fwd s kind i r :
  networkDescription (fm_kind fwd) = Ok kind → fm_op fwd = OPEN →
  reverseForwardSessions s !! sess_addr kind (fm_addr fwd) = Some i → heap s !! i = Some r →
  let '(s', res) := StopReverseForward fwd s in
  res = Ok () ∧ accepting s' = accepting s ∖ {[i]} ∧
  (∀ cID c, connMap r !! cID = Some c → c ∈ closed s') ∧
  StartReverseForward_check fwd s' = Ok kind.
Proof.
  intros Hk Ho Hm Hr. unfold StopReverseForward. rewrite Hk, Hm, Hr. cbn. split_and!; [done|done| |].
  - intros cID c Hc. apply elem_of_union_l. by eapply conns_elem.
  - unfold StartReverseForward_check. rewrite decide_False by (by intros []). rewrite Hk. cbn.
    by rewrite lookup_delete_eq.
Qed.

Lemma reverse_stop_closes_witness : 0%nat ∈ closed (fst (StopReverseForward fwd80 srv80c)).
Proof.
  pose proof (reverse_stop_closes fwd80 srv80c "tcp" 0
    (MkRFS "tcp:localhost:80" {[1 := 0%nat]})) as H.
  destruct (StopReverseForward fwd80 srv80c) as [s' res].
  apply H with (cID := 1); vm_compute; reflexivity.
Defined.

(** A session whose [Accept] failed is not removed: the handler returned and its
    listener is closed, but the address stays taken and a new [StartReverseForward] for it
    is refused with AlreadyExists. *)
Theorem reverse_accept_failure_stale fwd s kind i h :
  networkDescription (fm_kind fwd) = Ok kind → fm_op fwd = OPEN →
  reverseForwardSessions s !! sess_addr kind (fm_addr fwd) = Some i → handlers s !! i = Some h →
  let s' := StartReverseForward_return i s in
  srv_step s s' ∧ i ∉ accepting s' ∧ handlers s' !! i = None ∧
  StartReverseForward_check fwd s' = Err (StatusError AlreadyExists "address already being forwarded").
Proof.
  intros Hk Ho Hm Hh. cbv zeta. split_and!.
  - by eapply srv_accept_err.
  - cbn. set_solver.
  - cbn. by rewrite lookup_delete_eq.
  - unfold StartReverseForward_check. rewrite decide_False by (by intros []). rewrite Hk. cbn.
    by rewrite Hm.
Qed.

Lemma reverse_accept_failure_stale_witness :
  StartReverseForward_check fwd80 (StartReverseForward_return 0 srv80) =
  Err (StatusError AlreadyExists "address already being forwarded").
Proof.
  eapply (reverse_accept_failure_stale fwd80 srv80 "tcp" 0
    (MkHandler fwd80 "tcp:localhost:80" 0)); vm_compute; reflexivity.
Defined.

(** [buildListener] tries at most three times: it returns a listener only when that
    listener has a port, and it closes every listener it does not return; for a unix
    socket, whose listener has no port, it always fails. *)
Theorem buildListener_spec listen :
  let '(r, closed) := buildListener listen in
  (closed ≤ 3)%nat ∧
  (∀ l, r = Ok l → listenerPort l ≠ 0 ∧ listen closed = Ok l) ∧
  ((∀ i, ∃ name, listen i = Ok (UnixAddr name)) → r = Err errNoPort ∧ closed = 3%nat).
Proof.
  unfold buildListener; cbn.
  destruct (listen 0%nat) as [l0|] eqn:E0; [|split_and!; [lia|done|intros H]].
  2: { destruct (H 0%nat) as [? ?]; congruence. }
  case_decide as D0; cbn.
  { split_and!; [lia|intros l [= <-]; done|intros H].
    destruct (H 0%nat) as [? Hl]. rewrite E0 in Hl. injection Hl as ->. by destruct D0. }
  destruct (listen 1%nat) as [l1|] eqn:E1; [|split_and!; [lia|done|intros H]].
  2: { destruct (H 1%nat) as [? ?]; congruence. }
  case_decide as D1; cbn.
  { split_and!; [lia|intros l [= <-]; done|intros H].
    destruct (H 1%nat) as [? Hl]. rewrite E1 in Hl. injection Hl as ->. by destruct D1. }
  destruct (listen 2%nat) as [l2|] eqn:E2; [|split_and!; [lia|done|intros H]].
  2: { destruct (H 2%nat) as [? ?]; congruence. }
  case_decide as D2; cbn.
  { split_and!; [lia|intros l [= <-]; done|intros H].
    destruct (H 2%nat) as [? Hl]. rewrite E2 in Hl. injection Hl as ->. by destruct D2. }
  split_and!; [lia|done|done].
Qed.

(** ** The client and the server together *)

Lemma networkKind_description kind k : networkKind kind = Ok k → networkDescription k = Ok kind.
Proof. unfold networkKind. intros H. repeat case_decide; simplify_eq; done. Qed.

Lemma parseAddr_join addr kind a : parseAddr addr = Ok (kind, a) → addr = sess_addr kind a.
Proof.
  unfold parseAddr. rewrite SplitN_2.
  destruct (cut ":" addr) as [[b c]|] eqn:E; [|done]. intros [= <- <-].
  by apply cut_Some in E.
Qed.

Lemma makeForwarder_dial dst rpcErr sendErr m :
  makeForwarder dst rpcErr sendErr = Ok m →
  ∃ kind addr, Forward_dial (Ok m) = Ok (kind, addr) ∧ dst = sess_addr kind addr.
Proof.
  unfold makeForwarder. destruct (parseAddr dst) as [[kind addr]|] eqn:Hp; [|done].
  destruct rpcErr; [done|]. cbn. destruct (networkKind kind) as [k|] eqn:Hk; [|done].
  destruct sendErr; [done|]. intros [= <-]. exists kind, addr. unfold Forward_dial. cbn.
  rewrite (networkKind_description _ _ Hk). split; [done|]. by apply parseAddr_join.
Qed.

(** A forwarded connection is dialed where the session says: the message with which the
    client opens a stream makes the server dial the network and address of the session's
    destination, and a destination that cannot be dialed is refused before the server is
    asked for anything. *)
Theorem forward_dials_destination dst rpcErr sendErr m :
  makeForwarder dst rpcErr sendErr = Ok m →
  ∃ kind addr, Forward_dial (Ok m) = Ok (kind, addr) ∧ dst = sess_addr kind addr.
Proof. apply makeForwarder_dial. Qed.

Lemma forward_dials_destination_witness :
  ∃ kind addr, Forward_dial (Ok fwd80) = Ok (kind, addr) ∧ "tcp:localhost:80" = sess_addr kind addr.
Proof. apply (forward_dials_destination "tcp:localhost:80" None None). reflexivity. Defined.

(** A reverse session on a port chosen by the server ends at once: the server's first
    message announces the address; the daemon leaves its loop on it, and the request to
    stop that it then sends names the address it asked for, under which the server has
    nothing: the server's session and listener stay. *)
Theorem reverse_port0_session_lost listen s s' p i :
  fst (buildListener listen) = Ok (TCPAddr p) →
  let fwd := MkForwardMessage TCP OPEN "localhost:0" [] in
  reverseForwardSessions s !! "tcp:localhost:0" = None →
  0 < p < 65536 → i = nextSession s →
  StartReverseForward_serve "tcp" fwd listen s = (s', Ok ()) →
  (∃ m, sent s' = sent s ++ [(i, m)] ∧
        ∀ d e1 e2 e3, reverse_round (MkSession "tcp:localhost:0" d 0) m e1 e2 e3 = RLeave None) ∧
  StopReverseForward (MkForwardMessage TCP CLOSE "localhost:0" []) s' = (s', Ok ()) ∧
  i ∈ accepting s' ∧
  reverseForwardSessions s' !! ("tcp:localhost:" +:+ fmt_int p) = Some i.
Proof.
  cbv zeta. intros Hb Hnone Hp -> Hs. unfold StartReverseForward_serve in Hs. rewrite Hb in Hs.
  unfold listen_fwd, announceAddr in Hs. rewrite bool_decide_true in Hs by (split; auto).
  cbn [fm_kind fm_op fm_addr fm_payload listenerPort] in Hs.
  rewrite decide_True in Hs by done. injection Hs as <-. split_and!; cbn.
  - eexists. split; [done|]. done.
  - unfold StopReverseForward. cbn [networkDescription fm_kind fm_addr reverseForwardSessions].
    change (sess_addr "tcp" "localhost:0") with "tcp:localhost:0".
    rewrite lookup_insert_ne; [by rewrite Hnone|]. intros Heq.
    assert (fmt_int p = "0") as E by (injection Heq as Heq; exact Heq).
    pose proof (Atoi_fmt_int 64 p ltac:(lia) ltac:(lia)) as Ha. rewrite E in Ha.
    vm_compute in Ha. injection Ha as Ha. lia.
  - set_solver.
  - by rewrite lookup_insert_eq.
Qed.

Lemma reverse_port0_session_lost_witness :
  0%nat ∈ accepting (fst (StartReverseForward_serve "tcp"
    (MkForwardMessage TCP OPEN "localhost:0" []) (λ _, Ok (TCPAddr 40001)) New)).
Proof.
  eapply (reverse_port0_session_lost (λ _, Ok (TCPAddr 40001)) New _ 40001 0);
    [vm_compute; reflexivity|vm_compute; reflexivity|lia|reflexivity|].
  vm_compute. reflexivity.
Defined.
