(* ===== verification/PortForward.v ===== *)
(** * Port forwarding as a whole: the daemon, the server and the connections between them

    src/waterfall/golang/forward/ports/ports.go accepts a connection and opens an RPC for it, whose
    first message names the destination; [Forward] of server/server.go dials the destination; then
    the two forwarders of a [Tunnel] carry the bytes.  The system runs the daemon's steps and those
    of all connections in any order. *)

From S2P Require Import Prelude GoStrings GoIO Proto Stream Ports Reverse.
From S2P Require Import Forward StreamForwarder Tunnel.

Local Open Scope Z_scope.
Local Open Scope go_scope.

(** ** One connection *)

(** A forwarder just started by [go fwdr.Forward()] or [sf.Forward()]: its connection delivers
    [conn], closes as [ci] and takes the bytes [quota] allows. *)
Definition start (conn : source) (ci : closing) (q : option (Z * error)) : fwd :=
  Forward_init (MkSource [] None) conn Leaves ci (MkSink [] None) (MkSink [] q).

(** [Calling]: the daemon has sent the first message and runs its forwarder [f]; the server's handler
    has not taken it yet, and [ms] follows it.  [Serving]: the handler dialled [kind] and [addr], a
    connection that delivers [conn].  [Rejected]: the handler returned an error instead.  [Crashed]: it
    panicked on the connection it dialled, which takes the server down; the other RPCs break. *)
Inductive path_state :=
| Calling (open : ForwardMessage) (f : fwd) (ms : list ForwardMessage)
| Serving (kind addr : string) (conn : source) (t : tunnel)
| Rejected (f : fwd)
| Crashed (kind addr : string) (f : fwd).

Inductive path_step : path_state → path_state → Prop :=
| path_near m f f' ms :
    forward_step f f' → path_step (Calling m f ms) (Calling m f' (ms ++ sent f f'))
| path_break_recv m f ms e : e ≠ EOF → path_step (Calling m f ms) (Calling m (receive (Err e) f) ms)
| path_break_send m f ms e : path_step (Calling m f ms) (Calling m (fail_sends e f) ms)
| path_serve m f ms kind addr conn ci q :
    Forward_dial (Ok m) = Ok (kind, addr) → half_closer kind = true →
    path_step (Calling m f ms) (Serving kind addr conn (MkTunnel f (start conn ci q) [] ms))
| path_reject m f ms e :
    e ≠ EOF → path_step (Calling m f ms) (Rejected (fail_sends EOF (receive (Err e) f)))
| path_panic m f ms kind addr e :
    Forward_dial (Ok m) = Ok (kind, addr) → half_closer kind = false → e ≠ EOF →
    path_step (Calling m f ms) (Crashed kind addr (fail_sends EOF (receive (Err e) f)))
| path_serving kind addr conn t t' :
    tunnel_any t t' → path_step (Serving kind addr conn t) (Serving kind addr conn t')
| path_rejected f f' : forward_step f f' → path_step (Rejected f) (Rejected f')
| path_crashed kind addr f f' : forward_step f f' → path_step (Crashed kind addr f) (Crashed kind addr f').

(** ** The system *)

(** [paths]: the connections the daemon has opened an RPC for, with the session each came in on. *)
Record system := MkSystem { daemon : PortForwarder; paths : list (nat * path_state) }.

Definition system_init : system := MkSystem NewServer [].

Definition forward_calls (pf : PortForwarder) : list call :=
  List.filter (λ c, match c with CallForward _ _ => true | _ => false end) (calls pf).

Inductive sys_step : system → system → Prop :=
| sys_daemon pf pf' ps :
    pf_step pf pf' → forward_calls pf' = forward_calls pf → sys_step (MkSystem pf ps) (MkSystem pf' ps)
| sys_accept i conn ci q m pf pf' ps :
    i ∈ listening pf → accept_round i None None pf = Some (pf', Ok m) →
    sys_step (MkSystem pf ps) (MkSystem pf' (ps ++ [(i, Calling m (start conn ci q) [])]))
| sys_path k i p p' pf ps :
    ps !! k = Some (i, p) → path_step p p' → sys_step (MkSystem pf ps) (MkSystem pf (<[k := (i, p')]> ps)).

(** ** One connection: what its states guarantee *)

Section path.
Context (d : string) (connN : source) (ciN : closing) (qN : option (Z * error)).

Definition tunnel_of (connF : source) (ciF : closing) (qF : option (Z * error)) : tunnel :=
  tunnel_init connN ciN (MkSink [] qN) connF ciF (MkSink [] qF).

(** Whatever the server will dial, [f] is the near end of a tunnel to it. *)
Definition near_of (f : fwd) (ms : list ForwardMessage) : Prop :=
  ∀ connF ciF qF, rtc tunnel_any (tunnel_of connF ciF qF) (MkTunnel f (start connF ciF qF) [] ms).

Definition path_ok (p : path_state) : Prop :=
  match p with
  | Calling m f ms => makeForwarder d None None = Ok m ∧ near_of f ms
  | Serving kind addr connF t =>
      d = sess_addr kind addr ∧ half_closer kind = true ∧ ∃ ciF qF, rtc tunnel_any (tunnel_of connF ciF qF) t
  | Rejected f => ∃ ms, near_of f ms
  | Crashed kind addr f => d = sess_addr "udp" addr ∧ kind = "udp" ∧ ∃ ms, near_of f ms
  end.

Lemma near_of_step f f' ms : forward_step f f' → near_of f ms → near_of f' (ms ++ sent f f').
Proof. intros Hf Hn c ci q. eapply rtc_r; [apply Hn|]. left. by apply (t_near (MkTunnel f _ [] ms)). Qed.

Lemma near_of_break_recv f ms e : e ≠ EOF → near_of f ms → near_of (receive (Err e) f) ms.
Proof. intros He Hn c ci q. eapply rtc_r; [apply Hn|]. right. by apply (t_break_near_recv (MkTunnel f _ [] ms)). Qed.

Lemma near_of_break_send f ms e : near_of f ms → near_of (fail_sends e f) ms.
Proof. intros Hn c ci q. eapply rtc_r; [apply Hn|]. right. by apply (t_break_near_send (MkTunnel f _ [] ms)). Qed.

Lemma dialled m kind addr :
  makeForwarder d None None = Ok m → Forward_dial (Ok m) = Ok (kind, addr) → d = sess_addr kind addr.
Proof. intros (kd & ad & Hd & ->)%makeForwarder_dial. rewrite Hd. by intros [= -> ->]. Qed.

(** Of the networks a message can name only udp has no half closes. *)
Lemma dial_no_half_closer m kind addr :
  Forward_dial m = Ok (kind, addr) → half_closer kind = false → kind = "udp".
Proof. destruct m as [m|]; [|done]. unfold Forward_dial. cbn. by destruct (fm_kind m); intros [= <- <-]. Qed.

Lemma path_step_ok p p' : path_ok p → path_step p p' → path_ok p'.
Proof.
  intros Hp Hs. destruct Hs as [m f f' ms Hf|m f ms e He|m f ms e|m f ms kind addr conn ci q Hd Hh|m f ms e He
    |m f ms kind addr e Hd Hh He|kind addr conn t t' Ht|f f' Hf|kind addr f f' Hf]; cbn [path_ok] in *.
  - destruct Hp. split; [done|]. by apply near_of_step.
  - destruct Hp. split; [done|]. by apply near_of_break_recv.
  - destruct Hp. split; [done|]. by apply near_of_break_send.
  - destruct Hp as [Hm Hn]. split; [by eapply dialled|]. split; [done|]. exists ci, q. apply Hn.
  - destruct Hp as [_ Hn]. exists ms. by apply near_of_break_send, near_of_break_recv.
  - destruct Hp as [Hm Hn]. pose proof (dial_no_half_closer _ _ _ Hd Hh) as ->.
    split; [by eapply dialled|]. split; [done|]. exists ms. by apply near_of_break_send, near_of_break_recv.
  - destruct Hp as (Hd & Hh & ci & q & Hr). split_and!; [done|done|]. exists ci, q. by eapply rtc_r.
  - destruct Hp as [ms Hn]. eexists. by apply near_of_step.
  - destruct Hp as (Hd & Hh & ms & Hn). split_and!; [done|done|]. eexists. by apply near_of_step.
Qed.

(** The bytes the daemon's connection was given while nothing was dialled: none. *)
Lemma near_of_nothing f ms : near_of f ms → taken (dst (intoY f)) = [].
Proof.
  intros Hn. destruct (tunnel_any_safe _ _ _ _ _ _ _ (Hn (MkSource [] None) Leaves None)) as [_ H].
  cbn in H. by apply prefix_nil_inv in H.
Qed.

End path.

(** ** The whole system *)

Lemma accept_pf_step i m pf pf' :
  i ∈ listening pf → accept_round i None None pf = Some (pf', Ok m) → pf_step pf pf'.
Proof. intros Hi Ha. by eapply pf_accept. Qed.

Lemma sys_daemon_reach s s' : rtc sys_step s s' → rtc pf_step (daemon s) (daemon s').
Proof.
  induction 1 as [s|s s1 s2 Hs _ IH]; [done|]. destruct Hs as [pf pf' ps Hp _|i conn ci q m pf pf' ps Hi Ha|].
  - by eapply rtc_l.
  - eapply rtc_l; [|exact IH]. by eapply accept_pf_step.
  - exact IH.
Qed.

(** The path of a connection stays its path. *)
Lemma path_reach d conn ci q k i s s' :
  rtc sys_step s s' → (∃ p, paths s !! k = Some (i, p) ∧ path_ok d conn ci q p) →
  ∃ p, paths s' !! k = Some (i, p) ∧ path_ok d conn ci q p.
Proof.
  intros H. apply (invariant_rtc sys_step
    (λ s, ∃ p, paths s !! k = Some (i, p) ∧ path_ok d conn ci q p) s s'); [|exact H].
  clear. intros s s' (p & Hk & Hp) Hs.
  destruct Hs as [pf pf' ps|j c cj cq m pf pf' ps Hi Ha|j i' p1 p2 pf ps Hj Hs]; cbn [paths] in *.
  - by exists p.
  - exists p. split; [|done]. by apply lookup_app_l_Some.
  - destruct (decide (j = k)) as [->|Hjk].
    + rewrite Hk in Hj. injection Hj as <- <-. exists p2. rewrite list_lookup_insert_eq by by eapply lookup_lt_Some.
      split; [done|]. by eapply path_step_ok.
    + exists p. by rewrite list_lookup_insert_ne.
Qed.

(** What the user of the forwarded port sees of a connection that delivers [conn]: nothing comes back
    before the destination [d] was dialled, and then [d] it is, which is no udp address; either side is given a prefix of what
    the other one delivers, and all of it when both forwarders end with nil. *)
Definition delivered (d : string) (conn : source) (p : path_state) : Prop :=
  match p with
  | Calling _ f _ | Rejected f => taken (dst (intoY f)) = []
  | Crashed kind addr f =>
      d = sess_addr "udp" addr ∧ kind = "udp" ∧ taken (dst (intoY f)) = []
  | Serving kind addr connF t =>
      d = sess_addr kind addr ∧ half_closer kind = true ∧
      (taken (dst (intoY (far t))) `prefix_of` avail conn ∧ taken (dst (intoY (near t))) `prefix_of` avail connF) ∧
      (main (near t) = Returning None → main (far t) = Returning None →
       taken (dst (intoY (far t))) = avail conn ∧ taken (dst (intoY (near t))) = avail connF)
  end.

Lemma path_ok_delivered d conn ci q p : path_ok d conn ci q p → delivered d conn p.
Proof.
  destruct p as [m f ms|kind addr connF t|f|kind addr f]; cbn [path_ok delivered].
  - intros [_ Hn]. by eapply near_of_nothing.
  - intros (Hd & Hh & ciF & qF & Hr). split; [done|]. split; [done|].
    split; [exact (tunnel_any_safe _ _ _ _ _ _ _ Hr)|].
    intros M1 M2. by destruct (tunnel_any_complete _ _ _ _ _ _ _ Hr M1 M2) as (? & _ & ? & _).
  - intros [ms Hn]. by eapply near_of_nothing.
  - intros (Hd & Hh & ms & Hn). split_and!; [done|done|]. by eapply near_of_nothing.
Qed.

(** A connection accepted for a session is carried to its destination from then on. *)
Lemma accepted_delivered ss s i conn ci q m pf' s' :
  loops (daemon s) !! i = Some ss → accept_round i None None (daemon s) = Some (pf', Ok m) →
  rtc sys_step (MkSystem pf' (paths s ++ [(i, Calling m (start conn ci q) [])])) s' →
  ∃ p, paths s' !! length (paths s) = Some (i, p) ∧ delivered (Ports.dst ss) conn p.
Proof.
  intros Hl Ha Hs. unfold accept_round in Ha. rewrite Hl in Ha.
  destruct (makeForwarder (Ports.dst ss) None None) as [m'|] eqn:Hm; [|done]. injection Ha as <- ->.
  apply (path_reach (Ports.dst ss) conn ci q (length (paths s)) i) in Hs as (p & Hp & Hok).
  - exists p. split; [done|]. by eapply path_ok_delivered.
  - eexists. split; [cbn; by apply list_lookup_middle|]. split; [done|]. by intros ???.
Qed.

(** C8: A forwarded port works end to end: a connection that comes in on an open listener of the daemon
    belongs to a listed session, and whatever the daemon, the server, the other connections and the
    network then do, its bytes go to and come from a connection the server dialled at the destination
    of that session, in order and without loss, duplication or insertion, and completely when both
    forwarders end with nil; nothing comes back when the destination was not dialled. *)
Theorem port_forward_end_to_end s i conn ci q m pf' s' :
  rtc sys_step system_init s → i ∈ listening (daemon s) →
  accept_round i None None (daemon s) = Some (pf', Ok m) →
  rtc sys_step (MkSystem pf' (paths s ++ [(i, Calling m (start conn ci q) [])])) s' →
  ∃ ss, sessions (daemon s) !! Ports.src ss = Some ss ∧ id ss = i ∧
    ∃ p, paths s' !! length (paths s) = Some (i, p) ∧ delivered (Ports.dst ss) conn p.
Proof.
  intros Hr%sys_daemon_reach Hi Ha Hs. apply pf_reach_wf in Hr as Hwf.
  destruct (fw_owned _ Hwf _ Hi) as (k & ss & Hk & Hid). destruct (fw_key _ Hwf _ _ Hk) as [<- _].
  exists ss. split_and!; [done|done|]. eapply accepted_delivered; [|done..].
  rewrite <- Hid. eapply fw_served; [done..|by rewrite Hid].
Qed.

(** A run: the connection is accepted, dialled and served to its end. *)
Definition demo_message : ForwardMessage := MkForwardMessage TCP OPEN "localhost:8080" [].
Definition demo_pf : PortForwarder := add_call (CallForward (Some 0%nat) demo_message) pf1.

Lemma path_run pf i kind addr conn t t' :
  rtc tunnel_any t t' →
  rtc sys_step (MkSystem pf [(i, Serving kind addr conn t)]) (MkSystem pf [(i, Serving kind addr conn t')]).
Proof.
  induction 1 as [t|t t1 t2 Ht _ IH]; [done|]. eapply rtc_l; [|exact IH].
  by apply (sys_path 0 i (Serving kind addr conn t) (Serving kind addr conn t1) pf [(i, Serving kind addr conn t)]
    eq_refl), path_serving.
Qed.

Lemma port_forward_end_to_end_witness : ∃ s' t,
  paths s' !! 0%nat = Some (0%nat, Serving "tcp" "localhost:8080" demo_empty t) ∧
  delivered "tcp:localhost:8080" demo_in (Serving "tcp" "localhost:8080" demo_empty t).
Proof.
  destruct demo_tunnel_run as (t & Hr & _).
  exists (MkSystem demo_pf [(0%nat, Serving "tcp" "localhost:8080" demo_empty t)]), t. split; [done|].
  destruct (port_forward_end_to_end (MkSystem pf1 []) 0 demo_in Interrupts None demo_message demo_pf
    (MkSystem demo_pf [(0%nat, Serving "tcp" "localhost:8080" demo_empty t)])) as (ss & Hs & Hid & p & Hp & Hd).
  - apply rtc_once. apply (sys_daemon NewServer); [apply pf_forward|done].
  - by apply (bool_decide_unpack _); vm_compute.
  - by vm_compute.
  - eapply rtc_l.
    + apply (sys_path 0 0 (Calling demo_message (start demo_in Interrupts None) [])
        (Serving "tcp" "localhost:8080" demo_empty demo_tunnel) demo_pf); [done|]. by apply path_serve.
    + apply path_run. eapply rtc_subrel; [|exact Hr]. intros ?? H. by left.
  - cbn in Hp. injection Hp as <-. destruct Hd as [_ Hd]. split; [done|exact Hd].
Defined.

(** ** What the daemon's steps do to the listeners *)

(** Steps never reopen a listener or give a session another goroutine: what there is was there
    before, or is new. *)
Definition fresher (pf pf' : PortForwarder) : Prop :=
  (next pf ≤ next pf')%nat ∧ ∀ i, (i < next pf)%nat →
    (i ∈ listening pf' → i ∈ listening pf) ∧
    ∀ ss, loops pf' !! i = Some ss → loops pf !! i = Some ss.

#[local] Instance fresher_preorder : PreOrder fresher.
Proof. split; [by split|]. intros p q r [H1 H2] [H3 H4]. split; [lia|]. intros i Hi. destruct (H2 i), (H4 i); [lia..|]. auto. Qed.

Lemma lis_Close_fresher i pf : fresher pf (fst (lis_Close i pf)).
Proof.
  unfold lis_Close. case_decide; [|done]. split; [done|]. intros i' _. cbn. split; [set_solver|done].
Qed.

Lemma startSession_fresher s d pf : fresher pf (startSession s d pf).
Proof.
  split; cbn; [lia|]. intros i Hi. rewrite lookup_insert_ne by lia. split; [|done].
  rewrite elem_of_union, elem_of_singleton. intros [->|?]; [lia|done].
Qed.

Lemma ForwardPort_fresher listen req pf : fresher pf (fst (ForwardPort listen req pf)).
Proof.
  unfold ForwardPort. cbv zeta.
  destruct (parseAddr (fs_src (pr_session req))) as [[kind addr]|]; [|done].
  destruct (parseAddr (fs_dst (pr_session req))); [|done].
  destruct (sessions pf !! fs_src (pr_session req)) as [ss|]; [destruct (pr_rebind req); cbn [negb]; [|done]|].
  - pose proof (lis_Close_fresher (id ss) (set_sessions (delete (fs_src (pr_session req))) pf)) as Hc.
    assert (fresher pf (set_sessions (delete (fs_src (pr_session req))) pf)) as Hd by done.
    destruct (lis_Close _ _) as [pf' [e|]]; [by etrans|]. destruct (listen kind addr); [by etrans|].
    etrans; [exact Hd|]. etrans; [exact Hc|]. apply startSession_fresher.
  - destruct (listen kind addr); [done|]. apply startSession_fresher.
Qed.

Lemma stop_fold_fresher l pf :
  fresher pf (foldr (λ (ks : string * forwardSession) pf, fst (lis_Close (id (snd ks)) (cancel (id (snd ks)) pf))) pf l).
Proof.
  induction l as [|ks l IH]; [done|]. cbn. etrans; [exact IH|].
  etrans; [|apply lis_Close_fresher]. done.
Qed.

Lemma stopReverse_fresher ctx ss e pf : fresher pf (fst (stopReverseForwarding ctx ss e pf)).
Proof.
  unfold stopReverseForwarding. destruct (parseAddr (Ports.src ss)) as [[kind addr]|]; [|done].
  by destruct (networkKind kind).
Qed.

Lemma startReverse_fresher s d e pf : fresher pf (fst (startReverse s d e pf)).
Proof.
  unfold startReverse. destruct (parseAddr s) as [[kind addr]|]; [|done]. destruct (parseAddr d); [|done].
  destruct (networkKind kind); [|done]. cbv zeta. destruct e; by split; cbn; [lia|].
Qed.

Lemma reverse_exit_fresher ss e pf : fresher pf (reverse_exit ss e pf).
Proof.
  unfold reverse_exit. pose proof (stopReverse_fresher (Some (id ss)) ss e pf) as H.
  destruct (stopReverseForwarding _ _ _ _). exact H.
Qed.

Lemma pf_step_fresher pf pf' : pf_step pf pf' → fresher pf pf'.
Proof.
  destruct 1 as [listen req pf|req pf|pf|i e1 e2 pf pf' r Hi Ha|i ss pf Hl|e1 e2 req pf|e req pf
    |i fwd e1 e2 e3 e4 pf pf' Hr|i ss e pf Hl].
  - apply ForwardPort_fresher.
  - unfold Stop. cbv zeta. destruct (sessions pf !! _) as [ss|]; [|done].
    pose proof (lis_Close_fresher (id ss) (set_sessions (delete (fs_src (pr_session req))) (cancel (id ss) pf))) as H.
    destruct (lis_Close _ _). exact H.
  - apply (stop_fold_fresher (map_to_list (sessions pf)) pf).
  - unfold accept_round in Ha. destruct (loops pf !! i); [|done].
    destruct (makeForwarder _ _ _); by injection Ha as <- <-.
  - unfold accept_exit. pose proof (lis_Close_fresher i pf) as H. destruct (lis_Close i pf) as [pf' e].
    etrans; [exact H|]. split; cbn; [lia|]. intros j _. split; [done|]. intros ss'. by intros [_ ?]%lookup_delete_Some.
  - unfold ReverseForwardPort. cbv zeta. destruct (reverseSessions pf !! _) as [rs|]; [|apply startReverse_fresher].
    destruct (negb _); [done|]. pose proof (stopReverse_fresher None rs e1 pf) as H.
    destruct (stopReverseForwarding _ _ _ _) as [pf1 [[]|e]]; [|exact H]. etrans; [exact H|]. apply startReverse_fresher.
  - unfold StopReverse. destruct (reverseSessions pf !! _); [apply stopReverse_fresher|done].
  - unfold reverse_recv in Hr. destruct (rloops pf !! i); [|done].
    destruct (reverse_round _ _ _ _ _) as [[m|]|m d|m]; simplify_eq; [|apply reverse_exit_fresher|done].
    etrans; [|apply reverse_exit_fresher]. done.
  - apply reverse_exit_fresher.
Qed.

Lemma sys_fresher s s' : rtc sys_step s s' → fresher (daemon s) (daemon s').
Proof.
  intros H%sys_daemon_reach. induction H as [|pf pf1 pf2 H1 _ IH]; [done|].
  etrans; [by apply pf_step_fresher|exact IH].
Qed.

(** While the listener of a session is open, its goroutine serves this session and no other. *)
Lemma session_stays s s' ss :
  rtc sys_step system_init s → loops (daemon s) !! id ss = Some ss → rtc sys_step s s' →
  id ss ∈ listening (daemon s') → loops (daemon s') !! id ss = Some ss.
Proof.
  intros Hr Hl Hs Hi. assert (rtc sys_step system_init s') as Hr' by by etrans.
  apply sys_daemon_reach, pf_reach_wf in Hr, Hr'. apply sys_fresher in Hs as [_ Hf].
  destruct (fw_loop _ Hr _ _ Hl) as [_ Hn]. destruct (fw_owned _ Hr' _ Hi) as (k & ss' & Hk & Hid).
  pose proof (fw_served _ Hr' _ _ Hk) as Hl'. rewrite Hid in Hl'. specialize (Hl' Hi).
  apply (Hf _ Hn) in Hl' as E. by simplify_eq.
Qed.

(** The connections of session [i]. *)
Definition paths_of (i : nat) (ps : list (nat * path_state)) : nat :=
  length (List.filter (λ p, bool_decide (p.1 = i)) ps).

Lemma paths_of_insert i k p p' ps j :
  ps !! k = Some (j, p) → paths_of i (<[k := (j, p')]> ps) = paths_of i ps.
Proof.
  revert k. induction ps as [|[j' q] ps IH]; intros [|k] H; try done; unfold paths_of in *; cbn in *.
  - injection H as -> ->. by case_bool_decide.
  - case_bool_decide; cbn; by rewrite IH.
Qed.

(** Nothing is accepted on a listener that was closed, by Stop, StopAll, a rebind or the end of the
    session's goroutine: once the listener of session [i] is closed, no connection is added to the
    ones it has, whatever happens next. *)
Theorem port_forward_stopped s s' i :
  rtc sys_step s s' → (i < next (daemon s))%nat → i ∉ listening (daemon s) →
  paths_of i (paths s') = paths_of i (paths s) ∧ i ∉ listening (daemon s').
Proof.
  intros H Hn Hi.
  enough ((i < next (daemon s'))%nat ∧ i ∉ listening (daemon s') ∧ paths_of i (paths s') = paths_of i (paths s))
    as (_ & ? & ?) by done.
  apply (invariant_rtc sys_step (λ s', (i < next (daemon s'))%nat ∧ i ∉ listening (daemon s') ∧
    paths_of i (paths s') = paths_of i (paths s)) s s'); [|done|done].
  clear s' H. intros s1 s2 (Hn1 & Hi1 & Hp) Hs.
  destruct Hs as [pf pf' ps Hs _|j c cj cq m pf pf' ps Hj Ha|k j p p' pf ps Hk Hs]; cbn [daemon paths] in *.
  - apply pf_step_fresher in Hs as [H1 H2]. split_and!; [lia| |done]. by intros Hl; apply Hi1, H2.
  - assert (j ≠ i) as Hne by (intros ->; done).
    apply accept_pf_step, pf_step_fresher in Ha as [H1 H2]; [|done]. split_and!; [lia|by intros Hl; apply Hi1, H2|].
    unfold paths_of in *. rewrite filter_app. cbn. rewrite bool_decide_false by done. by rewrite app_nil_r.
  - by rewrite (paths_of_insert i k p p' ps j Hk).
Qed.

Lemma port_forward_stopped_witness :
  ∀ s', rtc sys_step (MkSystem (fst (Stop req1 pf1)) []) s' → paths_of 0 (paths s') = 0%nat.
Proof.
  intros s' H. refine (proj1 (port_forward_stopped _ s' 0 H _ _)); vm_compute; [lia|].
  by apply (bool_decide_unpack _).
Defined.

(** ** Every RPC of the daemon is one connection *)

Definition call_session (c : call) : option nat := match c with CallForward ctx _ => ctx | _ => None end.

Lemma forward_calls_snoc c pf :
  forward_calls (add_call c pf) = forward_calls pf ++ (match c with CallForward _ _ => [c] | _ => [] end).
Proof. unfold forward_calls, add_call. cbn. rewrite filter_app. by destruct c. Qed.

Lemma paths_calls s :
  rtc sys_step system_init s →
  call_session <$> forward_calls (daemon s) = Some ∘ fst <$> paths s ∧
  (∀ c, c ∈ forward_calls (daemon s) → ∃ i m, c = CallForward (Some i) m).
Proof.
  intros H. apply (invariant_rtc sys_step
    (λ s, call_session <$> forward_calls (daemon s) = Some ∘ fst <$> paths s ∧
      (∀ c, c ∈ forward_calls (daemon s) → ∃ i m, c = CallForward (Some i) m)) system_init s); [|exact H|].
  - intros s1 s2 [IH1 IH2] Hs.
    destruct Hs as [pf pf' ps _ Hc|i conn ci q m pf pf' ps Hi Ha|k j p p' pf ps Hk Hs]; cbn [daemon paths] in *.
    + by rewrite Hc.
    + unfold accept_round in Ha. destruct (loops pf !! i); [|done].
      destruct (makeForwarder _ _ _) as [m'|]; [|done]. injection Ha as <- <-.
      rewrite forward_calls_snoc, !fmap_app, IH1. split; [done|].
      intros c [Hc| ->%list_elem_of_singleton]%elem_of_app; [by apply IH2|by eauto].
    + split; [|done]. rewrite IH1, list_fmap_insert. symmetry. apply list_insert_id.
      rewrite list_lookup_fmap, Hk. done.
  - split; [done|]. intros c Hc. by apply not_elem_of_nil in Hc.
Qed.

(** Every RPC the daemon opened for a forwarded connection is one connection of the system, in the
    same order, and the session it came in on is still served or has its context cancelled, which
    breaks the RPC: no connection outlives its session unnoticed. *)
Theorem forward_paths_accounted s k i p :
  rtc sys_step system_init s → paths s !! k = Some (i, p) →
  length (paths s) = length (forward_calls (daemon s)) ∧
  (∃ m, forward_calls (daemon s) !! k = Some (CallForward (Some i) m)) ∧
  (is_Some (loops (daemon s) !! i) ∨ i ∈ cancelled (daemon s)).
Proof.
  intros H Hk. destruct (paths_calls s H) as [E Hc].
  assert (length (paths s) = length (forward_calls (daemon s))) as Hl
    by (apply (f_equal length) in E; by rewrite !length_fmap in E).
  assert (∃ m, forward_calls (daemon s) !! k = Some (CallForward (Some i) m)) as [m Hm].
  { apply (f_equal (lookup k)) in E. rewrite !list_lookup_fmap, Hk in E. cbn in E.
    apply fmap_Some in E as (c & Hck & Hci). pose proof (list_elem_of_lookup_2 _ _ _ Hck) as Hin.
    destruct (Hc _ Hin) as (j & m & ->). cbn in Hci. injection Hci as <-. by exists m. }
  split_and!; [done|by exists m|].
  apply sys_daemon_reach, pf_reach_wf in H. apply (fw_stream _ H i m).
  apply list_elem_of_lookup_2, list_elem_of_In, List.filter_In in Hm as [Hm _]. by apply list_elem_of_In.
Qed.

Lemma forward_paths_accounted_witness :
  is_Some (loops demo_pf !! 0%nat) ∨ 0%nat ∈ cancelled demo_pf.
Proof.
  refine (proj2 (proj2 (forward_paths_accounted
    (MkSystem demo_pf [(0%nat, Calling demo_message (start demo_in Interrupts None) [])]) 0 0 _ _ eq_refl))).
  eapply rtc_l; [apply (sys_daemon NewServer pf1 []); [apply pf_forward|done]|].
  apply rtc_once. apply (sys_accept 0 demo_in Interrupts None demo_message pf1 demo_pf []).
  - by apply (bool_decide_unpack _); vm_compute.
  - by vm_compute.
Defined.

(** ** Destinations that cannot be half closed *)

Lemma makeForwarder_udp addr m :
  makeForwarder ("udp:" +:+ addr) None None = Ok m → m = MkForwardMessage UDP OPEN addr [].
Proof.
  unfold makeForwarder, parseAddr. rewrite SplitN_2.
  change ("udp:" +:+ addr) with ("udp" +:+ String ":" addr). rewrite (cut_char ":" "udp" addr eq_refl).
  by intros [= <-].
Qed.

(** The daemon and the server accept a udp destination, and the server dials it, but the dialled
    connection has no half closes: the handler panics on its type assertion, which nothing recovers, so
    one connection to the forwarded port takes the server down.  No such connection is ever served. *)
Theorem udp_destination_panics addr m f ms :
  makeForwarder ("udp:" +:+ addr) None None = Ok m →
  (∃ f', path_step (Calling m f ms) (Crashed "udp" addr f')) ∧
  ∀ kind a conn t, ¬ path_step (Calling m f ms) (Serving kind a conn t).
Proof.
  intros ->%makeForwarder_udp. split.
  - eexists. by apply (path_panic _ f ms "udp" addr errListenerClosed).
  - intros kind a conn t Hs. inversion Hs as [| | |m' f' ms' kd ad c ci q Hd Hh| | | | |]; subst.
    cbn in Hd. injection Hd as <- <-. discriminate.
Qed.

Lemma udp_destination_panics_witness :
  ∃ m f', makeForwarder "udp:localhost:53" None None = Ok m ∧
    path_step (Calling m (start demo_in Interrupts None) []) (Crashed "udp" "localhost:53" f').
Proof.
  destruct (udp_destination_panics "localhost:53" (MkForwardMessage UDP OPEN "localhost:53" [])
    (start demo_in Interrupts None) [] eq_refl) as [[f' H] _].
  exists (MkForwardMessage UDP OPEN "localhost:53" []), f'. split; [reflexivity|exact H].
Defined.
