(* ===== verification/ReverseForward.v ===== *)
(** * Reverse forwarding as a whole: the server's session, the daemon's goroutine and the connections

    src/waterfall/golang/server/server.go accepts connections on the device and announces each on the
    RPC of its session; the goroutine of the daemon's session (forward/ports/ports.go) answers every
    announcement with an RPC of its own and a connection to the destination, and the server joins the
    two ([Tunnel]).  The steps of the server for everybody else run in between. *)

From S2P Require Import Prelude GoStrings GoIO Proto Stream Ports Reverse.
From S2P Require Import Forward StreamForwarder Tunnel PortForward.

Local Open Scope Z_scope.
Local Open Scope go_scope.

(** ** The system *)

(** One announced connection: the daemon has opened an RPC with [open] for it and runs the forwarder
    [f] on the connection it dialled, which delivers [conn] ([Asked]), or could not dial and went on,
    leaving the RPC open ([Orphaned]); the server found connection [c] under session [j] and [cID] and
    joined the two ([Carried]), or forwards it to nobody ([Lost]); or its handler returned an error
    ([Denied]); [Ended] when the handler returned. *)
Inductive rpath :=
| Asked (open : ForwardMessage) (conn : source) (f : fwd) (ms : list ForwardMessage)
| Orphaned (open : ForwardMessage)
| Carried (j : nat) (cID : Z) (c : nat) (conn : source) (t : tunnel)
| Lost (j : nat) (cID : Z) (c : nat)
| Denied
| Ended (j : nat) (cID : Z) (c : nat) (conn : source) (t : tunnel).

(** [server]; the messages of the session the daemon has received; the connections the session has
    accepted; the paths, one per message. *)
Record rsystem := MkRSystem {
  server : WaterfallServer;
  received : nat;
  incoming : list nat;
  rpaths : list rpath;
}.

(** The messages sent on the RPC of session [i], and the calls forwarding its connections. *)
Definition sent_on (i : nat) (l : list (nat * ForwardMessage)) : list ForwardMessage :=
  snd <$> List.filter (λ p, bool_decide (p.1 = i)) l.
Definition forwarded_of (i : nat) (l : list (nat * Z * nat)) : list (nat * Z * nat) :=
  List.filter (λ p, bool_decide (p.1.1 = i)) l.

#[local] Arguments sent_on : simpl never.
#[local] Arguments forwarded_of : simpl never.

(** ** What a step of the server does to one session *)

Lemma sent_on_app i l1 l2 : sent_on i (l1 ++ l2) = sent_on i l1 ++ sent_on i l2.
Proof. unfold sent_on. by rewrite filter_app, fmap_app. Qed.

Lemma sent_on_one i j m : sent_on i [(j, m)] = if decide (j = i) then [m] else [].
Proof. unfold sent_on. cbn. by case_bool_decide; case_decide. Qed.

(** Numbers of sessions are used once. *)
Definition numbered (s : WaterfallServer) : Prop :=
  (∀ i m, (i, m) ∈ Reverse.sent s → (i < nextSession s)%nat) ∧
  (∀ i cID c, (i, cID, c) ∈ forwarding s → (i < nextSession s)%nat).

Lemma lookup_session fwd s i cID c :
  srv_wf s → ReverseForward_lookup (Ok fwd) s = Ok (i, cID, c) →
  (i < nextSession s)%nat ∧ ∃ r, heap s !! i = Some r ∧ connMap r !! cID = Some c.
Proof.
  intros Hwf. unfold ReverseForward_lookup. cbn [rbind].
  destruct (networkDescription (fm_kind fwd)) as [kind|]; [|done]. cbn [rbind].
  destruct (SplitN (fm_addr fwd) "/" 2) as [|p0 [|p1 [|]]]; try done.
  destruct (ParseUint p1) as [n [e|]]; [done|].
  destruct (reverseForwardSessions s !! sess_addr kind p0) as [j|]; [|done].
  destruct (heap s !! j) as [r|] eqn:Hr; [|done]. cbn.
  destruct (connMap r !! n) as [d|] eqn:Hd; [|done]. intros [= <- <- <-].
  split; [by eapply sw_heap|]. by exists r.
Qed.

Lemma numbered_step : invariant srv_step (λ s, srv_wf s ∧ numbered s).
Proof.
  intros s s' [Hwf [Hs Hf]] Hstep. split; [by eapply srv_step_wf|]. unfold numbered.
  destruct Hstep as [|fwd kind listen c1 c2 s s' r Hc Hk Hsv|j e s s' Hi Ha| | fwd j cID c s Hl|j cID c f1 f2 s Hfw|];
    cbn in *; try done.
  - unfold StartReverseForward_serve in Hsv. destruct (fst (buildListener listen)) as [l|]; [|by injection Hsv as <- _].
    destruct (listen_fwd kind fwd l) as [fwd' addr]. injection Hsv as <- _. cbn. split.
    + intros j m. destruct (announceAddr kind fwd); [intros [H|H]%elem_of_app|intros H]; [apply Hs in H; lia| |apply Hs in H; lia].
      apply list_elem_of_singleton in H as [= -> _]. lia.
    + intros j cID c H. apply Hf in H. lia.
  - unfold StartReverseForward_accept in Ha. destruct (handlers s !! j) as [h|] eqn:Hh; [|done].
    destruct (heap s !! j) as [ss|] eqn:Hss; [|done]. apply (sw_heap _ Hwf) in Hss.
    destruct e; injection Ha as <-; cbn; [done|]. split; [|done].
    intros j' m [H|H]%elem_of_app; [by eapply Hs|]. by apply list_elem_of_singleton in H as [= -> _].
  - split; [done|]. intros j' cID' c' [[= -> -> ->]|H]%elem_of_cons; [|by eapply Hf].
    by destruct (lookup_session _ _ _ _ _ Hwf Hl).
  - split; [done|]. intros j' cID' c' H. eapply (Hf j' cID' c'). rewrite Hfw. set_solver.
  - unfold StopReverseForward. destruct (networkDescription (fm_kind fwd)) as [kd|]; [|by split].
    destruct (reverseForwardSessions s !! sess_addr kd (fm_addr fwd)); by split.
Qed.

Lemma numbered_reach s : rtc srv_step New s → srv_wf s ∧ numbered s.
Proof.
  intros H. apply (invariant_rtc srv_step (λ s, srv_wf s ∧ numbered s) New s); [apply numbered_step|exact H|]. split; [apply New_wf|].
  split; cbn; intros *; by rewrite elem_of_nil.
Qed.

Lemma sent_on_fresh i l : (∀ j m, (j, m) ∈ l → j ≠ i) → sent_on i l = [].
Proof.
  intros H. induction l as [|[j m] l IH]; [done|]. unfold sent_on. cbn.
  rewrite bool_decide_false by (by eapply H; left). apply IH. intros j' m' Hin. eapply H. right. exact Hin.
Qed.

Lemma forwarded_fresh i l : (∀ j cID c, (j, cID, c) ∈ l → j ≠ i) → forwarded_of i l = [].
Proof.
  intros H. induction l as [|[[j cID] c] l IH]; [done|]. unfold forwarded_of. cbn.
  rewrite bool_decide_false by (by eapply H; left). apply IH. intros *. intros Hin. eapply H. right. exact Hin.
Qed.

(** A step that does not announce a connection of session [i]: the session keeps its messages and its
    number of connections, and its map only loses entries, but for a connection that could not be
    announced, after which nothing is accepted any more. *)
Record session_kept (i : nat) (s s' : WaterfallServer) : Prop := {
  sk_next : (nextSession s ≤ nextSession s')%nat ∧ (nextConn s ≤ nextConn s')%nat;
  sk_sent : sent_on i (Reverse.sent s') = sent_on i (Reverse.sent s);
  sk_heap r' : heap s' !! i = Some r' → ∃ r, heap s !! i = Some r ∧ rs_addr r' = rs_addr r ∧
    ∀ cID c, connMap r' !! cID = Some c → connMap r !! cID = Some c ∨
      (handlers s' !! i = None ∧ (nextConn s < nextConn s')%nat ∧
       ∃ h, handlers s !! i = Some h ∧ cID = to_uint 64 (h_cID h + 1));
  sk_keeps r : heap s !! i = Some r → forwarded_of i (forwarding s') = forwarded_of i (forwarding s) →
    ∃ r', heap s' !! i = Some r' ∧ connMap r ⊆ connMap r';
}.

Lemma session_kept_ext i s s' :
  heap s' !! i = heap s !! i → Reverse.sent s' = Reverse.sent s →
  (nextSession s ≤ nextSession s')%nat → (nextConn s ≤ nextConn s')%nat → session_kept i s s'.
Proof.
  intros E1 E2 ? ?. split; [done|by rewrite E2| |]; intros r; rewrite E1; intros Hr; exists r; auto.
Qed.

Lemma session_step i s s' :
  srv_wf s → (i < nextSession s)%nat → srv_step s s' → Z.of_nat (nextConn s') < 2 ^ 64 →
  handlers s' !! i = handlers s !! i ∨ handlers s' !! i = None → session_kept i s s'.
Proof.
  intros Hwf Hi Hstep Hb Hh.
  destruct Hstep as [|fwd kind listen c1 c2 s s' r Hc Hk Hsv|j e s s' Hj Ha| | |j cID c f1 f2 s Hfw|fwd s];
    try (by apply session_kept_ext).
  - unfold StartReverseForward_serve in Hsv. destruct (fst (buildListener listen)) as [l|]; [|injection Hsv as <- _; by apply session_kept_ext].
    destruct (listen_fwd kind fwd l) as [fwd' addr]. injection Hsv as <- _. cbn in *. split; cbn; [lia| | |].
    + destruct (announceAddr kind fwd); [|done]. rewrite sent_on_app, sent_on_one, decide_False by lia. by rewrite app_nil_r.
    + intros r'. rewrite lookup_insert_ne by lia. intros H. exists r'. auto.
    + intros r'. rewrite lookup_insert_ne by lia. intros H. exists r'. auto.
  - unfold StartReverseForward_accept in Ha. destruct (handlers s !! j) as [h|] eqn:Hhj; [|done].
    destruct (heap s !! j) as [ss|] eqn:Hss; [|done].
    destruct (decide (j = i)) as [->|Hne].
    + destruct e; injection Ha as <-; cbn in *.
      * split; cbn; [lia|done| |].
        -- intros r' H. rewrite lookup_insert_eq in H. injection H as <-. exists ss.
           split_and!; [done|done|]. cbn. intros cID c [[<- <-]|[_ H]]%lookup_insert_Some; [|by left].
           right. split; [apply lookup_delete_eq|]. split; [lia|]. by exists h.
        -- intros r H _. rewrite Hss in H. injection H as <-. eexists. rewrite lookup_insert_eq.
           split; [done|]. cbn. apply insert_subseteq. destruct (connMap ss !! _) as [d|] eqn:E; [|done].
           destruct (sw_handler _ Hwf _ _ Hhj) as (r & Hr & Hok). rewrite Hss in Hr. injection Hr as <-.
           rewrite (next_cID _ _ _ _ Hok) in E by lia. apply (ho_conns _ _ _ _ Hok) in E; lia.
      * exfalso. rewrite lookup_insert_eq, Hhj in Hh. destruct Hh as [Hh|Hh]; [|done].
        injection Hh as Hh. destruct (sw_handler _ Hwf _ _ Hhj) as (r & _ & Hok).
        pose proof (next_cID _ _ _ _ Hok ltac:(lia)) as Hn. destruct h as [f a n]. cbn in *. injection Hh. lia.
    + destruct e; injection Ha as <-; cbn in *.
      * apply session_kept_ext; cbn; [by rewrite lookup_insert_ne|done|lia|lia].
      * split; cbn; [lia| | |].
        -- rewrite sent_on_app, sent_on_one, decide_False by done. by rewrite app_nil_r.
        -- intros r'. rewrite lookup_insert_ne by done. intros H. exists r'. auto.
        -- intros r'. rewrite lookup_insert_ne by done. intros H. exists r'. auto.
  - split; cbn; [lia|done| |]; intros r H.
    + rewrite lookup_alter in H. case_decide; subst; [|by exists r; auto].
      apply fmap_Some in H as (r0 & Hr & ->). exists r0. split_and!; [done|done|]. cbn.
      intros d e [_ ?]%lookup_delete_Some. by left.
    + rewrite lookup_alter. case_decide as Hji; [|by exists r; auto]. subst j. intros E. exfalso.
      apply (f_equal length) in E. unfold forwarded_of in E. rewrite Hfw, !filter_app, !length_app in E.
      cbn in E. rewrite bool_decide_true in E by done. cbn in E. lia.
  - apply session_kept_ext; unfold StopReverseForward; destruct (networkDescription (fm_kind fwd)); try done;
      by destruct (reverseForwardSessions s !! _).
Qed.

Section reverse.
(** Server session [i] serves the daemon's session [ss]; connection [c] of the server delivers
    [delivers c], closes as [closes_as c] and takes what [quotas c] allows. *)
Context (ss : forwardSession) (i : nat).
Context (delivers : nat → source) (closes_as : nat → closing) (quotas : nat → option (Z * error)).

Definition started_far (c : nat) : fwd := start (delivers c) (closes_as c) (quotas c).

Inductive rsys_step : rsystem → rsystem → Prop :=
| r_other s s' n cs ps :
    (* the server does something else: not an accept of this session that is announced, nor a
       ReverseForward call for it, which only the daemon makes *)
    srv_step s s' → handlers s' !! i = handlers s !! i ∨ handlers s' !! i = None →
    forwarded_of i (forwarding s') = forwarded_of i (forwarding s) →
    rsys_step (MkRSystem s n cs ps) (MkRSystem s' n cs ps)
| r_accept s s' n cs ps :
    i ∈ accepting s → StartReverseForward_accept i None s = Some s' →
    rsys_step (MkRSystem s n cs ps) (MkRSystem s' n (cs ++ [nextConn s]) ps)
| r_recv s n cs ps m m' conn ci q :
    sent_on i (Reverse.sent s) !! n = Some m → reverse_round ss m None None None = RNext m' true →
    rsys_step (MkRSystem s n cs ps) (MkRSystem s (S n) cs (ps ++ [Asked m' conn (start conn ci q) []]))
| r_recv_nodial s n cs ps m m' e :
    sent_on i (Reverse.sent s) !! n = Some m → reverse_round ss m None None (Some e) = RNext m' false →
    rsys_step (MkRSystem s n cs ps) (MkRSystem s (S n) cs (ps ++ [Orphaned m']))
| r_near s n cs ps k m conn f f' ms :
    ps !! k = Some (Asked m conn f ms) → forward_step f f' →
    rsys_step (MkRSystem s n cs ps) (MkRSystem s n cs (<[k := Asked m conn f' (ms ++ sent f f')]> ps))
| r_break s n cs ps k m conn f f' ms e :
    ps !! k = Some (Asked m conn f ms) → e ≠ EOF → f' = receive (Err e) f ∨ f' = fail_sends e f →
    rsys_step (MkRSystem s n cs ps) (MkRSystem s n cs (<[k := Asked m conn f' ms]> ps))
| r_pick s s' n cs ps k m conn f ms j cID c :
    ps !! k = Some (Asked m conn f ms) → ReverseForward_lookup (Ok m) s = Ok (j, cID, c) →
    s' = MkServer (reverseForwardSessions s) (heap s) (handlers s) (checked s) (accepting s) (closed s)
           (Reverse.sent s) ((j, cID, c) :: forwarding s) (nextSession s) (nextConn s) →
    rsys_step (MkRSystem s n cs ps)
      (MkRSystem s' n cs (<[k := Carried j cID c conn (MkTunnel f (started_far c) [] ms)]> ps))
| r_pick_orphan s s' n cs ps k m j cID c :
    ps !! k = Some (Orphaned m) → ReverseForward_lookup (Ok m) s = Ok (j, cID, c) →
    s' = MkServer (reverseForwardSessions s) (heap s) (handlers s) (checked s) (accepting s) (closed s)
           (Reverse.sent s) ((j, cID, c) :: forwarding s) (nextSession s) (nextConn s) →
    rsys_step (MkRSystem s n cs ps) (MkRSystem s' n cs (<[k := Lost j cID c]> ps))
| r_deny s n cs ps k p m e :
    ps !! k = Some p → (∃ conn f ms, p = Asked m conn f ms) ∨ p = Orphaned m →
    ReverseForward_lookup (Ok m) s = Err e →
    rsys_step (MkRSystem s n cs ps) (MkRSystem s n cs (<[k := Denied]> ps))
| r_carry s n cs ps k j cID c conn t t' :
    ps !! k = Some (Carried j cID c conn t) → tunnel_any t t' →
    rsys_step (MkRSystem s n cs ps) (MkRSystem s n cs (<[k := Carried j cID c conn t']> ps))
| r_done s s' n cs ps k j cID c conn t err f1 f2 :
    ps !! k = Some (Carried j cID c conn t) → returned (far t) err →
    forwarding s = f1 ++ (j, cID, c) :: f2 →
    s' = ReverseForward_finish j cID c
           (MkServer (reverseForwardSessions s) (heap s) (handlers s) (checked s) (accepting s) (closed s)
              (Reverse.sent s) (f1 ++ f2) (nextSession s) (nextConn s)) →
    rsys_step (MkRSystem s n cs ps) (MkRSystem s' n cs (<[k := Ended j cID c conn t]> ps)).

Lemma rsys_srv x x' : rsys_step x x' → rtc srv_step (server x) (server x').
Proof.
  destruct 1 as [s s' n cs ps Hs _ _|s s' n cs ps Hi Ha| | | | |s s' n cs ps k m conn f ms j cID c Hk Hl ->
    |s s' n cs ps k m j cID c Hk Hl ->| | |s s' n cs ps k j cID c conn t err f1 f2 Hk Hr Hf ->];
    cbn [server]; try done; apply rtc_once.
  - done.
  - by eapply srv_accept.
  - by eapply srv_reverse.
  - by eapply srv_reverse.
  - by eapply srv_reverse_done.
Qed.

(** ** The session *)

(** The daemon's [ReverseForwardPort] asks for the source of [ss] with this message. *)
Context (kind addr : string) (ntwk : Kind).
Context (src_ok : parseAddr (Ports.src ss) = Ok (kind, addr)) (kind_ok : networkKind kind = Ok ntwk).
Context (addr_ok : has_char "/" addr = false) (port_ok : addr ≠ "localhost:0").

Definition request : ForwardMessage := MkForwardMessage ntwk OPEN addr [].

(** The server has just begun to serve it, as session [i]. *)
Definition begun (s : WaterfallServer) : Prop :=
  ∃ s0 c1 c2 listen, rtc srv_step New s0 ∧ checked s0 = c1 ++ request :: c2 ∧ nextSession s0 = i ∧
    StartReverseForward_serve kind request listen
      (MkServer (reverseForwardSessions s0) (heap s0) (handlers s0) (c1 ++ c2) (accepting s0) (closed s0)
         (Reverse.sent s0) (forwarding s0) (nextSession s0) (nextConn s0)) = (s, Ok ()).

(** The message that announces the connection number [n] of the session. *)
Definition announce (n : nat) : ForwardMessage := open_msg request (Z.of_nat (S n)).

Lemma request_kind : networkDescription ntwk = Ok kind.
Proof. by apply networkKind_description. Qed.

Lemma round_announce n d m' b :
  reverse_round ss (announce n) None None d = RNext m' b → m' = announce n.
Proof.
  unfold reverse_round. rewrite src_ok, kind_ok. rewrite decide_False by (by intros []).
  rewrite decide_True.
  2: { split; [|apply slen_open]. cbn. intros E. pose proof request_kind as H. by rewrite E in H. }
  destruct d; [by intros H; simplify_eq|]. destruct (parseAddr (Ports.dst ss)) as [[dk da]|]; [|by intros H; simplify_eq].
  destruct (half_closer dk); by intros H; simplify_eq.
Qed.

Lemma lookup_announce n s :
  Z.of_nat (S n) < 2 ^ 64 →
  ReverseForward_lookup (Ok (announce n)) s =
  match reverseForwardSessions s !! sess_addr kind addr with
  | None => Err (StatusError NotFound ("forwarding session for " +:+ sess_addr kind addr +:+ " does not exist"))
  | Some j =>
      match heap s !! j ≫= λ r, connMap r !! Z.of_nat (S n) with
      | None => Err (StatusError NotFound ("forwarding session for " +:+ fm_addr (announce n) +:+ " does not exist"))
      | Some c => Ok (j, Z.of_nat (S n), c)
      end
  end.
Proof.
  intros Hn. unfold ReverseForward_lookup, announce, open_msg. cbn [rbind fm_kind fm_addr request].
  rewrite request_kind. cbn [rbind]. by rewrite open_msg_split, ParseUint_fmt_d by (done || lia).
Qed.

(** ** The invariant *)

(** The path of the announced connection number [n], when [cs] have been accepted. *)
Definition rpath_ok (cs : list nat) (n : nat) (p : rpath) : Prop :=
  let found j cID c := cID = Z.of_nat (S n) ∧ (j = i → cs !! n = Some c) in
  match p with
  | Asked m conn f ms => m = announce n ∧ ∃ ci q, near_of conn ci q f ms
  | Orphaned m => m = announce n
  | Carried j cID c conn t | Ended j cID c conn t =>
      found j cID c ∧ ∃ ci q, rtc tunnel_any (tunnel_of conn ci q (delivers c) (closes_as c) (quotas c)) t
  | Lost j cID c => found j cID c
  | Denied => True
  end.

Record rinv (x : rsystem) : Prop := {
  ri_wf : srv_wf (server x);
  ri_next : (i < nextSession (server x))%nat;
  ri_handler h : handlers (server x) !! i = Some h →
    h_fwd h = request ∧ h_addr h = sess_addr kind addr ∧ h_cID h = Z.of_nat (length (incoming x));
  ri_sent : sent_on i (Reverse.sent (server x)) = announce <$> seq 0 (length (incoming x));
  ri_map r cID c : heap (server x) !! i = Some r → connMap r !! cID = Some c →
    (∃ n, cID = Z.of_nat (S n) ∧ incoming x !! n = Some c) ∨
    (handlers (server x) !! i = None ∧ cID = Z.of_nat (S (length (incoming x))));
  ri_count : length (rpaths x) = received x ∧ (received x ≤ length (incoming x))%nat;
  ri_paths n p : rpaths x !! n = Some p → rpath_ok (incoming x) n p;
  ri_fresh c : c ∈ incoming x → (c < nextConn (server x))%nat;
  ri_nodup : NoDup (incoming x);
  ri_len : (length (incoming x) ≤ nextConn (server x))%nat;
  ri_filed n c : incoming x !! n = Some c →
    (∃ r, heap (server x) !! i = Some r ∧ connMap r !! Z.of_nat (S n) = Some c) ∨
    (∃ conn t, rpaths x !! n = Some (Ended i (Z.of_nat (S n)) c conn t));
}.

Lemma begun_inv s : begun s → rinv (MkRSystem s 0 [] []).
Proof.
  intros (s0 & c1 & c2 & listen & Hr & Hc & Hi & Hs).
  assert (srv_step s0 s) as Hstep by (eapply srv_serve; [exact Hc|apply request_kind|exact Hs]).
  destruct (numbered_reach _ Hr) as [Hwf [Hn1 Hn2]]. pose proof (srv_step_wf _ _ Hwf Hstep) as Hwf'.
  unfold StartReverseForward_serve in Hs. destruct (fst (buildListener listen)) as [l|]; [|done].
  unfold listen_fwd in Hs. assert (announceAddr kind request = false) as Ha
    by (unfold announceAddr; apply bool_decide_false; by intros [? _]).
  rewrite Ha in Hs. cbn in Hs. rewrite Hi in Hs. injection Hs as <-. cbn in *.
  split; cbn [server received incoming rpaths handlers heap Reverse.sent nextSession nextConn length]; try done.
  - lia.
  - intros h. rewrite lookup_insert_eq. by intros [= <-].
  - apply sent_on_fresh. intros j m Hj. apply Hn1 in Hj. lia.
  - intros r cID c. rewrite lookup_insert_eq. by intros [= <-].
  - intros c Hin. by apply not_elem_of_nil in Hin.
  - constructor.
  - lia.
Qed.

Lemma rpath_ok_mono cs c n p : rpath_ok cs n p → rpath_ok (cs ++ [c]) n p.
Proof.
  assert (∀ j d, (j = i → cs !! n = Some d) → j = i → (cs ++ [c]) !! n = Some d) as Hm
    by (intros j d H Hj; by apply lookup_app_l_Some, H).
  destruct p; cbn; naive_solver.
Qed.

(** A path changed that had not ended, and the server in what it forwards, or by forgetting the
    connection of a path that ends. *)
Definition ended (p : rpath) : bool := match p with Ended _ _ _ _ _ => true | _ => false end.

Lemma rinv_path s s' n cs ps k p p' :
  rinv (MkRSystem s n cs ps) → ps !! k = Some p → ended p = false → rpath_ok cs k p' → srv_wf s' →
  handlers s' !! i = handlers s !! i → Reverse.sent s' = Reverse.sent s →
  nextSession s' = nextSession s → nextConn s' = nextConn s →
  (∀ r', heap s' !! i = Some r' → ∃ r, heap s !! i = Some r ∧ connMap r' ⊆ connMap r) →
  (∀ r m c, heap s !! i = Some r → connMap r !! Z.of_nat (S m) = Some c →
    (∃ r', heap s' !! i = Some r' ∧ connMap r' !! Z.of_nat (S m) = Some c) ∨
    (m = k ∧ (cs !! m = Some c → ∃ conn t, p' = Ended i (Z.of_nat (S m)) c conn t))) →
  rinv (MkRSystem s' n cs (<[k := p']> ps)).
Proof.
  intros [Hwf Hnx Hh Hs Hm Hc Hp Hf Hd Hl Hfl] Hk Hen Hok Hwf' E1 E2 E3 E4 Hsub Hkeep.
  assert (<[k := p']> ps !! k = Some p') as Hkk by (apply list_lookup_insert_eq; by eapply lookup_lt_Some).
  split; cbn in *; rewrite ?E1, ?E2, ?E3, ?E4; try done.
  - intros r' cID c Hr Hcm. destruct (Hsub _ Hr) as (r & Hr0 & Hle). eapply Hm; [exact Hr0|].
    by eapply lookup_weaken.
  - by rewrite length_insert.
  - intros j q Hj. destruct (decide (j = k)) as [->|Hne].
    + rewrite Hkk in Hj. by injection Hj as <-.
    + rewrite list_lookup_insert_ne in Hj by done. by apply Hp.
  - intros m c Hmc. destruct (Hfl _ _ Hmc) as [(r & Hr & Hcm)|(conn & t & Hpm)].
    + destruct (Hkeep _ _ _ Hr Hcm) as [?|[-> He]]; [by left|]. right.
      destruct (He Hmc) as (conn & t & ->). by exists conn, t.
    + right. exists conn, t. rewrite list_lookup_insert_ne; [done|]. intros <-. rewrite Hk in Hpm. by injection Hpm as ->.
Qed.

Lemma rinv_path_only s n cs ps k p p' :
  rinv (MkRSystem s n cs ps) → ps !! k = Some p → ended p = false → rpath_ok cs k p' →
  rinv (MkRSystem s n cs (<[k := p']> ps)).
Proof.
  intros Hinv Hk He Hok. eapply rinv_path; try done; [apply (ri_wf _ Hinv)|by eauto|]. intros r m c ? ?. left. by exists r.
Qed.

(** The next message was received. *)
Lemma rinv_recv s n cs ps p :
  rinv (MkRSystem s n cs ps) → (n < length cs)%nat → rpath_ok cs n p → rinv (MkRSystem s (S n) cs (ps ++ [p])).
Proof.
  intros [Hwf Hnx Hh Hs Hm [Hc1 Hc2] Hp Hf Hd Hl Hfl] Hn Hok. split; try done; cbn in *.
  - rewrite length_app. cbn. lia.
  - intros j q [Hj|[Hj1 Hj]]%lookup_app_Some; [by apply Hp|].
    apply list_lookup_singleton_Some in Hj as [Hj <-]. assert (j = n) as -> by lia. done.
  - intros m c Hmc. destruct (Hfl _ _ Hmc) as [?|(conn & t & Hpm)]; [by left|right].
    exists conn, t. by apply lookup_app_l_Some.
Qed.

Lemma received_announce s n cs ps m :
  rinv (MkRSystem s n cs ps) → sent_on i (Reverse.sent s) !! n = Some m → m = announce n ∧ (n < length cs)%nat.
Proof.
  intros Hinv. pose proof (ri_sent _ Hinv) as E. cbn in E. rewrite E, list_lookup_fmap.
  intros (j & [-> Hj]%lookup_seq & ->)%fmap_Some. by split.
Qed.

(** What the server finds for an announced connection. *)
Lemma found_ok s n cs ps k j cID c :
  rinv (MkRSystem s n cs ps) → (k < length ps)%nat → Z.of_nat (nextConn s) < 2 ^ 64 →
  ReverseForward_lookup (Ok (announce k)) s = Ok (j, cID, c) →
  cID = Z.of_nat (S k) ∧ (j = i → cs !! k = Some c).
Proof.
  intros Hinv Hk Hb. destruct (ri_count _ Hinv) as [Hc1 Hc2]. pose proof (ri_len _ Hinv) as Hl. cbn in Hc1, Hc2, Hl.
  rewrite lookup_announce by lia. destruct (reverseForwardSessions s !! _) as [j'|]; [|done].
  destruct (heap s !! j') as [r|] eqn:Hr; [|done]. cbn. destruct (connMap r !! _) as [c'|] eqn:Hc; [|done].
  intros [= -> <- ->]. split; [done|]. intros ->.
  destruct (ri_map _ Hinv _ _ _ Hr Hc) as [(m & Hm & Hcs)|[_ Hm]]; cbn in *; [|lia].
  assert (m = k) as -> by lia. done.
Qed.

Lemma near_of_start conn ci q : near_of conn ci q (start conn ci q) [].
Proof. intros c' ci' q'. apply rtc_refl. Qed.

Lemma rinv_accept s s' n cs ps :
  rinv (MkRSystem s n cs ps) → StartReverseForward_accept i None s = Some s' → srv_wf s' →
  Z.of_nat (nextConn s') < 2 ^ 64 → rinv (MkRSystem s' n (cs ++ [nextConn s]) ps).
Proof.
  intros Hinv Ha Hwf' Hb. pose proof Hinv as [Hwf Hnx Hh Hs Hm [Hc1 Hc2] Hp Hf Hd Hl Hfl]. cbn in *.
  unfold StartReverseForward_accept in Ha. destruct (handlers s !! i) as [h|] eqn:Hhi; [|done].
  destruct (heap s !! i) as [r|] eqn:Hri; [|done]. injection Ha as <-. cbn in *.
  destruct (Hh h eq_refl) as (Hfw & Had & Hn).
  assert (to_uint 64 (h_cID h + 1) = Z.of_nat (S (length cs))) as E.
  { destruct (sw_handler _ Hwf _ _ Hhi) as (r' & Hr' & Hok). rewrite (next_cID _ _ _ _ Hok) by lia. lia. }
  rewrite E in *. split; cbn; try done.
  - intros h'. rewrite lookup_insert_eq. intros [= <-]. cbn. rewrite length_app. cbn.
    split_and!; [done|done|lia].
  - rewrite sent_on_app, sent_on_one, decide_True, Hs, length_app by done. cbn [length].
    rewrite Nat.add_1_r, seq_S, fmap_app, Hfw. done.
  - intros r' cID c. rewrite !lookup_insert_eq. intros [= <-]. cbn.
    intros [[<- <-]|[_ H]]%lookup_insert_Some.
    + left. exists (length cs). split; [done|]. by apply list_lookup_middle.
    + destruct (Hm _ _ _ eq_refl H) as [(m & -> & Hcs)|[? _]]; [|done].
      left. exists m. split; [done|]. by apply lookup_app_l_Some.
  - rewrite length_app. cbn. lia.
  - intros k p Hk. apply rpath_ok_mono. by apply Hp.
  - intros c [Hin| ->%list_elem_of_singleton]%elem_of_app; [apply Hf in Hin|]; lia.
  - apply list.NoDup_app. split_and!; [done| |apply NoDup_singleton].
    intros c Hin ->%list_elem_of_singleton. apply Hf in Hin. lia.
  - rewrite length_app. cbn. lia.
  - intros m c Hmc. rewrite lookup_insert_eq. apply lookup_app_Some in Hmc as [Hmc|[Hm1 Hmc]].
    + destruct (Hfl _ _ Hmc) as [(r0 & [= <-] & Hcm)|?]; [left|by right]. eexists. split; [done|]. cbn.
      rewrite lookup_insert_ne; [done|]. apply lookup_lt_Some in Hmc. lia.
    + apply list_lookup_singleton_Some in Hmc as [Hm2 <-]. left. eexists. split; [done|]. cbn.
      replace m with (length cs) by lia. apply lookup_insert_eq.
Qed.

Lemma rinv_step x x' :
  rinv x → rsys_step x x' → Z.of_nat (nextConn (server x')) < 2 ^ 64 → rinv x'.
Proof.
  intros Hinv Hstep Hb. pose proof (rsys_srv _ _ Hstep) as Hsrv.
  assert (srv_wf (server x')) as Hwf' by (eapply invariant_rtc; [apply srv_step_wf|exact Hsrv|apply (ri_wf _ Hinv)]).
  destruct Hstep as [s s' n cs ps Hs Hh Hfo|s s' n cs ps Hi Ha|s n cs ps m m' conn ci q Hm Hr|s n cs ps m m' e Hm Hr
    |s n cs ps k m conn f f' ms Hk Hf|s n cs ps k m conn f f' ms e Hk He Hf
    |s s' n cs ps k m conn f ms j cID c Hk Hl Hs'|s s' n cs ps k m j cID c Hk Hl Hs'|s n cs ps k p m e Hk Hp Hl
    |s n cs ps k j cID c conn t t' Hk Ht|s s' n cs ps k j cID c conn t err f1 f2 Hk Hr Hfw Hs']; cbn [server] in *.
  - pose proof Hinv as [Hwf Hnx Hha Hse Hma Hc Hp Hfr Hd Hle Hfl].
    destruct (session_step i _ _ Hwf Hnx Hs Hb Hh) as [[Hn1 Hn2] Hsent Hheap Hkeep]. cbn in *.
    split; cbn; try done; [lia| |by rewrite Hsent| |intros c Hin; apply Hfr in Hin; lia|lia|].
    + intros h Hhi. destruct Hh as [Hh|Hh]; rewrite Hh in Hhi; [by apply Hha|done].
    + intros r' cID c Hr Hcm. destruct (Hheap _ Hr) as (r & Hr0 & _ & Hcon).
      destruct (Hcon _ _ Hcm) as [Hcm0|(Hnone & Hlt & h & Hhi & ->)].
      * destruct (Hma _ _ _ Hr0 Hcm0) as [?|[Hn ?]]; [by left|]. right. split; [|done].
        by destruct Hh as [-> | ->].
      * right. split; [done|]. destruct (Hha _ Hhi) as (_ & _ & Hcid).
        destruct (sw_handler _ Hwf _ _ Hhi) as (r1 & _ & Hok).
        rewrite (next_cID _ _ _ _ Hok) by lia. lia.
    + intros m c Hmc. destruct (Hfl _ _ Hmc) as [(r & Hr & Hcm)|?]; [left|by right].
      destruct (Hkeep _ Hr Hfo) as (r' & Hr' & Hsub). exists r'. split; [done|]. by eapply lookup_weaken.
  - by eapply rinv_accept.
  - destruct (received_announce _ _ _ _ _ Hinv Hm) as [-> Hn]. apply round_announce in Hr as ->.
    apply rinv_recv; [done|done|]. split; [done|]. exists ci, q. apply near_of_start.
  - destruct (received_announce _ _ _ _ _ Hinv Hm) as [-> Hn]. apply round_announce in Hr as ->.
    by apply rinv_recv.
  - eapply rinv_path_only; [done|done|done|]. destruct (ri_paths _ Hinv _ _ Hk) as (Hm & ci & q & Hn).
    split; [done|]. exists ci, q. by apply near_of_step.
  - eapply rinv_path_only; [done|done|done|]. destruct (ri_paths _ Hinv _ _ Hk) as (Hm & ci & q & Hn).
    split; [done|]. exists ci, q. destruct Hf as [-> | ->]; [by apply near_of_break_recv|by apply near_of_break_send].
  - destruct (ri_paths _ Hinv _ _ Hk) as (-> & ci & q & Hn). subst s'.
    assert (rpath_ok cs k (Carried j cID c conn (MkTunnel f (started_far c) [] ms))) as Hok.
    { split; [|by exists ci, q]. eapply found_ok; [exact Hinv|by eapply lookup_lt_Some|done|done]. }
    eapply rinv_path; [exact Hinv|exact Hk|done|exact Hok|done..|by eauto|]. intros r m d ? ?. left. by exists r.
  - pose proof (ri_paths _ Hinv _ _ Hk) as ->. subst s'.
    assert (rpath_ok cs k (Lost j cID c)) as Hok
      by (eapply found_ok; [exact Hinv|by eapply lookup_lt_Some|done|done]).
    eapply rinv_path; [exact Hinv|exact Hk|done|exact Hok|done..|by eauto|]. intros r m d ? ?. left. by exists r.
  - eapply rinv_path_only; [done|done| |done]. by destruct Hp as [(? & ? & ? & ->)| ->].
  - eapply rinv_path_only; [done|done|done|]. destruct (ri_paths _ Hinv _ _ Hk) as (Hfd & ci & q & Hr).
    split; [done|]. exists ci, q. by eapply rtc_r.
  - pose proof (ri_paths _ Hinv _ _ Hk) as [[-> Hcs] Hrun]. subst s'.
    eapply rinv_path; [exact Hinv|exact Hk|done|by split|done..| |].
    + intros r'. cbn. rewrite lookup_alter. case_decide; [|by eauto].
      intros (r & Hr0 & ->)%fmap_Some. exists r. split; [by subst|]. apply delete_subseteq.
    + intros r m d Hr0 Hd. cbn. rewrite lookup_alter. case_decide as Hji; [|left; by exists r]. subst j. rewrite Hr0.
      destruct (decide (m = k)) as [->|Hmk].
      * right. split; [done|]. intros Hd'. specialize (Hcs eq_refl). cbn in Hcs. rewrite Hcs in Hd'. injection Hd' as ->. by exists conn, t.
      * left. eexists. split; [done|]. cbn. rewrite lookup_delete_ne by lia. done.
Qed.

Lemma srv_step_conns s s' : srv_step s s' → (nextConn s ≤ nextConn s')%nat.
Proof.
  destruct 1 as [|fwd kd listen c1 c2 s s' r Hc Hk Hsv|j e s s' Hj Ha| | | |fwd s]; cbn; try done.
  - unfold StartReverseForward_serve in Hsv. destruct (fst (buildListener listen)) as [l|]; [|by injection Hsv as <- _].
    destruct (listen_fwd kd fwd l). by injection Hsv as <- _.
  - unfold StartReverseForward_accept in Ha. destruct (handlers s !! j); [|done]. destruct (heap s !! j); [|done].
    destruct e; injection Ha as <-; cbn; lia.
  - unfold StopReverseForward. destruct (networkDescription (fm_kind fwd)) as [kd|]; [|done].
    by destruct (reverseForwardSessions s !! sess_addr kd (fm_addr fwd)).
Qed.

Lemma srv_conns s s' : rtc srv_step s s' → (nextConn s ≤ nextConn s')%nat.
Proof. induction 1 as [|s1 s2 s3 Hs _ IH]; [done|]. apply srv_step_conns in Hs. lia. Qed.

Lemma rsys_conns x x' : rsys_step x x' → (nextConn (server x) ≤ nextConn (server x'))%nat.
Proof. intros H%rsys_srv. by apply srv_conns. Qed.

Lemma rinv_reach s x :
  begun s → rtc rsys_step (MkRSystem s 0 [] []) x → Z.of_nat (nextConn (server x)) < 2 ^ 64 → rinv x.
Proof.
  intros Hbg. revert x. apply (rtc_ind_r (λ x, Z.of_nat (nextConn (server x)) < 2 ^ 64 → rinv x)).
  - intros _. by apply begun_inv.
  - intros y z _ Hyz IH Hb. pose proof (rsys_conns _ _ Hyz). eapply rinv_step; [apply IH; lia|done|done].
Qed.

(** ** Theorems *)

(** What is true of the [n]-th announced connection in state [x].  Until the server took it, the other
    side was given nothing, and as long as the session is filed the server will find the [n]-th
    connection it accepted, and no other.  Taken from this session, it is that connection; and its bytes
    and those of the connection dialled for it are passed on, completely when both forwarders end with
    nil. *)
Definition joined (x : rsystem) (n : nat) (p : rpath) : Prop :=
  let waiting m := ∃ c, incoming x !! n = Some c ∧
    (reverseForwardSessions (server x) !! sess_addr kind addr = Some i →
     ReverseForward_lookup (Ok m) (server x) = Ok (i, Z.of_nat (S n), c)) in
  match p with
  | Asked m conn f ms => taken (dst (intoY f)) = [] ∧ waiting m
  | Orphaned m => waiting m
  | Carried j cID c conn t | Ended j cID c conn t =>
      (j = i → incoming x !! n = Some c) ∧
      (taken (dst (intoY (far t))) `prefix_of` avail conn ∧
       taken (dst (intoY (near t))) `prefix_of` avail (delivers c)) ∧
      (main (near t) = Returning None → main (far t) = Returning None →
       taken (dst (intoY (far t))) = avail conn ∧ taken (dst (intoY (near t))) = avail (delivers c))
  | Lost j cID c => j = i → incoming x !! n = Some c
  | Denied => True
  end.

Lemma carried_delivers conn ci q c t :
  rtc tunnel_any (tunnel_of conn ci q (delivers c) (closes_as c) (quotas c)) t →
  (taken (dst (intoY (far t))) `prefix_of` avail conn ∧
   taken (dst (intoY (near t))) `prefix_of` avail (delivers c)) ∧
  (main (near t) = Returning None → main (far t) = Returning None →
   taken (dst (intoY (far t))) = avail conn ∧ taken (dst (intoY (near t))) = avail (delivers c)).
Proof.
  intros Ht. split; [exact (tunnel_any_safe _ _ _ _ _ _ _ Ht)|]. intros M1 M2.
  by destruct (tunnel_any_complete _ _ _ _ _ _ _ Ht M1 M2) as (? & _ & ? & _).
Qed.

Lemma waiting_found x n p :
  rinv x → Z.of_nat (nextConn (server x)) < 2 ^ 64 → rpaths x !! n = Some p → ended p = false →
  ∃ c, incoming x !! n = Some c ∧
    (reverseForwardSessions (server x) !! sess_addr kind addr = Some i →
     ReverseForward_lookup (Ok (announce n)) (server x) = Ok (i, Z.of_nat (S n), c)).
Proof.
  intros Hinv Hb Hp He. destruct (ri_count _ Hinv) as [H1 H2]. pose proof (ri_len _ Hinv) as H3.
  pose proof (lookup_lt_Some _ _ _ Hp) as Hlt.
  destruct (lookup_lt_is_Some_2 (incoming x) n ltac:(lia)) as [c Hc]. exists c. split; [done|].
  intros Hf. rewrite lookup_announce, Hf by lia.
  destruct (ri_filed _ Hinv _ _ Hc) as [(r & Hr & Hcm)|(conn & t & Hpn)].
  - rewrite Hr. cbn [mbind option_bind]. by rewrite Hcm.
  - rewrite Hp in Hpn. by injection Hpn as ->.
Qed.

(** C25: A reverse session that the server began to serve for the daemon, at an address with a known
    network, without a slash and not localhost:0, while fewer than 2^64 connections are accepted and
    nobody but the daemon calls ReverseForward for its connections; whatever else the server does and
    however the connections dial, break or end.  The daemon has at most one path per connection the
    session accepted, and the connections differ.  The [n]-th path, until the server took it, has given
    nothing to the destination, and as long as the server files the session under its address it will
    find the [n]-th connection accepted; a path taken from this session is that connection; and a path
    that was taken passes the bytes of the two connections it joins on, in order, without loss,
    duplication or insertion, and completely when both forwarders end with nil.  A path the server takes
    only after it stopped the session and began another at the address joins a connection of the other
    session ([late_announcement_takes_other] below). *)
Theorem reverse_forward_end_to_end s x :
  begun s → rtc rsys_step (MkRSystem s 0 [] []) x → Z.of_nat (nextConn (server x)) < 2 ^ 64 →
  (length (rpaths x) ≤ length (incoming x))%nat ∧ NoDup (incoming x) ∧
  ∀ n p, rpaths x !! n = Some p → joined x n p.
Proof.
  intros Hbg Hr Hb. pose proof (rinv_reach _ _ Hbg Hr Hb) as Hinv.
  split; [destruct (ri_count _ Hinv); lia|]. split; [apply (ri_nodup _ Hinv)|].
  intros n p Hp. pose proof (ri_paths _ Hinv _ _ Hp) as Hok.
  destruct p as [m conn f ms|m|j cID c conn t|j cID c| |j cID c conn t]; cbn [joined rpath_ok] in *; [| | | |done|].
  - destruct Hok as (-> & ci & q & Hn). split; [by eapply near_of_nothing|].
    by apply (waiting_found x n (Asked (announce n) conn f ms)).
  - subst m. by apply (waiting_found x n (Orphaned (announce n))).
  - destruct Hok as ([_ Hc] & ci & q & Ht). split; [done|]. by apply carried_delivers in Ht.
  - apply Hok.
  - destruct Hok as ([_ Hc] & ci & q & Ht). split; [done|]. by apply carried_delivers in Ht.
Qed.

End reverse.

(** ** Runs *)

Definition demo_ss : forwardSession := MkSession "tcp:localhost:80" "tcp:localhost:90" 0.
Definition demo_rstep : rsystem → rsystem → Prop :=
  rsys_step demo_ss 0 (λ _, demo_empty) (λ _, Interrupts) (λ _, None).

Lemma demo_begun : begun 0 "tcp" "localhost:80" TCP srv80.
Proof.
  exists (MkServer ∅ ∅ ∅ [fwd80] ∅ ∅ [] [] 0 0), [], [], listen80. split; [|done].
  apply rtc_once. by apply (srv_check fwd80 "tcp" New).
Qed.

(** The server after it accepted and announced the first connection, and once more. *)
Definition demo_announce : ForwardMessage := open_msg fwd80 1.
Definition forwards (j : nat) (cID : Z) (c : nat) (s : WaterfallServer) : WaterfallServer :=
  MkServer (reverseForwardSessions s) (heap s) (handlers s) (checked s) (accepting s) (closed s)
    (Reverse.sent s) ((j, cID, c) :: forwarding s) (nextSession s) (nextConn s).

Lemma carried_run s n cs j cID c conn t t' :
  rtc tunnel_any t t' →
  rtc demo_rstep (MkRSystem s n cs [Carried j cID c conn t]) (MkRSystem s n cs [Carried j cID c conn t']).
Proof.
  induction 1 as [t|t t1 t2 Ht _ IH]; [done|]. eapply rtc_l; [|exact IH].
  by apply (r_carry _ _ _ _ _ s n cs [Carried j cID c conn t] 0 j cID c conn t t1).
Qed.

Lemma demo_reverse_run : ∃ t,
  returned (near t) None ∧ returned (far t) None ∧
  rtc demo_rstep (MkRSystem srv80 0 [] [])
    (MkRSystem (forwards 0 1 0 srv80c) 1 [0%nat] [Carried 0 1 0 demo_in t]).
Proof.
  destruct demo_tunnel_run as (t & Hr & Hst). exists t.
  destruct (tunnel_total demo_in Interrupts demo_out demo_empty Interrupts demo_out t
    eq_refl eq_refl eq_refl eq_refl Hr) as [_ H]. destruct (H Hst) as (H1 & H2 & _).
  split; [done|]. split; [done|].
  eapply rtc_l; [apply (r_accept _ _ _ _ _ srv80 srv80c 0 [] []); [by apply (bool_decide_unpack _); vm_compute|by vm_compute]|].
  eapply rtc_l; [apply (r_recv _ _ _ _ _ srv80c 0 [0%nat] [] demo_announce demo_announce demo_in Interrupts None);
    by vm_compute|].
  eapply rtc_l; [eapply (r_pick _ _ _ _ _ srv80c (forwards 0 1 0 srv80c) 1 [0%nat] _ 0 demo_announce demo_in _ [] 0 1 0);
    [done|by vm_compute|done]|].
  apply carried_run. eapply rtc_subrel; [|exact Hr]. intros ?? Hs. by left.
Qed.

Lemma reverse_forward_end_to_end_witness : ∃ t, main (near t) = Returning None ∧
  taken (dst (intoY (far t))) = ["a"; "b"]%char.
Proof.
  destruct demo_reverse_run as (t & (M1 & _) & (M2 & _) & Hr). exists t. split; [exact M1|].
  destruct (reverse_forward_end_to_end demo_ss 0 (λ _, demo_empty) (λ _, Interrupts) (λ _, None)
    "tcp" "localhost:80" TCP eq_refl eq_refl eq_refl ltac:(discriminate) srv80 _ demo_begun Hr) as (_ & _ & H);
    [by vm_compute|].
  destruct (H 0%nat _ eq_refl) as (_ & _ & Hd). exact (proj1 (Hd M1 M2)).
Defined.

(** The server after session 0 was stopped, and another one begun at its address, which has accepted a
    connection. *)
Definition stopped0 : WaterfallServer := fst (StopReverseForward fwd80 srv80c).
Definition checked1 : WaterfallServer :=
  MkServer (reverseForwardSessions stopped0) (heap stopped0) (handlers stopped0) [fwd80] (accepting stopped0)
    (closed stopped0) (Reverse.sent stopped0) (forwarding stopped0) (nextSession stopped0) (nextConn stopped0).
Definition begun1 : WaterfallServer := fst (StartReverseForward_serve "tcp" fwd80 listen80 stopped0).
Definition accepted1 : WaterfallServer := default New (StartReverseForward_accept 1 None begun1).

(** Sessions are found by their address: an announcement the server takes late, after its session was
    stopped and another one begun at the same address, takes the connection of that number from the
    new session, which its own announcement then names too. *)
Theorem late_announcement_takes_other : ∃ t,
  rtc demo_rstep (MkRSystem srv80 0 [] [])
    (MkRSystem (forwards 1 1 1 accepted1) 1 [0%nat] [Carried 1 1 1 demo_in t]) ∧
  sent_on 1 (Reverse.sent accepted1) = [demo_announce] ∧
  ReverseForward_lookup (Ok demo_announce) (forwards 1 1 1 accepted1) = Ok (1%nat, 1, 1%nat).
Proof.
  eexists. split; [|by split; vm_compute].
  eapply rtc_l; [apply (r_accept _ _ _ _ _ srv80 srv80c 0 [] []); [by apply (bool_decide_unpack _); vm_compute|by vm_compute]|].
  eapply rtc_l; [apply (r_recv _ _ _ _ _ srv80c 0 [0%nat] [] demo_announce demo_announce demo_in Interrupts None);
    by vm_compute|].
  eapply rtc_l; [apply (r_other _ _ _ _ _ srv80c stopped0); [apply srv_stop|by left|done]|].
  eapply rtc_l; [apply (r_other _ _ _ _ _ stopped0 checked1); [by apply (srv_check fwd80 "tcp")|by left|done]|].
  eapply rtc_l; [apply (r_other _ _ _ _ _ checked1 begun1);
    [by apply (srv_serve fwd80 "tcp" listen80 [] [] checked1 begun1 (Ok ()))|by left; vm_compute|done]|].
  eapply rtc_l; [apply (r_other _ _ _ _ _ begun1 accepted1);
    [apply (srv_accept 1 None); [by apply (bool_decide_unpack _); vm_compute|by vm_compute]|by left; vm_compute|done]|].
  eapply rtc_l; [eapply (r_pick _ _ _ _ _ accepted1 (forwards 1 1 1 accepted1) 1 [0%nat] _ 0 demo_announce demo_in _ [] 1 1 1);
    [done|by vm_compute|done]|].
  apply rtc_refl.
Qed.
