(* ===== verification/AdbCli.v ===== *)
(** * The adb compatible command line: src/waterfall/golang/client/adb/adb.go

    Parsing of the command line and of each command's arguments, up to the calls the
    command makes on the client; indexing past the end of the arguments panics, as in Go. *)

From S2P Require Import Prelude GoStrings Proto Ports.

Local Open Scope Z_scope.
Local Open Scope go_scope.

(** What a command function returns: it goes on with [a], it returns a [ParseError] (the
    caller falls back to the platform's adb), or another error. *)
Inductive cres (A : Type) := Do (a : A) | ParseError | Fail (e : error).
Arguments Do {A} a.
Arguments ParseError {A}.
Arguments Fail {A} e.

Definition cbind {A B} (c : outcome (cres A)) (k : A → outcome (cres B)) : outcome (cres B) :=
  match c with
  | Ret (Do a) => k a
  | Ret ParseError => Ret ParseError
  | Ret (Fail e) => Ret (Fail e)
  | Panic => Panic
  | Block => Block
  end.
Notation "'cmd!' x := c 'in' k" := (cbind c (fun x => k))
  (at level 10, x pattern, c at level 100, k at level 200) : go_scope.

(** [l[i:]] and [l[i:j]] of an argument list. *)
Definition args_from (l : list string) (i : Z) : outcome (list string) := slice_from l i.

(** ** The command line *)

(** [ParsedArgs] *)
Record ParsedArgs := MkParsedArgs { Device : string; Command : string; Args : list string }.

Definition unsupported (arg : string) : bool :=
  bool_decide (arg ∈ ["server"; "nodaemon"; "persist"; "-p"; "-a"; "-e"; "-d"; "-t"]).

Definition skipped (arg : string) : bool := bool_decide (arg ∈ ["-H"; "-P"; "-L"]).

(** The loop over the global options, at index [i]; every round moves [i] forward, so
    [len(args)] rounds are enough ([ParseCommand_is_spec]). *)
Fixpoint ParseCommand_loop (fuel : nat) (args : list string) (i : Z) (dev : string)
    : outcome (cres (Z * string)) :=
  match fuel with
  | O => Ret (Do (i, dev))
  | S f =>
      if decide (i < len args - 1) then
        let! arg := index args i in
        if unsupported arg then Ret ParseError
        else if decide (arg = "-s") then
          let! dev := index args (i + 1) in ParseCommand_loop f args (i + 1 + 1) dev
        else if decide (arg = "wait-for-device") then ParseCommand_loop f args (i + 1) dev
        else if skipped arg then ParseCommand_loop f args (i + 1 + 1) dev
        else Ret (Do (i, dev))
      else Ret (Do (i, dev))
  end.

(** [ParseCommand(args)] *)
Definition ParseCommand (args : list string) : outcome (cres ParsedArgs) :=
  cmd! (i, dev) := ParseCommand_loop (length args) args 0 "" in
  let! c := index args i in
  let! rest := args_from args i in
  Ret (Do (MkParsedArgs dev c rest)).

(** ** Forwarding addresses *)

(** [s[n:]] of a string. *)
Definition str_from (s : string) (n : Z) : outcome string := sslice s n (slen s).

(** [parseFwd(addr, reverse)] *)
Definition parseFwd (addr : string) (reverse : bool) : outcome (cres string) :=
  if reverse then
    if HasPrefix addr "tcp:" then
      let! p := index (SplitN addr ":" 3) 2 in Ret (Do ("tcp:" +:+ p))
    else if HasPrefix addr "unix:@" then
      let! n := str_from addr 6 in Ret (Do ("localabstract:" +:+ n))
    else if HasPrefix addr "unix:" then
      let! n := str_from addr 5 in Ret (Do ("localreserved:" +:+ n))
    else Ret ParseError
  else
    match Split addr ":" with
    | [pts0; pts1] =>
        if decide (pts0 = "tcp") then Ret (Do ("tcp:localhost:" +:+ pts1))
        else if decide (pts0 = "localabstract") then Ret (Do ("unix:@" +:+ pts1))
        else if decide (pts0 = "localreserved" ∨ pts0 = "localfilesystem")
          then Ret (Do ("unix:" +:+ pts1))
        else Ret ParseError
    | _ => Ret ParseError
    end.

(** ** The commands *)

(** The call a command makes on the waterfall or the port forwarding client; [ActShell] is
    [shellIO], which runs a line in the device's shell and may pass its status on. *)
Inductive action :=
| ActExec (cmd : string) (args : list string)
| ActShell (line : string)
| ActPush (src dst : string)
| ActPull (src dst : string)
| ActInstall (path : string) (args : list string)
| ActForward (req : PortForwardRequest)
| ActReverse (req : PortForwardRequest)
| ActStop (req : PortForwardRequest)
| ActStopAll
| ActList
| ActPrint (s : string).

(** The error of [cfn()], which opens the connection. *)
Definition connect (err : option error) : outcome (cres ()) :=
  Ret (match err with None => Do () | Some e => Fail e end).

(** [shellIO]: the command line handed to the device's shell. *)
Definition shellIO (cmd : string) (args : list string) : action :=
  ActShell (cmd +:+ " " +:+ Join args " ").

Definition shellFn (cfn : option error) (args : list string) : outcome (cres action) :=
  if decide (len args = 1) then Ret ParseError else
  cmd! _ := connect cfn in
  let! cmd := index args 1 in
  let! rest := args_from args 2 in
  Ret (Do (shellIO cmd rest)).

Definition pushFn (cfn : option error) (args : list string) : outcome (cres action) :=
  if decide (len args ≠ 3) then Ret ParseError else
  cmd! _ := connect cfn in
  let! a := index args 1 in
  let! b := index args 2 in
  Ret (Do (ActPush a b)).

Definition pullFn (cfn : option error) (args : list string) : outcome (cres action) :=
  if decide (len args ≠ 3) then Ret ParseError else
  cmd! _ := connect cfn in
  let! a := index args 1 in
  let! b := index args 2 in
  Ret (Do (ActPull a b)).

(** [installFn]; [open] is the error of [os.Open(path)]. *)
Definition installFn (open : string → option error) (cfn : option error) (args : list string)
    : outcome (cres action) :=
  if decide (len args < 2) then Ret ParseError else
  let! path := index args (len args - 1) in
  cmd! _ := connect (open path) in
  cmd! _ := connect cfn in
  let! upto := slice_to args (len args - 1) in
  let! mid := args_from upto 1 in
  Ret (Do (ActInstall path mid)).

Definition fwd_req (rebind : bool) (src dst : string) : PortForwardRequest :=
  MkPortForwardRequest rebind (MkForwardSession src dst).

Definition forwardFn (cfn : option error) (args : list string) : outcome (cres action) :=
  if decide (len args < 2 ∨ len args > 4) then Ret ParseError else
  cmd! _ := connect cfn in
  let! op := index args 1 in
  if decide (op = "--list") then Ret (Do ActList)
  else if decide (op = "--remove") then
    if decide (len args ≠ 3) then Ret ParseError else
    let! a := index args 2 in
    cmd! fwd := parseFwd a false in
    Ret (Do (ActStop (fwd_req false fwd "")))
  else if decide (op = "--remove-all") then
    if decide (len args ≠ 2) then Ret ParseError else Ret (Do ActStopAll)
  else if decide (op = "--no-rebind") then
    let! a := index args 2 in
    cmd! src := parseFwd a false in
    let! b := index args 3 in
    cmd! dst := parseFwd b false in
    Ret (Do (ActForward (fwd_req false src dst)))
  else
    let! a := index args 1 in
    cmd! src := parseFwd a false in
    let! b := index args 2 in
    cmd! dst := parseFwd b false in
    Ret (Do (ActForward (fwd_req true src dst))).

(** The lines [forward --list] prints for the sessions the daemon returned. *)
Fixpoint list_lines (ss : list ForwardSession) : outcome (cres (list string)) :=
  match ss with
  | [] => Ret (Do [])
  | s :: ss' =>
      cmd! src := parseFwd (fs_src s) true in
      cmd! dst := parseFwd (fs_dst s) true in
      cmd! ls := list_lines ss' in
      Ret (Do (("localhost:foo " +:+ src +:+ " " +:+ dst) :: ls))
  end.

Definition reverseFn (cfn : option error) (args : list string) : outcome (cres action) :=
  if decide (len args < 2 ∨ len args > 4) then Ret ParseError else
  cmd! _ := connect cfn in
  let! a := index args 1 in
  cmd! src := parseFwd a false in
  let! b := index args 2 in
  cmd! dst := parseFwd b false in
  Ret (Do (ActReverse (fwd_req true src dst))).

Definition passthroughFn (cfn : option error) (args : list string) : outcome (cres action) :=
  cmd! _ := connect cfn in
  let! cmd := index args 0 in
  let! rest := args_from args 1 in
  Ret (Do (ActExec cmd rest)).

Definition uninstallFn (cfn : option error) (args : list string) : outcome (cres action) :=
  if decide (len args ≠ 2) then Ret ParseError else
  cmd! _ := connect cfn in
  Ret (Do (shellIO "/system/bin/pm" args)).

(** [strings.HasSuffix(s, suf)] *)
Definition HasSuffix (s suf : string) : bool :=
  bool_decide (slen suf ≤ slen s ∧
    String.substring (String.length s - String.length suf) (String.length suf) s = suf).

Definition crlf : string := String (Ascii.ascii_of_nat 10) (String (Ascii.ascii_of_nat 13) "").

(** [bugreportFn]; [version] is the output and error of [bugreportz -v], [report] of
    [bugreportz]. *)
Definition bugreportFn (cfn : option error) (version report : string * option error)
    (args : list string) : outcome (cres action) :=
  cmd! _ := connect cfn in
  if decide (len args > 2) then Ret ParseError
  else if decide (len args = 1) then
    let! cmd := index args 0 in
    let! rest := args_from args 1 in
    Ret (Do (ActExec cmd rest))
  else if decide (snd version ≠ None ∨ fst version = "") then
    Ret (Do (ActPrint "Bugreportz not supported. Use adb bugreport to run legacy version."))
  else
    match snd report with
    | Some e => Ret (Fail e)
    | None =>
        let! oz := index args 1 in
        let oz := if HasSuffix oz ".zip" then oz else oz +:+ ".zip" in
        let dp := Split (fst report) "OK:" in
        if decide (len dp < 2)
        then Ret (Fail (ErrorString "unable to parse bugreport zip output"))
        else let! p := index dp 1 in Ret (Do (ActPull (Trim p crlf) oz))
    end.

(** ** The environment *)

(** [platformADB()] from the values of its two variables. *)
Definition platformADB (join : string → string → string) (adb sdk : string) : result string :=
  if decide (adb ≠ "") then Ok adb
  else if decide (sdk ≠ "") then Ok (join sdk "platform-tools/adb")
  else Err (ErrorString "unable to find platform ADB, neither ANDROID_ADB or ANDROID_SDK_HOME set").

(** [strconv.ParseBool] *)
Definition ParseBool (s : string) : option bool :=
  if decide (s ∈ ["1"; "t"; "T"; "TRUE"; "true"; "True"]) then Some true
  else if decide (s ∈ ["0"; "f"; "F"; "FALSE"; "false"; "False"]) then Some false
  else None.

(** [propagateStatusCode(s)]: the status the process exits with, if it does. *)
Definition propagateStatusCode (env : string) (s : Z) : option Z :=
  if decide (env = "") then None else
  match ParseBool env with
  | None => None
  | Some b => if b && bool_decide (s ≠ 0) then Some s else None
  end.

(** What the commands get from their environment besides the arguments: the errors of
    [os.Open], and the outputs of the two [bugreportz] runs. *)
Record env := MkEnv {
  open : string → option error;
  version : string * option error;
  report : string * option error;
}.

(** The map [Commands] *)
Definition Commands (e : env) (name : string)
    : option (option error → list string → outcome (cres action)) :=
  if decide (name = "shell") then Some shellFn
  else if decide (name = "push") then Some pushFn
  else if decide (name = "pull") then Some pullFn
  else if decide (name = "forward") then Some forwardFn
  else if decide (name = "reverse") then Some reverseFn
  else if decide (name = "bugreport") then Some (λ c, bugreportFn c (version e) (report e))
  else if decide (name = "logcat") then Some passthroughFn
  else if decide (name = "install") then Some (installFn (open e))
  else if decide (name = "uninstall") then Some uninstallFn
  else None.

(** ** The binary: client/adb/adb_bin.go *)

(** [parseAddr(addr)] of the binary: where a device's server listens. *)
Definition device_addr (addr : string) : outcome (string * string) :=
  if HasPrefix addr "unix:" || HasPrefix addr "tcp:" then
    let pts := SplitN addr ":" 2 in
    let! a := index pts 0 in
    let! b := index pts 1 in
    Ret (a, b)
  else Ret ("unix", "@h2o_" +:+ addr).

(** How a run of the binary goes on: adb takes over with the same arguments, or the
    command ran, with its device. *)
Inductive run := Fallback (args : list string) | Ran (dev : string) (r : cres action).

(** [runCommand(ctx, args)]; [dial] is the error of [net.Dial], [grpcDial] of the
    connection a command opens. *)
Definition runCommand (e : env) (dial : string → string → option error)
    (grpcDial : option error) (args : list string) : outcome run :=
  let! p := ParseCommand args in
  match p with
  | Do p =>
      if decide (0 < len (Args p)) then
        if decide (Device p = "") then Ret (Fallback args) else
        let! (n, a) := device_addr (Device p) in
        match dial n a with
        | Some _ => Ret (Fallback args)
        | None =>
            match Commands e (Command p) with
            | Some fn =>
                let! r := fn grpcDial (Args p) in
                match r with
                | ParseError => Ret (Fallback args)
                | _ => Ret (Ran (Device p) r)
                end
            | None => Ret (Fallback args)
            end
        end
      else Ret (Fallback args)
  | _ => Ret (Fallback args)
  end.

(** ** The command line, by structure *)

(** What the option loop means, on the arguments that are left. *)
Fixpoint cmdline (dev : string) (args : list string) : outcome (cres ParsedArgs) :=
  match args with
  | [] => Panic
  | a :: rest =>
      match rest with
      | [] => Ret (Do (MkParsedArgs dev a args))
      | b :: rest' =>
          if unsupported a then Ret ParseError
          else if decide (a = "-s") then cmdline b rest'
          else if decide (a = "wait-for-device") then cmdline dev rest
          else if skipped a then cmdline dev rest'
          else Ret (Do (MkParsedArgs dev a args))
      end
  end.

Lemma index_app_0 {A} (pre : list A) a rest : index (pre ++ a :: rest) (len pre) = Ret a.
Proof.
  unfold len. apply index_in. rewrite lookup_app_r by lia. by rewrite Nat.sub_diag.
Qed.

Lemma index_app_1 {A} (pre : list A) a b rest : index (pre ++ a :: b :: rest) (len pre + 1) = Ret b.
Proof.
  replace (len pre + 1) with (len (pre ++ [a])) by (rewrite len_app; llia).
  rewrite (app_assoc pre [a] (b :: rest) : pre ++ a :: b :: rest = _). apply index_app_0.
Qed.

Lemma slice_app {A} (pre rest : list A) : slice_from (pre ++ rest) (len pre) = Ret rest.
Proof.
  unfold slice_from. rewrite decide_True by (rewrite len_app; unfold len; lia).
  unfold len. rewrite Nat2Z.id. by rewrite drop_app_length.
Qed.

(** The result of the loop, from index [len pre] on. *)
Definition pick (args : list string) (r : outcome (cres (Z * string)))
    : outcome (cres ParsedArgs) :=
  cmd! (i, dev) := r in
  let! c := index args i in
  let! rest := args_from args i in
  Ret (Do (MkParsedArgs dev c rest)).

Lemma pick_here pre a rest dev :
  pick (pre ++ a :: rest) (Ret (Do (len pre, dev))) = Ret (Do (MkParsedArgs dev a (a :: rest))).
Proof. unfold pick, args_from. cbn [cbind]. by rewrite index_app_0, slice_app. Qed.

Lemma loop_cmdline fuel pre rest dev :
  (length rest ≤ fuel)%nat →
  pick (pre ++ rest) (ParseCommand_loop fuel (pre ++ rest) (len pre) dev) = cmdline dev rest.
Proof.
  revert pre rest dev. induction fuel as [|f IH]; intros pre rest dev Hf.
  { destruct rest; [|cbn in Hf; lia]. cbn. rewrite app_nil_r. by rewrite index_out by lia. }
  destruct rest as [|a [|b rest]]; cbn [ParseCommand_loop cmdline].
  - rewrite decide_False by (rewrite app_nil_r; lia). unfold pick. cbn [cbind].
    by rewrite index_out by (rewrite app_nil_r; lia).
  - rewrite decide_False by (rewrite len_app; llia). by rewrite pick_here.
  - rewrite decide_True by (rewrite len_app, !len_cons; pose proof (len_nonneg rest); lia).
    rewrite index_app_0, index_app_1. cbn [obind].
    assert (∀ d, pick (pre ++ a :: b :: rest)
      (ParseCommand_loop f (pre ++ a :: b :: rest) (len pre + 1 + 1) d) = cmdline d rest) as H2.
    { intros d. specialize (IH (pre ++ [a; b]) rest d ltac:(cbn in Hf; lia)).
      rewrite <- app_assoc in IH. rewrite <- IH. do 2 f_equal. rewrite len_app. llia. }
    assert (pick (pre ++ a :: b :: rest)
      (ParseCommand_loop f (pre ++ a :: b :: rest) (len pre + 1) dev) = cmdline dev (b :: rest)) as H1.
    { specialize (IH (pre ++ [a]) (b :: rest) dev ltac:(cbn in *; lia)).
      rewrite <- app_assoc in IH. rewrite <- IH. do 2 f_equal. rewrite len_app. llia. }
    destruct (unsupported a); [done|]. destruct (decide (a = "-s")); [exact (H2 b)|].
    destruct (decide (a = "wait-for-device")); [exact H1|].
    destruct (skipped a); [exact (H2 dev)|apply pick_here].
Qed.

Lemma ParseCommand_cmdline args : ParseCommand args = cmdline "" args.
Proof. exact (loop_cmdline (length args) [] args "" ltac:(lia)). Qed.

(** The index loop of [ParseCommand] is the recursive reading of the command line:
    options are taken from the front, unsupported ones make it fall back, and it panics
    exactly when the options use up every argument. *)
Theorem ParseCommand_is_spec args : ParseCommand args = cmdline "" args.
Proof. apply ParseCommand_cmdline. Qed.

(** The arguments a parsed command line leaves are the end of the line, from the command
    on. *)
Lemma cmdline_suffix dev args p :
  cmdline dev args = Ret (Do p) →
  ∃ pre rest, args = pre ++ Args p ∧ Args p = Command p :: rest.
Proof.
  remember (length args) as n eqn:Hn. assert (length args ≤ n)%nat as Hle by lia. clear Hn.
  revert dev args Hle. induction n as [|n IH]; intros dev args Hle; [destruct args; [done|cbn in Hle; lia]|].
  destruct args as [|a [|b rest]]; cbn [cmdline]; [done| |].
  { intros [= <-]. by exists [], []. }
  assert (∀ d l, (length l ≤ n)%nat → l `suffix_of` a :: b :: rest →
    cmdline d l = Ret (Do p) →
    ∃ pre r, a :: b :: rest = pre ++ Args p ∧ Args p = Command p :: r) as Hrec.
  { intros d l Hl [pre0 Hs] H. destruct (IH d l Hl H) as (pre & r & -> & Hr).
    exists (pre0 ++ pre), r. by rewrite Hs, app_assoc. }
  destruct (unsupported a); [done|].
  destruct (decide (a = "-s")).
  { apply Hrec; [cbn in Hle; lia|by exists [a; b]]. }
  destruct (decide (a = "wait-for-device")).
  { apply (Hrec dev (b :: rest)); [cbn in *; lia|by exists [a]]. }
  destruct (skipped a).
  { apply Hrec; [cbn in Hle; lia|by exists [a; b]]. }
  intros [= <-]. by exists [], (b :: rest).
Qed.

(** ** Forwarding addresses *)

Lemma str_from_app a b : str_from (a +:+ b) (slen a) = Ret b.
Proof.
  unfold str_from, sslice. rewrite decide_True by (rewrite slen_app; unfold slen; lia).
  f_equal. rewrite slen_app. replace (slen a + slen b - slen a) with (slen b) by lia.
  unfold slen. rewrite !Nat2Z.id. induction a as [|c a IH]; [|exact IH].
  rewrite sapp_nil_l. cbn [String.length]. induction b as [|c b IH]; [done|].
  cbn. by rewrite IH.
Qed.

(** The adb spelling of a forwarding address, by kind. *)
Inductive adb_addr : string → string → Prop :=
| aa_tcp p : has_char ":" p = false → adb_addr ("tcp:" +:+ p) ("tcp:localhost:" +:+ p)
| aa_abstract n : has_char ":" n = false → adb_addr ("localabstract:" +:+ n) ("unix:@" +:+ n)
| aa_reserved n : has_char ":" n = false → adb_addr ("localreserved:" +:+ n) ("unix:" +:+ n)
| aa_files n : has_char ":" n = false → adb_addr ("localfilesystem:" +:+ n) ("unix:" +:+ n).

Lemma Split_kind k n :
  has_char ":" k = false → has_char ":" n = false → Split (k +:+ String ":" n) ":" = [k; n].
Proof. apply Split_char_two. Qed.

Lemma parseFwd_adb a b : adb_addr a b → parseFwd a false = Ret (Do b).
Proof.
  intros [p H|p H|p H|p H]; unfold parseFwd.
  - by rewrite (Split_kind "tcp" p eq_refl H : Split ("tcp:" +:+ p) ":" = _).
  - by rewrite (Split_kind "localabstract" p eq_refl H : Split ("localabstract:" +:+ p) ":" = _).
  - by rewrite (Split_kind "localreserved" p eq_refl H : Split ("localreserved:" +:+ p) ":" = _).
  - by rewrite (Split_kind "localfilesystem" p eq_refl H : Split ("localfilesystem:" +:+ p) ":" = _).
Qed.

Lemma parseFwd_inv a r :
  parseFwd a false = r → (∃ b, r = Ret (Do b) ∧ adb_addr a b) ∨ r = Ret ParseError.
Proof.
  intros <-. unfold parseFwd. destruct (Split a ":") as [|k [|n [|? ?]]] eqn:E; auto.
  apply Split_two_inv in E as (-> & Hk & Hn).
  repeat (case_decide; subst; [left; eexists; split; [reflexivity|]|]); [| | |by right].
  - by apply aa_tcp.
  - by apply aa_abstract.
  - destruct H1 as [->| ->]; [by apply aa_reserved|by apply aa_files].
Qed.

(** What [parseFwd] returns can be parsed and dialled. *)
Lemma adb_addr_parses a b :
  adb_addr a b → ∃ kind addr k, parseAddr b = Ok (kind, addr) ∧ networkKind kind = Ok k.
Proof.
  intros [p H|p H|p H|p H]; unfold parseAddr; rewrite SplitN_2.
  - rewrite (cut_char ":" "tcp" ("localhost:" +:+ p) eq_refl : cut ":" ("tcp:localhost:" +:+ p) = _).
    by exists "tcp"; eauto.
  - rewrite (cut_char ":" "unix" ("@" +:+ p) eq_refl : cut ":" ("unix:@" +:+ p) = _).
    by exists "unix"; eauto.
  - rewrite (cut_char ":" "unix" p eq_refl : cut ":" ("unix:" +:+ p) = _).
    by exists "unix"; eauto.
  - rewrite (cut_char ":" "unix" p eq_refl : cut ":" ("unix:" +:+ p) = _).
    by exists "unix"; eauto.
Qed.

(** [parseFwd] accepts exactly the addresses [tcp:port], [localabstract:name],
    [localreserved:name] and [localfilesystem:name] (no further colon), never panics on
    the way in, and what it returns is an address the port forwarding daemon can parse
    and whose network it knows. *)
Theorem parseFwd_spec a :
  (∀ b, parseFwd a false = Ret (Do b) ↔ adb_addr a b) ∧
  ((∀ b, ¬ adb_addr a b) → parseFwd a false = Ret ParseError) ∧
  (∀ b, parseFwd a false = Ret (Do b) →
     ∃ kind addr k, parseAddr b = Ok (kind, addr) ∧ networkKind kind = Ok k).
Proof.
  assert (∀ b, parseFwd a false = Ret (Do b) → adb_addr a b) as Hin.
  { intros b H. destruct (parseFwd_inv _ _ H) as [(b' & [= <-] & ?)|]; done. }
  split_and!.
  - split; [apply Hin|apply parseFwd_adb].
  - intros H. destruct (parseFwd_inv a _ eq_refl) as [(b & _ & Hb)|]; [|done].
    by apply H in Hb.
  - intros b H%Hin. by eapply adb_addr_parses.
Qed.

Lemma parseFwd_back_tcp p :
  has_char ":" p = false → parseFwd ("tcp:localhost:" +:+ p) true = Ret (Do ("tcp:" +:+ p)).
Proof.
  intros H. unfold parseFwd.
  assert (HasPrefix ("tcp:localhost:" +:+ p) "tcp:" = true) as ->
    by (apply HasPrefix_true; by exists ("localhost:" +:+ p)).
  assert (SplitN ("tcp:localhost:" +:+ p) ":" 3 = ["tcp"; "localhost"; p]) as ->; [|done].
  unfold SplitN. cbn [split_loop].
  rewrite (cut_char ":" "tcp" ("localhost:" +:+ p) eq_refl : cut ":" ("tcp:localhost:" +:+ p) = _).
  by rewrite (cut_char ":" "localhost" p eq_refl : cut ":" ("localhost:" +:+ p) = _).
Qed.

Lemma parseFwd_back_abstract n : parseFwd ("unix:@" +:+ n) true = Ret (Do ("localabstract:" +:+ n)).
Proof.
  unfold parseFwd.
  assert (HasPrefix ("unix:@" +:+ n) "unix:@" = true) as ->
    by (apply HasPrefix_true; by exists n).
  assert (HasPrefix ("unix:@" +:+ n) "tcp:" = false) as -> by done.
  by rewrite (str_from_app "unix:@" n : str_from _ 6 = _).
Qed.

Lemma parseFwd_back_unix n :
  HasPrefix n "@" = false → parseFwd ("unix:" +:+ n) true = Ret (Do ("localreserved:" +:+ n)).
Proof.
  intros Hn. unfold parseFwd.
  assert (HasPrefix ("unix:" +:+ n) "unix:" = true) as ->
    by (apply HasPrefix_true; by exists n).
  assert (HasPrefix ("unix:" +:+ n) "tcp:" = false) as -> by done.
  assert (HasPrefix ("unix:" +:+ n) "unix:@" = false) as -> by exact Hn.
  by rewrite (str_from_app "unix:" n : str_from _ 5 = _).
Qed.

(** Listing gives back what was asked for: for the tcp, abstract and reserved kinds
    [parseFwd(parseFwd(a, false), true)] is [a] (a reserved name must not start with an
    at sign), while a file system address comes back as a reserved one. *)
Theorem parseFwd_roundtrip a b :
  adb_addr a b → HasPrefix a "localreserved:@" = false → HasPrefix a "localfilesystem:@" = false →
  parseFwd a false = Ret (Do b) ∧
  parseFwd b true =
    Ret (Do (if HasPrefix a "localfilesystem:"
             then "localreserved:" +:+ TrimPrefix a "localfilesystem:" else a)).
Proof.
  intros Ha H1 H2. split; [by apply parseFwd_adb|].
  destruct Ha as [p H|p H|p H|p H].
  - by rewrite parseFwd_back_tcp.
  - by rewrite parseFwd_back_abstract.
  - by rewrite parseFwd_back_unix.
  - rewrite parseFwd_back_unix by exact H2.
    assert (HasPrefix ("localfilesystem:" +:+ p) "localfilesystem:" = true) as ->
      by (apply HasPrefix_true; by exists p).
    by rewrite TrimPrefix_app.
Qed.

Lemma parseFwd_roundtrip_witness :
  parseFwd "tcp:8080" false = Ret (Do "tcp:localhost:8080") ∧
  parseFwd "tcp:localhost:8080" true = Ret (Do "tcp:8080").
Proof.
  exact (parseFwd_roundtrip "tcp:8080" "tcp:localhost:8080" (aa_tcp "8080" eq_refl)
    eq_refl eq_refl).
Defined.

Lemma adb_addr_not_option a b :
  adb_addr a b → a ≠ "--list" ∧ a ≠ "--remove" ∧ a ≠ "--remove-all" ∧ a ≠ "--no-rebind".
Proof. by intros [p _|p _|p _|p _]. Qed.

(** [parseFwd] on the way in, as the commands use it. *)
Lemma parseFwd_bind {A} a (k : string → outcome (cres A)) :
  (∃ b, adb_addr a b ∧ cbind (parseFwd a false) k = k b) ∨
  ((∀ b, ¬ adb_addr a b) ∧ cbind (parseFwd a false) k = Ret ParseError).
Proof.
  destruct (parseFwd_inv a _ eq_refl) as [(b & E & Hb)|E]; rewrite E; cbn; [by left; eauto|].
  right. split; [|done]. intros b Hb. apply parseFwd_adb in Hb. congruence.
Qed.

(** The argument lists of [adb forward] that stop short of an address it then reads. *)
Definition forward_short (args : list string) : Prop :=
  (∃ c, args = [c; "--no-rebind"]) ∨
  (∃ c a b, args = [c; "--no-rebind"; a] ∧ adb_addr a b) ∨
  (∃ c a b, args = [c; a] ∧ adb_addr a b).

Lemma short_panics args : forward_short args → forwardFn None args = Panic.
Proof.
  intros [[c ->]|[(c & a & b & -> & Hb)|(c & a & b & -> & Hb)]]; [done| |].
  - apply parseFwd_adb in Hb. unfold forwardFn. rewrite decide_False by llia.
    cbn [cbind connect]. change (index [c; "--no-rebind"; a] 1) with (Ret "--no-rebind").
    change (index [c; "--no-rebind"; a] 2) with (Ret a). cbn [obind].
    rewrite !decide_False, decide_True by done. by rewrite Hb.
  - destruct (adb_addr_not_option _ _ Hb) as (H1 & H2 & H3 & H4).
    apply parseFwd_adb in Hb. unfold forwardFn. rewrite decide_False by llia.
    cbn [cbind connect]. change (index [c; a] 1) with (Ret a). cbn [obind].
    rewrite !decide_False by done. by rewrite Hb.
Qed.

Lemma panics_short args : forwardFn None args = Panic → forward_short args.
Proof.
  unfold forwardFn. case_decide as Hlen; [done|]. cbn [cbind connect].
  destruct args as [|c [|a rest]]; [llia|llia|]. cbn [index].
  change (index (c :: a :: rest) 1) with (Ret a). cbn [obind].
  case_decide as Hls; [done|]. case_decide as Hrm; [|case_decide as Hra; [|case_decide as Hnr]].
  - case_decide as H3; [done|]. destruct rest as [|b [|? ?]]; [llia| |llia].
    change (index [c; a; b] 2) with (Ret b). cbn [obind].
    by destruct (parseFwd_bind b (λ fwd, Ret (Do (ActStop (fwd_req false fwd ""))))) as [(? & _ & ->)|[_ ->]].
  - by case_decide.
  - subst a. destruct rest as [|a rest]; [left; eauto|].
    change (index (c :: "--no-rebind" :: a :: rest) 2) with (Ret a). cbn [obind].
    intros H. destruct rest as [|b rest].
    { right; left. destruct (parseFwd_inv a _ eq_refl) as [(b & E & Hb)|E]; [by eauto 6|].
      by rewrite E in H. }
    change (index (c :: "--no-rebind" :: a :: b :: rest) 3) with (Ret b) in H. cbn [obind] in H.
    destruct (parseFwd_inv a _ eq_refl) as [(a' & E & _)|E]; rewrite E in H; [cbn [cbind] in H|done].
    by destruct (parseFwd_inv b _ eq_refl) as [(b' & E' & _)|E']; rewrite E' in H.
  - intros H. destruct rest as [|b rest].
    { right; right. destruct (parseFwd_inv a _ eq_refl) as [(b & E & Hb)|E]; [by eauto 6|].
      by rewrite E in H. }
    change (index (c :: a :: b :: rest) 2) with (Ret b) in H. cbn [obind] in H.
    destruct (parseFwd_inv a _ eq_refl) as [(a' & E & _)|E]; rewrite E in H; [cbn [cbind] in H|done].
    by destruct (parseFwd_inv b _ eq_refl) as [(b' & E' & _)|E']; rewrite E' in H.
Qed.

(** [adb forward] panics on exactly three shapes of command line, all of which pass its
    check of the number of arguments: [--no-rebind] alone, [--no-rebind] with one valid
    address, and one valid address alone. *)
Theorem forwardFn_panics args : forwardFn None args = Panic ↔ forward_short args.
Proof. split; [apply panics_short|apply short_panics]. Qed.

Lemma parseFwd_back_total a b : adb_addr a b → ∃ s, parseFwd b true = Ret (Do s).
Proof.
  intros [p H|p H|p H|p H]; [rewrite parseFwd_back_tcp by done; eauto| | |].
  - rewrite parseFwd_back_abstract. eauto.
  - destruct (HasPrefix p "@") eqn:E; [|rewrite parseFwd_back_unix by done; eauto].
    apply HasPrefix_true in E as [n ->].
    change ("unix:" +:+ "@" +:+ n) with ("unix:@" +:+ n). rewrite parseFwd_back_abstract. eauto.
  - destruct (HasPrefix p "@") eqn:E; [|rewrite parseFwd_back_unix by done; eauto].
    apply HasPrefix_true in E as [n ->].
    change ("unix:" +:+ "@" +:+ n) with ("unix:@" +:+ n). rewrite parseFwd_back_abstract. eauto.
Qed.

(** A session the command line can have asked for. *)
Definition cli_session (s : ForwardSession) : Prop :=
  ∃ a b, adb_addr a (fs_src s) ∧ adb_addr b (fs_dst s).

(** [adb forward --list] prints one line per session as long as every session was made
    through the command line; a session on [tcp:port] without a host, which the daemon
    accepts from other clients, makes it panic. *)
Theorem list_lines_total ss :
  (Forall cli_session ss → ∃ ls, list_lines ss = Ret (Do ls) ∧ length ls = length ss) ∧
  ∀ p d, has_char ":" p = false →
    parseAddr ("tcp:" +:+ p) = Ok ("tcp", p) ∧
    list_lines (MkForwardSession ("tcp:" +:+ p) d :: ss) = Panic.
Proof.
  split.
  - induction 1 as [|s ss (a & b & Ha & Hb) _ (ls & IH & Hl)]; [by exists []|]. cbn -[parseFwd].
    destruct (parseFwd_back_total _ _ Ha) as [x ->].
    destruct (parseFwd_back_total _ _ Hb) as [y ->]. cbn -[parseFwd]. rewrite IH. cbn.
    eexists. split; [done|]. cbn. by rewrite Hl.
  - intros p d Hp. split.
    + unfold parseAddr. rewrite SplitN_2.
      by rewrite (cut_char ":" "tcp" p eq_refl : cut ":" ("tcp:" +:+ p) = _).
    + cbn [list_lines fs_src]. unfold parseFwd.
      assert (HasPrefix ("tcp:" +:+ p) "tcp:" = true) as -> by (apply HasPrefix_true; by exists p).
      assert (SplitN ("tcp:" +:+ p) ":" 3 = ["tcp"; p]) as ->; [|done].
      unfold SplitN. cbn [split_loop].
      rewrite (cut_char ":" "tcp" p eq_refl : cut ":" ("tcp:" +:+ p) = _).
      by apply cut_char_None in Hp as ->.
Qed.

(** ** When the binary panics *)

Definition reverse_short (args : list string) : Prop := ∃ c a b, args = [c; a] ∧ adb_addr a b.

Lemma reverse_panics args : reverseFn None args = Panic ↔ reverse_short args.
Proof.
  unfold reverseFn. case_decide as Hlen.
  { split; [done|]. intros (c & a & b & -> & _). exfalso. llia. }
  cbn [cbind connect]. destruct args as [|c [|a rest]]; [llia|llia|].
  change (index (c :: a :: rest) 1) with (Ret a). cbn [obind]. destruct rest as [|x rest].
  - destruct (parseFwd_inv a _ eq_refl) as [(b & E & Hb)|E]; rewrite E; cbn.
    + split; [intros _; by exists c, a, b|done].
    + split; [done|]. intros (c' & a' & b & [= <- <-] & Hb). apply parseFwd_adb in Hb. congruence.
  - change (index (c :: a :: x :: rest) 2) with (Ret x). cbn [obind].
    split; [|by intros (? & ? & ? & ? & _)]. intros H. exfalso.
    destruct (parseFwd_inv a _ eq_refl) as [(a' & E & _)|E]; rewrite E in H; [cbn [cbind] in H|done].
    by destruct (parseFwd_inv x _ eq_refl) as [(b' & E' & _)|E']; rewrite E' in H.
Qed.

Lemma index_some {A} (l : list A) i : 0 ≤ i < len l → ∃ a, index l i = Ret a.
Proof.
  intros H. destruct (lookup_lt_is_Some_2 l (Z.to_nat i)) as [a Ha]; [unfold len in H; lia|].
  exists a. replace i with (Z.of_nat (Z.to_nat i)) by lia. by apply index_in.
Qed.

Lemma slice_some {A} (l : list A) i : 0 ≤ i ≤ len l → ∃ a, slice_from l i = Ret a.
Proof. intros H. unfold slice_from. rewrite decide_True by done. eauto. Qed.

Lemma slice_to_some {A} (l : list A) i :
  0 ≤ i ≤ len l → ∃ a, slice_to l i = Ret a ∧ len a = i.
Proof.
  intros H. unfold slice_to. rewrite decide_True by done. eexists. split; [done|].
  by apply len_take.
Qed.

(** Steps through the accesses of a command that are in range. *)
Ltac in_range :=
  repeat match goal with
  | |- context [index ?l ?i] =>
      let a := fresh "a" in let H := fresh "H" in
      destruct (index_some l i) as [a H]; [lia|]; rewrite H; clear H; cbn [obind cbind]
  | |- context [args_from ?l ?i] =>
      let a := fresh "a" in let H := fresh "H" in
      destruct (slice_some l i) as [a H]; [lia|]; unfold args_from; rewrite H; clear H;
      cbn [obind cbind]
  end.

(** The other commands never panic, whatever their arguments, once there is a command. *)
Lemma commands_safe e name fn args :
  name ≠ "forward" → name ≠ "reverse" → Commands e name = Some fn → 0 < len args →
  fn None args ≠ Panic.
Proof.
  intros Hf Hr Hfn Hlen. unfold Commands in Hfn.
  rewrite (decide_False (P := name = "forward")), (decide_False (P := name = "reverse")) in Hfn by done.
  repeat (case_decide; [injection Hfn as <-; clear Hf Hr|]); [..|done].
  - unfold shellFn. case_decide; [done|]. cbn [cbind connect]. by in_range.
  - unfold pushFn. case_decide as Hn; [done|]. cbn [cbind connect].
    assert (len args = 3) by lia. by in_range.
  - unfold pullFn. case_decide as Hn; [done|]. cbn [cbind connect].
    assert (len args = 3) by lia. by in_range.
  - unfold bugreportFn. cbn [cbind connect]. case_decide; [done|]. case_decide; [by in_range|].
    case_decide; [done|]. destruct (snd (report e)); [done|]. in_range. case_decide; [done|].
    by in_range.
  - unfold passthroughFn. cbn [cbind connect]. by in_range.
  - unfold installFn. case_decide; [done|]. in_range.
    destruct (open e _); cbn [cbind connect]; [done|].
    destruct (slice_to_some args (len args - 1)) as (mid & -> & Hm); [lia|]. cbn [obind]. by in_range.
  - unfold uninstallFn. by case_decide.
Qed.

(** A command line whose command reads past its arguments. *)
Definition short_command (p : ParsedArgs) : Prop :=
  (Command p = "forward" ∧ forward_short (Args p)) ∨
  (Command p = "reverse" ∧ reverse_short (Args p)).

Lemma command_panics e fn p :
  Commands e (Command p) = Some fn → 0 < len (Args p) →
  fn None (Args p) = Panic ↔ short_command p.
Proof.
  intros Hfn Hlen. unfold short_command.
  destruct (decide (Command p = "forward")) as [Hf|Hf].
  { rewrite Hf in Hfn. injection Hfn as <-.
    split; [intros H; left; split; [done|by apply panics_short]|].
    intros [[_ H]|[H _]]; [by apply short_panics|congruence]. }
  destruct (decide (Command p = "reverse")) as [Hr|Hr].
  { rewrite Hr in Hfn. injection Hfn as <-.
    split; [intros H; right; split; [done|by apply reverse_panics]|].
    intros [[H _]|[_ H]]; [congruence|by apply reverse_panics]. }
  split; [intros H; by apply commands_safe with (e := e) (name := Command p) in H|].
  intros [[? _]|[? _]]; done.
Qed.

Lemma device_addr_ret d : ∃ n a, device_addr d = Ret (n, a).
Proof.
  unfold device_addr. destruct (HasPrefix d "unix:" || HasPrefix d "tcp:") eqn:E; [|eauto].
  assert (∃ b c, cut ":" d = Some (b, c)) as (b & c & Hc).
  { destruct (cut ":" d) as [[b c]|] eqn:Hc; [eauto|]. apply cut_char_None in Hc.
    apply orb_true_iff in E as [[r ->]%HasPrefix_true|[r ->]%HasPrefix_true];
      by rewrite has_char_app in Hc. }
  rewrite SplitN_2, Hc. cbn. eauto.
Qed.

(** A command whose connection cannot be opened returns without a call. *)
Lemma commands_refused e name fn er args :
  Commands e name = Some fn → ∃ r, fn (Some er) args = Ret r ∧ ∀ act, r ≠ Do act.
Proof.
  intros Hfn. unfold Commands in Hfn.
  repeat (case_decide; [injection Hfn as <-|]); [..|done].
  - unfold shellFn. case_decide; by eexists.
  - unfold pushFn. case_decide; by eexists.
  - unfold pullFn. case_decide; by eexists.
  - unfold forwardFn. case_decide; by eexists.
  - unfold reverseFn. case_decide; by eexists.
  - by eexists.
  - by eexists.
  - unfold installFn. case_decide; [by eexists|]. in_range. destruct (open e _); by eexists.
  - unfold uninstallFn. case_decide; by eexists.
Qed.

(** The device of a command line is named and answers the dial. *)
Definition dialled (dial : string → string → option error) (p : ParsedArgs) : Prop :=
  Device p ≠ "" ∧ ∃ n a, device_addr (Device p) = Ret (n, a) ∧ dial n a = None.

Lemma runCommand_called e dial ge args p fn :
  cmdline "" args = Ret (Do p) → dialled dial p → Commands e (Command p) = Some fn →
  runCommand e dial ge args =
    let! r := fn ge (Args p) in
    match r with ParseError => Ret (Fallback args) | _ => Ret (Ran (Device p) r) end.
Proof.
  intros Hc (Hd & n & a & Ha & Hdial) Hfn. unfold runCommand. rewrite ParseCommand_cmdline, Hc.
  cbn [obind]. destruct (cmdline_suffix _ _ _ Hc) as (pre & rest & _ & HA).
  assert (0 < len (Args p)) as Hlen by (rewrite HA, len_cons; pose proof (len_nonneg rest); lia).
  rewrite decide_True by done. rewrite decide_False by done. rewrite Ha. cbn [obind].
  by rewrite Hdial, Hfn.
Qed.

Lemma cmdline_ends d args : cmdline d args ≠ Block.
Proof.
  remember (length args) as n eqn:Hn. assert (length args ≤ n)%nat as Hle by lia. clear Hn.
  revert d args Hle. induction n as [|n IH]; intros d args Hle; [by destruct args; [|cbn in Hle; lia]|].
  destruct args as [|a [|b l]]; [done|done|]. cbn [length] in Hle.
  change (cmdline d (a :: b :: l)) with
    (if unsupported a then Ret ParseError
     else if decide (a = "-s") then cmdline b l
     else if decide (a = "wait-for-device") then cmdline d (b :: l)
     else if skipped a then cmdline d l
     else Ret (Do (MkParsedArgs d a (a :: b :: l)))).
  destruct (unsupported a); [done|]. destruct (decide (a = "-s")); [apply IH; lia|].
  destruct (decide (a = "wait-for-device")); [apply IH; cbn; lia|].
  destruct (skipped a); [apply IH; lia|done].
Qed.

(** A run panics while it reads the options, falls back, or calls a command. *)
Lemma runCommand_cases e dial ge args :
  (cmdline "" args = Panic ∧ runCommand e dial ge args = Panic) ∨
  (cmdline "" args ≠ Panic ∧ runCommand e dial ge args = Ret (Fallback args)) ∨
  ∃ p fn, cmdline "" args = Ret (Do p) ∧ dialled dial p ∧ Commands e (Command p) = Some fn ∧
    0 < len (Args p).
Proof.
  unfold runCommand. rewrite ParseCommand_cmdline.
  destruct (cmdline "" args) as [[p| |f]| |] eqn:Hc; cbn [obind]; auto.
  2: by apply cmdline_ends in Hc.
  destruct (cmdline_suffix _ _ _ Hc) as (pre & rest & _ & HA).
  assert (0 < len (Args p)) as Hlen by (rewrite HA, len_cons; pose proof (len_nonneg rest); lia).
  rewrite (decide_True (P := 0 < _)) by done. case_decide as Hd; [by right; left|].
  destruct (device_addr_ret (Device p)) as (n & a & Ha). rewrite Ha. cbn [obind].
  destruct (dial n a) eqn:Hdial; [by right; left|].
  destruct (Commands e (Command p)) as [fn|] eqn:Hfn; [|by right; left].
  right; right. exists p, fn. split_and!; [done|split; [done|eauto]|done|done].
Qed.

(** [runCommand] panics, up to the call a command makes, on exactly these command lines: the
    global options use up all arguments, or the device answers, the connection opens, and the
    command is forward or reverse and stops short of an address it reads. *)
Lemma runCommand_panics e dial ge args :
  runCommand e dial ge args = Panic ↔
  cmdline "" args = Panic ∨
  ∃ p, cmdline "" args = Ret (Do p) ∧ dialled dial p ∧ ge = None ∧ short_command p.
Proof.
  destruct (runCommand_cases e dial ge args) as [[Hc Hr]|[[Hc Hr]|(p & fn & Hc & Hd & Hfn & Hlen)]].
  - naive_solver.
  - rewrite Hr. split; [done|]. intros [?|(p & Hp & Hd & -> & Hs)]; [done|].
    destruct (Commands e (Command p)) as [fn|] eqn:Hfn.
    + rewrite (runCommand_called _ _ _ _ p fn Hp Hd Hfn) in Hr.
      destruct (cmdline_suffix _ _ _ Hp) as (pre & rest & _ & HA).
      assert (0 < len (Args p)) as Hlen by (rewrite HA, len_cons; pose proof (len_nonneg rest); lia).
      by rewrite (proj2 (command_panics _ _ _ Hfn Hlen) Hs) in Hr.
    + by destruct Hs as [[H _]|[H _]]; rewrite H in Hfn.
  - rewrite (runCommand_called _ _ _ _ p fn Hc Hd Hfn).
    assert (fn ge (Args p) = Panic ↔ ge = None ∧ short_command p) as Hp.
    { destruct ge as [er|]; [destruct (commands_refused _ _ _ er (Args p) Hfn) as (r & -> & _); naive_solver|].
      rewrite (command_panics _ _ _ Hfn Hlen). naive_solver. }
    transitivity (fn ge (Args p) = Panic); [by destruct (fn ge (Args p)) as [[]| |]|]. rewrite Hp, Hc.
    split; [intros [Hg Hs]; right; by exists p|]. by intros [?|(q & [= <-] & _ & Hg & Hs)].
Qed.

(** ** Listing *)

(** An address [tcp:port] without a host. *)
Definition bare_tcp (addr : string) : Prop := ∃ p, addr = "tcp:" +:+ p ∧ has_char ":" p = false.

Lemma parseFwd_back_panics addr : parseFwd addr true = Panic ↔ bare_tcp addr.
Proof.
  unfold parseFwd, bare_tcp. destruct (HasPrefix addr "tcp:") eqn:E.
  - apply HasPrefix_true in E as [r ->]. unfold SplitN. cbn [split_loop].
    rewrite (cut_char ":" "tcp" r eq_refl : cut ":" ("tcp:" +:+ r) = _).
    destruct (cut ":" r) as [[x y]|] eqn:Hc.
    + split; [done|]. intros (p & Hp & Hn). apply (inj (String.append "tcp:")) in Hp as <-.
      by apply cut_char_None in Hn; rewrite Hn in Hc.
    + apply cut_char_None in Hc. split; [intros _; eauto|done].
  - assert (¬ ∃ p, addr = "tcp:" +:+ p ∧ has_char ":" p = false) as Hno.
    { intros (p & -> & _). by rewrite (proj2 (HasPrefix_true _ _)) in E by eauto. }
    split; [|done]. destruct (HasPrefix addr "unix:@") eqn:E1; [|destruct (HasPrefix addr "unix:") eqn:E2; [|done]].
    + apply HasPrefix_true in E1 as [r ->]. by rewrite (str_from_app "unix:@" r : str_from _ 6 = _).
    + apply HasPrefix_true in E2 as [r ->]. by rewrite (str_from_app "unix:" r : str_from _ 5 = _).
Qed.
