(* ===== verification/Transfer.v ===== *)
(** * Echo and file transfer

    [Echo], [Push] and [Pull] of src/waterfall/golang/server/server.go (lines 78-186) and of
    src/waterfall/golang/client/client.go (lines 31-204): the loops that carry a byte
    stream in messages.  What the tar code writes and reads is the other end of the pipe.
    The loops run on a measure of what is left to read. *)

From S2P Require Import Prelude GoIO Proto Stream.

Local Open Scope Z_scope.

(** [Transfer] *)
Record TransferMsg := MkTransfer {
  tr_path : string;
  tr_payload : list byte;
  tr_success : bool;
  tr_err : string;
}.

(** [constants.WriteBufferSize] *)
Definition WriteBufferSize : Z := 256 * 1024.

(** ** [Pull] *)

(** The sending loop of [Pull] with a buffer of [bsz] bytes. *)
Fixpoint Pull_loop (fuel : nat) (bsz : Z) (r : source) (o : Outs TransferMsg)
    : Outs TransferMsg * outcome (option error) :=
  match fuel with
  | O => (o, Block)
  | S f =>
      match ReadFull r bsz with
      | (_, Panic) => (o, Panic)
      | (_, Block) => (o, Block)
      | (r', Ret (bs, err)) =>
          let err := if decide (err = Some UnexpectedEOF) then Some EOF else err in
          if decide (err ≠ None ∧ err ≠ Some EOF) then (o, Ret err) else
          let '(o, sendErr) :=
            if decide (0 < len bs) then SendMsg o (MkTransfer "" bs false "") else (o, None) in
          match sendErr with
          | Some e => (o, Ret (Some e))
          | None => if decide (err = Some EOF) then (o, Ret None) else Pull_loop f bsz r' o
          end
      end
  end.

(** [Pull(t, rpc)] of the server: the stream of messages and the result; [r] is the reading
    end of the pipe the tar code writes to.  Each round but the last takes a full buffer. *)
Definition Pull (r : source) (o : Outs TransferMsg) : Outs TransferMsg * outcome (option error) :=
  Pull_loop (S (length (avail r))) WriteBufferSize r o.

(** [pullStream] of the client: the messages of the stream, its end, and the pipe. *)
Fixpoint pullStream (ms : list TransferMsg) (fin : option error) (w : sink)
    : sink * outcome (option error) :=
  match ms with
  | [] =>
      match fin with
      | None => (w, Block)
      | Some e => (w, Ret (if decide (e = EOF) then None else Some e))
      end
  | m :: ms' =>
      match sink_write w (tr_payload m) with
      | (w', (_, Some e)) => (w', Ret (Some e))
      | (w', (_, None)) => pullStream ms' fin w'
      end
  end.

(** ** [Push] *)

(** The reading end of an [io.Pipe]: the slices its writer writes, one at a time, then
    [pfin]. *)
Record pipe := MkPipe { chunks : list (list byte); pfin : option error }.

(** [r.Read(buff)] with [len(buff) = n]: at most [n] bytes of the slice being written. *)
Definition pipe_Read (p : pipe) (n : Z) : pipe * outcome (list byte * option error) :=
  match chunks p with
  | [] => match pfin p with None => (p, Block) | Some e => (p, Ret ([], Some e)) end
  | c :: cs =>
      let rest := drop (Z.to_nat n) c in
      (MkPipe (match rest with [] => cs | _ => rest :: cs end) (pfin p),
       Ret (take (Z.to_nat n) c, None))
  end.

(** How the client's sending loop ends: it closes the stream to receive the response, or
    it returns an error. *)
Inductive push_end := CloseAndRecv | PushErr (e : error).

(** The loop of [pushTar] with a buffer of [bsz] bytes. *)
Fixpoint pushTar_loop (fuel : nat) (bsz : Z) (dst : string) (p : pipe) (o : Outs TransferMsg)
    : Outs TransferMsg * outcome push_end :=
  match fuel with
  | O => (o, Block)
  | S f =>
      match pipe_Read p bsz with
      | (_, Panic) => (o, Panic)
      | (_, Block) => (o, Block)
      | (p', Ret (bs, err)) =>
          match err with
          | Some e =>
              if decide (e ≠ EOF) then (o, Ret (PushErr e)) else
              let '(o, sendErr) :=
                if decide (0 < len bs) then SendMsg o (MkTransfer dst bs false "") else (o, None) in
              match sendErr with
              | Some e => (o, Ret (PushErr e))
              | None => (o, Ret CloseAndRecv)
              end
          | None =>
              let '(o, sendErr) :=
                if decide (0 < len bs) then SendMsg o (MkTransfer dst bs false "") else (o, None) in
              match sendErr with
              | Some e => (o, Ret (PushErr e))
              | None => pushTar_loop f bsz dst p' o
              end
          end
      end
  end.

Definition pipe_size (p : pipe) : nat := (length (mjoin (chunks p)) + length (chunks p) + 1)%nat.

(** [pushTar(ctx, eg, client, r, dst)] *)
Definition pushTar (dst : string) (p : pipe) (o : Outs TransferMsg)
    : Outs TransferMsg * outcome push_end :=
  pushTar_loop (pipe_size p) (64 * 1024) dst p o.

(** What the client makes of the response. *)
Definition push_result (r : TransferMsg) : option error :=
  if tr_success r then None else Some (ErrorString (tr_err r)).

(** The receiving goroutine of the server's [Push]: it writes [xfer], then what [Recv]
    gives; [w] is the writing end of the pipe to the tar code. *)
Fixpoint Push_loop (xfer : TransferMsg) (ms : list TransferMsg) (fin : option error) (w : sink)
    : sink * outcome (result TransferMsg) :=
  match sink_write w (tr_payload xfer) with
  | (w', (_, Some e)) => (w', Ret (Ok (MkTransfer "" [] false (Error e))))
  | (w', (_, None)) =>
      match ms with
      | m :: ms' => Push_loop m ms' fin w'
      | [] =>
          match fin with
          | None => (w', Block)
          | Some e =>
              (w', Ret (if decide (e = EOF) then Ok (MkTransfer "" [] true "") else Err e))
          end
      end
  end.

(** [Push(rpc)] of the server: the path the tar code unpacks to, what it is fed, and the
    response or the error. *)
Definition Push (ms : list TransferMsg) (fin : option error) (w : sink)
    : outcome (string * sink * result TransferMsg) :=
  match ms with
  | [] => match fin with None => Block | Some e => Ret ("", w, Err e) end
  | m :: ms' =>
      let '(w, r) := Push_loop m ms' fin w in
      match r with
      | Ret r => Ret (tr_path m, w, r)
      | Panic => Panic
      | Block => Block
      end
  end.

(** ** [Echo] *)

(** [Echo(stream)] of the server: it sends back what it receives. *)
Fixpoint Echo (ms : list Message) (fin : option error) (o : Outs Message)
    : Outs Message * outcome (option error) :=
  match ms with
  | [] =>
      match fin with
      | None => (o, Block)
      | Some e => (o, Ret (if decide (e = EOF) then None else Some e))
      end
  | m :: ms' =>
      match SendMsg o m with
      | (o', Some e) => (o', Ret (Some e))
      | (o', None) => Echo ms' fin o'
      end
  end.

(** The sending goroutine of the client's [Echo]: [bytes.Buffer.Read] into [bsz] bytes. *)
Fixpoint Echo_send (fuel : nat) (bsz : Z) (b : list byte) (o : Outs Message)
    : Outs Message * outcome (option error) :=
  match fuel with
  | O => (o, Block)
  | S f =>
      match b with
      | [] => (o, Ret None)
      | _ =>
          match SendMsg o (MkMessage (take (Z.to_nat bsz) b)) with
          | (o', Some e) => (o', Ret (Some e))
          | (o', None) => Echo_send f bsz (drop (Z.to_nat bsz) b) o'
          end
      end
  end.

(** The receiving goroutine: the bytes it collects. *)
Fixpoint Echo_recv (ms : list Message) (fin : option error) (rec : list byte)
    : outcome (result (list byte)) :=
  match ms with
  | [] =>
      match fin with
      | None => Block
      | Some e => Ret (if decide (e = EOF) then Ok rec else Err e)
      end
  | m :: ms' => Echo_recv ms' fin (rec ++ Message_payload m)
  end.

(** [Echo(ctx, client, r)] of the client against the server, both streams healthy. *)
Definition Echo_client (r : list byte) : outcome (result (list byte)) :=
  let '(up, _) := Echo_send (S (length r)) (32 * 1024) r (MkOuts [] None) in
  let '(down, _) := Echo (sent up) (Some EOF) (MkOuts [] None) in
  Echo_recv (sent down) (Some EOF) [].

(** ** Lemmas *)

Definition payloads (ms : list TransferMsg) : list byte := mjoin (tr_payload <$> ms).

(** ** No loop of a transfer panics *)

Lemma Pull_loop_safe fuel bsz r o : snd (Pull_loop fuel bsz r o) ≠ Panic.
Proof.
  revert r o. induction fuel as [|f IH]; intros r o; [done|]. cbn [Pull_loop]. unfold ReadFull.
  destruct (decide (bsz ≤ len (avail r))); [|destruct (fin r) as [e|]; [|done]].
  all: cbn zeta; repeat (case_decide; try done); try apply IH.
  all: destruct (SendMsg o _) as [o' [e'|]]; try done; apply IH.
Qed.

Lemma pullStream_safe ms fin w : snd (pullStream ms fin w) ≠ Panic.
Proof.
  revert w. induction ms as [|m ms IH]; intros w; cbn [pullStream]; [by destruct fin|].
  destruct (sink_write w (tr_payload m)) as [w' [n [e|]]]; [done|apply IH].
Qed.

Lemma pushTar_loop_safe fuel bsz dst p o : snd (pushTar_loop fuel bsz dst p o) ≠ Panic.
Proof.
  revert p o. induction fuel as [|f IH]; intros p o; [done|]. cbn [pushTar_loop]. unfold pipe_Read.
  destruct (chunks p) as [|c cs]; [destruct (pfin p) as [e|]; [|done]|].
  all: repeat (case_decide; try done); try apply IH.
  all: destruct (SendMsg o _) as [o' [e'|]]; try done; apply IH.
Qed.

Lemma Push_loop_safe m ms fin w : snd (Push_loop m ms fin w) ≠ Panic.
Proof.
  revert m w. induction ms as [|m' ms IH]; intros m w; cbn [Push_loop];
    destruct (sink_write w (tr_payload m)) as [w' [n [e|]]]; first [done|by destruct fin|apply IH].
Qed.

Lemma payloads_cons m ms : payloads (m :: ms) = tr_payload m ++ payloads ms.
Proof. reflexivity. Qed.

Lemma mjoin_cons (c : list byte) cs : mjoin (c :: cs) = c ++ mjoin cs.
Proof. reflexivity. Qed.

Lemma SendMsg_healthy {M} (o : Outs M) m :
  sendFail o = None → SendMsg o m = (MkOuts (sent o ++ [m]) None, None).
Proof. intros H. unfold SendMsg. by rewrite H. Qed.

Lemma Pull_loop_spec fuel bsz b o :
  0 < bsz → (length b < fuel)%nat → sendFail o = None →
  ∃ ms, Pull_loop fuel bsz (MkSource b (Some EOF)) o = (MkOuts (sent o ++ ms) None, Ret None) ∧
    payloads ms = b ∧ Forall (λ m, 1 ≤ len (tr_payload m) ≤ bsz) ms.
Proof.
  intros Hb. revert b o. induction fuel as [|f IH]; intros b o Hf Ho; [lia|].
  cbn [Pull_loop]. unfold ReadFull. cbn [avail fin]. case_decide as Hle.
  - rewrite (decide_False (P := None = Some UnexpectedEOF)) by done.
    rewrite decide_False by naive_solver. rewrite len_take by lia.
    rewrite decide_True by lia. rewrite SendMsg_healthy by done.
    rewrite decide_False by done.
    destruct (IH (drop (Z.to_nat bsz) b)
      (MkOuts (sent o ++ [MkTransfer "" (take (Z.to_nat bsz) b) false ""]) None))
      as (ms & -> & Hp & Hm); [rewrite length_drop; unfold len in Hle; lia|done|].
    exists (MkTransfer "" (take (Z.to_nat bsz) b) false "" :: ms). cbn [sent].
    split_and!; [by rewrite <- app_assoc| |].
    + rewrite payloads_cons, Hp. apply take_drop.
    + constructor; [|done]. cbn. rewrite len_take by lia. lia.
  - destruct b as [|x b].
    + exists []. rewrite app_nil_r. split_and!; [|done|done]. by destruct o; cbn in *; subst.
    + rewrite (decide_True (P := EOF = EOF ∧ _)) by done. rewrite (decide_True (P := _ = _)) by done.
      rewrite (decide_False (P := _ ∧ _)) by naive_solver. rewrite decide_True by llia.
      rewrite SendMsg_healthy by done. rewrite decide_True by done.
      eexists [_]. split_and!; [done|rewrite payloads_cons; apply app_nil_r|].
      constructor; [|done]. cbn -[len]. split; [llia|lia].
Qed.

Lemma pullStream_spec ms w :
  quota w = None →
  pullStream ms (Some EOF) w = (MkSink (taken w ++ payloads ms) None, Ret None).
Proof.
  revert w. induction ms as [|m ms IH]; intros w Hw; cbn [pullStream].
  - rewrite decide_True by done. unfold payloads. cbn. rewrite app_nil_r. by destruct w; cbn in *; subst.
  - rewrite sink_write_healthy by done. rewrite IH by done. cbn [taken].
    by rewrite payloads_cons, app_assoc.
Qed.

Lemma pipe_Read_spec p n c cs :
  0 < n → chunks p = c :: cs →
  ∃ p', pipe_Read p n = (p', Ret (take (Z.to_nat n) c, None)) ∧ pfin p' = pfin p ∧
    take (Z.to_nat n) c ++ mjoin (chunks p') = mjoin (chunks p) ∧
    (pipe_size p' < pipe_size p)%nat.
Proof.
  intros Hn Hc. unfold pipe_Read. rewrite Hc. eexists. split; [done|]. cbn [chunks pfin].
  split; [done|]. unfold pipe_size. rewrite Hc. cbn [chunks]. rewrite mjoin_cons, length_app.
  pose proof (take_drop (Z.to_nat n) c) as Htd.
  assert (length (take (Z.to_nat n) c) + length (drop (Z.to_nat n) c) = length c)%nat as Hl
    by (rewrite <- length_app, Htd; done).
  destruct (drop (Z.to_nat n) c) as [|x rest] eqn:Hd.
  - rewrite app_nil_r in Htd. rewrite Htd. split; [done|cbn [length]; lia].
  - rewrite mjoin_cons. split; [by rewrite <- Htd at 2; rewrite <- app_assoc|].
    rewrite length_app. cbn [length] in *.
    assert (length (take (Z.to_nat n) c) ≠ 0)%nat; [|lia]. rewrite length_take.
    assert (length c ≠ 0)%nat by (intros ?; destruct c; [by rewrite drop_nil in Hd|done]). lia.
Qed.

Lemma pushTar_loop_spec fuel bsz dst p o :
  0 < bsz → (pipe_size p ≤ fuel)%nat → pfin p = Some EOF → sendFail o = None →
  ∃ ms, pushTar_loop fuel bsz dst p o = (MkOuts (sent o ++ ms) None, Ret CloseAndRecv) ∧
    payloads ms = mjoin (chunks p) ∧
    Forall (λ m, tr_path m = dst ∧ 1 ≤ len (tr_payload m) ≤ bsz) ms.
Proof.
  intros Hb. revert p o. induction fuel as [|f IH]; intros p o Hf Hfin Ho.
  { unfold pipe_size in Hf. lia. }
  cbn [pushTar_loop]. destruct (chunks p) as [|c cs] eqn:Hc.
  - unfold pipe_Read. rewrite Hc, Hfin. rewrite decide_False by naive_solver. cbn.
    exists []. rewrite app_nil_r. split_and!; [by destruct o; cbn in *; subst|done|done].
  - destruct (pipe_Read_spec p bsz c cs Hb Hc) as (p' & -> & Hfin' & Hj & Hs).
    rewrite Hfin in Hfin'. rewrite Hc in Hj.
    set (bs := take (Z.to_nat bsz) c) in *. case_decide as Hl.
    + rewrite SendMsg_healthy by done.
      destruct (IH p' (MkOuts (sent o ++ [MkTransfer dst bs false ""]) None))
        as (ms & -> & Hp & Hm); [lia|done|done|].
      exists (MkTransfer dst bs false "" :: ms). cbn [sent].
      split_and!; [by rewrite <- app_assoc|by rewrite payloads_cons, Hp|].
      constructor; [|done]. cbn. split; [done|]. split; [lia|].
      unfold bs, len. rewrite length_take. lia.
    + destruct (IH p' o) as (ms & -> & Hp & Hm); [lia|done|done|].
      exists ms. split_and!; [done| |done]. rewrite Hp, <- Hj.
      assert (bs = []) as ->; [|done]. apply len_zero_nil. pose proof (len_nonneg bs). lia.
Qed.

Lemma Push_loop_spec m ms w :
  quota w = None →
  Push_loop m ms (Some EOF) w =
  (MkSink (taken w ++ payloads (m :: ms)) None, Ret (Ok (MkTransfer "" [] true ""))).
Proof.
  revert m w. induction ms as [|m' ms IH]; intros m w Hw; cbn [Push_loop];
    rewrite sink_write_healthy by done.
  - rewrite decide_True by done. rewrite payloads_cons. by rewrite (app_nil_r (tr_payload m) : _ ++ payloads [] = _).
  - rewrite IH by done. cbn [taken]. by rewrite (payloads_cons m (m' :: ms)), app_assoc.
Qed.

Lemma Echo_spec ms o :
  sendFail o = None → Echo ms (Some EOF) o = (MkOuts (sent o ++ ms) None, Ret None).
Proof.
  revert o. induction ms as [|m ms IH]; intros o Ho; cbn [Echo].
  - rewrite decide_True, app_nil_r by done. by destruct o; cbn in *; subst.
  - rewrite SendMsg_healthy, IH by done. cbn. by rewrite <- app_assoc.
Qed.

Lemma Echo_send_spec fuel bsz b o :
  0 < bsz → (length b < fuel)%nat → sendFail o = None →
  ∃ ms, Echo_send fuel bsz b o = (MkOuts (sent o ++ ms) None, Ret None) ∧
    mjoin (Message_payload <$> ms) = b.
Proof.
  intros Hb. revert b o. induction fuel as [|f IH]; intros b o Hf Ho; [lia|].
  cbn [Echo_send]. destruct b as [|x b].
  - exists []. rewrite app_nil_r. split; [|done]. by destruct o; cbn in *; subst.
  - rewrite SendMsg_healthy by done.
    destruct (IH (drop (Z.to_nat bsz) (x :: b))
      (MkOuts (sent o ++ [MkMessage (take (Z.to_nat bsz) (x :: b))]) None))
      as (ms & -> & Hj); [rewrite length_drop; cbn in *; lia|done|].
    exists (MkMessage (take (Z.to_nat bsz) (x :: b)) :: ms). cbn [sent].
    split; [by rewrite <- app_assoc|]. rewrite fmap_cons, mjoin_cons, Hj. apply take_drop.
Qed.

Lemma Echo_recv_spec ms rec :
  Echo_recv ms (Some EOF) rec = Ret (Ok (rec ++ mjoin (Message_payload <$> ms))).
Proof.
  revert rec. induction ms as [|m ms IH]; intros rec; cbn [Echo_recv].
  - rewrite decide_True by done. cbn. by rewrite app_nil_r.
  - rewrite IH. by rewrite fmap_cons, mjoin_cons, app_assoc.
Qed.

(** What the server's tar code writes reaches the client's. *)
Lemma pull_carries b w :
  quota w = None →
  ∃ o, Pull (MkSource b (Some EOF)) (MkOuts [] None) = (o, Ret None) ∧
    Forall (λ m, 1 ≤ len (tr_payload m) ≤ WriteBufferSize) (sent o) ∧
    pullStream (sent o) (Some EOF) w = (MkSink (taken w ++ b) None, Ret None).
Proof.
  intros Hw. unfold Pull. cbn [avail].
  destruct (Pull_loop_spec (S (length b)) WriteBufferSize b (MkOuts [] None))
    as (ms & -> & Hp & Hm); [done|lia|done|].
  eexists. split; [done|]. cbn [sent app]. split; [done|]. by rewrite pullStream_spec, Hp.
Qed.

(** What the client's tar code writes reaches the server's, in messages that name [dst]. *)
Lemma push_carries cs dst :
  mjoin cs ≠ [] →
  ∃ m ms, pushTar dst (MkPipe cs (Some EOF)) (MkOuts [] None) = (MkOuts (m :: ms) None, Ret CloseAndRecv) ∧
    payloads (m :: ms) = mjoin cs ∧ Forall (λ m, tr_path m = dst) (m :: ms).
Proof.
  intros Hne. unfold pushTar.
  destruct (pushTar_loop_spec (pipe_size (MkPipe cs (Some EOF))) (64 * 1024) dst
    (MkPipe cs (Some EOF)) (MkOuts [] None)) as (ms & -> & Hp & Hm); [lia|lia|done|done|].
  cbn [chunks] in Hp. destruct ms as [|m ms]; [by rewrite <- Hp in Hne|].
  exists m, ms. split_and!; [done|done|]. eapply Forall_impl; [|exact Hm]. by intros x [? _].
Qed.

(** ** Theorems *)

(** Pulling loses nothing: whatever bytes the tar code of the server writes, [Pull]
    returns nil after sending them in messages of between one byte and the buffer size, and
    the client's [pullStream] feeds exactly those bytes to its own tar code. *)
Theorem pull_roundtrip b w :
  quota w = None →
  ∃ o, Pull (MkSource b (Some EOF)) (MkOuts [] None) = (o, Ret None) ∧
    Forall (λ m, 1 ≤ len (tr_payload m) ≤ WriteBufferSize) (sent o) ∧
    pullStream (sent o) (Some EOF) w = (MkSink (taken w ++ b) None, Ret None).
Proof. apply pull_carries. Qed.

Lemma pull_roundtrip_witness : ∃ o,
  pullStream (sent o) (Some EOF) (MkSink [] None) = (MkSink ["a"%char; "b"%char] None, Ret None).
Proof.
  destruct (pull_roundtrip ["a"%char; "b"%char] (MkSink [] None) eq_refl) as (o & _ & _ & H).
  exists o. exact H.
Defined.

(** Pushing loses nothing: however the client's tar code cuts its output into writes, the
    messages all name the destination, the server feeds exactly those bytes to the tar code
    that unpacks there, and its answer makes the client return nil. *)
Theorem push_roundtrip cs dst w :
  quota w = None → mjoin cs ≠ [] →
  ∃ o resp, pushTar dst (MkPipe cs (Some EOF)) (MkOuts [] None) = (o, Ret CloseAndRecv) ∧
    Push (sent o) (Some EOF) w = Ret (dst, MkSink (taken w ++ mjoin cs) None, Ok resp) ∧
    push_result resp = None.
Proof.
  intros Hw Hne. destruct (push_carries cs dst Hne) as (m & ms & -> & Hp & Hm).
  eexists. exists (MkTransfer "" [] true ""). split; [done|]. cbn [sent]. split; [|done].
  cbn [Push]. rewrite Push_loop_spec, Hp by done. by apply Forall_cons_1 in Hm as [-> _].
Qed.

Lemma push_roundtrip_witness : ∃ o resp,
  Push (sent o) (Some EOF) (MkSink [] None) =
    Ret ("/data/x", MkSink ["a"%char; "b"%char; "c"%char] None, Ok resp).
Proof.
  destruct (push_roundtrip [["a"%char; "b"%char]; []; ["c"%char]] "/data/x" (MkSink [] None)
    eq_refl) as (o & resp & _ & H & _); [discriminate|].
  exists o, resp. exact H.
Defined.

(** [Echo] gives back what was sent, for every input and however it is cut in messages. *)
Theorem echo_roundtrip r : Echo_client r = Ret (Ok r).
Proof.
  unfold Echo_client.
  destruct (Echo_send_spec (S (length r)) (32 * 1024) r (MkOuts [] None))
    as (ms & -> & Hj); [lia|lia|done|].
  rewrite Echo_spec by done. cbn [sent app]. by rewrite Echo_recv_spec, Hj.
Qed.
