(* ===== verification/TransferTree.v ===== *)
(** * Sending trees: push and pull from file system to file system

    [Push], [PushBytes], [Pull] and [PullBytes] of src/waterfall/golang/client/client.go and
    [Push] and [Pull] of src/waterfall/golang/server/server.go, with the tar code of [Tar] on
    both ends of the loops of [Transfer].  The goroutines of one call are joined by a pipe and
    run to their ends, so each call is the composition of its two halves; which of two errors
    [errgroup.Wait] returns is the argument [first].  The byte format of [archive/tar] is the
    class [TarFormat]. *)

From S2P Require Import Prelude GoStrings GoIO Filepath Fs Tar TarRoundtrip Proto Stream Transfer.

Local Open Scope Z_scope.

(** ** The tar format *)

(** [tar_emit]: the writes a [tar.Writer] makes for its entries, [Close] included;
    [tar_read]: what a [tar.Reader] makes of a stream of bytes. *)
Class TarFormat := {
  tar_emit : TarWriter → list (list byte);
  tar_read : list byte → TarReader;
}.

Definition NUL : ascii := Ascii.ascii_of_nat 0.

(** Entries that archive/tar reads back as they were written: regular files with contents of the
    announced size, and directories and links without contents (the reader skips what follows
    such a header, and never returns the old type of regular files); no NUL in names. *)
Definition representable_entry (e : Header * list byte) : Prop :=
  match hTypeflag e.1 with
  | TypeReg => len e.2 = hSize e.1
  | TypeDir | TypeSymlink => hSize e.1 = 0 ∧ e.2 = []
  | TypeRegA | TypeOther => False
  end ∧ has_char NUL (hName e.1) = false ∧ has_char NUL (hLinkname e.1) = false.

Definition representable (tw : TarWriter) : Prop := Forall representable_entry (tw_entries tw).

(** What the package documents: reading gives back such entries as they were written; an archive
    ends with two blocks, so it is never empty. *)
Class TarFormatLaws `{TarFormat} := {
  tar_read_emit tw : representable tw → tar_read (mjoin (tar_emit tw)) = tw_reader tw;
  tar_emit_ne tw : mjoin (tar_emit tw) ≠ [];
}.

(** [eg.Wait()] for two functions: the error of the one that failed first. *)
Definition eg_Wait (first : bool) (e1 e2 : option error) : option error :=
  match e1, e2 with
  | Some _, Some _ => if first then e1 else e2
  | Some e, None | None, Some e => Some e
  | None, None => None
  end.

(** ** The calls *)

Section calls.
Context `{TarFormat}.
Context (hostRefuse devRefuse : Refusal).

(** [Push(rpc)] of the server on the messages of the stream: the device's files afterwards, and
    what the client's [CloseAndRecv] returns.  When the tar code fails it closes the pipe with
    its error after [stop] bytes, and the handler returns an error. *)
Definition server_Push (first : bool) (stop : Z) (dev : FS) (ms : list TransferMsg) (fin : error)
    : FS * outcome (result TransferMsg) :=
  match ms with
  | [] => (dev, Ret (Err fin))
  | m :: ms' =>
      let '(dev', uerr) := Untar devRefuse dev (tar_read (payloads ms)) (tr_path m) in
      let w := MkSink [] (match uerr with None => None | Some e => Some (stop, e) end) in
      match Push_loop m ms' (Some fin) w with
      | (_, Ret r) =>
          let lerr := match r with Err e => Some e | Ok _ => None end in
          (dev', Ret (match eg_Wait first uerr lerr, r with
                      | Some e, _ => Err e
                      | None, Ok resp => Ok resp
                      | None, Err e => Err e
                      end))
      | (_, Panic) => (dev', Panic)
      | (_, Block) => (dev', Block)
      end
  end.

(** The client's half of a push: what the archive [tw] is cut into, the server's answer, and
    the result of the whole call, given the error [terr] of the tar code. *)
Definition push_archive (first sfirst : bool) (stop : Z) (tw : TarWriter) (terr : option error)
    (dev : FS) (dst : string) : FS * outcome (option error) :=
  match pushTar dst (MkPipe (tar_emit tw) (Some EOF)) (MkOuts [] None) with
  | (o, Ret CloseAndRecv) =>
      match server_Push sfirst stop dev (sent o) EOF with
      | (dev', Ret (Ok resp)) => (dev', Ret (eg_Wait first terr (push_result resp)))
      | (dev', Ret (Err e)) => (dev', Ret (eg_Wait first terr (Some e)))
      | (dev', Panic) => (dev', Panic)
      | (dev', Block) => (dev', Block)
      end
  | (_, Ret (PushErr e)) => (dev, Ret (eg_Wait first terr (Some e)))
  | (_, Panic) => (dev, Panic)
  | (_, Block) => (dev, Block)
  end.

(** [Push(ctx, client, src, dst)] *)
Definition client_Push (first sfirst : bool) (stop : Z) (host dev : FS) (src dst : string)
    : FS * outcome (option error) :=
  let '(tw, terr) := Tar hostRefuse host (MkTarWriter [] None) src in
  push_archive first sfirst stop tw terr dev dst.

(** [PushBytes(ctx, client, srcBytes, dst)] *)
Definition client_PushBytes (first sfirst : bool) (stop : Z) (dev : FS) (srcBytes : list byte) (dst : string)
    : FS * outcome (option error) :=
  let '(tw, terr) := TarBytes (MkTarWriter [] None) srcBytes in
  push_archive first sfirst stop tw terr dev dst.

(** [Pull(t, rpc)] of the server: the messages and the error of the handler. *)
Definition server_Pull (first : bool) (dev : FS) (path : string)
    : list TransferMsg * outcome (option error) :=
  match Stat devRefuse dev path with
  | inl ENOENT => ([], Ret (Some (PathError "stat" path ENOENT)))
  | _ =>
      let '(tw, terr) := Tar devRefuse dev (MkTarWriter [] None) path in
      let '(o, r) := Pull (MkSource (mjoin (tar_emit tw)) (Some EOF)) (MkOuts [] None) in
      match r with
      | Ret lerr => (sent o, Ret (eg_Wait first terr lerr))
      | Panic => (sent o, Panic)
      | Block => (sent o, Block)
      end
  end.

(** The client's half of a pull: the error of [pullStream] and the bytes for the tar code. *)
Definition pull_bytes (sfirst : bool) (dev : FS) (src : string) : outcome (option error * list byte) :=
  match server_Pull sfirst dev src with
  | (ms, Ret herr) =>
      let fin := match herr with None => EOF | Some e => e end in
      match pullStream ms (Some fin) (MkSink [] None) with
      | (w, Ret e) => Ret (e, taken w)
      | (_, Panic) => Panic
      | (_, Block) => Block
      end
  | (_, Panic) => Panic
  | (_, Block) => Block
  end.

(** [Pull(ctx, client, src, dst)] *)
Definition client_Pull (first sfirst : bool) (host dev : FS) (src dst : string)
    : FS * outcome (option error) :=
  match Stat hostRefuse host (Dir dst) with
  | inl e => (host, Ret (Some (PathError "stat" (Dir dst) e)))
  | inr _ =>
      match pull_bytes sfirst dev src with
      | Ret (serr, b) =>
          let '(host', uerr) := Untar hostRefuse host (tar_read b) dst in
          (host', Ret (eg_Wait first serr uerr))
      | Panic => (host, Panic)
      | Block => (host, Block)
      end
  end.

(** [PullBytes(ctx, client, dst, src)] *)
Definition client_PullBytes (first sfirst : bool) (dst : sink) (dev : FS) (src : string)
    : sink * outcome (option error) :=
  match pull_bytes sfirst dev src with
  | Ret (serr, b) =>
      let '(dst', uerr) := UntarBytes dst (tar_read b) in
      (dst', Ret (eg_Wait first serr uerr))
  | Panic => (dst, Panic)
  | Block => (dst, Block)
  end.

End calls.

(** ** Lemmas *)

Lemma has_char_Join c l sep :
  has_char c sep = false → Forall (λ s, has_char c s = false) l → has_char c (Join l sep) = false.
Proof.
  intros Hs. induction 1 as [|x l Hx Hl IH]; [done|].
  destruct l as [|y l]; [done|]. rewrite Join_cons by done. by rewrite !has_char_app, Hx, Hs, IH.
Qed.

Lemma eg_Wait_None first e1 e2 : eg_Wait first e1 e2 = None ↔ e1 = None ∧ e2 = None.
Proof. destruct e1, e2, first; cbn; naive_solver. Qed.

Lemma Push_loop_ret m ms fin w : ∃ w' r, Push_loop m ms (Some fin) w = (w', Ret r).
Proof.
  revert m w. induction ms as [|m' ms IH]; intros m w; cbn [Push_loop];
    destruct (sink_write w (tr_payload m)) as [w' [n [e|]]]; eauto.
Qed.

(** No name below [s] or of [s] itself has a NUL byte. *)
Definition nul_free (t : gmap loc node) (s0 : loc) (b : string) : Prop :=
  ∀ r n, t !! ((s0 ++ [b]) ++ r) = Some n → Forall (λ c, has_char NUL c = false) (b :: r).

Lemma listing_representable h s0 b n tf :
  wf_tree h → h !! (s0 ++ [b]) = Some n → nul_free h s0 b →
  representable (MkTarWriter ((λ e, plain_entry (rel_path (b :: e.1)) e.2) <$>
    walk_list (S (size h)) h (s0 ++ [b]) [] n) tf).
Proof.
  intros Hwf Hn Hnul. apply Forall_in. cbn [tw_entries].
  intros e ([r m] & -> & Hin%listing_mem)%list_elem_of_fmap; [|done|done].
  apply Hnul in Hin. cbn [fst snd].
  assert (has_char NUL (rel_path (b :: r)) = false) by (by apply has_char_Join).
  by destruct m.
Qed.

Section theorems.
Context `{Hfmt : TarFormat}.

(** What reaches the server of a healthy push, and what it makes of it. *)
Lemma server_Push_spec refuse first stop dev m ms dev' :
  Untar refuse dev (tar_read (payloads (m :: ms))) (tr_path m) = (dev', None) →
  server_Push refuse first stop dev (m :: ms) EOF = (dev', Ret (Ok (MkTransfer "" [] true ""))).
Proof. intros HU. unfold server_Push. rewrite HU. by rewrite Push_loop_spec. Qed.

Lemma push_archive_ok refuse first sfirst stop tw dev dst dev' :
  mjoin (tar_emit tw) ≠ [] →
  Untar refuse dev (tar_read (mjoin (tar_emit tw))) dst = (dev', None) →
  push_archive refuse first sfirst stop tw None dev dst = (dev', Ret None).
Proof.
  intros Hne HU. unfold push_archive.
  destruct (push_carries (tar_emit tw) dst Hne) as (m & ms & -> & Hp & Hm). cbn [sent].
  rewrite (server_Push_spec _ _ _ _ _ _ dev'); [done|].
  apply Forall_cons_1 in Hm as [-> _]. by rewrite Hp.
Qed.

(** The server reports success only when its tar code succeeded. *)
Lemma server_Push_success refuse first stop dev m ms fin dev' resp :
  server_Push refuse first stop dev (m :: ms) fin = (dev', Ret (Ok resp)) →
  Untar refuse dev (tar_read (payloads (m :: ms))) (tr_path m) = (dev', None).
Proof.
  unfold server_Push.
  destruct (Untar refuse dev (tar_read (payloads (m :: ms))) (tr_path m)) as [dev1 uerr].
  destruct (Push_loop_ret m ms fin (MkSink [] match uerr with None => None | Some e => Some (stop, e) end))
    as (w & r & ->).
  intros [= -> Hr]. destruct (eg_Wait first uerr _) eqn:E; [done|].
  by apply eg_Wait_None in E as [-> _].
Qed.

Lemma push_archive_nil refuse first sfirst stop tw terr dev dst dev' :
  push_archive refuse first sfirst stop tw terr dev dst = (dev', Ret None) →
  terr = None ∧ Untar refuse dev (tar_read (mjoin (tar_emit tw))) dst = (dev', None).
Proof.
  unfold push_archive, pushTar.
  destruct (pushTar_loop_spec (pipe_size (MkPipe (tar_emit tw) (Some EOF))) (64 * 1024) dst
    (MkPipe (tar_emit tw) (Some EOF)) (MkOuts [] None)) as (ms & -> & Hp & Hm); [lia|lia|done|done|].
  cbn [sent app chunks] in *. destruct ms as [|m ms].
  { cbn. intros [= <- ?%eg_Wait_None]. naive_solver. }
  destruct (server_Push refuse sfirst stop dev (m :: ms) EOF) as [dev1 [[resp|e]| |]] eqn:E; try done;
    intros [= -> [-> ?]%eg_Wait_None]; [|done].
  split; [done|]. apply server_Push_success in E. rewrite Hp in E.
  by apply Forall_cons_1 in Hm as [[<- _] _].
Qed.

Lemma pull_bytes_ok refuse sfirst dev src n tw :
  Stat refuse dev src = inr n → Tar refuse dev (MkTarWriter [] None) src = (tw, None) →
  pull_bytes refuse sfirst dev src = Ret (None, mjoin (tar_emit tw)).
Proof.
  intros HS HT. unfold pull_bytes, server_Pull. rewrite HS, HT.
  destruct (pull_carries (mjoin (tar_emit tw)) (MkSink [] None) eq_refl) as (o & -> & _ & Ho).
  cbn [eg_Wait]. by rewrite Ho.
Qed.

(** ** Properties *)

Context `{!TarFormatLaws}.

(** A push of a tree, for the calls that use it. *)
Lemma push_tree first sfirst stop host s0 b n dev d :
  wf_tree (tree host) → plain_below (s0 ++ [b]) (tree host) → tree host !! (s0 ++ [b]) = Some n →
  nul_free (tree host) s0 b →
  wf_tree (tree dev) → Forall good_name d → plain_below d (tree dev) →
  let D := target (tree dev) d b in
  tree dev !! D = None → look (tree dev) (parent D) = Some NDir → D ≠ [] →
  ∃ dev', client_Push no_refusal no_refusal first sfirst stop host dev
            (abs_path (s0 ++ [b])) (abs_path d) = (dev', Ret None) ∧
    (∀ r, tree dev' !! (D ++ r) = tree host !! ((s0 ++ [b]) ++ r)) ∧
    (∀ p, ¬ below D p → tree dev' !! p = tree dev !! p).
Proof.
  intros Hh Hhl Hn Hnul Hwf Hd Hpl D HD HpD HDne.
  destruct (tar_untar_tree host s0 b n dev d) as (dev' & HT & HU & Hres); try done.
  exists dev'. split; [|done]. unfold client_Push. rewrite HT.
  apply push_archive_ok; [apply tar_emit_ne|].
  rewrite tar_read_emit; [done|]. by apply listing_representable.
Qed.

(** The same for a pull. *)
Lemma pull_tree first sfirst host s0 b n dev d :
  wf_tree (tree dev) → plain_below (s0 ++ [b]) (tree dev) → tree dev !! (s0 ++ [b]) = Some n →
  nul_free (tree dev) s0 b →
  wf_tree (tree host) → Forall good_name d → plain_below d (tree host) →
  let D := target (tree host) d b in
  tree host !! D = None → look (tree host) (parent D) = Some NDir → D ≠ [] →
  ∃ host', client_Pull no_refusal no_refusal first sfirst host dev
             (abs_path (s0 ++ [b])) (abs_path d) = (host', Ret None) ∧
    (∀ r, tree host' !! (D ++ r) = tree dev !! ((s0 ++ [b]) ++ r)) ∧
    (∀ p, ¬ below D p → tree host' !! p = tree host !! p).
Proof.
  intros Hh Hhl Hn Hnul Hwf Hd Hpl D HD HpD HDne.
  destruct (tar_untar_tree dev s0 b n host d) as (host' & HT & HU & Hres); try done.
  exists host'. split; [|done]. unfold client_Pull.
  pose proof (Hh _ _ Hn) as (Hsne & Hgs & _).
  assert (look (tree host) (parent d) = Some NDir) as Hpd.
  { unfold D, target in HpD. destruct (look (tree host) d) as [[]|] eqn:E; try done.
    destruct (decide (d = [])) as [->|Hne]; [done|].
    rewrite look_ne in E by done. by apply Hwf in E as (_ & _ & ?). }
  rewrite Dir_parent by done. unfold Stat.
  rewrite (stat_some host (parent d) Hwf (good_parent d Hd)) with (n := NDir); [|eapply linkfree_prefix;
    [apply parent_prefix|by apply Hpl]|done].
  rewrite (pull_bytes_ok _ _ _ _ n _ (stat_some dev _ Hh Hgs (Hhl _ ltac:(done)) true n ltac:(by rewrite look_ne)) HT).
  rewrite tar_read_emit by (by apply listing_representable). by rewrite HU.
Qed.

(** C4: pushing a tree of files and directories from the host to the device reproduces it at the
    destination, or inside it when that is a directory, and returns nil; nothing else on the
    device changes, however the archive is cut into writes and messages. *)
Theorem push_tree_end_to_end first sfirst stop host s0 b n dev d :
  wf_tree (tree host) → plain_below (s0 ++ [b]) (tree host) → tree host !! (s0 ++ [b]) = Some n →
  nul_free (tree host) s0 b →
  wf_tree (tree dev) → Forall good_name d → plain_below d (tree dev) →
  let D := target (tree dev) d b in
  tree dev !! D = None → look (tree dev) (parent D) = Some NDir → D ≠ [] →
  ∃ dev', client_Push no_refusal no_refusal first sfirst stop host dev
            (abs_path (s0 ++ [b])) (abs_path d) = (dev', Ret None) ∧
    (∀ r, tree dev' !! (D ++ r) = tree host !! ((s0 ++ [b]) ++ r)) ∧
    (∀ p, ¬ below D p → tree dev' !! p = tree dev !! p).
Proof. apply push_tree. Qed.

(** Pulling is the same in the other direction: a tree of the device is reproduced on the
    host, and the call returns nil. *)
Theorem pull_tree_end_to_end first sfirst host s0 b n dev d :
  wf_tree (tree dev) → plain_below (s0 ++ [b]) (tree dev) → tree dev !! (s0 ++ [b]) = Some n →
  nul_free (tree dev) s0 b →
  wf_tree (tree host) → Forall good_name d → plain_below d (tree host) →
  let D := target (tree host) d b in
  tree host !! D = None → look (tree host) (parent D) = Some NDir → D ≠ [] →
  ∃ host', client_Pull no_refusal no_refusal first sfirst host dev
             (abs_path (s0 ++ [b])) (abs_path d) = (host', Ret None) ∧
    (∀ r, tree host' !! (D ++ r) = tree dev !! ((s0 ++ [b]) ++ r)) ∧
    (∀ p, ¬ below D p → tree host' !! p = tree host !! p).
Proof. apply pull_tree. Qed.

(** C22: a push that returns nil did the whole work: the tar code of the host packed everything and
    the tar code of the device unpacked all of it, whatever either kernel refuses and whatever
    the archive format is; the device is left as that unpacking leaves it. *)
Theorem push_nil_complete hostRefuse devRefuse first sfirst stop host dev src dst dev' :
  client_Push hostRefuse devRefuse first sfirst stop host dev src dst = (dev', Ret None) →
  ∃ tw, Tar hostRefuse host (MkTarWriter [] None) src = (tw, None) ∧
    Untar devRefuse dev (tar_read (mjoin (tar_emit tw))) dst = (dev', None).
Proof.
  unfold client_Push. destruct (Tar hostRefuse host (MkTarWriter [] None) src) as [tw terr].
  intros [-> ?]%push_archive_nil. by exists tw.
Qed.

(** Bytes pushed to a new file and pulled back are the same bytes. *)
Theorem bytes_put_get first sfirst first' sfirst' stop dev s0 b bytes w :
  wf_tree (tree dev) → Forall good_name (s0 ++ [b]) → plain_below (s0 ++ [b]) (tree dev) →
  has_char NUL b = false →
  tree dev !! (s0 ++ [b]) = None → look (tree dev) s0 = Some NDir → quota w = None →
  ∃ dev', client_PushBytes no_refusal first sfirst stop dev bytes (abs_path (s0 ++ [b])) =
      (dev', Ret None) ∧
    tree dev' = <[s0 ++ [b] := NFile bytes]> (tree dev) ∧
    client_PullBytes no_refusal first' sfirst' w dev' (abs_path (s0 ++ [b])) =
      (MkSink (taken w ++ bytes) None, Ret None).
Proof.
  intros Hwf Hg Hpl Hnul Hn Hp Hq. set (d := s0 ++ [b]) in *.
  assert (d ≠ []) as Hne by (by destruct s0).
  assert (look (tree dev) (parent d) = Some NDir) as Hpd by (unfold d; by rewrite parent_snoc).
  assert (target (tree dev) d "bytefile" = d) as Ht by (unfold target; by rewrite look_ne, Hn).
  pose proof (Untar_bytefile bytes dev d Hwf Hg Hpl) as HU. cbn zeta in HU. rewrite Ht in HU.
  set (dev' := set_tree dev (<[d := NFile bytes]> (tree dev))) in *.
  assert (wf_tree (tree dev')) as Hwf' by by apply wf_insert.
  assert (plain_below d (tree dev')) as Hpl' by (intros l Hl; apply linkfree_insert; [done|by apply Hpl]).
  assert (tree dev' !! d = Some (NFile bytes)) as Hn' by apply lookup_insert_eq.
  exists dev'. split_and!; [|done|].
  - unfold client_PushBytes. rewrite TarBytes_writes.
    apply push_archive_ok; [apply tar_emit_ne|]. rewrite tar_read_emit; [by apply HU|].
    by apply Forall_singleton.
  - unfold client_PullBytes.
    pose proof (Tar_lists dev' s0 b Hwf' Hpl' (NFile bytes) Hn') as HT. cbn in HT.
    rewrite (pull_bytes_ok _ _ _ _ (NFile bytes) _ (stat_some dev' d Hwf' Hg (Hpl' _ ltac:(done)) true
      (NFile bytes) ltac:(by rewrite look_ne)) HT).
    rewrite tar_read_emit by (by apply Forall_singleton). by rewrite UntarBytes_single.
Qed.

End theorems.

(** ** A format that satisfies the laws *)

#[local] Instance Typeflag_countable : Countable Typeflag.
Proof.
  refine (inj_countable'
    (λ f, match f with TypeReg => 0 | TypeRegA => 1 | TypeSymlink => 2 | TypeDir => 3 | TypeOther => 4 end)%nat
    (λ n, match n with 0 => TypeReg | 1 => TypeRegA | 2 => TypeSymlink | 3 => TypeDir | _ => TypeOther end)%nat _).
  by intros [].
Defined.

#[local] Instance Header_eq_dec : EqDecision Header.
Proof. solve_decision. Defined.

#[local] Instance Header_countable : Countable Header.
Proof.
  refine (inj_countable' (λ h, (hTypeflag h, hName h, hLinkname h, hSize h))
    (λ '(f, n, l, s), MkHeader f n l s) _). by intros [].
Defined.

(** A positive number as a stream of bytes, one per binary digit. *)
Fixpoint pos_bytes (p : positive) : list byte :=
  match p with
  | xH => ["."%char]
  | xO q => "0"%char :: pos_bytes q
  | xI q => "1"%char :: pos_bytes q
  end.

Fixpoint bytes_pos (l : list byte) : option positive :=
  match l with
  | [] => None
  | c :: l' =>
      if decide (c = "."%char) then Some xH
      else if decide (c = "0"%char) then xO <$> bytes_pos l' else xI <$> bytes_pos l'
  end.

Lemma bytes_pos_bytes p : bytes_pos (pos_bytes p) = Some p.
Proof. induction p as [p IH|p IH|]; cbn; [by rewrite IH|by rewrite IH|done]. Qed.

Definition number_format : TarFormat := {|
  tar_emit tw := [pos_bytes (encode (tw_entries tw))];
  tar_read b :=
    match bytes_pos b ≫= decode with
    | Some es => tw_reader (MkTarWriter es None)
    | None => MkTarReader [] UnexpectedEOF
    end;
|}.

#[local] Instance number_format_laws : @TarFormatLaws number_format.
Proof.
  split.
  - intros tw _. cbn. rewrite app_nil_r, bytes_pos_bytes. cbn. by rewrite decode_encode.
  - intros tw. cbn. rewrite app_nil_r. by destruct (encode (tw_entries tw)).
Qed.

Lemma demo_host_nul_free : nul_free (tree demo_host) ["h"] "zoo".
Proof.
  intros r n Hn.
  assert (map_Forall (λ p _, Forall (λ c, has_char NUL c = false) p) (tree demo_host)) as H
    by (apply (bool_decide_unpack _); vm_compute; done).
  apply H in Hn. cbn in Hn. by apply Forall_cons_1 in Hn as [_ ?].
Qed.

(** Discharge a decidable hypothesis about a concrete tree. *)
Ltac tree_decide :=
  first [ by apply demo_host_nul_free
        | by apply (bool_decide_unpack _); vm_compute
        | by apply no_links_plain, (bool_decide_unpack _); vm_compute ].

Lemma push_tree_end_to_end_witness : ∃ dev',
  client_Push (H := number_format) no_refusal no_refusal true true 0 demo_host demo_fs
    "/h/zoo" "/data/app" = (dev', Ret None) ∧
  tree dev' !! ["data"; "app"; "zoo"; "a"] = Some (NFile ["a"%char]).
Proof.
  destruct (push_tree_end_to_end (Hfmt := number_format) true true 0 demo_host ["h"] "zoo" NDir demo_fs
    ["data"; "app"]) as (dev' & HP & Hin & _); try tree_decide.
  exists dev'. split; [exact HP|exact (Hin ["a"])].
Defined.

Lemma pull_tree_end_to_end_witness : ∃ host',
  client_Pull (H := number_format) no_refusal no_refusal true true demo_fs demo_host
    "/h/zoo" "/data/new" = (host', Ret None) ∧
  tree host' !! ["data"; "new"; "a"] = Some (NFile ["a"%char]).
Proof.
  destruct (pull_tree_end_to_end (Hfmt := number_format) true true demo_fs ["h"] "zoo" NDir demo_host
    ["data"; "new"]) as (host' & HP & Hin & _); try tree_decide.
  exists host'. split; [exact HP|exact (Hin ["a"])].
Defined.

Lemma push_nil_complete_witness : ∃ tw,
  Tar no_refusal demo_host (MkTarWriter [] None) "/h/zoo/a" = (tw, None).
Proof.
  destruct (push_nil_complete (Hfmt := number_format) no_refusal no_refusal true true 0 demo_host demo_fs
    "/h/zoo/a" "/data/app" (fst (client_Push (H := number_format) no_refusal no_refusal true true 0
       demo_host demo_fs "/h/zoo/a" "/data/app"))) as (tw & HT & _).
  - vm_compute. reflexivity.
  - exists tw. exact HT.
Defined.

Lemma bytes_put_get_witness : ∃ dev',
  client_PullBytes (H := number_format) no_refusal true true (MkSink [] None) dev' "/data/f" =
    (MkSink ["x"%char] None, Ret None).
Proof.
  destruct (bytes_put_get (Hfmt := number_format) true true true true 0 demo_fs ["data"] "f" ["x"%char]
    (MkSink [] None)) as (dev' & _ & _ & HP); try tree_decide; try done.
  exists dev'. exact HP.
Defined.
