(* ===== verification/Host.v ===== *)
(** * The environment of the host's tools

    What src/waterfall/golang/adb, src/waterfall/golang/bootstrap and the binaries do to the
    world outside: run and start programs, dial and echo over gRPC, and touch a few files.  The
    environment is its history of events and one answer function per kind of event; an answer
    may depend on everything that happened before, so the theorems hold for every behaviour of
    the device, of adb and of the network. *)

From S2P Require Import Prelude GoStrings Fs.

Local Open Scope Z_scope.

Inductive event :=
| Run (prog : string) (args : list string)        (* exec.Command(...).CombinedOutput() *)
| Start (prog : string) (args : list string)      (* exec.Command(...).Start() *)
| Dial (addr : string)                            (* grpc.DialContext *)
| EchoCall (addr : string) (msg : string)         (* client.Echo *)
| StatPath (path : string)                        (* os.Stat *)
| TempDir (pattern : string)                      (* ioutil.TempDir *)
| WriteFile (name : string) (content : string)    (* ioutil.WriteFile *)
| RemovePath (path : string).                     (* os.RemoveAll *)

#[export] Instance event_eq_dec : EqDecision event.
Proof. solve_decision. Defined.

(** The history and the answers; each answer function sees the history, its event last. *)
Record Env := MkEnv {
  trace : list event;
  onRun : list event → string * option error;
  onStart : list event → option error;
  onDial : list event → option error;
  onEcho : list event → result string;
  onStat : list event → option errno;
  onTemp : list event → result string;
  onWrite : list event → option error;
}.

Definition record (w : Env) (e : event) : Env :=
  MkEnv (trace w ++ [e]) (onRun w) (onStart w) (onDial w) (onEcho w) (onStat w) (onTemp w) (onWrite w).

Definition run (w : Env) (prog : string) (args : list string) : Env * (string * option error) :=
  let w := record w (Run prog args) in (w, onRun w (trace w)).

Definition start (w : Env) (prog : string) (args : list string) : Env * option error :=
  let w := record w (Start prog args) in (w, onStart w (trace w)).

Definition dial (w : Env) (addr : string) : Env * option error :=
  let w := record w (Dial addr) in (w, onDial w (trace w)).

Definition echo (w : Env) (addr msg : string) : Env * result string :=
  let w := record w (EchoCall addr msg) in (w, onEcho w (trace w)).

Definition stat (w : Env) (path : string) : Env * option errno :=
  let w := record w (StatPath path) in (w, onStat w (trace w)).

Definition tempDir (w : Env) (pattern : string) : Env * result string :=
  let w := record w (TempDir pattern) in (w, onTemp w (trace w)).

Definition writeFile (w : Env) (name content : string) : Env * option error :=
  let w := record w (WriteFile name content) in (w, onWrite w (trace w)).

Definition removeAll (w : Env) (path : string) : Env := record w (RemovePath path).

(** ** Histories grow *)

(** [w'] is [w] some events later, all of which satisfy [P]; the answers are the same
    functions. *)
Record later (P : event → Prop) (w w' : Env) : Prop := MkLater {
  later_events : ∃ es, trace w' = trace w ++ es ∧ Forall P es;
  later_run : onRun w' = onRun w;
  later_start : onStart w' = onStart w;
  later_dial : onDial w' = onDial w;
  later_echo : onEcho w' = onEcho w;
}.

Lemma later_refl P w : later P w w.
Proof. constructor; try done. exists []. by rewrite app_nil_r. Qed.

Lemma later_trans P w1 w2 w3 : later P w1 w2 → later P w2 w3 → later P w1 w3.
Proof.
  intros [(es1 & E1 & F1)] [(es2 & E2 & F2)]. constructor; [|congruence..].
  exists (es1 ++ es2). rewrite E2, E1, <- app_assoc. split; [done|]. by apply Forall_app.
Qed.

Lemma later_record P w e : P e → later P w (record w e).
Proof. intros H. constructor; try done. exists [e]. split; [done|]. by apply Forall_singleton. Qed.

Lemma later_weaken (P Q : event → Prop) w w' : (∀ e, P e → Q e) → later P w w' → later Q w w'.
Proof.
  intros H [(es & E & F)]. constructor; try done. exists es. split; [done|].
  eapply Forall_impl; [|done]. done.
Qed.

#[export] Hint Resolve later_refl later_record : go.

(** A quiet environment for examples: every answer is the same whatever happened. *)
Definition const_env (out : string) (err : option error) (starts dials : option error)
    (echoes : result string) (st : option errno) : Env :=
  MkEnv [] (λ _, (out, err)) (λ _, starts) (λ _, dials) (λ _, echoes) (λ _, st)
    (λ _, Ok "/tmp/waterfall1") (λ _, None).
