(* ===== verification/AdbDevice.v ===== *)
(** * The adb wrapper: src/waterfall/golang/adb/adb.go

    [Device] runs adb for one device.  The theorems: what [Shell] makes of the output of a
    command, on every output; that every command addresses the device; when a device counts as
    connected. *)

From S2P Require Import Prelude GoStrings Fs Host.

Local Open Scope Z_scope.
Local Open Scope go_scope.

(** ** [Device] *)

Definition socketDirProp : string := "qemu.host.socket.dir".
Definition abiListProp : string := "ro.product.cpu.abilist".
Definition abstractPort : string := "localabstract:".

(** [args] is [None] until [argsOnce] ran. *)
Record Device := MkDevice {
  AdbPath : string;
  DeviceName : string;
  AdbServerPort : string;
  dev_args : option (list string);
}.

(** [deviceArgs()]: computed once.  The slice has no spare capacity, so the [append]s of its
    callers copy it. *)
Definition deviceArgs (a : Device) : Device * list string :=
  match dev_args a with
  | Some args => (a, args)
  | None =>
      let args := ["-s"; DeviceName a] in
      let args := if decide (AdbServerPort a ≠ "") then args ++ ["-P"; AdbServerPort a] else args in
      (MkDevice (AdbPath a) (DeviceName a) (AdbServerPort a) (Some args), args)
  end.

(** [exec.Command(a.AdbPath, append(a.deviceArgs(), args...)...).CombinedOutput()] *)
Definition adb_run (a : Device) (w : Env) (args : list string) : Device * Env * (string * option error) :=
  let '(a, da) := deviceArgs a in
  let '(w, r) := run w (AdbPath a) (da ++ args) in
  (a, w, r).

(** What [Shell] makes of the output of a command that adb ran. *)
Definition parse_shell (iw : Z) (args : list string) (o : string) : outcome (string * option error) :=
  let! r := sslice o (LastIndex o "ret=") (slen o) in
  let! o1 := sslice o 0 (slen o - slen r) in
  let o1 := TrimSpace o1 in
  let! code := sslice r 4 (slen r) in
  match Atoi iw (TrimSpace code) with
  | (_, Some _) => Ret ("", Some (ErrorString ("error parsing return code " +:+ r)))
  | (ret, None) =>
      if decide (ret ≠ 0)
      then Ret ("", Some (ErrorString ("non-zero return code [" +:+ Join args " " +:+ "] = " +:+ o1)))
      else Ret (o1, None)
  end.

(** [Shell(args)]; [iw] is the width of [int]. *)
Definition Shell (iw : Z) (a : Device) (w : Env) (args : list string)
    : Device * Env * outcome (string * option error) :=
  let '(a, w, (o, err)) := adb_run a w ["shell"; Join args " " +:+ "; echo ret=$?"] in
  match err with
  | Some e => (a, w, Ret (o, Some e))
  | None => (a, w, parse_shell iw args o)
  end.

(** [Install(apk)] *)
Definition Install (a : Device) (w : Env) (apk : string) : Device * Env * (string * option error) :=
  adb_run a w ["install"; "-r"; "-g"; apk].

Definition newline : string := String (Ascii.ascii_of_nat 10) "".

(** The loop of [connected()] over the lines of the output. *)
Definition listed (name : string) (out : string) : bool :=
  existsb (λ l, Contains l name && Contains l "device") (Split out newline).

(** [connected()] *)
Definition connected (a : Device) (w : Env) : Device * Env * (bool * option error) :=
  let '(a, w, (ob, err)) := adb_run a w ["devices"] in
  match err with
  | Some e => (a, w, (false, Some (ErrorString ("got error running adb devices: " +:+ ob +:+ " " +:+ Error e))))
  | None => (a, w, (listed (DeviceName a) ob, None))
  end.

(** [Connect()] *)
Definition Connect (a : Device) (w : Env) : Device * Env * option error :=
  let '(a, w, (c, err)) := connected a w in
  match err with
  | Some e => (a, w, Some e)
  | None =>
      if c then (a, w, None) else
      let '(a, w, (out, err)) := adb_run a w ["connect"; DeviceName a] in
      match err with
      | Some e => (a, w, Some (ErrorString ("error connecting to device: " +:+ out +:+ " " +:+ Error e)))
      | None =>
          let '(a, w, (c, err)) := connected a w in
          match err with
          | Some e => (a, w, Some e)
          | None =>
              if c then (a, w, None)
              else (a, w, Some (ErrorString (DeviceName a +:+ " not connected")))
          end
      end
  end.

(** [Push(src, dst)] *)
Definition Push (a : Device) (w : Env) (src dst : string) : Device * Env * option error :=
  let '(a, w, (out, err)) := adb_run a w ["push"; src; dst] in
  match err with
  | Some _ => (a, w, Some (ErrorString ("error pushing " +:+ src +:+ " - " +:+ out)))
  | None => (a, w, None)
  end.

(** [a.Shell([]string{"getprop", prop})], trimmed. *)
Definition getprop (iw : Z) (a : Device) (w : Env) (prop : string)
    : Device * Env * outcome (string * option error) :=
  let '(a, w, r) := Shell iw a w ["getprop"; prop] in
  (a, w, obind r (λ '(p, err),
     match err with Some e => Ret ("", Some e) | None => Ret (TrimSpace p, None) end)).

(** [QemuPipeDir()] and [AbiList()] *)
Definition QemuPipeDir (iw : Z) (a : Device) (w : Env) := getprop iw a w socketDirProp.
Definition AbiList (iw : Z) (a : Device) (w : Env) := getprop iw a w abiListProp.

(** [ForwardAbstract(local, remote)] *)
Definition ForwardAbstract (a : Device) (w : Env) (lcl remote : string) : Device * Env * option error :=
  let '(a, w, (out, err)) := adb_run a w ["forward"; abstractPort +:+ lcl; abstractPort +:+ remote] in
  match err with
  | Some _ => (a, w, Some (ErrorString ("error forwarding " +:+ lcl +:+ " -> " +:+ remote +:+ " " +:+ out)))
  | None => (a, w, None)
  end.

(** [StartCmd(script)] *)
Definition StartCmd (a : Device) (w : Env) (script : string) : Device * Env * option error :=
  let '(a, da) := deviceArgs a in
  let '(w, err) := start w (AdbPath a) (da ++ ["shell"; script]) in
  match err with
  | Some e => (a, w, Some (ErrorString ("error running script " +:+ script +:+ " " +:+ Error e)))
  | None => (a, w, None)
  end.

(** ** Output of [Shell] *)

(** Splitting the output at the last marker. *)
Lemma parse_shell_at iw args body tail :
  LastIndex (body +:+ "ret=" +:+ tail) "ret=" = slen body →
  parse_shell iw args (body +:+ "ret=" +:+ tail) =
  match Atoi iw (TrimSpace tail) with
  | (_, Some _) => Ret ("", Some (ErrorString ("error parsing return code ret=" +:+ tail)))
  | (ret, None) =>
      if decide (ret ≠ 0)
      then Ret ("", Some (ErrorString ("non-zero return code [" +:+ Join args " " +:+ "] = " +:+ TrimSpace body)))
      else Ret (TrimSpace body, None)
  end.
Proof.
  intros HL. unfold parse_shell. rewrite HL, sslice_suffix. cbn [obind].
  rewrite slen_app. replace (slen body + slen ("ret=" +:+ tail) - slen ("ret=" +:+ tail)) with (slen body) by lia.
  rewrite sslice_prefix. cbn [obind].
  change 4 with (slen "ret="). rewrite sslice_suffix. cbn [obind].
  destruct (Atoi iw (TrimSpace tail)) as [ret [e|]]; [|done]. reflexivity.
Qed.

(** Every output either has a marker or makes [Shell] panic. *)
Lemma parse_shell_panics iw args o :
  parse_shell iw args o = Panic ↔ Contains o "ret=" = false.
Proof.
  destruct (decide (0 ≤ LastIndex o "ret=")) as [H|H].
  - destruct (LastIndex_found o "ret=" H) as (a & b & -> & HL).
    rewrite parse_shell_at by done.
    rewrite (proj2 (Contains_true (a +:+ "ret=" +:+ b) "ret=")) by eauto.
    split; [|done]. destruct (Atoi iw (TrimSpace b)) as [ret [e|]]; [done|]. by case_decide.
  - split; [intros _; apply LastIndex_missing; lia|]. intros _. unfold parse_shell, sslice at 1.
    by rewrite decide_False by lia.
Qed.

Lemma parse_shell_returns iw args o : parse_shell iw args o ≠ Block.
Proof.
  unfold parse_shell, sslice. repeat (case_decide; cbn [obind]; try done).
  all: destruct (Atoi iw _) as [ret [e|]]; [done|]; by case_decide.
Qed.

(** ** Every command addresses the device *)

Definition device_flags (a : Device) : list string :=
  match dev_args a with
  | Some args => args
  | None => ["-s"; DeviceName a] ++ (if decide (AdbServerPort a ≠ "") then ["-P"; AdbServerPort a] else [])
  end.

(** A command of adb with the flags of the device [a]. *)
Definition addresses (a : Device) (e : event) : Prop :=
  match e with
  | Run prog args | Start prog args => prog = AdbPath a ∧ ∃ rest, args = device_flags a ++ rest
  | _ => False
  end.

Definition same_device (a b : Device) : Prop :=
  AdbPath b = AdbPath a ∧ DeviceName b = DeviceName a ∧ device_flags b = device_flags a.

Lemma same_device_refl a : same_device a a.
Proof. done. Qed.

Lemma same_device_trans a b c : same_device a b → same_device b c → same_device a c.
Proof. unfold same_device. intuition congruence. Qed.

Lemma deviceArgs_spec a :
  same_device a (fst (deviceArgs a)) ∧ snd (deviceArgs a) = device_flags a.
Proof.
  unfold deviceArgs, same_device, device_flags. destruct (dev_args a) eqn:E; cbn; [by rewrite E|].
  by case_decide.
Qed.

(** The state after an operation: the same device, and only commands that address it. *)
Definition step_ok (a : Device) (w : Env) (a' : Device) (w' : Env) : Prop :=
  same_device a a' ∧ later (addresses a) w w'.

Lemma addresses_same a b e : same_device a b → addresses b e → addresses a e.
Proof. intros (E1 & _ & E3). unfold addresses. rewrite E1, E3. done. Qed.

Lemma step_ok_trans a w a1 w1 a2 w2 :
  step_ok a w a1 w1 → step_ok a1 w1 a2 w2 → step_ok a w a2 w2.
Proof.
  intros [S1 L1] [S2 L2]. split; [by eapply same_device_trans|]. eapply later_trans; [done|].
  eapply later_weaken; [|done]. intros e. by apply addresses_same.
Qed.

Lemma adb_run_ok a w args a' w' r :
  adb_run a w args = (a', w', r) →
  step_ok a w a' w' ∧ trace w' = trace w ++ [Run (AdbPath a) (device_flags a ++ args)] ∧
  r = onRun w (trace w').
Proof.
  unfold adb_run. pose proof (deviceArgs_spec a) as [Hs Hf].
  destruct (deviceArgs a) as [a1 da]. cbn in Hs, Hf. subst da. cbn. intros [= <- <- <-].
  destruct Hs as (Hp & Hn & Hfl). rewrite Hp. split; [|done]. split; [done|].
  apply later_record. cbn. eauto.
Qed.

Lemma connected_ok a w a' w' r :
  connected a w = (a', w', r) →
  step_ok a w a' w' ∧ trace w' = trace w ++ [Run (AdbPath a) (device_flags a ++ ["devices"])] ∧
  let '(o, err) := onRun w (trace w') in
  match err with None => r = (listed (DeviceName a) o, None) | Some _ => ∃ e, r = (false, Some e) end.
Proof.
  unfold connected. destruct (adb_run a w ["devices"]) as [[a1 w1] [o err]] eqn:E.
  apply adb_run_ok in E as (Hs & Ht & Hr). destruct err as [e|]; intros [= <- <- <-];
    (split; [done|]; split; [done|]); rewrite <- Hr; [by eexists|].
  destruct Hs as [(_ & -> & _) _]. done.
Qed.

(** ** Operations *)

Inductive adb_op :=
| OShell (args : list string) | OInstall (apk : string) | OConnect | OPush (src dst : string)
| OQemuPipeDir | OAbiList | OForwardAbstract (lcl remote : string) | OStartCmd (script : string).

Definition adb_do (iw : Z) (a : Device) (w : Env) (op : adb_op) : Device * Env :=
  match op with
  | OShell args => fst (Shell iw a w args)
  | OInstall apk => fst (Install a w apk)
  | OConnect => fst (Connect a w)
  | OPush src dst => fst (Push a w src dst)
  | OQemuPipeDir => fst (QemuPipeDir iw a w)
  | OAbiList => fst (AbiList iw a w)
  | OForwardAbstract l r => fst (ForwardAbstract a w l r)
  | OStartCmd s => fst (StartCmd a w s)
  end.

Definition adb_do_all (iw : Z) (a : Device) (w : Env) (ops : list adb_op) : Device * Env :=
  foldl (λ s op, adb_do iw s.1 s.2 op) (a, w) ops.

Lemma Shell_ok iw a w args : step_ok a w (fst (fst (Shell iw a w args))) (snd (fst (Shell iw a w args))).
Proof.
  unfold Shell. destruct (adb_run a w _) as [[a1 w1] [o err]] eqn:E. apply adb_run_ok in E as (Hs & _).
  by destruct err.
Qed.

Lemma Connect_ok a w : step_ok a w (fst (fst (Connect a w))) (snd (fst (Connect a w))).
Proof.
  unfold Connect. destruct (connected a w) as [[a1 w1] [c err]] eqn:E1.
  apply connected_ok in E1 as (H1 & _). destruct err; [done|]. destruct c; [done|].
  destruct (adb_run a1 w1 _) as [[a2 w2] [o err]] eqn:E2. apply adb_run_ok in E2 as (H2 & _).
  pose proof (step_ok_trans _ _ _ _ _ _ H1 H2) as H12. destruct err; [done|].
  destruct (connected a2 w2) as [[a3 w3] [c err]] eqn:E3. apply connected_ok in E3 as (H3 & _).
  pose proof (step_ok_trans _ _ _ _ _ _ H12 H3) as H13. destruct err; [done|]. by destruct c.
Qed.

Lemma StartCmd_ok a w s : step_ok a w (fst (fst (StartCmd a w s))) (snd (fst (StartCmd a w s))).
Proof.
  unfold StartCmd. pose proof (deviceArgs_spec a) as [Hs Hf].
  destruct (deviceArgs a) as [a1 da]. cbn in Hs, Hf. subst da. unfold start.
  assert (step_ok a w a1 (record w (Start (AdbPath a1) (device_flags a ++ ["shell"; s])))) as H.
  { split; [done|]. apply later_record. destruct Hs as (Hp & _). cbn. eauto. }
  by destruct (onStart _ _).
Qed.

Lemma adb_do_ok iw a w op : step_ok a w (fst (adb_do iw a w op)) (snd (adb_do iw a w op)).
Proof.
  destruct op; cbn [adb_do]; try apply Shell_ok; try apply Connect_ok; try apply StartCmd_ok.
  all: unfold Install, Push, QemuPipeDir, AbiList, ForwardAbstract, getprop.
  all: try (match goal with |- context [adb_run ?a ?w ?x] =>
    destruct (adb_run a w x) as [[a1 w1] [o err]] eqn:E; apply adb_run_ok in E as (Hs & _); by destruct err end).
  all: match goal with |- context [Shell ?i ?a ?w ?x] =>
    pose proof (Shell_ok i a w x); by destruct (Shell i a w x) as [[a1 w1] r] end.
Qed.

(** ** Properties *)

(** What adb is asked to run by [Shell]. *)
Definition shell_event (a : Device) (args : list string) : event :=
  Run (AdbPath a) (device_flags a ++ ["shell"; Join args " " +:+ "; echo ret=$?"]).

Lemma Shell_result iw a w args o err :
  onRun w (trace w ++ [shell_event a args]) = (o, err) →
  trace (snd (fst (Shell iw a w args))) = trace w ++ [shell_event a args] ∧
  snd (Shell iw a w args) =
  match err with Some e => Ret (o, Some e) | None => parse_shell iw args o end.
Proof.
  intros Hrun. unfold Shell.
  destruct (adb_run a w _) as [[a1 w1] [o1 err1]] eqn:E. apply adb_run_ok in E as (_ & Ht & Hr).
  rewrite Ht in Hr. unfold shell_event in Hrun. rewrite Hrun in Hr. injection Hr as -> ->.
  by destruct err.
Qed.

(** White space has no letters, so no marker. *)
Lemma spaces_no_r sp : all_chars (λ c, has_char c space_set) sp = true → has_char "r" sp = false.
Proof.
  induction sp as [|c sp IH]; intros Hsp; [done|]. cbn in Hsp |- *.
  apply andb_true_iff in Hsp as [Hc Hsp]. rewrite IH by done.
  rewrite bool_decide_false; [done|]. by intros ->.
Qed.

Lemma parse_shell_status iw args body n sp :
  IntWidth iw → 0 ≤ n < 2 ^ 31 → all_chars (λ c, has_char c space_set) sp = true →
  parse_shell iw args (body +:+ "ret=" +:+ fmt_d n +:+ sp) =
  if decide (n = 0) then Ret (TrimSpace body, None)
  else Ret ("", Some (ErrorString ("non-zero return code [" +:+ Join args " " +:+ "] = " +:+ TrimSpace body))).
Proof.
  intros Hw Hn Hsp. rewrite parse_shell_at.
  - rewrite TrimSpace_fmt_d by (done || lia). rewrite Atoi_fmt_d.
    + by repeat case_decide; subst.
    + split; [lia|]. eapply Z.lt_le_trans; [apply Hn|]. apply Z.pow_le_mono_r; [lia|]. destruct Hw; lia.
  - apply (LastIndex_last "r" body "et="). rewrite !has_char_app, (spaces_no_r sp) by done.
    rewrite (fmt_d_chars "r" n); [done|done|lia].
Qed.

(** C33: [Shell] runs adb once, and what it returns, for every way that run can end: when adb
    fails, the output as it is with adb's error; when the output is [body] and the status line of
    the command, status [n] below 2^31, the trimmed [body] when [n] is 0 and otherwise an error
    that quotes the arguments and the trimmed [body] but not [n], even when [body] itself has
    a marker; when the text behind the last marker is no number, an error that quotes it; and
    when there is no marker at all it panics. *)
Theorem shell_roundtrip iw a w args o err :
  IntWidth iw → onRun w (trace w ++ [shell_event a args]) = (o, err) →
  trace (snd (fst (Shell iw a w args))) = trace w ++ [shell_event a args] ∧
  (∀ e, err = Some e → snd (Shell iw a w args) = Ret (o, Some e)) ∧
  (err = None →
   (∀ body n sp, 0 ≤ n < 2 ^ 31 → all_chars (λ c, has_char c space_set) sp = true →
      o = body +:+ "ret=" +:+ fmt_d n +:+ sp →
      snd (Shell iw a w args) =
      if decide (n = 0) then Ret (TrimSpace body, None)
      else Ret ("", Some (ErrorString
             ("non-zero return code [" +:+ Join args " " +:+ "] = " +:+ TrimSpace body)))) ∧
   (∀ body tail x e, o = body +:+ "ret=" +:+ tail → LastIndex o "ret=" = slen body →
      Atoi iw (TrimSpace tail) = (x, Some e) →
      snd (Shell iw a w args) = Ret ("", Some (ErrorString ("error parsing return code ret=" +:+ tail)))) ∧
   (Contains o "ret=" = false ↔ snd (Shell iw a w args) = Panic)).
Proof.
  intros Hw Hrun. destruct (Shell_result iw a w args o err Hrun) as [Ht ->]. split; [done|]. split.
  { by intros e ->. }
  intros ->. split_and!.
  - intros body n sp Hn Hsp ->. by apply parse_shell_status.
  - intros body tail x e -> HL HA. rewrite parse_shell_at by done. by rewrite HA.
  - symmetry. apply parse_shell_panics.
Qed.

Definition demo_device : Device := MkDevice "/bin/adb" "emulator-5554" "5037" None.

Lemma shell_roundtrip_witness :
  snd (Shell 64 demo_device
    (const_env ("ret=7" +:+ newline +:+ "ret=0" +:+ newline) None None None (Ok "") None) ["ls"; "/"]) =
  Ret ("ret=7", None) ∧
  snd (Shell 64 demo_device (const_env "killed" None None None (Ok "") None) ["ls"; "/"]) = Panic.
Proof.
  split.
  - destruct (shell_roundtrip 64 demo_device
      (const_env ("ret=7" +:+ newline +:+ "ret=0" +:+ newline) None None None (Ok "") None) ["ls"; "/"]
      _ None (or_intror eq_refl) eq_refl) as (_ & _ & H). destruct (H eq_refl) as (Hb & _).
    apply (Hb ("ret=7" +:+ newline) 0 newline); [lia|reflexivity|reflexivity].
  - destruct (shell_roundtrip 64 demo_device (const_env "killed" None None None (Ok "") None) ["ls"; "/"]
      _ None (or_intror eq_refl) eq_refl) as (_ & _ & H). apply (H eq_refl). reflexivity.
Defined.

(** A call of [Shell] ends: it returns or panics. *)
Lemma Shell_ends iw a w args : snd (Shell iw a w args) ≠ Block.
Proof.
  destruct (onRun w (trace w ++ [shell_event a args])) as [o err] eqn:E.
  destruct (Shell_result iw a w args o err E) as [_ ->]. destruct err; [done|]. apply parse_shell_returns.
Qed.

(** Whatever is asked of a [Device], in whatever order, every program it starts is its adb
    binary with the flags that select the device and the adb server. *)
Theorem adb_addresses_device iw a w ops :
  let '(a', w') := adb_do_all iw a w ops in
  same_device a a' ∧ ∃ es, trace w' = trace w ++ es ∧ Forall (addresses a) es.
Proof.
  assert (step_ok a w (fst (adb_do_all iw a w ops)) (snd (adb_do_all iw a w ops))) as H.
  { assert (∀ s, step_ok a w s.1 s.2 →
      let r := foldl (λ s op, adb_do iw s.1 s.2 op) s ops in step_ok a w r.1 r.2) as H.
    { induction ops as [|op ops IH]; intros s H; [done|]. apply IH.
      eapply step_ok_trans; [done|]. apply adb_do_ok. }
    apply (H (a, w)). split; [done|apply later_refl]. }
  destruct (adb_do_all iw a w ops) as [a' w']. destruct H as [Hs [Hev _ _ _ _]]. done.
Qed.

(** [Connect] returns nil only when the last thing it did was to list the devices, with the
    device among them, and it asked adb to connect only when the device was not listed first. *)
Theorem connect_verifies a w a' w' :
  Connect a w = (a', w', None) →
  let devices := Run (AdbPath a) (device_flags a ++ ["devices"]) in
  let connect := Run (AdbPath a) (device_flags a ++ ["connect"; DeviceName a]) in
  ∃ o, onRun w (trace w') = (o, None) ∧ listed (DeviceName a) o = true ∧
    (trace w' = trace w ++ [devices] ∨
     trace w' = trace w ++ [devices; connect; devices] ∧
     ∃ o1, onRun w (trace w ++ [devices]) = (o1, None) ∧ listed (DeviceName a) o1 = false).
Proof.
  unfold Connect. destruct (connected a w) as [[a1 w1] [c err]] eqn:E1.
  apply connected_ok in E1 as ([Hs1 L1] & Ht1 & Hr1).
  destruct err; [done|]. destruct (onRun w (trace w1)) as [o1 [e1|]] eqn:R1; [by destruct Hr1|].
  injection Hr1 as ->. destruct (listed (DeviceName a) o1) eqn:Hl1.
  { intros [= <- <-]. exists o1. eauto. }
  destruct (adb_run a1 w1 _) as [[a2 w2] [o2 err]] eqn:E2. apply adb_run_ok in E2 as ([Hs2 L2] & Ht2 & _).
  destruct err; [done|].
  destruct (connected a2 w2) as [[a3 w3] [c err]] eqn:E3. apply connected_ok in E3 as ([Hs3 L3] & Ht3 & Hr3).
  destruct err; [done|]. destruct c; [|done]. intros [= <- <-].
  pose proof (same_device_trans _ _ _ Hs1 Hs2) as (Hp & Hn & Hf).
  destruct Hs1 as (Hp1 & Hn1 & Hf1).
  rewrite (later_run _ _ _ L2), (later_run _ _ _ L1) in Hr3.
  destruct (onRun w (trace w3)) as [o3 [e3|]] eqn:R3; [by destruct Hr3|].
  injection Hr3 as Hl3. rewrite Hn in Hl3. exists o3. split_and!; [done|done|]. right. split.
  - rewrite Ht3, Ht2, Ht1, Hp, Hp1, Hf, Hf1, Hn1. by rewrite <- !app_assoc.
  - exists o1. by rewrite <- Ht1.
Qed.

Lemma connect_verifies_witness : ∃ o,
  listed "emulator-5554" o = true.
Proof.
  destruct (connect_verifies demo_device
    (const_env ("List of devices attached" +:+ newline +:+ "emulator-5554 device" +:+ newline)
       None None None (Ok "") None) _ _ eq_refl) as (o & _ & Hl & _).
  exists o. exact Hl.
Defined.

(** A device is looked up by the text of its name: a longer name, or the heading of the list,
    can stand for it. *)
Example listed_by_text :
  listed "emulator-5554" ("List of devices attached" +:+ newline +:+ "emulator-55540 device") = true ∧
  listed "List" ("List of devices attached" +:+ newline) = true.
Proof. vm_compute. done. Qed.
