(* ===== verification/Testutils.v ===== *)
(** * Test helpers: src/waterfall/golang/testutils/net.go, emu.go, runfiles.go

    Picking free ports, driving an emulator and its adb, finding the runfiles directory.  The
    kernel's answers to the three calls of [isFree] depend on everything probed before. *)

From S2P Require Import Prelude GoStrings AdbCli Filepath Fs Host AdbDevice.

Local Open Scope Z_scope.
Local Open Scope go_scope.

(** ** net.go *)

Definition minPort : Z := 32768.
Definition maxPort : Z := 65536.
Definition errNoFreePort : error := ErrorString "no free port available".

(** The network: the ports probed so far, the number of open descriptors, and whether [Socket],
    [SetsockoptInt] and the kernel's bind succeed for the last of the ports probed. *)
Record Net := MkNet {
  probes : list Z;
  fds : Z;
  socket_ok : list Z → bool;
  sockopt_ok : list Z → bool;
  bind_ok : list Z → bool;
}.

(** [syscall.Bind] of an IPv4 address; it checks that the port has 16 bits. *)
Definition Bind (net : Net) (port : Z) : bool := bool_decide (0 ≤ port ≤ 65535) && bind_ok net (probes net).

(** [isFree(port)] *)
Definition isFree (net : Net) (port : Z) : Net * bool :=
  let net := MkNet (probes net ++ [port]) (fds net) (socket_ok net) (sockopt_ok net) (bind_ok net) in
  if negb (socket_ok net (probes net)) then (net, false) else
  let opened := MkNet (probes net) (fds net + 1) (socket_ok net) (sockopt_ok net) (bind_ok net) in
  let ok := sockopt_ok opened (probes opened) && Bind opened port in
  (* defer syscall.Close(fd) *)
  (MkNet (probes opened) (fds opened - 1) (socket_ok opened) (sockopt_ok opened) (bind_ok opened), ok).

(** The loop of [PickUnusedPort]; [None] when [fuel] does not suffice. *)
Fixpoint pick_loop (fuel : nat) (net : Net) (port stop : Z) : option (Net * result Z) :=
  match fuel with
  | O => None
  | S f =>
      let '(net, free) := isFree net port in
      if free then Some (net, Ok port) else
      let port := port + 1 in
      let port := if decide (maxPort < port) then minPort else port in
      if decide (port = stop) then Some (net, Err errNoFreePort) else pick_loop f net port stop
  end.

(** [PickUnusedPort()]; [rnd] is [rng.Intn(maxPort-minPort+1)]. *)
Definition PickUnusedPort (net : Net) (rnd : Z) : option (Net * result Z) :=
  pick_loop (Z.to_nat (maxPort - minPort + 1)) net (minPort + rnd) (minPort + rnd).

(** ** emu.go *)

(** [GetAdbPorts()] with the three random numbers. *)
Definition GetAdbPorts (net : Net) (r1 r2 r3 : Z) : option (Net * result (string * string * string)) :=
  match PickUnusedPort net r1 with
  | None => None
  | Some (net, Err e) => Some (net, Err e)
  | Some (net, Ok p1) =>
      match PickUnusedPort net r2 with
      | None => None
      | Some (net, Err e) => Some (net, Err e)
      | Some (net, Ok p2) =>
          match PickUnusedPort net r3 with
          | None => None
          | Some (net, Err e) => Some (net, Err e)
          | Some (net, Ok p3) => Some (net, Ok (fmt_int p1, fmt_int p2, fmt_int p3))
          end
      end
  end.

(** [startEmulator(...)] *)
Definition startEmulator (w : Env) (emuDir launcher adbServerPort adbPort emuPort : string)
    : Env * option error :=
  let '(w, (out, err)) := run w launcher
    ["--action"; "mini_boot"; "--emulator_tmp_dir"; emuDir; "--adb_server_port"; adbServerPort;
     "--adb_port"; adbPort; "--emulator_port"; emuPort; "--noenable_display"; "--nowith_audio"] in
  (w, match err with
      | Some e => Some (ErrorString ("error " +:+ Error e +:+ " starting emulator: " +:+ out))
      | None => None
      end).

(** [KillEmu(...)] *)
Definition KillEmu (w : Env) (launcher adbServerPort adbPort emuPort : string) : Env * option error :=
  let '(w, (_, err)) := run w launcher
    ["--action"; "kill"; "--adb_server_port"; adbServerPort; "--adb_port"; adbPort; "--emulator_port"; emuPort] in
  (w, err).

(** [SetupEmu(...)] *)
Definition SetupEmu (w : Env) (launcher adbServerPort adbPort emuPort : string) : Env * result string :=
  match tempDir w "emulator" with
  | (w, Err e) => (w, Err e)
  | (w, Ok emuDir) =>
      match startEmulator w emuDir launcher adbServerPort adbPort emuPort with
      | (w, Some e) => (w, Err e)
      | (w, None) => (w, Ok emuDir)
      end
  end.

(** What [ExecOnDevice] makes of the output of a shell command that adb ran. *)
Definition shell_output (iw : Z) (o : string) : outcome (string * option error) :=
  let! r := sslice o (LastIndex o "ret=") (slen o) in
  let! o1 := sslice o 0 (slen o - slen r) in
  let o := TrimSpace o1 in
  let! code := sslice r 4 (slen r) in
  Ret (o, match Atoi iw (TrimSpace code) with
          | (_, Some _) => Some (ErrorString ("error parsing return code " +:+ r))
          | (ret, None) =>
              if decide (ret ≠ 0)
              then Some (ErrorString ("non-zero return code '" +:+ fmt_int ret +:+ "' out " +:+ o)) else None
          end).

(** [ExecOnDevice(ctx, adbTurbo, device, cmd, args)] *)
Definition ExecOnDevice (iw : Z) (w : Env) (adbTurbo device cmd : string) (args : list string)
    : Env * outcome (string * option error) :=
  let fullArgs :=
    if decide (cmd = "shell") then ["-s"; device; cmd; Join args " " +:+ "; echo ret=$?"]
    else ["-s"; device; cmd] ++ args in
  let '(w, (o, err)) := run w adbTurbo fullArgs in
  (w, if decide (cmd = "shell" ∧ err = None) then shell_output iw o else Ret (o, err)).

(** ** runfiles.go *)

Definition workspaceDir : string := "runfiles/devx".

(** The variables of the package: whether [rfsOnce] ran its function, and [runfiles]. *)
Record Runfiles := MkRunfiles { rfsOnce : bool; runfiles : string }.

(** The function of [rfsOnce]: [wd] is what [os.Getwd()] gives, [arg0] is [os.Args[0]]. *)
Definition find_runfiles (wd : result string) (arg0 : string) : outcome string :=
  match wd with
  | Err _ => Panic
  | Ok wd =>
      if HasSuffix wd workspaceDir then Ret wd else
      let execRoot := Base arg0 +:+ "." +:+ workspaceDir in
      sslice wd 0 (LastIndex wd execRoot + slen execRoot)
  end.

(** [RunfilesRoot()]; [sync.Once] counts a call that panicked. *)
Definition RunfilesRoot (s : Runfiles) (wd : result string) (arg0 : string) : Runfiles * outcome string :=
  if rfsOnce s then (s, Ret (runfiles s)) else
  match find_runfiles wd arg0 with
  | Ret r => (MkRunfiles true r, Ret r)
  | Panic => (MkRunfiles true (runfiles s), Panic)
  | Block => (s, Block)
  end.

(** ** Ports *)

Definition ports_n : Z := maxPort - minPort + 1.

(** The [k]th port the loop probes when it starts at [start]. *)
Definition probe (start k : Z) : Z := minPort + (start - minPort + k) mod ports_n.

(** Whether a probe succeeds that is the last of [ps]. *)
Definition free_at (net : Net) (ps : list Z) (port : Z) : bool :=
  socket_ok net ps && (sockopt_ok net ps && (bool_decide (0 ≤ port ≤ 65535) && bind_ok net ps)).

Definition same_net (n n' : Net) : Prop :=
  fds n' = fds n ∧ socket_ok n' = socket_ok n ∧ sockopt_ok n' = sockopt_ok n ∧ bind_ok n' = bind_ok n.

Lemma isFree_spec net port :
  let '(net', b) := isFree net port in
  same_net net net' ∧ probes net' = probes net ++ [port] ∧ b = free_at net (probes net ++ [port]) port.
Proof.
  unfold isFree, free_at, same_net, Bind. cbn. destruct (socket_ok net _); cbn; split_and!; try done; lia.
Qed.

Lemma probe_range start k : minPort ≤ probe start k ≤ maxPort.
Proof.
  unfold probe, ports_n, minPort, maxPort. change (65536 - 32768 + 1) with 32769.
  pose proof (Z.mod_pos_bound (start - 32768 + k) 32769 ltac:(lia)). lia.
Qed.

Lemma probe_next start k :
  (if decide (maxPort < probe start k + 1) then minPort else probe start k + 1) = probe start (k + 1).
Proof.
  unfold probe, ports_n, minPort, maxPort.
  change (65536 - 32768 + 1) with 32769.
  replace (start - 32768 + (k + 1)) with ((start - 32768 + k) + 1) by lia.
  pose proof (Z.mod_pos_bound (start - 32768 + k) 32769 ltac:(lia)).
  rewrite (Zplus_mod (start - 32768 + k) 1), (Z.mod_small 1) by lia.
  case_decide as H1.
  - replace ((start - 32768 + k) mod 32769 + 1) with 32769 by lia. rewrite Z.mod_same by lia. lia.
  - rewrite (Z.mod_small (_ + 1)) by lia. lia.
Qed.

Lemma probe_0 start : minPort ≤ start ≤ maxPort → probe start 0 = start.
Proof.
  unfold probe, ports_n, minPort, maxPort. intros H. change (65536 - 32768 + 1) with 32769.
  rewrite Z.mod_small; lia.
Qed.

Lemma probe_inj start j k : minPort ≤ start ≤ maxPort → 0 ≤ j < ports_n → 0 ≤ k < ports_n →
  probe start j = probe start k → j = k.
Proof.
  unfold probe, ports_n, minPort, maxPort. change (65536 - 32768 + 1) with 32769. intros Hs Hj Hk H.
  pose proof (Z.div_mod (start - 32768 + j) 32769 ltac:(lia)).
  pose proof (Z.div_mod (start - 32768 + k) 32769 ltac:(lia)).
  set (a := (start - 32768 + j) `div` 32769) in *. set (b := (start - 32768 + k) `div` 32769) in *. lia.
Qed.

Lemma same_net_free n n' ps p : same_net n n' → free_at n' ps p = free_at n ps p.
Proof. intros (_ & H1 & H2 & H3). unfold free_at. by rewrite H1, H2, H3. Qed.

(** What the loop has probed after [j] rounds from the [k]th on. *)
Definition probed (start k : Z) (j : nat) : list Z := (probe start) <$> seqZ k (Z.of_nat j).

Lemma probed_cons start k j : probed start k (S j) = probe start k :: probed start (k + 1) j.
Proof. unfold probed. rewrite seqZ_cons by lia. cbn. do 3 f_equal. lia. Qed.

Lemma pick_loop_spec f net start k :
  minPort ≤ start ≤ maxPort → 0 ≤ k < ports_n → ports_n - k ≤ Z.of_nat f →
  ∃ net' r j, pick_loop f net (probe start k) start = Some (net', r) ∧ same_net net net' ∧
    probes net' = probes net ++ probed start k (S j) ∧ k + Z.of_nat j < ports_n ∧
    (∀ i : nat, (i < j)%nat → free_at net (probes net ++ probed start k (S i)) (probe start (k + Z.of_nat i)) = false) ∧
    let last := free_at net (probes net ++ probed start k (S j)) (probe start (k + Z.of_nat j)) in
    match r with
    | Ok p => p = probe start (k + Z.of_nat j) ∧ last = true
    | Err e => e = errNoFreePort ∧ k + Z.of_nat j = ports_n - 1 ∧ last = false
    end.
Proof.
  intros Hs. revert net k. induction f as [|f IH]; intros net k Hk Hf; [lia|]. cbn [pick_loop].
  pose proof (isFree_spec net (probe start k)) as Hfree.
  destruct (isFree net (probe start k)) as [net1 b]. destruct Hfree as (Hsame & Hp & ->).
  assert (probed start k 1 = [probe start k]) as Hone by (by rewrite probed_cons).
  destruct (free_at net _ _) eqn:Hb.
  { exists net1, (Ok (probe start k)), 0%nat. rewrite Hone, Z.add_0_r. split_and!; try done; lia. }
  rewrite probe_next. case_decide as Hstop.
  { exists net1, (Err errNoFreePort), 0%nat. rewrite Hone, Z.add_0_r. split_and!; try done; [lia|lia|].
    destruct (decide (k + 1 = ports_n)) as [|Hne]; [lia|]. rewrite <- (probe_0 start Hs) in Hstop at 2.
    apply probe_inj in Hstop; [|done|lia|unfold ports_n, maxPort, minPort; lia]. lia. }
  assert (k + 1 < ports_n) as Hk1.
  { destruct (decide (k + 1 < ports_n)); [done|]. destruct Hstop.
    rewrite <- (probe_0 start Hs) at 2. unfold probe. f_equal. replace (k + 1) with ports_n by lia.
    rewrite Z.add_0_r. rewrite <- Zplus_mod_idemp_r, Z.mod_same by (unfold ports_n, maxPort, minPort; lia).
    by rewrite Z.add_0_r. }
  destruct (IH net1 (k + 1)) as (net2 & r & j & -> & Hsame2 & Hp2 & Hlt & Hbusy & Hr); [lia|lia|].
  exists net2, r, (S j). rewrite Hp in Hp2, Hbusy, Hr.
  assert (∀ i, (probes net ++ [probe start k]) ++ probed start (k + 1) (S i) = probes net ++ probed start k (S (S i)))
    as Hshift by (intros i; by rewrite (probed_cons start k (S i)), <- app_assoc).
  split_and!; [done| | |lia| |].
  - destruct Hsame as (? & ? & ? & ?), Hsame2 as (? & ? & ? & ?). unfold same_net. split_and!; congruence.
  - by rewrite Hp2, Hshift.
  - intros [|i] Hi; [by rewrite Hone, Z.add_0_r|]. specialize (Hbusy i ltac:(lia)).
    rewrite (same_net_free net net1), Hshift in Hbusy by done.
    by replace (k + Z.of_nat (S i)) with (k + 1 + Z.of_nat i) by lia.
  - cbv zeta in *. rewrite (same_net_free net net1), Hshift in Hr by done.
    replace (k + Z.of_nat (S j)) with (k + 1 + Z.of_nat j) by lia. destruct r; [done|]. destruct Hr as (? & ? & ?). split_and!; [done|lia|done].
Qed.

(** C37: [PickUnusedPort] always ends, after at most 32769 probes, and leaves no descriptor open.  It
    returns the first port it finds free, walking up from the random start and around, one the
    kernel can bind, from 32768 to 65535; it fails only after every port of the range was probed
    once, in that order, and none was free when it was probed. *)
Theorem pick_port net rnd :
  0 ≤ rnd < ports_n →
  let start := minPort + rnd in
  ∃ net' r j, PickUnusedPort net rnd = Some (net', r) ∧ fds net' = fds net ∧ Z.of_nat j < 32769 ∧
    probes net' = probes net ++ probed start 0 (S j) ∧ NoDup (probed start 0 (S j)) ∧
    (∀ i : nat, (i < j)%nat → free_at net (probes net ++ probed start 0 (S i)) (probe start (Z.of_nat i)) = false) ∧
    match r with
    | Ok p => 32768 ≤ p ≤ 65535 ∧ p = probe start (Z.of_nat j) ∧ free_at net (probes net') p = true
    | Err e => e = errNoFreePort ∧ Z.of_nat j = 32768 ∧ free_at net (probes net') (probe start (Z.of_nat j)) = false
    end.
Proof.
  intros Hr start. assert (minPort ≤ start ≤ maxPort) as Hs
    by (unfold start, ports_n, minPort, maxPort in *; lia).
  destruct (pick_loop_spec (Z.to_nat ports_n) net start 0 Hs) as (net' & r & j & H1 & H2 & H3 & H4 & H5 & H6);
    [unfold ports_n, minPort, maxPort; lia|unfold ports_n, minPort, maxPort; lia|].
  exists net', r, j. rewrite (probe_0 _ Hs) in H1. cbn [Z.add] in *.
  assert (NoDup (probed start 0 (S j))) as Hnd.
  { unfold probed. apply NoDup_fmap_2_strong; [|apply NoDup_seqZ]. intros x y Hx%elem_of_seqZ Hy%elem_of_seqZ He.
    apply (probe_inj start); [done|lia|lia|done]. }
  split_and!; [exact H1|by destruct H2|unfold ports_n, minPort, maxPort in H4; lia|done|done|done|].
  rewrite H3. cbv zeta in H6. destruct r as [p|e].
  - destruct H6 as [-> Hl]. split_and!; [apply (probe_range start)| |done|done].
    unfold free_at in Hl. rewrite !andb_true_iff, bool_decide_eq_true in Hl. lia.
  - destruct H6 as (-> & Hj & Hl). split_and!; [done|unfold ports_n, minPort, maxPort in Hj; lia|done].
Qed.

Lemma pick_first net rnd :
  0 ≤ rnd < ports_n → free_at net (probes net ++ [minPort + rnd]) (minPort + rnd) = true →
  ∃ net', PickUnusedPort net rnd = Some (net', Ok (minPort + rnd)) ∧ same_net net net'.
Proof.
  intros Hr Hf. unfold PickUnusedPort. destruct (Z_of_nat_complete (maxPort - minPort + 1)) as [[|f] E];
    [done|done|].
  rewrite E, Nat2Z.id. cbn [pick_loop]. pose proof (isFree_spec net (minPort + rnd)) as H.
  destruct (isFree net _) as [net' b]. destruct H as (? & _ & ->). rewrite Hf. by exists net'.
Qed.

(** [GetAdbPorts] does not keep its three ports apart: nothing is bound between the calls, and
    when all the ports are free and the generator draws the same number, they are the same. *)
Theorem adb_ports_collide net r :
  0 ≤ r < ports_n - 1 → (∀ ps p, 32768 ≤ p ≤ 65535 → free_at net ps p = true) →
  ∃ net', GetAdbPorts net r r r =
    Some (net', Ok (fmt_int (minPort + r), fmt_int (minPort + r), fmt_int (minPort + r))).
Proof.
  intros Hr Hf. assert (32768 ≤ minPort + r ≤ 65535) by (unfold ports_n, minPort, maxPort in *; lia).
  unfold GetAdbPorts.
  destruct (pick_first net r) as (n1 & -> & H1); [lia|by apply Hf|].
  destruct (pick_first n1 r) as (n2 & -> & H2); [lia|by rewrite (same_net_free net n1), Hf|].
  destruct (pick_first n2 r) as (n3 & -> & H3);
    [lia|by rewrite (same_net_free n1 n2), (same_net_free net n1), Hf|]. by exists n3.
Qed.

(** ** Devices *)

Lemma shell_output_at iw body tail :
  LastIndex (body +:+ "ret=" +:+ tail) "ret=" = slen body →
  shell_output iw (body +:+ "ret=" +:+ tail) =
  Ret (TrimSpace body, match Atoi iw (TrimSpace tail) with
    | (_, Some _) => Some (ErrorString ("error parsing return code ret=" +:+ tail))
    | (ret, None) =>
        if decide (ret ≠ 0)
        then Some (ErrorString ("non-zero return code '" +:+ fmt_int ret +:+ "' out " +:+ TrimSpace body)) else None
    end).
Proof.
  intros HL. unfold shell_output. rewrite HL, sslice_suffix. cbn [obind].
  rewrite slen_app. replace (slen body + slen ("ret=" +:+ tail) - slen ("ret=" +:+ tail)) with (slen body) by lia.
  rewrite sslice_prefix. cbn [obind].
  change 4 with (slen "ret="). by rewrite sslice_suffix.
Qed.

(** The same outcome: a text, an error, a panic. *)
Definition same_outcome (r1 r2 : outcome (string * option error)) : Prop :=
  match r1, r2 with
  | Ret (s1, None), Ret (s2, None) => s1 = s2
  | Ret (_, Some _), Ret (_, Some _) => True
  | Panic, Panic => True
  | _, _ => False
  end.

Lemma shell_outputs_agree iw args o : same_outcome (parse_shell iw args o) (shell_output iw o).
Proof.
  destruct (decide (0 ≤ LastIndex o "ret=")) as [H|H].
  - destruct (LastIndex_found o "ret=" H) as (a & b & -> & HL).
    rewrite parse_shell_at, shell_output_at by done. destruct (Atoi iw (TrimSpace b)) as [ret [e|]]; [done|].
    by case_decide.
  - assert (sslice o (LastIndex o "ret=") (slen o) = Panic) as E
      by (unfold sslice; by rewrite decide_False by lia).
    unfold parse_shell, shell_output. by rewrite E.
Qed.

(** [ExecOnDevice] for [shell] is [Device.Shell] of a device on the default server: the same
    command is run, and both give the same text, both an error, or both panic. *)
Theorem exec_on_device_is_shell iw w a args :
  AdbServerPort a = "" → dev_args a = None →
  let '(_, w1, r1) := Shell iw a w args in
  let '(w2, r2) := ExecOnDevice iw w (AdbPath a) (DeviceName a) "shell" args in
  w1 = w2 ∧ same_outcome r1 r2.
Proof.
  intros Hp Ha. unfold Shell, ExecOnDevice, adb_run, deviceArgs. rewrite Ha, Hp.
  rewrite (decide_False (P := "" ≠ "")) by (by intros []). cbn [AdbPath DeviceName].
  rewrite (decide_True (P := "shell" = "shell")) by done. cbn [app].
  destruct (run w _ _) as [w' [o err]]. destruct err as [e|].
  - rewrite decide_False by (by intros [_ ?]). done.
  - rewrite decide_True by done. split; [done|]. apply shell_outputs_agree.
Qed.

(** ** Runfiles *)

(** The function of [rfsOnce] finds the directory only when the working directory is below it:
    outside it returns a prefix of the working directory that has nothing to do with it, or
    panics; and after a panic every later call returns the empty path. *)
Theorem runfiles_root wd arg0 :
  let execRoot := Base arg0 +:+ "." +:+ workspaceDir in
  (HasSuffix wd workspaceDir = true → find_runfiles (Ok wd) arg0 = Ret wd) ∧
  (∀ a b, HasSuffix wd workspaceDir = false → wd = a +:+ execRoot +:+ b → LastIndex wd execRoot = slen a →
     find_runfiles (Ok wd) arg0 = Ret (a +:+ execRoot)) ∧
  (HasSuffix wd workspaceDir = false → Contains wd execRoot = false →
     find_runfiles (Ok wd) arg0 = sslice wd 0 (slen execRoot - 1) ∧
     (find_runfiles (Ok wd) arg0 = Panic ↔ slen wd < slen execRoot - 1)) ∧
  (∀ wd', find_runfiles wd' arg0 = Panic →
     let s := fst (RunfilesRoot (MkRunfiles false "") wd' arg0) in
     ∀ wd'' arg', RunfilesRoot s wd'' arg' = (s, Ret "")).
Proof.
  intros execRoot. split_and!.
  - unfold find_runfiles. by intros ->.
  - unfold find_runfiles. fold execRoot. intros a b -> E ->. rewrite E. rewrite <- slen_app. rewrite <- sapp_assoc. apply sslice_prefix.
  - unfold find_runfiles. fold execRoot. intros -> Hc. assert (LastIndex wd execRoot = -1) as ->.
    { pose proof (LastIndex_lower wd execRoot). destruct (decide (0 ≤ LastIndex wd execRoot)) as [H0|]; [|lia].
      destruct (LastIndex_found _ _ H0) as (a & b & Hw & _).
      rewrite (proj2 (Contains_true wd execRoot)) in Hc; [done|]. by exists a, b. }
    replace (-1 + slen execRoot) with (slen execRoot - 1) by lia. split; [done|]. unfold sslice.
    assert (0 < slen execRoot).
    { unfold execRoot. rewrite !slen_app. pose proof (slen_nonneg (Base arg0)).
      change (slen ".") with 1. change (slen workspaceDir) with 13. lia. }
    case_decide; (split; [try done|]); lia || done.
  - intros wd' H. unfold RunfilesRoot. cbn [rfsOnce]. by rewrite H.
Qed.

(** [SetupEmu] reports the directory it made only when the emulator was started in it, with the
    given ports; when the start fails the directory stays behind. *)
Theorem setup_emu w launcher sp ap ep :
  let '(w', r) := SetupEmu w launcher sp ap ep in
  match r with
  | Ok d => ∃ out, trace w' = trace w ++ [TempDir "emulator"; Run launcher
      ["--action"; "mini_boot"; "--emulator_tmp_dir"; d; "--adb_server_port"; sp; "--adb_port"; ap;
       "--emulator_port"; ep; "--noenable_display"; "--nowith_audio"]] ∧ onRun w (trace w') = (out, None)
  | Err _ => ∀ d, RemovePath d ∈ trace w' → RemovePath d ∈ trace w
  end.
Proof.
  unfold SetupEmu, tempDir, startEmulator, run. cbn [record trace onTemp onRun].
  destruct (onTemp w _) as [d|e]; cbn [trace].
  - destruct (onRun w _) as [out [e|]] eqn:E; cbn [trace].
    + intros d'. cbn. rewrite !elem_of_app, !list_elem_of_singleton. intros [[?|?]|?]; done.
    + exists out. cbn in *. rewrite <- app_assoc in *. split; [reflexivity|exact E].
  - intros d. cbn. rewrite elem_of_app, list_elem_of_singleton. by intros [?|?].
Qed.

(** ** Witnesses *)

Definition demo_net : Net := MkNet [] 0 (λ _, true) (λ _, true) (λ ps, bool_decide (2 ≤ length ps)%nat).

Lemma pick_port_witness : ∃ net' r j, PickUnusedPort demo_net 5 = Some (net', r) ∧
  probes net' = probed (minPort + 5) 0 (S j).
Proof.
  destruct (pick_port demo_net 5) as (net' & r & j & H1 & _ & _ & H2 & _).
  - split; [discriminate|reflexivity].
  - exists net', r, j. split; [exact H1|exact H2].
Defined.

Lemma adb_ports_collide_witness : ∃ net',
  GetAdbPorts (MkNet [] 0 (λ _, true) (λ _, true) (λ _, true)) 7 7 7 =
  Some (net', Ok ("32775", "32775", "32775")).
Proof.
  refine (adb_ports_collide (MkNet [] 0 (λ _, true) (λ _, true) (λ _, true)) 7 _ _).
  - split; [discriminate|reflexivity].
  - intros ps p Hp. unfold free_at. cbn. rewrite bool_decide_true by (clear - Hp; lia). reflexivity.
Defined.

Lemma exec_on_device_is_shell_witness :
  same_outcome (Ret ("x", None))
    (snd (ExecOnDevice 64 (const_env ("x" +:+ newline +:+ "ret=0" +:+ newline) None None None (Ok "") None)
       "adb" "emu" "shell" ["ls"])).
Proof.
  pose proof (exec_on_device_is_shell 64
    (const_env ("x" +:+ newline +:+ "ret=0" +:+ newline) None None None (Ok "") None)
    (MkDevice "adb" "emu" "" None) ["ls"] eq_refl eq_refl) as H.
  vm_compute in H. vm_compute. exact (proj2 H).
Defined.

Lemma runfiles_root_witness :
  find_runfiles (Ok "/b/t.runfiles/devx/waterfall") "/x/t" = Ret "/b/t.runfiles/devx" ∧
  find_runfiles (Ok "/home/user/work/place") "/x/t" = Ret "/home/user/wor".
Proof.
  split.
  - exact (proj1 (proj2 (runfiles_root "/b/t.runfiles/devx/waterfall" "/x/t")) "/b/" "/waterfall"
      eq_refl eq_refl eq_refl).
  - refine (eq_trans (proj1 (proj1 (proj2 (proj2 (runfiles_root "/home/user/work/place" "/x/t")))
      eq_refl eq_refl)) _). reflexivity.
Defined.
