(* ===== verification/TestServer.v ===== *)
(** * The echo server of the qemu tests: src/waterfall/golang/net/qemu/test_server.go

    For each of a fixed number of connections one goroutine copies the connection into a pipe and
    one copies the pipe back into the connection; each checks how many bytes it moved. *)

From S2P Require Import Prelude GoStrings GoIO.

Local Open Scope Z_scope.

(** A connection: the slices its reads return, how it ends, what it takes, and what the reading
    goroutine gets after the writing one has failed and closed the pipe and the connection. *)
Record conn := MkConn {
  reads : list (list byte);
  ends : error;
  takes : sink;
  cut_off : Z * option error;
}.

(** Both copies: the pipe has no buffer, so each slice is read, handed over and written before
    the next is read.  The counts and errors of [io.Copy(w, c)] and [io.Copy(c, r)]. *)
Fixpoint pump (bs : list (list byte)) (e : error) (late : Z * option error) (out : sink) (n : Z)
    : sink * ((Z * option error) * (Z * option error)) :=
  match bs with
  | [] => (out, ((n, if decide (e = EOF) then None else Some e), (n, None)))
  | b :: bs' =>
      match sink_write out b with
      | (out, (_, None)) => pump bs' e late out (n + len b)
      | (out, (k, Some we)) => (out, (late, (n + k, Some we)))
      end
  end.

(** What a goroutine returns for the result of its copy. *)
Definition copy_error (did goal : string) (recN : Z) (r : Z * option error) : option error :=
  match r with
  | (n, Some e) => if decide (e ≠ EOF) then Some e else
      if decide (n ≠ recN) then Some (ErrorString (did +:+ fmt_int n +:+ goal +:+ fmt_int recN)) else None
  | (n, None) =>
      if decide (n ≠ recN) then Some (ErrorString (did +:+ fmt_int n +:+ goal +:+ fmt_int recN)) else None
  end.

(** The two goroutines of a connection: what the connection was given, and their errors. *)
Definition echo_conn (recN : Z) (c : conn) : sink * (option error * option error) :=
  let '(out, (r, w)) := pump (reads c) (ends c) (cut_off c) (takes c) 0 in
  (out, (copy_error "read " " bytes but was supposed to read " recN r,
         copy_error "wrote " " bytes but was supposed to write " recN w)).

(** How the process ends: it logs "Dying..." and returns, or [log.Fatal]. *)
Inductive status := Dying | Fatal.

(** The loop of [main()] over the accepted connections ([None]: an accept failed), and [eg.Wait]. *)
Fixpoint serve (recN : Z) (cs : list (option conn)) (outs : list sink) (failed : bool) : list sink * status :=
  match cs with
  | [] => (outs, if failed then Fatal else Dying)
  | None :: _ => (outs, Fatal)
  | Some c :: cs' =>
      let '(out, (e1, e2)) := echo_conn recN c in
      serve recN cs' (outs ++ [out]) (failed || bool_decide (e1 ≠ None) || bool_decide (e2 ≠ None))
  end.

(** [main()] with the flags [rec_n] and, as the length of the list, [conns]; the log file and the
    pipe are what their opening gives. *)
Definition test_server (logFile pipe : option error) (recN : Z) (cs : list (option conn)) : list sink * status :=
  match logFile, pipe with
  | None, None => serve recN cs [] false
  | _, _ => ([], Fatal)
  end.

Lemma pump_healthy bs e late out n :
  quota out = None →
  pump bs e late out n =
  (MkSink (taken out ++ concat bs) None,
   ((n + len (concat bs), if decide (e = EOF) then None else Some e), (n + len (concat bs), None))).
Proof.
  revert out n. induction bs as [|b bs IH]; intros [tk q] n Hq; cbn in Hq; subst q; cbn [pump concat].
  - rewrite app_nil_r. unfold len. cbn. by rewrite Z.add_0_r.
  - cbn. rewrite IH by done. cbn. rewrite <- app_assoc, len_app. by rewrite Z.add_assoc.
Qed.

(** One connection is echoed without an error exactly when its peer sent [recN] bytes and then
    ended the stream. *)
Lemma echo_conn_ok recN c :
  quota (takes c) = None →
  fst (echo_conn recN c) = MkSink (taken (takes c) ++ concat (reads c)) None ∧
  (snd (echo_conn recN c) = (None, None) ↔ len (concat (reads c)) = recN ∧ ends c = EOF).
Proof.
  intros Hq. unfold echo_conn. rewrite pump_healthy by done. cbn [fst snd Z.add]. split; [done|].
  change (0 + len (concat (reads c))) with (len (concat (reads c))).
  unfold copy_error. destruct (decide (ends c = EOF)) as [He|He].
  - destruct (decide (len (concat (reads c)) ≠ recN)) as [Hn|Hn]; [naive_solver|].
    split; [intros _|done]. split; [lia|done].
  - rewrite decide_True by done. naive_solver.
Qed.

Lemma serve_spec recN cs outs failed :
  Forall (λ c, quota (takes c) = None) cs →
  fst (serve recN (Some <$> cs) outs failed) =
    outs ++ ((λ c, MkSink (taken (takes c) ++ concat (reads c)) None) <$> cs) ∧
  (snd (serve recN (Some <$> cs) outs failed) = Dying ↔
   failed = false ∧ Forall (λ c, len (concat (reads c)) = recN ∧ ends c = EOF) cs).
Proof.
  intros H. revert outs failed. induction H as [|c cs Hq _ IH]; intros outs failed; cbn.
  - rewrite app_nil_r. split; [done|]. destruct failed; split; try done; by intros [? _].
  - destruct (echo_conn_ok recN c Hq) as [Ho Hok].
    destruct (echo_conn recN c) as [out [e1 e2]]. cbn [fst snd] in *. subst out.
    destruct (IH (outs ++ [MkSink (taken (takes c) ++ concat (reads c)) None])
      (failed || bool_decide (e1 ≠ None) || bool_decide (e2 ≠ None))) as [H1 H2].
    rewrite H1, H2, <- app_assoc. split; [done|]. rewrite list.Forall_cons, <- Hok.
    rewrite !orb_false_iff, !bool_decide_eq_false.
    destruct e1, e2; naive_solver.
Qed.

(** The server ends well exactly when every connection was accepted, delivered [rec_n] bytes and
    then its end; and whatever it ends with, each peer that keeps reading gets back, in order,
    what it sent. *)
Theorem test_server_echoes recN cs :
  Forall (λ c, quota (takes c) = None) cs →
  fst (test_server None None recN (Some <$> cs)) =
    ((λ c, MkSink (taken (takes c) ++ concat (reads c)) None) <$> cs) ∧
  (snd (test_server None None recN (Some <$> cs)) = Dying ↔
   Forall (λ c, len (concat (reads c)) = recN ∧ ends c = EOF) cs).
Proof.
  intros H. destruct (serve_spec recN cs [] false H) as [H1 H2].
  split; [exact H1|]. cbn [test_server]. rewrite H2. naive_solver.
Qed.

Lemma test_server_echoes_witness :
  snd (test_server None None 3 [Some (MkConn [["a"; "b"]; ["c"]]%char EOF (MkSink [] None) (0, None))]) = Dying.
Proof.
  apply (test_server_echoes 3 [MkConn [["a"; "b"]; ["c"]]%char EOF (MkSink [] None) (0, None)]).
  - constructor; [reflexivity|constructor].
  - constructor; [split; reflexivity|constructor].
Defined.
