(* ===== verification/Bootstrap.v ===== *)
(** * Bootstrapping: src/waterfall/golang/bootstrap

    [Bootstrap] of bootstrap.go, which starts the server on the device and the forwarder on the
    host when they do not answer, and the two binaries around it and around the USB variant.
    The theorems: a bootstrap that reports success ended with an answer of the server, and its
    report says exactly what was started. *)

From S2P Require Import Prelude GoStrings Filepath Fs Host AdbDevice.

Local Open Scope Z_scope.

(** ** bootstrap.go *)

Definition helloMsg : string := "hello".
Definition waterfallBinPath : string := "/data/local/tmp/waterfall".
Definition waterfallScriptPath : string := "/data/local/tmp/waterfall.sh".

Definition dquote : string := String (Ascii.ascii_of_nat 34) "".

(** The script [waterfallSh] with its two arguments filled in. *)
Definition waterfallSh (bin addr : string) : string :=
  let call := dquote +:+ "${waterfall_bin}" +:+ dquote +:+ " --addr " +:+ dquote +:+ "${addr}" +:+ dquote in
  Join ["#!/system/bin/sh"; "# start waterfall through adb"; "# but make sure it does not die if adb dies";
        "waterfall_bin=" +:+ bin; "addr=" +:+ addr; "cd /data/local/tmp"; "# prefer root if possible";
        "su -c nohup " +:+ call +:+ " || nohup " +:+ call] newline.

Record Result := MkResult { StartedServer : bool; StartedForwarder : bool }.

(** [retry(fn, attempts)]: the error of the last attempt, nil when there was none to make. *)
Fixpoint retry_loop (fn : Env → Env * option error) (n : nat) (w : Env) (err : option error)
    : Env * option error :=
  match n with
  | O => (w, err)
  | S n' =>
      match fn w with
      | (w, None) => (w, None)
      | (w, Some e) => retry_loop fn n' w (Some e)
      end
  end.

Definition retry (fn : Env → Env * option error) (attempts : Z) (w : Env) : Env * option error :=
  retry_loop fn (Z.to_nat attempts) w None.

(** [pingServer(ctx, addr, timeout)]: running out of time is an error of the answers. *)
Definition pingServer (w : Env) (addr : string) : Env * option error :=
  match dial w addr with
  | (w, Some e) => (w, Some e)
  | (w, None) =>
      match echo w addr helloMsg with
      | (w, Err e) => (w, Some e)
      | (w, Ok r) =>
          if decide (r ≠ helloMsg)
          then (w, Some (ErrorString ("unexpected response message: " +:+ r)))
          else (w, None)
      end
  end.

(** [connectToPipe]: the result of [qemu.MakeConnBuilder] and of [Accept] on it; the timeout of
    the context does not reach [Accept]. *)
Definition connectToPipe (qb : result unit) (accept : outcome (result unit)) : outcome (option error) :=
  match qb with
  | Err e => Ret (Some e)
  | Ok _ => obind accept (λ _, Ret None)
  end.

(** [startWaterfall(adbConn, wtf, addr)]; the error of [TempDir] is not looked at. *)
Definition startWaterfall (a : Device) (w : Env) (wtf addr : string) : Device * Env * option error :=
  match Push a w wtf waterfallBinPath with
  | (a, w, Some e) => (a, w, Some e)
  | (a, w, None) =>
      let sc := waterfallSh waterfallBinPath addr in
      let '(w, td) := tempDir w "waterfall" in
      let dir := match td with Ok d => d | Err _ => "" end in
      let name := PathJoin dir "waterfall.sh" in
      match writeFile w name sc with
      | (w, Some e) => (a, removeAll w dir, Some e)
      | (w, None) =>
          match Push a w name waterfallScriptPath with
          | (a, w, Some e) => (a, removeAll w dir, Some e)
          | (a, w, None) =>
              let '(a, w, err) := StartCmd a w waterfallScriptPath in
              (a, removeAll w dir, err)
          end
      end
  end.

(** [startForwarder(forwarderBin, lisAddr, connAddr)] *)
Definition startForwarder (w : Env) (forwarderBin lisAddr connAddr : string) : Env * option error :=
  start w forwarderBin ["-connect_addr"; connAddr; "-listen_addr"; lisAddr].

(** The loop over the [arch:path] arguments. *)
Fixpoint arch_paths (paths : list string) (m : gmap string string) : result (gmap string string) :=
  match paths with
  | [] => Ok m
  | p :: ps =>
      match Split p ":" with
      | [pt0; pt1] => arch_paths ps (<[pt0 := pt1]> m)
      | _ => Err (ErrorString ("can't parse server path " +:+ p))
      end
  end.

(** The loop over the architectures of the device. *)
Fixpoint first_arch (m : gmap string string) (abis : list string) : option string :=
  match abis with
  | [] => None
  | abi :: abis' => match m !! abi with Some p => Some p | None => first_arch m abis' end
  end.

(** [waterfallPath(adbConn, paths)] *)
Definition waterfallPath (iw : Z) (a : Device) (w : Env) (paths : list string)
    : Device * Env * outcome (result string) :=
  let '(a, w, r) := AbiList iw a w in
  (a, w, obind r (λ '(abis, err),
     match err with
     | Some e => Ret (Err e)
     | None =>
         match arch_paths paths ∅ with
         | Err e => Ret (Err e)
         | Ok m =>
             match first_arch m (Split abis ",") with
             | Some p => Ret (Ok p)
             | None =>
                 Ret (Err (ErrorString ("no valid server for architectures " +:+ abis +:+ " got [" +:+
                                        Join paths " " +:+ "]")))
             end
         end
     end)).

(** The end of [Bootstrap]: verify the set up before confirming it. *)
Definition verify (a : Device) (w : Env) (lisAddr : string) (ss sf : bool)
    : Device * Env * outcome (result Result) :=
  match retry (λ w, pingServer w lisAddr) 3 w with
  | (w, Some e) => (a, w, Ret (Err e))
  | (w, None) => (a, w, Ret (Ok (MkResult ss sf)))
  end.

(** The branch with qemu pipes. *)
Definition bootstrap_qemu (a : Device) (w : Env) (svr forwarderBin socketDir socketName lisAddr : string)
    : Device * Env * outcome (result Result) :=
  let connAddr := "qemu:" +:+ socketDir +:+ ":" +:+ socketName in
  let svrAddr := "qemu-guest:" +:+ socketName in
  let '(w, st) := stat w (PathJoin socketDir socketName) in
  let '(w, sf, err) :=
    if decide (st = Some ENOENT) then
      let '(w, err) := startForwarder w forwarderBin lisAddr connAddr in (w, true, err)
    else (w, false, None) in
  match err with
  | Some e => (a, w, Ret (Err e))
  | None =>
      match retry (λ w, pingServer w lisAddr) 3 w with
      | (w, None) => (a, w, Ret (Ok (MkResult false sf)))
      | (w, Some _) =>
          match startWaterfall a w svr svrAddr with
          | (a, w, Some e) => (a, w, Ret (Err e))
          | (a, w, None) => verify a w lisAddr true sf
          end
      end
  end.

(** The branch that tunnels through adb. *)
Definition bootstrap_adb (a : Device) (w : Env) (svr unixName lisAddr : string)
    : Device * Env * outcome (result Result) :=
  match ForwardAbstract a w unixName unixName with
  | (a, w, Some e) => (a, w, Ret (Err (ErrorString ("error forwarding through adb: " +:+ Error e))))
  | (a, w, None) =>
      match pingServer w lisAddr with
      | (w, None) => verify a w lisAddr false false
      | (w, Some _) =>
          match startWaterfall a w svr lisAddr with
          | (a, w, Some e) => (a, w, Ret (Err e))
          | (a, w, None) => verify a w lisAddr true false
          end
      end
  end.

(** [Bootstrap(ctx, adbConn, waterfallBin, forwarderBin, socketDir, socketName, timeout)] *)
Definition Bootstrap (iw : Z) (a : Device) (w : Env) (waterfallBin : list string)
    (forwarderBin socketDir socketName : string) : Device * Env * outcome (result Result) :=
  let unixName := "h2o_" +:+ DeviceName a in
  let lisAddr := "unix:@" +:+ unixName in
  match pingServer w lisAddr with
  | (w, None) => (a, w, Ret (Ok (MkResult false false)))
  | (w, Some _) =>
      match waterfallPath iw a w waterfallBin with
      | (a, w, Panic) => (a, w, Panic)
      | (a, w, Block) => (a, w, Block)
      | (a, w, Ret (Err e)) => (a, w, Ret (Err e))
      | (a, w, Ret (Ok svr)) =>
          if decide (socketDir ≠ "")
          then bootstrap_qemu a w svr forwarderBin socketDir socketName lisAddr
          else bootstrap_adb a w svr unixName lisAddr
      end
  end.

(** ** bootstrap_bin.go *)

(** The flags of the binary. *)
Record BootFlags := MkBootFlags {
  f_socketDir : string; f_qemuSocket : string; f_forwarderBin : string; f_waterfallBin : string;
  f_adbBin : string; f_adbDeviceName : string; f_adbServerPort : string;
}.

(** How a binary ends: normally, or with [log.Fatal]. *)
Inductive exit := Done | Fatal (msg : string).

(** [main()] of bootstrap_bin.go *)
Definition bootstrap_main (iw : Z) (f : BootFlags) (w : Env) : Env * outcome exit :=
  if decide (f_forwarderBin f = "" ∨ f_waterfallBin f = "" ∨ f_qemuSocket f = "" ∨ f_adbBin f = "" ∨
             f_adbDeviceName f = "" ∨ f_adbServerPort f = "") then
    (w, Ret (Fatal "need to provide -forwarder_bin, -waterfall_bin, -qemu_socket, -adb_bin, -adb_device_name and -adb_server_port when bootstrapping."))
  else
  let svrs := Split (f_waterfallBin f) "," in
  let adbConn := MkDevice (f_adbBin f) (f_adbDeviceName f) (f_adbServerPort f) None in
  match Connect adbConn w with
  | (a, w, Some e) => (w, Ret (Fatal ("Error connecting to device " +:+ DeviceName a +:+ ": " +:+ Error e)))
  | (a, w, None) =>
      let boot a w sts :=
        match Bootstrap iw a w svrs (f_forwarderBin f) sts (f_qemuSocket f) with
        | (_, w, Panic) => (w, Panic)
        | (_, w, Block) => (w, Block)
        | (_, w, Ret (Err e)) => (w, Ret (Fatal ("failed to bootstrap h2o: " +:+ Error e)))
        | (_, w, Ret (Ok _)) => (w, Ret Done)
        end in
      if decide (f_socketDir f = "") then
        match QemuPipeDir iw a w with
        | (_, w, Panic) => (w, Panic)
        | (_, w, Block) => (w, Block)
        | (_, w, Ret (_, Some e)) => (w, Ret (Fatal ("error getting pipe dir: " +:+ Error e)))
        | (a, w, Ret (sts, None)) => boot a w (if decide (sts ≠ "") then Dir sts else sts)
        end
      else boot a w (f_socketDir f)
  end.

(** ** What each part leaves in the history *)

Definition is_start (e : event) : bool := match e with Start _ _ => true | _ => false end.

(** The programs started and left running, in order. *)
Definition starts (tr : list event) : list event := filter (λ e, is_start e = true) tr.

Lemma starts_app tr tr' : starts (tr ++ tr') = starts tr ++ starts tr'.
Proof. apply list.filter_app. Qed.

(** Some events later, none of which starts a program. *)
Abbreviation quiet := (later (λ e, is_start e = false)).

Lemma quiet_starts w w' : quiet w w' → starts (trace w') = starts (trace w).
Proof.
  intros [(es & -> & H) _ _ _ _]. rewrite starts_app. rewrite <- (app_nil_r (starts (trace w))) at 2.
  f_equal. induction H as [|e es He _ IH]; [done|]. unfold starts. by rewrite list.filter_cons_False by congruence.
Qed.

(** The history [tr'] ends with a ping that the server at [addr] answered. *)
Definition answered (w : Env) (addr : string) (tr' : list event) : Prop :=
  ∃ tr, tr' = tr ++ [Dial addr; EchoCall addr helloMsg] ∧
    onDial w (tr ++ [Dial addr]) = None ∧ onEcho w tr' = Ok helloMsg.

Lemma answered_later P w w' addr tr : later P w w' → answered w' addr tr → answered w addr tr.
Proof. intros [_ _ _ Hd He] (tr0 & -> & H1 & H2). exists tr0. by rewrite <- Hd, <- He. Qed.

Lemma pingServer_spec w addr w' r :
  pingServer w addr = (w', r) → quiet w w' ∧ (r = None → answered w addr (trace w')).
Proof.
  unfold pingServer, dial, echo. cbn.
  assert (quiet w (record w (Dial addr))) as H1 by by apply later_record.
  assert (quiet w (record (record w (Dial addr)) (EchoCall addr helloMsg))) as H2
    by (eapply later_trans; [done|]; by apply later_record).
  destruct (onDial w (trace w ++ [Dial addr])) as [e|] eqn:Ed; [by intros [= <- <-]|].
  destruct (onEcho w _) as [m|e] eqn:Ee; [|by intros [= <- <-]].
  case_decide as Hm; intros [= <- <-]; [done|]. split; [done|]. intros _.
  exists (trace w). rewrite <- app_assoc in Ee. cbn in Ee |- *. rewrite <- app_assoc. cbn.
  split_and!; [done|done|]. rewrite Ee. f_equal. by destruct (decide (m = helloMsg)); [|by destruct Hm].
Qed.

Lemma retry_loop_spec addr n w err w' r :
  retry_loop (λ w, pingServer w addr) n w err = (w', r) →
  quiet w w' ∧ (r = None → answered w addr (trace w') ∨ n = O ∧ err = None).
Proof.
  revert w err. induction n as [|n IH]; intros w err; cbn [retry_loop].
  { intros [= <- <-]. split; [apply later_refl|]. by right. }
  destruct (pingServer w addr) as [w1 [e|]] eqn:E; apply pingServer_spec in E as [Hq Ha].
  - intros H. apply IH in H as [Hq' Ha']. split; [by eapply later_trans|]. intros Hr.
    destruct (Ha' Hr) as [?|[_ ?]]; [|done]. left. by eapply answered_later.
  - intros [= <- <-]. split; [done|]. intros _. left. by apply Ha.
Qed.

Lemma retry_ping_spec addr w w' r :
  retry (λ w, pingServer w addr) 3 w = (w', r) →
  quiet w w' ∧ (r = None → answered w addr (trace w')).
Proof.
  intros H. apply retry_loop_spec in H as [? H]. split; [done|]. intros Hr.
  by destruct (H Hr) as [?|[? _]].
Qed.

Lemma adb_run_quiet a w args a' w' r :
  adb_run a w args = (a', w', r) → same_device a a' ∧ quiet w w'.
Proof.
  intros H. apply adb_run_ok in H as ([Hs [_ H1 H2 H3 H4]] & Ht & _). split; [done|].
  constructor; try done. eexists. split; [done|]. by apply Forall_singleton.
Qed.

Lemma Push_quiet a w src dst a' w' r :
  Push a w src dst = (a', w', r) → same_device a a' ∧ quiet w w'.
Proof.
  unfold Push. destruct (adb_run a w _) as [[a1 w1] [o err]] eqn:E. apply adb_run_quiet in E.
  destruct err; by intros [= <- <- <-].
Qed.

Lemma ForwardAbstract_quiet a w l r0 a' w' r :
  ForwardAbstract a w l r0 = (a', w', r) → same_device a a' ∧ quiet w w'.
Proof.
  unfold ForwardAbstract. destruct (adb_run a w _) as [[a1 w1] [o err]] eqn:E. apply adb_run_quiet in E.
  destruct err; by intros [= <- <- <-].
Qed.

Lemma waterfallPath_quiet iw a w paths a' w' r :
  waterfallPath iw a w paths = (a', w', r) → same_device a a' ∧ quiet w w'.
Proof.
  unfold waterfallPath, AbiList, getprop, Shell.
  destruct (adb_run a w _) as [[a1 w1] [o err]] eqn:E. apply adb_run_quiet in E.
  destruct err; by intros [= <- <- <-].
Qed.

(** The event of starting the server's script on the device, and the forwarder on the host. *)
Definition server_event (a : Device) : event :=
  Start (AdbPath a) (device_flags a ++ ["shell"; waterfallScriptPath]).

Definition forwarder_event (bin lisAddr socketDir socketName : string) : event :=
  Start bin ["-connect_addr"; "qemu:" +:+ socketDir +:+ ":" +:+ socketName; "-listen_addr"; lisAddr].

(** Later in any way. *)
Abbreviation after := (later (λ _, True)).

Lemma quiet_after w w' : quiet w w' → after w w'.
Proof. by apply later_weaken. Qed.

Lemma startWaterfall_spec a w wtf addr a' w' :
  startWaterfall a w wtf addr = (a', w', None) →
  same_device a a' ∧ after w w' ∧ starts (trace w') = starts (trace w) ++ [server_event a].
Proof.
  unfold startWaterfall. destruct (Push a w _ _) as [[a1 w1] [e|]] eqn:E1; [done|].
  apply Push_quiet in E1 as [S1 Q1]. unfold tempDir, writeFile.
  set (dir := match onTemp _ _ with Ok d => d | Err _ => "" end).
  set (w2 := record w1 (TempDir "waterfall")) in *. set (w3 := record w2 (WriteFile _ _)).
  assert (quiet w w3) as Q3.
  { eapply later_trans; [exact Q1|]. eapply later_trans; by apply later_record. }
  destruct (onWrite w3 (trace w3)) as [e|]; [done|].
  destruct (Push a1 w3 _ _) as [[a4 w4] [e|]] eqn:E4; [done|]. apply Push_quiet in E4 as [S4 Q4].
  destruct (StartCmd a4 w4 waterfallScriptPath) as [[a5 w5] err] eqn:E5. intros [= <- <- ->].
  pose proof (same_device_trans _ _ _ S1 S4) as S14.
  pose proof (later_trans _ _ _ _ Q3 Q4) as Q34.
  unfold StartCmd in E5. pose proof (deviceArgs_spec a4) as [Hs Hf].
  destruct (deviceArgs a4) as [a6 da]. cbn in Hs, Hf. subst da. unfold start in E5.
  pose proof (same_device_trans _ _ _ S14 Hs) as S16.
  assert (w5 = record w4 (Start (AdbPath a6) (device_flags a4 ++ ["shell"; waterfallScriptPath])) ∧ a5 = a6)
    as [-> ->] by (destruct (onStart _ _); by injection E5).
  split; [done|]. split.
  - eapply later_trans; [by apply quiet_after|]. eapply later_trans; by apply later_record.
  - cbn [removeAll record trace]. rewrite !starts_app, (quiet_starts _ _ Q34). rewrite app_nil_r.
    destruct S14 as (Hp & _ & Hfl), S16 as (Hp6 & _). unfold server_event. by rewrite Hp6, Hfl.
Qed.

Lemma verify_spec a w lisAddr ss sf a' w' res :
  verify a w lisAddr ss sf = (a', w', Ret (Ok res)) →
  quiet w w' ∧ answered w lisAddr (trace w') ∧ res = MkResult ss sf.
Proof.
  unfold verify. destruct (retry _ 3 w) as [w1 [e|]] eqn:E; [done|].
  apply retry_ping_spec in E as [Hq Ha]. intros [= <- <- <-]. by split_and!; [|apply Ha|].
Qed.

(** The programs a result says were started. *)
Definition reported (a : Device) (fwd : event) (res : Result) : list event :=
  (if StartedForwarder res then [fwd] else []) ++ (if StartedServer res then [server_event a] else []).

Lemma bootstrap_adb_spec a w svr unixName lisAddr fwd a' w' res :
  bootstrap_adb a w svr unixName lisAddr = (a', w', Ret (Ok res)) →
  answered w lisAddr (trace w') ∧ starts (trace w') = starts (trace w) ++ reported a fwd res.
Proof.
  unfold bootstrap_adb. destruct (ForwardAbstract a w _ _) as [[a1 w1] [e|]] eqn:E1; [done|].
  apply ForwardAbstract_quiet in E1 as [S1 Q1].
  destruct (pingServer w1 lisAddr) as [w2 [e|]] eqn:E2; apply pingServer_spec in E2 as [Q2 _];
    pose proof (later_trans _ _ _ _ Q1 Q2) as Q12.
  - destruct (startWaterfall a1 w2 svr lisAddr) as [[a3 w3] [e3|]] eqn:E3; [done|].
    apply startWaterfall_spec in E3 as (S3 & A3 & St3). intros (Q4 & Ha & ->)%verify_spec. split.
    + eapply answered_later; [|done]. eapply later_trans; [by apply quiet_after|done].
    + rewrite (quiet_starts _ _ Q4), St3, (quiet_starts _ _ Q12). unfold reported, server_event. cbn.
      destruct S1 as (-> & _ & ->). done.
  - intros (Q4 & Ha & ->)%verify_spec. split; [by eapply answered_later|].
    rewrite (quiet_starts _ _ Q4), (quiet_starts _ _ Q12). cbn. by rewrite app_nil_r.
Qed.

Lemma bootstrap_qemu_spec a w svr bin socketDir socketName lisAddr a' w' res :
  bootstrap_qemu a w svr bin socketDir socketName lisAddr = (a', w', Ret (Ok res)) →
  answered w lisAddr (trace w') ∧
  starts (trace w') = starts (trace w) ++ reported a (forwarder_event bin lisAddr socketDir socketName) res.
Proof.
  unfold bootstrap_qemu, stat. set (w1 := record w (StatPath _)).
  assert (quiet w w1) as Q1 by by apply later_record.
  set (fwd := forwarder_event bin lisAddr socketDir socketName).
  destruct (if decide (onStat w1 (trace w1) = Some ENOENT) then _ else _) as [[w2 sf] err] eqn:E2.
  assert (after w w2 ∧ starts (trace w2) = starts (trace w) ++ (if sf then [fwd] else [])) as [A2 St2].
  { case_decide; [|injection E2 as <- <- _; rewrite app_nil_r; split; [by apply quiet_after|by apply quiet_starts]].
    unfold startForwarder, start in E2. injection E2 as <- <- _. split.
    - eapply later_trans; [by apply quiet_after|]. by apply later_record.
    - cbn [record trace]. rewrite starts_app, (quiet_starts _ _ Q1). done. }
  destruct err; [done|].
  destruct (retry _ 3 w2) as [w3 [e|]] eqn:E3; apply retry_ping_spec in E3 as [Q3 Ha3].
  - destruct (startWaterfall a w3 svr _) as [[a4 w4] [e4|]] eqn:E4; [done|].
    apply startWaterfall_spec in E4 as (S4 & A4 & St4). intros (Q5 & Ha & ->)%verify_spec. split.
    + eapply answered_later; [|done]. eapply later_trans; [done|]. eapply later_trans; [by apply quiet_after|done].
    + rewrite (quiet_starts _ _ Q5), St4, (quiet_starts _ _ Q3), St2. unfold reported. cbn.
      by rewrite <- app_assoc.
  - intros [= <- <- <-]. split; [eapply answered_later; [done|by apply Ha3]|].
    rewrite (quiet_starts _ _ Q3), St2. unfold reported. cbn. by rewrite app_nil_r.
Qed.

Lemma Bootstrap_spec iw a w bins bin socketDir socketName a' w' res :
  let lisAddr := "unix:@h2o_" +:+ DeviceName a in
  Bootstrap iw a w bins bin socketDir socketName = (a', w', Ret (Ok res)) →
  answered w lisAddr (trace w') ∧
  starts (trace w') = starts (trace w) ++ reported a (forwarder_event bin lisAddr socketDir socketName) res.
Proof.
  cbn zeta. unfold Bootstrap.
  change ("unix:@" +:+ "h2o_" +:+ DeviceName a) with ("unix:@h2o_" +:+ DeviceName a).
  destruct (pingServer w _) as [w1 [e|]] eqn:E1; apply pingServer_spec in E1 as [Q1 Ha1].
  - destruct (waterfallPath iw a w1 bins) as [[a2 w2] r] eqn:E2. apply waterfallPath_quiet in E2 as [S2 Q2].
    destruct r as [[svr|e2]| |]; try done.
    assert (∀ fwd, reported a2 fwd res = reported a fwd res) as Hrep.
    { intros fwd. unfold reported, server_event. by destruct S2 as (-> & _ & ->). }
    pose proof (later_trans _ _ _ _ Q1 Q2) as Q12.
    case_decide; intros H'.
    + apply bootstrap_qemu_spec in H' as [Ha Hs]. split; [by eapply answered_later|].
      by rewrite Hs, (quiet_starts _ _ Q12), Hrep.
    + eapply (bootstrap_adb_spec _ _ _ _ _ (forwarder_event bin ("unix:@h2o_" +:+ DeviceName a) socketDir socketName))
        in H' as [Ha Hs]. split; [by eapply answered_later|]. by rewrite Hs, (quiet_starts _ _ Q12), Hrep.
  - intros [= <- <- <-]. split; [by apply Ha1|]. rewrite (quiet_starts _ _ Q1). cbn. by rewrite app_nil_r.
Qed.

(** [waterfallPath]'s choice, written as a lookup: the last path given for an architecture
    counts, and the first architecture of the device that has one. *)
Definition path_for (paths : list string) (abi : string) : option string :=
  list.last (omap (λ p, match Split p ":" with
                        | [x; y] => if decide (x = abi) then Some y else None
                        | _ => None
                        end) paths).

Lemma arch_paths_spec paths m :
  (Forall (λ p, length (Split p ":") = 2%nat) paths →
   ∃ m', arch_paths paths m = Ok m' ∧
     ∀ abi, m' !! abi = match path_for paths abi with Some p => Some p | None => m !! abi end) ∧
  (¬ Forall (λ p, length (Split p ":") = 2%nat) paths → ∃ e, arch_paths paths m = Err e).
Proof.
  revert m. induction paths as [|p ps IH]; intros m; cbn [arch_paths].
  { split; [by exists m|]. intros H. destruct H. constructor. }
  rewrite list.Forall_cons. destruct (Split p ":") as [|x [|y [|]]] eqn:E; cbn [length].
  1, 2, 4: split; [by intros [? _]|]; eauto.
  destruct (IH (<[x := y]> m)) as [IH1 IH2]. split.
  - intros [_ H]. destruct (IH1 H) as (m' & -> & Hm'). exists m'. split; [done|]. intros abi.
    rewrite Hm'. unfold path_for. cbn [omap list_omap]. rewrite E.
    case_decide as Ex.
    + subst. rewrite lookup_insert_eq. set (l := omap _ ps). destruct l as [|z l]; [done|].
      by rewrite list.last_cons_cons; destruct (list.last (z :: l)) eqn:El; [|apply last_None in El].
    + rewrite lookup_insert_ne by done. done.
  - intros H. apply IH2. intros H'. apply H. split; done.
Qed.

Lemma first_arch_spec m abis :
  first_arch m abis = head (omap (λ abi, m !! abi) abis).
Proof. induction abis as [|abi abis IH]; [done|]. cbn. by destruct (m !! abi). Qed.

(** ** bootstrap_usb_bin.go *)

Definition waterfallDevicePath : string := "/data/local/tmp/waterfall".
Definition forkfdDevicePath : string := "/data/local/tmp/forkfd".
Definition usbPackageName : string := "com.google.waterfall.usb".
Definition sdkProp : string := "ro.build.version.sdk".

Record UsbFlags := MkUsbFlags {
  u_usbServiceAPK : string; u_forwarderBin : string; u_waterfallBin : string; u_forkfdBin : string;
  u_adbBin : string; u_adbDeviceSerial : string; u_adbServerPort : string; u_waterfallServicePort : string;
}.

(** The arguments that start the USB service on API level [v]. *)
Definition usb_service_args (v : Z) (port : string) : list string :=
  ["am"; if decide (26 ≤ v) then "start-foreground-service" else "startservice"] ++
  ["-a"; "proxy"; "-n"; usbPackageName +:+ "/.UsbService"; "--ei"; "waterfallPort"; port].

(** The rest of [main()] once everything is on the device: start the daemon, the service that
    fits the API level, and the forwarder. *)
Definition usb_services (iw : Z) (f : UsbFlags) (a : Device) (w : Env) : Env * outcome exit :=
  match Shell iw a w [forkfdDevicePath; "-fork"; "-binary_to_launch"; waterfallDevicePath; "--addr";
                      "localhost:" +:+ u_waterfallServicePort f] with
  | (_, w, Panic) => (w, Panic)
  | (_, w, Block) => (w, Block)
  | (_, w, Ret (out, Some e)) => (w, Ret (Fatal ("Failed to start fork daemon: " +:+ out +:+ ", " +:+ Error e)))
  | (a, w, Ret (_, None)) =>
      match Shell iw a w ["getprop"; sdkProp] with
      | (_, w, Panic) => (w, Panic)
      | (_, w, Block) => (w, Block)
      | (_, w, Ret (_, Some e)) => (w, Ret (Fatal ("Failed to get device API level: " +:+ Error e)))
      | (a, w, Ret (out, None)) =>
          match Atoi iw out with
          | (_, Some e) => (w, Ret (Fatal ("Failed to parse device API level: " +:+ out +:+ " " +:+ Error e)))
          | (v, None) =>
              match Shell iw a w (usb_service_args v (u_waterfallServicePort f)) with
              | (_, w, Panic) => (w, Panic)
              | (_, w, Block) => (w, Block)
              | (_, w, Ret (_, Some e)) => (w, Ret (Fatal ("Faile to start USB service: " +:+ Error e)))
              | (_, w, Ret (_, None)) =>
                  match start w (u_forwarderBin f)
                    ["-connect_addr"; "mux:usb:" +:+ u_adbDeviceSerial f; "-listen_addr";
                     "unix:@h2o_" +:+ u_adbDeviceSerial f] with
                  | (w, Some e) => (w, Ret (Fatal (Error e)))
                  | (w, None) => (w, Ret Done)
                  end
              end
          end
      end
  end.

(** Three commands whose results are ignored, but for a panic. *)
Fixpoint shells_ignored (iw : Z) (a : Device) (w : Env) (cmds : list (list string))
    : Device * Env * outcome unit :=
  match cmds with
  | [] => (a, w, Ret tt)
  | c :: cs =>
      match Shell iw a w c with
      | (a, w, Panic) => (a, w, Panic)
      | (a, w, Block) => (a, w, Block)
      | (a, w, Ret _) => shells_ignored iw a w cs
      end
  end.

(** [main()] of bootstrap_usb_bin.go; the dial at its start waits for the connection. *)
Definition bootstrap_usb_main (iw : Z) (f : UsbFlags) (w : Env) : Env * outcome exit :=
  if decide (u_forwarderBin f = "" ∨ u_waterfallBin f = "" ∨ u_forkfdBin f = "" ∨ u_adbBin f = "" ∨
             u_adbDeviceSerial f = "" ∨ u_adbServerPort f = "" ∨ u_usbServiceAPK f = "") then
    (w, Ret (Fatal "Need to provide -forwarder_bin, -waterfall_bin, -forkfd_bin, -adb_bin and -adb_device_serial when bootstrapping."))
  else
  match dial w ("unix:@h2o_" +:+ u_adbDeviceSerial f) with
  | (w, None) => (w, Ret Done)
  | (w, Some _) =>
      match Connect (MkDevice (u_adbBin f) (u_adbDeviceSerial f) (u_adbServerPort f) None) w with
      | (a, w, Some e) => (w, Ret (Fatal ("Error connecting to device " +:+ DeviceName a +:+ ": " +:+ Error e)))
      | (a, w, None) =>
          match Push a w (u_waterfallBin f) waterfallDevicePath with
          | (_, w, Some e) => (w, Ret (Fatal (Error e)))
          | (a, w, None) =>
              match Push a w (u_forkfdBin f) forkfdDevicePath with
              | (_, w, Some e) => (w, Ret (Fatal (Error e)))
              | (a, w, None) =>
                  match Install a w (u_usbServiceAPK f) with
                  | (_, w, (out, Some e)) =>
                      (w, Ret (Fatal ("Failed to install USB service: " +:+ Error e +:+ newline +:+ " " +:+ out)))
                  | (a, w, (_, None)) =>
                      match shells_ignored iw a w
                        [["pkill"; "forkfd"]; ["pkill"; "waterfall"]; ["am"; "force-stop"; usbPackageName]] with
                      | (_, w, Panic) => (w, Panic)
                      | (_, w, Block) => (w, Block)
                      | (a, w, Ret _) => usb_services iw f a w
                      end
                  end
              end
          end
      end
  end.

(** ** Properties *)

(** C32: a bootstrap that reports success has heard from the server: the last thing that happened
    is a ping on the address clients use, answered with the greeting it sent; and the report
    tells exactly which programs were started: the forwarder, the server's script, both or
    neither, in that order. *)
Theorem bootstrap_success_sound iw a w bins bin socketDir socketName a' w' res :
  let lisAddr := "unix:@h2o_" +:+ DeviceName a in
  Bootstrap iw a w bins bin socketDir socketName = (a', w', Ret (Ok res)) →
  answered w lisAddr (trace w') ∧
  starts (trace w') = starts (trace w) ++ reported a (forwarder_event bin lisAddr socketDir socketName) res.
Proof. apply Bootstrap_spec. Qed.

(** A device on which the server answers once its script was started. *)
Definition demo_env : Env :=
  MkEnv [] (λ _, ("x86ret=0", None)) (λ _, None) (λ _, None)
    (λ tr, if decide (starts tr = []) then Err (ErrorString "unavailable") else Ok "hello")
    (λ _, None) (λ _, Ok "/tmp/waterfall1") (λ _, None).

Lemma bootstrap_success_sound_witness :
  let r := Bootstrap 64 demo_device demo_env ["arm:/a"; "x86:/b"] "/bin/fwd" "" "sockets/h2o" in
  snd r = Ret (Ok (MkResult true false)) ∧
  starts (trace (snd (fst r))) =
    [Start "/bin/adb" ["-s"; "emulator-5554"; "-P"; "5037"; "shell"; "/data/local/tmp/waterfall.sh"]].
Proof.
  cbn zeta. set (R := Bootstrap _ _ _ _ _ _ _).
  assert (snd R = Ret (Ok (MkResult true false))) as HR by (vm_compute; reflexivity).
  split; [exact HR|].
  destruct (bootstrap_success_sound 64 demo_device demo_env ["arm:/a"; "x86:/b"] "/bin/fwd" "" "sockets/h2o"
    (fst (fst R)) (snd (fst R)) (MkResult true false)) as [_ H].
  - rewrite <- HR. rewrite <- !surjective_pairing. reflexivity.
  - etransitivity; [exact H|]. vm_compute. reflexivity.
Defined.

(** [waterfallPath] picks the server binary of the first architecture the device lists that
    has one; of several given for an architecture the last counts; a malformed argument is an
    error even when another one would do. *)
Theorem waterfallPath_picks iw a w paths abis a' w1 :
  AbiList iw a w = (a', w1, Ret (abis, None)) →
  snd (waterfallPath iw a w paths) =
  Ret (match arch_paths paths ∅ with
       | Err e => Err e
       | Ok _ =>
           match head (omap (path_for paths) (Split abis ",")) with
           | Some p => Ok p
           | None => Err (ErrorString ("no valid server for architectures " +:+ abis +:+ " got [" +:+
                                       Join paths " " +:+ "]"))
           end
       end) ∧
  ((∃ m, arch_paths paths ∅ = Ok m) ↔ Forall (λ p, length (Split p ":") = 2%nat) paths).
Proof.
  intros HA. unfold waterfallPath. rewrite HA. cbn [obind snd].
  destruct (arch_paths_spec paths ∅) as [H1 H2].
  destruct (decide (Forall (λ p, length (Split p ":") = 2%nat) paths)) as [Hw|Hw].
  - destruct (H1 Hw) as (m & Hm & Hl). rewrite Hm. split; [|by split; eauto].
    rewrite first_arch_spec.
    rewrite (list_omap_ext (λ abi, m !! abi) (path_for paths) (Split abis ",") (Split abis ",")).
    + by destruct (head _).
    + apply Forall2_same_length_lookup_2; [done|]. intros i x y Hx Hy.
      rewrite Hx in Hy. injection Hy as <-. rewrite Hl. by destruct (path_for paths x).
  - destruct (H2 Hw) as [e ->]. split; [done|]. by split; [intros [? ?]|].
Qed.

Lemma waterfallPath_picks_witness :
  snd (waterfallPath 64 demo_device
         (const_env "arm64-v8a,x86ret=0" None None None (Ok "") None) ["x86:/a"; "arm:/b"; "x86:/c"]) =
  Ret (Ok "/c").
Proof.
  set (w := const_env _ _ _ _ _ _). set (R := AbiList 64 demo_device w).
  assert (snd R = Ret ("arm64-v8a,x86", None)) as HR by (vm_compute; reflexivity).
  destruct (waterfallPath_picks 64 demo_device w ["x86:/a"; "arm:/b"; "x86:/c"] "arm64-v8a,x86"
    (fst (fst R)) (snd (fst R))) as [H _].
  - rewrite <- HR. rewrite <- !surjective_pairing. reflexivity.
  - etransitivity; [exact H|]. vm_compute. reflexivity.
Defined.

(** [retry] makes between one and [attempts] attempts and stops at the first success; asked for
    none it makes none and reports success. *)
Lemma retry_loop_count fn n w err w' r :
  retry_loop fn n w err = (w', r) →
  ∃ k, (k ≤ n)%nat ∧ w' = Nat.iter k (λ w, (fn w).1) w ∧
    (∀ j, (S j < k)%nat → (fn (Nat.iter j (λ w, (fn w).1) w)).2 ≠ None) ∧
    (n = O ∧ r = err ∨ (0 < k)%nat ∧ r = (fn (Nat.iter (pred k) (λ w, (fn w).1) w)).2 ∧ (r ≠ None → k = n)).
Proof.
  revert w err. induction n as [|n IH]; intros w err; cbn [retry_loop].
  { intros [= <- <-]. exists O. split_and!; [done|done|lia|by left]. }
  destruct (fn w) as [w1 [e|]] eqn:E.
  - intros (k & Hk & -> & Hj & Hr)%IH. exists (S k).
    assert (∀ i, Nat.iter (S i) (λ w, (fn w).1) w = Nat.iter i (λ w, (fn w).1) w1) as Hs.
    { intros i. rewrite Nat.iter_succ_r. by rewrite E. }
    split_and!; [lia|by rewrite Hs| |right].
    + intros [|j] Hlt; [cbn; by rewrite E|]. rewrite Hs. apply Hj. lia.
    + destruct Hr as [[-> ->]|(Hpos & -> & Hn)].
      * assert (k = O) as -> by lia. cbn. rewrite E. split_and!; [lia|done|done].
      * destruct k as [|k]; [lia|]. cbn [pred] in *. split_and!; [lia| |].
        -- by rewrite Hs.
        -- intros Hne. by rewrite Hn.
  - intros [= <- <-]. exists 1%nat. split_and!; [lia|cbn; by rewrite E|lia|right].
    cbn. rewrite E. split_and!; [lia|done|done].
Qed.

(** [retry] calls its function at most [attempts] times, stops after the first success, and
    returns an error exactly when it made all attempts and the last one failed; with no attempt
    to make it calls nothing and returns nil. *)
Theorem retry_bounded fn attempts w w' r :
  retry fn attempts w = (w', r) →
  ∃ k, 0 ≤ Z.of_nat k ≤ Z.max 0 attempts ∧ w' = Nat.iter k (λ w, (fn w).1) w ∧
    (∀ j, (S j < k)%nat → (fn (Nat.iter j (λ w, (fn w).1) w)).2 ≠ None) ∧
    (r ≠ None → Z.of_nat k = attempts ∧ r = (fn (Nat.iter (pred k) (λ w, (fn w).1) w)).2) ∧
    (r = None → attempts ≤ 0 ∨ (0 < k)%nat ∧ (fn (Nat.iter (pred k) (λ w, (fn w).1) w)).2 = None).
Proof.
  unfold retry. intros (k & Hk & -> & Hj & Hr)%retry_loop_count. exists k.
  split_and!; [lia|lia|done|done| |].
  - intros Hne. destruct Hr as [[_ ->]|(Hpos & -> & Hn)]; [done|]. split; [|done].
    specialize (Hn Hne). lia.
  - intros ->. destruct Hr as [[Hz _]|(Hpos & Hr & _)]; [left; lia|right; by split].
Qed.

Lemma retry_bounded_witness : ∃ k, 0 ≤ Z.of_nat k ≤ 3.
Proof.
  set (fn := λ w, pingServer w "unix:@x").
  set (w := const_env "" None None (Some EOF) (Ok "") None).
  destruct (retry_bounded fn 3 w (fst (retry fn 3 w)) (snd (retry fn 3 w))
    (surjective_pairing (retry fn 3 w))) as (k & Hk & _).
  exists k. exact Hk.
Defined.
