(* ===== verification/Aoa.v ===== *)
(** * USB accessories: src/waterfall/golang/aoa/aoa.go

    Finding a device by its serial number, switching it to accessory mode and opening the
    accessory interface.  The USB library (gousb) is the environment: its answers are functions
    of the history of calls, and the history determines which device handles are open.  The
    theorems: which handles each function closes, keeps or loses. *)

From stdpp Require Import gmultiset.
From S2P Require Import Prelude GoStrings.

Local Open Scope Z_scope.

(** ** The USB library *)

Abbreviation handle := nat.

(** [gousb.DeviceDesc], [gousb.InterfaceSetting], [gousb.EndpointDesc]: the fields used. *)
Record DeviceDesc := MkDeviceDesc { Vendor : Z; Product : Z }.

Inductive EndpointDirection := EndpointDirectionIn | EndpointDirectionOut.

Record EndpointDesc := MkEndpointDesc { ep_Direction : EndpointDirection; ep_Number : Z }.

Record InterfaceSetting := MkInterfaceSetting {
  is_Number : Z; is_Alternate : Z; is_Class : Z; is_SubClass : Z; is_Protocol : Z;
}.

(** The calls; those that open or close a handle are recorded with their outcome. *)
Inductive uevent :=
| UNewContext
| UOpened (hs : list handle) (ok : bool)
| USerial (h : handle)
| UControl (h : handle) (rtype request : Z) (idx : Z) (data : string)
| UCloseDev (h : handle) (ok : bool)
| UActiveConfig (h : handle)
| UConfig (h : handle) (num : Z)
| UCloseConfig (c : handle) (ok : bool)
| UInterface (c : handle) (num alt : Z)
| UCloseInterface (i : handle)
| UInEndpoint (i : handle) (num : Z)
| UOutEndpoint (i : handle) (num : Z)
| UReset (h : handle).

(** The history and the answers.  [onEnumerate]: the devices on the bus, with the handles they
    get when opened, and the error of [OpenDevices], which may come with devices. *)
Record Usb := MkUsb {
  utrace : list uevent;
  onEnumerate : list uevent → list (handle * DeviceDesc) * option error;
  onSerial : list uevent → result string;
  onControl : list uevent → option error;
  onCloseDev : list uevent → option error;
  onActiveConfig : list uevent → result Z;
  onConfig : list uevent → result (handle * list (list InterfaceSetting));
  onCloseConfig : list uevent → option error;
  onInterface : list uevent → result (handle * list EndpointDesc);
  onEndpoint : list uevent → option error;
  onReset : list uevent → option error;
}.

Definition urecord (u : Usb) (e : uevent) : Usb :=
  MkUsb (utrace u ++ [e]) (onEnumerate u) (onSerial u) (onControl u) (onCloseDev u)
    (onActiveConfig u) (onConfig u) (onCloseConfig u) (onInterface u) (onEndpoint u) (onReset u).

Definition okb (e : option error) : bool := bool_decide (e = None).

(** [ctx.OpenDevices(opener)] *)
Definition OpenDevices (u : Usb) (opener : DeviceDesc → bool)
    : Usb * (list (handle * DeviceDesc) * option error) :=
  let '(bus, err) := onEnumerate u (utrace u) in
  let devs := filter (λ d, opener d.2 = true) bus in
  (urecord u (UOpened devs.*1 (okb err)), (devs, err)).

Definition SerialNumber (u : Usb) (h : handle) : Usb * result string :=
  let u := urecord u (USerial h) in (u, onSerial u (utrace u)).

Definition Control (u : Usb) (h : handle) (rtype request idx : Z) (data : string) : Usb * option error :=
  let u := urecord u (UControl h rtype request idx data) in (u, onControl u (utrace u)).

(** [dev.Close()] *)
Definition CloseDev (u : Usb) (h : handle) : Usb * option error :=
  let err := onCloseDev u (utrace u) in (urecord u (UCloseDev h (okb err)), err).

Definition ActiveConfigNum (u : Usb) (h : handle) : Usb * result Z :=
  let u := urecord u (UActiveConfig h) in (u, onActiveConfig u (utrace u)).

(** [dev.Config(n)]: the handle and the interfaces of its description. *)
Definition Config (u : Usb) (h : handle) (n : Z) : Usb * result (handle * list (list InterfaceSetting)) :=
  let u := urecord u (UConfig h n) in (u, onConfig u (utrace u)).

Definition CloseConfig (u : Usb) (c : handle) : Usb * option error :=
  let err := onCloseConfig u (utrace u) in (urecord u (UCloseConfig c (okb err)), err).

(** [config.Interface(num, alt)]: the handle and the endpoints of its setting. *)
Definition Interface (u : Usb) (c : handle) (num alt : Z) : Usb * result (handle * list EndpointDesc) :=
  let u := urecord u (UInterface c num alt) in (u, onInterface u (utrace u)).

Definition Endpoint (u : Usb) (e : uevent) : Usb * option error :=
  let u := urecord u e in (u, onEndpoint u (utrace u)).

(** ** aoa.go *)

Definition googleVendorID : Z := 0x18D1.
Definition manufacturer : string := "devx".
Definition model : string := "waterfall".
Definition description : string := "Waterfall USB".
Definition version : string := "1.0".
Definition serial_str : string := "00000012345678".
Definition uri : string := "http://play.google.com/store/apps/details?id=com.google.waterfall.usb".
Definition aoaClass : Z := 255.
Definition aoaSubclass : Z := 255.
Definition aoaProtocol : Z := 0.

Definition usbAccessoryIds : gmap Z bool :=
  list_to_map [(0x2D00, true); (0x2D01, true); (0x2D04, true); (0x2D05, true)].

Definition vendorOutXfer : Z := 0x40.
Definition sendStringRequest : Z := 52.
Definition startAccessoryRequest : Z := 53.
Definition manufacturerIDX : Z := 0.
Definition modelIDX : Z := 1.
Definition descriptionIDX : Z := 2.
Definition versionIDX : Z := 3.
Definition uriIDX : Z := 4.
Definition serialIDX : Z := 5.

(** [ReadWriteCloser]; [in] and [out] are nil until an endpoint was found. *)
Record ReadWriteCloser := MkRWC {
  rw_dev : handle; rw_config : handle; rw_intf : handle; rw_in : option Z; rw_out : option Z;
}.

(** [Close()] *)
Definition RWC_Close (u : Usb) (rw : ReadWriteCloser) : Usb * option error :=
  let u := urecord u (UCloseInterface (rw_intf rw)) in
  match CloseConfig u (rw_config rw) with
  | (u, Some e) => (u, Some e)
  | (u, None) => CloseDev u (rw_dev rw)
  end.

(** [sendString(dev, idx, str)] *)
Definition sendString (u : Usb) (h : handle) (idx : Z) (str : string) : Usb * option error :=
  Control u h vendorOutXfer sendStringRequest idx str.

(** The strings [switchToAccessory] sends, in order. *)
Definition accessory_strings : list (Z * string) :=
  [(manufacturerIDX, manufacturer); (modelIDX, model); (descriptionIDX, description);
   (versionIDX, version); (uriIDX, uri); (serialIDX, serial_str)].

Fixpoint send_strings (u : Usb) (h : handle) (l : list (Z * string)) : Usb * option error :=
  match l with
  | [] => (u, None)
  | (idx, str) :: l' =>
      match sendString u h idx str with
      | (u, Some e) => (u, Some e)
      | (u, None) => send_strings u h l'
      end
  end.

(** [switchToAccessory(dev)] *)
Definition switchToAccessory (u : Usb) (h : handle) : Usb * option error :=
  match send_strings u h accessory_strings with
  | (u, Some e) => (u, Some e)
  | (u, None) => Control u h vendorOutXfer startAccessoryRequest 0 ""
  end.

(** The loop of [newReadWriteCloser] over the endpoints. *)
Fixpoint newReadWriteCloser (u : Usb) (rw : ReadWriteCloser) (eps : list EndpointDesc)
    : Usb * result ReadWriteCloser :=
  match eps with
  | [] => (u, Ok rw)
  | d :: eps' =>
      match ep_Direction d with
      | EndpointDirectionIn =>
          match Endpoint u (UInEndpoint (rw_intf rw) (ep_Number d)) with
          | (u, Some e) => (u, Err e)
          | (u, None) =>
              newReadWriteCloser u
                (MkRWC (rw_dev rw) (rw_config rw) (rw_intf rw) (Some (ep_Number d)) (rw_out rw)) eps'
          end
      | EndpointDirectionOut =>
          match Endpoint u (UOutEndpoint (rw_intf rw) (ep_Number d)) with
          | (u, Some e) => (u, Err e)
          | (u, None) =>
              newReadWriteCloser u
                (MkRWC (rw_dev rw) (rw_config rw) (rw_intf rw) (rw_in rw) (Some (ep_Number d))) eps'
          end
      end
  end.

(** [activeConfig(dev)] *)
Definition activeConfig (u : Usb) (h : handle) : Usb * result (handle * list (list InterfaceSetting)) :=
  match ActiveConfigNum u h with
  | (u, Err e) => (u, Err e)
  | (u, Ok c) => Config u h c
  end.

Definition is_aoa (s : InterfaceSetting) : bool :=
  bool_decide (is_Class s = aoaClass ∧ is_SubClass s = aoaSubclass ∧ is_Protocol s = aoaProtocol).

(** The two loops of [getAccessoryInterface]: the break leaves the inner one only. *)
Fixpoint find_alt (alts : list InterfaceSetting) (acc : option InterfaceSetting) : option InterfaceSetting :=
  match alts with
  | [] => acc
  | s :: alts' => if is_aoa s then Some s else find_alt alts' acc
  end.

Fixpoint find_interface (ifs : list (list InterfaceSetting)) (acc : option InterfaceSetting)
    : option InterfaceSetting :=
  match ifs with
  | [] => acc
  | alts :: ifs' => find_interface ifs' (find_alt alts acc)
  end.

(** [getAccessoryInterface(config)] *)
Definition getAccessoryInterface (u : Usb) (c : handle) (ifs : list (list InterfaceSetting))
    : Usb * result (handle * list EndpointDesc) :=
  match find_interface ifs None with
  | None => (u, Err (ErrorString "couldn't find AOA interface"))
  | Some s => Interface u c (is_Number s) (is_Alternate s)
  end.

(** The loop of [findDevice]: the device with the serial number, and the slice [devs] with its
    entry set to nil. *)
Fixpoint find_serial (u : Usb) (serial : string) (seen devs : list (option (handle * DeviceDesc)))
    : Usb * list (option (handle * DeviceDesc)) * result (option (handle * DeviceDesc)) :=
  match devs with
  | [] => (u, seen, Ok None)
  | None :: devs' => find_serial u serial (seen ++ [None]) devs'
  | Some d :: devs' =>
      match SerialNumber u d.1 with
      | (u, Err e) => (u, seen ++ devs, Err e)
      | (u, Ok s) =>
          if decide (serial = s) then (u, seen ++ None :: devs', Ok (Some d))
          else find_serial u serial (seen ++ [Some d]) devs'
      end
  end.

(** The deferred loop: close what is left in [devs]. *)
Fixpoint close_devs (u : Usb) (devs : list (option (handle * DeviceDesc))) : Usb :=
  match devs with
  | [] => u
  | None :: devs' => close_devs u devs'
  | Some d :: devs' => close_devs (fst (CloseDev u d.1)) devs'
  end.

(** [findDevice(serial)] *)
Definition findDevice (u : Usb) (serial : string) : Usb * result (handle * DeviceDesc) :=
  let u := urecord u UNewContext in
  match OpenDevices u (λ d, bool_decide (Vendor d = googleVendorID)) with
  | (u, (_, Some e)) => (u, Err e)
  | (u, (devs, None)) =>
      let '(u, devs, r) := find_serial u serial [] (Some <$> devs) in
      let u := close_devs u devs in
      match r with
      | Err e => (u, Err e)
      | Ok None => (u, Err (ErrorString ("device with serial " +:+ serial +:+ " not found")))
      | Ok (Some d) => (u, Ok d)
      end
  end.

(** The attempts at the end of [configureAOA]; [r] is the result so far. *)
Fixpoint find_again (n : nat) (u : Usb) (serial : string) (r : result (handle * DeviceDesc))
    : Usb * result (handle * DeviceDesc) :=
  match n with
  | O => (u, r)
  | S n' =>
      match findDevice u serial with
      | (u, Ok d) => (u, Ok d)
      | (u, Err e) => find_again n' u serial (Err e)
      end
  end.

(** [configureAOA(serial)] *)
Definition configureAOA (u : Usb) (serial : string) : Usb * result (handle * DeviceDesc) :=
  match findDevice u serial with
  | (u, Err e) => (u, Err e)
  | (u, Ok dev) =>
      let '(u, serr) :=
        if default false (usbAccessoryIds !! Product dev.2) then (u, None) else switchToAccessory u dev.1 in
      match serr with
      | Some e => (fst (CloseDev u dev.1), Err e)
      | None =>
          match CloseDev u dev.1 with
          | (u, Some e) => (u, Err e)
          | (u, None) => find_again 3 u serial (Ok dev)
          end
      end
  end.

(** [Connect(serial)] *)
Definition Connect (u : Usb) (serial : string) : Usb * result ReadWriteCloser :=
  match configureAOA u serial with
  | (u, Err e) => (u, Err e)
  | (u, Ok dev) =>
      match activeConfig u dev.1 with
      | (u, Err e) => (u, Err e)
      | (u, Ok (config, ifs)) =>
          match getAccessoryInterface u config ifs with
          | (u, Err e) => (fst (CloseDev u dev.1), Err e)
          | (u, Ok (intf, eps)) => newReadWriteCloser u (MkRWC dev.1 config intf None None) eps
          end
      end
  end.

(** [Reset(serial)] *)
Definition Reset (u : Usb) (serial : string) : Usb * option error :=
  match findDevice u serial with
  | (u, Err e) => (u, Some e)
  | (u, Ok dev) => let u := urecord u (UReset dev.1) in (u, onReset u (utrace u))
  end.

(** ** Open handles *)

(** The device handles that are open after a history. *)
Definition opened (X : gmultiset handle) (e : uevent) : gmultiset handle :=
  match e with
  | UOpened hs _ => X ⊎ list_to_set_disj hs
  | UCloseDev h true => X ∖ {[+ h +]}
  | _ => X
  end.

Definition open_devs (u : Usb) : gmultiset handle := foldl opened ∅ (utrace u).

(** The handles that came with the error of an [OpenDevices] ("the returned list may be non-empty
    with an error"): the caller drops them. *)
Definition leak (X : gmultiset handle) (e : uevent) : gmultiset handle :=
  match e with UOpened hs false => X ⊎ list_to_set_disj hs | _ => X end.

Definition leaked (u : Usb) : gmultiset handle := foldl leak ∅ (utrace u).

(** The configurations that may still be open. *)
Definition pend (n : nat) (e : uevent) : nat :=
  match e with
  | UConfig _ _ => S n
  | UCloseConfig _ true => pred n
  | _ => n
  end.

Definition pending (tr : list uevent) : nat := foldl pend 0%nat tr.

(** The same library, later: [same_usb] when no configuration was opened or closed since. *)
Definition same_lib (u u' : Usb) : Prop :=
  onEnumerate u' = onEnumerate u ∧ onSerial u' = onSerial u ∧ onControl u' = onControl u ∧
  onCloseDev u' = onCloseDev u.

Definition same_usb (u u' : Usb) : Prop :=
  same_lib u u' ∧ pending (utrace u') = pending (utrace u).

(** Closing a device succeeds while no configuration is open (the library refuses to close a
    device whose configuration is), and none is at this point. *)
Definition closes_lib (u : Usb) : Prop := ∀ tr, pending tr = 0%nat → onCloseDev u tr = None.
Definition closes (u : Usb) : Prop := closes_lib u ∧ pending (utrace u) = 0%nat.

Lemma same_lib_trans u1 u2 u3 : same_lib u1 u2 → same_lib u2 u3 → same_lib u1 u3.
Proof. unfold same_lib. intuition congruence. Qed.

Lemma same_usb_trans u1 u2 u3 : same_usb u1 u2 → same_usb u2 u3 → same_usb u1 u3.
Proof. intros [? E1] [? E2]. split; [by eapply same_lib_trans|congruence]. Qed.

Lemma pending_record u e : pending (utrace (urecord u e)) = pend (pending (utrace u)) e.
Proof. unfold pending. cbn [urecord utrace]. by rewrite foldl_app. Qed.

Lemma same_usb_record u e : (∀ n, pend n e = n) → same_usb u (urecord u e).
Proof. intros H. split; [done|by rewrite pending_record]. Qed.

Lemma closes_lib_same u u' : same_lib u u' → closes_lib u → closes_lib u'.
Proof. intros (_ & _ & _ & E) H tr. rewrite E. apply H. Qed.

Lemma closes_same u u' : same_usb u u' → closes u → closes u'.
Proof. intros [E1 E2] [H1 H2]. split; [by eapply closes_lib_same|congruence]. Qed.

Lemma open_devs_record u e : open_devs (urecord u e) = opened (open_devs u) e.
Proof. unfold open_devs. cbn [urecord utrace]. by rewrite foldl_app. Qed.

Lemma leaked_record u e : leaked (urecord u e) = leak (leaked u) e.
Proof. unfold leaked. cbn [urecord utrace]. by rewrite foldl_app. Qed.

(** A call that neither opens nor closes a device. *)
Definition neutral (u u' : Usb) : Prop :=
  same_usb u u' ∧ open_devs u' = open_devs u ∧ leaked u' = leaked u.

Lemma neutral_refl u : neutral u u.
Proof. done. Qed.

Lemma neutral_trans u1 u2 u3 : neutral u1 u2 → neutral u2 u3 → neutral u1 u3.
Proof. intros (? & E1 & F1) (? & E2 & F2). split_and!; [by eapply same_usb_trans|congruence..]. Qed.

Lemma neutral_record u e :
  (∀ X, opened X e = X) → (∀ n, pend n e = n) → (∀ X, leak X e = X) → neutral u (urecord u e).
Proof.
  intros H Hp Hl. split_and!; [split; [done|by rewrite pending_record]|by rewrite open_devs_record, H|].
  by rewrite leaked_record, Hl.
Qed.

Lemma CloseDev_closes u h :
  closes u →
  (CloseDev u h).2 = None ∧ same_usb u (CloseDev u h).1 ∧
  open_devs (CloseDev u h).1 = open_devs u ∖ {[+ h +]} ∧ leaked (CloseDev u h).1 = leaked u.
Proof.
  intros [H Hp]. unfold CloseDev. cbn [fst snd]. rewrite H by done. split_and!; [done| | |].
  - split; [done|by rewrite pending_record].
  - by rewrite open_devs_record.
  - by rewrite leaked_record.
Qed.

(** What [u'] has open: what [u] had, what failing enumerations have left since, and [X]. *)
Definition keeps (u u' : Usb) (X : gmultiset handle) : Prop :=
  ∃ L, leaked u' = leaked u ⊎ L ∧ open_devs u' = open_devs u ⊎ L ⊎ X.

Lemma keeps_neutral u u1 u2 X : keeps u u1 X → neutral u1 u2 → keeps u u2 X.
Proof. intros (L & H1 & H2) (_ & E1 & E2). exists L. by rewrite E1, E2. Qed.

Lemma keeps_trans u u1 u2 X : keeps u u1 ∅ → keeps u1 u2 X → keeps u u2 X.
Proof.
  intros (L & H1 & H2) (L' & H3 & H4). exists (L ⊎ L'). rewrite H3, H4, H1, H2. split; multiset_solver.
Qed.

Lemma keeps_close u u1 h : keeps u u1 {[+ h +]} → closes u1 → keeps u (CloseDev u1 h).1 ∅.
Proof.
  intros (L & H1 & H2) Hc. destruct (CloseDev_closes u1 h Hc) as (_ & _ & H3 & H4). exists L.
  rewrite H3, H4, H1, H2. split; multiset_solver.
Qed.

(** Without a failing enumeration since. *)
Lemma keeps_enumerates u u' X : leaked u' = leaked u → keeps u u' X → open_devs u' = open_devs u ⊎ X.
Proof. intros Hl (L & H1 & ->). assert (L = ∅) as -> by (rewrite Hl in H1; multiset_solver). multiset_solver. Qed.

Lemma send_strings_neutral u h l : neutral u (send_strings u h l).1.
Proof.
  revert u. induction l as [|[idx str] l IH]; intros u; cbn [send_strings]; [apply neutral_refl|].
  unfold sendString, Control.
  pose proof (neutral_record u (UControl h vendorOutXfer sendStringRequest idx str) (λ _, eq_refl) (λ _, eq_refl) (λ _, eq_refl)) as H.
  destruct (onControl _ _); [done|]. eapply neutral_trans; [done|apply IH].
Qed.

Lemma switchToAccessory_neutral u h : neutral u (switchToAccessory u h).1.
Proof.
  unfold switchToAccessory. pose proof (send_strings_neutral u h accessory_strings) as H.
  destruct (send_strings u h accessory_strings) as [u1 [e|]]; [done|]. cbn in H.
  eapply neutral_trans; [done|]. by apply neutral_record.
Qed.

(** What [find_serial] leaves in the slice. *)
Lemma find_serial_spec u serial seen devs u' left r :
  find_serial u serial seen (Some <$> devs) = (u', left, r) →
  neutral u u' ∧
  match r with
  | Ok (Some d) => ∃ l1 l2, devs = l1 ++ d :: l2 ∧ left = seen ++ (Some <$> l1) ++ None :: (Some <$> l2)
  | _ => left = seen ++ (Some <$> devs)
  end.
Proof.
  revert u seen. induction devs as [|d devs IH]; intros u seen; cbn [find_serial fmap list_fmap].
  { intros [= <- <- <-]. split; [apply neutral_refl|]. by rewrite app_nil_r. }
  unfold SerialNumber. pose proof (neutral_record u (USerial d.1) (λ _, eq_refl) (λ _, eq_refl) (λ _, eq_refl)) as H.
  destruct (onSerial _ _) as [s|e]; [|by intros [= <- <- <-]].
  case_decide.
  - intros [= <- <- <-]. split; [done|]. by exists [], devs.
  - intros HF. apply IH in HF as [HN HR]. split; [by eapply neutral_trans|].
    destruct r as [[d'|]|e]; [|by rewrite HR, <- app_assoc..].
    destruct HR as (l1 & l2 & -> & ->). exists (d :: l1), l2. by rewrite <- !app_assoc.
Qed.

Lemma mset_remove (X M : gmultiset handle) h : (X ⊎ ({[+ h +]} ⊎ M)) ∖ {[+ h +]} = X ⊎ M.
Proof. multiset_solver. Qed.

Lemma mset_remove_last (X : gmultiset handle) h : (X ⊎ {[+ h +]}) ∖ {[+ h +]} = X.
Proof. multiset_solver. Qed.

Lemma mset_nil (X : gmultiset handle) : X ⊎ ∅ = X.
Proof. multiset_solver. Qed.

Lemma close_devs_spec u devs X :
  closes u → open_devs u = X ⊎ list_to_set_disj (omap id devs).*1 →
  same_usb u (close_devs u devs) ∧ open_devs (close_devs u devs) = X ∧ leaked (close_devs u devs) = leaked u.
Proof.
  revert u. induction devs as [|[d|] devs IH]; intros u Hc Ho; cbn [close_devs].
  - split_and!; [done| |done]. rewrite Ho. apply mset_nil.
  - destruct (CloseDev_closes u d.1 Hc) as (_ & Hs & Hd & Hl).
    destruct (IH (CloseDev u d.1).1) as (Hs' & Ho' & Hl'); [by eapply closes_same| |].
    + rewrite Hd, Ho. cbn [omap list_omap id fmap list_fmap]. rewrite list_to_set_disj_cons.
      apply mset_remove.
    + split_and!; [by eapply same_usb_trans|done|congruence].
  - by apply IH.
Qed.

Lemma omap_id_Some {A} (l : list A) : omap id (Some <$> l) = l.
Proof. induction l as [|x l IH]; [done|]. cbn. by rewrite IH. Qed.

(** [findDevice] keeps open the device it returns, and what a failing enumeration gave it. *)
Lemma findDevice_spec u serial u' r :
  closes u → findDevice u serial = (u', r) →
  same_usb u u' ∧ keeps u u' match r with Ok d => {[+ d.1 +]} | Err _ => ∅ end.
Proof.
  intros Hc. unfold findDevice. set (u0 := urecord u UNewContext).
  assert (neutral u u0) as (Hs0 & Ho0 & Hl0) by by apply neutral_record.
  unfold OpenDevices. destruct (onEnumerate u0 (utrace u0)) as [bus err] eqn:Eb.
  set (devs := filter _ bus). set (u1 := urecord u0 (UOpened devs.*1 (okb err))).
  assert (open_devs u1 = open_devs u ⊎ list_to_set_disj devs.*1) as Ho1
    by (unfold u1; by rewrite open_devs_record, Ho0).
  assert (same_usb u u1) as Hs1 by (eapply same_usb_trans; [exact Hs0|by apply same_usb_record]).
  destruct err as [e|].
  { intros [= <- <-]. split; [done|]. exists (list_to_set_disj devs.*1).
    unfold u1 at 1. rewrite leaked_record, Hl0, Ho1, mset_nil. done. }
  assert (leaked u1 = leaked u) as Hl1 by (unfold u1; by rewrite leaked_record, Hl0).
  destruct (find_serial u1 serial [] (Some <$> devs)) as [[u2 left] fr] eqn:EF.
  apply find_serial_spec in EF as [(Hs2 & Ho2 & Hl2) HR]. cbn [app] in HR.
  assert (same_usb u u2) as Hsu2 by by eapply same_usb_trans.
  assert (∀ X, open_devs u2 = open_devs u ⊎ X ⊎ list_to_set_disj (omap id left).*1 →
    same_usb u (close_devs u2 left) ∧ keeps u (close_devs u2 left) X) as Hclose.
  { intros X HX. destruct (close_devs_spec u2 left _ (closes_same _ _ Hsu2 Hc) HX) as (Hs3 & Ho3 & Hl3).
    split; [by eapply same_usb_trans|]. exists ∅. rewrite Hl3, Hl2, Hl1, Ho3. split; multiset_solver. }
  destruct fr as [[d|]|e]; intros [= <- <-]; apply Hclose; rewrite Ho2, Ho1.
  - destruct HR as (l1 & l2 & Hdevs & ->). rewrite Hdevs, omap_app. cbn.
    rewrite !omap_id_Some, !fmap_app, fmap_cons, !list_to_set_disj_app, list_to_set_disj_cons. multiset_solver.
  - rewrite HR, omap_id_Some. multiset_solver.
  - rewrite HR, omap_id_Some. multiset_solver.
Qed.

Lemma find_again_spec n u serial r0 u' r :
  closes u → (0 < n)%nat → find_again n u serial r0 = (u', r) →
  same_usb u u' ∧ keeps u u' match r with Ok d => {[+ d.1 +]} | Err _ => ∅ end.
Proof.
  revert u r0. induction n as [|n IH]; intros u r0 Hc Hn; [lia|]. cbn [find_again].
  destruct (findDevice u serial) as [u1 [d|e]] eqn:E; apply findDevice_spec in E as [Hs Hk]; try done.
  - by intros [= <- <-].
  - destruct n as [|n]; [cbn; by intros [= <- <-]|]. intros H.
    apply IH in H as [Hs' Hk']; [|by eapply closes_same|lia].
    split; [by eapply same_usb_trans|by eapply keeps_trans].
Qed.

Lemma configureAOA_spec u serial u' r :
  closes u → configureAOA u serial = (u', r) →
  same_usb u u' ∧ keeps u u' match r with Ok d => {[+ d.1 +]} | Err _ => ∅ end.
Proof.
  intros Hc. unfold configureAOA.
  destruct (findDevice u serial) as [u1 [dev|e]] eqn:E; apply findDevice_spec in E as [Hs1 Hk1]; try done;
    [|by intros [= <- <-]].
  destruct (if default false (usbAccessoryIds !! Product dev.2) then (u1, None) else switchToAccessory u1 dev.1)
    as [u2 serr] eqn:E2.
  assert (neutral u1 u2) as HN.
  { destruct (default false _); [by injection E2 as <- _; apply neutral_refl|].
    pose proof (switchToAccessory_neutral u1 dev.1) as H. by rewrite E2 in H. }
  assert (same_usb u u2) as Hs by (eapply same_usb_trans; [exact Hs1|apply HN]).
  assert (closes u2) as Hc2 by by eapply closes_same.
  destruct (CloseDev_closes u2 dev.1 Hc2) as (Hok & Hs3 & _).
  pose proof (keeps_close _ _ _ (keeps_neutral _ _ _ _ Hk1 HN) Hc2) as Hk3.
  assert (same_usb u (CloseDev u2 dev.1).1) as Hs4 by by eapply same_usb_trans.
  destruct serr as [e|]; [by intros [= <- <-]|].
  destruct (CloseDev u2 dev.1) as [u3 cerr]. cbn [fst snd] in *. subst cerr. intros H.
  apply find_again_spec in H as [Hs5 Hk5]; [|by eapply closes_same|lia].
  split; [by eapply same_usb_trans|by eapply keeps_trans].
Qed.

(** ** The rest of [Connect] *)

Lemma newReadWriteCloser_neutral u rw eps :
  neutral u (newReadWriteCloser u rw eps).1 ∧
  ∀ rw', (newReadWriteCloser u rw eps).2 = Ok rw' →
    rw_dev rw' = rw_dev rw ∧ rw_config rw' = rw_config rw ∧ rw_intf rw' = rw_intf rw.
Proof.
  revert u rw. induction eps as [|d eps IH]; intros u rw; cbn [newReadWriteCloser].
  { split; [apply neutral_refl|]. by intros ? [= <-]. }
  destruct (ep_Direction d); unfold Endpoint;
    (match goal with |- context [urecord u ?e] => pose proof (neutral_record u e (λ _, eq_refl) (λ _, eq_refl) (λ _, eq_refl)) as H end;
     destruct (onEndpoint _ _); [by split|];
     match goal with |- context [newReadWriteCloser ?u' ?r eps] => destruct (IH u' r) as [HN HR] end;
     split; [by eapply neutral_trans|exact HR]).
Qed.

(** Opening the configuration leaves the devices as they are, and may leave a configuration open. *)
Lemma activeConfig_spec u h u' r :
  activeConfig u h = (u', r) →
  same_lib u u' ∧ open_devs u' = open_devs u ∧ leaked u' = leaked u ∧
  (∀ c, r = Ok c → pending (utrace u') = S (pending (utrace u))).
Proof.
  unfold activeConfig, ActiveConfigNum, Config.
  destruct (neutral_record u (UActiveConfig h) (λ _, eq_refl) (λ _, eq_refl) (λ _, eq_refl)) as ([Hl Hp] & Ho & Hk).
  destruct (onActiveConfig _ _) as [c|e]; intros [= <- <-]; [|done].
  split_and!; [done|by rewrite open_devs_record|by rewrite leaked_record|].
  intros _ _. rewrite pending_record. cbn [pend]. by rewrite Hp.
Qed.

Lemma getAccessoryInterface_neutral u c ifs : neutral u (getAccessoryInterface u c ifs).1.
Proof.
  unfold getAccessoryInterface. destruct (find_interface ifs None); [|apply neutral_refl].
  by apply neutral_record.
Qed.

(** Which handle [Connect] leaves open: the device's on success; on failure none, unless the
    configuration could not be opened, or the endpoints. *)
Inductive connect_result (u : Usb) (serial : string) : Usb → result ReadWriteCloser → Prop :=
| conn_no_device u1 e :
    configureAOA u serial = (u1, Err e) → connect_result u serial u1 (Err e)
| conn_no_config u1 dev u2 e :
    configureAOA u serial = (u1, Ok dev) → activeConfig u1 dev.1 = (u2, Err e) →
    connect_result u serial u2 (Err e)
| conn_no_interface u1 dev u2 c ifs u3 e :
    configureAOA u serial = (u1, Ok dev) → activeConfig u1 dev.1 = (u2, Ok (c, ifs)) →
    getAccessoryInterface u2 c ifs = (u3, Err e) →
    connect_result u serial (CloseDev u3 dev.1).1 (Err e)
| conn_interface u1 dev u2 c ifs u3 i eps u4 r :
    configureAOA u serial = (u1, Ok dev) → activeConfig u1 dev.1 = (u2, Ok (c, ifs)) →
    getAccessoryInterface u2 c ifs = (u3, Ok (i, eps)) →
    newReadWriteCloser u3 (MkRWC dev.1 c i None None) eps = (u4, r) →
    connect_result u serial u4 r.

Lemma Connect_cases u serial u' r : Connect u serial = (u', r) → connect_result u serial u' r.
Proof.
  unfold Connect. destruct (configureAOA u serial) as [u1 [dev|e]] eqn:E1;
    [|intros [= <- <-]; by eapply conn_no_device].
  destruct (activeConfig u1 dev.1) as [u2 [[c ifs]|e]] eqn:E2;
    [|intros [= <- <-]; by eapply conn_no_config].
  destruct (getAccessoryInterface u2 c ifs) as [u3 [[i eps]|e]] eqn:E3.
  - intros H. by eapply conn_interface.
  - intros [= <- <-]. by eapply conn_no_interface.
Qed.

Lemma open_after_config u serial u1 dev u2 r :
  closes u → configureAOA u serial = (u1, Ok dev) → activeConfig u1 dev.1 = (u2, r) →
  same_lib u u2 ∧ keeps u u2 {[+ dev.1 +]} ∧
  (∀ c, r = Ok c → pending (utrace u2) = 1%nat).
Proof.
  intros Hc E1 E2. apply configureAOA_spec in E1 as [[Hl1 Hp1] Ho1]; [|done..].
  apply activeConfig_spec in E2 as (Hl2 & Ho2 & Hk2 & Hp2).
  split_and!; [by eapply same_lib_trans| |].
  - destruct Ho1 as (L & H1 & H2). exists L. by rewrite Hk2, Ho2.
  - intros c Hr. rewrite (Hp2 c Hr), Hp1. destruct Hc as [_ ->]. done.
Qed.

Lemma open_after_interface u serial u1 dev u2 c ifs u3 r :
  closes u → configureAOA u serial = (u1, Ok dev) →
  activeConfig u1 dev.1 = (u2, Ok (c, ifs)) → getAccessoryInterface u2 c ifs = (u3, r) →
  same_lib u u3 ∧ keeps u u3 {[+ dev.1 +]} ∧ pending (utrace u3) = 1%nat.
Proof.
  intros Hc E1 E2 E3. destruct (open_after_config _ _ _ _ _ _ Hc E1 E2) as (Hl & Ho & Hp).
  pose proof (getAccessoryInterface_neutral u2 c ifs) as HN. rewrite E3 in HN. cbn in HN.
  split_and!; [|by eapply keeps_neutral|].
  - eapply same_lib_trans; [exact Hl|apply HN].
  - destruct HN as ([_ ->] & _). by apply (Hp (c, ifs)).
Qed.

(** ** Properties *)

(** Searching for a device opens every device of the vendor and, when the bus can be listed
    and devices can be closed, leaves exactly the one it returns open, and none when it fails;
    when listing fails, none of the devices that came with the error is ever closed. *)
Theorem findDevice_handles u serial u' r :
  findDevice u serial = (u', r) →
  (closes u → (onEnumerate u (utrace u ++ [UNewContext])).2 = None →
     open_devs u' = open_devs u ⊎ match r with Ok d => {[+ d.1 +]} | Err _ => ∅ end) ∧
  (∀ bus e, onEnumerate u (utrace u ++ [UNewContext]) = (bus, Some e) →
     r = Err e ∧ open_devs u' = open_devs u ⊎
       list_to_set_disj (filter (λ d, bool_decide (Vendor d.2 = googleVendorID) = true) bus).*1).
Proof.
  intros E. split.
  - intros Hc He. assert (leaked u' = leaked u) as Hl.
    { unfold findDevice, OpenDevices in E. cbn [urecord utrace onEnumerate] in E.
      destruct (onEnumerate u _) as [bus [e|]]; [done|].
      match type of E with context [find_serial ?u1 _ _ _] => assert (leaked u1 = leaked u) as Hl1
        by (rewrite leaked_record; by rewrite (leaked_record u UNewContext)) end.
      destruct (find_serial _ _ _ _) as [[u2 left] fr] eqn:EF. apply find_serial_spec in EF as [(Hs & Ho2 & Hl2) _].
      assert (∀ v l, leaked (close_devs v l) = leaked v) as Hcl.
      { intros v l. revert v. induction l as [|[d|] l IH]; intros v; cbn; [done| |done]. rewrite IH.
        unfold CloseDev. by rewrite leaked_record. }
      destruct fr as [[d|]|e]; injection E as <- _; by rewrite Hcl, Hl2, Hl1. }
    apply keeps_enumerates; [done|]. by eapply findDevice_spec.
  - intros bus e Hb. unfold findDevice, OpenDevices in E. cbn [urecord utrace onEnumerate] in E.
    rewrite Hb in E. injection E as <- <-. split; [done|].
    rewrite open_devs_record. by rewrite (open_devs_record u UNewContext).
Qed.

(** A connection that was made holds the handle of its device, and no other handle stays
    open but those of failing enumerations; closing it closes the interface, then the configuration,
    then the device, and gives the handle back; when the configuration cannot be closed the device is
    not closed either. *)
Theorem connect_close_handles u serial u' rw :
  closes u → Connect u serial = (u', Ok rw) →
  keeps u u' {[+ rw_dev rw +]} ∧
  match onCloseConfig u' (utrace u' ++ [UCloseInterface (rw_intf rw)]) with
  | None => (RWC_Close u' rw).2 = None ∧ keeps u (RWC_Close u' rw).1 ∅
  | Some e => (RWC_Close u' rw).2 = Some e ∧ open_devs (RWC_Close u' rw).1 = open_devs u'
  end.
Proof.
  intros Hc H%Connect_cases. inversion H as [| | |u1 dev u2 c ifs u3 i eps u4 r E1 E2 E3 E4]; subst.
  destruct (open_after_interface _ _ _ _ _ _ _ _ _ Hc E1 E2 E3) as (Hl & Ho & Hp).
  destruct (newReadWriteCloser_neutral u3 (MkRWC dev.1 c i None None) eps) as [HN Hrw].
  rewrite E4 in HN, Hrw. destruct (Hrw rw eq_refl) as (Hd & _ & _). cbn in HN, Hd.
  assert (keeps u u' {[+ rw_dev rw +]}) as Hopen by (rewrite Hd; by eapply keeps_neutral).
  split; [done|]. unfold RWC_Close, CloseConfig. cbn [onCloseConfig urecord utrace].
  destruct (onCloseConfig u' _) as [e|] eqn:EC; cbn [fst snd].
  - split; [done|]. by rewrite !open_devs_record.
  - match goal with |- context [CloseDev ?u5 _] => assert (closes u5) as Hc5; [|
      destruct (CloseDev_closes u5 (rw_dev rw) Hc5) as (-> & _); split; [done|]; apply keeps_close; [|exact Hc5]] end.
    { destruct HN as ([Hl4 Hp4] & _). split.
      - eapply closes_lib_same; [|exact (proj1 Hc)]. eapply same_lib_trans; [exact Hl|]. exact Hl4.
      - rewrite !pending_record. cbn [okb pend]. rewrite Hp4, Hp. done. }
    destruct Hopen as (L & H1 & H2). exists L. rewrite !leaked_record, !open_devs_record. done.
Qed.

(** C34: the handles a failed connection leaves open, besides those that came with the error of an
    [OpenDevices] (which nobody ever closes): none when the device is not found or not switched to
    accessory mode; when its
    configuration cannot be opened, or an endpoint, the handle of the device, which nobody can close;
    when it has no accessory interface, the device is closed with its configuration still
    open, and stays open if the library refuses that. *)
Theorem connect_failure_handles u serial u' e :
  closes u → Connect u serial = (u', Err e) →
  (configureAOA u serial = (u', Err e) ∧ keeps u u' ∅) ∨
  (∃ u1 dev, configureAOA u serial = (u1, Ok dev) ∧ keeps u u' {[+ dev.1 +]} ∧
    (activeConfig u1 dev.1 = (u', Err e) ∨
     ∃ u2 c ifs u3 i eps, activeConfig u1 dev.1 = (u2, Ok (c, ifs)) ∧
       getAccessoryInterface u2 c ifs = (u3, Ok (i, eps)) ∧
       newReadWriteCloser u3 (MkRWC dev.1 c i None None) eps = (u', Err e))) ∨
  (∃ u1 dev u2 c ifs u3, configureAOA u serial = (u1, Ok dev) ∧ activeConfig u1 dev.1 = (u2, Ok (c, ifs)) ∧
    getAccessoryInterface u2 c ifs = (u3, Err e) ∧
    pending (utrace u3) = 1%nat ∧
    keeps u u' match onCloseDev u3 (utrace u3) with None => ∅ | Some _ => {[+ dev.1 +]} end).
Proof.
  intros Hc H%Connect_cases.
  inversion H as [u1 e1 E1|u1 dev u2 e2 E1 E2|u1 dev u2 c ifs u3 e3 E1 E2 E3
                 |u1 dev u2 c ifs u3 i eps u4 r E1 E2 E3 E4]; subst.
  - left. by pose proof (configureAOA_spec _ _ _ _ Hc E1) as [_ Ho].
  - right. left. exists u1, dev. split; [done|]. split; [|by left]. by eapply open_after_config.
  - right. right. destruct (open_after_interface _ _ _ _ _ _ _ _ _ Hc E1 E2 E3) as (_ & (L & H1 & H2) & Hp).
    exists u1, dev, u2, c, ifs, u3. split_and!; [done..|]. exists L.
    unfold CloseDev. cbn [fst]. rewrite open_devs_record, leaked_record, H2, H1.
    destruct (onCloseDev u3 (utrace u3)); cbn [opened leak okb]; (split; [done|]); [done|multiset_solver].
  - right. left. exists u1, dev. split; [done|].
    destruct (open_after_interface _ _ _ _ _ _ _ _ _ Hc E1 E2 E3) as (_ & Ho & _).
    destruct (newReadWriteCloser_neutral u3 (MkRWC dev.1 c i None None) eps) as [HN _].
    rewrite E4 in HN. cbn in HN. split; [by eapply keeps_neutral|]. right. eauto 10.
Qed.

(** ** A concrete bus *)

(** A hub of another vendor and two phones of the vendor; [u] answers every call. *)
Definition demo_serials (tr : list uevent) : result string :=
  match nth_error (rev tr) 0 with
  | Some (USerial 7%nat) => Ok "A1"
  | _ => Ok "B2"
  end.

Definition demo_aoa : InterfaceSetting := MkInterfaceSetting 1 0 255 255 0.

Definition demo_usb (ifs : list (list InterfaceSetting)) (cfg cdev : option error) : Usb :=
  MkUsb [] (λ _, ([(3%nat, MkDeviceDesc 1 1); (7%nat, MkDeviceDesc googleVendorID 0x4EE1);
                   (8%nat, MkDeviceDesc googleVendorID 0x2D00)], None))
    demo_serials (λ _, None)
    (λ tr, if decide (pending tr = 0%nat) then None else cdev)
    (λ _, Ok 1) (λ _, match cfg with None => Ok (20%nat, ifs) | Some e => Err e end) (λ _, None)
    (λ _, Ok (30%nat, [MkEndpointDesc EndpointDirectionIn 1; MkEndpointDesc EndpointDirectionOut 2]))
    (λ _, None) (λ _, None).

Lemma demo_closes ifs cfg cdev : closes (demo_usb ifs cfg cdev).
Proof. split; [|done]. intros tr H. cbn. by rewrite decide_True. Qed.

Lemma findDevice_handles_witness :
  let F := findDevice (demo_usb [] None None) "B2" in
  F.2 = Ok (8%nat, MkDeviceDesc googleVendorID 0x2D00) ∧
  open_devs F.1 = open_devs (demo_usb [] None None) ⊎ {[+ 8%nat +]}.
Proof.
  intros F. assert (F.2 = Ok (8%nat, MkDeviceDesc googleVendorID 0x2D00)) as E by (vm_compute; reflexivity).
  split; [exact E|].
  pose proof (proj1 (findDevice_handles _ _ F.1 F.2 (surjective_pairing F)) (demo_closes [] None None) eq_refl) as H.
  rewrite E in H. exact H.
Defined.

Lemma connect_close_handles_witness :
  let F := Connect (demo_usb [[demo_aoa]] None None) "A1" in
  F.2 = Ok (MkRWC 7 20 30 (Some 1) (Some 2)) ∧ keeps (demo_usb [[demo_aoa]] None None) F.1 {[+ 7%nat +]}.
Proof.
  intros F. assert (F.2 = Ok (MkRWC 7 20 30 (Some 1) (Some 2))) as E by (vm_compute; reflexivity).
  split; [exact E|].
  assert (F = (F.1, Ok (MkRWC 7 20 30 (Some 1) (Some 2)))) as EF by (rewrite <- E; apply surjective_pairing).
  exact (proj1 (connect_close_handles _ _ _ _ (demo_closes [[demo_aoa]] None None) EF)).
Defined.

Lemma connect_failure_handles_witness :
  let u := demo_usb [] (Some (ErrorString "busy")) None in
  let F := Connect u "A1" in
  F.2 = Err (ErrorString "busy") ∧ keeps u F.1 {[+ 7%nat +]}.
Proof.
  intros u F. assert (F.2 = Err (ErrorString "busy")) as E by (vm_compute; reflexivity).
  split; [exact E|].
  assert (F = (F.1, Err (ErrorString "busy"))) as EF by (rewrite <- E; apply surjective_pairing).
  assert ((configureAOA u "A1").2 = Ok (7%nat, MkDeviceDesc googleVendorID 0x4EE1)) as EC
    by (vm_compute; reflexivity).
  assert ((activeConfig (configureAOA u "A1").1 7).2 = Err (ErrorString "busy")) as EA by (vm_compute; reflexivity).
  destruct (connect_failure_handles _ _ _ _ (demo_closes [] (Some (ErrorString "busy")) None) EF)
    as [[H _]|[(u1 & dev & H1 & H & _)|(u1 & dev & u2 & c & ifs & u3 & H1 & H2 & _)]].
  - fold u in H. rewrite H in EC. discriminate EC.
  - fold u in H1. rewrite H1 in EC. injection EC as ->. exact H.
  - fold u in H1. rewrite H1 in EC, EA. injection EC as ->. cbn [fst] in EA, H2. rewrite H2 in EA. discriminate EA.
Defined.
