(* ===== verification/Exec.v ===== *)
(** * Remote execution

    [Exec] of src/waterfall/golang/server/server.go (lines 188-331) and of
    src/waterfall/golang/client/client.go (lines 206-306).  The server runs three
    goroutines: two copy the process's output and error output into channels of capacity
    one, the third merges the channels into the stream.  The process and the pipes are
    what they deliver; the goroutines are a step relation. *)

From S2P Require Import Prelude GoIO Stream.

Local Open Scope Z_scope.

(** [CmdProgress]; a bytes field is nil when it is empty. *)
Record CmdProgress := MkProgress {
  cp_exit : Z;
  cp_stdout : list byte;
  cp_stderr : list byte;
  cp_stdin : list byte;
}.

(** The methods of [execMessageReader] (server) and [execMessageWriter] (client). *)
#[export] Instance exec_BuildMsg : MsgBuilder CmdProgress := MkProgress 0 [] [] [].
#[export] Instance execMessageReader_GetBytes : MsgReader CmdProgress := λ m, Ok (cp_stdin m).
#[export] Instance execMessageWriter_SetBytes : MsgWriter CmdProgress :=
  λ m b, MkProgress (cp_exit m) (cp_stdout m) (cp_stderr m) b.

(** ** The server's goroutines *)

(** A copying goroutine and its channel: the slices still to read from the process, the
    slice in the channel, whether the channel was closed, and what [io.Copy] returns. *)
Record copying := MkCopying {
  todo : list (list byte);
  chan : option (list byte);
  chanClosed : bool;
  copyErr : option error;
}.

(** [chanWriter.Write(b)]: it waits while the channel is full. *)
Definition chanWriter_Write (c : copying) (b : list byte) : option copying :=
  match chan c with
  | Some _ => None
  | None => Some (MkCopying (todo c) (Some b) (chanClosed c) (copyErr c))
  end.

(** One round of [io.Copy(chanWriter(ch), pipe)], or the [close(ch)] after the last. *)
Definition copy_round (c : copying) : option copying :=
  match todo c with
  | b :: rest => chanWriter_Write (MkCopying rest (chan c) (chanClosed c) (copyErr c)) b
  | [] => if chanClosed c then None else Some (MkCopying [] (chan c) true (copyErr c))
  end.

(** [<-ch]: a slice, or the end of a closed channel; [None] while it would wait. *)
Definition chan_recv (c : copying) : option (copying * option (list byte)) :=
  match chan c with
  | Some b => Some (MkCopying (todo c) None (chanClosed c) (copyErr c), Some b)
  | None => if chanClosed c then Some (c, None) else None
  end.

(** [merge]: [None] while the merging goroutine runs, then its result. *)
Record exec := MkExec {
  outs : copying;
  errs : copying;
  oo : bool;
  eo : bool;
  rpc : Outs CmdProgress;
  merge : option (option error);
}.

Definition exec_init (stdout stderr : list (list byte)) (e1 e2 : option error)
    (rpc : Outs CmdProgress) : exec :=
  MkExec (MkCopying stdout None false e1) (MkCopying stderr None false e2) true true rpc None.

(** [rpc.Send(msg)] in the merging goroutine. *)
Definition merge_send (s : exec) (msg : CmdProgress) : exec :=
  match SendMsg (rpc s) msg with
  | (o, None) => MkExec (outs s) (errs s) (oo s) (eo s) o (merge s)
  | (o, Some e) => MkExec (outs s) (errs s) (oo s) (eo s) o (Some (Some e))
  end.

(** The two cases of the [select]. *)
Definition select_stdout (s : exec) : option exec :=
  match chan_recv (outs s) with
  | None => None
  | Some (c, None) => Some (MkExec c (errs s) false (eo s) (rpc s) (merge s))
  | Some (c, Some o) =>
      Some (merge_send (MkExec c (errs s) true (eo s) (rpc s) (merge s)) (MkProgress 0 o [] []))
  end.

Definition select_stderr (s : exec) : option exec :=
  match chan_recv (errs s) with
  | None => None
  | Some (c, None) => Some (MkExec (outs s) c (oo s) false (rpc s) (merge s))
  | Some (c, Some e) =>
      Some (merge_send (MkExec (outs s) c (oo s) true (rpc s) (merge s)) (MkProgress 0 [] e []))
  end.

Inductive exec_step : exec → exec → Prop :=
| ex_out s c :
    copy_round (outs s) = Some c →
    exec_step s (MkExec c (errs s) (oo s) (eo s) (rpc s) (merge s))
| ex_err s c :
    copy_round (errs s) = Some c →
    exec_step s (MkExec (outs s) c (oo s) (eo s) (rpc s) (merge s))
| ex_stdout s s' :
    merge s = None → oo s || eo s = true → select_stdout s = Some s' → exec_step s s'
| ex_stderr s s' :
    merge s = None → oo s || eo s = true → select_stderr s = Some s' → exec_step s s'
| ex_merged s :
    merge s = None → oo s || eo s = false →
    exec_step s (MkExec (outs s) (errs s) (oo s) (eo s) (rpc s) (Some None)).

(** [eg.Wait()] returns: the three goroutines ended. *)
Definition finished (s : exec) : Prop :=
  chanClosed (outs s) = true ∧ chanClosed (errs s) = true ∧ merge s ≠ None.

(** [cmd.Wait()] and [exitCode(err)]: success, an exit status, or another error. *)
Inductive wait := WaitOk | WaitExit (code : Z) | WaitErr (e : error).

Definition exitCode (err : wait) : result Z :=
  match err with
  | WaitOk => Ok 0
  | WaitExit c => Ok c
  | WaitErr e => Err e
  end.

(** [Exec] after the goroutines ended: the stream, and what it returns. *)
Definition Exec_finish (s : exec) (w : wait) : Outs CmdProgress * option error :=
  match merge s, copyErr (outs s), copyErr (errs s) with
  | Some (Some e), _, _ | _, Some e, _ | _, _, Some e => (rpc s, Some e)
  | _, None, None =>
      match exitCode w with
      | Err e => (rpc s, Some e)
      | Ok ec => SendMsg (rpc s) (MkProgress (to_uint 32 ec) [] [] [])
      end
  end.

(** ** The client *)

(** A write to an optional writer: nothing for a nil writer or an absent field. *)
Definition write_opt (w : option sink) (b : list byte) : option sink * option error :=
  match w with
  | Some s => match b with
              | [] => (w, None)
              | _ => let '(s', (_, err)) := sink_write s b in (Some s', err)
              end
  | None => (w, None)
  end.

(** The receiving loop of the client's [Exec] with [int] of [width] bits: the two writers
    after it and the exit code.  Reading the code of a stream without messages panics. *)
Fixpoint Exec_recv (width : Z) (ms : list CmdProgress) (fin : option error)
    (stdout stderr : option sink) (last : option CmdProgress)
    : option sink * option sink * outcome (result Z) :=
  match ms with
  | [] =>
      (stdout, stderr,
       match fin with
       | None => Block
       | Some e =>
           if decide (e = EOF) then
             match last with
             | None => Panic
             | Some m => Ret (Ok (to_int width (cp_exit m)))
             end
           else Ret (Err e)
       end)
  | m :: ms' =>
      match write_opt stdout (cp_stdout m) with
      | (stdout, Some e) => (stdout, stderr, Ret (Err e))
      | (stdout, None) =>
          match write_opt stderr (cp_stderr m) with
          | (stderr, Some e) => (stdout, stderr, Ret (Err e))
          | (stderr, None) => Exec_recv width ms' fin stdout stderr (Some m)
          end
      end
  end.

(** ** The invariant of a run whose stream does not fail *)

Definition out_bytes (ms : list CmdProgress) : list byte := mjoin (cp_stdout <$> ms).
Definition err_bytes (ms : list CmdProgress) : list byte := mjoin (cp_stderr <$> ms).

(** The bytes of a copy that are not merged yet. *)
Definition pending (c : copying) : list byte := default [] (chan c) ++ mjoin (todo c).

Lemma out_bytes_snoc ms m : out_bytes (ms ++ [m]) = out_bytes ms ++ cp_stdout m.
Proof. unfold out_bytes. rewrite fmap_app, join_app. cbn. by rewrite app_nil_r. Qed.

Lemma err_bytes_snoc ms m : err_bytes (ms ++ [m]) = err_bytes ms ++ cp_stderr m.
Proof. unfold err_bytes. rewrite fmap_app, join_app. cbn. by rewrite app_nil_r. Qed.

(** A copy that will have delivered [all] after the bytes merged so far; [seen] is the flag
    the merging goroutine keeps for it. *)
Definition copy_ok (all merged : list byte) (seen : bool) (c : copying) : Prop :=
  merged ++ pending c = all ∧ (chanClosed c = true → todo c = []) ∧
  (seen = false → chan c = None ∧ chanClosed c = true).

Lemma copy_round_ok all merged seen c c' :
  copy_ok all merged seen c → copy_round c = Some c' → copy_ok all merged seen c'.
Proof.
  unfold copy_ok, copy_round, chanWriter_Write, pending. intros (H1 & H2 & H3) H.
  destruct (todo c) as [|b rest] eqn:Ht; cbn in H.
  - destruct (chanClosed c) eqn:Hc; [done|]. injection H as <-. cbn. split_and!; [done|done|].
    intros Hs. by destruct (H3 Hs).
  - destruct (chan c) as [x|] eqn:Hx; [done|]. injection H as <-. cbn. split_and!; [done| |].
    + intros Hc. by apply H2 in Hc.
    + intros Hs. destruct (H3 Hs) as [_ Hc]. by apply H2 in Hc.
Qed.

Lemma chan_recv_ok all merged seen c c' b :
  copy_ok all merged seen c → chan_recv c = Some (c', b) →
  match b with
  | Some b => copy_ok all (merged ++ b) true c'
  | None => copy_ok all merged false c'
  end.
Proof.
  unfold copy_ok, chan_recv, pending. intros (H1 & H2 & H3) H.
  destruct (chan c) as [x|] eqn:Hx.
  - injection H as <- <-. cbn. split_and!; [by rewrite <- app_assoc|done|done].
  - destruct (chanClosed c) eqn:Hc; [|done]. injection H as <- <-. cbn. rewrite Hx, Hc. done.
Qed.

Record exec_ok (O E : list byte) (s : exec) : Prop := {
  eo_out : copy_ok O (out_bytes (sent (rpc s))) (oo s) (outs s);
  eo_err : copy_ok E (err_bytes (sent (rpc s))) (eo s) (errs s);
  eo_merge : ∀ r, merge s = Some r → r = None ∧ oo s = false ∧ eo s = false;
  eo_send : sendFail (rpc s) = None;
  eo_exit : Forall (λ m, cp_exit m = 0) (sent (rpc s));
}.

Lemma merge_send_healthy s m :
  sendFail (rpc s) = None →
  merge_send s m =
  MkExec (outs s) (errs s) (oo s) (eo s) (MkOuts (sent (rpc s) ++ [m]) None) (merge s).
Proof. intros H. unfold merge_send, SendMsg. by rewrite H. Qed.

Lemma select_stdout_ok O E s s' :
  exec_ok O E s → merge s = None → select_stdout s = Some s' → exec_ok O E s'.
Proof.
  intros [Ho He Hm Hs Hx] Hn. unfold select_stdout.
  destruct (chan_recv (outs s)) as [[c [b|]]|] eqn:Hr; [| |done];
    apply (chan_recv_ok _ _ _ _ _ _ Ho) in Hr; intros [= <-].
  - rewrite merge_send_healthy by done. split; cbn [outs errs oo eo rpc merge sent sendFail]; try done.
    + by rewrite out_bytes_snoc.
    + rewrite err_bytes_snoc. cbn. by rewrite app_nil_r.
    + intros r. by rewrite Hn.
    + apply Forall_app. by split; [|constructor].
  - split; cbn [outs errs oo eo rpc merge sent sendFail]; try done. intros r. by rewrite Hn.
Qed.

Lemma select_stderr_ok O E s s' :
  exec_ok O E s → merge s = None → select_stderr s = Some s' → exec_ok O E s'.
Proof.
  intros [Ho He Hm Hs Hx] Hn. unfold select_stderr.
  destruct (chan_recv (errs s)) as [[c [b|]]|] eqn:Hr; [| |done];
    apply (chan_recv_ok _ _ _ _ _ _ He) in Hr; intros [= <-].
  - rewrite merge_send_healthy by done. split; cbn [outs errs oo eo rpc merge sent sendFail]; try done.
    + rewrite out_bytes_snoc. cbn. by rewrite app_nil_r.
    + by rewrite err_bytes_snoc.
    + intros r. by rewrite Hn.
    + apply Forall_app. by split; [|constructor].
  - split; cbn [outs errs oo eo rpc merge sent sendFail]; try done. intros r. by rewrite Hn.
Qed.

Lemma exec_step_ok O E : invariant exec_step (exec_ok O E).
Proof.
  intros s s' Hok Hs. destruct Hs as [s c Hc|s c Hc|s s' Hm _ Hs|s s' Hm _ Hs|s Hm Hoo].
  - destruct Hok as [Ho He Hm Hs Hx]. split; cbn; try done. by eapply copy_round_ok.
  - destruct Hok as [Ho He Hm Hs Hx]. split; cbn; try done. by eapply copy_round_ok.
  - by eapply select_stdout_ok.
  - by eapply select_stderr_ok.
  - destruct Hok as [Ho He Hm' Hs Hx]. split; cbn; try done. intros r [= <-].
    by apply orb_false_iff in Hoo as [-> ->].
Qed.

Lemma exec_init_ok O E e1 e2 :
  exec_ok (mjoin O) (mjoin E) (exec_init O E e1 e2 (MkOuts [] None)).
Proof. by split; cbn. Qed.

Lemma exec_reach_ok O E e1 e2 s :
  rtc exec_step (exec_init O E e1 e2 (MkOuts [] None)) s → exec_ok (mjoin O) (mjoin E) s.
Proof. intros H. eapply invariant_rtc; [apply exec_step_ok|exact H|apply exec_init_ok]. Qed.

(** When the merging goroutine ended, everything was sent. *)
Lemma exec_merged_all O E s :
  exec_ok O E s → merge s ≠ None →
  out_bytes (sent (rpc s)) = O ∧ err_bytes (sent (rpc s)) = E.
Proof.
  intros [(Ho1 & Ho2 & Ho3) (He1 & He2 & He3) Hm _ _] Hn.
  destruct (merge s) as [r|] eqn:E1; [|done]. destruct (Hm r eq_refl) as (_ & Hoo & Heo).
  destruct (Ho3 Hoo) as [Hc1 Hc2]. destruct (He3 Heo) as [Hd1 Hd2].
  unfold pending in *. rewrite Hc1, (Ho2 Hc2) in Ho1. rewrite Hd1, (He2 Hd2) in He1.
  cbn in *. by rewrite app_nil_r in Ho1, He1.
Qed.

(** ** Progress *)

Definition copy_size (c : copying) : nat :=
  (2 * length (todo c) + (if chan c is Some _ then 1 else 0) + (if chanClosed c then 0 else 1))%nat.

Definition exec_size (s : exec) : nat :=
  (copy_size (outs s) + copy_size (errs s) + (if oo s then 1 else 0) + (if eo s then 1 else 0) +
   (if merge s is Some _ then 0 else 1))%nat.

Lemma copy_size_pos c seen all merged :
  copy_ok all merged seen c → chanClosed c = false ∨ chan c ≠ None →
  (∃ c', copy_round c = Some c' ∧ (copy_size c' < copy_size c)%nat) ∨ chan c ≠ None.
Proof.
  intros (_ & Hcl & _) H. destruct (chan c) as [x|] eqn:Hx; [by right|]. left.
  destruct H as [H|H]; [|done]. unfold copy_round, chanWriter_Write, copy_size.
  destruct (todo c) as [|b rest] eqn:Ht; cbn; rewrite H, Hx; eexists; split; try done; cbn; lia.
Qed.

Lemma chan_recv_size c c' b :
  chan_recv c = Some (c', b) → copy_size c = (copy_size c' + (if b is Some _ then 1 else 0))%nat.
Proof.
  unfold chan_recv, copy_size. destruct (chan c) as [x|] eqn:Hx.
  - intros [= <- <-]. cbn. lia.
  - destruct (chanClosed c) eqn:Hc; [|done]. intros [= <- <-]. rewrite Hx, Hc. lia.
Qed.

Lemma chan_recv_None c : chan_recv c = None → chan c = None ∧ chanClosed c = false.
Proof. unfold chan_recv. destruct (chan c); [done|]. by destruct (chanClosed c). Qed.

Lemma progress_stdout O E s :
  exec_ok O E s → merge s = None → oo s = true →
  ∃ s', exec_step s s' ∧ (exec_size s' < exec_size s)%nat.
Proof.
  intros [Ho _ _ Hs _] Hmg Hoo. destruct (chan_recv (outs s)) as [[c b]|] eqn:Hr.
  - pose proof (chan_recv_size _ _ _ Hr) as Hsz.
    destruct b as [b|]; (eexists; split;
      [eapply ex_stdout; [done|by rewrite Hoo|unfold select_stdout; by rewrite Hr]|]);
      unfold exec_size; rewrite Hoo, Hmg.
    + rewrite merge_send_healthy by done. cbn [outs errs oo eo rpc merge]. lia.
    + cbn [outs errs oo eo rpc merge]. lia.
  - destruct (chan_recv_None _ Hr) as [Hx Hc].
    destruct (copy_size_pos (outs s) (oo s) _ _ Ho (or_introl Hc)) as [(c' & Hc' & Hlt)|?]; [|done].
    eexists. split; [by apply ex_out|]. unfold exec_size. cbn [outs errs oo eo rpc merge]. lia.
Qed.

Lemma progress_stderr O E s :
  exec_ok O E s → merge s = None → eo s = true →
  ∃ s', exec_step s s' ∧ (exec_size s' < exec_size s)%nat.
Proof.
  intros [_ He _ Hs _] Hmg Heo. destruct (chan_recv (errs s)) as [[c b]|] eqn:Hr.
  - pose proof (chan_recv_size _ _ _ Hr) as Hsz.
    destruct b as [b|]; (eexists; split;
      [eapply ex_stderr; [done|by rewrite Heo, orb_true_r|unfold select_stderr; by rewrite Hr]|]);
      unfold exec_size; rewrite Heo, Hmg.
    + rewrite merge_send_healthy by done. cbn [outs errs oo eo rpc merge]. lia.
    + cbn [outs errs oo eo rpc merge]. lia.
  - destruct (chan_recv_None _ Hr) as [Hx Hc].
    destruct (copy_size_pos (errs s) (eo s) _ _ He (or_introl Hc)) as [(c' & Hc' & Hlt)|?]; [|done].
    eexists. split; [by apply ex_err|]. unfold exec_size. cbn [outs errs oo eo rpc merge]. lia.
Qed.

Lemma exec_progress O E s :
  exec_ok O E s → ¬ finished s → ∃ s', exec_step s s' ∧ (exec_size s' < exec_size s)%nat.
Proof.
  intros Hok Hnf. destruct (merge s) as [r|] eqn:Hmg.
  - destruct Hok as [(_ & _ & Ho3) (_ & _ & He3) Hm _ _].
    destruct (Hm r Hmg) as (_ & Hoo & Heo). exfalso. apply Hnf.
    destruct (Ho3 Hoo) as [_ ?]. destruct (He3 Heo) as [_ ?]. unfold finished. by rewrite Hmg.
  - destruct (oo s) eqn:Hoo; [by eapply progress_stdout|].
    destruct (eo s) eqn:Heo; [by eapply progress_stderr|].
    eexists. split; [apply ex_merged; [done|by rewrite Hoo, Heo]|].
    unfold exec_size. cbn. rewrite Hmg. lia.
Qed.

Lemma exec_can_finish O E s : exec_ok O E s → ∃ s', rtc exec_step s s' ∧ finished s'.
Proof.
  remember (exec_size s) as n eqn:Hn. revert s Hn.
  induction (lt_wf n) as [n _ IH]. intros s -> Hok.
  destruct (decide (chanClosed (outs s) = true ∧ chanClosed (errs s) = true ∧ merge s ≠ None))
    as [Hf|Hf]; [by exists s|].
  destruct (exec_progress _ _ _ Hok Hf) as (s1 & Hs & Hlt).
  destruct (IH _ Hlt s1 eq_refl (exec_step_ok _ _ _ _ Hok Hs)) as (s' & Hr & Hf').
  exists s'. split; [by eapply rtc_l|done].
Qed.

(** ** The client's loop *)

Lemma write_opt_healthy w b :
  quota w = None → write_opt (Some w) b = (Some (MkSink (taken w ++ b) None), None).
Proof.
  intros H. destruct b; cbn.
  - rewrite app_nil_r. by destruct w; cbn in *; subst.
  - unfold sink_write. by rewrite H.
Qed.

Lemma Exec_recv_spec width ms m so se last :
  quota so = None → quota se = None →
  Exec_recv width (ms ++ [m]) (Some EOF) (Some so) (Some se) last =
  (Some (MkSink (taken so ++ out_bytes (ms ++ [m])) None),
   Some (MkSink (taken se ++ err_bytes (ms ++ [m])) None),
   Ret (Ok (to_int width (cp_exit m)))).
Proof.
  revert so se last. induction ms as [|m' ms IH]; intros so se last Ho He;
    cbn [Exec_recv app]; rewrite !write_opt_healthy by done.
  - cbn. rewrite decide_True by done. by rewrite !app_nil_r.
  - rewrite IH by done. cbn [taken]. by rewrite <- !app_assoc.
Qed.

(** ** Theorems *)

(** What the server has sent when its goroutines ended on a stream that did not fail: the
    process's output and error output, and then its exit status. *)
Lemma exec_sent O E s ec :
  rtc exec_step (exec_init O E None None (MkOuts [] None)) s → finished s →
  ∃ o ms, Exec_finish s (WaitExit ec) = (o, None) ∧
    sent o = ms ++ [MkProgress (to_uint 32 ec) [] [] []] ∧
    out_bytes (sent o) = mjoin O ∧ err_bytes (sent o) = mjoin E.
Proof.
  intros Hr Hf. pose proof (exec_reach_ok _ _ _ _ _ Hr) as Hok.
  assert (copyErr (outs s) = None ∧ copyErr (errs s) = None) as [Hc1 Hc2].
  { apply (invariant_rtc exec_step (λ s, copyErr (outs s) = None ∧ copyErr (errs s) = None)
      (exec_init O E None None (MkOuts [] None))); [|done|done].
    intros t t' Ht Hs. destruct Hs as [s0 c H|s0 c H|s0 s1 _ _ H|s0 s1 _ _ H|]; cbn in *; [| | | |done].
    all: unfold copy_round, chanWriter_Write, select_stdout, select_stderr, chan_recv,
      merge_send, SendMsg in H; repeat case_match; simplify_eq; done. }
  destruct Hf as (_ & _ & Hm). destruct (exec_merged_all _ _ _ Hok Hm) as [HO HE].
  destruct Hok as [_ _ Hmr Hs _]. unfold Exec_finish.
  destruct (merge s) as [r|]; [|done]. destruct (Hmr r eq_refl) as (-> & _).
  rewrite Hc1, Hc2. cbn [exitCode]. unfold SendMsg. rewrite Hs.
  do 2 eexists. split; [done|]. cbn [sent]. split; [done|].
  rewrite out_bytes_snoc, err_bytes_snoc. cbn [cp_stdout cp_stderr].
  by rewrite !app_nil_r, HO, HE.
Qed.

(** Running a command loses no output and reports its status: when the server's
    goroutines have ended on a stream that did not fail, the client writes exactly the
    process's output and error output, each in order, and returns its exit status. *)
Theorem exec_end_to_end O E s ec so se width :
  IntWidth width →
  rtc exec_step (exec_init O E None None (MkOuts [] None)) s → finished s →
  0 ≤ ec < 2 ^ 31 → quota so = None → quota se = None →
  ∃ o, Exec_finish s (WaitExit ec) = (o, None) ∧
    Exec_recv width (sent o) (Some EOF) (Some so) (Some se) None =
    (Some (MkSink (taken so ++ mjoin O) None), Some (MkSink (taken se ++ mjoin E) None),
     Ret (Ok ec)).
Proof.
  intros Hw Hr Hf Hec Hso Hse. destruct (exec_sent O E s ec Hr Hf) as (o & ms & Hfin & Hms & HO & HE).
  exists o. split; [done|]. rewrite <- HO, <- HE, Hms. rewrite Exec_recv_spec by done. cbn [cp_exit].
  do 3 f_equal. unfold to_uint.
  rewrite Z.mod_small by lia. apply to_int_small; [done|]. destruct Hw as [-> | ->]; lia.
Qed.

Definition demo_fin : exec :=
  MkExec (MkCopying [] None true None) (MkCopying [] None true None) false false
    (MkOuts [MkProgress 0 ["a"%char] [] []] None) (Some None).

Lemma demo_exec : rtc exec_step (exec_init [["a"%char]] [] None None (MkOuts [] None)) demo_fin.
Proof.
  eapply rtc_l; [by apply ex_out|]. eapply rtc_l; [by apply ex_err|].
  eapply rtc_l; [by apply ex_stdout|]. eapply rtc_l; [by apply ex_out|].
  eapply rtc_l; [by apply ex_stdout|]. eapply rtc_l; [by apply ex_stderr|].
  eapply rtc_l; [by apply ex_merged|]. apply rtc_refl.
Defined.

Lemma exec_end_to_end_witness : ∃ o,
  Exec_recv 64 (sent o) (Some EOF) (Some (MkSink [] None)) (Some (MkSink [] None)) None =
  (Some (MkSink ["a"%char] None), Some (MkSink [] None), Ret (Ok 3)).
Proof.
  destruct (exec_end_to_end [["a"%char]] [] demo_fin 3 (MkSink [] None) (MkSink [] None) 64 _
    demo_exec) as (o & _ & H).
  - split; [reflexivity|split; [reflexivity|discriminate]].
  - lia.
  - reflexivity.
  - reflexivity.
  - exists o. exact H.
Defined.

(** C26: execution can always finish: from every state the goroutines reach on a stream
    that does not fail, some schedule brings all three to their end. *)
Theorem exec_terminates O E e1 e2 s :
  rtc exec_step (exec_init O E e1 e2 (MkOuts [] None)) s →
  ∃ s', rtc exec_step s s' ∧ finished s'.
Proof. intros H. by eapply exec_can_finish, exec_reach_ok. Qed.

Lemma exec_terminates_witness : ∃ s',
  rtc exec_step (exec_init [["a"%char]] [["b"%char]] None None (MkOuts [] None)) s' ∧ finished s'.
Proof. exact (exec_terminates _ _ None None _ (rtc_refl _ _)). Defined.

(** When the stream fails the call hangs: once the merging goroutine has returned an
    error, a copying goroutine that has a full channel and more output never ends, so
    [eg.Wait()] does not return and the process is not killed by the deferred call. *)
Theorem exec_hangs_on_send_error s e b :
  merge s = Some (Some e) → chan (outs s) = Some b → todo (outs s) ≠ [] →
  chanClosed (outs s) = false → ∀ s', rtc exec_step s s' → ¬ finished s'.
Proof.
  intros Hm Hc Ht Hcl s' Hs'.
  assert (merge s' = Some (Some e) ∧ outs s' = outs s) as [_ Ho].
  { apply (invariant_rtc exec_step (λ t, merge t = Some (Some e) ∧ outs t = outs s) s);
      [|done|done].
    intros t t' [Hmt Hot] Hst. destruct Hst as [t c H| | | |]; cbn; try congruence; [|done].
    rewrite Hot in H. unfold copy_round, chanWriter_Write in H.
    destruct (todo (outs s)) as [|x rest]; [done|]. cbn in H. by rewrite Hc in H. }
  intros (H & _). rewrite Ho in H. congruence.
Qed.

(** A run in which the first send fails while the process still writes. *)
Definition demo_stuck : exec :=
  MkExec (MkCopying [["c"%char]] (Some ["b"%char]) false None) (MkCopying [] None false None) true true
    (MkOuts [] (Some (O, ErrorString "transport is closing")))
    (Some (Some (ErrorString "transport is closing"))).

Lemma demo_stuck_reach :
  rtc exec_step (exec_init [["a"%char]; ["b"%char]; ["c"%char]] [] None None
    (MkOuts [] (Some (O, ErrorString "transport is closing")))) demo_stuck.
Proof.
  eapply rtc_l; [by apply ex_out|]. eapply rtc_l; [by apply ex_stdout|].
  eapply rtc_l; [by apply ex_out|]. apply rtc_refl.
Defined.

Lemma exec_hangs_on_send_error_witness :
  rtc exec_step (exec_init [["a"%char]; ["b"%char]; ["c"%char]] [] None None
    (MkOuts [] (Some (O, ErrorString "transport is closing")))) demo_stuck ∧
  ∀ s', rtc exec_step demo_stuck s' → ¬ finished s'.
Proof.
  split; [exact demo_stuck_reach|].
  apply (exec_hangs_on_send_error demo_stuck (ErrorString "transport is closing") ["b"%char]);
    [reflexivity|reflexivity|discriminate|reflexivity].
Defined.
