(* ===== verification/ExecProcess.v ===== *)
(** * The process of a remote execution: [Exec] of server.go and client.go

    Around the goroutines of Exec.v: how the server starts the process from the client's first
    message, what its deferred calls do to the process, and the whole of the client's call,
    standard input included. *)

From S2P Require Import Prelude GoIO Stream Exec.

Local Open Scope Z_scope.

(** ** The first message *)

(** [Cmd] *)
Record Cmd := MkCmd { cmd_Path : string; cmd_Args : list string; cmd_Dir : string; cmd_PipeIn : bool }.

(** The message the client starts with; [stdin] says whether it was given a reader. *)
Definition client_cmd (cmd : string) (args : list string) (stdin : bool) : Cmd := MkCmd cmd args "" stdin.

(** ** The server *)

(** What the kernel refuses: the three pipes and the start of the process. *)
Record ExecOS := MkExecOS {
  os_stdout : option error; os_stderr : option error; os_stdin : option error; os_start : option error;
}.

(** The command the kernel is given: program, arguments, directory. *)
Record command := MkCommand { c_path : string; c_args : list string; c_dir : string }.

Definition Exec_command (c : Cmd) : command :=
  MkCommand (cmd_Path c) (cmd_Args c) (if decide (cmd_Dir c = "") then "/" else cmd_Dir c).

(** A process that was started: whether it runs, and whether [os.Process] was released, after
    which the handle refuses every call. *)
Record process := MkProcess { alive : bool; released : bool }.

Definition Release (p : process) : process * option error :=
  (MkProcess (alive p) true, None).

Definition Kill (p : process) : process * option error :=
  if released p then (p, Some (ErrorString "os: process already released"))
  else (MkProcess false (released p), None).

(** [cmd.Wait()]: it returns when the process has ended. *)
Definition Wait (p : process) : process := MkProcess false (released p).

(** [Exec] up to [cmd.Start()]: the process, or the error it returns; no call is deferred yet. *)
Definition Exec_start (os : ExecOS) (recv : result Cmd) : result (command * process) :=
  match recv with
  | Err e => Err e
  | Ok c =>
      match os_stdout os, os_stderr os, (if cmd_PipeIn c then os_stdin os else None), os_start os with
      | Some e, _, _, _ | None, Some e, _, _ | None, None, Some e, _ | None, None, None, Some e => Err e
      | None, None, None, None => Ok (Exec_command c, MkProcess true false)
      end
  end.

(** The deferred calls, in the order of their statements. *)
Definition Exec_defers : list (process → process * option error) := [Kill; Release].

(** Deferred calls run last first; their errors are dropped. *)
Definition run_defers (ds : list (process → process * option error)) (p : process) : process :=
  foldr (λ d p, fst (d p)) p ds.

(** Whether the goroutines ended without an error, so that [cmd.Wait()] is reached. *)
Definition goroutines_ok (s : exec) : bool :=
  match merge s, copyErr (outs s), copyErr (errs s) with
  | Some None, None, None => true
  | _, _, _ => false
  end.

(** [Exec(rpc)] whose goroutines ended in [s]; [w] is the result of [cmd.Wait()], and
    [running] says whether the process still ran when the goroutines had ended (it does not if
    it ended by itself, or if the context of the request was cancelled before): the process
    at the end, the messages sent, and the error returned. *)
Definition Exec_handler (os : ExecOS) (recv : result Cmd) (s : exec) (w : wait) (running : bool)
    : option (command * process) * (Outs CmdProgress * option error) :=
  match Exec_start os recv with
  | Err e => (None, (rpc s, Some e))
  | Ok (c, p) =>
      let p := MkProcess running (released p) in
      let p := if goroutines_ok s then Wait p else p in
      (Some (c, run_defers Exec_defers p), Exec_finish s w)
  end.

(** The goroutine of [PipeIn]: [io.Copy] of the stream into the standard input of the process,
    with the given schedules and buffer sizes of its reads, and the deferred [si.Close()].  The
    pipe after the goroutine, and whether it was closed; [None] while the copy still runs. *)
Fixpoint feed_stdin (rs : list (list nat * Z)) (s : Reader CmdProgress) (si : sink) : sink * option bool :=
  match rs with
  | [] => (si, None)
  | (sched, n) :: rs' =>
      match Read sched s n with
      | (s, Ret (b, rerr)) =>
          let '(si, werr) := match b with [] => (si, None) | _ => let '(si, (_, e)) := sink_write si b in (si, e) end in
          match werr, rerr with
          | None, None => feed_stdin rs' s si
          | _, _ => (si, Some true)
          end
      | (_, Block) => (si, None)
      | (_, Panic) => (si, None)
      end
  end.

(** ** The client *)

(** [cancelCopy] and the goroutine around it: what is sent of standard input.  [early] is the
    number of slices that were sent when the process ended first, if it did. *)
Definition stdin_copy (o : Outs CmdProgress) (bs : list (list byte)) (rerr : option error) (early : option nat)
    : Outs CmdProgress * option error :=
  match early with
  | Some n => (fst (Writer_copy o (take n bs)), None)
  | None =>
      match Writer_copy o bs with
      | (o, Some e) => (o, Some e)
      | (o, None) => (o, rerr)
      end
  end.

(** The goroutine of standard input: [csend] is the error of [CloseSend]. *)
Definition stdin_goroutine (o : Outs CmdProgress) (bs : list (list byte)) (rerr : option error)
    (early : option nat) (csend : option error) : Outs CmdProgress * option error :=
  match stdin_copy o bs rerr early with
  | (o, None) => (o, csend)
  | (o, Some e) => if decide (e = EOF) then (o, csend) else (o, Some e)
  end.

(** [Exec(ctx, client, stdout, stderr, stdin, cmd, args...)]: [dial] and [send0] are the errors of
    opening the stream and of the first message; [inp] is the result of the goroutine of
    standard input, [None] without one; [ms] and [fin] are what the server sends. *)
Definition client_Exec (width : Z) (dial send0 : option error) (inp : option (option error)) (csend : option error)
    (ms : list CmdProgress) (fin : option error) (stdout stderr : option sink)
    : option sink * option sink * outcome (result Z) :=
  match dial, send0, inp, csend with
  | Some e, _, _, _ | None, Some e, _, _ | None, None, None, Some e => (stdout, stderr, Ret (Err e))
  | None, None, _, _ =>
      match Exec_recv width ms fin stdout stderr None with
      | (so, se, Ret (Ok code)) =>
          (so, se, match inp with Some (Some e) => Ret (Err e) | _ => Ret (Ok code) end)
      | (so, se, Panic) =>
          (so, se, match inp with Some (Some e) => Ret (Err e) | _ => Panic end)
      | r => r
      end
  end.

(** ** Theorems *)

(** C23: running a command remotely: the server runs exactly the program and arguments the client
    was given, in the root directory, with a standard input exactly when the client has one;
    and when the goroutines have ended on a stream that did not fail, the process has
    ended, the client has written exactly its output and error output, each in order, and
    returns its exit status. *)
Theorem remote_exec_end_to_end cmd args stdin O E s ec so se width running inp :
  IntWidth width →
  rtc exec_step (exec_init O E None None (MkOuts [] None)) s → finished s →
  0 ≤ ec < 2 ^ 31 → quota so = None → quota se = None → inp ∈ [None; Some None] →
  let os := MkExecOS None None None None in
  let c := client_cmd cmd args stdin in
  cmd_PipeIn c = stdin ∧
  ∃ o, Exec_handler os (Ok c) s (WaitExit ec) running =
         (Some (MkCommand cmd args "/", MkProcess false true), (o, None)) ∧
    client_Exec width None None inp None (sent o) (Some EOF) (Some so) (Some se) =
      (Some (MkSink (taken so ++ mjoin O) None), Some (MkSink (taken se ++ mjoin E) None), Ret (Ok ec)).
Proof.
  intros Hw Hr Hf Hec Hso Hse Hinp os c. split; [done|].
  destruct (exec_end_to_end O E s ec so se width Hw Hr Hf Hec Hso Hse) as (o & Ho & HR).
  assert (goroutines_ok s = true) as Hg.
  { unfold Exec_finish in Ho. unfold goroutines_ok. destruct Hf as (_ & _ & Hm).
    destruct (merge s) as [[e|]|] eqn:Em; [discriminate Ho| |by destruct Hm].
    destruct (copyErr (outs s)); [discriminate Ho|]. by destruct (copyErr (errs s)). }
  exists o. split.
  - unfold Exec_handler. rewrite Hg, Ho. by destruct stdin.
  - unfold client_Exec. rewrite HR. by apply list_elem_of_In in Hinp as [<-|[<-|[]]].
Qed.

Definition demo_os : ExecOS := MkExecOS None None None None.

Lemma remote_exec_end_to_end_witness : ∃ o,
  Exec_handler demo_os (Ok (client_cmd "/bin/echo" ["a"] false)) demo_fin (WaitExit 3) true =
    (Some (MkCommand "/bin/echo" ["a"] "/", MkProcess false true), (o, None)) ∧
  client_Exec 64 None None None None (sent o) (Some EOF) (Some (MkSink [] None)) (Some (MkSink [] None)) =
    (Some (MkSink ["a"%char] None), Some (MkSink [] None), Ret (Ok 3)).
Proof.
  refine (proj2 (remote_exec_end_to_end "/bin/echo" ["a"] false [["a"%char]] [] demo_fin 3
    (MkSink [] None) (MkSink [] None) 64 true None _ demo_exec _ _ eq_refl eq_refl _)).
  - split_and!; [reflexivity|reflexivity|discriminate].
  - lia.
  - left.
Defined.

(** What becomes of the process: when it cannot be started nothing runs and the error is
    returned; when the goroutines ended without an error it has ended; but when one of them
    failed the process is left as it was, running if it still ran, because the handle is
    released before the deferred kill, which then fails. *)
Theorem exec_process_lifecycle os recv s w running :
  match Exec_start os recv with
  | Err e => Exec_handler os recv s w running = (None, (rpc s, Some e))
  | Ok (c, p) =>
      ∃ p' o r, Exec_handler os recv s w running = (Some (c, p'), (o, r)) ∧ alive p = true ∧
        if goroutines_ok s then alive p' = false
        else alive p' = running ∧ (merge s ≠ None → r ≠ None)
  end.
Proof.
  unfold Exec_handler. destruct (Exec_start os recv) as [[c p]|e] eqn:ES; [|done].
  destruct (Exec_finish s w) as [o r] eqn:EF. do 3 eexists. split; [done|]. split.
  { unfold Exec_start in ES. by repeat case_match; simplify_eq. }
  unfold Exec_finish in EF. unfold goroutines_ok.
  destruct (merge s) as [[e|]|] eqn:Em.
  - injection EF as _ <-. done.
  - destruct (copyErr (outs s)) as [e|]; [by injection EF as _ <-|].
    by destruct (copyErr (errs s)) as [e|]; [injection EF as _ <-|].
  - by destruct (copyErr (outs s)), (copyErr (errs s)).
Qed.

(** What the goroutine writes when the process takes everything: all it reads, and the end. *)
Lemma feed_stdin_reads rs s si s' bs e :
  quota si = None → run_reads s rs = (s', bs, Ret (Some e)) →
  feed_stdin rs s si = (MkSink (taken si ++ bs) None, Some true).
Proof.
  revert s si bs. induction rs as [|[sched n] rs IH]; intros s [tk q] bs Hq; cbn in Hq; subst q; [done|].
  cbn [run_reads feed_stdin]. destruct (Read sched s n) as [s1 [[b [e1|]]| |]]; try done.
  - intros [= -> -> _]. destruct bs; cbn; by rewrite ?app_nil_r.
  - destruct (run_reads s1 rs) as [[s2 rest] o] eqn:E. intros [= -> <- ->].
    destruct b as [|x b]; cbn [sink_write quota taken].
    + by rewrite (IH s1 (MkSink tk None) rest).
    + rewrite (IH s1 (MkSink (tk ++ x :: b) None) rest) by done. cbn [taken]. by rewrite <- app_assoc.
Qed.

(** Standard input, from the client's reader to the process: unless the process ended first, the
    server's goroutine writes to the process exactly what the client read, in order, whatever the
    sizes of the reads on both sides, and then closes its standard input. *)
Theorem exec_stdin_delivered bs rs si :
  Forall (λ r, 0 < r.2) rs → (length (concat bs) + length bs < length rs)%nat → quota si = None →
  let '(o, r) := stdin_goroutine (MkOuts [] None) bs None None None in
  r = None ∧ feed_stdin rs (NewReader (sent o) (Some EOF)) si = (MkSink (taken si ++ concat bs) None, Some true).
Proof.
  intros HF Hl Hq. unfold stdin_goroutine, stdin_copy. rewrite Writer_copy_sent by done. cbn [sent app].
  split; [done|]. destruct (writer_carries (M := CmdProgress) bs rs) as [s' Hs]; [done..|].
  by eapply feed_stdin_reads.
Qed.

Lemma exec_stdin_delivered_witness :
  snd (feed_stdin (replicate 4 ([1%nat], 2)) (NewReader [MkProgress 0 [] [] ["a"%char]] (Some EOF)) (MkSink [] None)) =
  Some true.
Proof.
  pose proof (exec_stdin_delivered [["a"%char]] (replicate 4 ([1%nat], 2)) (MkSink [] None)) as H.
  cbn [stdin_goroutine stdin_copy Writer_copy Writer_Write SendMsg sendFail sent app] in H.
  destruct H as [_ H]; [by apply Forall_replicate|cbn; lia|reflexivity|].
  exact (f_equal snd H).
Defined.
