(* ===== verification/Install.v ===== *)
(** * Installing a package: [Install] of src/waterfall/golang/server/server.go, lines 333-522

    The commands the server runs on the device and what it answers, from the results of
    the commands. *)

From S2P Require Import Prelude GoStrings Stream Exec.

Local Open Scope Z_scope.
Local Open Scope go_scope.

(** [InstallRequest] and [InstallResponse] *)
Record InstallRequest := MkInstallRequest {
  ir_args : list string;
  ir_apkSize : Z;
  ir_payload : list byte;
}.
Record InstallResponse := MkInstallResponse { exit_code : Z; output : string }.

(** The methods of [installReader] (server) and [installWriter] (client). *)
#[export] Instance install_BuildMsg : MsgBuilder InstallRequest := MkInstallRequest [] 0 [].
#[export] Instance installReader_GetBytes : MsgReader InstallRequest := λ m, Ok (ir_payload m).
#[export] Instance installWriter_SetBytes : MsgWriter InstallRequest :=
  λ m b, MkInstallRequest (ir_args m) (ir_apkSize m) b.

(** The constants of the file. *)
Definition pmCmd : string := "pm".
Definition cmdCmd : string := "cmd".
Definition packageService : string := "package".
Definition install : string := "install".
Definition installCreate : string := "install-create".
Definition installWrite : string := "install-write".
Definition installCommit : string := "install-commit".
Definition installAbandon : string := "install-abandon".
Definition noStreaming : string := "no-streaming".
Definition success : string := "Success".

(** [getVersion()] from the output and error of [getprop]. *)
Definition getVersion (w : Z) (prop : string * option error) : Z * option error :=
  match snd prop with
  | Some e => (0, Some e)
  | None => Atoi w (Trim (fst prop) (String (Ascii.ascii_of_nat 13) (String (Ascii.ascii_of_nat 10) "")))
  end.

(** What the handler gets from the device: [getprop]'s output, the temporary file, the
    errors of writing it, and the combined output and result of the shell commands by
    number and command line; and from its RPC: [ctxErr n] is the error of its context, if it is
    done, when command [n] starts (0 creates a session or installs a file, 1 writes, 2 commits, 3
    abandons). *)
Record device := MkDevice {
  prop : string * option error;
  tempFile : result string;
  copyErr : option error;
  chmodErr : option error;
  run : nat → list string → string * wait;
  ctxErr : nat → option error;
}.

(** A context that is done stays done. *)
Definition ctx_stays (d : device) : Prop :=
  ∀ n m e, (n ≤ m)%nat → ctxErr d n = Some e → ctxErr d m = Some e.

(** [shell(ctx, args)]: the command line of the process. *)
Definition shell (args : list string) : list string := ["/system/bin/sh"; "-c"; Join args " "].

(** The arguments without the flag, and whether it was there. *)
Definition install_args (args : list string) : list string :=
  filter (λ a, Contains a noStreaming = false) args.
Definition forceNoStreaming (args : list string) : bool :=
  existsb (λ a, Contains a noStreaming) args.

(** The pair [exitCode(err)] returns: the status is 0 with another error. *)
Definition status (w : wait) : Z * option error :=
  match exitCode w with Ok c => (c, None) | Err e => (0, Some e) end.

(** The output of a command, its status and error, and whether the output says that it
    succeeded. *)
Definition command (r : string * wait) : string * Z * option error * bool :=
  let '(ec, err) := status (snd r) in (fst r, ec, err, Contains (fst r) success).

(** What the handler does to the device: commands run, and the temporary file made, closed and
    removed. *)
Inductive deed := RanShell (line : list string) | TempFile (f : string) | CloseFile (f : string) | Remove (f : string).

(** [shell(ctx, ...)] run as command [n], by [CombinedOutput] or [Run]: a process made with a context
    is not started when the context is done, and the context's error is the result. *)
Definition exec_shell (d : device) (n : nat) (line : list string) : list deed * (string * wait) :=
  match ctxErr d n with
  | Some e => ([], ("", WaitErr e))
  | None => ([RanShell line], run d n line)
  end.

(** The actions so far, and the result. *)
Abbreviation installed := (list deed * outcome (result InstallResponse))%type.

Definition respond (ec : Z) (out : string) : outcome (result InstallResponse) :=
  Ret (Ok (MkInstallResponse (to_uint 32 ec) out)).

(** The installation from a temporary file, with the deferred [f.Close()] and [os.Remove(f.Name())]. *)
Definition Install_file (d : device) (args : list string) : installed :=
  match tempFile d with
  | Err e => ([], Ret (Err e))
  | Ok f =>
      let deferred := [CloseFile f; Remove f] in
      match copyErr d, chmodErr d with
      | Some e, _ | None, Some e => (TempFile f :: deferred, Ret (Err e))
      | None, None =>
          let c := shell ([pmCmd; install] ++ args ++ [f]) in
          let '(ran, res) := exec_shell d 0 c in
          let '(o, s, err, _) := command res in
          match err with
          | Some e => (TempFile f :: ran ++ deferred, Ret (Err e))
          | None => (TempFile f :: ran ++ deferred, respond s o)
          end
      end
  end.

(** Writing the package to session [ss] and committing it; [pre] is what was done before. *)
Definition Install_session (d : device) (insCmd : list string) (size : Z) (ss : string)
    (pre : list deed) : installed :=
  let write := shell (insCmd ++ [installWrite; "-S"; fmt_d size; ss; "-"]) in
  let abandon := shell (insCmd ++ [installAbandon; ss]) in
  let commit := shell (insCmd ++ [installCommit; ss]) in
  let '(written, res) := exec_shell d 1 write in
  let abandoned := fst (exec_shell d 3 abandon) in
  let '(o, ec, err, good) := command res in
  let commit_it :=
    let '(committed, res) := exec_shell d 2 commit in
    let '(o, ec, err, good) := command res in
    if good then (pre ++ written ++ committed, respond 0 o) else
    match err with
    | Some e => (pre ++ written ++ committed ++ abandoned, Ret (Err e))
    | None =>
        if decide (ec ≠ 0) then (pre ++ written ++ committed ++ abandoned, respond ec o)
        else (pre ++ written ++ committed, respond ec o)
    end in
  if good then commit_it else
  match err with
  | Some e => (pre ++ written ++ abandoned, Ret (Err e))
  | None =>
      if decide (ec ≠ 0) then (pre ++ written ++ abandoned, respond ec o) else commit_it
  end.

(** The streamed installation. *)
Definition Install_stream (d : device) (useCmd : bool) (args : list string) (size : Z)
    : installed :=
  let insCmd := if useCmd then [cmdCmd; packageService] else [pmCmd] in
  let create := shell (insCmd ++ [installCreate] ++ args) in
  let '(created, res) := exec_shell d 0 create in
  let '(out, ec, err, good) := command res in
  let open_session :=
    if decide (Index out "[" < 0 ∨ Index out "]" < 0)
    then (created, Ret (Err (ErrorString ("bad install session: " +:+ out)))) else
    match sslice out (Index out "[" + 1) (Index out "]") with
    | Ret ss => Install_session d insCmd size ss created
    | Panic => (created, Panic)
    | Block => (created, Block)
    end in
  if good then open_session else
  match err with
  | Some e => (created, Ret (Err e))
  | None => if decide (ec ≠ 0) then (created, respond ec out) else open_session
  end.

(** [Install(rpc)]; [recv] is the result of the first [rpc.Recv()]. *)
Definition Install (w : Z) (d : device) (recv : result InstallRequest) : installed :=
  match recv with
  | Err e => ([], Ret (Err e))
  | Ok ins =>
      let api := fst (getVersion w (prop d)) in
      let args := install_args (ir_args ins) in
      let streamed := bool_decide (21 ≤ api) && negb (forceNoStreaming (ir_args ins)) in
      let useCmd := bool_decide (25 ≤ api) in
      if streamed then Install_stream d useCmd args (ir_apkSize ins) else Install_file d args
  end.

(** ** Theorems *)

(** The commands of session [ss] of an installer. *)
Definition commit_of (insCmd : list string) (ss : string) : list string :=
  shell (insCmd ++ [installCommit; ss]).
Definition abandon_of (insCmd : list string) (ss : string) : list string :=
  shell (insCmd ++ [installAbandon; ss]).
Definition write_of (insCmd : list string) (size : Z) (ss : string) : list string :=
  shell (insCmd ++ [installWrite; "-S"; fmt_d size; ss; "-"]).

Lemma Install_session_cases d insCmd size ss pre :
  let '(cmds, r) := Install_session d insCmd size ss pre in
  let W := exec_shell d 1 (write_of insCmd size ss) in
  let C := exec_shell d 2 (commit_of insCmd ss) in
  let A := exec_shell d 3 (abandon_of insCmd ss) in
  (cmds = pre ++ W.1 ++ A.1 ∧ ∀ resp, r = Ret (Ok resp) → Contains W.2.1 success = false) ∨
  (cmds = pre ++ W.1 ++ C.1 ++ A.1 ∧ Contains C.2.1 success = false) ∨
  (cmds = pre ++ W.1 ++ C.1 ∧ ∃ o, r = respond 0 o ∧ o = C.2.1).
Proof.
  unfold Install_session, command. fold (write_of insCmd size ss) (abandon_of insCmd ss)
    (commit_of insCmd ss).
  destruct (exec_shell d 1 _) as [w1 W]. destruct (exec_shell d 2 _) as [c2 C].
  destruct (status (snd W)) as [ec err].
  destruct (status (snd C)) as [ec2 err2]. cbn [fst snd].
  destruct (Contains (fst W) success) eqn:HW, (Contains (fst C) success) eqn:HC,
    err as [e|], err2 as [e2|]; repeat case_decide; naive_solver.
Qed.

(** A command run while the context is done leaves nothing and is no success. *)
Lemma exec_shell_done d n line e :
  ctxErr d n = Some e → exec_shell d n line = ([], ("", WaitErr e)).
Proof. unfold exec_shell. by intros ->. Qed.

Lemma exec_shell_alive d n line :
  ctxErr d n = None → exec_shell d n line = ([RanShell line], run d n line).
Proof. unfold exec_shell. by intros ->. Qed.

(** The streamed installation past its create command, when that gave the session [ss]. *)
Lemma Install_stream_session d (useCmd : bool) args size cmds r ss :
  let insCmd := if useCmd then [cmdCmd; packageService] else [pmCmd] in
  let create := shell (insCmd ++ [installCreate] ++ args) in
  let out := fst (run d 0 create) in
  ctxErr d 0 = None → status (snd (run d 0 create)) = (0, None) ∨ Contains out success = true →
  0 ≤ Index out "[" → 0 ≤ Index out "]" → sslice out (Index out "[" + 1) (Index out "]") = Ret ss →
  Install_stream d useCmd args size = (cmds, r) →
  Install_session d insCmd size ss [RanShell create] = (cmds, r).
Proof.
  cbv zeta. set (insCmd := if useCmd then _ else _). set (create := shell _).
  intros H0 Hok Hi1 Hi2 Hss H. unfold Install_stream in H. fold insCmd create in H.
  rewrite exec_shell_alive in H by done. unfold command in H.
  destruct (status (snd (run d 0 create))) as [ec err]. cbv beta iota zeta in H. rewrite Hss in H.
  destruct (decide (_ < 0 ∨ _ < 0)) as [Hlt|_]; [lia|].
  destruct (Contains _ success); [done|]. by destruct Hok as [[= -> ->]|?].
Qed.

(** C38: Once the create command gave a session, every later command is about that session.  When the
    context of the RPC lasts, the last command commits or abandons it (an abandon may follow a
    failed commit).  When the context is done before the session is committed, the commands that
    would commit or abandon it are not run, and the session is left open. *)
Theorem install_session_closed d (useCmd : bool) args size cmds r ss :
  let insCmd := if useCmd then [cmdCmd; packageService] else [pmCmd] in
  let create := shell (insCmd ++ [installCreate] ++ args) in
  let out := fst (run d 0 create) in
  ctx_stays d → ctxErr d 0 = None →
  status (snd (run d 0 create)) = (0, None) ∨ Contains out success = true →
  0 ≤ Index out "[" → 0 ≤ Index out "]" → sslice out (Index out "[" + 1) (Index out "]") = Ret ss →
  Install_stream d useCmd args size = (cmds, r) →
  (ctxErr d 3 = None →
    ∃ mid last, cmds = RanShell create :: RanShell (write_of insCmd size ss) :: (RanShell <$> mid) ++ [RanShell last] ∧
      (last = commit_of insCmd ss ∨ last = abandon_of insCmd ss) ∧
      (last = commit_of insCmd ss → mid = []) ∧ mid `sublist_of` [commit_of insCmd ss]) ∧
  (ctxErr d 2 ≠ None →
    ∀ a, a ∈ cmds → a = RanShell create ∨ a = RanShell (write_of insCmd size ss)).
Proof.
  cbv zeta. intros Hst H0 Hok Hi1 Hi2 Hss H. apply (Install_stream_session _ _ _ _ _ _ ss) in H; [|done..].
  set (insCmd := if useCmd then _ else _) in *. set (create := shell _) in *.
  pose proof (Install_session_cases d insCmd size ss [RanShell create]) as Hc. rewrite H in Hc. cbv zeta in Hc.
  split.
  - intros H3.
    assert (ctxErr d 1 = None ∧ ctxErr d 2 = None) as [H1 H2].
    { split; [destruct (ctxErr d 1) eqn:E|destruct (ctxErr d 2) eqn:E]; try done;
        (apply (Hst _ 3%nat) in E; [congruence|lia]). }
    rewrite !exec_shell_alive in Hc by done. cbn [fst snd] in Hc.
    destruct Hc as [[-> _]|[[-> _]|[-> _]]]; cbn.
    + exists [], (abandon_of insCmd ss). split_and!; [done|by right|done|apply sublist_nil_l].
    + exists [commit_of insCmd ss], (abandon_of insCmd ss). split_and!; [done|by right| |done].
      intros Heq. exfalso. unfold abandon_of, commit_of in Heq.
      unfold insCmd in Heq. by destruct useCmd.
    + exists [], (commit_of insCmd ss). split_and!; [done|by left|done|apply sublist_nil_l].
  - destruct (ctxErr d 2) as [e2|] eqn:H2; [intros _|done]. pose proof (Hst 2%nat 3%nat e2 ltac:(lia) H2) as H3.
    rewrite (exec_shell_done d 2 _ e2), (exec_shell_done d 3 _ e2) in Hc by done. cbn [fst snd] in Hc.
    assert (∀ a, a ∈ fst (exec_shell d 1 (write_of insCmd size ss)) → a = RanShell (write_of insCmd size ss)) as Hw.
    { intros a. unfold exec_shell. destruct (ctxErr d 1); cbn; set_solver. }
    intros a Ha. destruct Hc as [[-> _]|[[-> _]|[-> _]]]; rewrite ?app_nil_r in Ha;
      (apply elem_of_app in Ha as [Ha|Ha]; [left; set_solver|right; by apply Hw]).
Qed.

(** A device on which every command succeeds; the create command answers session 7. *)
Definition demo_device : device :=
  MkDevice ("29", None) (Ok "/data/local/tmp/1.apk") None None
    (λ n _, ((if decide (n = O) then "Success: created install session [7]" else "Success"), WaitOk)) (λ _, None).

(** The same, for a client that goes away while the package is written. *)
Definition demo_cancelled : device :=
  MkDevice ("29", None) (Ok "/data/local/tmp/1.apk") None None (run demo_device)
    (λ n, if decide (n ≤ 1)%nat then None else Some (ErrorString "context canceled")).

Lemma install_session_closed_witness :
  (∃ mid last, fst (Install_stream demo_device true ["-r"] 5) =
    RanShell (shell ["cmd"; "package"; "install-create"; "-r"]) ::
    RanShell (shell ["cmd"; "package"; "install-write"; "-S"; "5"; "7"; "-"]) :: (RanShell <$> mid) ++ [RanShell last]) ∧
  ∀ a, a ∈ fst (Install_stream demo_cancelled true ["-r"] 5) →
    a = RanShell (shell ["cmd"; "package"; "install-create"; "-r"]) ∨
    a = RanShell (shell ["cmd"; "package"; "install-write"; "-S"; "5"; "7"; "-"]).
Proof.
  split.
  - destruct (install_session_closed demo_device true ["-r"] 5
      (fst (Install_stream demo_device true ["-r"] 5)) (snd (Install_stream demo_device true ["-r"] 5)) "7")
      as [H _]; [by intros ???|done|by left|vm_compute; done|vm_compute; done|vm_compute; reflexivity|
        apply surjective_pairing|].
    destruct (H eq_refl) as (mid & last & H' & _). exists mid, last. exact H'.
  - refine (proj2 (install_session_closed demo_cancelled true ["-r"] 5
      (fst (Install_stream demo_cancelled true ["-r"] 5)) (snd (Install_stream demo_cancelled true ["-r"] 5)) "7"
      _ _ _ _ _ _ _) _).
    + intros n m e Hnm. unfold demo_cancelled. cbn. repeat case_decide; (done || lia).
    + done.
    + by left.
    + vm_compute. done.
    + vm_compute. done.
    + vm_compute. reflexivity.
    + apply surjective_pairing.
    + done.
Defined.

(** Which installer runs: a package is streamed exactly on api 21 and later without a
    no-streaming flag, with [cmd package] from api 25 on and [pm] before it (api 24
    included), and otherwise installed from a temporary file; the flag is not passed on. *)
Theorem install_mode w d ins :
  let api := fst (getVersion w (prop d)) in
  Install w d (Ok ins) =
  (if decide (21 ≤ api ∧ ¬ Exists (λ a, Contains a noStreaming = true) (ir_args ins))
   then Install_stream d (bool_decide (25 ≤ api)) (install_args (ir_args ins)) (ir_apkSize ins)
   else Install_file d (install_args (ir_args ins))) ∧
  ∀ a, a ∈ install_args (ir_args ins) ↔ a ∈ ir_args ins ∧ Contains a noStreaming = false.
Proof.
  cbv zeta. split.
  2: { intros a. unfold install_args. rewrite list_elem_of_filter. tauto. }
  unfold Install. set (api := fst _).
  assert (forceNoStreaming (ir_args ins) = true ↔
    Exists (λ a, Contains a noStreaming = true) (ir_args ins)) as Hf.
  { unfold forceNoStreaming. rewrite existsb_exists, Exists_exists.
    split; intros (a & Ha & Hc); exists a; by split. }
  case_decide as Hd; case_bool_decide as Ha; cbn [andb]; try done.
  - destruct (forceNoStreaming _); [|done]. destruct Hd as [_ []]. by apply Hf.
  - by destruct Hd.
  - destruct (forceNoStreaming _) eqn:E; [done|]. destruct Hd. split; [done|]. by rewrite <- Hf.
Qed.

Lemma Install_session_returns d insCmd size ss pre :
  ∃ r, snd (Install_session d insCmd size ss pre) = Ret r.
Proof.
  unfold Install_session, command.
  destruct (exec_shell d 1 _) as [w1 W], (exec_shell d 2 _) as [c2 C].
  destruct (status (snd W)) as [ec err], (status (snd C)) as [ec2 err2].
  repeat (case_match || case_decide); cbn; eauto.
Qed.

Lemma Index_bound s sub : Index s sub ≤ slen s.
Proof.
  unfold Index. destruct (cut sub s) as [[b a]|] eqn:E; [|unfold slen; lia].
  apply cut_Some in E as ->. rewrite slen_app. unfold slen. lia.
Qed.

(** The slice between the brackets. *)
Lemma sslice_brackets out :
  (∃ ss, sslice out (Index out "[" + 1) (Index out "]") = Ret ss) ∨
  (sslice out (Index out "[" + 1) (Index out "]") = Panic ∧
   ¬ (0 ≤ Index out "[" + 1 ≤ Index out "]")).
Proof.
  unfold sslice. case_decide as H; [left; eauto|right]. split; [done|]. intros H'. apply H.
  split; [done|apply Index_bound].
Qed.

Definition brackets_swapped (out : string) : Prop :=
  0 ≤ Index out "]" < Index out "[" + 1 ∧ 0 ≤ Index out "[".

Lemma open_session_cases out pre e (k : string → installed) :
  (∀ ss, ∃ r, snd (k ss) = Ret r) →
  let s :=
    if decide (Index out "[" < 0 ∨ Index out "]" < 0) then (pre, Ret (Err e)) else
    match sslice out (Index out "[" + 1) (Index out "]") with
    | Ret ss => k ss
    | Panic => (pre, Panic)
    | Block => (pre, Block)
    end in
  (brackets_swapped out → snd s = Panic) ∧ (¬ brackets_swapped out → ∃ r, snd s = Ret r).
Proof.
  intros Hk. cbv zeta. unfold brackets_swapped. case_decide as Hd.
  { split; intros H; [lia|cbn; eauto]. }
  destruct (sslice_brackets out) as [[ss E]|[E Hn]]; rewrite E; cbn; split; intros H; try done.
  - exfalso. unfold sslice in E. case_decide; [lia|done].
  - exfalso. apply H. lia.
Qed.

Definition accepted (R : string * wait) : Prop :=
  Contains (fst R) success = true ∨ status (snd R) = (0, None).

(** A create command that is accepted (it says Success, or exits with status 0) and
    whose output has its closing bracket before the opening one makes the handler panic;
    in every other case a streamed installation returns. *)
Theorem install_stream_panics d (useCmd : bool) args size :
  let insCmd := if useCmd then [cmdCmd; packageService] else [pmCmd] in
  let R := snd (exec_shell d 0 (shell (insCmd ++ [installCreate] ++ args))) in
  let out := fst R in
  let bad := accepted R ∧ brackets_swapped out in
  (bad → snd (Install_stream d useCmd args size) = Panic) ∧
  (¬ bad → ∃ r, snd (Install_stream d useCmd args size) = Ret r).
Proof.
  cbv zeta. unfold Install_stream, command, accepted.
  set (insCmd := if useCmd then _ else _). set (create := shell _).
  destruct (exec_shell d 0 create) as [created R]. cbn [snd].
  destruct (status (snd R)) as [ec err].
  pose proof (open_session_cases (fst R) created
    (ErrorString ("bad install session: " +:+ fst R))
    (λ ss, Install_session d insCmd size ss created)
    (λ ss, Install_session_returns d insCmd size ss created)) as [H1 H2].
  destruct (Contains (fst R) success).
  { split; intros Hb; [apply H1; naive_solver|apply H2; naive_solver]. }
  destruct err as [e|]; [split; [naive_solver|cbn; eauto]|].
  destruct (decide (ec ≠ 0)) as [Hec|Hec]; [split; [naive_solver|cbn; eauto]|].
  split; intros Hb; [apply H1; naive_solver|apply H2]. intros Hsw. apply Hb.
  split; [right|done]. f_equal. by destruct (decide (ec = 0)).
Qed.

(** What a command leaves is that it ran, if anything. *)
Lemma exec_shell_ran d n line : ∃ l, fst (exec_shell d n line) = RanShell <$> l.
Proof. unfold exec_shell. destruct (ctxErr d n); [by exists []|by exists [line]]. Qed.

Lemma ran_app l1 l2 :
  (∃ l : list (list string), l1 = RanShell <$> l) → (∃ l : list (list string), l2 = RanShell <$> l) →
  ∃ l : list (list string), l1 ++ l2 = RanShell <$> l.
Proof. intros [k1 ->] [k2 ->]. exists (k1 ++ k2). by rewrite fmap_app. Qed.

#[local] Hint Resolve exec_shell_ran ran_app : core.

Lemma Install_stream_ran d useCmd args size : ∃ l, fst (Install_stream d useCmd args size) = RanShell <$> l.
Proof.
  unfold Install_stream. set (c := shell _). set (insCmd := if useCmd then _ else _).
  pose proof (exec_shell_ran d 0 c) as H1. destruct (exec_shell d 0 c) as [created R]. cbn [fst] in H1.
  destruct (command R) as [[[out ec] err] good].
  assert (∀ ss, ∃ l, fst (Install_session d insCmd size ss created) = RanShell <$> l) as H2.
  { intros ss. pose proof (Install_session_cases d insCmd size ss created) as H.
    destruct (Install_session _ _ _ _ _) as [acts r]. cbn [fst]. cbv zeta in H.
    destruct H as [[-> _]|[[-> _]|[-> _]]]; auto 8. }
  destruct good, err as [e|]; repeat (case_decide || case_match); cbn [fst]; auto.
Qed.

(** The temporary file does not outlive the handler: on every path on which it was made, the handler
    has closed and removed it when it returns, and a handler that panics made none. *)
Theorem install_temp_removed w d recv :
  let '(acts, r) := Install w d recv in
  (∀ f, TempFile f ∈ acts → ∃ mid, acts = TempFile f :: mid ++ [CloseFile f; Remove f] ∧ r ≠ Panic) ∧
  (∀ f, Remove f ∈ acts → tempFile d = Ok f).
Proof.
  assert (∀ l : list (list string), (∀ f, TempFile f ∉ RanShell <$> l) ∧ (∀ f, Remove f ∉ RanShell <$> l)) as Hran.
  { intros l. split; intros f (x & ? & _)%list_elem_of_fmap; done. }
  unfold Install. destruct recv as [ins|e]; [|split; intros f Hf; by apply not_elem_of_nil in Hf].
  cbv zeta. destruct (bool_decide _ && negb _).
  - destruct (Install_stream_ran d (bool_decide (25 ≤ fst (getVersion w (prop d)))) (install_args (ir_args ins)) (ir_apkSize ins)) as [l Hl].
    destruct (Install_stream _ _ _ _) as [acts r]. cbn [fst] in Hl. subst acts.
    split; intros f Hf; exfalso; [by apply (proj1 (Hran l) f)|by apply (proj2 (Hran l) f)].
  - unfold Install_file. destruct (tempFile d) as [f0|e]; [|split; intros f Hf; by apply not_elem_of_nil in Hf].
    destruct (exec_shell_ran d 0 (shell ([pmCmd; install] ++ install_args (ir_args ins) ++ [f0]))) as [l Hl].
    destruct (exec_shell _ _ _) as [ran res]. cbn [fst] in Hl. subst ran.
    destruct (Hran l) as [Hr1 Hr2].
    destruct (copyErr d), (chmodErr d); try (destruct (command _) as [[[o s] [e'|]] gd]); cbn;
      (split; intros f Hf; [|set_solver]); assert (f = f0) as -> by set_solver;
      ((by exists []) || (by exists (RanShell <$> l))).
Qed.

(** The arguments are not quoted for the shell: one with a blank in it is two arguments there. *)
Theorem install_args_split pre x y post :
  shell (pre ++ (x +:+ " " +:+ y) :: post) = shell (pre ++ x :: y :: post).
Proof.
  unfold shell. do 3 f_equal. induction pre as [|a pre IH]; cbn [app].
  - destruct post as [|b post]; cbn; [done|]. by rewrite !sapp_assoc.
  - destruct pre as [|b pre]; cbn [app Join] in *; [|by rewrite IH].
    by rewrite IH.
Qed.
