(* ===== verification/InstallClient.v ===== *)
(** * Installing from the client: [Install] of src/waterfall/golang/client/client.go, lines 308-359

    The request the client makes and what it returns; the server's part is Install.v. *)

From S2P Require Import Prelude GoStrings Stream Exec Install.

Local Open Scope Z_scope.

(** [Install(ctx, client, rdr, args...)]: [fi] is the size of the file or the error of [Stat],
    [dial] the error of opening the stream [o], [bs] and [rerr] what reading the file gives,
    [resp] the result of [CloseAndRecv]. *)
Definition client_Install (fi : result Z) (dial : option error) (o : Outs InstallRequest) (args : list string)
    (bs : list (list byte)) (rerr : option error) (resp : result InstallResponse)
    : Outs InstallRequest * (string * option error) :=
  match fi, dial with
  | Err e, _ | Ok _, Some e => (o, ("", Some e))
  | Ok size, None =>
      match SendMsg o (MkInstallRequest args (to_uint 32 size) []) with
      | (o, Some e) => (o, ("", Some e))
      | (o, None) =>
          match Writer_copy o bs with
          | (o, Some e) => (o, ("", Some e))
          | (o, None) =>
              match rerr with
              | Some e => (o, ("", Some e))
              | None =>
                  (o, match resp with
                      | Err e => ("", Some e)
                      | Ok r =>
                          (output r,
                           if decide (exit_code r ≠ 0)
                           then Some (ErrorString ("non-zero exit code: " +:+ fmt_d (exit_code r))) else None)
                      end)
              end
          end
      end
  end.

(** C35: on a stream that does not fail the client's request carries the arguments and the whole
    file: the server reads the first message with the arguments and the size, then exactly the
    bytes of the file and EOF.  The size is announced in 32 bits, so it is the size of
    the file exactly when that is below 4 GiB.  The client returns the server's output, and an
    error exactly when there is no answer or its exit code is not zero. *)
Theorem install_request_carries args bs rs resp :
  let size := len (concat bs) in
  Forall (λ r, 0 < r.2) rs → (length (concat bs) + length bs < length rs)%nat →
  let '(o, (out, err)) := client_Install (Ok size) None (MkOuts [] None) args bs None resp in
  (∃ first rest s', sent o = first :: rest ∧ ir_args first = args ∧ ir_payload first = [] ∧
     run_reads (NewReader rest (Some EOF)) rs = (s', concat bs, Ret (Some EOF)) ∧
     0 ≤ ir_apkSize first < 2 ^ 32 ∧ (ir_apkSize first = size ↔ size < 2 ^ 32)) ∧
  match resp with
  | Err e => out = "" ∧ err = Some e
  | Ok r => out = output r ∧ (err = None ↔ exit_code r = 0)
  end.
Proof.
  intros size HF Hl. unfold client_Install. cbn [SendMsg sendFail sent app].
  rewrite Writer_copy_sent by done.
  assert (∃ first rest s', MkInstallRequest args (to_uint 32 size) [] :: map (SetBytes BuildMsg) bs = first :: rest ∧
    ir_args first = args ∧ ir_payload first = [] ∧
    run_reads (NewReader rest (Some EOF)) rs = (s', concat bs, Ret (Some EOF)) ∧
    0 ≤ ir_apkSize first < 2 ^ 32 ∧ (ir_apkSize first = size ↔ size < 2 ^ 32)) as HS.
  { destruct (writer_carries (M := InstallRequest) bs rs) as [s' Hs]; [done..|].
    do 3 eexists. split; [reflexivity|]. cbn [ir_args ir_payload ir_apkSize]. unfold to_uint.
    pose proof (Z.mod_pos_bound size (2 ^ 32) ltac:(lia)).
    split_and!; [done..|exact Hs|lia|lia|split; [lia|]].
    intros Hlt. apply Z.mod_small. unfold size, len in *. lia. }
  destruct resp as [r|e]; cbn iota; (refine (conj HS _)).
  - split; [done|].
    destruct (decide (exit_code r = 0)) as [E|E]; [by rewrite decide_False by tauto|by rewrite decide_True].
  - done.
Qed.

Lemma install_request_carries_witness :
  let C := client_Install (Ok 3) None (MkOuts [] None) ["-r"] [["a"%char; "b"%char]; ["c"%char]] None
             (Ok (MkInstallResponse 1 "Failure")) in
  snd C = ("Failure", Some (ErrorString "non-zero exit code: 1")) ∧
  ∃ first rest, sent (fst C) = first :: rest ∧ ir_args first = ["-r"].
Proof.
  intros C. split; [vm_compute; reflexivity|].
  pose proof (install_request_carries ["-r"] [["a"%char; "b"%char]; ["c"%char]] (replicate 6 ([1%nat], 2))
    (Ok (MkInstallResponse 1 "Failure"))) as H.
  destruct H as [(first & rest & s' & H1 & H2 & _) _].
  - by apply Forall_replicate.
  - cbn. lia.
  - exists first, rest. split; [exact H1|exact H2].
Defined.
