(* ===== verification/AdbRun.v ===== *)
(** * The adb binary as a process: src/waterfall/golang/client/adb/adb.go and adb_bin.go

    A run of the binary from its arguments to its exit status: the command it parses
    ([AdbCli]), the calls the command makes on the server ([ExecProcess], [TransferTree],
    [InstallClient]) and on the port forwarding daemon ([Ports]), what it prints, and the
    fallback to the real adb; and when the process panics.  The device answers a command with
    the messages of one execution; what running it does to the device's files is not
    represented. *)

From S2P Require Import Prelude GoStrings GoIO Filepath Fs Tar TarRoundtrip Proto Stream Transfer Ports AdbCli.
From S2P Require Import TransferTree Exec ExecProcess Install InstallClient.

Local Open Scope Z_scope.
Local Open Scope go_scope.

(** ** One writer for both outputs *)

(** The receiving loop of [client.Exec] when [stdout] and [stderr] are the same writer. *)
Fixpoint Exec_recv_one (width : Z) (ms : list CmdProgress) (fin : option error) (w : sink)
    (last : option CmdProgress) : sink * outcome (result Z) :=
  match ms with
  | [] =>
      (w, match fin with
          | None => Block
          | Some e =>
              if decide (e = EOF) then
                match last with None => Panic | Some m => Ret (Ok (to_int width (cp_exit m))) end
              else Ret (Err e)
          end)
  | m :: ms' =>
      let put b w := match b with [] => (w, None) | _ => let '(w, (_, err)) := sink_write w b in (w, err) end in
      match put (cp_stdout m) w with
      | (w, Some e) => (w, Ret (Err e))
      | (w, None) =>
          match put (cp_stderr m) w with
          | (w, Some e) => (w, Ret (Err e))
          | (w, None) => Exec_recv_one width ms' fin w (Some m)
          end
      end
  end.

(** What the device makes of an execution: the errors of opening the stream, of the first
    message and of [CloseSend], the messages, and how the stream ends. *)
Record answer := MkAnswer {
  a_dial : option error;
  a_send0 : option error;
  a_csend : option error;
  a_ms : list CmdProgress;
  a_fin : option error;
}.

(** [client.Exec(ctx, c, w, w, nil, ...)] *)
Definition Exec_one (width : Z) (a : answer) (w : sink) : sink * outcome (result Z) :=
  match a_dial a, a_send0 a, a_csend a with
  | Some e, _, _ | None, Some e, _ | None, None, Some e => (w, Ret (Err e))
  | None, None, None => Exec_recv_one width (a_ms a) (a_fin a) w None
  end.

(** ** The process *)

(** How the real adb ends. *)
Inductive adb_end := StartErr (e : error) | WaitOk | WaitCode (code : Z) | WaitErr (e : error).

(** How the process ends: [os.Exit(code)] or the end of [main]; [log.Fatal], which exits with 1;
    a panic; never. *)
Inductive exit := Exit (code : Z) | Fatal (msg : string) | Crash | Hang.

(** What the process changes: the files of both sides, the daemon, its output, and the
    programs it started. *)
Record world := MkWorld {
  host : FS;
  dev : FS;
  daemon : PortForwarder;
  stdout : list byte;
  started : list (string * list string);
}.

Definition set_host f w := MkWorld f (dev w) (daemon w) (stdout w) (started w).
Definition set_dev f w := MkWorld (host w) f (daemon w) (stdout w) (started w).
Definition set_daemon d w := MkWorld (host w) (dev w) d (stdout w) (started w).
Definition set_stdout o w := MkWorld (host w) (dev w) (daemon w) o (started w).
Definition set_started l w := MkWorld (host w) (dev w) (daemon w) (stdout w) l.

(** [fmt.Print] of a text on standard output, which takes everything. *)
Definition print (s : string) (w : world) : world :=
  set_stdout (stdout w ++ String.list_ascii_of_string s) w.

Definition newline : string := String (Ascii.ascii_of_nat 10) "".

(** The environment of the process: its variables, the files it can open (what [Stat] gives and
    what reading gives), the results of [net.Dial] and [grpc.Dial], what the device answers to
    executions and installations, which addresses the daemon can listen on, whether calls reach
    the daemon (gRPC dials it lazily, so a daemon that is not there shows at the call), what the
    server answers to reverse forwarding, and how the real adb ends. *)
Record genv := MkGenv {
  width : Z;
  getenv : string → string;
  files : string → result (result Z * list (list byte) * option error);
  dial : string → string → option error;
  grpc : string → option error;
  exec : string → list string → answer;
  ins_dial : option error;
  ins_resp : list string → list byte → result InstallResponse;
  listen : string → string → option error;
  rpc_err : option error;
  stop_err : option error;
  start_err : option error;
  real_adb : string → list string → adb_end;
}.

(** How a command function ends: it returns, or the process ends in it. *)
Inductive done_or_exit := Returned (r : cres ()) | Exited (code : Z) | Panicked | Hung.

Section run.
Context `{TarFormat}.
Context (g : genv).
(** [filepath.Join]; [fmt.Printf] of a text without operands; which of two errors the calls
    of a transfer return, and after how many bytes. *)
Context (join : string → string → string) (Printf : string → string).
Context (hostRefuse devRefuse : Refusal) (first sfirst : bool) (stop : Z).

(** [propagateStatusCode(s)] *)
Definition propagates (s : Z) : option Z :=
  propagateStatusCode (getenv g "WATERFALL_PROPAGATE_STATUS_CODE") s.

(** [Fallback(args)] *)
Definition Fallback_adb (args : list string) (w : world) : world * exit :=
  match platformADB join (getenv g "ANDROID_ADB") (getenv g "ANDROID_SDK_HOME") with
  | Err e => (w, Fatal (Error e))
  | Ok adbBin =>
      match real_adb g adbBin args with
      | StartErr e => (w, Fatal (Error e))
      | WaitOk => (set_started (started w ++ [(adbBin, args)]) w, Exit 0)
      | WaitCode code => (set_started (started w ++ [(adbBin, args)]) w, Exit code)
      | WaitErr e => (set_started (started w ++ [(adbBin, args)]) w, Fatal (Error e))
      end
  end.

(** [exeStdout(ctx, c, cmd, args...)] *)
Definition exeStdout (cmd : string) (args : list string) (w : world) : world * done_or_exit :=
  let '(out, r) := Exec_one (width g) (exec g cmd args) (MkSink (stdout w) None) in
  let w := set_stdout (taken out) w in
  (w, match r with
      | Ret (Ok _) => Returned (Do ())
      | Ret (Err e) => Returned (Fail e)
      | Panic => Panicked
      | Block => Hung
      end).

(** [shellStdout]: [shellIO] with standard output; the status goes to [propagateStatusCode], 0
    when there is none. *)
Definition shellStdout (line : string) (w : world) : world * done_or_exit :=
  let '(out, r) := Exec_one (width g) (exec g "/system/bin/sh" ["-c"; line]) (MkSink (stdout w) None) in
  let w := set_stdout (taken out) w in
  (w, match r with
      | Ret r =>
          let s := match r with Ok s => s | Err _ => 0 end in
          match propagates s with
          | Some code => Exited code
          | None => Returned (match r with Ok _ => Do () | Err e => Fail e end)
          end
      | Panic => Panicked
      | Block => Hung
      end).

(** [exeString(ctx, c, nil, cmd, args...)]: the text and the error. *)
Definition exeString (cmd : string) (args : list string) : outcome (string * option error) :=
  let '(out, r) := Exec_one (width g) (exec g cmd args) (MkSink [] None) in
  let! r := r in
  Ret (String.string_of_list_ascii (taken out), match r with Ok _ => None | Err e => Some e end).

(** [shellIO(ctx, c, so, nil, nil, line)]: the text, the status and the error. *)
Definition shellBuffer (line : string) : outcome (string * Z * option error) :=
  let a := exec g "/system/bin/sh" ["-c"; line] in
  let '(so, _, r) := client_Exec (width g) (a_dial a) (a_send0 a) None (a_csend a) (a_ms a) (a_fin a)
                       (Some (MkSink [] None)) None in
  let! r := r in
  Ret (String.string_of_list_ascii (match so with Some s => taken s | None => [] end),
       match r with Ok s => s | Err _ => 0 end, match r with Ok _ => None | Err e => Some e end).

(** What [forward --list] prints before it returns. *)
Fixpoint print_list (ss : list ForwardSession) (w : world) : world * done_or_exit :=
  match ss with
  | [] => (w, Returned (Do ()))
  | s :: ss' =>
      match parseFwd (fs_src s) true with
      | Ret (Do src) =>
          match parseFwd (fs_dst s) true with
          | Ret (Do dst) => print_list ss' (print (("localhost:foo " +:+ src +:+ " " +:+ dst) +:+ newline) w)
          | Ret ParseError => (w, Returned ParseError)
          | Ret (Fail e) => (w, Returned (Fail e))
          | Panic => (w, Panicked)
          | Block => (w, Hung)
          end
      | Ret ParseError => (w, Returned ParseError)
      | Ret (Fail e) => (w, Returned (Fail e))
      | Panic => (w, Panicked)
      | Block => (w, Hung)
      end
  end.

Definition returned {A} (r : outcome A) (k : A → cres ()) : done_or_exit :=
  match r with Ret a => Returned (k a) | Panic => Panicked | Block => Hung end.

Definition of_err (e : option error) : cres () := match e with None => Do () | Some e => Fail e end.
Definition of_res (r : result ()) : cres () := match r with Ok _ => Do () | Err e => Fail e end.

(** A call of the daemon that changes it. *)
Definition on_daemon (f : PortForwarder → PortForwarder * result ()) (w : world) : world * done_or_exit :=
  match rpc_err g with
  | Some e => (w, Returned (Fail e))
  | None => let '(d, r) := f (daemon w) in (set_daemon d w, Returned (of_res r))
  end.

(** The call of a command, [defer conn.Close()] included (it changes nothing here). *)
Definition perform (a : action) (w : world) : world * done_or_exit :=
  match a with
  | ActExec cmd args => exeStdout cmd args w
  | ActShell line => shellStdout line w
  | ActPush src dst =>
      let '(d, r) := client_Push hostRefuse devRefuse first sfirst stop (host w) (dev w) src dst in
      (set_dev d w, returned r of_err)
  | ActPull src dst =>
      let '(h, r) := client_Pull hostRefuse devRefuse first sfirst (host w) (dev w) src dst in
      (set_host h w, returned r of_err)
  | ActInstall path args =>
      match files g path with
      | Err e => (w, Returned (Fail e))
      | Ok (fi, bs, rerr) =>
          let '(_, (r, err)) := client_Install fi (ins_dial g) (MkOuts [] None) args bs rerr
                                  (ins_resp g args (concat bs)) in
          (print (Printf r) w, Returned (of_err err))
      end
  | ActForward req => on_daemon (ForwardPort (listen g) req) w
  | ActReverse req => on_daemon (ReverseForwardPort (stop_err g) (start_err g) req) w
  | ActStop req => on_daemon (Stop req) w
  | ActStopAll => on_daemon StopAll w
  | ActList => match rpc_err g with Some e => (w, Returned (Fail e)) | None => print_list (fs_sessions (List (daemon w))) w end
  | ActPrint s => (print (s +:+ newline) w, Returned (Do ()))
  end.

(** The two executions of [bugreport PATH] in front of its last call: their texts, or how the
    process ends in them. *)
Definition bugreport_runs : (string * option error) * (string * option error) + done_or_exit :=
  match exeString "/system/bin/bugreportz" ["-v"] with
  | Panic => inr Panicked
  | Block => inr Hung
  | Ret v =>
      if decide (snd v ≠ None ∨ fst v = "") then inl (v, ("", None)) else
      match shellBuffer "/system/bin/bugreportz " with
      | Panic => inr Panicked
      | Block => inr Hung
      | Ret (so, s, err) =>
          match propagates s with
          | Some code => inr (Exited code)
          | None => inl (v, (so, err))
          end
      end
  end.

(** Where the command dials: the server over the connection that is open already, the daemon
    under the name of the device. *)
Definition grpc_addr (p : ParsedArgs) : string :=
  if decide (Command p = "forward" ∨ Command p = "reverse")
  then "unix:@h2o_" +:+ Device p +:+ "_xforward" else "".

(** Whether [bugreportFn] gets to its two executions. *)
Definition is_bugreport_zip (p : ParsedArgs) : bool :=
  bool_decide (Command p = "bugreport" ∧ len (Args p) = 2).

Definition grpc_err (p : outcome (cres ParsedArgs)) : option error :=
  match p with Ret (Do p) => grpc g (grpc_addr p) | _ => None end.

(** [main] of the binary, without the program name. *)
Definition finish (args : list string) (r : world * done_or_exit) : world * exit :=
  match r with
  | (w, Returned (Do _)) => (w, Exit 0)
  | (w, Returned ParseError) => Fallback_adb args w
  | (w, Returned (Fail e)) => (w, Fatal ("Failed to execute adb command: " +:+ Error e))
  | (w, Exited code) => (w, Exit code)
  | (w, Panicked) => (w, Crash)
  | (w, Hung) => (w, Hang)
  end.

Definition adb_main (args : list string) (w : world) : world * exit :=
  let opens path := match files g path with Ok _ => None | Err e => Some e end in
  let parsed := ParseCommand args in
  let gerr := grpc_err parsed in
  let zip := match parsed with Ret (Do p) => is_bugreport_zip p && bool_decide (gerr = None) | _ => false end in
  let go e :=
    match runCommand e (dial g) gerr args with
    | Panic => (w, Crash)
    | Block => (w, Hang)
    | Ret (Fallback a) => Fallback_adb a w
    | Ret (Ran _ (Do act)) => finish args (perform act w)
    | Ret (Ran _ ParseError) => Fallback_adb args w
    | Ret (Ran _ (Fail e)) => finish args (w, Returned (Fail e))
    end in
  let plain := MkEnv opens ("", None) ("", None) in
  (* whether the command function is called does not depend on the two texts *)
  if zip then
    match runCommand plain (dial g) gerr args with
    | Ret (Fallback a) => Fallback_adb a w
    | Panic => (w, Crash)
    | Block => (w, Hang)
    | Ret (Ran _ _) =>
        match bugreport_runs with
        | inl (v, r) => go (MkEnv opens v r)
        | inr o => finish args (w, o)
        end
    end
  else go plain.
End run.

(** ** Merged outputs *)

Definition both_bytes (ms : list CmdProgress) : list byte :=
  mjoin ((λ m, cp_stdout m ++ cp_stderr m) <$> ms).

(** [z] is made of [x] and [y], each in order. *)
Inductive shuffle : list byte → list byte → list byte → Prop :=
| sh_nil : shuffle [] [] []
| sh_left b x y z : shuffle x y z → shuffle (b :: x) y (b :: z)
| sh_right b x y z : shuffle x y z → shuffle x (b :: y) (b :: z).

Lemma shuffle_app_l l x y z : shuffle x y z → shuffle (l ++ x) y (l ++ z).
Proof. induction l; cbn; auto using shuffle. Qed.

Lemma shuffle_app_r l x y z : shuffle x y z → shuffle x (l ++ y) (l ++ z).
Proof. induction l; cbn; auto using shuffle. Qed.

Lemma shuffle_both ms : shuffle (out_bytes ms) (err_bytes ms) (both_bytes ms).
Proof.
  induction ms as [|m ms IH]; [constructor|].
  change (shuffle (cp_stdout m ++ out_bytes ms) (cp_stderr m ++ err_bytes ms)
    ((cp_stdout m ++ cp_stderr m) ++ both_bytes ms)).
  rewrite <- app_assoc. by apply shuffle_app_l, shuffle_app_r.
Qed.

Lemma shuffle_nil_r x z : shuffle x [] z → z = x.
Proof.
  remember [] as y eqn:Hy. induction 1; [done|f_equal; auto|done].
Qed.

Lemma Exec_recv_one_spec width ms m w last :
  quota w = None →
  Exec_recv_one width (ms ++ [m]) (Some EOF) w last =
  (MkSink (taken w ++ both_bytes (ms ++ [m])) None, Ret (Ok (to_int width (cp_exit m)))).
Proof.
  assert (∀ m w last ms, quota w = None →
    Exec_recv_one width (m :: ms) (Some EOF) w last =
    Exec_recv_one width ms (Some EOF) (MkSink (taken w ++ cp_stdout m ++ cp_stderr m) None) (Some m)) as Hone.
  { intros m1 [tk q] l ms1 Hq. cbn in Hq. subst q. cbn [Exec_recv_one].
    destruct (cp_stdout m1) as [|b bs]; destruct (cp_stderr m1) as [|b' bs']; cbn;
      rewrite ?app_nil_r, <- ?app_assoc; done. }
  revert w last. induction ms as [|m' ms IH]; intros w last Hq; cbn [app]; rewrite Hone by done.
  - cbn. rewrite decide_True by done. by rewrite app_nil_r.
  - rewrite IH by done. cbn [taken]. by rewrite <- app_assoc.
Qed.

(** ** Command lines *)

Lemma parse_device d c rest :
  unsupported c = false → c ≠ "-s" → c ≠ "wait-for-device" → skipped c = false →
  ParseCommand ("-s" :: d :: c :: rest) = Ret (Do (MkParsedArgs d c (c :: rest))).
Proof.
  intros H1 H2 H3 H4. rewrite ParseCommand_cmdline. cbn [cmdline].
  rewrite decide_True by done. cbn [unsupported].
  change (unsupported "-s") with false. cbn iota.
  destruct rest as [|b rest]; cbn [cmdline]; [done|].
  by rewrite H1, H4, (decide_False (P := c = "-s")), (decide_False (P := c = "wait-for-device")).
Qed.

Section theorems.
Context `{TarFormat}.
Context (g : genv) (join : string → string → string) (Printf : string → string).
Context (hostRefuse devRefuse : Refusal) (first sfirst : bool) (stop : Z).
Notation adb := (adb_main g join Printf hostRefuse devRefuse first sfirst stop).
Notation perf := (perform g Printf hostRefuse devRefuse first sfirst stop).
Notation fallback := (Fallback_adb g join).

(** The device is reachable, by a dial and by gRPC. *)
Definition reachable (d : string) (addr : string) : Prop :=
  d ≠ "" ∧ (∃ n a, device_addr d = Ret (n, a) ∧ dial g n a = None) ∧ grpc g addr = None.

(** A command of a reachable device that is not a bug report to a file. *)
Lemma adb_command d c rest fn act w :
  unsupported c = false → c ≠ "-s" → c ≠ "wait-for-device" → skipped c = false → c ≠ "bugreport" →
  reachable d (grpc_addr (MkParsedArgs d c (c :: rest))) →
  (∀ e, (∀ path, open e path = match files g path with Ok _ => None | Err e => Some e end) →
     Commands e c = Some (fn e) ∧ fn e None (c :: rest) = Ret (Do act)) →
  adb ("-s" :: d :: c :: rest) w = finish g join ("-s" :: d :: c :: rest) (perf act w).
Proof.
  intros H1 H2 H3 H4 H5 (Hd & (n & a & Ha & Hdial) & Hg) Hfn.
  pose proof (parse_device d c rest H1 H2 H3 H4) as Hp. unfold adb_main. rewrite Hp.
  cbn [grpc_err]. unfold is_bugreport_zip. cbn [Command Args].
  rewrite (bool_decide_false (c = "bugreport" ∧ _)) by (by intros [? _]). cbn [andb].
  unfold runCommand. rewrite Hp. cbn [obind Args Device Command].
  rewrite decide_True by (rewrite len_cons; pose proof (len_nonneg rest); lia).
  rewrite decide_False by done. rewrite Ha. cbn [obind]. rewrite Hdial.
  destruct (Hfn (MkEnv (λ path, match files g path with Ok _ => None | Err e => Some e end)
    ("", None) ("", None)) ltac:(done)) as [-> Hr].
  by rewrite Hg, Hr.
Qed.

(** ** The fallback *)

Lemma print_list_started ss w : started (fst (print_list ss w)) = started w.
Proof.
  revert w. induction ss as [|s ss IH]; intros w; [done|]. cbn [print_list].
  destruct (parseFwd (fs_src s) true) as [[]| |]; try done.
  destruct (parseFwd (fs_dst s) true) as [[]| |]; try done. by rewrite IH.
Qed.

Lemma on_daemon_started f w : started (fst (on_daemon g f w)) = started w.
Proof. unfold on_daemon. destruct (rpc_err g); [done|]. by destruct (f _). Qed.

Lemma perform_started a w : started (fst (perf a w)) = started w.
Proof.
  destruct a; cbn [perform].
  - unfold exeStdout. by destruct (Exec_one _ _ _).
  - unfold shellStdout. by destruct (Exec_one _ _ _).
  - by destruct (client_Push _ _ _ _ _ _ _ _ _).
  - by destruct (client_Pull _ _ _ _ _ _ _ _).
  - destruct (files g path) as [[[fi bs] rerr]|]; [|done].
    by destruct (client_Install _ _ _ _ _ _ _) as [? [? ?]].
  - apply on_daemon_started.
  - apply on_daemon_started.
  - apply on_daemon_started.
  - apply on_daemon_started.
  - destruct (rpc_err g); [done|]. apply print_list_started.
  - done.
Qed.

Lemma runCommand_fallback e dl ge args a : runCommand e dl ge args = Ret (Fallback a) → a = args.
Proof.
  unfold runCommand. destruct (ParseCommand args) as [[p| |]| |]; cbn [obind]; try congruence.
  case_decide; [|congruence]. case_decide; [congruence|].
  destruct (device_addr _) as [[n ad]| |]; cbn [obind]; try congruence.
  destruct (dl n ad); [congruence|]. destruct (Commands _ _); [|congruence].
  destruct (o _ _) as [[]| |]; cbn [obind]; congruence.
Qed.

(** How a run relates to the real adb: it is not started, or it is started once, from the place
    the environment names and with the arguments of this run, and its end is the end of this
    run. *)
Definition started_once (args : list string) (w w' : world) (x : exit) : Prop :=
  started w' = started w ∨
  ∃ bin, platformADB join (getenv g "ANDROID_ADB") (getenv g "ANDROID_SDK_HOME") = Ok bin ∧
    started w' = started w ++ [(bin, args)] ∧
    match real_adb g bin args with
    | StartErr _ => False
    | WaitOk => x = Exit 0
    | WaitCode code => x = Exit code
    | WaitErr e => x = Fatal (Error e)
    end.

Lemma fallback_once args w0 w w' x :
  started w = started w0 → fallback args w = (w', x) → started_once args w0 w' x.
Proof.
  intros Hs. unfold Fallback_adb, started_once.
  destruct (platformADB _ _ _) as [bin|e] eqn:Hb; [|intros [= <- <-]; by left].
  destruct (real_adb g bin args) as [e| |code|e] eqn:Hr; intros [= <- <-];
    [by left|right..]; exists bin; rewrite Hr; cbn; by rewrite Hs.
Qed.

Lemma finish_once args w0 w r w' x :
  started w = started w0 → finish g join args (w, r) = (w', x) → started_once args w0 w' x.
Proof.
  intros Hs. destruct r as [[[]| |e]|code| |]; cbn [finish];
    try (intros [= <- <-]; by left). by apply fallback_once.
Qed.

(** The real adb is started at most once, by the fallback, with exactly the arguments this
    process was given; and then this process ends as it ends. *)
Theorem adb_starts_adb_once args w :
  started_once args w (fst (adb args w)) (snd (adb args w)).
Proof.
  assert (∀ w' x, adb args w = (w', x) → started_once args w w' x) as Hx;
    [|destruct (adb args w) as [w' x]; by apply Hx].
  intros w' x.
  unfold adb_main.
  assert (∀ e, (match runCommand e (dial g) (grpc_err g (ParseCommand args)) args with
      | Panic => (w, Crash)
      | Block => (w, Hang)
      | Ret (Fallback a) => fallback a w
      | Ret (Ran _ (Do act)) => finish g join args (perf act w)
      | Ret (Ran _ ParseError) => fallback args w
      | Ret (Ran _ (Fail e)) => finish g join args (w, Returned (Fail e))
      end) = (w', x) → started_once args w w' x) as Hgo.
  { intros e. destruct (runCommand _ _ _ _) as [[a|d [act| |er]]| |] eqn:Hr;
      try (intros [= <- <-]; by left).
    - apply runCommand_fallback in Hr as ->. by apply fallback_once.
    - pose proof (perform_started act w) as Hp. destruct (perf act w) as [w1 r1].
      by apply finish_once.
    - by apply fallback_once. }
  destruct (match ParseCommand args with Ret (Do p) => _ | _ => _ end); [|apply Hgo].
  destruct (runCommand _ _ _ _) as [[a|d r]| |] eqn:Hr; try (intros [= <- <-]; by left).
  { apply runCommand_fallback in Hr as ->. by apply fallback_once. }
  destruct (bugreport_runs g) as [[v rep]|o]; [apply Hgo|by apply finish_once].
Qed.

(** ** Panics *)

(** The device ends an execution without a single message. *)
Definition no_status (a : answer) : Prop :=
  a_dial a = None ∧ a_send0 a = None ∧ a_csend a = None ∧ a_ms a = [] ∧ a_fin a = Some EOF.

Lemma Exec_recv_one_panics width ms fin w last :
  snd (Exec_recv_one width ms fin w last) = Panic ↔ ms = [] ∧ fin = Some EOF ∧ last = None.
Proof.
  revert w last. induction ms as [|m ms IH]; intros w last; cbn [Exec_recv_one].
  - destruct fin as [e|]; [|naive_solver]. cbn. case_decide; [subst|naive_solver]. destruct last; naive_solver.
  - split; [|naive_solver]. intros Hx. exfalso. revert Hx.
    destruct (match cp_stdout m with [] => _ | _ => _ end) as [w1 [e1|]]; [done|].
    destruct (match cp_stderr m with [] => _ | _ => _ end) as [w2 [e2|]]; [done|].
    rewrite IH. by intros (_ & _ & ?).
Qed.

Lemma Exec_one_panics width a w : snd (Exec_one width a w) = Panic ↔ no_status a.
Proof.
  unfold Exec_one, no_status.
  destruct (a_dial a), (a_send0 a), (a_csend a); try (cbn; naive_solver).
  rewrite Exec_recv_one_panics. naive_solver.
Qed.

Lemma Exec_recv_panics width ms fin so se last :
  snd (Exec_recv width ms fin so se last) = Panic ↔ ms = [] ∧ fin = Some EOF ∧ last = None.
Proof.
  revert so se last. induction ms as [|m ms IH]; intros so se last; cbn [Exec_recv].
  - destruct fin as [e|]; [|naive_solver]. cbn. case_decide; [subst|naive_solver]. destruct last; naive_solver.
  - split; [|naive_solver]. intros Hx. exfalso. revert Hx.
    destruct (write_opt so _) as [so' [e1|]]; [done|]. destruct (write_opt se _) as [se' [e2|]]; [done|].
    rewrite IH. by intros (_ & _ & ?).
Qed.

(** A session whose line can be printed, and a listing that stops in one that cannot: an address
    [tcp:port] without a host. *)
Definition listable (s : ForwardSession) : Prop :=
  ∃ x y, parseFwd (fs_src s) true = Ret (Do x) ∧ parseFwd (fs_dst s) true = Ret (Do y).

Definition bad_listing (ss : list ForwardSession) : Prop :=
  ∃ pre s post, ss = pre ++ s :: post ∧ Forall listable pre ∧
    (bare_tcp (fs_src s) ∨ (∃ x, parseFwd (fs_src s) true = Ret (Do x)) ∧ bare_tcp (fs_dst s)).

Lemma print_list_panics ss w : snd (print_list ss w) = Panicked ↔ bad_listing ss.
Proof.
  revert w. induction ss as [|s ss IH]; intros w.
  { split; [done|]. by intros ([|] & ? & ? & ? & _). }
  cbn [print_list].
  assert (bad_listing (s :: ss) ↔ bare_tcp (fs_src s) ∨
    (∃ x, parseFwd (fs_src s) true = Ret (Do x)) ∧ (bare_tcp (fs_dst s) ∨
    (∃ y, parseFwd (fs_dst s) true = Ret (Do y)) ∧ bad_listing ss)) as ->.
  { split.
    - intros ([|s' pre] & s0 & post & [= <- ->] & Hpre & Hs); [naive_solver|].
      apply list.Forall_cons in Hpre as [(x & y & Hx & Hy) Hpre]. right. split; [eauto|]. right. split; [eauto|].
      by exists pre, s0, post.
    - intros [Hb|[[x Hx] [Hb|[[y Hy] (pre & s0 & post & -> & Hpre & Hs)]]]].
      + exists [], s, ss. split_and!; [done|by constructor|by left].
      + exists [], s, ss. split_and!; [done|by constructor|right; eauto].
      + exists (s :: pre), s0, post. split_and!; [done| |done]. constructor; [by exists x, y|done]. }
  rewrite <- !parseFwd_back_panics.
  destruct (parseFwd (fs_src s) true) as [[x| |e]| |]; cbn [snd]; [|naive_solver..].
  destruct (parseFwd (fs_dst s) true) as [[y| |e]| |]; cbn [snd]; [|naive_solver..].
  rewrite IH. naive_solver.
Qed.

Lemma client_Push_safe h dv src dst :
  snd (client_Push hostRefuse devRefuse first sfirst stop h dv src dst) ≠ Panic.
Proof.
  unfold client_Push, push_archive. destruct (Tar _ _ _ _) as [tw terr]. unfold pushTar.
  pose proof (pushTar_loop_safe (pipe_size (MkPipe (tar_emit tw) (Some EOF))) (64 * 1024) dst
    (MkPipe (tar_emit tw) (Some EOF)) (MkOuts [] None)) as Hp.
  destruct (pushTar_loop _ _ _ _ _) as [o [[|e]| |]]; try done. unfold server_Push.
  destruct (sent o) as [|m ms]; [done|]. destruct (Untar _ _ _ _) as [dv' uerr].
  destruct (Push_loop_ret m ms EOF (MkSink [] match uerr with None => None | Some e => Some (stop, e) end))
    as (w' & r & ->).
  by destruct (eg_Wait sfirst uerr _); [|destruct r].
Qed.

Lemma client_Pull_safe h dv src dst :
  snd (client_Pull hostRefuse devRefuse first sfirst h dv src dst) ≠ Panic.
Proof.
  unfold client_Pull. destruct (Stat _ _ _); [done|]. unfold pull_bytes.
  assert (snd (server_Pull devRefuse sfirst dv src) ≠ Panic) as Hs.
  { unfold server_Pull. destruct (Stat _ _ _) as [[]|]; try done.
    all: destruct (Tar _ _ _ _) as [tw terr]; unfold Pull;
      match goal with |- context [Pull_loop ?f ?b ?r ?o] =>
        pose proof (Pull_loop_safe f b r o); by destruct (Pull_loop f b r o) as [? [| |]] end. }
  destruct (server_Pull _ _ _ _) as [ms [herr| |]]; [|done|done].
  pose proof (pullStream_safe ms (Some (match herr with None => EOF | Some e => e end)) (MkSink [] None)) as Hp.
  destruct (pullStream _ _ _) as [w' [e| |]]; [|done|done]. by destruct (Untar _ _ _ _).
Qed.

(** The calls that panic: an execution without a message, and a listing with a bad session. *)
Definition dies (a : action) (w : world) : Prop :=
  match a with
  | ActExec cmd args => no_status (exec g cmd args)
  | ActShell line => no_status (exec g "/system/bin/sh" ["-c"; line])
  | ActList => rpc_err g = None ∧ bad_listing (fs_sessions (List (daemon w)))
  | _ => False
  end.

Lemma exec_panics cmd args w :
  snd (exeStdout g cmd args w) = Panicked ↔ no_status (exec g cmd args).
Proof.
  rewrite <- (Exec_one_panics (width g) _ (MkSink (stdout w) None)). unfold exeStdout.
  by destruct (Exec_one _ _ _) as [out [[|]| |]].
Qed.

Lemma shell_panics line w :
  snd (shellStdout g line w) = Panicked ↔ no_status (exec g "/system/bin/sh" ["-c"; line]).
Proof.
  rewrite <- (Exec_one_panics (width g) _ (MkSink (stdout w) None)). unfold shellStdout.
  destruct (Exec_one _ _ _) as [out [r| |]]; [|done|done]. cbn. by destruct (propagates g _).
Qed.

Lemma perform_panics a w : snd (perf a w) = Panicked ↔ dies a w.
Proof.
  destruct a; cbn [perform dies].
  - apply exec_panics.
  - apply shell_panics.
  - pose proof (client_Push_safe (host w) (dev w) src dst). split; [|done].
    by destruct (client_Push _ _ _ _ _ _ _ _ _) as [d [| |]].
  - pose proof (client_Pull_safe (host w) (dev w) src dst). split; [|done].
    by destruct (client_Pull _ _ _ _ _ _ _ _) as [d [| |]].
  - split; [|done]. destruct (files g path) as [[[fi bs] rerr]|]; [|done].
    by destruct (client_Install _ _ _ _ _ _ _) as [? [? ?]].
  - split; [|done]. unfold on_daemon. destruct (rpc_err g); [done|]. by destruct (ForwardPort _ _ _).
  - split; [|done]. unfold on_daemon. destruct (rpc_err g); [done|]. by destruct (ReverseForwardPort _ _ _ _).
  - split; [|done]. unfold on_daemon. destruct (rpc_err g); [done|]. by destruct (Stop _ _).
  - split; [|done]. unfold on_daemon. destruct (rpc_err g); [done|]. by destruct (StopAll _).
  - destruct (rpc_err g); [naive_solver|]. rewrite print_list_panics. naive_solver.
  - done.
Qed.

(** [bugreport PATH] panics when one of its two executions has no message. *)
Definition bugreport_dies : Prop :=
  no_status (exec g "/system/bin/bugreportz" ["-v"]) ∨
  ∃ v, exeString g "/system/bin/bugreportz" ["-v"] = Ret (v, None) ∧ v ≠ "" ∧
    no_status (exec g "/system/bin/sh" ["-c"; "/system/bin/bugreportz "]).

Lemma exeString_panics cmd args : exeString g cmd args = Panic ↔ no_status (exec g cmd args).
Proof.
  rewrite <- (Exec_one_panics (width g) _ (MkSink [] None)). unfold exeString.
  by destruct (Exec_one _ _ _) as [out [[|]| |]].
Qed.

Lemma shellBuffer_panics line :
  shellBuffer g line = Panic ↔ no_status (exec g "/system/bin/sh" ["-c"; line]).
Proof.
  unfold shellBuffer, client_Exec, no_status.
  destruct (a_dial _), (a_send0 _), (a_csend _); try (cbn; naive_solver).
  pose proof (Exec_recv_panics (width g) (a_ms (exec g "/system/bin/sh" ["-c"; line]))
    (a_fin (exec g "/system/bin/sh" ["-c"; line])) (Some (MkSink [] None)) None None) as He.
  destruct (Exec_recv _ _ _ _ _ _) as [[so se] [[|]| |]]; cbn in He |- *; naive_solver.
Qed.

Lemma bugreport_runs_panics : bugreport_runs g = inr Panicked ↔ bugreport_dies.
Proof.
  unfold bugreport_runs, bugreport_dies. setoid_rewrite <- shellBuffer_panics. rewrite <- exeString_panics.
  destruct (exeString _ _ _) as [[v err]| |]; [|naive_solver..]. cbn.
  case_decide as Hv; [naive_solver|]. destruct err as [e|]; [naive_solver|].
  destruct (shellBuffer _ _) as [[[so s] err]| |]; [|naive_solver..].
  destruct (propagates g s); naive_solver.
Qed.

Lemma fallback_no_crash args w : snd (fallback args w) ≠ Crash.
Proof. unfold Fallback_adb. destruct (platformADB _ _ _); [|done]. by destruct (real_adb g _ _). Qed.

Lemma finish_crash args r : snd (finish g join args r) = Crash ↔ r.2 = Panicked.
Proof.
  destruct r as [w [[[]| |e]|code| |]]; cbn [finish snd]; try done.
  split; [|done]. intros Hc. by apply fallback_no_crash in Hc.
Qed.

(** A run with the texts of [e], after the parsing. *)
Definition run_with (e : env) (gerr : option error) (args : list string) (w : world) : world * exit :=
  match runCommand e (dial g) gerr args with
  | Panic => (w, Crash)
  | Block => (w, Hang)
  | Ret (Fallback a) => fallback a w
  | Ret (Ran _ (Do act)) => finish g join args (perf act w)
  | Ret (Ran _ ParseError) => fallback args w
  | Ret (Ran _ (Fail e)) => finish g join args (w, Returned (Fail e))
  end.

Definition call_dies (e : env) (p : ParsedArgs) (w : world) : Prop :=
  short_command p ∨
  ∃ fn act, Commands e (Command p) = Some fn ∧ fn None (Args p) = Ret (Do act) ∧ dies act w.

(** Falling back, a command line has no command that could die. *)
Lemma fallback_no_call e gerr args p w :
  runCommand e (dial g) gerr args = Ret (Fallback args) →
  cmdline "" args = Ret (Do p) → dialled (dial g) p → gerr = None → ¬ call_dies e p w.
Proof.
  intros Hr Hp Hd ->.
  assert (∀ fn, Commands e (Command p) = Some fn → fn None (Args p) ≠ Panic ∧ ∀ act, fn None (Args p) ≠ Ret (Do act)) as Hno.
  { intros fn Hfn. rewrite (runCommand_called _ _ _ _ p fn Hp Hd Hfn) in Hr.
    by destruct (fn None (Args p)) as [[]| |]. }
  intros [Hs|(fn & act & Hfn & Ha & _)]; [|by destruct (Hno fn Hfn) as [_ Hn]; apply (Hn act)].
  destruct (cmdline_suffix _ _ _ Hp) as (pre & rest & _ & HA).
  assert (0 < len (Args p)) as Hlen by (rewrite HA, len_cons; pose proof (len_nonneg rest); lia).
  assert (∃ fn, Commands e (Command p) = Some fn) as [fn Hfn] by (destruct Hs as [[-> _]|[-> _]]; cbn; eauto).
  by destruct (Hno fn Hfn) as [[] _]; apply (command_panics _ _ _ Hfn Hlen).
Qed.

Lemma run_with_crash e gerr args w :
  snd (run_with e gerr args w) = Crash ↔
  cmdline "" args = Panic ∨
  ∃ p, cmdline "" args = Ret (Do p) ∧ dialled (dial g) p ∧ gerr = None ∧ call_dies e p w.
Proof.
  unfold run_with.
  destruct (runCommand_cases e (dial g) gerr args) as [[Hc ->]|[[Hc Hr]|(p & fn & Hc & Hd & Hfn & Hlen)]].
  - split; [by left|done].
  - rewrite Hr. split; [intros Hx; by apply fallback_no_crash in Hx|]. intros [?|(p & Hp & Hd & -> & Hs)]; [done|].
    by apply (fallback_no_call _ _ _ _ w Hr Hp Hd eq_refl) in Hs.
  - rewrite (runCommand_called _ _ _ _ p fn Hc Hd Hfn), Hc. unfold call_dies.
    assert (∀ P : Prop, (Ret (Do p) = Panic ∨ ∃ q, Ret (Do p) = Ret (Do q) ∧ dialled (dial g) q ∧ gerr = None ∧
      (short_command q ∨ ∃ fn act, Commands e (Command q) = Some fn ∧ fn None (Args q) = Ret (Do act) ∧ dies act w))
      ↔ gerr = None ∧ (fn None (Args p) = Panic ∨ ∃ act, fn None (Args p) = Ret (Do act) ∧ dies act w)) as HR.
    { intros _. rewrite (command_panics _ _ _ Hfn Hlen). split.
      - intros [?|(q & [= <-] & _ & -> & [?|(fn' & act & Hf' & Ha & ?)])]; [done|by auto|].
        rewrite Hfn in Hf'. injection Hf' as <-. eauto.
      - intros [-> [?|(act & Ha & ?)]]; right; exists p; split_and!; auto. right. eauto 6. }
    rewrite (HR True). destruct gerr as [er|].
    + destruct (commands_refused _ _ _ er (Args p) Hfn) as (r & -> & Hno). cbn [obind].
      split; [|by intros [? _]]. destruct r as [act| |e']; [by destruct (Hno act)| |done].
      intros Hx. by apply fallback_no_crash in Hx.
    + destruct (fn None (Args p)) as [[act| |e']| |]; cbn [obind].
      * rewrite finish_crash, perform_panics. naive_solver.
      * split; [intros Hx; by apply fallback_no_crash in Hx|naive_solver].
      * split; [done|naive_solver].
      * split; [auto|done].
      * split; [done|naive_solver].
Qed.

(** The texts of a run that is no bug report to a file. *)
Definition plain_env : env :=
  MkEnv (λ path, match files g path with Ok _ => None | Err e => Some e end) ("", None) ("", None).

(** Whatever its two executions print, a bug report to a file calls nothing that panics. *)
Lemma bugreport_calls e p w :
  is_bugreport_zip p = true → ¬ call_dies e p w.
Proof.
  unfold is_bugreport_zip. intros [Hc Hl]%bool_decide_eq_true [[[H1 _]|[H1 _]]|(fn & act & Hfn & Ha & Hd)];
    [congruence..|].
  rewrite Hc in Hfn. injection Hfn as <-. unfold bugreportFn in Ha. cbn [connect cbind] in Ha.
  rewrite (decide_False (P := len (Args p) > 2)), (decide_False (P := len (Args p) = 1)) in Ha by lia.
  case_decide; [by injection Ha as <-|]. destruct (snd (report e)); [done|].
  destruct (index_some (Args p) 1 ltac:(lia)) as [oz Hoz]. rewrite Hoz in Ha. cbn [obind] in Ha.
  case_decide as Hdp; [done|].
  destruct (index_some (Split (fst (report e)) "OK:") 1 ltac:(lia)) as [z Hz]. rewrite Hz in Ha.
  by injection Ha as <-.
Qed.

Lemma bugreport_ran p args :
  is_bugreport_zip p = true → cmdline "" args = Ret (Do p) → dialled (dial g) p →
  ∃ r, runCommand plain_env (dial g) None args = Ret (Ran (Device p) r).
Proof.
  unfold is_bugreport_zip. intros [Hc Hl]%bool_decide_eq_true Hp Hd.
  rewrite (runCommand_called _ _ _ _ p (λ c, bugreportFn c ("", None) ("", None)) Hp Hd) by (by rewrite Hc).
  unfold bugreportFn. cbn [connect cbind].
  rewrite (decide_False (P := len (Args p) > 2)), (decide_False (P := len (Args p) = 1)) by lia.
  eexists. reflexivity.
Qed.

(** C39: The adb process panics on exactly these runs: the global options use up all arguments; or
    the device answers, the connection opens, and either the command is forward or reverse and
    stops short of an address it reads, or it lists a session with an address [tcp:port] that
    has no host, all before it printable, or it runs something on the device and the answer ends
    without a message. *)
Theorem adb_crashes args w :
  snd (adb args w) = Crash ↔
  cmdline "" args = Panic ∨
  ∃ p, cmdline "" args = Ret (Do p) ∧ dialled (dial g) p ∧ grpc g (grpc_addr p) = None ∧
    (short_command p ∨
     (∃ fn act, Commands plain_env (Command p) = Some fn ∧ fn None (Args p) = Ret (Do act) ∧ dies act w) ∨
     is_bugreport_zip p = true ∧ bugreport_dies).
Proof.
  change (adb args w) with
    (let gerr := grpc_err g (ParseCommand args) in
     if match ParseCommand args with
        | Ret (Do p) => is_bugreport_zip p && bool_decide (gerr = None) | _ => false end
     then match runCommand plain_env (dial g) gerr args with
          | Ret (Fallback a) => fallback a w
          | Panic => (w, Crash)
          | Block => (w, Hang)
          | Ret (Ran _ _) =>
              match bugreport_runs g with
              | inl (v, r) => run_with (MkEnv (open plain_env) v r) gerr args w
              | inr o => finish g join args (w, o)
              end
          end
     else run_with plain_env gerr args w). cbv zeta. rewrite ParseCommand_cmdline.
  destruct (match cmdline "" args with Ret (Do p) => _ | _ => _ end) eqn:Hz.
  2: { rewrite run_with_crash. unfold call_dies. split; intros [?|(p & Hp & Hd & Hg & Hx)]; auto; right; exists p.
       - rewrite Hp in Hg. naive_solver.
       - rewrite Hp in Hz |- *. cbn [grpc_err] in Hz |- *. rewrite Hg, bool_decide_true, andb_true_r in Hz by done.
         split_and!; auto. destruct Hx as [?|[?|[Hz' _]]]; auto. by rewrite Hz' in Hz. }
  destruct (cmdline "" args) as [[p| |]| |] eqn:Hp; try done. cbn [grpc_err].
  apply andb_true_iff in Hz as [Hz Hg%bool_decide_eq_true]. cbn [grpc_err] in Hg. rewrite Hg.
  assert (∀ e, ¬ call_dies e p w) as Hno by (intros e; by apply bugreport_calls).
  transitivity (dialled (dial g) p ∧ bugreport_dies).
  2: { split; [intros [? ?]; right; exists p; auto 10|].
       intros [?|(q & [= <-] & Hd & _ & [Hs|[Hs|[_ ?]]])]; [done|..|done]; exfalso; apply (Hno plain_env);
         [by left|by right]. }
  destruct (runCommand_cases plain_env (dial g) None args) as [[Hc _]|[[_ Hr]|(q & fn & Hc & Hd & Hfn & Hlen)]];
    [congruence| |].
  - rewrite Hr. split; [intros Hx; by apply fallback_no_crash in Hx|]. intros [Hd _].
    destruct (bugreport_ran p args Hz Hp Hd) as [r Hr']. congruence.
  - assert (q = p) as -> by congruence. destruct (bugreport_ran p args Hz Hp Hd) as [r ->].
    rewrite <- bugreport_runs_panics. destruct (bugreport_runs g) as [[v rp]|o].
    + rewrite run_with_crash, Hp. split; [|by intros [_ ?]].
      intros [?|(q & [= <-] & _ & _ & Hx)]; [done|by apply Hno in Hx].
    + rewrite finish_crash. cbn [snd]. split; [by intros ->|by intros [_ [= ->]]].
Qed.

(** ** The commands, end to end *)

(** The status the process ends with after a command with status [s]. *)
Definition adb_status (s : Z) : Z := match propagates g s with Some c => c | None => 0 end.

(** The status reaches the caller exactly when the variable asks for it. *)
Lemma adb_status_spec s :
  adb_status s =
  match ParseBool (getenv g "WATERFALL_PROPAGATE_STATUS_CODE") with Some true => s | _ => 0 end.
Proof.
  unfold adb_status, propagates, propagateStatusCode.
  destruct (decide (getenv g "WATERFALL_PROPAGATE_STATUS_CODE" = "")) as [->|Hne]; [done|].
  destruct (ParseBool _) as [[]|]; [|done|done]. cbn.
  case_bool_decide; [done|lia].
Qed.

(** C6: [adb shell]: the line runs in the device's shell; when the server's goroutines end on a
    stream that does not fail, the process prints the command's output and error output, merged,
    each in order, and exits with 0, or with the command's status if the variable
    WATERFALL_PROPAGATE_STATUS_CODE is true. *)
Theorem adb_shell_end_to_end d c rest O E s ec running w o cmd :
  IntWidth (width g) → reachable d "" →
  rtc exec_step (exec_init O E None None (MkOuts [] None)) s → Exec.finished s → 0 ≤ ec < 2 ^ 31 →
  let line := c +:+ " " +:+ Join rest " " in
  Exec_handler (MkExecOS None None None None) (Ok (client_cmd "/system/bin/sh" ["-c"; line] false))
    s (WaitExit ec) running = (cmd, (o, None)) →
  exec g "/system/bin/sh" ["-c"; line] = MkAnswer None None None (sent o) (Some EOF) →
  (∃ p, cmd = Some (MkCommand "/system/bin/sh" ["-c"; line] "/", p)) ∧
  ∃ out, shuffle (mjoin O) (mjoin E) out ∧
    adb ("-s" :: d :: "shell" :: c :: rest) w =
      (set_stdout (stdout w ++ out) w, Exit (adb_status ec)).
Proof.
  intros Hw Hd Hr Hf Hec line Hh Hans.
  unfold Exec_handler in Hh. cbn [Exec_start os_stdout os_stderr os_stdin os_start cmd_PipeIn client_cmd] in Hh.
  injection Hh as Hcmd Ho. split; [by eexists|].
  destruct (exec_sent O E s ec Hr Hf) as (o' & ms & Hfin & Hms & HO & HE). rewrite Hfin in Ho.
  injection Ho as ->. exists (both_bytes (sent o)). split.
  { rewrite <- HO, <- HE. apply shuffle_both. }
  rewrite (adb_command d "shell" (c :: rest) (λ _, shellFn) (shellIO c rest)); try done.
  2: { intros e _. split; [done|]. unfold shellFn.
       rewrite decide_False by (rewrite !len_cons; pose proof (len_nonneg rest); lia). cbn [cbind connect].
       change (index ("shell" :: c :: rest) 1) with (Ret c). cbn [obind].
       unfold args_from. rewrite (slice_app ["shell"; c] rest : slice_from ("shell" :: c :: rest) 2 = _). done. }
  unfold shellIO. cbn [perform]. unfold shellStdout. fold line. rewrite Hans. unfold Exec_one.
  cbn [a_dial a_send0 a_csend a_ms a_fin]. rewrite Hms, Exec_recv_one_spec by done. cbn [cp_exit taken].
  assert (to_int (width g) (to_uint 32 ec) = ec) as ->.
  { unfold to_uint. rewrite Z.mod_small by lia. apply to_int_small; [done|]. destruct Hw as [-> | ->]; lia. }
  unfold adb_status. destruct (propagates g ec); cbn [finish]; done.
Qed.

(** [adb install]: the process prints the installer's output through Printf and exits with 0
    exactly when the installation succeeded. *)
Theorem adb_install_status d path args w size bs rerr :
  reachable d "" → files g path = Ok (Ok size, bs, rerr) →
  let '(w', x) := adb ("-s" :: d :: "install" :: args ++ [path]) w in
  let '(_, (out, err)) := client_Install (Ok size) (ins_dial g) (MkOuts [] None) args bs rerr
                            (ins_resp g args (concat bs)) in
  w' = print (Printf out) w ∧ (x = Exit 0 ↔ err = None).
Proof.
  intros Hd Hfile.
  rewrite (adb_command d "install" (args ++ [path]) (λ e, installFn (open e)) (ActInstall path args)); try done.
  - cbn [perform]. rewrite Hfile.
    destruct (client_Install _ _ _ _ _ _ _) as [o [out err]]. by destruct err as [e|]; cbn [of_err finish].
  - intros e He. split; [done|]. unfold installFn.
    assert (len ("install" :: args ++ [path]) = len args + 2) as Hl
      by (rewrite len_cons, len_app; llia).
    pose proof (len_nonneg args). rewrite Hl. rewrite decide_False by lia.
    replace (len args + 2 - 1) with (len ("install" :: args)) by (rewrite len_cons; lia).
    change ("install" :: args ++ [path]) with (("install" :: args) ++ [path]).
    rewrite index_app_0. cbn [obind]. rewrite He, Hfile. cbn [connect cbind].
    unfold slice_to. rewrite decide_True by (rewrite len_app; llia). cbn [obind].
    unfold len. rewrite Nat2Z.id, take_app_length. unfold args_from.
    by rewrite (slice_app ["install"] args : slice_from ("install" :: args) 1 = _).
Qed.

(** *** Port forwarding *)

Lemma list_ascii_app s1 s2 :
  String.list_ascii_of_string (s1 +:+ s2) = String.list_ascii_of_string s1 ++ String.list_ascii_of_string s2.
Proof. induction s1 as [|c s1 IH]; [done|]. change (String c s1 +:+ s2) with (String c (s1 +:+ s2)). cbn. by rewrite IH. Qed.

Lemma print_app s1 s2 w : print (s1 +:+ s2) w = print s2 (print s1 w).
Proof. unfold print, set_stdout. cbn. by rewrite list_ascii_app, app_assoc. Qed.

Lemma print_list_lines ss ls w :
  list_lines ss = Ret (Do ls) →
  print_list ss w = (foldl (λ w l, print (l +:+ newline) w) w ls, Returned (Do ())).
Proof.
  revert ls w. induction ss as [|s ss IH]; intros ls w; [by intros [= <-]|].
  cbn [list_lines print_list].
  destruct (parseFwd (fs_src s) true) as [[src| |]| |]; try done. cbn [cbind].
  destruct (parseFwd (fs_dst s) true) as [[dst| |]| |]; try done. cbn [cbind].
  destruct (list_lines ss) as [[ls'| |]| |] eqn:E; try done. cbn [cbind]. intros [= <-].
  rewrite (IH ls') by done. done.
Qed.

Lemma list_lines_in ss ls s :
  list_lines ss = Ret (Do ls) → s ∈ ss →
  ∃ a b, parseFwd (fs_src s) true = Ret (Do a) ∧ parseFwd (fs_dst s) true = Ret (Do b) ∧
    "localhost:foo " +:+ a +:+ " " +:+ b ∈ ls.
Proof.
  revert ls. induction ss as [|s0 ss IH]; intros ls H0 Hin; [by apply elem_of_nil in Hin|]. revert H0.
  cbn [list_lines].
  destruct (parseFwd (fs_src s0) true) as [[a| |]| |] eqn:Ha; try done. cbn [cbind].
  destruct (parseFwd (fs_dst s0) true) as [[b| |]| |] eqn:Hb; try done. cbn [cbind].
  destruct (list_lines ss) as [[ls'| |]| |] eqn:E; try done. cbn [cbind]. intros [= <-].
  apply elem_of_cons in Hin as [->|Hin].
  - exists a, b. split_and!; [done|done|]. apply list_elem_of_here.
  - destruct (IH ls' eq_refl Hin) as (a' & b' & ? & ? & ?). exists a', b'.
    split_and!; [done|done|]. by apply list_elem_of_further.
Qed.

Lemma forward_parsed A B a b :
  adb_addr a A → adb_addr b B →
  forwardFn None ["forward"; a; b] = Ret (Do (ActForward (fwd_req true A B))).
Proof.
  intros Ha Hb. unfold forwardFn. rewrite decide_False by llia. cbn [cbind connect].
  change (index ["forward"; a; b] 1) with (Ret a). change (index ["forward"; a; b] 2) with (Ret b).
  cbn [obind].
  destruct (adb_addr_not_option a A Ha) as (H1 & H2 & H3 & H4).
  rewrite !decide_False by done. by rewrite (parseFwd_adb _ _ Ha), (parseFwd_adb _ _ Hb).
Qed.

(** Every session of the daemon was made through a command line. *)
Definition cli_table (pf : PortForwarder) : Prop :=
  ∀ s d, table pf !! s = Some d → cli_session (MkForwardSession s d).

(** [adb forward A B] and then [adb forward --list]: the first ends with 0 only if the daemon's
    table now maps the source to the destination and nothing else changed; the second ends with
    0 and prints one line per session, the new one among them. *)
Theorem adb_forward_then_list d a A b B w w1 :
  reachable d ("unix:@h2o_" +:+ d +:+ "_xforward") →
  rtc pf_step NewServer (daemon w) → cli_table (daemon w) → adb_addr a A → adb_addr b B →
  adb ["-s"; d; "forward"; a; b] w = (w1, Exit 0) →
  table (daemon w1) = <[A := B]> (table (daemon w)) ∧ stdout w1 = stdout w ∧
  ∃ ls, adb ["-s"; d; "forward"; "--list"] w1 =
      (foldl (λ w l, print (l +:+ newline) w) w1 ls, Exit 0) ∧
    length ls = size (table (daemon w1)) ∧
    ∃ a' b', parseFwd A true = Ret (Do a') ∧ parseFwd B true = Ret (Do b') ∧
      "localhost:foo " +:+ a' +:+ " " +:+ b' ∈ ls.
Proof.
  intros Hd Hr Ht Ha Hb.
  rewrite (adb_command d "forward" [a; b] (λ _, forwardFn) (ActForward (fwd_req true A B))); try done.
  2: { intros e _. split; [done|]. by apply forward_parsed. }
  cbn [perform]. unfold on_daemon. destruct (rpc_err g) eqn:Hrpc; [done|].
  destruct (ForwardPort (listen g) (fwd_req true A B) (daemon w)) as [pf r] eqn:HF.
  pose proof (ForwardPort_table (listen g) (fwd_req true A B) (daemon w)) as HT. rewrite HF in HT.
  cbn zeta in HT. cbn [fwd_req pr_session fs_src fs_dst pr_rebind] in HT. destruct HT as [_ HT].
  destruct r as [[]|e]; cbn [of_res finish]; [|done]. intros [= <-].
  destruct HT as (_ & HT & _). cbn [daemon set_daemon stdout]. split; [exact HT|split; [done|]].
  assert (rtc pf_step NewServer pf) as Hr'.
  { eapply rtc_r; [exact Hr|]. replace pf with (fst (ForwardPort (listen g) (fwd_req true A B) (daemon w)))
      by (by rewrite HF). apply pf_forward. }
  assert (Forall cli_session (fs_sessions (List pf))) as Hcli.
  { apply list.Forall_forall. intros [s e] Hin. apply (ports_list_exact _ _ _ Hr') in Hin.
    rewrite HT, lookup_insert in Hin. case_decide; [|by apply Ht]. injection Hin as <-. subst s.
    by exists a, b. }
  destruct (proj1 (list_lines_total (fs_sessions (List pf))) Hcli) as (ls & Hls & Hlen). exists ls.
  rewrite (adb_command d "forward" ["--list"] (λ _, forwardFn) ActList); try done.
  cbn [perform daemon set_daemon]. rewrite Hrpc, (print_list_lines _ _ _ Hls). cbn [finish].
  split; [done|]. split.
  { rewrite Hlen. unfold List, table. cbn [fs_sessions]. by rewrite length_fmap, map_size_fmap, length_map_to_list. }
  assert (MkForwardSession A B ∈ fs_sessions (List pf)) as Hin.
  { apply (ports_list_exact _ _ _ Hr'). rewrite HT. apply lookup_insert_eq. }
  by destruct (list_lines_in _ _ _ Hls Hin) as (a' & b' & ? & ? & ?); exists a', b'.
Qed.
End theorems.

(** *** Push and pull *)

Section transfers.
Context `{!TarFormat, !TarFormatLaws}.
Context (g : genv) (join : string → string → string) (Printf : string → string).
Context (first sfirst : bool) (stop : Z).
Notation adb := (adb_main g join Printf no_refusal no_refusal first sfirst stop).

Lemma pushFn_parsed a b : pushFn None ["push"; a; b] = Ret (Do (ActPush a b)).
Proof. done. Qed.

Lemma pullFn_parsed a b : pullFn None ["pull"; a; b] = Ret (Do (ActPull a b)).
Proof. done. Qed.

(** [adb push]: the process ends with 0 and the tree is on the device, at the destination or in
    it; nothing else changed on either side. *)
Theorem adb_push_end_to_end dv s0 b n d w :
  reachable g dv "" →
  wf_tree (tree (host w)) → plain_below (s0 ++ [b]) (tree (host w)) →
  tree (host w) !! (s0 ++ [b]) = Some n → nul_free (tree (host w)) s0 b →
  wf_tree (tree (dev w)) → Forall good_name d → plain_below d (tree (dev w)) →
  let D := target (tree (dev w)) d b in
  tree (dev w) !! D = None → look (tree (dev w)) (parent D) = Some NDir → D ≠ [] →
  ∃ dev', adb ["-s"; dv; "push"; abs_path (s0 ++ [b]); abs_path d] w = (set_dev dev' w, Exit 0) ∧
    (∀ r, tree dev' !! (D ++ r) = tree (host w) !! ((s0 ++ [b]) ++ r)) ∧
    (∀ p, ¬ below D p → tree dev' !! p = tree (dev w) !! p).
Proof.
  intros Hr Hh Hhl Hn Hnul Hwf Hd Hpl D HD HpD HDne.
  destruct (push_tree first sfirst stop (host w) s0 b n (dev w) d) as (dev' & HP & Hres); try done.
  exists dev'. split; [|done].
  rewrite (adb_command g _ _ _ _ _ _ _ dv "push" [abs_path (s0 ++ [b]); abs_path d] (λ _, pushFn)
    (ActPush (abs_path (s0 ++ [b])) (abs_path d))); try done.
  cbn [perform]. by rewrite HP.
Qed.

(** C5: [adb pull], the other way. *)
Theorem adb_pull_end_to_end dv s0 b n d w :
  reachable g dv "" →
  wf_tree (tree (dev w)) → plain_below (s0 ++ [b]) (tree (dev w)) →
  tree (dev w) !! (s0 ++ [b]) = Some n → nul_free (tree (dev w)) s0 b →
  wf_tree (tree (host w)) → Forall good_name d → plain_below d (tree (host w)) →
  let D := target (tree (host w)) d b in
  tree (host w) !! D = None → look (tree (host w)) (parent D) = Some NDir → D ≠ [] →
  ∃ host', adb ["-s"; dv; "pull"; abs_path (s0 ++ [b]); abs_path d] w = (set_host host' w, Exit 0) ∧
    (∀ r, tree host' !! (D ++ r) = tree (dev w) !! ((s0 ++ [b]) ++ r)) ∧
    (∀ p, ¬ below D p → tree host' !! p = tree (host w) !! p).
Proof.
  intros Hr Hh Hhl Hn Hnul Hwf Hd Hpl D HD HpD HDne.
  destruct (pull_tree first sfirst (host w) s0 b n (dev w) d) as (host' & HP & Hres); try done.
  exists host'. split; [|done].
  rewrite (adb_command g _ _ _ _ _ _ _ dv "pull" [abs_path (s0 ++ [b]); abs_path d] (λ _, pullFn)
    (ActPull (abs_path (s0 ++ [b])) (abs_path d))); try done.
  cbn [perform]. by rewrite HP.
Qed.
End transfers.

(** ** A device to talk to *)

Definition demo_answer : answer :=
  MkAnswer None None None [MkProgress 0 ["a"%char] [] []; MkProgress 3 [] [] []] (Some EOF).

(** Everything is reachable; the variable that passes the status on is set. *)
Definition demo_genv : genv :=
  MkGenv 64 (λ v, if decide (v = "WATERFALL_PROPAGATE_STATUS_CODE") then "1" else "/sdk")
    (λ _, Ok (Ok 2, [["a"; "b"]%char], None)) (λ _ _, None) (λ _, None) (λ _ _, demo_answer) None
    (λ _ _, Ok (MkInstallResponse 0 "Success")) (λ _ _, None) None None None (λ _ _, WaitCode 4).

Definition demo_world : world := MkWorld demo_host demo_fs NewServer [] [].

Lemma demo_reachable d : d ≠ "" → ∀ a, reachable demo_genv d a.
Proof.
  intros Hd a. split; [done|split; [|done]].
  destruct (device_addr_ret d) as (n & x & H). by exists n, x.
Qed.

Notation demo_adb :=
  (adb_main (H := number_format) demo_genv (λ a b, a +:+ "/" +:+ b) (λ s, s) no_refusal no_refusal true true 0).

Lemma adb_shell_end_to_end_witness : ∃ out,
  shuffle ["a"%char] [] out ∧
  demo_adb ["-s"; "d"; "shell"; "echo"; "a"] demo_world = (set_stdout out demo_world, Exit 3).
Proof.
  refine (proj2 (adb_shell_end_to_end (H := number_format) demo_genv (λ a b, a +:+ "/" +:+ b) (λ s, s)
    no_refusal no_refusal true true 0 "d" "echo" ["a"] [["a"%char]] [] demo_fin 3 true demo_world
    (MkOuts [MkProgress 0 ["a"%char] [] []; MkProgress 3 [] [] []] None) _ _ _ demo_exec _ _ eq_refl eq_refl)).
  - by apply demo_reachable.
  - split; [reflexivity|split; [reflexivity|discriminate]].
  - lia.
Defined.

Lemma adb_install_status_witness :
  let '(w', x) := demo_adb ["-s"; "d"; "install"; "-r"; "app.apk"] demo_world in
  w' = print "Success" demo_world ∧ x = Exit 0.
Proof.
  pose proof (adb_install_status (H := number_format) demo_genv (λ a b, a +:+ "/" +:+ b) (λ s, s)
    no_refusal no_refusal true true 0 "d" "app.apk" ["-r"] demo_world 2 [["a"; "b"]%char] None
    (demo_reachable "d" ltac:(discriminate) "") eq_refl) as H.
  cbn [app] in H. destruct (adb_main _ _ _ _ _ _ _ _ _) as [w' x]. cbn -[print] in H.
  destruct H as [-> H]. split; [reflexivity|apply H; reflexivity].
Defined.

Lemma adb_forward_then_list_witness :
  table (daemon (fst (demo_adb ["-s"; "d"; "forward"; "tcp:80"; "localabstract:x"] demo_world))) =
  {["tcp:localhost:80" := "unix:@x"]}.
Proof.
  refine (proj1 (adb_forward_then_list (H := number_format) demo_genv (λ a b, a +:+ "/" +:+ b) (λ s, s)
    no_refusal no_refusal true true 0 "d" "tcp:80" "tcp:localhost:80" "localabstract:x" "unix:@x"
    demo_world _ _ _ _ _ _ _)).
  - by apply demo_reachable.
  - apply rtc_refl.
  - intros s d H. discriminate.
  - by apply (aa_tcp "80").
  - by apply (aa_abstract "x").
  - vm_compute. reflexivity.
Defined.

Lemma adb_push_end_to_end_witness : ∃ dev',
  demo_adb ["-s"; "d"; "push"; "/h/zoo"; "/data/app"] demo_world = (set_dev dev' demo_world, Exit 0) ∧
  tree dev' !! ["data"; "app"; "zoo"; "a"] = Some (NFile ["a"%char]).
Proof.
  destruct (adb_push_end_to_end (H := number_format) (H0 := number_format_laws) demo_genv (λ a b, a +:+ "/" +:+ b) (λ s, s)
    true true 0 "d" ["h"] "zoo" NDir ["data"; "app"] demo_world) as (dev' & HP & Hin & _);
    try tree_decide; [by apply demo_reachable|].
  exists dev'. split; [exact HP|exact (Hin ["a"])].
Defined.

Lemma adb_pull_end_to_end_witness : ∃ host',
  demo_adb ["-s"; "d"; "pull"; "/h/zoo"; "/data/new"] (MkWorld demo_fs demo_host NewServer [] []) =
    (MkWorld host' demo_host NewServer [] [], Exit 0) ∧
  tree host' !! ["data"; "new"; "a"] = Some (NFile ["a"%char]).
Proof.
  destruct (adb_pull_end_to_end (H := number_format) (H0 := number_format_laws) demo_genv (λ a b, a +:+ "/" +:+ b) (λ s, s)
    true true 0 "d" ["h"] "zoo" NDir ["data"; "new"] (MkWorld demo_fs demo_host NewServer [] []))
    as (host' & HP & Hin & _); try tree_decide; [by apply demo_reachable|].
  exists host'. split; [exact HP|exact (Hin ["a"])].
Defined.
