(* ===== verification/AdbForward.v ===== *)
(** * From [adb forward] to the bytes of a forwarded connection

    The process of [AdbRun] (src/waterfall/golang/client/adb/) changes the daemon whose steps, and
    those of its connections, are the system of [PortForward] (forward/ports/ports.go,
    server/server.go): a command line, the call it makes, the listener the call opens, and every
    connection that comes in on it. *)

From S2P Require Import Prelude GoStrings GoIO Filepath Fs Tar TarRoundtrip Proto Stream AdbCli.
From S2P Require Import TransferTree Exec ExecProcess Install InstallClient AdbRun.
From S2P Require Import Ports Reverse Forward StreamForwarder Tunnel PortForward.

Local Open Scope Z_scope.
Local Open Scope go_scope.

(** The process's daemon with the connections [ps] it has: the system the process acts on. *)
Definition at_daemon (w : world) (ps : list (nat * path_state)) : system :=
  MkSystem (AdbRun.daemon w) ps.

(** ** The call is a step of the system *)

Lemma lis_Close_calls i pf : calls (fst (lis_Close i pf)) = calls pf.
Proof. unfold lis_Close. by case_decide. Qed.

Lemma ForwardPort_calls listen req pf : calls (fst (ForwardPort listen req pf)) = calls pf.
Proof.
  unfold ForwardPort. cbv zeta.
  destruct (parseAddr (fs_src (pr_session req))) as [[kind addr]|]; [|done].
  destruct (parseAddr (fs_dst (pr_session req))); [|done].
  destruct (sessions pf !! _) as [ss|]; [|by destruct (listen kind addr)].
  destruct (negb _); [done|].
  pose proof (lis_Close_calls (id ss) (set_sessions (delete (fs_src (pr_session req))) pf)) as H.
  destruct (lis_Close _ _) as [pf' [e|]]; [exact H|]. by destruct (listen kind addr).
Qed.

Lemma ForwardPort_sys_step listen req pf ps :
  sys_step (MkSystem pf ps) (MkSystem (fst (ForwardPort listen req pf)) ps).
Proof.
  apply sys_daemon; [apply pf_forward|]. unfold forward_calls. by rewrite ForwardPort_calls.
Qed.

(** ** Addresses of command lines *)

(** A destination that can be parsed and dialled: only the two calls on the server can fail, and then
    the accepted connection is closed and the goroutine goes on. *)
Definition first_error (rpcErr sendErr : option error) : option error :=
  match rpcErr with Some e => Some e | None => sendErr end.

Lemma adb_addr_forwarder a b rpcErr sendErr :
  adb_addr a b → ∃ m,
    makeForwarder b rpcErr sendErr = match first_error rpcErr sendErr with Some e => Err e | None => Ok m end.
Proof.
  intros Ha. destruct (adb_addr_parses _ _ Ha) as (kind & addr & k & Hp & Hk).
  exists (MkForwardMessage k OPEN addr []).
  unfold makeForwarder. rewrite Hp. cbn. rewrite Hk. by destruct rpcErr, sendErr.
Qed.

(** None of them is a udp address. *)
Lemma adb_addr_not_udp a b addr : adb_addr a b → b ≠ sess_addr "udp" addr.
Proof. by intros [p _|p _|p _|p _]. Qed.

(** ** The command, end to end *)

Section theorems.
Context `{TarFormat}.
Context (g : genv) (join : string → string → string) (Printf : string → string).
Context (hostRefuse devRefuse : Refusal) (first sfirst : bool) (stop : Z).
Notation adb := (adb_main g join Printf hostRefuse devRefuse first sfirst stop).

(** A run that ends with 0 made the call, and the call succeeded. *)
Lemma adb_forward_call d a A b B w w1 :
  reachable g d ("unix:@h2o_" +:+ d +:+ "_xforward") → adb_addr a A → adb_addr b B →
  adb ["-s"; d; "forward"; a; b] w = (w1, Exit 0) →
  ∃ pf, ForwardPort (listen g) (fwd_req true A B) (AdbRun.daemon w) = (pf, Ok ()) ∧ w1 = set_daemon pf w.
Proof.
  intros Hd Ha Hb.
  rewrite (adb_command g join Printf hostRefuse devRefuse first sfirst stop d "forward" [a; b]
    (λ _, forwardFn) (ActForward (fwd_req true A B))); try done.
  2: { intros e _. split; [done|]. by apply forward_parsed. }
  cbn [perform]. unfold on_daemon. destruct (rpc_err g); [done|].
  destruct (ForwardPort _ _ _) as [pf [[]|e]]; cbn [of_res finish]; [|done].
  intros [= <-]. by exists pf.
Qed.

End theorems.

(** ** A command line, a connection, and its bytes *)

Definition demo_forwarded : world :=
  fst (adb_main (H := number_format) demo_genv (λ a b, a +:+ "/" +:+ b) (λ s, s) no_refusal no_refusal true true 0
    ["-s"; "d"; "forward"; "tcp:80"; "localabstract:x"] demo_world).

Definition demo_open : ForwardMessage := MkForwardMessage UNIX OPEN "@x" [].

(** The system once the daemon has accepted a connection. *)
Definition demo_accepted : system :=
  MkSystem (add_call (CallForward (Some 0%nat) demo_open) (AdbRun.daemon demo_forwarded))
    [(0%nat, Calling demo_open (start demo_in Interrupts None) [])].

Lemma demo_served : ∃ t,
  rtc sys_step demo_accepted
    (MkSystem (daemon demo_accepted) [(0%nat, Serving "unix" "@x" demo_empty t)]).
Proof.
  destruct demo_tunnel_run as (t & Hr & _). exists t. eapply rtc_l.
  - apply (sys_path 0 0 (Calling demo_open (start demo_in Interrupts None) [])
      (Serving "unix" "@x" demo_empty demo_tunnel)); [done|]. by apply path_serve.
  - apply path_run. eapply rtc_subrel; [|exact Hr]. intros ?? H. by left.
Qed.

