(* ===== verification/GoFlags.v ===== *)
(** * Command lines: Go's package [flag]

    What [flag.Parse] does with the arguments of a binary: the binaries under
    src/waterfall/golang define string and boolean flags and start each other with flags on the
    command line.  [flag_Parse] is the standard library's algorithm, the basis of the theorems
    about the processes one binary starts. *)

From S2P Require Import Prelude GoStrings.

Local Open Scope Z_scope.

(** A flag: its name, whether it is boolean ([flag.Bool]) or a text ([flag.String]), and its
    default. *)
Record Flag := MkFlag { fl_name : string; fl_bool : bool; fl_default : string }.

Definition find_flag (fs : list Flag) (name : string) : option Flag :=
  list_find (λ f, fl_name f = name) fs ≫= λ r, Some r.2.

(** [strconv.ParseBool], as a canonical text. *)
Definition ParseBool (s : string) : option string :=
  if decide (s ∈ ["1"; "t"; "T"; "TRUE"; "true"; "True"]) then Some "true"
  else if decide (s ∈ ["0"; "f"; "F"; "FALSE"; "false"; "False"]) then Some "false"
  else None.

(** What an argument is. *)
Inductive token :=
| TRest                                              (* not a flag: it and what follows stay *)
| TEnd                                               (* [--] *)
| TBad                                               (* bad flag syntax *)
| TFlag (name : string) (value : option string).     (* [-name], [-name=value] *)

(** Cut [name] at its first [=], which cannot be its first character. *)
Definition flag_value (name : string) : string * option string :=
  match name with
  | EmptyString => (name, None)
  | String c rest =>
      match cut "=" rest with
      | Some (n, v) => (String c n, Some v)
      | None => (name, None)
      end
  end.

Definition flag_token (s : string) : token :=
  match s with
  | String "-" (String c rest) =>
      if Ascii.eqb c "-" then
        if decide (rest = "") then TEnd
        else if HasPrefix rest "-" || HasPrefix rest "=" then TBad
        else let '(n, v) := flag_value rest in TFlag n v
      else if Ascii.eqb c "=" then TBad
      else let '(n, v) := flag_value (String c rest) in TFlag n v
  | _ => TRest
  end.

Definition errFlag (msg : string) : error := ErrorString msg.

(** [f.Parse(args)]: the values of the flags that were set, and the arguments that remain. *)
Fixpoint flag_parse (fs : list Flag) (vals : gmap string string) (args : list string)
    : result (gmap string string * list string) :=
  match args with
  | [] => Ok (vals, [])
  | s :: args' =>
      match flag_token s with
      | TRest => Ok (vals, args)
      | TEnd => Ok (vals, args')
      | TBad => Err (errFlag ("bad flag syntax: " +:+ s))
      | TFlag name value =>
          match find_flag fs name with
          | None => Err (errFlag ("flag provided but not defined: -" +:+ name))
          | Some f =>
              if fl_bool f then
                match ParseBool (default "true" value) with
                | Some b => flag_parse fs (<[name := b]> vals) args'
                | None => Err (errFlag ("invalid boolean value for -" +:+ name))
                end
              else
                match value, args' with
                | Some v, _ => flag_parse fs (<[name := v]> vals) args'
                | None, v :: args'' => flag_parse fs (<[name := v]> vals) args''
                | None, [] => Err (errFlag ("flag needs an argument: -" +:+ name))
                end
          end
      end
  end.

Definition flag_Parse (fs : list Flag) (args : list string) : result (gmap string string * list string) :=
  flag_parse fs ∅ args.

(** The value of a flag after parsing. *)
Definition flag_get (fs : list Flag) (vals : gmap string string) (name : string) : string :=
  match vals !! name with
  | Some v => v
  | None => match find_flag fs name with Some f => fl_default f | None => "" end
  end.

Definition flag_getBool (fs : list Flag) (vals : gmap string string) (name : string) : bool :=
  bool_decide (flag_get fs vals name = "true").

(** ** Command lines the binaries build *)

(** A text flag given as two arguments takes the second whatever it looks like. *)
Lemma flag_parse_text fs vals tok name v args f :
  flag_token tok = TFlag name None → find_flag fs name = Some f → fl_bool f = false →
  flag_parse fs vals (tok :: v :: args) = flag_parse fs (<[name := v]> vals) args.
Proof. intros E Ef Eb. cbn [flag_parse]. by rewrite E, Ef, Eb. Qed.

Lemma flag_parse_bool fs vals tok name v b args f :
  flag_token tok = TFlag name v → find_flag fs name = Some f → fl_bool f = true →
  ParseBool (default "true" v) = Some b →
  flag_parse fs vals (tok :: args) = flag_parse fs (<[name := b]> vals) args.
Proof. intros E Ef Eb Ep. cbn [flag_parse]. by rewrite E, Ef, Eb, Ep. Qed.

(** Parsing stops at the first argument that is not a flag. *)
Lemma flag_parse_rest fs vals s args :
  flag_token s = TRest → flag_parse fs vals (s :: args) = Ok (vals, s :: args).
Proof. intros E. cbn [flag_parse]. by rewrite E. Qed.

Example flag_tokens :
  flag_token "-addr" = TFlag "addr" None ∧ flag_token "--addr" = TFlag "addr" None ∧
  flag_token "-daemon=false" = TFlag "daemon" (Some "false") ∧
  flag_token "--" = TEnd ∧ flag_token "-" = TRest ∧ flag_token "x" = TRest ∧ flag_token "--=x" = TBad.
Proof. vm_compute. auto 10. Qed.
