(* ===== verification/Binaries.v ===== *)
(** * The binaries: server_bin.go, forward_bin.go, forward_usb_bin.go, ports_bin.go, forkfd.go

    Each [main] from its flags to the point where it serves or forwards, and the loop that pairs
    connections; snapshot.go, which the server asks which address to use.  The kernel, the
    network and the other packages are an environment: a history of calls, and answers that may
    depend on it.  The theorems: what a daemon's child listens on, how the server is protected,
    which command lines the binaries give each other. *)

From S2P Require Import Prelude GoStrings Addr Fs GoFlags Auth.

Local Open Scope Z_scope.
Local Open Scope go_scope.

(** ** The environment *)

(** Where connections come from ([connBuilder] and the [net.Listener]s). *)
Inductive listener :=
| LQemu (dir sock : string)              (* *qemu.ConnBuilder *)
| LPipe (sock : string) (vsock : bool)   (* *qemu.PipeConnBuilder on a *qemu.Pipe *)
| LControl (sock : string) (vsock : bool) (* *qemu.ControlSocket on a *qemu.Pipe *)
| LDial (netType addr : string)          (* *dialBuilder: Accept dials *)
| LVsock (cid port : Z)                  (* *vsockBuilder: Accept dials *)
| LVsockListen (port : Z)
| LNet (netType addr : string)           (* net.Listen *)
| LFile (fd : Z)                         (* net.FileListener *)
| LMux (fd : Z)                          (* mux.NewListener on a file *)
| LMuxDial (netType addr : string)       (* *mux.ConnBuilder over a dialed connection *)
| LMuxUsb (serial : string).             (* *mux.ConnBuilder over a USB accessory *)

#[export] Instance listener_eq_dec : EqDecision listener.
Proof. solve_decision. Defined.

Inductive call :=
| GetProp (name : string)                              (* getprop through exec *)
| SetProp (name value : string)
| Umask (mask : Z)
| Getwd
| Chdir (dir : string)
| RemoveFile (name : string)
| StatFile (name : string)
| OpenL (l : listener)                                 (* create a listener or a builder *)
| Accept (l : listener)
| CloseL (l : listener)
| CloseConn (c : nat)
| NetDial (netType addr : string)
| AoaConnect (serial : string)                         (* aoa.Connect *)
| LoadX509KeyPair (cert key : string)
| AddrOf (l : listener)                                (* l.Addr() *)
| ListenerFile (l : listener)                          (* l.File() *)
| Printed (line : string)
| ExecStart (prog : string) (args : list string) (files : list listener)
| ExecConn (prog : string) (args : list string) (c : nat)  (* Start, with a connection as fd 3 *)
| ExecWait
| SyscallConn (c : nat)
| RawControl (c : nat)
| GrpcDial (addr : string)
| Serve (l : listener) (tls : bool) (auth : option AuthInterceptor)
| ServePorts (l : listener) (waterfall : string)
| Forwarding (cx cy : nat).                            (* go forward.Forward(cx, cy) *)

Record World := MkWorld {
  calls : list call;
  onCall : list call → option error;
  onErrno : list call → option errno;
  onText : list call → result string;
  onConn : list call → result nat;
}.

Definition did (w : World) (c : call) : World := MkWorld (calls w ++ [c]) (onCall w) (onErrno w) (onText w) (onConn w).

(** A call that answers with an error, an error number, a text, or a connection. *)
Definition perform (w : World) (c : call) : World * option error := let w := did w c in (w, onCall w (calls w)).
Definition sys (w : World) (c : call) : World * option errno := let w := did w c in (w, onErrno w (calls w)).
Definition ask (w : World) (c : call) : World * result string := let w := did w c in (w, onText w (calls w)).
Definition accept (w : World) (l : listener) : World * result nat := let w := did w (Accept l) in (w, onConn w (calls w)).

(** How [main] ends: it returns, or [log.Fatal] with the error it prints, if any. *)
Inductive status := Returned | Died (err : option error).

(** ** snapshot.go *)

Definition snapshotProp : string := "persist.devx.snapshot".

(** [SetSnapshotProp(ctx)] *)
Definition SetSnapshotProp (w : World) : World * option error := perform w (SetProp snapshotProp "1").

(** [IsSnapshot(ctx)] *)
Definition IsSnapshot (w : World) : World * result bool :=
  match ask w (GetProp snapshotProp) with
  | (w, Err e) => (w, Err e)
  | (w, Ok out) => (w, Ok (HasPrefix out "1"))
  end.

(** ** server_bin.go *)

Definition server_flags : list Flag :=
  [MkFlag "addr" false "qemu-guest:sockets/h2o"; MkFlag "snapshot_addr" false "qemu-guest:sockets/h2o2";
   MkFlag "session_id" false ""; MkFlag "cert" false ""; MkFlag "private_key" false "";
   MkFlag "daemon" true "false"].

Record ServerFlags := MkServerFlags {
  s_addr : string; s_snapshotAddr : string; s_sessionID : string;
  s_cert : string; s_privateKey : string; s_daemon : bool;
}.

Definition ServerFlags_of (vals : gmap string string) : ServerFlags :=
  let get := flag_get server_flags vals in
  MkServerFlags (get "addr") (get "snapshot_addr") (get "session_id") (get "cert") (get "private_key")
    (flag_getBool server_flags vals "daemon").

(** The arguments of the child of a daemon. *)
Definition child_args (a sessionID cert privateKey : string) : list string :=
  ["-addr"; a; "-daemon=false"; "-session_id"; sessionID; "-cert"; cert; "-private_key"; privateKey].

(** [forkInDaemonMode(path, paddr, sessionID, cert, privateKey)] *)
Definition forkInDaemonMode (w : World) (path : string) (paddr : ParsedAddr)
    (sessionID cert privateKey : string) : World * option error :=
  let a := Kind paddr +:+ ":" +:+ AddrField paddr in
  if decide (Kind paddr = TCP) then
    let l := LNet "tcp" (AddrField paddr) in
    match perform w (OpenL l) with
    | (w, Some e) => (w, Some e)
    | (w, None) =>
        let '(w, laddr) := ask w (AddrOf l) in
        let pts := Split (match laddr with Ok s => s | Err _ => "" end) ":" in
        let w := did w (Printed ("Waterfall server port: [" +:+ List.last pts "" +:+ "]")) in
        match perform w (ListenerFile l) with
        | (w, Some e) => (w, Some e)
        | (w, None) => perform w (ExecStart path (child_args "fd:3" sessionID cert privateKey) [l])
        end
    end
  else perform w (ExecStart path (child_args a sessionID cert privateKey) []).

(** A listener or builder is created, or [main] dies. *)
Definition open_or_die (w : World) (l : listener) : World * outcome (listener + option error) :=
  match perform w (OpenL l) with
  | (w, Some e) => (w, Ret (inr (Some e)))
  | (w, None) => (w, Ret (inl l))
  end.

(** [MakePipe(socketName)] of net/qemu/qemu.go: whether the pipe uses vsock. *)
Definition vsockDriver : string := "/dev/vsock".
Definition qemuDriver : string := "/dev/qemu_pipe".

Definition MakePipe (w : World) (socketName : string) : World * (bool + errno) :=
  match sys w (StatFile vsockDriver) with
  | (w, None) => (w, inl true)
  | (w, Some _) =>
      match sys w (StatFile qemuDriver) with
      | (w, Some e) => (w, inr e)
      | (w, None) => (w, inl false)
      end
  end.

(** [MakePipe], and the listener on the pipe. *)
Definition pipe_or_die (w : World) (sock : string) (mk : string → bool → listener)
    : World * outcome (listener + option error) :=
  match MakePipe w sock with
  | (w, inr e) => (w, Ret (inr (Some (PathError "stat" qemuDriver e))))
  | (w, inl vsock) => (w, Ret (inl (mk sock vsock)))
  end.

(** The [switch pa.Kind] of the server; [iw] is the width of [int]. *)
Definition server_listen (iw : Z) (w : World) (pa : ParsedAddr) : World * outcome (listener + option error) :=
  if decide (Kind pa = QemuGuest) then pipe_or_die w (SocketName pa) LPipe
  else if decide (Kind pa = QemuCtrl) then pipe_or_die w (SocketName pa) LControl
  else if decide (Kind pa = VsockGuest) then
    match Atoi iw (SocketName pa) with
    | (_, Some e) => (w, Ret (inr (Some e)))
    | (p, None) => open_or_die w (LVsockListen (to_uint 32 p))
    end
  else if decide (Kind pa = Unix ∨ Kind pa = TCP) then open_or_die w (LNet (Kind pa) (AddrField pa))
  else if decide (Kind pa = FDKind) then open_or_die w (LFile (to_uint iw (FD pa)))
  else if decide (Kind pa = Mux) then
    match MuxAddr pa with
    | Some m => let l := LMux (to_uint iw (FD m)) in (did w (OpenL l), Ret (inl l))
    | None => (w, Panic)
    end
  else (w, Ret (inr None)).

(** [makeCredentials(cert, privateKey)] *)
Definition makeCredentials (w : World) (cert privateKey : string) : World * option error :=
  perform w (LoadX509KeyPair cert privateKey).

(** The rest of [main], with its listener: the options of the gRPC server, and [Serve]. *)
Definition server_serve (f : ServerFlags) (w : World) (l : listener) : World * status :=
  let creds :=
    if decide (s_cert f ≠ "" ∨ s_privateKey f ≠ "") then
      if decide (s_cert f = "" ∨ s_privateKey f = "") then (w, inr None)
      else match makeCredentials w (s_cert f) (s_privateKey f) with
           | (w, Some _) => (w, inr None)
           | (w, None) => (w, inl true)
           end
    else (w, inl false) in
  match creds with
  | (w, inr e) => (w, Died e)
  | (w, inl tls) =>
      let auth := if decide (s_sessionID f ≠ "") then Some (NewAuthInterceptor (s_sessionID f)) else None in
      let '(w, _) := perform w (Serve l tls auth) in
      (did w (CloseL l), Returned)
  end.

(** [main] from its address on, when it does not start a daemon. *)
Definition server_run (iw : Z) (f : ServerFlags) (w : World) (pa : ParsedAddr) : World * outcome status :=
  match server_listen iw w pa with
  | (w, Ret (inl l)) => let '(w, st) := server_serve f w l in (w, Ret st)
  | (w, Ret (inr e)) => (w, Ret (Died e))
  | (w, Panic) => (w, Panic)
  | (w, Block) => (w, Block)
  end.

(** [main()] of the server; [self] is [os.Args[0]]. *)
Definition server_main (iw : Z) (self : string) (f : ServerFlags) (w : World) : World * outcome status :=
  let w := did w (Umask 0) in
  if decide (s_addr f = "") then (w, Ret (Died None)) else
  match IsSnapshot w with
  | (w, Err e) => (w, Ret (Died (Some e)))
  | (w, Ok isSnapshot) =>
      let address := if isSnapshot then s_snapshotAddr f else s_addr f in
      match ParseAddr iw address with
      | Err e => (w, Ret (Died (Some e)))
      | Ok pa =>
          if s_daemon f then
            match forkInDaemonMode w self pa (s_sessionID f) (s_cert f) (s_privateKey f) with
            | (w, Some e) => (w, Ret (Died (Some e)))
            | (w, None) => (w, Ret Returned)
            end
          else server_run iw f w pa
      end
  end.

(** The process: its command line, then [main]. *)
Definition server_process (iw : Z) (self : string) (args : list string) (w : World) : World * outcome status :=
  match flag_Parse server_flags args with
  | Err e => (w, Ret (Died (Some e)))
  | Ok (vals, _) => server_main iw self (ServerFlags_of vals) w
  end.

(** ** forward_bin.go *)

(** [MakeConnBuilder(emuDir, socket)] of net/qemu/qemu.go: the socket is made inside [emuDir]. *)
Definition MakeConnBuilder (w : World) (emuDir socket : string) : World * option error :=
  match ask w Getwd with
  | (w, Err e) => (w, Some (ErrorString ("cannot get working directory: " +:+ Error e)))
  | (w, Ok wd) =>
      let chdir w dir := if decide (wd ≠ emuDir) then perform w (Chdir dir) else (w, None) in
      match chdir w emuDir with
      | (w, Some e) => (w, Some (ErrorString ("failed to chdir to " +:+ emuDir +:+ ": " +:+ Error e)))
      | (w, None) =>
          let '(w, rm) := sys w (RemoveFile socket) in
          match (if decide (rm = Some ENOENT) then None else rm) with
          | Some e => (w, Some (ErrorString ("failed to remove old socket: " +:+ Error (PathError "remove" socket e))))
          | None =>
              match perform w (OpenL (LQemu emuDir socket)) with
              | (w, Some e) => (w, Some (ErrorString ("failed to listen on unix socket " +:+ socket +:+ ": " +:+ Error e)))
              | (w, None) =>
                  match chdir w wd with
                  | (w, Some e) => (w, Some (ErrorString ("failed to chdir to " +:+ wd +:+ ": " +:+ Error e)))
                  | (w, None) => (w, None)
                  end
              end
          end
      end
  end.

(** The [switch cpa.Kind]: the builder of the connections to forward to. *)
Definition connect_builder (iw : Z) (w : World) (cpa : ParsedAddr) : World * outcome (listener + option error) :=
  if decide (Kind cpa = QemuHost) then
    match MakeConnBuilder w (AddrField cpa) (SocketName cpa) with
    | (w, Some e) => (w, Ret (inr (Some e)))
    | (w, None) => (w, Ret (inl (LQemu (AddrField cpa) (SocketName cpa))))
    end
  else if decide (Kind cpa = QemuGuest) then pipe_or_die w (SocketName cpa) LPipe
  else if decide (Kind cpa = Unix ∨ Kind cpa = TCP) then (w, Ret (inl (LDial (Kind cpa) (AddrField cpa))))
  else if decide (Kind cpa = VsockHost) then
    match Atoi iw (AddrField cpa) with
    | (_, Some e) => (w, Ret (inr (Some e)))
    | (cid, None) =>
        match Atoi iw (SocketName cpa) with
        | (_, Some e) => (w, Ret (inr (Some e)))
        | (port, None) => (w, Ret (inl (LVsock (to_uint 32 cid) (to_uint 32 port))))
        end
    end
  else if decide (Kind cpa = Mux) then
    match MuxAddr cpa with
    | Some m =>
        match perform w (NetDial (Kind m) (AddrField m)) with
        | (w, Some e) => (w, Ret (inr (Some e)))
        | (w, None) => open_or_die w (LMuxDial (Kind m) (AddrField m))
        end
    | None => (w, Panic)
    end
  else (w, Ret (inr None)).

(** The loop over the listening addresses; a kind the [switch] does not name is passed over. *)
Fixpoint open_listeners (w : World) (addrs : list ParsedAddr) (acc : list listener)
    : World * (list listener + option error) :=
  match addrs with
  | [] => (w, inl acc)
  | a :: addrs' =>
      if decide (Kind a = QemuHost) then
        match MakeConnBuilder w (AddrField a) (SocketName a) with
        | (w, Some e) => (w, inr (Some e))
        | (w, None) => open_listeners w addrs' (acc ++ [LQemu (AddrField a) (SocketName a)])
        end
      else if decide (Kind a = Unix ∨ Kind a = TCP) then
        let l := LNet (Kind a) (AddrField a) in
        match perform w (OpenL l) with
        | (w, Some e) => (w, inr (Some e))
        | (w, None) => open_listeners w addrs' (acc ++ [l])
        end
      else open_listeners w addrs' acc
  end.

(** [utils.ParseAddr] of every address of the list. *)
Fixpoint parse_addrs (iw : Z) (l : list string) : result (list ParsedAddr) :=
  match l with
  | [] => Ok []
  | a :: l' => try! p := ParseAddr iw a in try! ps := parse_addrs iw l' in Ok (p :: ps)
  end.

Definition forward_flags : list Flag := [MkFlag "listen_addr" false ""; MkFlag "connect_addr" false ""].

(** [main()] of the forwarder up to its accept loops: the builder and the listeners. *)
Definition forward_main (iw : Z) (listenAddr connectAddr : string) (w : World)
    : World * outcome ((listener * list listener) + option error) :=
  if decide (listenAddr = "" ∨ connectAddr = "") then (w, Ret (inr None)) else
  match parse_addrs iw (Split listenAddr ",") with
  | Err e => (w, Ret (inr (Some e)))
  | Ok lisAddrs =>
      match ParseAddr iw connectAddr with
      | Err e => (w, Ret (inr (Some e)))
      | Ok cpa =>
          match connect_builder iw w cpa with
          | (w, Panic) => (w, Panic)
          | (w, Block) => (w, Block)
          | (w, Ret (inr e)) => (w, Ret (inr e))
          | (w, Ret (inl b)) =>
              match accept w b with
              | (w, Err e) => (w, Ret (inr (Some e)))
              | (w, Ok cy) =>
                  match open_listeners (did w (CloseConn cy)) lisAddrs [] with
                  | (w, inr e) => (w, Ret (inr e))
                  | (w, inl ls) => (w, Ret (inl (b, ls)))
                  end
              end
          end
      end
  end.

(** The process: its command line, then [main]. *)
Definition forward_process (iw : Z) (args : list string) (w : World)
    : World * outcome ((listener * list listener) + option error) :=
  match flag_Parse forward_flags args with
  | Err e => (w, Ret (inr (Some e)))
  | Ok (vals, _) =>
      forward_main iw (flag_get forward_flags vals "listen_addr") (flag_get forward_flags vals "connect_addr") w
  end.

(** [n] rounds of the accept loop of one listener; [None]: it is still running. *)
Fixpoint accept_loop (n : nat) (w : World) (ll b : listener) : World * option error :=
  match n with
  | O => (w, None)
  | S n' =>
      match accept w ll with
      | (w, Err e) => (w, Some e)
      | (w, Ok cx) =>
          match accept w b with
          | (w, Err e) => (w, Some e)
          | (w, Ok cy) => accept_loop n' (did w (Forwarding cx cy)) ll b
          end
      end
  end.

(** ** forward_usb_bin.go *)

(** [n] rounds of the loop; [cy] is the connection held in reserve. *)
Fixpoint usb_loop (n : nat) (w : World) (lis b : listener) (cy : nat) : World * (nat + error) :=
  match n with
  | O => (w, inl cy)
  | S n' =>
      match accept w lis with
      | (w, Err e) => (w, inr e)
      | (w, Ok cx) =>
          match accept (did w (Forwarding cx cy)) b with
          | (w, Err e) => (w, inr e)
          | (w, Ok cy) => usb_loop n' w lis b cy
          end
      end
  end.

(** [main()] of the USB forwarder up to its loop. *)
Definition forward_usb_main (iw : Z) (listenAddr connectAddr : string) (w : World)
    : World * outcome ((listener * listener * nat) + option error) :=
  if decide (listenAddr = "" ∨ connectAddr = "") then (w, Ret (inr None)) else
  match ParseAddr iw connectAddr, ParseAddr iw listenAddr with
  | Err e, _ => (w, Ret (inr (Some e)))
  | _, Err e => (w, Ret (inr (Some e)))
  | Ok cpa, Ok lpa =>
      let built :=
        if decide (Kind cpa = Unix ∨ Kind cpa = TCP) then (w, Ret (inl (LDial (Kind cpa) (AddrField cpa))))
        else if decide (Kind cpa = Mux) then
          match MuxAddr cpa with
          | Some m =>
              match perform w (AoaConnect (AddrField m)) with
              | (w, Some e) => (w, Ret (inr (Some e)))
              | (w, None) => open_or_die w (LMuxUsb (AddrField m))
              end
          | None => (w, Panic)
          end
        else (w, Ret (inr None)) in
      match built with
      | (w, Panic) => (w, Panic)
      | (w, Block) => (w, Block)
      | (w, Ret (inr e)) => (w, Ret (inr e))
      | (w, Ret (inl b)) =>
          match accept w b with
          | (w, Err e) => (w, Ret (inr (Some e)))
          | (w, Ok cy) =>
              if decide (Kind lpa = Unix ∨ Kind lpa = TCP) then
                let l := LNet (Kind lpa) (AddrField lpa) in
                match perform w (OpenL l) with
                | (w, Some e) => (w, Ret (inr (Some e)))
                | (w, None) => (w, Ret (inl (b, l, cy)))
                end
              else (w, Ret (inr None))
          end
      end
  end.

Definition forward_usb_process (iw : Z) (args : list string) (w : World)
    : World * outcome ((listener * listener * nat) + option error) :=
  match flag_Parse forward_flags args with
  | Err e => (w, Ret (inr (Some e)))
  | Ok (vals, _) =>
      forward_usb_main iw (flag_get forward_flags vals "listen_addr") (flag_get forward_flags vals "connect_addr") w
  end.

(** ** ports_bin.go *)

(** [main()]; [addr] is [<network>:<address>] and is not parsed with [utils.ParseAddr]. *)
Definition ports_main (addr waterfallAddr : string) (w : World) : World * status :=
  if decide (addr = "" ∨ waterfallAddr = "") then (w, Died None) else
  match SplitN addr ":" 2 with
  | [pts0; pts1] =>
      let l := LNet pts0 pts1 in
      match perform w (OpenL l) with
      | (w, Some e) => (w, Died (Some e))
      | (w, None) =>
          match perform w (GrpcDial waterfallAddr) with
          | (w, Some e) => (w, Died (Some e))
          | (w, None) => let '(w, _) := perform w (ServePorts l waterfallAddr) in (w, Returned)
          end
      end
  | _ => (w, Died None)
  end.

(** ** forkfd.go *)

Definition logwrapperBin : string := "/system/bin/logwrapper".

Definition forkfd_flags : list Flag :=
  [MkFlag "binary_to_launch" false ""; MkFlag "fork" true "false"; MkFlag "addr" false "localhost:8080"].

(** The command line of the process that serves the connection [c]. *)
Definition dup_args (binaryPath : string) (passthroughArgs : list string) : list string :=
  [binaryPath; "-addr"; "mux:fd:" +:+ fmt_int 3] ++ passthroughArgs.

(** [launchAndDupConn(binaryPath, rc, passthroughArgs)]: [rc.Control] runs the function that
    starts the process only when it returns nil. *)
Definition launchAndDupConn (w : World) (binaryPath : string) (c : nat) (passthroughArgs : list string)
    : World * option error :=
  match perform w (RawControl c) with
  | (w, Some err) => (w, Some err)
  | (w, None) =>
      let '(w, cmdErr) := perform w (ExecConn logwrapperBin (dup_args binaryPath passthroughArgs) c) in
      if decide (cmdErr ≠ None) then (w, None) else perform w ExecWait
  end.

(** [n] rounds of the loop of [main]; an error of [launchAndDupConn] is logged. *)
Fixpoint forkfd_loop (n : nat) (w : World) (lis : listener) (binaryPath : string) (rest : list string)
    : World * option error :=
  match n with
  | O => (w, None)
  | S n' =>
      match accept w lis with
      | (w, Err e) => (w, Some e)
      | (w, Ok c) =>
          match perform w (SyscallConn c) with
          | (w, Some e) => (w, Some e)
          | (w, None) =>
              let '(w, _) := launchAndDupConn w binaryPath c rest in
              forkfd_loop n' (did w (CloseConn c)) lis binaryPath rest
          end
      end
  end.

(** [main()] up to its loop: [None] when the process in [-fork] mode has started its child. *)
Definition forkfd_main (self : string) (vals : gmap string string) (w : World)
    : World * (option listener + option error) :=
  let addr := flag_get forkfd_flags vals "addr" in
  let bin := flag_get forkfd_flags vals "binary_to_launch" in
  if decide (addr = "") then (w, inr None)
  else if decide (bin = "") then (w, inr None)
  else if flag_getBool forkfd_flags vals "fork" then
    match perform w (ExecStart self ["-addr"; addr; "-binary_to_launch"; bin] []) with
    | (w, Some e) => (w, inr (Some e))
    | (w, None) => (w, inl None)
    end
  else
    match perform w (OpenL (LNet "tcp" addr)) with
    | (w, Some e) => (w, inr (Some e))
    | (w, None) => (w, inl (Some (LNet "tcp" addr)))
    end.

(** The process up to its loop, and the arguments it passes on to what it launches. *)
Definition forkfd_process (self : string) (args : list string) (w : World)
    : World * (option listener + option error) * list string :=
  match flag_Parse forkfd_flags args with
  | Err e => (w, inr (Some e), [])
  | Ok (vals, rest) => (forkfd_main self vals w, rest)
  end.

(** The process through [n] rounds of its loop, which it only leaves with [log.Fatal]. *)
Definition forkfd_run (n : nat) (self : string) (args : list string) (w : World) : World * option error :=
  match flag_Parse forkfd_flags args with
  | Err e => (w, Some e)
  | Ok (vals, rest) =>
      match forkfd_main self vals w with
      | (w, inl (Some lis)) => forkfd_loop n w lis (flag_get forkfd_flags vals "binary_to_launch") rest
      | (w, inl None) => (w, None)
      | (w, inr e) => (w, e)
      end
  end.

(** ** What a piece of a [main] adds to the history *)

Record grows (P : call → Prop) (w w' : World) : Prop := MkGrows {
  grows_calls : ∃ es, calls w' = calls w ++ es ∧ Forall P es;
  grows_call : onCall w' = onCall w;
  grows_errno : onErrno w' = onErrno w;
  grows_text : onText w' = onText w;
  grows_conn : onConn w' = onConn w;
}.

Lemma grows_refl P w : grows P w w.
Proof. constructor; try done. exists []. by rewrite app_nil_r. Qed.

Lemma grows_trans P w1 w2 w3 : grows P w1 w2 → grows P w2 w3 → grows P w1 w3.
Proof.
  intros [(es1 & E1 & F1)] [(es2 & E2 & F2)]. constructor; [|congruence..].
  exists (es1 ++ es2). rewrite E2, E1, <- app_assoc. split; [done|]. by apply Forall_app.
Qed.

Lemma grows_did (P : call → Prop) w c : P c → grows P w (did w c).
Proof. intros H. constructor; try done. exists [c]. split; [done|]. by apply Forall_singleton. Qed.

Lemma grows_step (P : call → Prop) w c w' : P c → grows P (did w c) w' → grows P w w'.
Proof. intros H G. eapply grows_trans; [by apply grows_did|exact G]. Qed.

#[export] Hint Resolve grows_refl grows_did : go.

(** ** The command lines of the server *)

(** The flags a daemon's child gets. *)
Lemma child_args_parse a s c k :
  ∃ vals, flag_Parse server_flags (child_args a s c k) = Ok (vals, []) ∧
    ServerFlags_of vals = MkServerFlags a "qemu-guest:sockets/h2o2" s c k false.
Proof.
  exists (<["private_key" := k]> (<["cert" := c]> (<["session_id" := s]>
           (<["daemon" := "false"]> (<["addr" := a]> ∅))))).
  split.
  - unfold flag_Parse, child_args.
    rewrite (flag_parse_text _ _ "-addr" "addr" _ _ (MkFlag "addr" false "qemu-guest:sockets/h2o")) by done.
    rewrite (flag_parse_bool _ _ "-daemon=false" "daemon" (Some "false") "false" _ (MkFlag "daemon" true "false")) by done.
    rewrite (flag_parse_text _ _ "-session_id" "session_id" _ _ (MkFlag "session_id" false "")) by done.
    rewrite (flag_parse_text _ _ "-cert" "cert" _ _ (MkFlag "cert" false "")) by done.
    by rewrite (flag_parse_text _ _ "-private_key" "private_key" _ _ (MkFlag "private_key" false "")) by done.
  - unfold ServerFlags_of, flag_getBool, flag_get. rewrite !lookup_insert, lookup_empty. reflexivity.
Qed.

Lemma server_run_flags iw f f' w pa :
  s_sessionID f = s_sessionID f' → s_cert f = s_cert f' → s_privateKey f = s_privateKey f' →
  server_run iw f w pa = server_run iw f' w pa.
Proof. intros Es Ec Ek. unfold server_run, server_serve. by rewrite Es, Ec, Ek. Qed.

(** A server that is not a daemon. *)
Lemma server_main_run iw self f w w1 (snap : bool) :
  s_daemon f = false → s_addr f ≠ "" → IsSnapshot (did w (Umask 0)) = (w1, Ok snap) →
  server_main iw self f w =
  match ParseAddr iw (if snap then s_snapshotAddr f else s_addr f) with
  | Ok pa => server_run iw f w1 pa
  | Err e => (w1, Ret (Died (Some e)))
  end.
Proof. intros Hd Ha Hs. unfold server_main. by rewrite decide_False, Hs, Hd by done. Qed.

Lemma server_process_child iw self a s c k wc w1 (snap : bool) f :
  a ≠ "" → s_sessionID f = s → s_cert f = c → s_privateKey f = k →
  IsSnapshot (did wc (Umask 0)) = (w1, Ok snap) →
  server_process iw self (child_args a s c k) wc =
  match ParseAddr iw (if snap then "qemu-guest:sockets/h2o2" else a) with
  | Ok pa => server_run iw f w1 pa
  | Err e => (w1, Ret (Died (Some e)))
  end.
Proof.
  intros Ha <- <- <- Hs. unfold server_process.
  destruct (child_args_parse a (s_sessionID f) (s_cert f) (s_privateKey f)) as (vals & -> & ->).
  rewrite (server_main_run iw self _ wc w1 snap) by done. cbn.
  destruct (ParseAddr iw _) as [pa|e]; [|done]. by apply server_run_flags.
Qed.

(** The kinds of address a daemon can hand to its child. *)
Definition forkable (k : string) : Prop := k = TCP ∨ k = Unix ∨ k = QemuGuest ∨ k = QemuCtrl.

(** The address the child has to listen on. *)
Definition child_addr (pa : ParsedAddr) : ParsedAddr :=
  if decide (Kind pa = TCP) then MkParsedAddr FDKind "" "" 3 None else pa.

(** What [forkInDaemonMode] puts after [-addr]. *)
Definition child_text (pa : ParsedAddr) : string :=
  if decide (Kind pa = TCP) then "fd:3" else Kind pa +:+ ":" +:+ AddrField pa.

Lemma forkInDaemonMode_starts w path pa s c k w' :
  forkInDaemonMode w path pa s c k = (w', None) →
  ∃ es, calls w' = calls w ++ es ++
    [ExecStart path (child_args (child_text pa) s c k)
       (if decide (Kind pa = TCP) then [LNet "tcp" (AddrField pa)] else [])].
Proof.
  unfold forkInDaemonMode, child_text, perform, ask. intros H. case_decide.
  - destruct (onCall _ _); [done|]. destruct (onCall _ _); [done|]. injection H as <- _.
    cbn [did calls]. eexists [_; _; _; _]. rewrite <- !app_assoc. reflexivity.
  - injection H as <- _. by exists [].
Qed.

Lemma child_text_nonempty pa : child_text pa ≠ "".
Proof. unfold child_text. case_decide; [done|]. by destruct (Kind pa). Qed.

(** Parsing the child's address gives the parent's address back, for the kinds that can be
    handed on; for the others it does not. *)
Lemma child_text_parse iw text pa :
  32 ≤ iw → ParseAddr iw text = Ok pa → forkable (Kind pa) →
  ParseAddr iw (child_text pa) = Ok (child_addr pa).
Proof.
  intros Hw H%ParseAddr_sound Hk. unfold child_text, child_addr. apply ParseAddr_complete.
  case_decide as Ht.
  - apply (den_fd iw "3" 3). change "3" with (fmt_int 3). apply Atoi_fmt_int; [lia|].
    assert (2 ^ (32 - 1) ≤ 2 ^ (iw - 1)) by (apply Z.pow_le_mono_r; lia). lia.
  - unfold forkable in Hk.
    destruct H as [a p H|s n E|k dir sock Hk' Hd|k sock Hk'|sock|k a Hk']; cbn [Kind AddrField] in *;
      try (exfalso; destruct_or!; subst; discriminate).
    + by apply den_guest.
    + apply den_plain. destruct_or!; subst; tauto.
Qed.

Lemma Atoi_empty iw : ∃ e, Atoi iw "" = (0, Some e).
Proof. eexists. vm_compute. reflexivity. Qed.

(** A kind the child cannot be handed: its address is not parsed, or not listened on. *)
Lemma child_text_dies iw text pa :
  ParseAddr iw text = Ok pa → ¬ forkable (Kind pa) →
  match ParseAddr iw (child_text pa) with
  | Err _ => True
  | Ok pa' => ∀ w, ∃ e, server_listen iw w pa' = (w, Ret (inr e))
  end.
Proof.
  intros H%ParseAddr_sound Hk. unfold child_text. unfold forkable in Hk.
  rewrite decide_False by tauto.
  destruct H as [a p H|s n E|k dir sock Hk' Hd|k sock Hk'|sock|k a Hk']; cbn [Kind AddrField] in *.
  - rewrite ParseAddr_kind by done. done.
  - rewrite ParseAddr_kind by done. cbn -[Atoi]. by destruct (Atoi_empty iw) as [e ->].
  - rewrite ParseAddr_kind by (by destruct Hk'; subst). destruct Hk'; subst k; cbn -[SplitN];
      rewrite SplitN_2; rewrite (proj2 (cut_char_None ":" dir)) by done; done.
  - exfalso. tauto.
  - rewrite ParseAddr_kind by done. cbn. intros w. unfold server_listen. cbn -[Atoi].
    destruct (Atoi_empty iw) as [e ->]. by eexists.
  - assert (k = USB) as -> by tauto. rewrite ParseAddr_kind by done. cbn. intros w.
    unfold server_listen. cbn. by eexists.
Qed.

(** ** How the server is protected *)

(** A [Serve] of the server that runs with flags [f]. *)
Definition serve_ok (f : ServerFlags) (c : call) : Prop :=
  match c with
  | Serve _ tls auth =>
      s_daemon f = false ∧
      (tls = true ↔ s_cert f ≠ "" ∧ s_privateKey f ≠ "") ∧ (s_cert f = "" ↔ s_privateKey f = "") ∧
      auth = (if decide (s_sessionID f ≠ "") then Some (NewAuthInterceptor (s_sessionID f)) else None)
  | _ => True
  end.

Lemma open_or_die_grows (P : call → Prop) w l w' r :
  P (OpenL l) → open_or_die w l = (w', r) → grows P w w'.
Proof. unfold open_or_die, perform. intros H. case_match; intros [= <- _]; by apply grows_did. Qed.

Lemma pipe_or_die_grows (P : call → Prop) w sock mk w' r :
  (∀ n, P (StatFile n)) → pipe_or_die w sock mk = (w', r) → grows P w w'.
Proof.
  intros H. pose proof (grows_did P w (StatFile vsockDriver) (H _)) as G1.
  pose proof (grows_did P (did w (StatFile vsockDriver)) (StatFile qemuDriver) (H _)) as G2.
  unfold pipe_or_die, MakePipe, sys.
  destruct (onErrno (did w _) _); [destruct (onErrno (did (did w _) _) _)|]; intros [= <- _];
    [by eapply grows_trans..|done].
Qed.

Lemma server_listen_grows (P : call → Prop) iw w pa w' r :
  (∀ l, P (OpenL l)) → (∀ n, P (StatFile n)) → server_listen iw w pa = (w', r) → grows P w w'.
Proof.
  intros Ho Hs. unfold server_listen.
  repeat case_decide;
    try (intros HE; solve [eauto using pipe_or_die_grows, open_or_die_grows]).
  - destruct (Atoi iw (SocketName pa)) as [p [e|]]; [by intros [= <- _]; apply grows_refl|].
    intros HE. eauto using open_or_die_grows.
  - destruct (MuxAddr pa); intros [= <- _]; auto with go.
  - intros [= <- _]. apply grows_refl.
Qed.

(** The calls from [Serve] on. *)
Lemma serve_grows f w l tls auth :
  serve_ok f (Serve l tls auth) → grows (serve_ok f) w (did (did w (Serve l tls auth)) (CloseL l)).
Proof. intros H. eapply grows_step; [exact H|]. by apply grows_did. Qed.

Lemma server_serve_grows f w l w' st :
  s_daemon f = false → server_serve f w l = (w', st) → grows (serve_ok f) w w'.
Proof.
  intros Hd. unfold server_serve, makeCredentials.
  destruct (decide (s_cert f ≠ "" ∨ s_privateKey f ≠ "")) as [Hs|Hs];
    [destruct (decide (s_cert f = "" ∨ s_privateKey f = "")) as [He|He]|].
  - intros [= <- _]. apply grows_refl.
  - unfold perform at 1. destruct (onCall _ _); intros [= <- _]; [by apply grows_did|].
    apply (grows_step _ _ (LoadX509KeyPair (s_cert f) (s_privateKey f))); [exact I|].
    apply serve_grows. cbn. split_and!; [done| | |done]; tauto.
  - intros [= <- _]. apply serve_grows. cbn.
    destruct (decide (s_cert f = "")), (decide (s_privateKey f = "")); try tauto.
    split_and!; [done| | |done]; naive_solver.
Qed.

Lemma IsSnapshot_grows (P : call → Prop) w w' r : P (GetProp snapshotProp) → IsSnapshot w = (w', r) → grows P w w'.
Proof.
  unfold IsSnapshot, ask. intros H. destruct (onText _ _); intros [= <- _]; by apply grows_did.
Qed.

Lemma forkInDaemonMode_grows f w path pa s c k w' r :
  forkInDaemonMode w path pa s c k = (w', r) → grows (serve_ok f) w w'.
Proof.
  unfold forkInDaemonMode, perform, ask. case_decide.
  - destruct (onCall _ _); [|destruct (onCall _ _)]; intros [= <- _];
      repeat first [by apply grows_did | eapply grows_trans; [|by apply grows_did]].
  - intros [= <- _]. by apply grows_did.
Qed.

Lemma server_main_grows iw self f w w' o :
  server_main iw self f w = (w', o) → grows (serve_ok f) w w'.
Proof.
  unfold server_main. intros H. apply (grows_step _ _ (Umask 0)); [exact I|].
  case_decide; [injection H as <- _; apply grows_refl|].
  destruct (IsSnapshot _) as [w1 r] eqn:ES. apply (IsSnapshot_grows (serve_ok f)) in ES; [|exact I].
  eapply grows_trans; [exact ES|]. destruct r as [snap|e]; [|injection H as <- _; apply grows_refl].
  destruct (ParseAddr iw _) as [pa|e]; [|injection H as <- _; apply grows_refl].
  destruct (s_daemon f) eqn:Ed.
  - destruct (forkInDaemonMode _ _ _ _ _ _) as [w2 r] eqn:EF. apply (forkInDaemonMode_grows f) in EF.
    by destruct r; injection H as <- _.
  - unfold server_run in H. destruct (server_listen iw w1 pa) as [w2 r] eqn:EL.
    apply (server_listen_grows (serve_ok f)) in EL; [|done..]. eapply grows_trans; [exact EL|].
    destruct r as [[l|e]| |]; try (injection H as <- _; apply grows_refl).
    destruct (server_serve f w2 l) as [w3 st] eqn:EV. injection H as <- _. by eapply server_serve_grows.
Qed.

(** ** Properties of the server *)

(** C27: a daemon hands its child an address it can use: when the parent returns, the last thing it
    did was start itself with a command line from which the child, unless the device says it is
    a snapshot, listens on what the parent was told to (for TCP, on the listener of the
    parent, as descriptor 3), with the same session and keys.  That holds for tcp, unix,
    qemu-guest and qemu2 addresses; with any other address the parent succeeds and the child
    dies, and on a snapshot the child listens on the default snapshot address. *)
Theorem daemon_child_listens iw self f w w' :
  32 ≤ iw → s_daemon f = true → server_main iw self f w = (w', Ret Returned) →
  ∃ text pa es args files,
    ParseAddr iw text = Ok pa ∧ (text = s_addr f ∨ text = s_snapshotAddr f) ∧
    calls w' = calls w ++ es ++ [ExecStart self args files] ∧
    files = (if decide (Kind pa = TCP) then [LNet "tcp" (AddrField pa)] else []) ∧
    ∀ wc w1 snap, IsSnapshot (did wc (Umask 0)) = (w1, Ok snap) →
      let child := server_process iw self args wc in
      if (snap : bool) then child = server_run iw f w1 (MkParsedAddr QemuGuest "sockets/h2o2" "sockets/h2o2" 0 None)
      else (forkable (Kind pa) → child = server_run iw f w1 (child_addr pa)) ∧
           (¬ forkable (Kind pa) → ∃ e, child = (w1, Ret (Died e))).
Proof.
  intros Hw Hd. unfold server_main. case_decide; [done|].
  destruct (IsSnapshot (did w (Umask 0))) as [w1 r] eqn:ES.
  assert (G := ES). apply (IsSnapshot_grows (λ _, True)) in G; [|done]. destruct G as [(es1 & E1 & _) _ _ _ _].
  destruct r as [snap|e]; [|done].
  set (text := if snap then s_snapshotAddr f else s_addr f).
  destruct (ParseAddr iw text) as [pa|e] eqn:EP; [|done]. rewrite Hd.
  destruct (forkInDaemonMode _ _ _ _ _ _) as [w2 [e|]] eqn:EF; [done|]. intros [= <-].
  apply forkInDaemonMode_starts in EF as [es2 E2].
  exists text, pa, ([Umask 0] ++ es1 ++ es2). do 2 eexists. split_and!; [done| | |done|].
  { unfold text. destruct snap; tauto. }
  { rewrite E2, E1. cbn [did calls]. by rewrite <- !app_assoc. }
  intros wc w3 snap' HS. cbv zeta.
  rewrite (server_process_child iw self _ _ _ _ _ w3 snap' f (child_text_nonempty pa) eq_refl eq_refl eq_refl HS).
  destruct snap'; [reflexivity|]. split; intros Hk.
  - by rewrite (child_text_parse iw text pa Hw EP Hk).
  - pose proof (child_text_dies iw text pa EP Hk) as HD.
    destruct (ParseAddr iw (child_text pa)) as [pa'|e]; [|by eexists].
    destruct (HD w3) as [e HL]. exists e. unfold server_run. by rewrite HL.
Qed.

(** C28: whenever the server serves, it is protected the way its flags say: with TLS exactly when a
    certificate and a key were given (never with only one of them), and letting through
    exactly the requests that carry the session, or all when there is no session. *)
Theorem server_protected iw self f w w' o es l tls auth :
  server_main iw self f w = (w', o) → calls w' = calls w ++ es → Serve l tls auth ∈ es →
  s_daemon f = false ∧
  (tls = true ↔ s_cert f ≠ "" ∧ s_privateKey f ≠ "") ∧ (s_cert f = "" ↔ s_privateKey f = "") ∧
  ∀ md, match auth with Some a => authorize a md | None => None end = None ↔
        carries_session (NewAuthInterceptor (s_sessionID f)) md.
Proof.
  intros H HE Hin. apply server_main_grows in H as [(es' & E & HF) _ _ _ _].
  rewrite HE in E. apply app_inv_head in E as <-.
  apply (proj1 (Forall_in _ _) HF) in Hin as (Hd & Ht & Hc & ->). split_and!; [done..|].
  intros md. case_decide as Hs; [apply authorize_None|]. cbn. unfold carries_session.
  split; [|done]. intros _. left. by destruct (decide (s_sessionID f = "")).
Qed.

(** ** What the forwarder listens on *)

(** The listeners and builders created in a history, in order. *)
Definition opened_by (c : call) : option listener := match c with OpenL l => Some l | _ => None end.
Definition opened_in (es : list call) : list listener := omap opened_by es.

(** The listener for one address of [-listen_addr]; the other kinds have none. *)
Definition listener_of (a : ParsedAddr) : option listener :=
  if decide (Kind a = QemuHost) then Some (LQemu (AddrField a) (SocketName a))
  else if decide (Kind a = Unix ∨ Kind a = TCP) then Some (LNet (Kind a) (AddrField a))
  else None.

Lemma opened_in_app es1 es2 : opened_in (es1 ++ es2) = opened_in es1 ++ opened_in es2.
Proof. apply omap_app. Qed.

Lemma MakeConnBuilder_opens w dir sock w' :
  MakeConnBuilder w dir sock = (w', None) →
  ∃ es, calls w' = calls w ++ es ∧ opened_in es = [LQemu dir sock].
Proof.
  unfold MakeConnBuilder, ask, perform, sys. destruct (onText _ _) as [wd|]; [|done].
  destruct (decide (wd ≠ dir)).
  - destruct (onCall _ _); [done|]. destruct (if decide _ then _ else _); [done|].
    destruct (onCall _ _); [done|]. destruct (onCall _ _); [done|]. intros [= <-].
    exists [Getwd; Chdir dir; RemoveFile sock; OpenL (LQemu dir sock); Chdir wd].
    cbn [did calls]. by rewrite <- !app_assoc.
  - destruct (if decide _ then _ else _); [done|]. destruct (onCall _ _); [done|]. intros [= <-].
    exists [Getwd; RemoveFile sock; OpenL (LQemu dir sock)]. cbn [did calls]. by rewrite <- !app_assoc.
Qed.

Lemma open_listeners_opens w addrs acc w' ls :
  open_listeners w addrs acc = (w', inl ls) →
  ls = acc ++ omap listener_of addrs ∧
  ∃ es, calls w' = calls w ++ es ∧ opened_in es = omap listener_of addrs.
Proof.
  revert w acc. induction addrs as [|a addrs IH]; intros w acc; cbn [open_listeners].
  { intros [= <- <-]. split; [by rewrite app_nil_r|]. exists []. by rewrite app_nil_r. }
  cbn [omap list_omap]. unfold listener_of at 1 4. repeat case_decide.
  - destruct (MakeConnBuilder _ _ _) as [w1 [e|]] eqn:E; [done|].
    apply MakeConnBuilder_opens in E as (es1 & E1 & O1). intros HI. apply IH in HI as (-> & es2 & E2 & O2).
    split; [by rewrite <- app_assoc|]. exists (es1 ++ es2).
    rewrite E2, E1, <- app_assoc, opened_in_app, O1, O2. done.
  - unfold perform. destruct (onCall _ _); [done|]. intros HI. apply IH in HI as (-> & es2 & E2 & O2).
    split; [by rewrite <- app_assoc|]. eexists (_ :: es2). rewrite E2. cbn [did calls].
    rewrite <- app_assoc. split; [reflexivity|]. cbn. by rewrite <- O2.
  - apply IH.
Qed.

(** The builder opens itself, and nothing else. *)
Lemma connect_builder_opens iw w cpa w' b :
  connect_builder iw w cpa = (w', Ret (inl b)) →
  ∃ es, calls w' = calls w ++ es ∧ Forall (λ l, l = b) (opened_in es).
Proof.
  unfold connect_builder, open_or_die, perform. repeat case_decide.
  - destruct (MakeConnBuilder _ _ _) as [w1 [e|]] eqn:E; [done|].
    apply MakeConnBuilder_opens in E as (es & E & O). intros [= <- <-]. exists es. rewrite O. split; [done|].
    by apply Forall_singleton.
  - unfold pipe_or_die, MakePipe, sys. destruct (onErrno _ _); [destruct (onErrno _ _); [done|]|]; intros [= <- <-].
    + exists [StatFile vsockDriver; StatFile qemuDriver]. cbn [did calls]. rewrite <- app_assoc.
      split; [done|constructor].
    + exists [StatFile vsockDriver]. split; [done|constructor].
  - intros [= <- <-]. exists []. rewrite app_nil_r. split; [done|constructor].
  - destruct (Atoi iw _) as [cid [e|]]; [done|]. destruct (Atoi iw _) as [port [e|]]; [done|].
    intros [= <- <-]. exists []. rewrite app_nil_r. split; [done|constructor].
  - destruct (MuxAddr cpa) as [m|]; [|done]. destruct (onCall _ _); [done|]. destruct (onCall _ _); [done|].
    intros [= <- <-]. exists [NetDial (Kind m) (AddrField m); OpenL (LMuxDial (Kind m) (AddrField m))].
    cbn [did calls]. rewrite <- app_assoc. split; [done|]. by apply Forall_singleton.
  - done.
Qed.

(** C29: the forwarder listens on nothing until the other side has answered: it first makes its
    builder, takes one connection from it and closes it, and only then opens, in order, one
    listener for each qemu, unix or tcp address of its list; an address of any other kind is
    passed over without an error. *)
Theorem forward_listens iw listenAddr connectAddr w w' b ls :
  forward_main iw listenAddr connectAddr w = (w', Ret (inl (b, ls))) →
  ∃ addrs cpa w1 es1 cy es2,
    parse_addrs iw (Split listenAddr ",") = Ok addrs ∧ ParseAddr iw connectAddr = Ok cpa ∧
    connect_builder iw w cpa = (w1, Ret (inl b)) ∧
    calls w' = calls w ++ es1 ++ [Accept b; CloseConn cy] ++ es2 ∧
    Forall (λ l, l = b) (opened_in es1) ∧
    opened_in es2 = ls ∧ ls = omap listener_of addrs.
Proof.
  unfold forward_main, accept. case_decide; [done|].
  destruct (parse_addrs iw _) as [addrs|e]; [|done]. destruct (ParseAddr iw connectAddr) as [cpa|e]; [|done].
  destruct (connect_builder iw w cpa) as [w1 [[b'|e]| |]] eqn:EB; try done.
  assert (O := EB). apply connect_builder_opens in O as (es1 & E1 & O1).
  destruct (onConn _ _) as [cy|e]; [|done].
  destruct (open_listeners _ _ _) as [w2 [ls'|e]] eqn:EL; [|done]. intros [= <- <- <-].
  apply open_listeners_opens in EL as (HL & es2 & E2 & O2). cbn [app] in HL. subst ls'.
  exists addrs, cpa, w1, es1, cy, es2. split_and!; try done.
  rewrite E2. cbn [did calls]. by rewrite E1, <- !app_assoc.
Qed.

(** Context and port numbers are cut to 32 bits: a vsock address is dialed or listened on with
    numbers from 0 to 2^32 - 1, congruent to the integers the text denotes; a text
    whose integer does not fit in an [int] is refused, one that only exceeds 32 bits is not. *)
Theorem vsock_numbers_wrap iw w cpa spa :
  1 ≤ iw → Kind cpa = VsockHost → Kind spa = VsockGuest →
  (∀ w1 b, connect_builder iw w cpa = (w1, Ret (inl b)) →
     ∃ cid port, b = LVsock (cid mod 2 ^ 32) (port mod 2 ^ 32) ∧ 0 ≤ cid mod 2 ^ 32 < 2 ^ 32 ∧
       0 ≤ port mod 2 ^ 32 < 2 ^ 32 ∧ - 2 ^ (iw - 1) ≤ cid < 2 ^ (iw - 1) ∧ - 2 ^ (iw - 1) ≤ port < 2 ^ (iw - 1) ∧
       Atoi iw (AddrField cpa) = (cid, None) ∧ Atoi iw (SocketName cpa) = (port, None)) ∧
  (∀ p, Atoi iw (SocketName spa) = (p, None) →
     server_listen iw w spa = open_or_die w (LVsockListen (p mod 2 ^ 32)) ∧ 0 ≤ p mod 2 ^ 32 < 2 ^ 32).
Proof.
  intros Hw Hc Hs. split.
  - intros w1 b. unfold connect_builder. rewrite Hc. cbn -[Atoi].
    destruct (Atoi iw (AddrField cpa)) as [cid [e|]] eqn:E1; [done|].
    destruct (Atoi iw (SocketName cpa)) as [port [e|]] eqn:E2; [done|]. intros [= <- <-].
    pose proof (Atoi_range _ _ _ Hw E1). pose proof (Atoi_range _ _ _ Hw E2).
    exists cid, port. unfold to_uint. split_and!; try done; try lia; apply Z.mod_pos_bound; lia.
  - intros p Hp. unfold server_listen. rewrite Hs. cbn -[Atoi]. rewrite Hp. split; [done|].
    apply Z.mod_pos_bound. lia.
Qed.

(** ** Concrete runs *)

(** A machine where every call succeeds; [prop] is the snapshot property. *)
Definition demo_world (prop : string) : World :=
  MkWorld [] (λ _, None) (λ _, None)
    (λ tr, Ok (match List.last tr Getwd with GetProp _ => prop | AddrOf _ => "127.0.0.1:8088" | _ => "/" end))
    (λ tr, Ok (length tr)).

Definition demo_flags (addr : string) (daemon : bool) : ServerFlags :=
  MkServerFlags addr addr "s3cret" "" "" daemon.

(** A TCP daemon: the child serves the listener of the parent. *)
Lemma daemon_child_listens_witness :
  let P := server_main 64 "waterfall" (demo_flags "tcp:localhost:0" true) (demo_world "0") in
  P.2 = Ret Returned ∧
  ∃ args, ExecStart "waterfall" args [LNet "tcp" "localhost:0"] ∈ calls P.1 ∧
    ∀ wc w1, IsSnapshot (did wc (Umask 0)) = (w1, Ok false) →
      server_process 64 "waterfall" args wc =
      server_run 64 (demo_flags "tcp:localhost:0" true) w1 (MkParsedAddr FDKind "" "" 3 None).
Proof.
  intros P. assert (P.2 = Ret Returned) as E by (vm_compute; reflexivity). split; [exact E|].
  assert (P = (P.1, Ret Returned)) as EP by (rewrite <- E; apply surjective_pairing).
  destruct (daemon_child_listens 64 "waterfall" (demo_flags "tcp:localhost:0" true) (demo_world "0") P.1
              ltac:(lia) eq_refl EP) as (text & pa & es & args & files & Hpa & Htext & Hc & Hf & Hch).
  assert (text = "tcp:localhost:0") as -> by (destruct Htext; assumption).
  assert (ParseAddr 64 "tcp:localhost:0" = Ok (MkParsedAddr TCP "localhost:0" "" 0 None)) as Epa
    by (vm_compute; reflexivity).
  rewrite Epa in Hpa. injection Hpa as <-.
  exists args. split.
  - rewrite Hc, Hf. apply elem_of_app. right. apply elem_of_app. right. by apply list_elem_of_singleton.
  - intros wc w1 HS. apply (Hch wc w1 false HS). by left.
Defined.

(** A server with a session and no certificate. *)
Lemma server_protected_witness :
  let P := server_main 64 "waterfall" (demo_flags "tcp:localhost:0" false) (demo_world "0") in
  let auth := Some (NewAuthInterceptor "s3cret") in
  Serve (LNet "tcp" "localhost:0") false auth ∈ calls P.1 ∧
  ∀ md, match auth with Some a => authorize a md | None => None end = None ↔
        carries_session (NewAuthInterceptor "s3cret") md.
Proof.
  intros P auth.
  assert (calls P.1 = [Umask 0; GetProp snapshotProp; OpenL (LNet "tcp" "localhost:0");
                       Serve (LNet "tcp" "localhost:0") false auth; CloseL (LNet "tcp" "localhost:0")]) as E
    by (vm_compute; reflexivity).
  assert (Serve (LNet "tcp" "localhost:0") false auth ∈ calls P.1) as Hin
    by (rewrite E; do 3 right; left).
  split; [exact Hin|].
  apply (server_protected 64 "waterfall" (demo_flags "tcp:localhost:0" false) (demo_world "0") P.1 P.2 (calls P.1)
           (LNet "tcp" "localhost:0") false auth (surjective_pairing P) eq_refl Hin).
Defined.

(** Two listeners, and a USB address that is passed over. *)
Lemma forward_listens_witness :
  let P := forward_main 64 "unix:@h2o,usb:x,tcp:localhost:8080" "qemu-guest:sockets/h2o" (demo_world "0") in
  P.2 = Ret (inl (LPipe "sockets/h2o" true, [LNet "unix" "@h2o"; LNet "tcp" "localhost:8080"])) ∧
  ∃ es1 cy es2, calls P.1 = es1 ++ [Accept (LPipe "sockets/h2o" true); CloseConn cy] ++ es2 ∧
    opened_in es2 = [LNet "unix" "@h2o"; LNet "tcp" "localhost:8080"].
Proof.
  intros P.
  assert (P.2 = Ret (inl (LPipe "sockets/h2o" true, [LNet "unix" "@h2o"; LNet "tcp" "localhost:8080"]))) as E
    by (vm_compute; reflexivity).
  split; [exact E|].
  assert (P = (P.1, Ret (inl (LPipe "sockets/h2o" true, [LNet "unix" "@h2o"; LNet "tcp" "localhost:8080"])))) as EP
    by (rewrite <- E; apply surjective_pairing).
  destruct (forward_listens _ _ _ _ _ _ _ EP) as (addrs & cpa & w1 & es1 & cy & es2 & _ & _ & _ & H & _ & Ho & _).
  exists es1, cy, es2. split; [exact H|exact Ho].
Defined.

(** A port that does not fit in 32 bits is cut, not refused. *)
Lemma vsock_numbers_wrap_witness :
  let cpa := MkParsedAddr VsockHost "3" "4294972296" 0 None in
  let spa := MkParsedAddr VsockGuest "" "4294972296" 0 None in
  connect_builder 64 (demo_world "0") cpa = (demo_world "0", Ret (inl (LVsock 3 5000))) ∧
  server_listen 64 (demo_world "0") spa = open_or_die (demo_world "0") (LVsockListen (4294972296 mod 2 ^ 32)).
Proof.
  intros cpa spa. split; [vm_compute; reflexivity|].
  apply (vsock_numbers_wrap 64 (demo_world "0") cpa spa ltac:(lia) eq_refl eq_refl). vm_compute. reflexivity.
Defined.
