(* ===== verification/Launch.v ===== *)
(** * The binaries together: the processes the bootstraps start

    bootstrap.go, bootstrap_usb_bin.go and forkfd.go start the binaries of Binaries.v with
    command lines.  Here everything a bootstrap does is collected from its runs in Bootstrap.v
    ([Bootstrap_events], [usb_main_done]), the command lines and addresses in it are given to the
    binaries' own flag parsing and mains, and what the two ends open is compared; forkfd's loop
    is followed to the connection it hands on. *)

From S2P Require Import Prelude GoStrings Addr GoFlags Auth Fs Host AdbDevice Bootstrap Binaries.

Local Open Scope Z_scope.

(** ** Command lines *)

(** The server started with an address only. *)
Definition plain_flags (a : string) : ServerFlags :=
  MkServerFlags a "qemu-guest:sockets/h2o2" "" "" "" false.

Lemma server_addr_process iw self tok a wc w1 (snap : bool) :
  flag_token tok = TFlag "addr" None → a ≠ "" → IsSnapshot (did wc (Umask 0)) = (w1, Ok snap) →
  server_process iw self [tok; a] wc =
  match ParseAddr iw (if snap then "qemu-guest:sockets/h2o2" else a) with
  | Ok pa => server_run iw (plain_flags a) w1 pa
  | Err e => (w1, Ret (Died (Some e)))
  end.
Proof.
  intros Ht Ha Hs. unfold server_process, flag_Parse.
  rewrite (flag_parse_text _ _ tok "addr" _ _ (MkFlag "addr" false "qemu-guest:sockets/h2o")) by done.
  cbn [flag_parse].
  assert (ServerFlags_of (<["addr" := a]> ∅) = plain_flags a) as ->.
  { unfold ServerFlags_of, flag_getBool, flag_get. rewrite !lookup_insert, !lookup_empty. reflexivity. }
  by rewrite (server_main_run iw self _ wc w1 snap) by done.
Qed.

(** A binary with the forwarders' two flags, as the bootstraps give them. *)
Lemma forward_args_get c l :
  ∃ vals, flag_Parse forward_flags ["-connect_addr"; c; "-listen_addr"; l] = Ok (vals, []) ∧
    flag_get forward_flags vals "listen_addr" = l ∧ flag_get forward_flags vals "connect_addr" = c.
Proof.
  exists (<["listen_addr" := l]> (<["connect_addr" := c]> ∅)). split_and!.
  - unfold flag_Parse.
    rewrite (flag_parse_text _ _ "-connect_addr" "connect_addr" _ _ (MkFlag "connect_addr" false "")) by done.
    by rewrite (flag_parse_text _ _ "-listen_addr" "listen_addr" _ _ (MkFlag "listen_addr" false "")) by done.
  - unfold flag_get. by rewrite lookup_insert.
  - unfold flag_get. by rewrite !lookup_insert.
Qed.

Lemma parse_unix iw a : ParseAddr iw ("unix:" +:+ a) = Ok (MkParsedAddr Unix a "" 0 None).
Proof. apply ParseAddr_complete, (den_plain iw Unix a). tauto. Qed.

Lemma parse_qemu iw dir sock :
  has_char ":" dir = false →
  ParseAddr iw ("qemu:" +:+ dir +:+ ":" +:+ sock) = Ok (MkParsedAddr QemuHost dir sock 0 None).
Proof. intros H. apply ParseAddr_complete, (den_host iw QemuHost dir sock); [by left|done]. Qed.

Lemma parse_guest iw sock : ParseAddr iw ("qemu-guest:" +:+ sock) = Ok (MkParsedAddr QemuGuest sock sock 0 None).
Proof. apply ParseAddr_complete, (den_guest iw QemuGuest sock). tauto. Qed.

Lemma parse_mux_usb iw serial :
  ParseAddr iw ("mux:usb:" +:+ serial) =
  Ok (MkParsedAddr Mux "" "" 0 (Some (MkParsedAddr USB serial "" 0 None))).
Proof. apply ParseAddr_complete, (den_mux iw ("usb:" +:+ serial)), (den_plain iw USB). tauto. Qed.

Lemma parse_mux_fd3 iw :
  32 ≤ iw → ParseAddr iw "mux:fd:3" = Ok (MkParsedAddr Mux "" "" 0 (Some (MkParsedAddr FDKind "" "" 3 None))).
Proof.
  intros Hw. apply ParseAddr_complete, (den_mux iw "fd:3"), (den_fd iw "3").
  change "3" with (fmt_int 3). apply Atoi_fmt_int; [lia|].
  assert (2 ^ (32 - 1) ≤ 2 ^ (iw - 1)) by (apply Z.pow_le_mono_r; lia). lia.
Qed.

(** The one address of a [-listen_addr] without commas. *)
Lemma parse_addrs_single iw l p :
  has_char "," l = false → ParseAddr iw l = Ok p → parse_addrs iw (Split l ",") = Ok [p].
Proof. intros Hc Hp. rewrite (Split_char_none ",") by done. cbn. by rewrite Hp. Qed.

(** ** forkfd's command lines *)

Definition not_a_flag (rest : list string) : Prop :=
  match rest with [] => True | s :: _ => flag_token s = TRest end.

Lemma forkfd_fork_args a bin rest :
  not_a_flag rest →
  ∃ vals, flag_Parse forkfd_flags (["-fork"; "-binary_to_launch"; bin; "--addr"; a] ++ rest) = Ok (vals, rest) ∧
    flag_get forkfd_flags vals "addr" = a ∧ flag_get forkfd_flags vals "binary_to_launch" = bin ∧
    flag_getBool forkfd_flags vals "fork" = true.
Proof.
  intros Hr. exists (<["addr" := a]> (<["binary_to_launch" := bin]> (<["fork" := "true"]> ∅))). split_and!.
  - unfold flag_Parse. cbn [app].
    rewrite (flag_parse_bool _ _ "-fork" "fork" None "true" _ (MkFlag "fork" true "false")) by done.
    rewrite (flag_parse_text _ _ "-binary_to_launch" "binary_to_launch" _ _ (MkFlag "binary_to_launch" false "")) by done.
    rewrite (flag_parse_text _ _ "--addr" "addr" _ _ (MkFlag "addr" false "localhost:8080")) by done.
    destruct rest; [done|]. by apply flag_parse_rest.
  - unfold flag_get. by rewrite lookup_insert.
  - unfold flag_get. by rewrite !lookup_insert.
  - unfold flag_getBool, flag_get. by rewrite !lookup_insert.
Qed.

Lemma forkfd_child_args a bin :
  ∃ vals, flag_Parse forkfd_flags ["-addr"; a; "-binary_to_launch"; bin] = Ok (vals, []) ∧
    flag_get forkfd_flags vals "addr" = a ∧ flag_get forkfd_flags vals "binary_to_launch" = bin ∧
    flag_getBool forkfd_flags vals "fork" = false.
Proof.
  exists (<["binary_to_launch" := bin]> (<["addr" := a]> ∅)). split_and!.
  - unfold flag_Parse.
    rewrite (flag_parse_text _ _ "-addr" "addr" _ _ (MkFlag "addr" false "localhost:8080")) by done.
    by rewrite (flag_parse_text _ _ "-binary_to_launch" "binary_to_launch" _ _ (MkFlag "binary_to_launch" false "")) by done.
  - unfold flag_get. by rewrite !lookup_insert.
  - unfold flag_get. by rewrite lookup_insert.
  - unfold flag_getBool, flag_get. by rewrite !lookup_insert, lookup_empty.
Qed.

(** ** The events of a bootstrap *)

Section events.
(** Events of some kind, those of running adb and of touching files among them. *)
Context (P : event → Prop).
Context (HRun : ∀ prog args, P (Run prog args)) (HStat : ∀ path, P (StatPath path)).
Context (HTemp : ∀ pat, P (TempDir pat)) (HRm : ∀ path, P (RemovePath path)).

Lemma adb_run_events a w args a' w' r :
  adb_run a w args = (a', w', r) → same_device a a' ∧ later P w w'.
Proof.
  intros ([Hs [_ H1 H2 H3 H4]] & Ht & _)%adb_run_ok. split; [done|].
  constructor; try done. eexists. split; [done|]. by apply Forall_singleton.
Qed.

Lemma Push_events a w src dst a' w' r :
  Push a w src dst = (a', w', r) → same_device a a' ∧ later P w w'.
Proof.
  unfold Push. destruct (adb_run a w _) as [[a1 w1] [o err]] eqn:E. apply adb_run_events in E.
  destruct err; by intros [= <- <- <-].
Qed.

Lemma ForwardAbstract_events a w l r0 a' w' r :
  ForwardAbstract a w l r0 = (a', w', r) → same_device a a' ∧ later P w w'.
Proof.
  unfold ForwardAbstract. destruct (adb_run a w _) as [[a1 w1] [o err]] eqn:E. apply adb_run_events in E.
  destruct err; by intros [= <- <- <-].
Qed.

Lemma Shell_events iw a w args a' w' r :
  Shell iw a w args = (a', w', r) → same_device a a' ∧ later P w w'.
Proof.
  unfold Shell. destruct (adb_run a w _) as [[a1 w1] [o err]] eqn:E. apply adb_run_events in E.
  destruct err; by intros [= <- <- <-].
Qed.

Lemma waterfallPath_events iw a w paths a' w' r :
  waterfallPath iw a w paths = (a', w', r) → same_device a a' ∧ later P w w'.
Proof.
  unfold waterfallPath, AbiList, getprop. destruct (Shell iw a w _) as [[a1 w1] o] eqn:E.
  apply Shell_events in E. by intros [= <- <- <-].
Qed.

Lemma pingServer_events w addr w' r :
  P (Dial addr) → P (EchoCall addr helloMsg) → pingServer w addr = (w', r) → later P w w'.
Proof.
  intros Hd He. unfold pingServer, dial, echo. cbn.
  assert (later P w (record w (Dial addr))) as H1 by by apply later_record.
  destruct (onDial w _); [by intros [= <- _]|].
  destruct (onEcho w _); [case_decide|]; intros [= <- _];
    (eapply later_trans; [exact H1|by apply later_record]).
Qed.

Lemma retry_events w addr w' r :
  P (Dial addr) → P (EchoCall addr helloMsg) →
  retry (λ w, pingServer w addr) 3 w = (w', r) → later P w w'.
Proof.
  intros Hd He. unfold retry. generalize (@None error). generalize (Z.to_nat 3) as n. intros n.
  revert w. induction n as [|n IH]; intros w err; cbn [retry_loop]; [intros [= <- _]; apply later_refl|].
  destruct (pingServer w addr) as [w1 [e|]] eqn:E; apply pingServer_events in E; try done.
  - intros H. eapply later_trans; [exact E|]. by eapply IH.
  - by intros [= <- _].
Qed.

Lemma verify_events a w lisAddr ss sf a' w' r :
  P (Dial lisAddr) → P (EchoCall lisAddr helloMsg) → verify a w lisAddr ss sf = (a', w', r) → later P w w'.
Proof.
  intros Hd He. unfold verify. destruct (retry _ 3 w) as [w1 e] eqn:E. apply retry_events in E; [|done..].
  by destruct e; intros [= _ <- _].
Qed.

Lemma startWaterfall_events a w wtf addr a' w' r :
  (∀ name, P (WriteFile name (waterfallSh waterfallBinPath addr))) → P (server_event a) →
  startWaterfall a w wtf addr = (a', w', r) → later P w w'.
Proof.
  intros HW HS. unfold startWaterfall. destruct (Push a w _ _) as [[a1 w1] e1] eqn:E1.
  apply Push_events in E1 as [S1 L1]. destruct e1; [by intros [= _ <- _]|].
  unfold tempDir, writeFile. cbn zeta.
  set (w2 := record w1 (TempDir "waterfall")). set (w3 := record w2 (WriteFile _ _)).
  assert (later P w w3) as L3.
  { eapply later_trans; [exact L1|]. eapply later_trans; by apply later_record. }
  assert (∀ dir w', later P w w' → later P w (removeAll w' dir)) as Hrm.
  { intros dir w4 H. eapply later_trans; [exact H|]. by apply later_record. }
  destruct (onWrite w3 (trace w3)); [intros [= _ <- _]; by apply Hrm|].
  destruct (Push a1 w3 _ _) as [[a4 w4] e4] eqn:E4. apply Push_events in E4 as [S4 L4].
  pose proof (later_trans _ _ _ _ L3 L4) as L34. destruct e4; [intros [= _ <- _]; by apply Hrm|].
  destruct (StartCmd a4 w4 waterfallScriptPath) as [[a5 w5] err] eqn:E5. intros [= _ <- _]. apply Hrm.
  eapply later_trans; [exact L34|]. unfold StartCmd in E5. pose proof (deviceArgs_spec a4) as [Hs Hf].
  destruct (deviceArgs a4) as [a6 da]. cbn in Hs, Hf. subst da. unfold start in E5.
  pose proof (same_device_trans _ _ _ S1 S4) as S14. pose proof (same_device_trans _ _ _ S14 Hs) as (Hp & _).
  destruct S14 as (_ & _ & Hfl).
  replace w5 with (record w4 (server_event a)); [by apply later_record|].
  unfold server_event. rewrite <- Hp, <- Hfl. destruct (onStart _ _); by injection E5.
Qed.

(** All events of [Bootstrap], however it ends. *)
Lemma Bootstrap_events iw a w bins bin socketDir socketName a' w' r :
  let lisAddr := "unix:@h2o_" +:+ DeviceName a in
  P (Dial lisAddr) → P (EchoCall lisAddr helloMsg) → P (server_event a) →
  (socketDir ≠ "" → P (forwarder_event bin lisAddr socketDir socketName)) →
  (∀ name, P (WriteFile name (waterfallSh waterfallBinPath
     (if decide (socketDir ≠ "") then "qemu-guest:" +:+ socketName else lisAddr)))) →
  Bootstrap iw a w bins bin socketDir socketName = (a', w', r) → later P w w'.
Proof.
  intros lisAddr Hd He HS HF HW. unfold Bootstrap.
  change ("unix:@" +:+ "h2o_" +:+ DeviceName a) with lisAddr.
  destruct (pingServer w lisAddr) as [w1 e1] eqn:E1. apply pingServer_events in E1; [|done..].
  destruct e1 as [e1|]; [|by intros [= _ <- _]].
  destruct (waterfallPath iw a w1 bins) as [[a2 w2] r2] eqn:E2. apply waterfallPath_events in E2 as [S2 L2].
  pose proof (later_trans _ _ _ _ E1 L2) as L12.
  assert (server_event a2 = server_event a) as HS2
    by (unfold server_event; destruct S2 as (-> & _ & ->); done).
  destruct r2 as [[svr|e2]| |]; try (by intros [= _ <- _]). case_decide as Hsd.
  - unfold bootstrap_qemu, stat. set (w3 := record w2 (StatPath _)).
    assert (later P w w3) as L3 by (eapply later_trans; [exact L12|]; by apply later_record).
    destruct (if decide (onStat w3 (trace w3) = Some ENOENT) then _ else _) as [[w4 sf] err] eqn:E4.
    assert (later P w w4) as L4.
    { case_decide; [|by injection E4 as <- _ _]. unfold startForwarder, start in E4. injection E4 as <- _ _.
      eapply later_trans; [exact L3|]. apply later_record. by apply HF. }
    destruct err; [by intros [= _ <- _]|].
    destruct (retry _ 3 w4) as [w5 e5] eqn:E5. apply retry_events in E5; [|done..].
    pose proof (later_trans _ _ _ _ L4 E5) as L5. destruct e5; [|by intros [= _ <- _]].
    destruct (startWaterfall a2 w5 svr _) as [[a6 w6] e6] eqn:E6.
    apply startWaterfall_events in E6; [|done|by rewrite HS2].
    pose proof (later_trans _ _ _ _ L5 E6) as L6. destruct e6; [by intros [= _ <- _]|].
    intros H%verify_events; [|done..]. by eapply later_trans.
  - unfold bootstrap_adb. destruct (ForwardAbstract a2 w2 _ _) as [[a3 w3] e3] eqn:E3.
    apply ForwardAbstract_events in E3 as [S3 L3]. pose proof (later_trans _ _ _ _ L12 L3) as L13.
    assert (server_event a3 = server_event a) as HS3
      by (rewrite <- HS2; unfold server_event; destruct S3 as (-> & _ & ->); done).
    destruct e3; [by intros [= _ <- _]|].
    destruct (pingServer w3 lisAddr) as [w4 e4] eqn:E4. apply pingServer_events in E4; [|done..].
    pose proof (later_trans _ _ _ _ L13 E4) as L14. destruct e4.
    + destruct (startWaterfall a3 w4 svr lisAddr) as [[a6 w6] e6] eqn:E6.
      apply startWaterfall_events in E6; [|done|by rewrite HS3].
      pose proof (later_trans _ _ _ _ L14 E6) as L6. destruct e6; [by intros [= _ <- _]|].
      intros H%verify_events; [|done..]. by eapply later_trans.
    + intros H%verify_events; [|done..]. by eapply later_trans.
Qed.
End events.

(** ** What the processes started do *)

(** Every call answers without an error. *)
Definition healthy (w : World) : Prop :=
  (∀ h, onCall w h = None) ∧ (∀ h, onErrno w h = None) ∧ (∀ h, ∃ s, onText w h = Ok s) ∧
  (∀ h, ∃ c, onConn w h = Ok c).

Lemma healthy_did w c : healthy w → healthy (did w c).
Proof. done. Qed.

Lemma MakeConnBuilder_healthy w dir sock :
  healthy w → ∃ w', MakeConnBuilder w dir sock = (w', None) ∧ healthy w'.
Proof.
  intros Hw. pose proof Hw as (Hc & He & Ht & _). unfold MakeConnBuilder, ask. cbn.
  destruct (Ht (calls w ++ [Getwd])) as [wd ->].
  unfold perform, sys. repeat (case_decide; cbn; rewrite ?Hc, ?He); eexists; (split; [reflexivity|exact Hw]).
Qed.

(** The forwarder with arguments [args] connects through [b] and listens on [l] and nothing else
    whenever it gets to its loops, and it gets there when no call fails. *)
Definition forwards_between (iw : Z) (args : list string) (b l : listener) : Prop :=
  (∀ w w' b' ls, forward_process iw args w = (w', Ret (inl (b', ls))) → b' = b ∧ ls = [l]) ∧
  (∀ w, healthy w → ∃ w', forward_process iw args w = (w', Ret (inl (b, [l])))).

Lemma forwards_qemu iw name dir sock :
  has_char "," name = false → has_char ":" dir = false →
  forwards_between iw ["-connect_addr"; "qemu:" +:+ dir +:+ ":" +:+ sock; "-listen_addr"; "unix:@h2o_" +:+ name]
    (LQemu dir sock) (LNet "unix" ("@h2o_" +:+ name)).
Proof.
  intros Hn Hd. set (lisAddr := "unix:@h2o_" +:+ name).
  assert (parse_addrs iw (Split lisAddr ",") = Ok [MkParsedAddr Unix ("@h2o_" +:+ name) "" 0 None]) as Hp.
  { apply parse_addrs_single; [|apply parse_unix]. unfold lisAddr. by rewrite has_char_app, Hn. }
  destruct (forward_args_get ("qemu:" +:+ dir +:+ ":" +:+ sock) lisAddr) as (vals & Hv & Hl & Hc).
  split.
  - intros w w' b' ls H. unfold forward_process in H. rewrite Hv, Hl, Hc in H.
    unfold forward_main in H. case_decide; [done|]. rewrite Hp, parse_qemu in H by done.
    unfold connect_builder in H. cbn [Kind AddrField SocketName] in H. rewrite decide_True in H by done.
    destruct (MakeConnBuilder _ _ _) as [w1 [e|]]; [done|].
    destruct (accept w1 _) as [w2 [cy|e]]; [|done].
    destruct (open_listeners _ _ _) as [w3 [ls'|e]] eqn:EL; [|done]. injection H as <- <- <-.
    by apply open_listeners_opens in EL as [-> _].
  - intros w Hw. unfold forward_process. rewrite Hv, Hl, Hc. unfold forward_main.
    rewrite decide_False by (by intros [?|?]). rewrite Hp, parse_qemu by done.
    unfold connect_builder. cbn [Kind AddrField SocketName]. rewrite decide_True by done.
    destruct (MakeConnBuilder_healthy w dir sock Hw) as (w1 & -> & Hw1).
    pose proof Hw1 as (Hcall & _ & _ & Hconn). unfold accept.
    destruct (Hconn (calls (did w1 (Accept (LQemu dir sock))))) as [c Hcn]. cbn zeta.
    change (onConn (did w1 (Accept (LQemu dir sock)))) with (onConn w1). rewrite Hcn.
    cbn [open_listeners Kind AddrField].
    rewrite decide_False, decide_True by (done || by left).
    unfold perform. cbn [did onCall]. rewrite Hcall. by eexists.
Qed.

(** The server with arguments [args], where the device is no snapshot, serves on a listener that is
    [good] whenever it gets one, and it gets one when no call fails. *)
Definition serves_on (iw : Z) (args : list string) (good : listener → Prop) : Prop :=
  ∀ self w w1, IsSnapshot (did w (Umask 0)) = (w1, Ok false) →
    ∃ f pa, server_process iw self args w = server_run iw f w1 pa ∧
      (∀ w2 l, server_listen iw w1 pa = (w2, Ret (inl l)) → good l) ∧
      (healthy w1 → ∃ w2 l, server_listen iw w1 pa = (w2, Ret (inl l))).

Lemma serves_guest iw sock : serves_on iw ["--addr"; "qemu-guest:" +:+ sock] (λ l, ∃ vsock, l = LPipe sock vsock).
Proof.
  intros self w w1 HS. exists (plain_flags ("qemu-guest:" +:+ sock)), (MkParsedAddr QemuGuest sock sock 0 None).
  rewrite (server_addr_process iw self "--addr" _ w w1 false), parse_guest by done. split; [done|].
  unfold server_listen. cbn [Kind SocketName]. rewrite decide_True by done. unfold pipe_or_die. split.
  - intros w2 l. destruct (MakePipe w1 sock) as [w3 [v|e]]; intros [= _ <-]. by exists v.
  - intros (_ & He & _). unfold MakePipe, sys. cbn. rewrite He. by do 2 eexists.
Qed.

Lemma serves_unix iw a : serves_on iw ["--addr"; "unix:" +:+ a] (λ l, l = LNet "unix" a).
Proof.
  intros self w w1 HS. exists (plain_flags ("unix:" +:+ a)), (MkParsedAddr Unix a "" 0 None).
  rewrite (server_addr_process iw self "--addr" _ w w1 false), parse_unix by done. split; [done|].
  unfold server_listen. cbn [Kind AddrField].
  rewrite !decide_False by done. rewrite decide_True by (by left). unfold open_or_die, perform. split.
  - intros w2 l. destruct (onCall _ _); by intros [= _ <-].
  - intros (Hc & _). cbn. rewrite Hc. by do 2 eexists.
Qed.

(** A script that starts the binary [bin] with the address [addr]. *)
Definition script_runs (content bin addr : string) : Prop :=
  let call := dquote +:+ "${waterfall_bin}" +:+ dquote +:+ " --addr " +:+ dquote +:+ "${addr}" +:+ dquote in
  ∃ pre mid, content = pre +:+ newline +:+ "waterfall_bin=" +:+ bin +:+ newline +:+ "addr=" +:+ addr +:+
    newline +:+ mid +:+ call +:+ " || nohup " +:+ call.

(** What a bootstrap of [a] may do: ping the address of its clients, start the server's script on the
    device, start a forwarder between the emulator's pipe and that address, and write a script for a
    server on the pipe, or, without a pipe, on the socket that adb forwards the address to. *)
Definition boot_event (iw : Z) (a : Device) (bin socketDir socketName : string) (e : event) : Prop :=
  let client := "@h2o_" +:+ DeviceName a in
  match e with
  | Dial addr | EchoCall addr _ => addr = "unix:" +:+ client
  | Start prog args =>
      e = server_event a ∨
      socketDir ≠ "" ∧ prog = bin ∧
      forwards_between iw args (LQemu socketDir socketName) (LNet "unix" client)
  | WriteFile _ content => ∃ addr, script_runs content waterfallBinPath addr ∧
      serves_on iw ["--addr"; addr]
        (λ l, if decide (socketDir ≠ "") then ∃ vsock, l = LPipe socketName vsock else l = LNet "unix" client)
  | _ => True
  end.

Lemma script_runs_sh addr : script_runs (waterfallSh waterfallBinPath addr) waterfallBinPath addr.
Proof.
  unfold script_runs, waterfallSh.
  exists ("#!/system/bin/sh" +:+ newline +:+ "# start waterfall through adb" +:+ newline +:+
          "# but make sure it does not die if adb dies"),
         ("cd /data/local/tmp" +:+ newline +:+ "# prefer root if possible" +:+ newline +:+ "su -c nohup ").
  reflexivity.
Qed.

(** ** The daemon of the USB bootstrap *)

(** The forwarder over USB with arguments [args] multiplexes over [b] and listens on [l]. *)
Definition usb_forwards_between (iw : Z) (args : list string) (b l : listener) : Prop :=
  (∀ w w' b' l' cy, forward_usb_process iw args w = (w', Ret (inl (b', l', cy))) → b' = b ∧ l' = l) ∧
  (∀ w, healthy w → ∃ w' cy, forward_usb_process iw args w = (w', Ret (inl (b, l, cy)))).

Lemma usb_forwards iw serial :
  usb_forwards_between iw ["-connect_addr"; "mux:usb:" +:+ serial; "-listen_addr"; "unix:@h2o_" +:+ serial]
    (LMuxUsb serial) (LNet "unix" ("@h2o_" +:+ serial)).
Proof.
  assert (∀ w, forward_usb_process iw
      ["-connect_addr"; "mux:usb:" +:+ serial; "-listen_addr"; "unix:@h2o_" +:+ serial] w =
    match perform w (AoaConnect serial) with
    | (w, Some e) => (w, Ret (inr (Some e)))
    | (w, None) =>
        match perform w (OpenL (LMuxUsb serial)) with
        | (w, Some e) => (w, Ret (inr (Some e)))
        | (w, None) =>
            match accept w (LMuxUsb serial) with
            | (w, Err e) => (w, Ret (inr (Some e)))
            | (w, Ok cy) =>
                match perform w (OpenL (LNet "unix" ("@h2o_" +:+ serial))) with
                | (w, Some e) => (w, Ret (inr (Some e)))
                | (w, None) => (w, Ret (inl (LMuxUsb serial, LNet "unix" ("@h2o_" +:+ serial), cy)))
                end
            end
        end
    end) as HU.
  { intros w. unfold forward_usb_process.
    destruct (forward_args_get ("mux:usb:" +:+ serial) ("unix:@h2o_" +:+ serial)) as (vals & Hv & Hl & Hc).
    rewrite Hv, Hl, Hc. unfold forward_usb_main. rewrite decide_False by (by intros [?|?]).
    change ("unix:@h2o_" +:+ serial) with ("unix:" +:+ ("@h2o_" +:+ serial)).
    rewrite parse_mux_usb, parse_unix. cbn [Kind MuxAddr AddrField].
    rewrite decide_False, decide_True by (done || by intros [?|?]).
    unfold open_or_die. destruct (perform w _) as [w1 [e|]]; [done|].
    destruct (perform w1 _) as [w2 [e|]]; [done|]. destruct (accept w2 _) as [w3 [cy|e]]; [|done].
    by rewrite decide_True by (by left). }
  split.
  - intros w w' b' l' cy. rewrite HU. destruct (perform w _) as [w1 [e|]]; [done|].
    destruct (perform w1 _) as [w2 [e|]]; [done|]. destruct (accept w2 _) as [w3 [c|e]]; [|done].
    destruct (perform w3 _) as [w4 [e|]]; [done|]. by intros [= _ <- <- _].
  - intros w (Hc & _ & _ & Hn). rewrite HU. unfold perform, accept. cbn. rewrite !Hc.
    match goal with |- context [onConn w ?h] => destruct (Hn h) as [c ->] end. by do 2 eexists.
Qed.

(** The server with arguments [args] serves the multiplexer on descriptor 3, where the device is no
    snapshot. *)
Definition serves_fd3 (iw : Z) (args : list string) : Prop :=
  ∀ self w w1, IsSnapshot (did w (Umask 0)) = (w1, Ok false) →
    ∃ f w2 st, server_process iw self args w = (w2, Ret st) ∧
      server_serve f (did w1 (OpenL (LMux 3))) (LMux 3) = (w2, st) ∧
      s_cert f = "" ∧ s_privateKey f = "" ∧ s_sessionID f = "".

Lemma serves_mux_fd3 iw : 32 ≤ iw → serves_fd3 iw ["-addr"; "mux:fd:3"].
Proof.
  intros Hw self w w1 HS. destruct (server_serve (plain_flags "mux:fd:3") (did w1 (OpenL (LMux 3))) (LMux 3))
    as [w2 st] eqn:E. exists (plain_flags "mux:fd:3"), w2, st.
  rewrite (server_addr_process iw self "-addr" _ w w1 false), parse_mux_fd3 by done.
  split; [|done]. unfold server_run, server_listen. cbn [Kind MuxAddr FD].
  assert (to_uint iw 3 = 3) as ->.
  { unfold to_uint. apply Z.mod_small. split; [lia|]. apply (Z.lt_le_trans _ (2 ^ 32)); [lia|].
    apply Z.pow_le_mono_r; lia. }
  transitivity (let '(w3, st0) := server_serve (plain_flags "mux:fd:3") (did w1 (OpenL (LMux 3))) (LMux 3)
                in (w3, Ret st0) : World * outcome status); [|by rewrite E].
  repeat (rewrite decide_False by (intros [=]; naive_solver) || rewrite decide_True by done). done.
Qed.

(** What forkfd does with one connection: it starts the server through logwrapper with the connection
    as descriptor 3, waits for it, and closes its own. *)
Definition served (lis : listener) (bin : string) (sargs : list string) (c : nat) : list call :=
  [Accept lis; SyscallConn c; RawControl c; ExecConn logwrapperBin (bin :: sargs) c; ExecWait; CloseConn c].

(** Every round of the loop serves the connection it accepted. *)
Lemma forkfd_loop_serves n w lis bin rest :
  (∀ h, onCall w h = None) →
  ∃ cs tail, calls (forkfd_loop n w lis bin rest).1 =
      calls w ++ mjoin (served lis bin (["-addr"; "mux:fd:3"] ++ rest) <$> cs) ++ tail ∧
    (∀ k c, cs !! k = Some c →
       onConn w (calls w ++ mjoin (served lis bin (["-addr"; "mux:fd:3"] ++ rest) <$> take k cs) ++ [Accept lis]) = Ok c) ∧
    (length cs = n ∧ tail = [] ∨
     tail = [Accept lis] ∧ ∃ e, onConn w (calls w ++
       mjoin (served lis bin (["-addr"; "mux:fd:3"] ++ rest) <$> cs) ++ [Accept lis]) = Err e).
Proof.
  revert w. induction n as [|n IH]; intros w Hw; cbn [forkfd_loop].
  { exists [], []. split; [cbn; by rewrite app_nil_r|]. split; [done|by left]. }
  unfold accept. cbn zeta. set (w1 := did w (Accept lis)).
  destruct (onConn w1 (calls w1)) as [c|e] eqn:Ea.
  2: { exists [], [Accept lis]. split; [done|]. split; [done|]. right. split; [done|]. by exists e. }
  unfold perform. cbn zeta. rewrite (Hw _ : onCall (did w1 (SyscallConn c)) _ = None).
  unfold launchAndDupConn, perform. cbn zeta.
  rewrite (Hw _ : onCall (did (did w1 (SyscallConn c)) (RawControl c)) _ = None).
  rewrite (Hw _ : onCall (did (did (did w1 (SyscallConn c)) (RawControl c)) (ExecConn _ _ c)) _ = None).
  rewrite decide_False by (intros Hx; by apply Hx).
  match goal with |- context [forkfd_loop n ?w2 _ _ _] => destruct (IH w2 Hw) as (cs & tail & Hc & Ha & Ht);
    assert (calls w2 = calls w ++ served lis bin (["-addr"; "mux:fd:3"] ++ rest) c) as E2
      by (cbn [did calls w1]; rewrite <- !app_assoc; reflexivity);
    assert (onConn w2 = onConn w) as E3 by done; rewrite E2, E3 in *; clear E3 end.
  exists (c :: cs), tail. cbn [fmap list_fmap mjoin list_join]. rewrite <- app_assoc in Hc. split; [exact Hc|]. split.
  - intros [|k] c' Hk; cbn in Hk.
    + injection Hk as <-. exact Ea.
    + cbn [take fmap list_fmap mjoin list_join]. rewrite <- !app_assoc. apply Ha in Hk. by rewrite <- !app_assoc in Hk.
  - destruct Ht as [[<- ->]|[-> [e He]]]; [by left|right]. split; [done|]. exists e.
    by rewrite <- !app_assoc in He |- *.
Qed.

(** The daemon that [-fork] starts, with the address and the binary of its parent. *)
Lemma forkfd_run_serves n self a bin w :
  a ≠ "" → bin ≠ "" → (∀ h, onCall w h = None) →
  ∃ cs tail, calls (forkfd_run n self ["-addr"; a; "-binary_to_launch"; bin] w).1 =
      calls w ++ [OpenL (LNet "tcp" a)] ++ mjoin (served (LNet "tcp" a) bin ["-addr"; "mux:fd:3"] <$> cs) ++ tail ∧
    (∀ k c, cs !! k = Some c →
       onConn w (calls w ++ [OpenL (LNet "tcp" a)] ++
         mjoin (served (LNet "tcp" a) bin ["-addr"; "mux:fd:3"] <$> take k cs) ++ [Accept (LNet "tcp" a)]) = Ok c) ∧
    (length cs = n ∧ tail = [] ∨
     tail = [Accept (LNet "tcp" a)] ∧ ∃ e, onConn w (calls w ++ [OpenL (LNet "tcp" a)] ++
       mjoin (served (LNet "tcp" a) bin ["-addr"; "mux:fd:3"] <$> cs) ++ [Accept (LNet "tcp" a)]) = Err e).
Proof.
  intros Ha Hb Hw. unfold forkfd_run.
  destruct (forkfd_child_args a bin) as (vals & -> & Hva & Hvb & Hvf).
  unfold forkfd_main. rewrite Hva, Hvb, Hvf, !decide_False by done. unfold perform. cbn zeta.
  rewrite (Hw _ : onCall (did w (OpenL (LNet "tcp" a))) _ = None).
  destruct (forkfd_loop_serves n (did w (OpenL (LNet "tcp" a))) (LNet "tcp" a) bin [] Hw) as (cs & tail & H1 & H2 & H3).
  rewrite app_nil_r in H1, H2, H3. cbn [did calls onConn] in H1, H2, H3.
  exists cs, tail. split; [by rewrite <- app_assoc in H1|]. split.
  - intros k c Hk. apply H2 in Hk. by rewrite <- app_assoc in Hk.
  - destruct H3 as [?|[? [e He]]]; [by left|right]. split; [done|]. exists e. by rewrite <- app_assoc in He.
Qed.

(** ** The events of the USB bootstrap *)

Lemma shell_event_same a b args : same_device a b → shell_event b args = shell_event a args.
Proof. intros (E1 & _ & E3). unfold shell_event. by rewrite E1, E3. Qed.

Lemma Shell_after iw a w args a' w' r :
  Shell iw a w args = (a', w', r) → same_device a a' ∧ after w w'.
Proof. by apply Shell_events. Qed.

Lemma shells_ignored_after iw a w cmds a' w' r :
  shells_ignored iw a w cmds = (a', w', r) → same_device a a' ∧ after w w'.
Proof.
  revert a w. induction cmds as [|c cs IH]; intros a w; cbn [shells_ignored].
  { intros [= <- <- _]. split; [apply same_device_refl|apply later_refl]. }
  destruct (Shell iw a w c) as [[a1 w1] o] eqn:E. apply Shell_after in E as [S L].
  destruct o as [o| |]; [|by intros [= <- <- _]..]. intros [S' L']%IH.
  split; [by eapply same_device_trans|by eapply later_trans].
Qed.

Definition forkfd_args (f : UsbFlags) : list string :=
  ["-fork"; "-binary_to_launch"; waterfallDevicePath; "--addr"; "localhost:" +:+ u_waterfallServicePort f].

Definition usb_forward_args (f : UsbFlags) : list string :=
  ["-connect_addr"; "mux:usb:" +:+ u_adbDeviceSerial f; "-listen_addr"; "unix:@h2o_" +:+ u_adbDeviceSerial f].

Lemma usb_services_done iw f a w w' :
  usb_services iw f a w = (w', Ret Done) →
  ∃ mid, trace w' = trace w ++ [shell_event a (forkfdDevicePath :: forkfd_args f)] ++ mid ++
    [Start (u_forwarderBin f) (usb_forward_args f)].
Proof.
  unfold usb_services.
  destruct (onRun w (trace w ++ [shell_event a (forkfdDevicePath :: forkfd_args f)])) as [o err] eqn:Er.
  destruct (Shell_result iw a w _ _ _ Er) as [Ht _]. unfold forkfd_args in Ht |- *.
  destruct (Shell iw a w _) as [[a1 w1] r1]. cbn [fst snd] in Ht.
  destruct r1 as [[o1 [e1|]]| |]; try done.
  destruct (Shell iw a1 w1 _) as [[a2 w2] r2] eqn:E2. apply Shell_after in E2 as [S2 [(es2 & T2 & _)]].
  destruct r2 as [[o2 [e2|]]| |]; try done. destruct (Atoi iw o2) as [v [e|]]; [done|].
  destruct (Shell iw a2 w2 _) as [[a3 w3] r3] eqn:E3. apply Shell_after in E3 as [S3 [(es3 & T3 & _)]].
  destruct r3 as [[o3 [e3|]]| |]; try done. unfold start.
  destruct (onStart _ _); intros [= <-]. exists (es2 ++ es3). cbn [record trace].
  rewrite T3, T2, Ht. by rewrite <- !app_assoc.
Qed.

(** A USB bootstrap that ends well found the address answering, or started the daemon and the
    forwarder. *)
Lemma usb_main_done iw f w w' :
  bootstrap_usb_main iw f w = (w', Ret Done) →
  let client := "unix:@h2o_" +:+ u_adbDeviceSerial f in
  let dev := MkDevice (u_adbBin f) (u_adbDeviceSerial f) (u_adbServerPort f) None in
  (trace w' = trace w ++ [Dial client] ∧ onDial w (trace w') = None) ∨
  ∃ pre mid, trace w' = trace w ++ Dial client :: pre ++ [shell_event dev (forkfdDevicePath :: forkfd_args f)] ++
    mid ++ [Start (u_forwarderBin f) (usb_forward_args f)].
Proof.
  cbn zeta. unfold bootstrap_usb_main. case_decide; [done|]. unfold dial.
  set (client := "unix:@h2o_" +:+ u_adbDeviceSerial f). set (w1 := record w (Dial client)).
  destruct (onDial w1 (trace w1)) as [e|] eqn:Ed; [|intros [= <-]; by left]. intros HB. right. revert HB.
  set (dev := MkDevice _ _ _ None).
  destruct (Connect dev w1) as [[a2 w2] e2] eqn:E2. pose proof (Connect_ok dev w1) as [S2 L2]. rewrite E2 in S2, L2.
  cbn [fst snd] in S2, L2. destruct e2; [done|].
  destruct (Push a2 w2 _ _) as [[a3 w3] e3] eqn:E3. apply (Push_events (λ _, True)) in E3 as [S3 L3]; [|done..].
  destruct e3; [done|].
  destruct (Push a3 w3 _ _) as [[a4 w4] e4] eqn:E4. apply (Push_events (λ _, True)) in E4 as [S4 L4]; [|done..].
  destruct e4; [done|].
  destruct (Install a4 w4 _) as [[a5 w5] [o5 e5]] eqn:E5. apply (adb_run_events (λ _, True)) in E5 as [S5 L5]; [|done..].
  destruct e5; [done|].
  destruct (shells_ignored iw a5 w5 _) as [[a6 w6] r6] eqn:E6. apply shells_ignored_after in E6 as [S6 L6].
  destruct r6 as [[]| |]; try done. intros (mid & HT)%usb_services_done.
  assert (after w1 w6) as [(pre & Hpre & _)].
  { eapply later_trans; [eapply later_weaken; [|exact L2]; done|].
    eapply later_trans; [exact L3|]. eapply later_trans; [exact L4|]. eapply later_trans; [exact L5|exact L6]. }
  exists pre, mid. rewrite HT, Hpre.
  rewrite (shell_event_same dev a6); [cbn [w1 record trace]; by rewrite <- !app_assoc|].
  eapply same_device_trans; [exact S2|]. eapply same_device_trans; [exact S3|].
  eapply same_device_trans; [exact S4|]. eapply same_device_trans; [exact S5|exact S6].
Qed.

(** ** Properties *)

(** C30: the processes a bootstrap starts meet, however it ends.  Everything it starts is the
    server's script on the device or, with a socket directory, the forwarder, with a command line
    from which the forwarder connects through the pipe's socket in that directory and listens
    exactly on the address of the clients; the script it writes starts the server with an address
    from which, unless the device says it is a snapshot, it listens on the pipe of the same
    socket name, or, without a directory, on the socket adb forwards the clients' address to; and
    that address is the one it pings.  For device names without a comma and directories without a
    colon. *)
Theorem bootstrap_ends_meet iw a w bins bin socketDir socketName a' w' r :
  has_char "," (DeviceName a) = false → has_char ":" socketDir = false →
  Bootstrap iw a w bins bin socketDir socketName = (a', w', r) →
  ∃ es, trace w' = trace w ++ es ∧ Forall (boot_event iw a bin socketDir socketName) es.
Proof.
  intros Hn Hd HB. enough (later (boot_event iw a bin socketDir socketName) w w') as [] by done.
  eapply Bootstrap_events in HB; try exact HB; try done.
  - by left.
  - intros Hs. right. split_and!; [done|done|]. by apply forwards_qemu.
  - intros name. cbn. eexists. split; [apply script_runs_sh|]. case_decide; [apply serves_guest|].
    change ("unix:@h2o_" +:+ DeviceName a) with ("unix:" +:+ ("@h2o_" +:+ DeviceName a)). apply serves_unix.
Qed.

Definition demo_boot : Device * Env * outcome (result Result) :=
  Bootstrap 64 demo_device
    (MkEnv [] (λ _, ("x86ret=0", None)) (λ _, None) (λ _, None)
       (λ tr, if decide (server_event demo_device ∈ starts tr) then Ok "hello" else Err EOF)
       (λ _, Some ENOENT) (λ _, Ok "/tmp/w") (λ _, None))
    ["x86:/b"] "/bin/fwd" "/tmp/emu" "sockets/h2o".

Lemma bootstrap_ends_meet_witness :
  snd demo_boot = Ret (Ok (MkResult true true)) ∧
  forwards_between 64 ["-connect_addr"; "qemu:/tmp/emu:sockets/h2o"; "-listen_addr"; "unix:@h2o_emulator-5554"]
    (LQemu "/tmp/emu" "sockets/h2o") (LNet "unix" "@h2o_emulator-5554").
Proof.
  split; [vm_compute; reflexivity|].
  destruct (bootstrap_ends_meet 64 demo_device
    (MkEnv [] (λ _, ("x86ret=0", None)) (λ _, None) (λ _, None)
       (λ tr, if decide (server_event demo_device ∈ starts tr) then Ok "hello" else Err EOF)
       (λ _, Some ENOENT) (λ _, Ok "/tmp/w") (λ _, None))
    ["x86:/b"] "/bin/fwd" "/tmp/emu" "sockets/h2o" (fst (fst demo_boot)) (snd (fst demo_boot)) (snd demo_boot)
    eq_refl eq_refl) as (es & Hes & HF).
  { rewrite <- !surjective_pairing. reflexivity. }
  assert (Start "/bin/fwd" ["-connect_addr"; "qemu:/tmp/emu:sockets/h2o"; "-listen_addr"; "unix:@h2o_emulator-5554"] ∈ es) as Hin.
  { replace es with (trace (snd (fst demo_boot))) by (exact Hes). apply (bool_decide_unpack _). vm_compute. exact I. }
  rewrite list.Forall_forall in HF. destruct (HF _ Hin) as [H|(_ & _ & H)]; [discriminate|exact H].
Defined.

(** C31: the chain of a USB bootstrap.  When it ends well it found the address of the clients
    answering, or it ran, in the device's shell, forkfd with arguments (for a port without blanks
    the words of the line) with which forkfd starts itself once more, and started the forwarder.  That second forkfd, as long as no call but
    Accept fails, listens on the port of the bootstrap and gives every connection it accepts, as
    descriptor 3, to a server it starts through logwrapper with arguments from which the server,
    unless the device says it is a snapshot, serves the multiplexer on descriptor 3; and the
    forwarder multiplexes over the accessory with the device's serial number and listens on the
    address of the clients. *)
Theorem usb_chain iw f w w' :
  32 ≤ iw → bootstrap_usb_main iw f w = (w', Ret Done) →
  let client := "@h2o_" +:+ u_adbDeviceSerial f in
  let dev := MkDevice (u_adbBin f) (u_adbDeviceSerial f) (u_adbServerPort f) None in
  let lis := LNet "tcp" ("localhost:" +:+ u_waterfallServicePort f) in
  (trace w' = trace w ++ [Dial ("unix:" +:+ client)] ∧ onDial w (trace w') = None) ∨
  ∃ pre mid dargs fargs cargs sargs,
    trace w' = trace w ++ Dial ("unix:" +:+ client) :: pre ++ [shell_event dev (forkfdDevicePath :: dargs)] ++
      mid ++ [Start (u_forwarderBin f) fargs] ∧
    (has_char " " (u_waterfallServicePort f) = false →
       Split (Join (forkfdDevicePath :: dargs) " ") " " = forkfdDevicePath :: dargs) ∧
    (∀ wd, onCall wd (calls wd ++ [ExecStart forkfdDevicePath cargs []]) = None →
       forkfd_process forkfdDevicePath dargs wd = (did wd (ExecStart forkfdDevicePath cargs []), inl None, [])) ∧
    (∀ n wd, (∀ h, onCall wd h = None) →
       ∃ cs tail, calls (forkfd_run n forkfdDevicePath cargs wd).1 =
           calls wd ++ [OpenL lis] ++ mjoin (served lis waterfallDevicePath sargs <$> cs) ++ tail ∧
         (∀ k c, cs !! k = Some c → onConn wd (calls wd ++ [OpenL lis] ++
            mjoin (served lis waterfallDevicePath sargs <$> take k cs) ++ [Accept lis]) = Ok c) ∧
         (length cs = n ∧ tail = [] ∨ tail = [Accept lis] ∧ ∃ e, onConn wd (calls wd ++ [OpenL lis] ++
            mjoin (served lis waterfallDevicePath sargs <$> cs) ++ [Accept lis]) = Err e)) ∧
    serves_fd3 iw sargs ∧
    usb_forwards_between iw fargs (LMuxUsb (u_adbDeviceSerial f)) (LNet "unix" client).
Proof.
  intros Hw HB. cbn zeta. apply usb_main_done in HB as [HB|(pre & mid & HB)]; [by left|right].
  exists pre, mid, (forkfd_args f), (usb_forward_args f),
    ["-addr"; "localhost:" +:+ u_waterfallServicePort f; "-binary_to_launch"; waterfallDevicePath], ["-addr"; "mux:fd:3"].
  split; [exact HB|]. split; [|split; [|split; [|split; [by apply serves_mux_fd3|apply usb_forwards]]]].
  - intros Hp. apply Split_unique; [done| |done].
    by repeat (apply list.Forall_cons; split; [done|]).
  - intros wd HE. unfold forkfd_process.
    destruct (forkfd_fork_args ("localhost:" +:+ u_waterfallServicePort f) waterfallDevicePath [] I)
      as (vals & Hv & Hva & Hvb & Hvf).
    unfold forkfd_args. rewrite app_nil_r in Hv. rewrite Hv. unfold forkfd_main. rewrite Hva, Hvb, Hvf.
    rewrite !decide_False by done. unfold perform. cbn [did onCall calls]. by rewrite HE.
  - intros n wd Hc. by apply forkfd_run_serves.
Qed.

(** What [-fork] is given for the server it does not pass on, although without it forkfd does. *)
Theorem fork_drops_arguments self a bin rest w :
  not_a_flag rest → a ≠ "" → bin ≠ "" →
  onCall w (calls w ++ [ExecStart self ["-addr"; a; "-binary_to_launch"; bin] []]) = None →
  forkfd_process self (["-fork"; "-binary_to_launch"; bin; "--addr"; a] ++ rest) w =
    (did w (ExecStart self ["-addr"; a; "-binary_to_launch"; bin] []), inl None, rest).
Proof.
  intros Hr Ha Hb HE. unfold forkfd_process.
  destruct (forkfd_fork_args a bin rest Hr) as (vals & -> & Hva & Hvb & Hvf).
  unfold forkfd_main. rewrite Hva, Hvb, Hvf. rewrite !decide_False by done.
  unfold perform. cbn [did onCall calls]. by rewrite HE.
Qed.

Definition demo_usb : UsbFlags :=
  MkUsbFlags "/s.apk" "/bin/fwd" "/bin/wtf" "/bin/forkfd" "/bin/adb" "0A1B" "5037" "8088".

(** A device on which everything goes well: it is listed and has API level 26. *)
Definition usb_env : Env :=
  MkEnv [] (λ tr, (match List.last tr (RemovePath "") with
                   | Run _ args => if decide ("devices" ∈ args) then "0A1B device" else "26ret=0"
                   | _ => ""
                   end, None))
    (λ _, None) (λ _, Some EOF) (λ _, Err EOF) (λ _, None) (λ _, Ok "/tmp/w") (λ _, None).

Lemma usb_chain_witness :
  let lis := LNet "tcp" "localhost:8088" in
  ∃ cargs sargs cs, length cs = 2%nat ∧
    calls (forkfd_run 2 forkfdDevicePath cargs (demo_world "0")).1 =
      [OpenL lis] ++ mjoin (served lis waterfallDevicePath sargs <$> cs) ++ [] ∧ serves_fd3 64 sargs.
Proof.
  intros lis. set (R := bootstrap_usb_main 64 demo_usb usb_env).
  assert (R.2 = Ret Done) as HR by (vm_compute; reflexivity).
  destruct (usb_chain 64 demo_usb usb_env R.1 ltac:(lia)) as [[H _]|(pre & mid & dargs & fargs & cargs & sargs & _ & _ & _ & H & Hs & _)].
  - rewrite <- HR. rewrite <- surjective_pairing. reflexivity.
  - exfalso. revert H. vm_compute. discriminate.
  - exists cargs, sargs. destruct (H 2%nat (demo_world "0") (λ _, eq_refl)) as (cs & tail & Hc & _ & Ht).
    exists cs. destruct Ht as [[Hl ->]|[_ [e He]]]; [|discriminate He].
    split; [exact Hl|]. split; [exact Hc|exact Hs].
Defined.
