(* ===== verification/Lifecycle.v ===== *)
(** * A server before and after a snapshot: src/waterfall/golang/server/server.go, server_bin.go

    [SnapshotShutdown] tells the server to stop and leaves a property behind, by which the next
    server on the device chooses its address; and what else [main] sets up before it serves. *)

From S2P Require Import Prelude GoStrings Addr Fs Proto GoFlags Binaries.

Local Open Scope Z_scope.
Local Open Scope go_scope.

(** [Version] *)
Definition Version : VersionMessage := MkVersionMessage "0.0".

(** The goroutines [SnapshotShutdown] starts: [server.GracefulStop()], and [server.Stop()] after
    a while. *)
Inductive goroutine := GracefulStop | StopAfter (seconds : Z).

(** [SnapshotShutdown(ctx, _)]: the goroutines, and the result of setting the property, which is
    the result of the call. *)
Definition SnapshotShutdown (w : World) : World * list goroutine * option error :=
  let '(w, err) := SetSnapshotProp w in (w, [GracefulStop; StopAfter 5], err).

(** Where the server logs: standard error, or a descriptor, to which standard error was redirected
    unless that failed. *)
Inductive log_output := ToStderr | ToFile (fd : Z) (stderr_redirected : bool).

(** [configureLogging()]: [kmsg] is the variable ANDROID_FILE__dev_kmsg, [dup] the error of [Dup3]. *)
Definition configureLogging (iw : Z) (kmsg : string) (dup : option errno) : log_output :=
  if decide (kmsg = "") then ToStderr else
  match Atoi iw kmsg with
  | (_, Some _) => ToStderr
  | (fd, None) => ToFile fd (bool_decide (dup = None))
  end.

(** ** The property decides the next server's address *)

(** The value a history of calls left in the property; [SetProp] that failed sets nothing. *)
Fixpoint last_set (p : string) (onCall : list call → option error) (before : list call) (cs : list call)
    (v : option string) : option string :=
  match cs with
  | [] => v
  | c :: cs' =>
      let before := before ++ [c] in
      last_set p onCall before cs'
        match c with
        | SetProp q x => if decide (q = p ∧ onCall before = None) then Some x else v
        | _ => v
        end
  end.

(** The device keeps its properties: reading one gives what was last set, on a line. *)
Definition keeps_props (w : World) : Prop :=
  ∀ cs p v, last_set p (onCall w) [] cs None = Some v →
    ∃ rest, onText w (cs ++ [GetProp p]) = Ok (v +:+ rest).

Lemma last_set_app p oc before cs cs' v :
  last_set p oc before (cs ++ cs') v = last_set p oc (before ++ cs) cs' (last_set p oc before cs v).
Proof.
  revert before v. induction cs as [|c cs IH]; intros before v; cbn [last_set app]; [by rewrite app_nil_r|].
  rewrite IH. by rewrite <- app_assoc.
Qed.

Lemma last_set_keep p oc before cs v :
  Forall (λ c, ∀ x, c ≠ SetProp p x) cs → last_set p oc before cs v = v.
Proof.
  intros H. revert before. induction H as [|c cs Hc _ IH]; intros before; [done|]. cbn [last_set].
  destruct c; try apply IH. rewrite decide_False by (intros [-> _]; by eapply Hc). apply IH.
Qed.

(** After a snapshot shutdown that reported success, and as long as nothing else sets the
    property, every server that starts on the device - [w2] is any later state of it - listens
    on its snapshot address; an error from the shutdown means the property was not set. *)
Theorem snapshot_switches_address iw self f w gs w1 w2 es :
  keeps_props w → SnapshotShutdown w = (w1, gs, None) →
  calls w2 = calls w1 ++ es → onCall w2 = onCall w → onText w2 = onText w →
  Forall (λ c, ∀ x, c ≠ SetProp snapshotProp x) es →
  s_daemon f = false → s_addr f ≠ "" →
  ∃ w3, server_main iw self f w2 =
    match ParseAddr iw (s_snapshotAddr f) with
    | Ok pa => server_run iw f w3 pa
    | Err e => (w3, Ret (Died (Some e)))
    end.
Proof.
  intros Hk Hs Hc Hoc Hot Hes Hd Ha.
  unfold SnapshotShutdown, SetSnapshotProp, perform in Hs. injection Hs as <- _ He. cbn [calls did] in *.
  set (sp := SetProp snapshotProp "1") in *.
  destruct (Hk (calls w2 ++ [Umask 0]) snapshotProp "1") as [rest Hr].
  { rewrite Hc, <- app_assoc, !last_set_app. rewrite last_set_keep by (by constructor). rewrite last_set_keep by exact Hes.
    cbn [last_set]. unfold sp. rewrite decide_True; [done|]. split; [done|]. exact He. }
  exists (did (did w2 (Umask 0)) (GetProp snapshotProp)).
  rewrite (server_main_run iw self f w2 (did (did w2 (Umask 0)) (GetProp snapshotProp)) true); [done..|].
  unfold IsSnapshot, ask. cbn [calls did onText]. rewrite Hot, Hr.
  assert (HasPrefix ("1" +:+ rest) "1" = true) as -> by (apply HasPrefix_true; by exists rest). done.
Qed.

(** A device with one property, set by the snapshot shutdown. *)
Definition prop_world (cs : list call) : World :=
  MkWorld cs (λ _, None) (λ _, None)
    (λ cs, match list.last cs with
           | Some (GetProp p) => Ok (match last_set p (λ _, None) [] (removelast cs) None with Some v => v | None => "" end)
           | _ => Ok "0"
           end) (λ _, Ok 0%nat).

Lemma prop_world_keeps cs : keeps_props (prop_world cs).
Proof.
  intros cs' p v H. cbn in *. rewrite last_snoc, removelast_last, H. exists "". by rewrite sapp_nil_r.
Qed.

Lemma snapshot_switches_address_witness :
  let f := MkServerFlags "tcp:localhost:1" "tcp:localhost:2" "" "" "" false in
  ∃ w3, server_main 64 "waterfall" f (prop_world [SetProp snapshotProp "1"]) =
    server_run 64 f w3 (MkParsedAddr "tcp" "localhost:2" "" 0 None).
Proof.
  intros f.
  destruct (snapshot_switches_address 64 "waterfall" f (prop_world []) [GracefulStop; StopAfter 5]
    (fst (fst (SnapshotShutdown (prop_world [])))) (prop_world [SetProp snapshotProp "1"]) []
    (prop_world_keeps [])) as [w3 H]; try reflexivity; [constructor|discriminate|].
  exists w3. exact H.
Defined.
