(* ===== verification/ForwarderRun.v ===== *)
(** * The forwarder while it runs: main of src/waterfall/golang/forward/forward_bin.go

    [Binaries.forward_main] brings the process to its listeners and its connection builder; this
    file is what it does from then on: one accept loop per listener in a goroutine of its own,
    the goroutine that waits for SIGTERM and closes them, the goroutines that poll the emulator's
    directory, and [main] in [eg.Wait].  A connection is a number; each accepted or dialled
    connection gets the next one.  [Accept] of a qemu listener or builder (net/qemu/qemu.go) makes a
    handshake with the other side, which it does not break off when it is closed. *)

From S2P Require Import Prelude GoStrings Addr Binaries.

(** The goroutine of one accept loop: in [ll.Accept()], waiting for a connection, and in the handshake
    of a qemu listener; in [b.Accept()], holding the connection it accepted, likewise; ended with an
    error.  [answers]: whether the other side of the handshake ([ConnBuilder.Accept] reading the
    ready message, or [Pipe.Accept] trying to get its service) ever goes on. *)
Inductive loop_pc :=
| Accepting | Syncing (answers : bool)
| Connecting (cx : nat) | Pairing (answers : bool) (cx : nat)
| Ended (e : error).

(** The signal goroutine: waiting; about to close listener [k] (the builder after the last one);
    done. *)
Inductive sig_pc := Unsignalled | Closing (k : nat) | Handled.

(** [main]: in [eg.Wait]; returned; killed by [log.Fatal] of a polling goroutine. *)
Inductive main_pc := Waiting | Finished | Killed.

Record fwdr := MkFwdr {
  loops : list loop_pc;
  listening : list bool;
  building : bool;               (* the builder is not closed *)
  sessions : list (nat * nat);   (* the goroutines of forward.Forward, in the order of their start *)
  dropped : list nat;            (* accepted, and left without being closed *)
  signalled : sig_pc;
  main : main_pc;
  fresh : nat;
}.

Definition set_loop (i : nat) (p : loop_pc) (s : fwdr) : fwdr :=
  MkFwdr (<[i := p]> (loops s)) (listening s) (building s) (sessions s) (dropped s) (signalled s) (main s) (fresh s).
Definition set_listening (l : list bool) (s : fwdr) : fwdr :=
  MkFwdr (loops s) l (building s) (sessions s) (dropped s) (signalled s) (main s) (fresh s).
Definition set_building (b : bool) (s : fwdr) : fwdr :=
  MkFwdr (loops s) (listening s) b (sessions s) (dropped s) (signalled s) (main s) (fresh s).
Definition set_signalled (p : sig_pc) (s : fwdr) : fwdr :=
  MkFwdr (loops s) (listening s) (building s) (sessions s) (dropped s) p (main s) (fresh s).
Definition set_main (p : main_pc) (s : fwdr) : fwdr :=
  MkFwdr (loops s) (listening s) (building s) (sessions s) (dropped s) (signalled s) p (fresh s).
Definition start_forward (cx cy : nat) (s : fwdr) : fwdr :=
  MkFwdr (loops s) (listening s) (building s) (sessions s ++ [(cx, cy)]) (dropped s) (signalled s) (main s) (fresh s).
Definition drop_conn (cx : nat) (s : fwdr) : fwdr :=
  MkFwdr (loops s) (listening s) (building s) (sessions s) (dropped s ++ [cx]) (signalled s) (main s) (fresh s).
Definition next_conn (s : fwdr) : fwdr :=
  MkFwdr (loops s) (listening s) (building s) (sessions s) (dropped s) (signalled s) (main s) (S (fresh s)).

(** The process when the loops have been started on [n] listeners. *)
Definition fwdr_init (n : nat) : fwdr :=
  MkFwdr (replicate n Accepting) (replicate n true) true [] [] Unsignalled Waiting 0.

(** What an [Accept] gives: a connection, or an error. *)
Definition accepted (i : nat) (r : option error) (s : fwdr) : option fwdr :=
  match loops s !! i with
  | Some Accepting =>
      match r with
      | Some e => Some (set_loop i (Ended e) s)
      | None => Some (set_loop i (Connecting (fresh s)) (next_conn s))
      end
  | _ => None
  end.

(** [ConnBuilder.Accept]: its listener has a connection, and the handshake begins; it succeeds, or
    fails and the next connection is waited for. *)
Definition syncing (i : nat) (answers : bool) (s : fwdr) : option fwdr :=
  match loops s !! i with
  | Some Accepting => Some (set_loop i (Syncing answers) s)
  | _ => None
  end.

Definition synced (i : nat) (ok : bool) (s : fwdr) : option fwdr :=
  match loops s !! i with
  | Some (Syncing true) =>
      Some (if ok then set_loop i (Connecting (fresh s)) (next_conn s) else set_loop i Accepting s)
  | _ => None
  end.

(** The same for [b.Accept()]: the error leaves the accepted connection behind. *)
Definition connected (i : nat) (r : option error) (s : fwdr) : option fwdr :=
  match loops s !! i with
  | Some (Connecting cx) =>
      match r with
      | Some e => Some (set_loop i (Ended e) (drop_conn cx s))
      | None => Some (set_loop i Accepting (start_forward cx (fresh s) (next_conn s)))
      end
  | _ => None
  end.

Definition pairing (i : nat) (answers : bool) (s : fwdr) : option fwdr :=
  match loops s !! i with
  | Some (Connecting cx) => Some (set_loop i (Pairing answers cx) s)
  | _ => None
  end.

Definition paired (i : nat) (ok : bool) (s : fwdr) : option fwdr :=
  match loops s !! i with
  | Some (Pairing true cx) =>
      Some (if ok then set_loop i Accepting (start_forward cx (fresh s) (next_conn s))
            else set_loop i (Connecting cx) s)
  | _ => None
  end.

(** The signal goroutine: the signal arrives; a listener is closed; the builder is. *)
Definition sig_round (s : fwdr) : option fwdr :=
  match signalled s with
  | Unsignalled => Some (set_signalled (Closing 0) s)
  | Closing k =>
      if decide (k < length (listening s))%nat
      then Some (set_signalled (Closing (S k)) (set_listening (<[k := false]> (listening s)) s))
      else Some (set_signalled Handled (set_building false s))
  | Handled => None
  end.

Definition is_ended (p : loop_pc) : bool := match p with Ended _ => true | _ => false end.

(** [eg.Wait] returns when every goroutine of the group has. *)
Definition main_round (s : fwdr) : option fwdr :=
  if forallb is_ended (loops s) then Some (set_main Finished s) else None.

(** Whether [Accept] makes a handshake, and whether it dials, so that [Close] has no effect on
    later calls. *)
Definition handshakes (l : listener) : bool := match l with LQemu _ _ | LPipe _ _ => true | _ => false end.
Definition dials (l : listener) : bool := match l with LDial _ _ | LVsock _ _ => true | _ => false end.

Section running.
(** The directories that are polled: those of the qemu addresses; the listeners, and the builder. *)
Context (polled : list string) (ls : list listener) (b : listener).

Definition syncs (i : nat) : Prop := handshakes <$> ls !! i = Some true.

(** A closed listener gives no connection, nor does a closed builder unless it dials; a handshake
    that was begun goes on all the same.  Waiting for a connection may fail at any time. *)
Inductive fw_own : fwdr → fwdr → Prop :=
| fw_accept i r s s' : main s = Waiting →
    (r = None → listening s !! i = Some true ∧ ¬ syncs i) → accepted i r s = Some s' → fw_own s s'
| fw_syncing i a s s' : main s = Waiting →
    listening s !! i = Some true → syncs i → syncing i a s = Some s' → fw_own s s'
| fw_synced i ok s s' : main s = Waiting → synced i ok s = Some s' → fw_own s s'
| fw_connect i r s s' : main s = Waiting →
    (r = None → (building s = true ∨ dials b = true) ∧ handshakes b = false) →
    connected i r s = Some s' → fw_own s s'
| fw_pairing i a s s' : main s = Waiting →
    building s = true → handshakes b = true → pairing i a s = Some s' → fw_own s s'
| fw_paired i ok s s' : main s = Waiting → paired i ok s = Some s' → fw_own s s'
| fw_signal s s' : main s = Waiting → sig_round s = Some s' → fw_own s s'
| fw_main s s' : main s = Waiting → main_round s = Some s' → fw_own s s'.

(** ... or the emulator's directory is gone. *)
Inductive fw_step : fwdr → fwdr → Prop :=
| fw_do s s' : fw_own s s' → fw_step s s'
| fw_gone a s : main s = Waiting → a ∈ polled → fw_step s (set_main Killed s).

(** ** No connection is lost or used twice *)

Definition held (p : loop_pc) : option nat :=
  match p with Connecting cx | Pairing _ cx => Some cx | _ => None end.

(** Every connection the process has: held by a loop, forwarded, or dropped. *)
Definition connections (s : fwdr) : list nat :=
  omap held (loops s) ++ mjoin ((λ c, [fst c; snd c]) <$> sessions s) ++ dropped s.

Lemma omap_held_insert l i p q :
  l !! i = Some p →
  ∃ rest, omap held l ≡ₚ option_list (held p) ++ rest ∧
          omap held (<[i := q]> l) ≡ₚ option_list (held q) ++ rest.
Proof.
  intros H. exists (omap held (take i l) ++ omap held (drop (S i) l)). split.
  - rewrite <- (take_drop_middle l i p H) at 1. rewrite omap_app. cbn.
    destruct (held p); cbn; [|done]. by rewrite Permutation_middle.
  - rewrite insert_take_drop by (by eapply lookup_lt_Some). rewrite omap_app. cbn.
    destruct (held q); cbn; [|done]. by rewrite Permutation_middle.
Qed.

Definition conserved (s : fwdr) : Prop := connections s ≡ₚ seq 0 (fresh s).

(** A loop goes from [p] to [q]; [new] are the connections this makes. *)
Lemma conserved_loop i p q s s' :
  conserved s → loops s !! i = Some p → loops s' = <[i := q]> (loops s) →
  option_list (held q) ++ mjoin ((λ c, [fst c; snd c]) <$> sessions s') ++ dropped s' ≡ₚ
    option_list (held p) ++ mjoin ((λ c, [fst c; snd c]) <$> sessions s) ++ dropped s ++
    seq (fresh s) (fresh s' - fresh s) →
  (fresh s ≤ fresh s')%nat → conserved s'.
Proof.
  unfold conserved, connections. intros Hc Hi -> Hp Hf.
  destruct (omap_held_insert _ i _ q Hi) as (rest & H1 & H2). rewrite H2. rewrite H1 in Hc.
  replace (fresh s') with (fresh s + (fresh s' - fresh s))%nat by lia. rewrite seq_app, <- Hc.
  rewrite <- !app_assoc, (Permutation_app_swap_app _ rest), Hp. solve_Permutation.
Qed.

Ltac by_loop H i := lazymatch type of H with context [loops ?s !! i] =>
    destruct (loops s !! i) as [[| [] | cx | [] cx | er]|] eqn:Hi; try discriminate end.

Lemma conserved_step s s' : conserved s → fw_step s s' → conserved s'.
Proof.
  intros Hc Hw. destruct Hw as [s0 s1 Hs|a s0 _ _]; [|exact Hc].
  destruct Hs as [i r s s' _ _ H|i a s s' _ _ _ H|i ok s s' _ H|i r s s' _ _ H|i a s s' _ _ _ H|i ok s s' _ H
    |s s' _ H|s s' _ H].
  - unfold accepted in H. by_loop H i. destruct r; injection H as <-;
      (eapply (conserved_loop i); [done|exact Hi|done|cbn -[seq]|cbn; lia]).
    + by rewrite Nat.sub_diag, app_nil_r.
    + replace (S (fresh s) - fresh s)%nat with 1%nat by lia. cbn. solve_Permutation.
  - unfold syncing in H. by_loop H i. injection H as <-.
    eapply (conserved_loop i); [done|exact Hi|done|cbn -[seq]|cbn; lia]. by rewrite Nat.sub_diag, app_nil_r.
  - unfold synced in H. by_loop H i. destruct ok; injection H as <-;
      (eapply (conserved_loop i); [done|exact Hi|done|cbn -[seq]|cbn; lia]).
    + replace (S (fresh s) - fresh s)%nat with 1%nat by lia. cbn. solve_Permutation.
    + by rewrite Nat.sub_diag, app_nil_r.
  - unfold connected in H. by_loop H i. destruct r; injection H as <-;
      (eapply (conserved_loop i); [done|exact Hi|done|cbn -[seq]|cbn; lia]).
    + rewrite Nat.sub_diag. cbn. solve_Permutation.
    + replace (S (fresh s) - fresh s)%nat with 1%nat by lia. rewrite fmap_app, join_app. cbn. solve_Permutation.
  - unfold pairing in H. by_loop H i. injection H as <-.
    eapply (conserved_loop i); [done|exact Hi|done|cbn -[seq]|cbn; lia]. by rewrite Nat.sub_diag, app_nil_r.
  - unfold paired in H. by_loop H i. destruct ok; injection H as <-;
      (eapply (conserved_loop i); [done|exact Hi|done|cbn -[seq]|cbn; lia]).
    + replace (S (fresh s) - fresh s)%nat with 1%nat by lia. rewrite fmap_app, join_app. cbn. solve_Permutation.
    + by rewrite Nat.sub_diag, app_nil_r.
  - unfold sig_round in H. destruct (signalled s); [|case_decide|done]; by injection H as <-.
  - unfold main_round in H. destruct (forallb _ _); [|done]. by injection H as <-.
Qed.

Lemma forwarder_conserved n s :
  rtc fw_step (fwdr_init n) s → connections s ≡ₚ seq 0 (fresh s) ∧ NoDup (connections s).
Proof.
  intros Hr. assert (conserved s) as Hc.
  { apply (invariant_rtc fw_step conserved (fwdr_init n) s); [exact conserved_step|done|].
    unfold conserved, connections. cbn [loops fwdr_init sessions dropped fresh].
    assert (omap held (replicate n Accepting) = []) as -> by (clear Hr; induction n as [|m IH]; [reflexivity|exact IH]). done. }
  split; [exact Hc|]. unfold conserved in Hc. rewrite Hc. apply NoDup_seq.
Qed.

(** C18: Every connection the forwarder accepted or dialled is held by one accept loop, is one end of
    one forwarding session, or was left behind when the other side could not be reached; none
    is in two places. *)
Theorem forwarder_conserves n s :
  rtc fw_step (fwdr_init n) s → connections s ≡ₚ seq 0 (fresh s) ∧ NoDup (connections s).
Proof. apply forwarder_conserved. Qed.

(** ** Stopping *)

(** What a step of a loop leaves alone, and what its loop was and is. *)
Lemma loop_steps (P : fwdr → fwdr → Prop) :
  (∀ i p q s s', main s = Waiting → loops s !! i = Some p → loops s' = <[i := q]> (loops s) →
     listening s' = listening s → building s' = building s → signalled s' = signalled s → main s' = main s →
     match p, q with
     | Accepting, Ended _ => True
     | Accepting, Connecting _ => listening s !! i = Some true
     | Accepting, Syncing _ => listening s !! i = Some true ∧ syncs i
     | Syncing true, (Connecting _ | Accepting) => True
     | Connecting _, Ended _ => True
     | Connecting _, Accepting => True
     | Connecting _, Pairing _ _ => building s = true ∧ handshakes b = true
     | Pairing true _, (Accepting | Connecting _) => True
     | _, _ => False
     end → P s s') →
  (∀ s s', main s = Waiting → sig_round s = Some s' → P s s') →
  (∀ s s', main s = Waiting → main_round s = Some s' → P s s') →
  ∀ s s', fw_own s s' → P s s'.
Proof.
  intros HL HS HM s s' Hs.
  destruct Hs as [i r s s' Hw Hg H|i a s s' Hw H1 H2 H|i ok s s' Hw H|i r s s' Hw _ H|i a s s' Hw H1 H2 H|i ok s s' Hw H
    |s s' Hw H|s s' Hw H].
  - unfold accepted in H. by_loop H i.
    destruct r; injection H as <-; eapply (HL i); try done; try exact Hi; try done. by apply Hg.
  - unfold syncing in H. by_loop H i. injection H as <-. by eapply (HL i _ (Syncing a)).
  - unfold synced in H. by_loop H i. destruct ok; injection H as <-.
    + by eapply (HL i _ (Connecting (fresh s))).
    + by eapply (HL i _ Accepting).
  - unfold connected in H. by_loop H i. destruct r as [e|]; injection H as <-.
    + by eapply (HL i _ (Ended e)).
    + by eapply (HL i _ Accepting).
  - unfold pairing in H. by_loop H i. injection H as <-. by eapply (HL i _ (Pairing a cx)).
  - unfold paired in H. by_loop H i. destruct ok; injection H as <-.
    + by eapply (HL i _ Accepting).
    + by eapply (HL i _ (Connecting cx)).
  - by apply HS.
  - by apply HM.
Qed.

(** The listeners below [k] are closed; after the last the builder is. *)
Definition closed_below (n : nat) (s : fwdr) : Prop :=
  length (loops s) = n ∧ length (listening s) = n ∧
  match signalled s with
  | Unsignalled => True
  | Closing k => ∀ j, (j < k)%nat → listening s !! j ≠ Some true
  | Handled => building s = false ∧ ∀ j, listening s !! j ≠ Some true
  end.

(** Only qemu listeners and builders make handshakes, and [main] ends as it should. *)
Definition handshaking (s : fwdr) : Prop :=
  (∀ i a, loops s !! i = Some (Syncing a) → syncs i) ∧
  (∀ i a cx, loops s !! i = Some (Pairing a cx) → handshakes b = true) ∧
  (main s = Finished → forallb is_ended (loops s) = true) ∧ (main s = Killed → polled ≠ []).

Lemma closed_below_step n s s' : closed_below n s → fw_step s s' → closed_below n s'.
Proof.
  intros Hc Hw. destruct Hw as [s0 s1 Hs|a s0 _ _]; [|exact Hc]. revert Hc.
  revert s0 s1 Hs. apply (loop_steps (λ s s', closed_below n s → closed_below n s')); unfold closed_below.
  - intros i p q s s' _ Hi -> -> -> -> _ _. by rewrite length_insert.
  - intros s s' _ H (HL & Hl & Hc). unfold sig_round in H. destruct (signalled s) as [|k|] eqn:E; [| |done].
    + injection H as <-. cbn. split_and!; [done|done|]. intros j Hj. lia.
    + case_decide as Hk; injection H as <-; cbn.
      * rewrite length_insert. split_and!; [done|done|]. intros j Hj.
        destruct (decide (j = k)) as [->|Hne].
        -- by rewrite list_lookup_insert_eq.
        -- rewrite list_lookup_insert_ne by done. apply Hc. lia.
      * split_and!; [done|done|done|]. intros j Hj. eapply Hc; [|exact Hj].
        apply lookup_lt_Some in Hj. lia.
  - intros s s' _ H. unfold main_round in H. destruct (forallb _ _); [|done]. by injection H as <-.
Qed.

Lemma closed_below_reach n s : rtc fw_step (fwdr_init n) s → closed_below n s.
Proof.
  intros Hr. apply (invariant_rtc fw_step (closed_below n) (fwdr_init n) s).
  - intros ?? ??. by eapply closed_below_step.
  - done.
  - unfold closed_below. cbn. by rewrite !length_replicate.
Qed.

Lemma handshaking_step s s' : handshaking s → fw_step s s' → handshaking s'.
Proof.
  intros Hc Hw. destruct Hw as [s0 s1 Hs|a s0 Hm Ha].
  2: { destruct Hc as (H1 & H2 & H3 & H4). split_and!; try done. intros _ Hn. rewrite Hn in Ha. by apply elem_of_nil in Ha. }
  revert Hc. revert s0 s1 Hs. apply (loop_steps (λ s s', handshaking s → handshaking s')); unfold handshaking.
  - intros i p q s s' Hw Hi -> _ _ _ -> Hpq (H1 & H2 & H3 & H4). rewrite Hw in *.
    split_and!; try done; intros j.
    + intros a. rewrite list_lookup_insert. case_decide as Hj; [|apply H1]. destruct Hj as [-> _].
      intros [= ->]. destruct p as [|[]| |[]|]; by destruct Hpq.
    + intros a cx. rewrite list_lookup_insert. case_decide as Hj; [|apply H2]. destruct Hj as [-> _].
      intros [= ->]. destruct p as [|[]| |[]|]; by destruct Hpq.
  - intros s s' Hw H HI. unfold sig_round in H.
    destruct (signalled s); [|case_decide|done]; injection H as <-; exact HI.
  - intros s s' Hw H (H1 & H2 & H3 & H4). unfold main_round in H.
    destruct (forallb _ _) eqn:Ef; [|done]. injection H as <-. done.
Qed.

Lemma handshaking_reach n s : rtc fw_step (fwdr_init n) s → handshaking s.
Proof.
  intros Hr. apply (invariant_rtc fw_step handshaking (fwdr_init n) s); [exact handshaking_step|done|].
  split_and!; try done; cbn; [intros i a|intros i a cx]; by intros [? _]%lookup_replicate_1.
Qed.

(** How far a loop is from its end when its listener is closed; one in a handshake without an answer
    stays where it is. *)
Definition to_go (p : loop_pc) : nat :=
  match p with
  | Ended _ | Syncing false | Pairing false _ => 0
  | Accepting => 1 | Connecting _ => 2
  | Syncing true | Pairing true _ => 3
  end.
Definition size (s : fwdr) : nat := sum_list (to_go <$> loops s) + match main s with Waiting => 1 | _ => 0 end.

Lemma sum_to_go l i p q :
  l !! i = Some p →
  (sum_list (to_go <$> <[i := q]> l) + to_go p = sum_list (to_go <$> l) + to_go q)%nat.
Proof.
  revert i. induction l as [|x l IH]; intros [|i] H; try done; csimpl in *.
  - injection H as ->. lia.
  - specialize (IH i H). lia.
Qed.

Lemma handled_step n s s' :
  closed_below n s → signalled s = Handled → fw_step s s' →
  signalled s' = Handled ∧ (size s' < size s)%nat.
Proof.
  intros Hc E Hw. destruct Hw as [s0 s1 Hs|a s0 Hm Ha].
  2: { split; [done|]. unfold size. cbn. rewrite Hm. lia. }
  revert Hc E. revert s0 s1 Hs.
  apply (loop_steps (λ s s', closed_below n s → signalled s = Handled →
    signalled s' = Handled ∧ (size s' < size s)%nat)); unfold closed_below, size.
  - intros i p q s s' Hw Hi -> _ _ -> -> Hpq (_ & _ & Hc) E. rewrite E in Hc. destruct Hc as [Hb Hl].
    split; [done|]. pose proof (sum_to_go _ i _ q Hi) as Hsum.
    destruct p as [|[]| |[]|], q as [|[]| |[]|]; cbn in *; try done; try lia.
    all: exfalso; destruct Hpq; by (congruence || eapply Hl).
  - intros s s' Hw H _ E. unfold sig_round in H. by rewrite E in H.
  - intros s s' Hw H _ E. unfold main_round in H. destruct (forallb _ _); [|done]. injection H as <-. cbn.
    rewrite Hw. split; [done|lia].
Qed.

(** A handshake that never ends. *)
Definition silent (p : loop_pc) : bool := match p with Syncing false | Pairing false _ => true | _ => false end.

Lemma stuck_silent s :
  main s = Waiting → (∀ s', ¬ fw_own s s') → ∃ i p, loops s !! i = Some p ∧ silent p = true.
Proof.
  intros Hw Hst. destruct (forallb is_ended (loops s)) eqn:E.
  - exfalso. eapply Hst, fw_main; [done|]. unfold main_round. by rewrite E.
  - assert (∃ i p, loops s !! i = Some p ∧ is_ended p = false) as (i & p & Hi & Hp).
    { clear Hw Hst. induction (loops s) as [|p l IH]; [done|]. cbn in E.
      destruct (is_ended p) eqn:Hp; [|by exists 0%nat, p].
      destruct (IH E) as (i & q & ? & ?). by exists (S i), q. }
    destruct p as [|[]|cx|[] cx|]; [| |by exists i, (Syncing false)| | |by exists i, (Pairing false cx)|done]; exfalso.
    + eapply Hst, (fw_accept i (Some EOF)); [done|done|]. unfold accepted. by rewrite Hi.
    + eapply Hst, (fw_synced i true); [done|]. unfold synced. by rewrite Hi.
    + eapply Hst, (fw_connect i (Some EOF)); [done|done|]. unfold connected. by rewrite Hi.
    + eapply Hst, (fw_paired i true); [done|]. unfold paired. by rewrite Hi.
Qed.

Lemma handled_steps n m s s' :
  closed_below n s → signalled s = Handled → nsteps fw_step m s s' → (m ≤ size s)%nat.
Proof.
  revert s. induction m as [|m IH]; intros s Hc E Hs; [lia|].
  inversion Hs as [|? ? s1 ? H1 Hs']; subst; clear Hs; rename Hs' into Hs.
  destruct (handled_step _ _ _ Hc E H1) as [E1 Hlt].
  specialize (IH s1 (closed_below_step _ _ _ Hc H1) E1 Hs). lia.
Qed.

(** C19: Once the signal goroutine has closed the listeners and the builder, the process runs out of
    steps after at most 3n + 1 of them, whatever the calls under way still return.  It has then
    ended (all loops have, and [main] returned, or a polling goroutine found the emulator gone), or it
    hangs in a handshake of a qemu listener or builder whose other side never answers; without such
    a listener or builder it ends. *)
Theorem forwarder_sigterm n s :
  rtc fw_step (fwdr_init n) s → signalled s = Handled →
  (∀ m s', nsteps fw_step m s s' → (m ≤ 3 * n + 1)%nat) ∧
  (∀ s', rtc fw_step s s' → (∀ s'', ¬ fw_own s' s'') →
     (main s' = Finished ∧ forallb is_ended (loops s') = true) ∨ (main s' = Killed ∧ polled ≠ []) ∨
     (main s' = Waiting ∧ ∃ i p, loops s' !! i = Some p ∧ silent p = true ∧
        match p with Syncing _ => syncs i | _ => handshakes b = true end)).
Proof.
  intros Hr E. pose proof (closed_below_reach _ _ Hr) as Hc. split.
  - intros m s' Hs. apply (handled_steps n) in Hs; [|done..].
    assert (sum_list (to_go <$> loops s) ≤ 3 * length (loops s))%nat as Hsz.
    { clear. induction (loops s) as [|p l IH]; cbn in *; [lia|]. destruct p as [|[]| |[]|]; cbn; lia. }
    destruct Hc as [HL _]. unfold size in Hs. destruct (main s); lia.
  - intros s' Hr' Hstuck.
    destruct (handshaking_reach n s') as (H1 & H2 & HF & HK); [by etrans|].
    destruct (main s') eqn:Em; [|by left; split; [|apply HF]|by right; left; split; [|apply HK]].
    right; right. split; [done|]. destruct (stuck_silent s' Em Hstuck) as (i & p & Hi & Hp).
    exists i, p. split_and!; [done|done|]. destruct p as [|[]|cx|[] cx|]; try done; [by eapply H1|by eapply H2].
Qed.

(** A loop in such a handshake keeps the process from ending, whatever is closed: only the end of the
    emulator's directory ends it. *)
Theorem forwarder_hangs s i p s' :
  loops s !! i = Some p → silent p = true → main s = Waiting → rtc fw_step s s' →
  loops s' !! i = Some p ∧ main s' ≠ Finished.
Proof.
  intros Hi Hp Hm Hr. assert (main s ≠ Finished) as Hm' by congruence. clear Hm.
  apply (invariant_rtc fw_step (λ s, loops s !! i = Some p ∧ main s ≠ Finished) s s'); [|done|done].
  clear s s' Hi Hm' Hr. intros s s' [Hi Hm] Hw. destruct Hw as [s0 s1 Hs|a s0 _ _]; [|done].
  revert Hi Hm. revert s0 s1 Hs.
  apply (loop_steps (λ s s', loops s !! i = Some p → main s ≠ Finished → loops s' !! i = Some p ∧ main s' ≠ Finished)).
  - intros j p' q s s' _ Hj -> _ _ _ -> Hpq Hi Hm. split; [|done].
    rewrite list_lookup_insert_ne; [done|]. intros ->. rewrite Hi in Hj. injection Hj as <-.
    by destruct p as [|[]|cx|[] cx|].
  - intros s s' Hw H Hi Hm. unfold sig_round in H. destruct (signalled s); [|case_decide|done]; by injection H as <-.
  - intros s s' Hw H Hi Hm. exfalso. unfold main_round in H. destruct (forallb _ _) eqn:Ef; [|done].
    rewrite forallb_forall in Ef. specialize (Ef p (proj1 (list_elem_of_In _ _) (list_elem_of_lookup_2 _ _ _ Hi))).
    by destruct p as [|[]|cx|[] cx|].
Qed.

(** One listener's failure does not stop the others: as long as [main] waits, a loop that is
    accepting on an open listener takes the next connection, pairs it with the next one of the
    builder, starts to forward between the two and accepts again, when the handshakes there are go
    well. *)
Theorem forwarder_serves n s i :
  rtc fw_step (fwdr_init n) s → main s = Waiting →
  loops s !! i = Some Accepting → listening s !! i = Some true → building s = true →
  ∃ s', rtc fw_step s s' ∧ loops s' = loops s ∧ main s' = Waiting ∧
    sessions s' = sessions s ++ [(fresh s, S (fresh s))] ∧
    fresh s ∉ connections s ∧ S (fresh s) ∉ connections s.
Proof.
  intros Hr Hw Hi Hl Hb. destruct (forwarder_conserved n s Hr) as [Hp _].
  pose proof (lookup_lt_Some _ _ _ Hi) as Hlt.
  assert (rtc fw_step s (set_loop i (Connecting (fresh s)) (next_conn s))) as H1.
  { destruct (decide (syncs i)) as [Hsy|Hsy].
    - eapply rtc_l; [apply fw_do; eapply (fw_syncing i true); [done|done|done|]; unfold syncing; by rewrite Hi|].
      eapply rtc_l; [apply fw_do; eapply (fw_synced i true); [done|]; unfold synced; cbn; by rewrite list_lookup_insert_eq|].
      cbn. unfold set_loop, next_conn. cbn. rewrite list_insert_insert_eq. done.
    - apply rtc_once, fw_do. eapply (fw_accept i None); [done|done|]. unfold accepted. by rewrite Hi. }
  set (s1 := set_loop i (Connecting (fresh s)) (next_conn s)) in *.
  assert (loops s1 !! i = Some (Connecting (fresh s))) as Hi1 by (cbn; by rewrite list_lookup_insert_eq).
  exists (set_loop i Accepting (start_forward (fresh s) (fresh s1) (next_conn s1))). split.
  { etrans; [exact H1|]. destruct (handshakes b) eqn:Hh.
    - eapply rtc_l; [apply fw_do; eapply (fw_pairing i true); [done|done|done|]; unfold pairing; by rewrite Hi1|].
      eapply rtc_l; [apply fw_do; eapply (fw_paired i true); [done|]; unfold paired; cbn; by rewrite list_lookup_insert_eq by (by rewrite length_insert)|].
      cbn. unfold set_loop, start_forward, next_conn. cbn. rewrite !list_insert_insert_eq. done.
    - apply rtc_once, fw_do. eapply (fw_connect i None); [done|by split; [left|]|]. unfold connected. by rewrite Hi1. }
  split_and!; cbn; [by rewrite list_insert_insert_eq, list_insert_id|done|done|..]; rewrite Hp, elem_of_seq; lia.
Qed.
End running.

(** ** What the loops log *)

(** The address loop [i] prints for every pair of connections: [lisAddrs[i]]. *)
Definition logged (lisAddrs : list ParsedAddr) (i : nat) : option ParsedAddr := lisAddrs !! i.

Definition supported (a : ParsedAddr) : bool := bool_decide (is_Some (listener_of a)).

(** Loops never index the list of addresses out of range, and each prints the address of its own
    listener as long as no address of an unsupported kind comes before a supported one; behind
    such an address every loop prints another address than its own. *)
Theorem forwarder_logs w addrs w' ls :
  open_listeners w addrs [] = (w', inl ls) →
  (length ls ≤ length addrs)%nat ∧
  (∀ pre a post, addrs = pre ++ a :: post → Forall supported pre → supported a →
     ls !! length pre = listener_of a ∧ logged addrs (length pre) = Some a) ∧
  (∀ pre u a post, addrs = pre ++ u :: a :: post → Forall supported pre → ¬ supported u → supported a →
     ls !! length pre = listener_of a ∧ logged addrs (length pre) = Some u).
Proof.
  intros H. apply open_listeners_opens in H as (-> & _). cbn [app].
  assert (∀ pre post, Forall supported pre →
    omap listener_of (pre ++ post) !! length pre = omap listener_of post !! 0%nat) as Hpre.
  { intros pre post Hs. induction Hs as [|x pre Hx _ IH]; [done|]. cbn [app omap list_omap].
    destruct (bool_decide_unpack _ Hx) as [l Hl]. by rewrite Hl. }
  split_and!.
  - induction addrs as [|a addrs IH]; cbn; [lia|]. destruct (listener_of a); cbn; lia.
  - intros pre a post -> Hs Ha. rewrite Hpre by done. split.
    + destruct (bool_decide_unpack _ Ha) as [l Hl]. cbn. by rewrite Hl.
    + unfold logged. by rewrite list_lookup_middle.
  - intros pre u a post -> Hs Hu Ha. rewrite Hpre by done. split.
    + destruct (bool_decide_unpack _ Ha) as [l Hl]. cbn. destruct (listener_of u) eqn:E; [|by rewrite Hl].
      destruct Hu. unfold supported. rewrite E. by apply bool_decide_pack.
    + unfold logged. by rewrite list_lookup_middle.
Qed.

(** ** A run *)

(** One listener; a connection is accepted, the signal comes, the connection is still served,
    and the loop ends. *)
Definition demo_stopped : fwdr :=
  MkFwdr [Connecting 0] [false] false [] [] Handled Waiting 1.

Notation demo_step := (fw_step [] [LNet "unix" "@h2o"] (LDial "unix" "@h2o")).

Lemma demo_not_syncs l i : handshakes l = false → ¬ syncs [l] i.
Proof. unfold syncs. destruct i as [|i]; cbn; [by intros ->|done]. Qed.

Lemma demo_stopped_reach : rtc demo_step (fwdr_init 1) demo_stopped.
Proof.
  eapply rtc_l; [apply fw_do; eapply (fw_accept _ _ 0 None); [done|by split; [|apply demo_not_syncs]|done]|].
  eapply rtc_l; [apply fw_do; by eapply fw_signal|]. eapply rtc_l; [apply fw_do; by eapply fw_signal|].
  eapply rtc_l; [apply fw_do; by eapply fw_signal|]. apply rtc_refl.
Defined.

Lemma forwarder_conserves_witness : connections demo_stopped ≡ₚ seq 0 1.
Proof. exact (proj1 (forwarder_conserves _ _ _ 1 demo_stopped demo_stopped_reach)). Defined.

Lemma forwarder_sigterm_witness : ∃ m s',
  nsteps demo_step m demo_stopped s' ∧ main s' = Finished ∧ sessions s' = [(0, 1)]%nat ∧ (m ≤ 4)%nat.
Proof.
  assert (∃ s', nsteps demo_step 3 demo_stopped s' ∧ main s' = Finished ∧ sessions s' = [(0, 1)]%nat)
    as (s' & H & Hm & Hs).
  { eexists. split; [|split].
    - eapply nsteps_l; [apply fw_do; by eapply (fw_connect _ _ 0 None); [|split; [right|]|]|].
      eapply nsteps_l; [apply fw_do; by eapply (fw_accept _ _ 0 (Some EOF))|].
      eapply nsteps_l; [apply fw_do; by eapply fw_main|]. apply nsteps_O.
    - done.
    - done. }
  exists 3%nat, s'. split; [exact H|split; [exact Hm|split; [exact Hs|]]].
  exact (proj1 (forwarder_sigterm _ _ _ 1 demo_stopped demo_stopped_reach eq_refl) 3%nat s' H).
Defined.

(** A guest that takes the connection of a qemu listener and says nothing: the signal comes, all
    is closed, and the process stays. *)
Definition demo_hung : fwdr := MkFwdr [Syncing false] [false] false [] [] Handled Waiting 0.

Lemma demo_hung_reach :
  rtc (fw_step ["emu"] [LQemu "emu" "sockets/h2o"] (LDial "unix" "@h2o")) (fwdr_init 1) demo_hung.
Proof.
  eapply rtc_l; [apply fw_do; by eapply (fw_syncing _ _ 0 false)|].
  eapply rtc_l; [apply fw_do; by eapply fw_signal|]. eapply rtc_l; [apply fw_do; by eapply fw_signal|].
  eapply rtc_l; [apply fw_do; by eapply fw_signal|]. apply rtc_refl.
Defined.

Lemma forwarder_hangs_witness :
  ∀ s', rtc (fw_step ["emu"] [LQemu "emu" "sockets/h2o"] (LDial "unix" "@h2o")) demo_hung s' → main s' ≠ Finished.
Proof. intros s' H. exact (proj2 (forwarder_hangs _ _ _ demo_hung 0 _ s' eq_refl eq_refl eq_refl H)). Defined.

Lemma forwarder_serves_witness : ∃ s', rtc demo_step (fwdr_init 2) s' ∧ sessions s' = [(0, 1)]%nat.
Proof.
  destruct (forwarder_serves [] [LNet "unix" "@h2o"] (LDial "unix" "@h2o") 2 (fwdr_init 2) 1 (rtc_refl _ _)
    eq_refl eq_refl eq_refl eq_refl) as (s' & H1 & _ & _ & H2 & _).
  exists s'. split; [exact H1|exact H2].
Defined.

Definition demo_addrs : list ParsedAddr :=
  [MkParsedAddr QemuGuest "sockets/h2o" "" 0 None; MkParsedAddr Unix "@h2o" "" 0 None].

Lemma forwarder_logs_witness :
  listener_of <$> (demo_addrs !! 1%nat) = Some (Some (LNet Unix "@h2o")) ∧
  logged demo_addrs 0 = Some (MkParsedAddr QemuGuest "sockets/h2o" "" 0 None).
Proof.
  destruct (forwarder_logs (demo_world "0") demo_addrs _ _ eq_refl) as (_ & _ & H).
  split; [reflexivity|]. refine (proj2 (H [] _ _ [] eq_refl _ _ _)); [constructor|by intros ?|reflexivity].
Defined.
